(* ===== verification/_CoqProject ===== *)
-Q . S2P
Prelude.v
Doubles.v
Values.v
Trees.v
SaveVariable.v
StateSerializer.v
Config.v
Uids.v
Objects.v
ObjectManager.v
WorldDump.v
Scheduler.v
Connection.v
Telnet.v
WebSocket.v
Lexer.v
LexerSpec.v
Preprocess.v
PreprocessSpec.v
Masking.v
Ast.v
Parser.v
ParserTotal.v
Grammar.v
ParserReads.v
ParserSpec.v
Bytecode.v
CodeGen.v
Verified.v
CodeGenLogic.v
CodeGenRules.v
CodeGenSpec.v
CodeGenTotal.v
Operators.v
IntArith.v
Sscanf.v
SscanfSpec.v
Machine.v
MachineLogic.v
MachineChecks.v
Commands.v
CommandsLogic.v
Efuns.v
EfunsLogic.v
Execution.v
CommandsSpec.v
Sockets.v
SocketsSpec.v
MudFrames.v
