(* ===== verification/Prelude.v ===== *)
(** * KJDMUD: a verification of the driver

    KJDMUD is a driver for LPC mudlibs: it compiles LPC files to bytecode, runs
    the objects they make, talks to players over telnet and WebSocket, and
    keeps objects on disk.  This library models the parts below as Rocq
    functions, translated from the C++ sources under [src/], and proves what
    they promise.

    ** The program

    A source file goes through the preprocessing passes of the object manager
    and the system preprocessor, then the lexer, the parser and the code
    generator.  The object manager keeps the programs and the objects made
    from them, and the virtual machine runs their functions.  The scheduler
    calls them on a timer, the server on input: a connection turns bytes from
    the network into lines, a socket of an LPC object turns them into
    callbacks.  [save_object] and the world dump write values as text and read
    them back.

    ** The files

    Values and objects
    - [Prelude]: bytes, results of C++ functions (a value, an exception,
      undefined behaviour, or not enough fuel), fixed-width integers, the
      standard library functions on strings and numbers, and their lemmas.
    - [Doubles]: binary64 numbers, how they are printed and read.
    - [Values]: [vm/Value.hpp], [vm/Value.cpp].  [Trees]: the finite unfolding
      of a value, which the round trips speak of.
    - [Objects]: [LpcObject], the live object, living name and interactive
      registries.  [Uids]: [security/UidModel.cpp].
    - [Config]: [config/Config.cpp], the dialects and their boot interfaces.

    Saving
    - [SaveVariable]: [vm/SaveVariable.cpp].
    - [StateSerializer], [WorldDump]: [persist/StateSerializer.cpp].

    From source to object
    - [Preprocess]: [object/ObjectManager.cpp] before [compile];
      [PreprocessSpec], [Masking]: its properties.
    - [Lexer]: [compiler/Lexer.cpp]; [LexerSpec]: the grammar it reads.
    - [Ast]: [compiler/Ast.hpp].  [Parser]: [compiler/Parser.cpp];
      [ParserTotal]: that it ends.  [Grammar]: the grammar of LPC;
      [ParserReads], [ParserSpec]: that the parser reads it.
    - [Bytecode]: the instructions and programs of [vm/Bytecode.hpp].
      [CodeGen]: [compiler/CodeGen.cpp].  [Verified]: what the machine relies
      on in a program.  [CodeGenLogic], [CodeGenRules]: a logic for the
      generator, a rule per member function; [CodeGenSpec]: its programs are
      verified; [CodeGenTotal]: it ends.
    - [ObjectManager]: the rest of [object/ObjectManager.cpp]: compilation of
      inherit trees, loading, cloning, destruction, shadows, reloading.

    The virtual machine
    - [Operators]: the operators of [VM::run] in [vm/VM.cpp]; [IntArith]: what
      they are on integers.
    - [Sscanf]: [runSscanf]; [SscanfSpec]: its bounds and its round trip.
    - [Machine]: [VM::run] and the calls into it, instruction by instruction,
      with the guards of its stacks.  [MachineLogic]: what a part of a run
      keeps; [MachineChecks]: its checks never fail on verified programs.
    - [Commands]: the ways into the machine from outside ([callFunction],
      [applyMaster], [privilegeViolation], [moveObject], [dispatchCommand],
      driver hooks, [replace_program]); [CommandsLogic]: what they keep.
    - [Efuns]: built-in functions of [efun/EfunTable.cpp], among them those
      that call back into LPC; [EfunsLogic]: what they keep.
    - [Execution]: generated programs run without a failing check.
      [CommandsSpec]: shadows, places and typed commands.

    Running
    - [Scheduler]: [scheduler/Scheduler.cpp].
    - [Connection]: [net/Connection.cpp]; [Telnet], [WebSocket]: its
      properties.
    - [Sockets]: [net/SocketRegistry.cpp] and [Server::pollSockets];
      [SocketsSpec], [MudFrames]: their properties.

    ** What is shown

    - Round trips: a savable value is read back from a save file, from a world
      dump, and from a save line that was itself read; GMCP, MSDP and ZMP
      messages and WebSocket frames are received as sent, however the network
      cuts them; so are the lines a player types and the values of a MUD
      socket.
    - Refinement: the telnet machine implements a grammar of telnet tokens and
      the lexer reads exactly the texts of a grammar of lexemes, which is also
      what makes the masking of a source around the system preprocessor
      invisible to the compiler.  The parser gives every text of the grammar of
      LPC the tree that the grammar derives.
    - Compiled code: the functions of a generated program are verified, as
      bytecode is: each position has a fixed depth of the stack, operands and
      jumps denote something, nothing is left open by a return.
    - Execution: on verified programs the checks the machine makes on its own
      code are redundant, and the code generator writes such programs; this
      covers the built-in functions of [Efuns] and what they call back.  It
      needs trees without a jump out of a [time_expression], code that fits
      the operands, no two spread arguments in a row and slot counts that fit
      a byte; each condition is a definition of its own, and where it fails the
      driver has a known defect.  Operators are exact up to 2^53, [sscanf]
      reads no byte outside of its input.
    - Termination: compiling ends on every inherit graph, the lexer, the
      parser and the code generator on every text, option negotiation on every
      answer.  Where the code does not end (the save file reader, the WebSocket
      decoder) that is a theorem too.
    - Invariants and safety: the registries of sockets, living names, call
      outs and heart beats, the chains of shadows, the inventories; who may use a socket, which
      uid an object gets, which files an include opens, which arguments the
      preprocessor command has.
    - Functional behaviour and errors: the scheduler's sweeps, destruction and
      loading on every branch, refused input; which function of a shadow chain
      a call runs, which handler a typed line reaches.

    ** Conventions

    A class (or struct) is a record with the fields of the source, an object
    behind a [shared_ptr] is an address in a table, a [weak_ptr] an optional
    address that may dangle.  Strings are lists of bytes.  Integers are [Z],
    with the wrap-around or the undefined behaviour of the C++ type written
    out where it can happen.  Components that call each other do so through
    classes: [VM] and [Frontend] for the object manager, [Driver] for the
    scheduler, [SocketVM] for the sockets; LPC code behind them may change the
    state in any way the class allows and may throw.  The machine calls its
    built-in functions through [Efuns], of which [driver_efuns] is the
    instance of the driver.  Third-party code is described by its documented
    bounds ([PcreLaws]).

    Loops and recursions that are not structural take fuel.  The fuel is a
    bound that is proved enough (the length of the text for the readers, one
    more than the number of files for [compile], one more than the number of
    tokens for the parser, the weight of the literals for the code generator, the
    length of the input for the decoders), or the theorem says for which fuel it holds; [OutOfFuel] is
    a result of its own and never stands for a value.

    ** Not modelled

    - Most of the built-in functions ([efun/]): to the machine here a name that
      is not in [Efuns] is an undefined efun.  A run that would load a file
      stops; loading is in [ObjectManager], which sees the machine through an
      interface, as the scheduler and the sockets do.
    - Coroutines ([Suspend]), [VM::destructObject] and [VM::reloadObject]
      beyond the object manager's part of them.
    - The rest of the server ([net/Server.cpp] but [pollSockets]) and the
      network efuns: to come are the sessions (attaching a connection to an
      object and closing it), snooping and the protocol handlers.
    - System calls, TLS, the file system and the system preprocessor: their
      results are arguments.  [SHA1], [inet_addr] and the SQL clients are
      third-party code.
    - [main.cpp]: it builds the components and hands over the arguments. *)

From Stdlib Require Export Ascii String ZArith Lia.
From stdpp Require Export base numbers strings gmap list.

#[export] Set Default Goal Selector "!".

Declare Scope kj_scope.
Delimit Scope kj_scope with kj.
Open Scope Z_scope.

(** ** Bytes

    [std::string] is a sequence of bytes that may contain any of the 256
    values (NUL included), so it is a list of 8-bit characters. *)

Abbreviation bytes := (list ascii).

(** Characters that cannot be written in a string of Rocq. *)
Definition QUOTE : ascii := "034".
Definition BACKSLASH : ascii := "\".
Definition NL : ascii := "010".
Definition CRB : ascii := "013".
Definition TAB : ascii := "009".
Definition NUL : ascii := "000".

(** The numeric value of a byte: [static_cast<unsigned char>(c)]. *)
Definition code (c : ascii) : Z := Z.of_N (N_of_ascii c).

(** [static_cast<char>(z)] of a byte value: the low eight bits. *)
Definition chr (z : Z) : ascii := ascii_of_N (Z.to_N (z mod 256)).

(** A string literal of the source. *)
Notation "$ s" := (list_ascii_of_string s%string)
  (at level 1, s at level 0, format "$ s") : kj_scope.
Open Scope kj_scope.

(** ** Exceptions and results

    A C++ function of the driver returns, throws, has undefined behaviour
    (an unchecked access out of bounds), or loops.  [OutOfFuel] is the model's
    own outcome: the bound given to a recursive definition was too small.
    Termination theorems show that it does not happen; a definition that
    answers [OutOfFuel] for every bound is a loop that never ends. *)

Inductive exn :=
  | LpcRuntimeError (msg : bytes)
  | NotImplementedError (msg : bytes)
  | InvalidArgument              (** [std::invalid_argument] *)
  | OutOfRange                   (** [std::out_of_range] *)
  | AllocFailure.                (** [std::length_error], [std::bad_alloc] *)

Inductive result (A : Type) :=
  | Ok (a : A)
  | Throw (e : exn)
  | Undefined
  | OutOfFuel.
Arguments Ok {A} a.
Arguments Throw {A} e.
Arguments Undefined {A}.
Arguments OutOfFuel {A}.

#[export] Instance exn_eq_dec : EqDecision exn.
Proof. solve_decision. Defined.

#[export] Instance result_eq_dec `{EqDecision A} : EqDecision (result A).
Proof. solve_decision. Defined.

Definition rbind {A B} (m : result A) (k : A → result B) : result B :=
  match m with
  | Ok a => k a
  | Throw e => Throw e
  | Undefined => Undefined
  | OutOfFuel => OutOfFuel
  end.

(** An unchecked access: [Undefined] when there is nothing to read. *)
Definition deref {A} (o : option A) : result A :=
  match o with Some a => Ok a | None => Undefined end.

Notation "'let*' p := m 'in' k" := (rbind m (fun p => k))
  (at level 10, p pattern, m at level 100, k at level 200) : kj_scope.

(** The function returned or threw: it did not run out of fuel. *)
Definition terminates {A} (m : result A) : Prop := m ≠ OutOfFuel.

Lemma rbind_Ok_inv {A B} (m : result A) (k : A → result B) b :
  rbind m k = Ok b → ∃ a, m = Ok a ∧ k a = Ok b.
Proof. destruct m; simpl; naive_solver. Qed.

Lemma terminates_rbind {A B} (m : result A) (k : A → result B) :
  terminates m → (∀ a, m = Ok a → terminates (k a)) → terminates (rbind m k).
Proof. unfold terminates. destruct m; simpl; naive_solver. Qed.

Lemma terminates_Ok {A} (a : A) : terminates (Ok a).
Proof. done. Qed.
Lemma terminates_Throw {A} e : terminates (@Throw A e).
Proof. done. Qed.

Create HintDb kj.
#[export] Hint Resolve terminates_rbind terminates_Ok terminates_Throw : kj.

(** ** Tactics *)

(** Decompose hypotheses [m1; k = Ok b] into the run of each step. *)
Ltac inv_ok :=
  repeat match goal with
  | H : rbind _ _ = Ok _ |- _ =>
      apply rbind_Ok_inv in H; destruct H as (? & ? & ?)
  | H : Ok _ = Ok _ |- _ => injection H as H; subst
  | H : Throw _ = Ok _ |- _ => discriminate H
  | H : Undefined = Ok _ |- _ => discriminate H
  | H : OutOfFuel = Ok _ |- _ => discriminate H
  end.

(** Case analysis on the boolean test of the first [if] of the goal. *)
Ltac case_if :=
  match goal with
  | |- context [if ?b then _ else _] => destruct b eqn:?
  end.

Ltac case_if_in H :=
  match type of H with
  | context [if ?b then _ else _] => destruct b eqn:?
  end.

(** Turn boolean tests into propositions. *)
Ltac prop_tests :=
  repeat match goal with
  | H : (_ && _)%bool = true |- _ => apply andb_true_iff in H as [? ?]
  | H : (_ || _)%bool = false |- _ => apply orb_false_iff in H as [? ?]
  | H : negb _ = true |- _ => apply negb_true_iff in H
  | H : negb _ = false |- _ => apply negb_false_iff in H
  | H : (_ <? _) = true |- _ => apply Z.ltb_lt in H
  | H : (_ <? _) = false |- _ => apply Z.ltb_ge in H
  | H : (_ <=? _) = true |- _ => apply Z.leb_le in H
  | H : (_ <=? _) = false |- _ => apply Z.leb_gt in H
  | H : (_ =? _) = true |- _ => apply Z.eqb_eq in H
  | H : (_ =? _) = false |- _ => apply Z.eqb_neq in H
  | H : Ascii.eqb _ _ = true |- _ => apply Ascii.eqb_eq in H
  | H : Ascii.eqb _ _ = false |- _ => apply Ascii.eqb_neq in H
  | H : bool_decide _ = true |- _ => apply bool_decide_eq_true in H
  | H : bool_decide _ = false |- _ => apply bool_decide_eq_false in H
  end.

(** A closed decidable proposition. *)
Ltac decided := apply (bool_decide_unpack _); vm_compute; exact I.

(** ** Record update

    [r <| f := v |>] and [r <| f ::= g |>].  A record type gives its eta
    expansion once; the setter of a projection is found by abstracting that
    projection in it, so a projection of an update computes. *)

Class Eta (R : Type) := eta : R → R.
Class Setter {R E : Type} (proj : R → E) := update : (E → E) → R → R.
Arguments update {R E} proj {_} / f r.

Ltac solve_setter proj :=
  match goal with
  | |- @Setter ?R ?E _ =>
      let inst := constr:(_ : Eta R) in
      let e := eval hnf in inst in
      match eval pattern proj in e with
      | ?g _ => let t := eval cbv beta in (fun (f : E → E) => g (fun r => f (proj r))) in exact t
      end
  end.
#[export] Hint Extern 1 (Setter ?proj) => solve_setter proj : typeclass_instances.

Notation "r <| proj ::= f |>" := (update proj f r)
  (at level 8, proj at level 9, f at level 99, left associativity, format "r  <| proj  ::=  f |>") : kj_scope.
Notation "r <| proj := v |>" := (update proj (λ _, v) r)
  (at level 8, proj at level 9, v at level 99, left associativity, format "r  <| proj  :=  v |>") : kj_scope.

(** ** Byte lemmas *)

Lemma code_range c : 0 ≤ code c < 256.
Proof.
  unfold code. split; [apply N2Z.is_nonneg|].
  change 256 with (Z.of_N 256). apply N2Z.inj_lt, N_ascii_bounded.
Qed.

Lemma chr_code c : chr (code c) = c.
Proof.
  unfold chr. rewrite Z.mod_small by apply code_range.
  unfold code. rewrite N2Z.id. apply ascii_N_embedding.
Qed.

Lemma code_chr z : code (chr z) = z mod 256.
Proof.
  unfold chr, code. pose proof (Z.mod_pos_bound z 256).
  rewrite N_ascii_embedding by (change 256%N with (Z.to_N 256); lia). lia.
Qed.

Lemma code_inj c1 c2 : code c1 = code c2 → c1 = c2.
Proof. intros H. by rewrite <- (chr_code c1), H, chr_code. Qed.

Lemma ascii_eqb_neq c d : c ≠ d → Ascii.eqb c d = false.
Proof. apply Ascii.eqb_neq. Qed.

(** ** [std::string] operations

    Positions and lengths are [size_t] values, written as [Z] and wrapped to
    64 bits where the code adds to a value that can be [npos].  The
    definitions never convert a position to unary before it is known to lie
    inside the string, so they stay executable on corrupt input. *)

Definition u64 (z : Z) : Z := z mod 2 ^ 64.
Definition npos : Z := 2 ^ 64 - 1.
Definition in_i64 (z : Z) : bool := (- 2 ^ 63 <=? z) && (z <? 2 ^ 63).

Lemma in_i64_true z : - 2 ^ 63 ≤ z < 2 ^ 63 → in_i64 z = true.
Proof. intros H. apply andb_true_iff. split; [apply Z.leb_le|apply Z.ltb_lt]; lia. Qed.

Definition size {A} (s : list A) : Z := Z.of_nat (length s).

(** The suffix from a position, and the prefix of a length. *)
Definition dropz {A} (pos : Z) (s : list A) : list A :=
  if size s <=? pos then [] else drop (Z.to_nat pos) s.
Definition takez {A} (n : Z) (s : list A) : list A :=
  if size s <=? n then s else take (Z.to_nat n) s.

(** [s[pos]], guarded by [pos < s.size()]. *)
Definition at_pos {A} (s : list A) (pos : Z) : option A := head (dropz pos s).

Fixpoint index_of (c : ascii) (s : bytes) : option nat :=
  match s with
  | [] => None
  | d :: s => if Ascii.eqb c d then Some 0%nat else S <$> index_of c s
  end.

(** [s.find(c, pos)]. *)
Definition find_from (c : ascii) (s : bytes) (pos : Z) : Z :=
  match index_of c (dropz pos s) with
  | Some i => pos + Z.of_nat i
  | None => npos
  end.

(** [s.substr(pos, n)]. *)
Definition substr (s : bytes) (pos n : Z) : result bytes :=
  if size s <? pos then Throw OutOfRange else Ok (takez n (dropz pos s)).

(** The prefix of [s] whose bytes satisfy [p], and what follows. *)
Fixpoint span (p : ascii → bool) (s : bytes) : bytes * bytes :=
  match s with
  | [] => ([], [])
  | c :: s' => if p c then let '(a, b) := span p s' in (c :: a, b) else ([], s)
  end.

(** [s.compare(0, p.size(), p) == 0] at the current position. *)
Fixpoint strip_prefix (p s : bytes) : option bytes :=
  match p, s with
  | [], _ => Some s
  | a :: p, b :: s => if Ascii.eqb a b then strip_prefix p s else None
  | _ :: _, [] => None
  end.

(** A string addressable by [size_t] with room for [npos]. *)
Definition fits {A} (s : list A) : Prop := size s < 2 ^ 63.

Lemma size_nonneg {A} (s : list A) : 0 ≤ size s.
Proof. unfold size. lia. Qed.

Lemma size_app {A} (s t : list A) : size (s ++ t) = size s + size t.
Proof. unfold size. rewrite length_app. lia. Qed.

Lemma size_cons {A} (x : A) (s : list A) : size (x :: s) = 1 + size s.
Proof. unfold size. simpl. lia. Qed.

Lemma size_nil {A} : size (@nil A) = 0.
Proof. done. Qed.

(** Sizes of concatenations, in the goal or a hypothesis. *)
Ltac sizes :=
  cbn [list_ascii_of_string app]; repeat first [rewrite size_app | rewrite size_cons];
  change (size (@nil ascii)) with 0.
Ltac sizes_in H :=
  cbn [list_ascii_of_string app] in H;
  repeat first [rewrite size_app in H | rewrite size_cons in H];
  change (size (@nil ascii)) with 0 in H.

Lemma u64_small z : 0 ≤ z < 2 ^ 64 → u64 z = z.
Proof. apply Z.mod_small. Qed.

Lemma dropz_app {A} (pre s : list A) : dropz (size pre) (pre ++ s) = s.
Proof.
  unfold dropz. rewrite size_app. case_if; prop_tests.
  - destruct s; [done|]. rewrite size_cons in *. pose proof (size_nonneg s). lia.
  - unfold size. rewrite Nat2Z.id. apply drop_app_length.
Qed.

Lemma takez_app {A} (s post : list A) : takez (size s) (s ++ post) = s.
Proof.
  unfold takez. rewrite size_app. case_if; prop_tests.
  - destruct post; [apply app_nil_r|]. rewrite size_cons in *.
    pose proof (size_nonneg post). lia.
  - unfold size. rewrite Nat2Z.id. apply take_app_length.
Qed.

Lemma at_pos_app {A} (pre : list A) c post : at_pos (pre ++ c :: post) (size pre) = Some c.
Proof. unfold at_pos. by rewrite dropz_app. Qed.

Lemma substr_app pre mid post :
  substr (pre ++ mid ++ post) (size pre) (size mid) = Ok mid.
Proof.
  unfold substr. rewrite !size_app, dropz_app, takez_app.
  pose proof (size_nonneg mid). pose proof (size_nonneg post).
  case_if; [prop_tests; lia|done].
Qed.

Lemma index_of_app c mid post :
  c ∉ mid → index_of c (mid ++ c :: post) = Some (length mid).
Proof.
  induction mid as [|d mid IH]; simpl; intros Hc.
  - by rewrite Ascii.eqb_refl.
  - apply not_elem_of_cons in Hc as [Hcd Hc].
    by rewrite (ascii_eqb_neq c d), IH by done.
Qed.

Lemma find_from_app c pre mid post :
  c ∉ mid → find_from c (pre ++ mid ++ c :: post) (size pre) = size pre + size mid.
Proof. intros Hc. unfold find_from. by rewrite dropz_app, index_of_app. Qed.

Lemma strip_prefix_app p s : strip_prefix p (p ++ s) = Some s.
Proof. induction p; simpl; [done|]. by rewrite Ascii.eqb_refl. Qed.

Lemma strip_prefix_Some p s r : strip_prefix p s = Some r → s = p ++ r.
Proof.
  revert s. induction p as [|a p IH]; intros s; simpl; [naive_solver|].
  destruct s as [|b s]; [done|]. case_if; [|done]. prop_tests. subst.
  intros ->%IH. done.
Qed.

Lemma span_app p (mid post : bytes) :
  forallb p mid = true → (∀ c r, post = c :: r → p c = false) →
  span p (mid ++ post) = (mid, post).
Proof.
  induction mid as [|c mid IH]; simpl; intros Hm Hp.
  - destruct post as [|c r]; [done|]. simpl. by rewrite (Hp c r).
  - prop_tests. by rewrite H, IH.
Qed.

Lemma span_parts p s : fst (span p s) ++ snd (span p s) = s.
Proof.
  induction s as [|c s IH]; simpl; [done|]. case_if; [|done].
  destruct (span p s). simpl in *. by rewrite IH.
Qed.

Lemma span_all p s : forallb p (fst (span p s)) = true.
Proof.
  induction s as [|c s IH]; simpl; [done|]. case_if; [|done].
  destruct (span p s). simpl in *. by rewrite Heqb, IH.
Qed.

(** ** Decimal numbers: [std::to_string], [std::stoll], [std::stoull] *)

Definition is_digit (c : ascii) : bool := (48 <=? code c) && (code c <=? 57).
Definition is_space (c : ascii) : bool :=
  (code c =? 32) || ((9 <=? code c) && (code c <=? 13)).

Definition digit_char (d : Z) : ascii := chr (48 + d).

Fixpoint dec_go (fuel : nat) (n : Z) : bytes :=
  match fuel with
  | O => [digit_char n]
  | S f => if n <? 10 then [digit_char n]
           else dec_go f (n / 10) ++ [digit_char (n mod 10)]
  end.

(** The decimal digits of [n >= 0]; [log2 n] divisions by ten suffice. *)
Definition dec (n : Z) : bytes := dec_go (Z.to_nat (Z.log2 n)) n.

(** [std::to_string]. *)
Definition to_string (z : Z) : bytes :=
  if z <? 0 then "-"%char :: dec (- z) else dec z.

Definition digits_val (s : bytes) : Z :=
  foldl (λ a c, 10 * a + (code c - 48)) 0 s.

(** [strtoll]/[strtoull]: white space, an optional sign, digits; the rest is
    ignored.  [None] when there is no digit. *)
Definition strto (s : bytes) : option (bool * Z) :=
  let s := snd (span is_space s) in
  let '(neg, s) := match s with
                   | c :: r => if Ascii.eqb c "-" then (true, r)
                               else if Ascii.eqb c "+" then (false, r) else (false, s)
                   | [] => (false, s)
                   end in
  match span is_digit s with
  | ([], _) => None
  | (ds, _) => Some (neg, digits_val ds)
  end.

Definition stoll (s : bytes) : result Z :=
  match strto s with
  | None => Throw InvalidArgument
  | Some (neg, m) =>
      let z := if neg then - m else m in
      if in_i64 z then Ok z else Throw OutOfRange
  end.

(** [strtoull] accepts a sign and negates modulo [2^64]. *)
Definition stoull (s : bytes) : result Z :=
  match strto s with
  | None => Throw InvalidArgument
  | Some (neg, m) =>
      if m <? 2 ^ 64 then Ok (if neg then u64 (- m) else m) else Throw OutOfRange
  end.

Lemma code_digit_char d : 0 ≤ d < 10 → code (digit_char d) = 48 + d.
Proof. intros. unfold digit_char. rewrite code_chr. apply Z.mod_small. lia. Qed.

Lemma is_digit_char d : 0 ≤ d < 10 → is_digit (digit_char d) = true.
Proof.
  intros. unfold is_digit. rewrite code_digit_char by done.
  apply andb_true_iff. split; apply Z.leb_le; lia.
Qed.

Lemma dec_go_S fuel n :
  dec_go (S fuel) n =
  if n <? 10 then [digit_char n] else dec_go fuel (n / 10) ++ [digit_char (n mod 10)].
Proof. done. Qed.

Lemma dec_go_spec fuel n :
  0 ≤ n < 10 * 2 ^ Z.of_nat fuel →
  forallb is_digit (dec_go fuel n) = true ∧ digits_val (dec_go fuel n) = n
  ∧ dec_go fuel n ≠ [].
Proof.
  unfold digits_val. revert n. induction fuel as [|fuel IH]; intros n Hn.
  - simpl in *. rewrite is_digit_char, code_digit_char by lia. split_and!; [done|lia|done].
  - rewrite dec_go_S. case_if; prop_tests.
    + simpl. rewrite is_digit_char, code_digit_char by lia. split_and!; [done|lia|done].
    + rewrite Nat2Z.inj_succ, Z.pow_succ_r in Hn by lia.
      pose proof (Z.mod_pos_bound n 10). pose proof (Z.div_mod n 10).
      destruct (IH (n / 10)) as (H1 & H2 & H3); [nia|].
      rewrite forallb_app, foldl_app, H1, H2. simpl.
      rewrite is_digit_char, code_digit_char by lia.
      split_and!; [done|lia|by destruct (dec_go fuel (n / 10))].
Qed.

Lemma dec_spec n :
  0 ≤ n → forallb is_digit (dec n) = true ∧ digits_val (dec n) = n ∧ dec n ≠ [].
Proof.
  intros Hn. apply dec_go_spec. split; [done|].
  destruct (decide (n = 0)) as [->|]; [simpl; lia|].
  pose proof (Z.log2_spec n). rewrite Z2Nat.id by apply Z.log2_nonneg.
  pose proof (Z.pow_pos_nonneg 2 (Z.log2 n)). pose proof (Z.log2_nonneg n).
  rewrite Z.pow_succ_r in H by lia. lia.
Qed.

Lemma is_digit_not_space c : is_digit c = true → is_space c = false.
Proof.
  unfold is_digit, is_space. intros. prop_tests.
  apply orb_false_iff; split; [apply Z.eqb_neq; lia|].
  apply andb_false_iff. right. apply Z.leb_gt. lia.
Qed.

Lemma is_digit_neq c d : is_digit c = true → is_digit d = false → Ascii.eqb c d = false.
Proof. intros ??. apply Ascii.eqb_neq. congruence. Qed.

Lemma dec_cons n : 0 ≤ n → ∃ c r, dec n = c :: r ∧ is_digit c = true.
Proof.
  intros Hn. destruct (dec_spec n Hn) as (H1 & _ & H3).
  destruct (dec n) as [|c r]; [done|]. simpl in H1. prop_tests. eauto.
Qed.

(** Reading back a printed number, followed by anything but a digit. *)
Lemma strto_dec n post :
  0 ≤ n → (∀ c r, post = c :: r → is_digit c = false) →
  strto (dec n ++ post) = Some (false, n).
Proof.
  intros Hn Hp. destruct (dec_spec n Hn) as (H1 & H2 & H3).
  destruct (dec_cons n Hn) as (c & r & Hd & Hc). unfold strto.
  rewrite Hd. simpl. rewrite is_digit_not_space by done. simpl.
  rewrite !is_digit_neq by done.
  rewrite app_comm_cons, <- Hd, span_app by done.
  rewrite H2. by destruct (dec n).
Qed.

Lemma strto_to_string z post :
  (∀ c r, post = c :: r → is_digit c = false) →
  strto (to_string z ++ post) = Some (z <? 0, Z.abs z).
Proof.
  intros Hp. unfold to_string. destruct (z <? 0) eqn:E; prop_tests.
  - destruct (dec_spec (- z)) as (H1 & H2 & H3); [lia|].
    unfold strto. simpl. rewrite span_app, H2 by done.
    destruct (dec (- z)); [done|]. by rewrite Z.abs_neq by lia.
  - rewrite strto_dec by done. by rewrite Z.abs_eq.
Qed.

Lemma stoll_to_string z post :
  in_i64 z = true → (∀ c r, post = c :: r → is_digit c = false) →
  stoll (to_string z ++ post) = Ok z.
Proof.
  intros Hz Hp. unfold stoll. rewrite strto_to_string by done.
  replace (if z <? 0 then - Z.abs z else Z.abs z) with z by (case_if; prop_tests; lia).
  by rewrite Hz.
Qed.

Lemma stoull_to_string n post :
  0 ≤ n < 2 ^ 64 → (∀ c r, post = c :: r → is_digit c = false) →
  stoull (to_string n ++ post) = Ok n.
Proof.
  intros Hn Hp. unfold stoull. rewrite strto_to_string by done.
  rewrite Z.abs_eq by lia.
  destruct (n <? 2 ^ 64) eqn:E1; prop_tests; [|lia].
  destruct (n <? 0) eqn:E2; prop_tests; [lia|done].
Qed.

(** The same at the end of the string. *)
Lemma stoll_to_string_nil z : in_i64 z = true → stoll (to_string z) = Ok z.
Proof. intros. rewrite <- (app_nil_r (to_string z)). by apply stoll_to_string. Qed.

Lemma stoull_to_string_nil n : 0 ≤ n < 2 ^ 64 → stoull (to_string n) = Ok n.
Proof. intros. rewrite <- (app_nil_r (to_string n)). by apply stoull_to_string. Qed.

Lemma dec_no_char n c : 0 ≤ n → is_digit c = false → c ∉ dec n.
Proof.
  intros Hn Hc Hin. destruct (dec_spec n Hn) as (H1 & _ & _).
  rewrite forallb_forall in H1. rewrite (H1 c) in Hc; [done|by apply list_elem_of_In].
Qed.

(** A printed number contains digits and a minus sign only. *)
Lemma to_string_no_char z c :
  is_digit c = false → c ≠ "-"%char → c ∉ to_string z.
Proof.
  intros Hc Hm. unfold to_string. case_if; prop_tests.
  - apply not_elem_of_cons. split; [done|]. apply dec_no_char; [lia|done].
  - by apply dec_no_char.
Qed.

(** ** Lists of results *)

Definition rmap {A B} (f : A → result B) : list A → result (list B) :=
  fix go l := match l with
              | [] => Ok []
              | x :: l => let* y := f x in let* ys := go l in Ok (y :: ys)
              end.

Lemma rmap_Forall2 {A B} (f : A → result B) l k :
  rmap f l = Ok k ↔ Forall2 (λ x y, f x = Ok y) l k.
Proof.
  revert k. induction l as [|x l IH]; intros k; simpl.
  - split; [intros [= <-]; constructor|by inversion 1].
  - split.
    + intros H. inv_ok. constructor; [done|]. by apply IH.
    + inversion 1; subst. rewrite H2. simpl. by rewrite (proj2 (IH l')).
Qed.

Lemma span_app_nil p (x post a : bytes) :
  span p x = (a, []) → (∀ c r, post = c :: r → p c = false) →
  span p (x ++ post) = (a, post).
Proof.
  revert a. induction x as [|c x IH]; simpl; intros a Hx Hp.
  - injection Hx as <-. destruct post as [|c r]; [done|]. simpl. by rewrite (Hp c r).
  - destruct (p c); [|done]. destruct (span p x) as [a' b'] eqn:E.
    injection Hx as <- ->. by rewrite (IH a').
Qed.

Lemma span_app_cons p (x post a : bytes) c r :
  span p x = (a, c :: r) → span p (x ++ post) = (a, c :: r ++ post).
Proof.
  revert a. induction x as [|d x IH]; simpl; intros a Hx; [done|].
  destruct (p d); [|by simplify_eq]. destruct (span p x) as [a' b'] eqn:E.
  injection Hx as <- ->. by rewrite (IH a').
Qed.


Lemma forallb_Forall {A} (p : A → bool) l : forallb p l = true ↔ Forall (λ x, p x = true) l.
Proof. induction l; simpl; [split; [constructor|done]|]. rewrite andb_true_iff, Forall_cons. naive_solver. Qed.

(** ** Text streams *)


(** The lines [std::getline] delivers: no empty line after a final newline. *)
Fixpoint getlines (s : bytes) : list bytes :=
  match s with
  | [] => []
  | c :: r =>
      if Ascii.eqb c NL then [] :: getlines r
      else match getlines r with
           | l :: ls => (c :: l) :: ls
           | [] => [[c]]
           end
  end.

(** [in >> word]: white space, then everything up to the next white space. *)
Definition read_word (s : bytes) : option (bytes * bytes) :=
  match span (λ c, negb (is_space c)) (snd (span is_space s)) with
  | ([], _) => None
  | (w, r) => Some (w, r)
  end.

(** Lines written back with a newline each are the lines of the text. *)
Definition unlines (ls : list bytes) : bytes := concat (map (λ l, l ++ [NL]) ls).

Lemma getlines_cons l s : NL ∉ l → getlines (l ++ NL :: s) = l :: getlines s.
Proof.
  induction l as [|c l IH]; intros Hl; [done|]. apply not_elem_of_cons in Hl as [Hc Hl].
  cbn [app getlines]. rewrite ascii_eqb_neq by done. by rewrite IH.
Qed.

Lemma getlines_unlines ls : Forall (λ l, NL ∉ l) ls → getlines (unlines ls) = ls.
Proof.
  unfold unlines. induction 1 as [|l ls Hl _ IH]; [done|]. cbn [map concat].
  rewrite <- app_assoc. change ([NL] ++ ?x) with (NL :: x). by rewrite getlines_cons, IH.
Qed.

Lemma getlines_no_newline s : Forall (λ l, NL ∉ l) (getlines s).
Proof.
  induction s as [|c s IH]; [constructor|]. simpl. case_if.
  - constructor; [apply not_elem_of_nil|done].
  - prop_tests. destruct (getlines s) as [|l ls]; [constructor; [|done]|].
    + apply not_elem_of_cons. split; [done|apply not_elem_of_nil].
    + apply Forall_cons in IH as [Hl IH]. constructor; [|done].
      apply not_elem_of_cons. done.
Qed.

(** [std::stoi]: [strtol], then the range of [int]. *)
Definition in_i32 (z : Z) : bool := (- 2 ^ 31 <=? z) && (z <? 2 ^ 31).
Definition stoi (s : bytes) : result Z :=
  match strto s with
  | None => Throw InvalidArgument
  | Some (neg, m) =>
      let z := if neg then - m else m in
      if in_i32 z then Ok z else Throw OutOfRange
  end.

Lemma stoi_to_string_nil z : in_i32 z = true → stoi (to_string z) = Ok z.
Proof.
  intros Hz. unfold stoi. rewrite <- (app_nil_r (to_string z)), strto_to_string by done.
  replace (if z <? 0 then - Z.abs z else Z.abs z) with z by (case_if; prop_tests; lia).
  by rewrite Hz.
Qed.

(** [static_cast<int>] of a 64-bit value. *)
Definition to_i32 (z : Z) : Z := (z + 2 ^ 31) mod 2 ^ 32 - 2 ^ 31.

Lemma to_i32_small z : 0 ≤ z < 2 ^ 31 → to_i32 z = z.
Proof. intros H. unfold to_i32. rewrite Z.mod_small; lia. Qed.

(** ** State and exceptions

    A member function that reads and writes the state of the driver and may
    throw: the state reached is kept when it throws, as in C++. *)

Definition M (S A : Type) : Type := S → result A * S.

Definition ret {S A} (a : A) : M S A := λ s, (Ok a, s).
Definition bind {S A B} (m : M S A) (k : A → M S B) : M S B := λ s,
  match m s with
  | (Ok a, s') => k a s'
  | (Throw e, s') => (Throw e, s')
  | (Undefined, s') => (Undefined, s')
  | (OutOfFuel, s') => (OutOfFuel, s')
  end.
Definition throw {S A} (e : exn) : M S A := λ s, (Throw e, s).
Definition get {S} : M S S := λ s, (Ok s, s).
Definition modify {S} (f : S → S) : M S unit := λ s, (Ok tt, f s).

Definition lift {S A} (r : result A) : M S A := λ s, (r, s).

(** [try { m } catch (const std::exception& e) { h }]. *)
Definition try_catch {S A} (m : M S A) (h : exn → M S A) : M S A := λ s,
  match m s with
  | (Throw e, s') => h e s'
  | r => r
  end.

Notation "'do*' p := m 'in' k" := (bind m (fun p => k))
  (at level 10, p pattern, m at level 100, k at level 200) : kj_scope.

(** A run that ends, with any outcome, within the bound. *)
Definition ends {S A} (m : M S A) (s : S) : Prop := terminates (fst (m s)).

Lemma bind_Ok_inv {S A B} (m : M S A) (k : A → M S B) s b s'' :
  bind m k s = (Ok b, s'') → ∃ a s', m s = (Ok a, s') ∧ k a s' = (Ok b, s'').
Proof. unfold bind. destruct (m s) as [[] s']; naive_solver. Qed.

Lemma ends_bind {S A B} (m : M S A) (k : A → M S B) s :
  ends m s → (∀ a s', m s = (Ok a, s') → ends (k a) s') → ends (bind m k) s.
Proof.
  unfold ends, bind, terminates. destruct (m s) as [[] s'] eqn:E; simpl; naive_solver.
Qed.
