(* ===== verification/Doubles.v ===== *)
(** * Doubles: LPC floats and the C library's conversions

    An LPC float is an IEEE-754 binary64 number.  This file holds the number
    type and the four pieces of the C/C++ standard library the driver applies
    to it: [%f] of [snprintf], the default [operator<<] of an output stream
    ([%g] with six significant digits), [std::stod], and [==].  Conversions
    round to nearest, ties to even, as glibc does.  Hexadecimal floats, which
    [strtod] also accepts and no writer of the driver produces, are not
    modelled. *)

From Stdlib Require Export SpecFloat.
From S2P Require Import Prelude.

Abbreviation double := spec_float.

#[export] Instance spec_float_eq_dec : EqDecision spec_float.
Proof. solve_decision. Defined.

Definition deq (a b : double) : bool := SFeqb a b.
Definition double_zero : double := S754_zero false.

(** [num / den], rounded to the nearest integer, ties to even. *)
Definition round_div (num den : Z) : Z :=
  let q := num / den in
  let r := num mod den in
  if 2 * r <? den then q
  else if den <? 2 * r then q + 1
  else if Z.even q then q else q + 1.

(** A finite magnitude [m * 2^e] as a fraction. *)
Definition frac_of (m : positive) (e : Z) : Z * Z :=
  if 0 <=? e then (Z.pos m * 2 ^ e, 1) else (Z.pos m, 2 ^ (- e)).

Definition sign_prefix (s : bool) : bytes := if s then $"-" else [].

(** [n] printed in exactly [w] digits, zeros in front. *)
Definition pad_dec (w : Z) (n : Z) : bytes :=
  let d := dec n in repeat "0"%char (Z.to_nat (w - size d)) ++ d.

(** [snprintf("%f", d)]. *)
Definition print_f (d : double) : bytes :=
  match d with
  | S754_nan => $"nan"
  | S754_infinity s => sign_prefix s ++ $"inf"
  | S754_zero s => sign_prefix s ++ $"0.000000"
  | S754_finite s m e =>
      let '(num, den) := frac_of m e in
      let n := round_div (num * 10 ^ 6) den in
      sign_prefix s ++ dec (n / 10 ^ 6) ++ $"." ++ pad_dec 6 (n mod 10 ^ 6)
  end.

(** The decimal exponent [E] with [10^E <= num/den < 10^(E+1)]. *)
Fixpoint neg_exp (fuel : nat) (num den : Z) : Z :=
  match fuel with
  | O => 0
  | S f => if den <=? num then 0 else neg_exp f (num * 10) den - 1
  end.

Definition exp10_of (num den : Z) : Z :=
  if den <=? num then size (dec (num / den)) - 1 else neg_exp 400 num den.

(** [x * 10^k] as a fraction. *)
Definition scale10 (num den k : Z) : Z * Z :=
  if 0 <=? k then (num * 10 ^ k, den) else (num, den * 10 ^ (- k)).

Definition strip_zeros (s : bytes) : bytes :=
  rev (snd (span (Ascii.eqb "0") (rev s))).

(** Integer digits, and a fraction without its trailing zeros. *)
Definition with_fraction (ip fp : bytes) : bytes :=
  match strip_zeros fp with
  | [] => ip
  | f => ip ++ $"." ++ f
  end.

Definition exponent_text (e : Z) : bytes :=
  (if e <? 0 then $"-" else $"+") ++ pad_dec 2 (Z.abs e).

(** [os << d] with the stream's default precision of six. *)
Definition print_g (d : double) : bytes :=
  match d with
  | S754_nan => $"nan"
  | S754_infinity s => sign_prefix s ++ $"inf"
  | S754_zero s => sign_prefix s ++ $"0"
  | S754_finite s m e =>
      let '(num, den) := frac_of m e in
      let x0 := exp10_of num den in
      let '(n0, d0) := scale10 num den (5 - x0) in
      let r := round_div n0 d0 in
      let '(r, x) := if r =? 10 ^ 6 then (10 ^ 5, x0 + 1) else (r, x0) in
      let ds := dec r in
      sign_prefix s ++
      (if (x <? -4) || (6 <=? x) then
         with_fraction (take 1 ds) (drop 1 ds) ++ $"e" ++ exponent_text x
       else if 0 <=? x then
         with_fraction (take (Z.to_nat (x + 1)) ds) (drop (Z.to_nat (x + 1)) ds)
       else with_fraction ($"0") (repeat "0"%char (Z.to_nat (- x - 1)) ++ ds))
  end.

(** ** [std::stod] *)

Definition lower (c : ascii) : ascii :=
  if (65 <=? code c) && (code c <=? 90) then chr (code c + 32) else c.

(** The nearest double of [num / den], and whether it is exact. *)
Definition nearest (s : bool) (num den : positive) : double * bool :=
  let '(m, e, l) := SFdiv_core_binary 53 1024 (Z.pos num) 0 (Z.pos den) 0 in
  let r := binary_round_aux 53 1024 s m e l in
  let exact := match r with
               | S754_finite _ m e =>
                   let '(n, d) := frac_of m e in n * Z.pos den =? Z.pos num * d
               | _ => false
               end in
  (r, exact).

(** [ERANGE]: overflow, or an inexact result below the normal range. *)
Definition stod_result (r : double) (exact : bool) : result double :=
  match r with
  | S754_finite _ m e =>
      if negb exact && (Z.pos m <? 2 ^ 52) then Throw OutOfRange else Ok r
  | S754_zero _ => Throw OutOfRange
  | S754_infinity _ => Throw OutOfRange
  | S754_nan => Ok r
  end.

(** [mant * 10^x]. *)
Definition decimal_value (s : bool) (mant x : Z) : result double :=
  match mant with
  | Z.pos m =>
      let mag := x + size (dec mant) in
      if (mag <? -400) || (400 <? mag) then Throw OutOfRange
      else
        let '(num, den) := scale10 mant 1 x in
        let '(r, exact) := nearest s (Z.to_pos num) (Z.to_pos den) in
        stod_result r exact
  | _ => Ok (S754_zero s)
  end.

(** The optional exponent after the digits. *)
Definition read_exponent (s : bytes) : Z :=
  match s with
  | c :: r =>
      if Ascii.eqb (lower c) "e" then
        match strto r with
        | Some (neg, m) =>
            match r with
            | c :: _ => if is_space c then 0 else if neg then - m else m
            | [] => 0
            end
        | None => 0
        end
      else 0
  | [] => 0
  end.

Definition stod (s : bytes) : result double :=
  let s := snd (span is_space s) in
  let '(neg, s) := match s with
                   | c :: r => if Ascii.eqb c "-" then (true, r)
                               else if Ascii.eqb c "+" then (false, r) else (false, s)
                   | [] => (false, s)
                   end in
  let low := map lower s in
  match strip_prefix ($"inf") low, strip_prefix ($"nan") low with
  | Some _, _ => Ok (S754_infinity neg)
  | _, Some _ => Ok S754_nan
  | None, None =>
      let '(ip, r) := span is_digit s in
      let '(fp, r') := match r with
                       | c :: r1 => if Ascii.eqb c "." then span is_digit r1 else ([], r)
                       | [] => ([], r)
                       end in
      match ip ++ fp with
      | [] => Throw InvalidArgument
      | ds => decimal_value neg (digits_val ds) (read_exponent r' - size fp)
      end
  end.

(** A double that survives printing and reading back. *)
Definition stable (print : double → bytes) (d : double) : bool :=
  bool_decide (stod (print d) = Ok d).

(** The double nearest to a decimal literal, for examples. *)
Definition dlit (s : string) : double :=
  match stod (list_ascii_of_string s) with Ok d => d | _ => S754_nan end.

(** ** Sanity checks against the C library's output *)

Example print_f_tenth : print_f (dlit "0.1") = $"0.100000".
Proof. vm_compute. reflexivity. Qed.
Example print_f_neg : print_f (dlit "-2.5") = $"-2.500000".
Proof. vm_compute. reflexivity. Qed.
Example print_g_million : print_g (dlit "1000000") = $"1e+06".
Proof. vm_compute. reflexivity. Qed.
Example print_g_third : print_g (dlit "0.3333333333333333") = $"0.333333".
Proof. vm_compute. reflexivity. Qed.
Example print_g_small : print_g (dlit "0.00001234") = $"1.234e-05".
Proof. vm_compute. reflexivity. Qed.
Example print_g_int : print_g (dlit "-123.5") = $"-123.5".
Proof. vm_compute. reflexivity. Qed.
Example print_g_round_up : print_g (dlit "999999.5") = $"1e+06".
Proof. vm_compute. reflexivity. Qed.
Example stod_tenth : stod ($"0.1") = Ok (S754_finite false 7205759403792794 (-56)).
Proof. vm_compute. reflexivity. Qed.
Example stod_overflow : stod ($"1e400") = Throw OutOfRange.
Proof. vm_compute. reflexivity. Qed.
Example tenth_stable : stable print_f (dlit "0.1") && stable print_g (dlit "0.1") = true.
Proof. vm_compute. reflexivity. Qed.
