(* ===== verification/Values.v ===== *)
(** * Values: the runtime value of the LPC virtual machine

    Models [include/kjdmud/vm/Value.hpp] and [src/vm/Value.cpp].

    A [Value] is a C++ variant plus two flags.  Its pointer alternatives are
    [std::shared_ptr]s, so a value holds an address (or null) and the things
    pointed at live in a [heap]; two values that share a pointer share the
    cell.  Object records live in the world of [Objects]; here an object is an
    address only. *)

From S2P Require Import Prelude Doubles.

Abbreviation addr := positive.

(** ** The variant *)

Inductive data :=
  | VVoid                            (** [std::monostate] *)
  | VNil                             (** [Nil] *)
  | VInt (i : Z)                     (** [int64_t] *)
  | VFloat (d : double)              (** [double] *)
  | VStr (s : bytes)                 (** [std::string] *)
  | VSym (name : bytes)              (** [Symbol] *)
  | VObj (p : option addr)           (** [std::shared_ptr<LpcObject>] *)
  | VArr (p : option addr)           (** [std::shared_ptr<Array>] *)
  | VMap (p : option addr)           (** [std::shared_ptr<Mapping>] *)
  | VClo (p : option addr)           (** [std::shared_ptr<Closure>] *)
  | VBuf (p : option addr).          (** [std::shared_ptr<Buffer>] *)

Record value := Value {
  vdata : data;
  isUndefined : bool;
  isClassInstance : bool;
}.

(** [Value(T v)]: both flags start false. *)
Definition mk (d : data) : value := Value d false false.

Definition makeUndefinedNumber : value := Value (VInt 0) true false.

Definition isVoid (v : value) : bool :=
  match vdata v with VVoid => true | _ => false end.

(** [data.index()]. *)
Definition index (d : data) : nat :=
  match d with
  | VVoid => 0 | VNil => 1 | VInt _ => 2 | VFloat _ => 3 | VStr _ => 4 | VSym _ => 5
  | VObj _ => 6 | VArr _ => 7 | VMap _ => 8 | VClo _ => 9 | VBuf _ => 10
  end.

(** ** Heap cells *)

Abbreviation Array := (list value).
Abbreviation Buffer := bytes.

Record Mapping := mkMapping {
  entries : list (value * value);
  width : Z;
  extraColumns : list (list value);
}.

Record Closure := mkClosure {
  owner : option addr;               (** [std::weak_ptr<LpcObject>] *)
  functionName : bytes;
  boundArgs : list value;
  forceEfun : bool;
  unboundUntilBound : bool;
  lambdaParams : list bytes;
  lambdaBody : value;
}.

Record heap := mkHeap {
  arrays : gmap addr Array;
  mappings : gmap addr Mapping;
  closures : gmap addr Closure;
  buffers : gmap addr Buffer;
}.

Definition empty_heap : heap := mkHeap ∅ ∅ ∅ ∅.

Definition set_arrays (f : gmap addr Array → gmap addr Array) (h : heap) : heap :=
  mkHeap (f (arrays h)) (mappings h) (closures h) (buffers h).
Definition set_mappings (f : gmap addr Mapping → gmap addr Mapping) (h : heap) : heap :=
  mkHeap (arrays h) (f (mappings h)) (closures h) (buffers h).
Definition set_closures (f : gmap addr Closure → gmap addr Closure) (h : heap) : heap :=
  mkHeap (arrays h) (mappings h) (f (closures h)) (buffers h).

(** [std::make_shared]: a cell at an address not in use. *)
Definition alloc_array (items : Array) (h : heap) : addr * heap :=
  let a := fresh (dom (arrays h)) in (a, set_arrays (insert a items) h).
Definition alloc_mapping (m : Mapping) (h : heap) : addr * heap :=
  let a := fresh (dom (mappings h)) in (a, set_mappings (insert a m) h).
Definition alloc_closure (c : Closure) (h : heap) : addr * heap :=
  let a := fresh (dom (closures h)) in (a, set_closures (insert a c) h).

#[export] Instance data_eq_dec : EqDecision data.
Proof. solve_decision. Defined.
#[export] Instance value_eq_dec : EqDecision value.
Proof. solve_decision. Defined.

(** ** Truth and equality *)

Definition non_null (p : option addr) : bool :=
  match p with Some _ => true | None => false end.

Definition isTruthy (v : value) : bool :=
  match vdata v with
  | VVoid => false
  | VNil => false
  | VInt i => negb (i =? 0)
  | VFloat d => negb (deq d double_zero)
  | VStr s => match s with [] => false | _ => true end
  | VSym _ => true
  | VObj p => non_null p
  | VArr p => non_null p
  | VMap p => non_null p
  | VClo p => non_null p
  | VBuf p => non_null p
  end.

(** The chain of [get_if] tests after the index check; arrays and mappings
    have no test of their own and reach the final [return false]. *)
Definition valuesEqual (a b : value) : bool :=
  if negb (Nat.eqb (index (vdata a)) (index (vdata b))) then false else
  match vdata a, vdata b with
  | VNil, VNil => true
  | VInt x, VInt y => x =? y
  | VFloat x, VFloat y => deq x y
  | VStr x, VStr y => bool_decide (x = y)
  | VSym x, VSym y => bool_decide (x = y)
  | VObj x, VObj y => bool_decide (x = y)
  | VClo x, VClo y => bool_decide (x = y)
  | VBuf x, VBuf y => bool_decide (x = y)
  | VVoid, VVoid => true
  | _, _ => false
  end.

(** ** Mapping columns *)

Module Columns.

(** [getColumn]; an index outside the vectors is an unchecked access. *)
Definition getColumn (m : Mapping) (i : nat) (col : Z) : result value :=
if col <=? 0 then
  let* e := deref (entries m !! i) in Ok (snd e)
else
  let* row := deref (extraColumns m !! i) in
  deref (row !! Z.to_nat (col - 1)).

Definition setColumn (m : Mapping) (i : nat) (col : Z) (v : value) : result Mapping :=
if col <=? 0 then
  let* e := deref (entries m !! i) in
  Ok (mkMapping (<[i := (fst e, v)]> (entries m)) (width m) (extraColumns m))
else
  let* row := deref (extraColumns m !! i) in
  let* _ := deref (row !! Z.to_nat (col - 1)) in
  Ok (mkMapping (entries m) (width m)
        (<[i := <[Z.to_nat (col - 1) := v]> row]> (extraColumns m))).

(** The values of columns [1 .. width-1]: those given, then zeros. *)
Definition pad_columns (n : nat) (vs : list value) : list value :=
take n vs ++ replicate (n - length vs) (mk (VInt 0)).

Definition appendEntry (m : Mapping) (key : value) (values : list value) : Mapping :=
let col0 := match values with [] => mk VVoid | v :: _ => v end in
let es := entries m ++ [(key, col0)] in
if 1 <? width m
then mkMapping es (width m)
       (extraColumns m ++ [pad_columns (Z.to_nat (width m - 1)) (tail values)])
else mkMapping es (width m) (extraColumns m).

(** [vector::erase] of an index outside the vector is undefined. *)
Definition erase_nth {A} (i : nat) (l : list A) : result (list A) :=
if (i <? length l)%nat then Ok (delete i l) else Undefined.

Definition eraseAt (m : Mapping) (i : nat) : result Mapping :=
let* es := erase_nth i (entries m) in
match extraColumns m with
| [] => Ok (mkMapping es (width m) [])
| xs => let* xs := erase_nth i xs in Ok (mkMapping es (width m) xs)
end.

(** The invariant the struct's comment states: [extraColumns] is empty at
  width 1 and otherwise as long as [entries], [width - 1] columns each. *)
Definition wf (m : Mapping) : Prop :=
1 ≤ width m ∧
(width m = 1 → extraColumns m = []) ∧
(1 < width m →
  length (extraColumns m) = length (entries m) ∧
  Forall (λ r, length r = Z.to_nat (width m - 1)) (extraColumns m)).

Lemma length_pad_columns n vs : length (pad_columns n vs) = n.
Proof. unfold pad_columns. rewrite length_app, length_take, length_replicate. lia. Qed.

Lemma lookup_pad_columns n vs c :
(c < n)%nat → pad_columns n vs !! c = Some (default (mk (VInt 0)) (vs !! c)).
Proof.
intros Hc. unfold pad_columns. destruct (decide (c < length vs)%nat) as [Hl|Hl].
- rewrite lookup_app_l by (rewrite length_take; lia).
  rewrite lookup_take_lt by done. by destruct (lookup_lt_is_Some_2 vs c Hl) as [v ->].
- rewrite lookup_app_r by (rewrite length_take; lia).
  rewrite lookup_replicate_2 by (rewrite length_take; lia).
  by rewrite lookup_ge_None_2 by lia.
Qed.

Lemma appendEntry_wf m k vs : wf m → wf (appendEntry m k vs).
Proof.
intros (Hw & H1 & H2). unfold appendEntry.
destruct (1 <? width m) eqn:E; prop_tests; unfold wf; simpl.
- split_and!; [done|lia|]. intros _. destruct (H2 E) as [Hl Hf]. split.
  + by rewrite !length_app, Hl.
  + apply Forall_app. split; [done|]. constructor; [|done]. apply length_pad_columns.
- split_and!; [done|done|lia].
Qed.

Lemma erase_nth_ok {A} i (l : list A) : (i < length l)%nat → erase_nth i l = Ok (delete i l).
Proof. intros H. unfold erase_nth. apply Nat.ltb_lt in H. by rewrite H. Qed.

Lemma eraseAt_wf m i :
wf m → (i < length (entries m))%nat → ∃ m', eraseAt m i = Ok m' ∧ wf m'
  ∧ entries m' = delete i (entries m) ∧ width m' = width m.
Proof.
intros (Hw & H1 & H2) Hi. unfold eraseAt. rewrite erase_nth_ok by done. simpl.
destruct (decide (width m = 1)) as [E|E].
- rewrite (H1 E). eexists. split; [done|]. unfold wf. simpl. split_and!; auto; lia.
- destruct H2 as [Hl Hf]; [lia|].
  destruct (extraColumns m) as [|x xs] eqn:Ex; [simpl in *; lia|].
  rewrite erase_nth_ok by lia.
  eexists. split; [done|]. split_and!; [|done|done]. unfold wf. cbn [entries width extraColumns].
  split_and!; [lia|lia|]. intros _.
  rewrite !length_delete, Hl by (apply lookup_lt_is_Some_2; lia).
  split; [done|]. by apply Forall_delete.
Qed.

Lemma getColumn_wf m i c :
wf m → (i < length (entries m))%nat → c < width m → ∃ v, getColumn m i c = Ok v.
Proof.
intros (Hw & H1 & H2) Hi Hc. unfold getColumn. case_if; prop_tests.
- destruct (lookup_lt_is_Some_2 (entries m) i Hi) as [e ->]. simpl. eauto.
- destruct H2 as [Hl Hf]; [lia|].
  destruct (lookup_lt_is_Some_2 (extraColumns m) i) as [r Hr]; [lia|].
  rewrite Hr. simpl. rewrite Forall_lookup in Hf. apply Hf in Hr.
  destruct (lookup_lt_is_Some_2 r (Z.to_nat (c - 1))) as [v ->]; [lia|]. simpl. eauto.
Qed.

End Columns.

(** ** Properties *)

Definition is_zero (d : double) : bool :=
  match d with S754_zero _ => true | _ => false end.

(** IEEE equality: the same number, or two zeros; never NaN. *)
Lemma deq_true_iff a b :
  deq a b = true ↔ (a = b ∧ a ≠ S754_nan) ∨ (is_zero a = true ∧ is_zero b = true).
Proof.
  unfold deq, SFeqb, SFcompare.
  destruct a as [sa|sa| |sa ma ea], b as [sb|sb| |sb mb eb]; simpl;
    try (destruct sa); try (destruct sb); simpl; try naive_solver;
    destruct (Z.compare_spec ea eb); try (split; naive_solver lia);
    change (Pos.compare_cont Eq ma mb) with (Pos.compare ma mb);
    destruct (Pos.compare_spec ma mb); simpl; split; naive_solver lia.
Qed.

(** The values for which [==] is reflexive. *)
Definition self_equal (v : value) : Prop :=
  match vdata v with
  | VArr _ | VMap _ => False
  | VFloat d => d ≠ S754_nan
  | _ => True
  end.

(** What [valuesEqual] decides. *)
Definition same_data (a b : data) : Prop :=
  match a, b with
  | VFloat x, VFloat y => deq x y = true
  | VArr _, _ | VMap _, _ => False
  | _, _ => a = b
  end.

Lemma valuesEqual_iff a b : valuesEqual a b = true ↔ same_data (vdata a) (vdata b).
Proof.
  unfold valuesEqual, same_data.
  destruct (vdata a), (vdata b); simpl; try (split; intros; (done || congruence));
    try (rewrite Z.eqb_eq; naive_solver); try (rewrite bool_decide_eq_true; naive_solver).
Qed.

(** [==] on LPC values ([valuesEqual]) is symmetric and transitive, and a
    value equals itself exactly when it is neither an array, nor a mapping,
    nor a NaN: even the same array compared with itself is unequal. *)
Theorem valuesEqual_per :
  (∀ a b, valuesEqual a b = true → valuesEqual b a = true) ∧
  (∀ a b c, valuesEqual a b = true → valuesEqual b c = true → valuesEqual a c = true) ∧
  (∀ v, valuesEqual v v = true ↔ self_equal v).
Proof.
  split_and!.
  - intros a b. rewrite !valuesEqual_iff. unfold same_data.
    destruct (vdata a), (vdata b); try naive_solver.
    rewrite !deq_true_iff. naive_solver.
  - intros a b c. rewrite !valuesEqual_iff. unfold same_data.
    destruct (vdata a), (vdata b), (vdata c); try naive_solver.
    rewrite !deq_true_iff. intros [[-> ?]|[??]] [[-> ?]|[??]]; naive_solver.
  - intros v. rewrite valuesEqual_iff. unfold same_data, self_equal.
    destruct (vdata v); try naive_solver. rewrite deq_true_iff. unfold is_zero.
    destruct d; naive_solver.
Qed.

(** C38: appending a row to a well-formed mapping keeps it well formed, stores
    the given values in the new row's columns (missing ones read as 0, a
    missing first one as void) and leaves every earlier row as it was. *)
Theorem appendEntry_columns m k vs (Hm : Columns.wf m) :
  Columns.wf (Columns.appendEntry m k vs) ∧
  (∀ c, 0 ≤ c < width m →
    Columns.getColumn (Columns.appendEntry m k vs) (length (entries m)) c =
    Ok (default (mk (if c =? 0 then VVoid else VInt 0)) (vs !! Z.to_nat c))) ∧
  (∀ i c, (i < length (entries m))%nat → c < width m →
    Columns.getColumn (Columns.appendEntry m k vs) i c = Columns.getColumn m i c).
Proof.
  split; [by apply Columns.appendEntry_wf|].
  destruct Hm as (Hw & H1 & H2). unfold Columns.appendEntry, Columns.getColumn.
  split.
  - intros c Hc. destruct (c <=? 0) eqn:E; prop_tests.
    + assert (c = 0) as -> by lia. destruct (1 <? width m); simpl;
        rewrite list_lookup_middle by done; by destruct vs.
    + destruct (c =? 0) eqn:E0; prop_tests; [lia|].
      destruct (1 <? width m) eqn:Ew; prop_tests; [|lia]. destruct H2 as [Hl Hf]; [done|]. simpl.
      rewrite list_lookup_middle by done. simpl.
      rewrite Columns.lookup_pad_columns by lia. simpl. do 2 f_equal.
      replace (Z.to_nat c) with (S (Z.to_nat (c - 1))) by lia. by destruct vs.
  - intros i c Hi Hc. destruct (1 <? width m) eqn:Ew; prop_tests; simpl.
    + destruct H2 as [Hl Hf]; [done|]. by rewrite !lookup_app_l by lia.
    + by rewrite lookup_app_l by lia.
Qed.

Lemma appendEntry_columns_witness :
  let m := mkMapping [(mk (VInt 1), mk (VInt 2))] 2 [[mk (VInt 3)]] in
  Columns.wf m ∧ Columns.wf (Columns.appendEntry m (mk (VInt 7)) [mk (VInt 8); mk (VInt 9)]).
Proof.
  intros m. assert (H : Columns.wf m).
  { unfold Columns.wf. simpl. split_and!; [lia|lia|]. intros _. split; [done|]. by repeat constructor. }
  split; [done|]. exact (proj1 (appendEntry_columns m _ _ H)).
Defined.
