(* ===== verification/Trees.v ===== *)
(** * Trees: what a value denotes once its pointers are followed

    The serializers walk a value through its shared pointers.  A [tree] is the
    finite unfolding of a value in a heap; [denotes h v t] says that [t] is the
    unfolding of [v].  A value that reaches itself has none.  The round-trip
    theorems of the serializers are stated on trees, so they speak of contents
    and not of addresses. *)

From S2P Require Import Prelude Doubles Values.

(** A mapping row is its key, its value and its extra columns, in that order;
    a null array or mapping denotes an empty one, as both writers treat it. *)
Inductive tree :=
  | TVoid
  | TNil
  | TInt (i : Z)
  | TFloat (d : double)
  | TStr (s : bytes)
  | TSym (name : bytes)
  | TObj (p : option addr)
  | TArr (items : list tree)
  | TMap (width : Z) (rows : list (list tree))
  | TNullClo
  | TClo (owner : option addr) (name : bytes) (efun : bool) (args : list tree)
  | TLambda
  | TBuf (p : option addr).

Definition is_leaf (t : tree) : bool :=
  match t with TArr _ | TMap _ _ | TClo _ _ _ _ => false | _ => true end.

(** Induction over the nested lists. *)
Section tree_ind.
Context (P : tree → Prop).
Hypothesis Hleaf : ∀ t, is_leaf t = true → P t.
Hypothesis Harr : ∀ ts, Forall P ts → P (TArr ts).
Hypothesis Hmap : ∀ w rows, Forall (Forall P) rows → P (TMap w rows).
Hypothesis Hclo : ∀ o n e ts, Forall P ts → P (TClo o n e ts).

Fixpoint tree_rect_nested (t : tree) : P t :=
  let fix go (ts : list tree) : Forall P ts :=
    match ts with
    | [] => Forall_nil_2 _
    | t :: ts => Forall_cons_2 _ _ _ (tree_rect_nested t) (go ts)
    end in
  let fix go2 (rows : list (list tree)) : Forall (Forall P) rows :=
    match rows with
    | [] => Forall_nil_2 _
    | r :: rows => Forall_cons_2 _ _ _ (go r) (go2 rows)
    end in
  match t with
  | TArr ts => Harr ts (go ts)
  | TMap w rows => Hmap w rows (go2 rows)
  | TClo o n e ts => Hclo o n e ts (go ts)
  | t => Hleaf t eq_refl
  end.
End tree_ind.

(** ** The writers' view of a mapping row

    Both writers emit the key, the value and columns [1 .. width-1]; a row
    beyond the end of [extraColumns] has zeros there. *)

Definition row_columns (m : Mapping) (i : nat) : result (list value) :=
  let n := Z.to_nat (width m - 1) in
  match extraColumns m !! i with
  | None => Ok (replicate n (mk (VInt 0)))
  | Some row => if (n <=? length row)%nat then Ok (take n row) else Undefined
  end.

Fixpoint rows_from (m : Mapping) (i : nat) (es : list (value * value)) : result (list (list value)) :=
  match es with
  | [] => Ok []
  | (k, v) :: es =>
      let* cols := row_columns m i in
      let* rest := rows_from m (S i) es in
      Ok ((k :: v :: cols) :: rest)
  end.

Definition mapping_rows (m : Mapping) : result (list (list value)) := rows_from m 0 (entries m).

(** ** Unfolding *)

Definition olist {A B} (f : A → option B) : list A → option (list B) :=
  fix go l := match l with
              | [] => Some []
              | x :: l => match f x, go l with Some y, Some ys => Some (y :: ys) | _, _ => None end
              end.

Definition result_option {A} (r : result A) : option A :=
  match r with Ok a => Some a | _ => None end.

Fixpoint unfold_value (fuel : nat) (h : heap) (v : value) : option tree :=
  match fuel with
  | O => None
  | S f =>
      match vdata v with
      | VVoid => Some TVoid
      | VNil => Some TNil
      | VInt i => Some (TInt i)
      | VFloat d => Some (TFloat d)
      | VStr s => Some (TStr s)
      | VSym n => Some (TSym n)
      | VObj p => Some (TObj p)
      | VBuf p => Some (TBuf p)
      | VArr None => Some (TArr [])
      | VArr (Some a) =>
          items ← arrays h !! a; ts ← olist (unfold_value f h) items; Some (TArr ts)
      | VMap None => Some (TMap 1 [])
      | VMap (Some a) =>
          m ← mappings h !! a; rows ← result_option (mapping_rows m);
          tss ← olist (olist (unfold_value f h)) rows; Some (TMap (width m) tss)
      | VClo None => Some TNullClo
      | VClo (Some a) =>
          c ← closures h !! a;
          if unboundUntilBound c || negb (isVoid (lambdaBody c)) then Some TLambda else
          ts ← olist (unfold_value f h) (boundArgs c);
          Some (TClo (owner c) (functionName c) (forceEfun c) ts)
      end
  end.

Definition denotes (h : heap) (v : value) (t : tree) : Prop :=
  ∃ fuel, unfold_value fuel h v = Some t.

(** Heap extension: allocation never changes a cell already there. *)
Definition extends (h h' : heap) : Prop :=
  arrays h ⊆ arrays h' ∧ mappings h ⊆ mappings h' ∧ closures h ⊆ closures h'.

#[export] Instance extends_preorder : PreOrder extends.
Proof.
  split; unfold extends.
  - intros h. done.
  - intros a b c (?&?&?) (?&?&?). split_and!; etrans; eauto.
Qed.

Lemma olist_Forall2 {A B} (f : A → option B) l k :
  olist f l = Some k ↔ Forall2 (λ x y, f x = Some y) l k.
Proof.
  revert k. induction l as [|x l IH]; intros k; simpl.
  - split; [intros [= <-]; constructor|by inversion 1].
  - split.
    + destruct (f x) eqn:E; [|done]. destruct (olist f l) eqn:E2; [|done].
      intros [= <-]. constructor; [done|]. by apply IH.
    + inversion 1; subst. rewrite H2. by rewrite (proj2 (IH l')).
Qed.

Lemma olist_impl {A B} (f g : A → option B) l k :
  (∀ x y, f x = Some y → g x = Some y) → olist f l = Some k → olist g l = Some k.
Proof. rewrite !olist_Forall2. intros H Hl. eapply Forall2_impl; [exact Hl|]. auto. Qed.

(** More fuel and a larger heap change nothing. *)
Lemma unfold_value_mono fuel fuel' h h' v t :
  (fuel ≤ fuel')%nat → extends h h' →
  unfold_value fuel h v = Some t → unfold_value fuel' h' v = Some t.
Proof.
  intros Hf (Ha & Hm & Hc). revert fuel' v t Hf.
  induction fuel as [|fuel IH]; intros fuel' v t Hf; [done|].
  destruct fuel' as [|fuel']; [lia|]. simpl.
  assert (IH' : ∀ l k, olist (unfold_value fuel h) l = Some k →
                       olist (unfold_value fuel' h') l = Some k).
  { intros l k. apply olist_impl. intros. apply IH; [lia|done]. }
  destruct (vdata v) as [| | | | | |p|p|p|p|p]; try done; destruct p as [a|]; try done; simpl.
  - destruct (arrays h !! a) as [items|] eqn:E; [|done]. simpl.
    rewrite (lookup_weaken _ _ _ _ E Ha). simpl.
    destruct (olist (unfold_value fuel h) items) eqn:E2; [|done]. by rewrite (IH' _ _ E2).
  - destruct (mappings h !! a) as [m|] eqn:E; [|done]. simpl.
    rewrite (lookup_weaken _ _ _ _ E Hm). simpl.
    destruct (result_option (mapping_rows m)) as [rows|]; [|done]. simpl.
    destruct (olist (olist (unfold_value fuel h)) rows) eqn:E2; [|done].
    by rewrite (olist_impl _ _ _ _ IH' E2).
  - destruct (closures h !! a) as [c|] eqn:E; [|done]. simpl.
    rewrite (lookup_weaken _ _ _ _ E Hc). simpl.
    case_if; [done|]. destruct (olist (unfold_value fuel h) (boundArgs c)) eqn:E2; [|done].
    by rewrite (IH' _ _ E2).
Qed.

Lemma denotes_mono h h' v t : extends h h' → denotes h v t → denotes h' v t.
Proof. intros Hh [fuel H]. exists fuel. by eapply unfold_value_mono. Qed.

(** One bound for a list of values. *)
Lemma denotes_list h vs ts :
  Forall2 (denotes h) vs ts → ∃ fuel, olist (unfold_value fuel h) vs = Some ts.
Proof.
  induction 1 as [|v t vs ts [f1 H1] _ [f2 H2]]; [by exists 0%nat|].
  exists (max f1 f2). simpl.
  rewrite (unfold_value_mono f1 (max f1 f2) h h v t) by (done || lia).
  rewrite (olist_impl (unfold_value f2 h) (unfold_value (max f1 f2) h) vs ts); [done| |done].
  intros. eapply unfold_value_mono; [|done|done]. lia.
Qed.

Lemma denotes_rows h vss tss :
  Forall2 (Forall2 (denotes h)) vss tss →
  ∃ fuel, olist (olist (unfold_value fuel h)) vss = Some tss.
Proof.
  induction 1 as [|vs ts vss tss H1%denotes_list _ [f2 H2]]; [by exists 0%nat|].
  destruct H1 as [f1 H1]. exists (max f1 f2). simpl.
  assert (∀ f l k, (f ≤ max f1 f2)%nat → olist (unfold_value f h) l = Some k →
    olist (unfold_value (max f1 f2) h) l = Some k) as Hm.
  { intros f l k Hf. apply olist_impl. intros. by eapply unfold_value_mono. }
  rewrite (Hm f1 vs ts) by (done || lia).
  rewrite (olist_impl (olist (unfold_value f2 h)) (olist (unfold_value (max f1 f2) h)) vss tss);
    [done| |done].
  intros. eapply Hm; [|done]. lia.
Qed.

Lemma denotes_arr h a items ts :
  arrays h !! a = Some items → Forall2 (denotes h) items ts →
  denotes h (mk (VArr (Some a))) (TArr ts).
Proof. intros Ha [f Hf]%denotes_list. exists (S f). simpl. by rewrite Ha; simpl; rewrite Hf. Qed.

Lemma denotes_map h a m rows tss :
  mappings h !! a = Some m → mapping_rows m = Ok rows →
  Forall2 (Forall2 (denotes h)) rows tss →
  denotes h (mk (VMap (Some a))) (TMap (width m) tss).
Proof.
  intros Ha Hr [f Hf]%denotes_rows. exists (S f). simpl.
  rewrite Ha. simpl. rewrite Hr. simpl. by rewrite Hf.
Qed.

Lemma denotes_clo h a c ts :
  closures h !! a = Some c → unboundUntilBound c = false → isVoid (lambdaBody c) = true →
  Forall2 (denotes h) (boundArgs c) ts →
  denotes h (mk (VClo (Some a))) (TClo (owner c) (functionName c) (forceEfun c) ts).
Proof.
  intros Ha Hu Hl [f Hf]%denotes_list. exists (S f). simpl.
  rewrite Ha. simpl. rewrite Hu, Hl. simpl. by rewrite Hf.
Qed.

Lemma Forall2_denotes_mono h h' vs ts :
  extends h h' → Forall2 (denotes h) vs ts → Forall2 (denotes h') vs ts.
Proof. intros Hh H. eapply Forall2_impl; [exact H|]. intros ??. by apply denotes_mono. Qed.

(** Allocation extends the heap. *)
Lemma alloc_array_spec items h a h' :
  alloc_array items h = (a, h') → extends h h' ∧ arrays h' !! a = Some items.
Proof.
  unfold alloc_array, extends. intros [= <- <-]. simpl. split; [|apply lookup_insert_eq].
  split_and!; [|done|done]. apply insert_subseteq.
  apply not_elem_of_dom, is_fresh.
Qed.

Lemma alloc_mapping_spec m h a h' :
  alloc_mapping m h = (a, h') → extends h h' ∧ mappings h' !! a = Some m.
Proof.
  unfold alloc_mapping, extends. intros [= <- <-]. simpl. split; [|apply lookup_insert_eq].
  split_and!; [done| |done]. apply insert_subseteq.
  apply not_elem_of_dom, is_fresh.
Qed.

Lemma alloc_closure_spec c h a h' :
  alloc_closure c h = (a, h') → extends h h' ∧ closures h' !! a = Some c.
Proof.
  unfold alloc_closure, extends. intros [= <- <-]. simpl. split; [|apply lookup_insert_eq].
  split_and!; [done|done|]. apply insert_subseteq.
  apply not_elem_of_dom, is_fresh.
Qed.

(** ** Mappings built from rows

    Both readers collect rows of a key, a value and the extra columns. *)

Definition row_cells (r : value * value * list value) : list value :=
  let '(k, v, e) := r in k :: v :: e.

Lemma rows_from_spec w n pre rows :
  n = Z.to_nat (w - 1) → Forall (λ r, length (snd r) = n) rows →
  ∀ es0, rows_from (mkMapping es0 w (pre ++ map snd rows)) (length pre) (map fst rows)
         = Ok (map row_cells rows).
Proof.
  intros Hn Hr es0. revert pre. induction Hr as [|[[k v] e] rows He Hr IH]; intros pre; [done|].
  simpl. unfold row_columns. cbn [extraColumns width]. rewrite list_lookup_middle by done.
  rewrite <- Hn. simpl in He. rewrite <- He. rewrite Nat.leb_refl. cbn [rbind].
  rewrite firstn_all. specialize (IH (pre ++ [e])).
  rewrite length_app, <- app_assoc in IH. simpl in IH. rewrite Nat.add_1_r in IH.
  by rewrite IH.
Qed.

Lemma rows_from_narrow m rows :
  width m = 1 → extraColumns m = [] → Forall (λ r, snd r = []) rows →
  ∀ i, rows_from m i (map fst rows) = Ok (map row_cells rows).
Proof.
  intros Hw Hx Hr. induction Hr as [|[[k v] e] rows He Hr IH]; intros i; [done|].
  simpl in *. unfold row_columns. rewrite Hx, Hw. simpl in *. rewrite IH. by subst.
Qed.

