(* ===== verification/SaveVariable.v ===== *)
(** * SaveVariable: the save-file text format

    Models [src/vm/SaveVariable.cpp]: the writer and the readers behind
    [save_variable], [restore_variable], [save_object] and [restore_object].

    The C++ readers take the whole text and a position they only ever
    advance; here they take the text from that position on and return what
    they leave, so [pos < s.size()] is "the rest is not empty". *)

From S2P Require Import Prelude Doubles Values Trees.

Definition CR : ascii := "013".

(** ** The writer *)

(** One byte of a saved string. *)
Definition escape_byte (c : ascii) : bytes :=
  if Ascii.eqb c QUOTE || Ascii.eqb c BACKSLASH then [BACKSLASH; c]
  else if Ascii.eqb c NL then [CR] else [c].

Definition escape (s : bytes) : bytes := concat (map escape_byte s).

(** [snprintf] into [char buf[64]] keeps 63 characters. *)
Definition float_text (d : double) : bytes := take 63 (print_f d).

Definition join_row (cells : list bytes) : bytes :=
  match cells with
  | k :: v :: extra => k ++ $":" ++ v ++ concat (map (λ e, $";" ++ e) extra) ++ $","
  | _ => []
  end.

Fixpoint writeRealSaveValue (fuel : nat) (h : heap) (v : value) : result bytes :=
  match fuel with
  | O => OutOfFuel
  | S f =>
      match vdata v with
      | VVoid => Ok ($"0")
      | VInt i => Ok (to_string i)
      | VFloat d => Ok (float_text d)
      | VStr s => Ok ([QUOTE] ++ escape s ++ [QUOTE])
      | VArr p =>
          let* items := match p with None => Ok [] | Some a => deref (arrays h !! a) end in
          let* texts := rmap (writeRealSaveValue f h) items in
          Ok ($"({" ++ concat (map (λ t, t ++ $",") texts) ++ $"})")
      | VMap p =>
          let* rows := match p with
                       | None => Ok []
                       | Some a => let* m := deref (mappings h !! a) in mapping_rows m
                       end in
          let* texts := rmap (rmap (writeRealSaveValue f h)) rows in
          Ok ($"([" ++ concat (map join_row texts) ++ $"])")
      | _ => Ok []
      end
  end.

(** ** The readers *)

Fixpoint parseRealSaveString (s : bytes) : bytes * bytes :=
  match s with
  | [] => ([], [])
  | c :: r =>
      if Ascii.eqb c QUOTE then ([], r)
      else if Ascii.eqb c BACKSLASH then
        match r with
        | d :: r' => let '(a, b) := parseRealSaveString r' in (d :: a, b)
        | [] => ([c], [])
        end
      else let '(a, b) := parseRealSaveString r in
           ((if Ascii.eqb c CR then NL else c) :: a, b)
  end.

(** The token of a number: its text, whether it has a ['.'], the rest. *)
Definition number_token (s : bytes) : bytes * bool * bytes :=
  let '(sg, s1) := match s with
                   | c :: r => if Ascii.eqb c "-" then ([c], r) else ([], s)
                   | [] => ([], s)
                   end in
  let '(ds, s2) := span is_digit s1 in
  match s2 with
  | c :: s3 => if Ascii.eqb c "."
               then let '(fs, s4) := span is_digit s3 in (sg ++ ds ++ c :: fs, true, s4)
               else (sg ++ ds, false, s2)
  | [] => (sg ++ ds, false, s2)
  end.

Definition parseRealSaveNumber (s : bytes) : result (value * bytes) :=
  let '(token, isFloat, rest) := number_token s in
  if isFloat then let* d := stod token in Ok (mk (VFloat d), rest)
  else let* i := stoll token in Ok (mk (VInt i), rest).

Definition zero : value := mk (VInt 0).

(** [if (pos < s.size() && s[pos] == c) ++pos]. *)
Definition skip_char (c : ascii) (s : bytes) : bytes :=
  match s with
  | d :: r => if Ascii.eqb c d then r else s
  | [] => []
  end.

Definition next_is (c : ascii) (s : bytes) : bool :=
  match s with d :: _ => Ascii.eqb c d | [] => false end.

Definition class_error : exn :=
  LpcRuntimeError ($"restore_object: class-typed save data is not supported").

(** The rows read so far become a mapping as wide as the widest row. *)
Definition row_width (extra : list value) : Z := 1 + size extra.
Definition max_width (rows : list (value * value * list value)) : Z :=
  foldr (λ r w, Z.max (row_width (snd r)) w) 1 rows.
Definition build_mapping (rows : list (value * value * list value)) : Mapping :=
  let w := max_width rows in
  mkMapping (map fst rows) w
    (if 1 <? w
     then map (λ r, snd r ++ replicate (Z.to_nat (w - 1) - length (snd r)) zero) rows
     else []).

(** [parseRealSaveValue] and its loops over array elements, mapping rows and
    the extra columns of a row. *)
Fixpoint parseRealSaveValue (fuel : nat) (s : bytes) (h : heap) {struct fuel}
  : result (value * bytes * heap) :=
  match fuel with
  | O => OutOfFuel
  | S f =>
      match s with
      | [] => Ok (zero, [], h)
      | c :: r =>
          if Ascii.eqb c QUOTE then
            let '(t, rest) := parseRealSaveString r in Ok (mk (VStr t), rest, h)
          else if Ascii.eqb c "(" then
            if next_is "{" r then
              let* (items, rest, h1) := array_loop f (tail r) h in
              let '(a, h2) := alloc_array items h1 in
              Ok (mk (VArr (Some a)), skip_char ")" (tail rest), h2)
            else if next_is "[" r then
              let* (rows, rest, h1) := mapping_loop f (tail r) h in
              let '(a, h2) := alloc_mapping (build_mapping rows) h1 in
              Ok (mk (VMap (Some a)), skip_char ")" (tail rest), h2)
            else Throw class_error
          else if Ascii.eqb c "-" || is_digit c then
            let* (v, rest) := parseRealSaveNumber s in Ok (v, rest, h)
          else Ok (zero, s, h)
      end
  end
with array_loop (fuel : nat) (s : bytes) (h : heap) {struct fuel}
  : result (list value * bytes * heap) :=
  match fuel with
  | O => OutOfFuel
  | S f =>
      match s with
      | [] => Ok ([], [], h)
      | c :: r =>
          if Ascii.eqb c "}" then Ok ([], s, h)
          else if Ascii.eqb c "," then
            let* (vs, rest, h1) := array_loop f r h in Ok (zero :: vs, rest, h1)
          else
            let* (v, s1, h1) := parseRealSaveValue f s h in
            let* (vs, rest, h2) := array_loop f (skip_char "," s1) h1 in
            Ok (v :: vs, rest, h2)
      end
  end
with mapping_loop (fuel : nat) (s : bytes) (h : heap) {struct fuel}
  : result (list (value * value * list value) * bytes * heap) :=
  match fuel with
  | O => OutOfFuel
  | S f =>
      match s with
      | [] => Ok ([], [], h)
      | c :: _ =>
          if Ascii.eqb c "]" then Ok ([], s, h)
          else
            let* (k, s1, h1) := parseRealSaveValue f s h in
            let* (v, s2, h2) := parseRealSaveValue f (skip_char ":" s1) h1 in
            let* (extra, s3, h3) := column_loop f s2 h2 in
            let* (rows, rest, h4) := mapping_loop f (skip_char "," s3) h3 in
            Ok ((k, v, extra) :: rows, rest, h4)
      end
  end
with column_loop (fuel : nat) (s : bytes) (h : heap) {struct fuel}
  : result (list value * bytes * heap) :=
  match fuel with
  | O => OutOfFuel
  | S f =>
      if next_is ";" s then
        let* (v, s1, h1) := parseRealSaveValue f (tail s) h in
        let* (vs, rest, h2) := column_loop f s1 h1 in
        Ok (v :: vs, rest, h2)
      else Ok ([], s, h)
  end.

Definition string_error : exn :=
  LpcRuntimeError ($"restore_variable(): Illegal string format.").
Definition numeric_error : exn :=
  LpcRuntimeError ($"restore_variable(): Illegal numeric format.").

(** The top-level string reader: the closing quote must end the text. *)
Fixpoint parseRestoreVariableString (s : bytes) : result bytes :=
  match s with
  | [] => Throw string_error
  | c :: r =>
      if Ascii.eqb c QUOTE then
        match r with [] => Ok [] | _ => Throw string_error end
      else if Ascii.eqb c BACKSLASH then
        match r with
        | [] => Throw string_error
        | esc :: r' =>
            let* t := parseRestoreVariableString r' in
            Ok ((if Ascii.eqb esc CR then NL else esc) :: t)
        end
      else
        let* t := parseRestoreVariableString r in
        Ok ((if Ascii.eqb c CR then NL else c) :: t)
  end.

(** The top-level number reader: a lone minus sign is an error. *)
Definition parseRestoreVariableNumber (s : bytes) : result (value * bytes) :=
  match s with
  | c :: r =>
      if Ascii.eqb c "-" && negb (match r with d :: _ => is_digit d | [] => false end)
      then Throw numeric_error
      else parseRealSaveNumber s
  | [] => parseRealSaveNumber s
  end.

Definition parseRestoreVariableTopLevel (fuel : nat) (s : bytes) (h : heap)
  : result (value * heap) :=
  match s with
  | [] => Ok (zero, h)
  | c :: r =>
      if Ascii.eqb c QUOTE then
        let* t := parseRestoreVariableString r in Ok (mk (VStr t), h)
      else if Ascii.eqb c "-" || is_digit c then
        let* (v, _) := parseRestoreVariableNumber s in Ok (v, h)
      else
        let* (v, _, h') := parseRealSaveValue fuel s h in Ok (v, h')
  end.

(** ** The text of a tree *)

Fixpoint wtree (t : tree) : bytes :=
  match t with
  | TVoid => $"0"
  | TInt i => to_string i
  | TFloat d => float_text d
  | TStr s => [QUOTE] ++ escape s ++ [QUOTE]
  | TArr ts => $"({" ++ concat (map (λ t, wtree t ++ $",") ts) ++ $"})"
  | TMap _ rows => $"([" ++ concat (map (λ r, join_row (map wtree r)) rows) ++ $"])"
  | _ => []
  end.

Lemma rmap_olist {A B C} (f : A → result C) (g : A → option B) (w : B → C) l k :
  (∀ x y, g x = Some y → f x = Ok (w y)) → olist g l = Some k → rmap f l = Ok (map w k).
Proof.
  intros Hfg. rewrite olist_Forall2, rmap_Forall2.
  induction 1; simpl; constructor; auto.
Qed.

(** The writer prints the tree a value denotes, with the same bound. *)
Lemma writeRealSaveValue_tree fuel h v t :
  unfold_value fuel h v = Some t → writeRealSaveValue fuel h v = Ok (wtree t).
Proof.
  revert v t. induction fuel as [|fuel IH]; intros v t; [done|]. simpl.
  destruct (vdata v) as [| | | | | |p|p|p|p|p]; try (intros [= <-]; done);
    try (destruct p as [a|]; [|by intros [= <-]]).
  - destruct (arrays h !! a) as [items|]; [|done]. simpl.
    destruct (olist (unfold_value fuel h) items) as [ts|] eqn:E; [|done]. intros [= <-].
    rewrite (rmap_olist _ _ _ _ _ IH E). simpl. by rewrite map_map.
  - destruct (mappings h !! a) as [m|]; [|done]. simpl.
    destruct (mapping_rows m) as [rows| | |]; try done. simpl.
    destruct (olist (olist (unfold_value fuel h)) rows) as [tss|] eqn:E; [|done]. intros [= <-].
    rewrite (rmap_olist _ _ (map wtree) _ _ (λ x y, rmap_olist _ _ _ x y IH) E).
    simpl. by rewrite map_map.
  - destruct (closures h !! a) as [c|]; [|done]. simpl. case_if; [by intros [= <-]|].
    by destruct (olist (unfold_value fuel h) (boundArgs c)); [|done]; intros [= <-].
Qed.

(** ** Reading the text back *)

Definition cr_to_nl (c : ascii) : ascii := if Ascii.eqb c CR then NL else c.

(** What a tree looks like after a save and a restore. *)
Fixpoint restored (t : tree) : tree :=
  match t with
  | TInt i => TInt i
  | TFloat d => TFloat d
  | TStr s => TStr (map cr_to_nl s)
  | TArr ts => TArr (map restored ts)
  | TMap w rows => TMap (match rows with [] => 1 | _ => Z.max 1 w end) (map (map restored) rows)
  | _ => TInt 0
  end.

(** A digit, or a minus sign and a digit, comes first. *)
Definition starts_number (s : bytes) : bool :=
  match s with
  | c :: r => is_digit c || (Ascii.eqb c "-" && match r with d :: _ => is_digit d | [] => false end)
  | [] => false
  end.

Definition float_ok (d : double) : bool :=
  bool_decide (number_token (float_text d) = (float_text d, true, []))
  && bool_decide (stod (float_text d) = Ok d)
  && starts_number (float_text d).

(** Integers are 64-bit, floats survive ["%f"], rows are as wide as their
    mapping. *)
Fixpoint savable (t : tree) : bool :=
  match t with
  | TInt i => in_i64 i
  | TFloat d => float_ok d
  | TArr ts => forallb savable ts
  | TMap w rows =>
      forallb (λ r, (length r =? 2 + Z.to_nat (w - 1))%nat && forallb savable r) rows
  | _ => true
  end.

(** A bound on the recursion a tree's text needs. *)
Fixpoint need (t : tree) : nat :=
  match t with
  | TArr ts => 3 + list_sum (map (λ t, S (need t)) ts)
  | TMap _ rows => 3 + list_sum (map (λ r, S (list_sum (map (λ t, S (need t)) r))) rows)
  | _ => 1
  end.

(** What may follow a value inside an array or a mapping. *)
Definition delimited (s : bytes) : Prop :=
  match s with
  | [] => True
  | c :: _ => c = ","%char ∨ c = ":"%char ∨ c = ";"%char
  end.

Lemma parseRealSaveString_byte c r :
  parseRealSaveString (escape_byte c ++ r) =
  let '(a, b) := parseRealSaveString r in (cr_to_nl c :: a, b).
Proof.
  unfold escape_byte, cr_to_nl.
  destruct (Ascii.eqb c QUOTE || Ascii.eqb c BACKSLASH) eqn:E1;
    [|destruct (Ascii.eqb c NL) eqn:E2]; prop_tests; cbn [app parseRealSaveString].
  - by destruct (Ascii.eqb_spec c CR) as [->|].
  - by subst.
  - by rewrite !ascii_eqb_neq by done.
Qed.

Lemma parseRealSaveString_escape s rest :
  parseRealSaveString (escape s ++ QUOTE :: rest) = (map cr_to_nl s, rest).
Proof.
  unfold escape. induction s as [|c s IH]; [done|]. cbn [map concat].
  by rewrite <- app_assoc, parseRealSaveString_byte, IH.
Qed.

Lemma parseRealSaveString_open s : parseRealSaveString (escape s) = (map cr_to_nl s, []).
Proof.
  unfold escape. induction s as [|c s IH]; [done|]. cbn [map concat].
  by rewrite parseRealSaveString_byte, IH.
Qed.

Lemma delimited_not c r s p :
  delimited s → s = c :: r → p ","%char = false → p ":"%char = false → p ";"%char = false →
  p c = false.
Proof. intros Hs -> ???. destruct Hs as [->|[->| ->]]; done. Qed.

Lemma number_token_app x post fl :
  number_token x = (x, fl, []) → x ≠ [] → x ≠ $"-" → delimited post →
  number_token (x ++ post) = (x, fl, post).
Proof.
  intros Hx Hne Hne2 Hp. unfold number_token in *.
  assert (Hd : ∀ c r, post = c :: r → is_digit c = false).
  { intros c r E. by eapply delimited_not. }
  destruct x as [|c x]; [done|]. simpl in *.
  set (u := if Ascii.eqb c "-" then ([c], x) else ([], c :: x)) in *.
  assert (Hu : (if Ascii.eqb c "-" then ([c], x ++ post) else ([], c :: x ++ post))
    = (fst u, snd u ++ post)) by (unfold u; by case_if).
  rewrite Hu. destruct u as [sg s1]. simpl in *.
  destruct (span is_digit s1) as [ds s2] eqn:E1.
  destruct s2 as [|d s3].
  - rewrite (span_app_nil _ _ _ _ E1 Hd). injection Hx as Hx <-.
    destruct post as [|c' r]; [by rewrite Hx|].
    rewrite (delimited_not c' r _ (λ c, Ascii.eqb c ".") Hp) by done. by rewrite Hx.
  - rewrite (span_app_cons _ _ _ _ _ _ E1).
    destruct (Ascii.eqb d "."); [|by simplify_eq].
    destruct (span is_digit s3) as [fs s4] eqn:E2. injection Hx as Hx <- ->.
    rewrite (span_app_nil _ _ _ _ E2 Hd). by rewrite Hx.
Qed.

Lemma number_token_to_string z : number_token (to_string z) = (to_string z, false, []).
Proof.
  unfold number_token, to_string. destruct (z <? 0) eqn:E; prop_tests.
  - simpl. destruct (dec_spec (- z)) as (H1 & _ & _); [lia|].
    rewrite <- (app_nil_r (dec (- z))) at 1. by rewrite span_app.
  - destruct (dec_spec z) as (H1 & _ & _); [lia|].
    destruct (dec_cons z) as (c & r & Hd & Hc); [lia|].
    rewrite Hd. rewrite is_digit_neq by done. rewrite <- Hd.
    rewrite <- (app_nil_r (dec z)) at 1. by rewrite span_app.
Qed.

Lemma to_string_cons z : ∃ c r, to_string z = c :: r ∧ (c = "-"%char ∨ is_digit c = true).
Proof.
  unfold to_string. case_if; prop_tests; [eauto|].
  destruct (dec_cons z) as (c & r & Hd & Hc); [lia|]. eauto.
Qed.

Lemma starts_number_cons c r :
  starts_number (c :: r) = true → c = "-"%char ∨ is_digit c = true.
Proof. simpl. intros [H|H]%orb_true_iff; [auto|]. prop_tests. auto. Qed.

Lemma starts_number_to_string z : starts_number (to_string z) = true.
Proof.
  unfold to_string. case_if; prop_tests.
  - destruct (dec_cons (- z)) as (c & r & -> & Hc); [lia|]. simpl. by rewrite Hc.
  - destruct (dec_cons z) as (c & r & -> & Hc); [lia|]. simpl. by rewrite Hc.
Qed.

Lemma to_string_not_minus z : to_string z ≠ $"-".
Proof.
  unfold to_string. case_if; prop_tests.
  - destruct (dec_cons (- z)) as (c & r & -> & Hc); [lia|]. done.
  - destruct (dec_cons z) as (c & r & -> & Hc); [lia|]. simpl. by intros [= -> _].
Qed.

Lemma parse_int z rest :
  in_i64 z = true → delimited rest →
  parseRealSaveNumber (to_string z ++ rest) = Ok (mk (VInt z), rest).
Proof.
  intros Hz Hr. unfold parseRealSaveNumber.
  destruct (to_string_cons z) as (c & r & Hc & _).
  rewrite number_token_app with (fl := false); auto using number_token_to_string, to_string_not_minus;
    [|by rewrite Hc].
  by rewrite stoll_to_string_nil.
Qed.

Lemma parse_float d rest :
  float_ok d = true → delimited rest →
  parseRealSaveNumber (float_text d ++ rest) = Ok (mk (VFloat d), rest).
Proof.
  unfold float_ok. intros Hd Hr. prop_tests.
  unfold parseRealSaveNumber. rewrite number_token_app with (fl := true); auto.
  - by rewrite H1.
  - intros E. by rewrite E in H1.
  - intros E. by rewrite E in H1.
Qed.

(** The first byte of a value's text. *)
Definition starter (c : ascii) : Prop :=
  c = QUOTE ∨ c = "("%char ∨ c = "-"%char ∨ is_digit c = true.

Lemma wtree_head t :
  savable t = true →
  (wtree t = [] ∧ restored t = TInt 0) ∨ (∃ c r, wtree t = c :: r ∧ starter c).
Proof.
  unfold starter. destruct t; simpl; intros Ht; try (left; done); right.
  - by exists "0"%char, []; auto.
  - destruct (to_string_cons i) as (c & r & -> & ?). naive_solver.
  - unfold float_ok in Ht. prop_tests. destruct (float_text d) as [|c r]; [done|].
    exists c, r. split; [done|]. apply starts_number_cons in H0. tauto.
  - eauto 10.
  - eauto 10.
  - eauto 10.
Qed.

Lemma starter_neq c d :
  starter c → is_digit d = false → d ≠ QUOTE → d ≠ "("%char → d ≠ "-"%char →
  Ascii.eqb c d = false.
Proof. intros [->|[->|[->|Hc]]] ????; apply Ascii.eqb_neq; congruence. Qed.

Lemma max_width_const n rows :
  Forall (λ r : value * value * list value, length (snd r) = n) rows →
  max_width rows = match rows with [] => 1 | _ => 1 + Z.of_nat n end.
Proof.
  unfold max_width. induction 1 as [|r rows Hr H IH]; [done|]. simpl. rewrite IH.
  unfold row_width, size. rewrite Hr. destruct rows; lia.
Qed.

Lemma build_mapping_rows n rows :
  Forall (λ r, length (snd r) = n) rows →
  mapping_rows (build_mapping rows) = Ok (map row_cells rows) ∧
  width (build_mapping rows) = match rows with [] => 1 | _ => 1 + Z.of_nat n end.
Proof.
  intros Hr. rewrite <- (max_width_const n) by done. split; [|done].
  unfold mapping_rows, build_mapping. cbn [entries].
  pose proof (max_width_const n rows Hr) as Hw. rewrite Hw.
  destruct rows as [|r0 rows0]; [done|]. set (rows := r0 :: rows0) in *.
  destruct (1 <? 1 + Z.of_nat n) eqn:E; prop_tests.
  - replace (map _ rows) with (map snd rows).
    + apply (rows_from_spec _ n []); [lia|done].
    + apply map_ext_in. intros r Hin%list_elem_of_In.
      rewrite Forall_forall in Hr. rewrite (Hr r) by done.
      replace (Z.to_nat (1 + Z.of_nat n - 1) - n)%nat with 0%nat by lia.
      simpl. by rewrite app_nil_r.
  - apply rows_from_narrow; simpl; [lia|done|].
    eapply Forall_impl; [exact Hr|]. intros r Hl. cbn in Hl. apply nil_length_inv. lia.
Qed.

Definition reads_back (t : tree) : Prop :=
  ∀ fuel rest h, delimited rest → (need t ≤ fuel)%nat →
  ∃ v h', parseRealSaveValue fuel (wtree t ++ rest) h = Ok (v, rest, h')
    ∧ extends h h' ∧ denotes h' v (restored t).

Lemma denotes_zero h : denotes h zero (TInt 0).
Proof. by exists 1%nat. Qed.

Lemma array_loop_S f c r h :
  array_loop (S f) (c :: r) h =
  if Ascii.eqb c "}" then Ok ([], c :: r, h)
  else if Ascii.eqb c "," then
    let* (vs, rest, h1) := array_loop f r h in Ok (zero :: vs, rest, h1)
  else
    let* (v, s1, h1) := parseRealSaveValue f (c :: r) h in
    let* (vs, rest, h2) := array_loop f (skip_char "," s1) h1 in
    Ok (v :: vs, rest, h2).
Proof. done. Qed.

Lemma skip_char_app c s : skip_char c ([c] ++ s) = s.
Proof. simpl. by rewrite Ascii.eqb_refl. Qed.

Lemma array_loop_reads ts :
  Forall (λ t, savable t = true ∧ reads_back t) ts →
  ∀ fuel rest h, (S (list_sum (map (λ t, S (need t)) ts)) ≤ fuel)%nat →
  ∃ vs h',
    array_loop fuel (concat (map (λ t, wtree t ++ $",") ts) ++ "}"%char :: rest) h
    = Ok (vs, "}"%char :: rest, h') ∧ extends h h' ∧ Forall2 (denotes h') vs (map restored ts).
Proof.
  induction 1 as [|t ts [Hsav Hread] _ IH]; intros [|f] rest h Hf; simpl in Hf; try lia.
  { exists [], h. split_and!; [done|done|constructor]. }
  cbn [map concat]. rewrite <- !app_assoc.
  set (rest1 := concat _ ++ _) in *.
  destruct (wtree_head t Hsav) as [[Ht Hr]|(c & r & Ht & Hc)].
  - rewrite Ht. change ([] ++ $"," ++ rest1) with (","%char :: rest1).
    rewrite array_loop_S. cbn [Ascii.eqb Bool.eqb]. unfold rest1.
    destruct (IH f rest h) as (vs & h' & -> & Hh & Hvs); [lia|]. simpl.
    exists (zero :: vs), h'. split_and!; [done|done|]. constructor; [|done].
    rewrite Hr. apply denotes_zero.
  - rewrite Ht. rewrite <- app_comm_cons, array_loop_S.
    rewrite !(starter_neq c) by done.
    destruct (Hread f ($"," ++ rest1) h) as (v & h1 & Hp & Hh1 & Hv); [simpl; auto|lia|].
    rewrite app_comm_cons, <- Ht. unfold rest1 in *.
    rewrite Hp. cbn [rbind]. rewrite (skip_char_app ",").
    destruct (IH f rest h1) as (vs & h' & -> & Hh & Hvs); [lia|]. simpl.
    exists (v :: vs), h'. split_and!; [done|by etrans|]. constructor; [|done].
    by eapply denotes_mono.
Qed.

Lemma column_loop_reads ts :
  Forall (λ t, savable t = true ∧ reads_back t) ts →
  ∀ fuel rest h, (S (list_sum (map (λ t, S (need t)) ts)) ≤ fuel)%nat →
  ∃ vs h',
    column_loop fuel (concat (map (λ e, $";" ++ e) (map wtree ts)) ++ $"," ++ rest) h
    = Ok (vs, $"," ++ rest, h') ∧ extends h h' ∧ Forall2 (denotes h') vs (map restored ts).
Proof.
  induction 1 as [|t ts [Hsav Hread] _ IH]; intros [|f] rest h Hf; simpl in Hf; try lia.
  { exists [], h. split_and!; [done|done|constructor]. }
  cbn [map concat]. rewrite <- !app_assoc.
  simpl. set (rest1 := concat _ ++ _) in *.
  destruct (Hread f rest1 h) as (v & h1 & -> & Hh1 & Hv); [|lia|].
  { unfold rest1. destruct ts; simpl; auto. }
  simpl. unfold rest1.
  destruct (IH f rest h1) as (vs & h' & Hc & Hh & Hvs); [lia|]. simpl in Hc. rewrite Hc. simpl.
  exists (v :: vs), h'. split_and!; [done|by etrans|]. constructor; [|done].
  by eapply denotes_mono.
Qed.

Lemma mapping_loop_S f c r h :
  mapping_loop (S f) (c :: r) h =
  if Ascii.eqb c "]" then Ok ([], c :: r, h)
  else
    let* (k, s1, h1) := parseRealSaveValue f (c :: r) h in
    let* (v, s2, h2) := parseRealSaveValue f (skip_char ":" s1) h1 in
    let* (extra, s3, h3) := column_loop f s2 h2 in
    let* (rows, rest, h4) := mapping_loop f (skip_char "," s3) h3 in
    Ok ((k, v, extra) :: rows, rest, h4).
Proof. done. Qed.

(** The head of a row's text never looks like the end of the mapping. *)
Lemma row_text_head t rest :
  savable t = true → ∃ c r, wtree t ++ $":" ++ rest = c :: r ∧ Ascii.eqb c "]" = false.
Proof.
  intros Ht. destruct (wtree_head t Ht) as [[-> _]|(c & r & -> & Hc)]; simpl.
  - by exists ":"%char, rest.
  - exists c. eexists. split; [done|]. by apply starter_neq.
Qed.

Definition row_need (r : list tree) : nat := list_sum (map (λ t, S (need t)) r).

Lemma mapping_loop_reads n rows :
  Forall (λ r, length r = (2 + n)%nat ∧ Forall (λ t, savable t = true ∧ reads_back t) r) rows →
  ∀ fuel rest h, (S (list_sum (map (λ r, S (row_need r)) rows)) ≤ fuel)%nat →
  ∃ vrows h',
    mapping_loop fuel (concat (map (λ r, join_row (map wtree r)) rows) ++ "]"%char :: rest) h
    = Ok (vrows, "]"%char :: rest, h') ∧ extends h h'
    ∧ Forall (λ r, length (snd r) = n) vrows
    ∧ Forall2 (Forall2 (denotes h')) (map row_cells vrows) (map (map restored) rows).
Proof.
  induction 1 as [|row rows [Hlen Hrow] _ IH]; intros [|f] rest h Hf; simpl in Hf; try lia.
  { exists [], h. split_and!; [done|done|constructor|constructor]. }
  destruct row as [|tk [|tv te]]; simpl in Hlen; try lia.
  apply Forall_cons in Hrow as [[Hsk Hk] [[Hsv Hv] He]%Forall_cons].
  unfold row_need in Hf. simpl in Hf. cbn [map concat join_row]. rewrite <- !app_assoc.
  set (rest1 := concat (map (λ r, join_row (map wtree r)) rows) ++ _) in *.
  set (rest2 := concat (map _ (map wtree te)) ++ _) in *.
  destruct (row_text_head tk (wtree tv ++ rest2) Hsk) as (c & r & Hc & Hb).
  rewrite Hc, mapping_loop_S, Hb, <- Hc.
  destruct (Hk f ($":" ++ wtree tv ++ rest2) h) as (k & h1 & -> & Hh1 & Hdk); [simpl; auto|lia|].
  cbn [rbind]. rewrite (skip_char_app ":").
  destruct (Hv f rest2 h1) as (v & h2 & -> & Hh2 & Hdv); [|lia|].
  { unfold rest2. destruct te; simpl; auto. }
  cbn [rbind]. unfold rest2.
  destruct (column_loop_reads te He f rest1 h2) as (vs & h3 & -> & Hh3 & Hdvs); [lia|].
  cbn [rbind]. rewrite (skip_char_app ","). unfold rest1.
  destruct (IH f rest h3) as (vrows & h4 & -> & Hh4 & Hls & Hrows); [unfold row_need in *; lia|].
  exists ((k, v, vs) :: vrows), h4. split_and!; [done|by repeat (etrans; [eassumption|])| |].
  - constructor; [|done]. simpl. apply Forall2_length in Hdvs. rewrite length_map in Hdvs. lia.
  - simpl. constructor; [|done].
    repeat constructor; [| |by eapply Forall2_denotes_mono];
      (eapply denotes_mono; [|eassumption]); by repeat (etrans; [eassumption|]).
Qed.

Lemma parse_S_open f k r h :
  next_is k r = true → k = "{"%char →
  parseRealSaveValue (S f) ("("%char :: r) h =
  let* (items, rest, h1) := array_loop f (tail r) h in
  let (a, h2) := alloc_array items h1 in
  Ok (mk (VArr (Some a)), skip_char ")" (tail rest), h2).
Proof. intros H ->. cbn [parseRealSaveValue]. by rewrite H. Qed.

Lemma parse_S_map f r h :
  parseRealSaveValue (S f) ("("%char :: "["%char :: r) h =
  let* (rows, rest, h1) := mapping_loop f r h in
  let (a, h2) := alloc_mapping (build_mapping rows) h1 in
  Ok (mk (VMap (Some a)), skip_char ")" (tail rest), h2).
Proof. done. Qed.

Lemma parse_number f c r h :
  c = "-"%char ∨ is_digit c = true →
  parseRealSaveValue (S f) (c :: r) h =
  let* (v, rest) := parseRealSaveNumber (c :: r) in Ok (v, rest, h).
Proof.
  intros Hc. cbn [parseRealSaveValue].
  destruct Hc as [->|Hc]; [done|]. rewrite !is_digit_neq by done. by rewrite Hc.
Qed.

Lemma parse_default f s h : delimited s → parseRealSaveValue (S f) s h = Ok (zero, s, h).
Proof. destruct s as [|c s]; [done|]. intros [->|[->| ->]]; done. Qed.

Lemma reads_back_arr ts :
  Forall (λ t, savable t = true ∧ reads_back t) ts → reads_back (TArr ts).
Proof.
  intros Hts [|f] rest h Hr Hf; [simpl in Hf; lia|].
  cbn [wtree]. rewrite <- !app_assoc.
  change ($"({" ++ ?x ++ ?y ++ rest) with ("("%char :: "{"%char :: x ++ y ++ rest).
  rewrite (parse_S_open _ "{") by done. cbn [tail].
  destruct (array_loop_reads ts Hts f (")"%char :: rest) h) as (vs & h1 & He & Hh & Hvs);
    [simpl in Hf; lia|].
  change ($"})" ++ rest) with ("}"%char :: ")"%char :: rest). rewrite He. cbn [rbind].
  destruct (alloc_array vs h1) as [a h2] eqn:Ea. apply alloc_array_spec in Ea as [Hh2 Ha].
  exists (mk (VArr (Some a))), h2. split_and!; [done|by etrans|].
  eapply denotes_arr; [done|]. by eapply Forall2_denotes_mono.
Qed.

Lemma reads_back_map w rows :
  Forall (λ r, length r = (2 + Z.to_nat (w - 1))%nat ∧
               Forall (λ t, savable t = true ∧ reads_back t) r) rows →
  reads_back (TMap w rows).
Proof.
  intros Hrows [|f] rest h Hr Hf; [simpl in Hf; lia|].
  cbn [wtree]. rewrite <- !app_assoc.
  change ($"([" ++ ?x ++ ?y ++ rest) with ("("%char :: "["%char :: x ++ y ++ rest).
  rewrite parse_S_map.
  destruct (mapping_loop_reads _ rows Hrows f (")"%char :: rest) h)
    as (vs & h1 & He & Hh & Hl & Hvs); [unfold row_need; simpl in Hf; lia|].
  change ($"])" ++ rest) with ("]"%char :: ")"%char :: rest). rewrite He. cbn [rbind].
  destruct (build_mapping_rows _ vs Hl) as [Hb Hw].
  destruct (alloc_mapping (build_mapping vs) h1) as [a h2] eqn:Ea.
  apply alloc_mapping_spec in Ea as [Hh2 Ha].
  exists (mk (VMap (Some a))), h2. split_and!; [done|by etrans|].
  cbn [restored]. replace (match rows with [] => 1 | _ => Z.max 1 w end)
    with (width (build_mapping vs)).
  - eapply denotes_map; [done|done|]. eapply Forall2_impl; [exact Hvs|].
    intros ??. by apply Forall2_denotes_mono.
  - rewrite Hw. apply Forall2_length in Hvs. rewrite !length_map in Hvs.
    destruct vs, rows; simpl in *; lia.
Qed.

Lemma savable_reads_back t : savable t = true → reads_back t.
Proof.
  induction t as [t Hleaf|ts IH|w rows IH|o n e ts IH] using tree_rect_nested; intros Hsav.
  - destruct t; try done; intros [|f] rest h Hr Hf; try (simpl in Hf; lia); cbn [wtree];
      try (rewrite app_nil_l, parse_default by done; exists zero, h;
           split_and!; [done|done|apply denotes_zero]).
    + change ($"0" ++ rest) with ("0"%char :: rest). rewrite parse_number by auto.
      change ("0"%char :: rest) with (to_string 0 ++ rest). rewrite parse_int by done. cbn [rbind].
      exists zero, h. split_and!; [done|done|apply denotes_zero].
    + pose proof (parse_int i rest Hsav Hr) as Hp.
      destruct (to_string_cons i) as (c & r & Hc & Hd). rewrite Hc in *.
      rewrite <- app_comm_cons in *. rewrite parse_number, Hp by done.
      exists (mk (VInt i)), h. split_and!; [done|done|by exists 1%nat].
    + simpl in Hsav. pose proof (parse_float d rest Hsav Hr) as Hp.
      unfold float_ok in Hsav. prop_tests. destruct (float_text d) as [|c r]; [done|].
      rewrite <- app_comm_cons in *. rewrite parse_number, Hp
        by by eapply starts_number_cons.
      exists (mk (VFloat d)), h. split_and!; [done|done|by exists 1%nat].
    + rewrite <- !app_assoc. cbn [app parseRealSaveValue]. rewrite Ascii.eqb_refl.
      rewrite parseRealSaveString_escape.
      exists (mk (VStr (map cr_to_nl s))), h. split_and!; [done|done|by exists 1%nat].
  - simpl in Hsav. rewrite forallb_forall in Hsav. apply reads_back_arr.
    rewrite Forall_forall in *. intros t Hin. specialize (Hsav t). rewrite <- list_elem_of_In in Hsav. auto.
  - simpl in Hsav. rewrite forallb_forall in Hsav. apply reads_back_map.
    rewrite Forall_forall in *. intros r Hin. specialize (Hsav r).
    rewrite <- list_elem_of_In in Hsav. specialize (Hsav Hin). specialize (IH r Hin). prop_tests.
    apply Nat.eqb_eq in H. split; [done|]. rewrite forallb_forall in H0.
    rewrite Forall_forall in *. intros t Ht. specialize (H0 t).
    rewrite <- list_elem_of_In in H0. auto.
  - intros [|f] rest h Hr Hf; [simpl in Hf; lia|]. cbn [wtree].
    rewrite app_nil_l, parse_default by done. exists zero, h.
    split_and!; [done|done|apply denotes_zero].
Qed.

Lemma parseRestoreVariableString_byte c r :
  parseRestoreVariableString (escape_byte c ++ r) =
  let* t := parseRestoreVariableString r in Ok (cr_to_nl c :: t).
Proof.
  unfold escape_byte, cr_to_nl.
  destruct (Ascii.eqb c QUOTE || Ascii.eqb c BACKSLASH) eqn:E1;
    [|destruct (Ascii.eqb c NL) eqn:E2]; prop_tests; cbn [app parseRestoreVariableString].
  - by destruct (Ascii.eqb_spec c CR) as [->|].
  - by subst.
  - by rewrite !ascii_eqb_neq by done.
Qed.

(** What follows the escaped text decides the outcome. *)
Lemma parseRestoreVariableString_prefix s r :
  parseRestoreVariableString (escape s ++ r) =
  let* t := parseRestoreVariableString r in Ok (map cr_to_nl s ++ t).
Proof.
  unfold escape. induction s as [|c s IH].
  - simpl. by destruct (parseRestoreVariableString r).
  - cbn [map concat]. rewrite <- app_assoc, parseRestoreVariableString_byte, IH.
    by destruct (parseRestoreVariableString r).
Qed.

Lemma parseRestoreVariableString_escape s :
  parseRestoreVariableString (escape s ++ [QUOTE]) = Ok (map cr_to_nl s).
Proof. rewrite parseRestoreVariableString_prefix. simpl. by rewrite app_nil_r. Qed.

Lemma parseRestoreVariableString_trailing s c r :
  parseRestoreVariableString (escape s ++ QUOTE :: c :: r) = Throw string_error.
Proof. by rewrite parseRestoreVariableString_prefix. Qed.

(** Without the closing quote. *)
Lemma parseRestoreVariableString_open s : parseRestoreVariableString (escape s) = Throw string_error.
Proof. by rewrite <- (app_nil_r (escape s)), parseRestoreVariableString_prefix. Qed.

(** At the top level a number is read as inside an array. *)
Lemma toplevel_number n s h v rest :
  starts_number s = true → parseRealSaveNumber s = Ok (v, rest) →
  parseRestoreVariableTopLevel n s h = Ok (v, h).
Proof.
  intros Hs Hp. destruct s as [|c r]; [done|].
  unfold parseRestoreVariableTopLevel, parseRestoreVariableNumber. rewrite Hp.
  simpl in Hs. apply orb_true_iff in Hs as [Hs|Hs].
  - rewrite !is_digit_neq by done. by rewrite Hs.
  - prop_tests. subst. destruct r as [|d r]; [done|]. by rewrite H0.
Qed.

(** At the top level everything that is not a string or a number is read as
    inside an array. *)
Lemma toplevel_nested n s h :
  match s with
  | c :: _ => Ascii.eqb c QUOTE || Ascii.eqb c "-" || is_digit c = false
  | [] => False
  end →
  parseRestoreVariableTopLevel n s h =
  let* (v, _, h') := parseRealSaveValue n s h in Ok (v, h').
Proof.
  destruct s as [|c r]; [done|]. intros H. unfold parseRestoreVariableTopLevel.
  apply orb_false_iff in H as [[-> H1]%orb_false_iff H2]. by rewrite H1, H2.
Qed.

Lemma toplevel_reads t n h :
  savable t = true → (need t ≤ n)%nat →
  ∃ v h', parseRestoreVariableTopLevel n (wtree t) h = Ok (v, h')
    ∧ extends h h' ∧ denotes h' v (restored t).
Proof.
  intros Hs Hn. destruct (savable_reads_back t Hs n [] h I Hn) as (v & h' & Hp & Hh & Hv).
  rewrite app_nil_r in Hp.
  destruct t as [| | |d|s| | |ts|w rows| |o nm e ts| |]; simpl in Hs;
    try (exists zero, h; split_and!; [done|done|apply denotes_zero]);
    try (rewrite toplevel_nested by done; rewrite Hp; simpl; eauto).
  - exists (mk (VInt i)), h. split_and!; [|done|by exists 1%nat].
    eapply toplevel_number; [apply starts_number_to_string|].
    rewrite <- (app_nil_r (wtree _)). by apply parse_int.
  - exists (mk (VFloat d)), h. split_and!; [|done|by exists 1%nat].
    pose proof (parse_float d [] Hs I) as Hf. rewrite app_nil_r in Hf.
    unfold float_ok in Hs. prop_tests. by eapply toplevel_number.
  - exists (mk (VStr (map cr_to_nl s))), h. split_and!; [|done|by exists 1%nat].
    cbn [wtree parseRestoreVariableTopLevel app]. rewrite Ascii.eqb_refl.
    by rewrite parseRestoreVariableString_escape.
Qed.

(** ** Saving again *)

(** No nil, symbol, object, closure or buffer inside: those are written as
    nothing and come back as 0. *)
Fixpoint plain (t : tree) : bool :=
  match t with
  | TVoid | TInt _ | TFloat _ | TStr _ => true
  | TArr ts => forallb plain ts
  | TMap _ rows => forallb (forallb plain) rows
  | _ => false
  end.

Lemma escape_cr_to_nl s : escape (map cr_to_nl s) = escape s.
Proof.
  unfold escape. induction s as [|c s IH]; [done|]. cbn [map concat]. rewrite IH. f_equal.
  unfold cr_to_nl. by destruct (Ascii.eqb_spec c CR) as [->|].
Qed.

Lemma map_forallb_ext {A B} (p : A → bool) (f g : A → B) l :
  Forall (λ x, p x = true → f x = g x) l → forallb p l = true → map f l = map g l.
Proof.
  induction 1 as [|x l Hx _ IH]; [done|]. simpl. intros. prop_tests. by rewrite Hx, IH.
Qed.

Lemma wtree_restored t : plain t = true → wtree (restored t) = wtree t.
Proof.
  induction t as [t Hleaf|ts IH|w rows IH|o n e ts IH] using tree_rect_nested; simpl; intros Hp.
  - destruct t; try done. simpl. by rewrite escape_cr_to_nl.
  - rewrite map_map. rewrite (map_forallb_ext plain _ (λ t, wtree t ++ $",")); [done| |done].
    eapply Forall_impl; [exact IH|]. intros t Ht ?. by rewrite Ht.
  - rewrite map_map. rewrite (map_forallb_ext (forallb plain) _ (λ r, join_row (map wtree r))); [done| |done].
    eapply Forall_impl; [exact IH|]. intros r Hr Hpr. rewrite map_map. f_equal.
    by apply (map_forallb_ext plain).
  - done.
Qed.

(** ** Loops that do not end *)

(** A byte no reader accepts as the start of a value, nor a loop as its end. *)
Definition stuck (c : ascii) : bool :=
  negb (bool_decide (c ∈ [QUOTE; "("; "-"; "}"; "]"; ","; ":"; ";"]%char) || is_digit c).

Lemma stuck_neq c d :
  stuck c = true → d ∈ [QUOTE; "("; "-"; "}"; "]"; ","; ":"; ";"]%char → Ascii.eqb c d = false.
Proof.
  unfold stuck. intros H Hd. prop_tests. apply Ascii.eqb_neq. by intros ->.
Qed.

Lemma parse_stuck n c r h :
  stuck c = true → parseRealSaveValue (S n) (c :: r) h = Ok (zero, c :: r, h).
Proof.
  intros Hc. cbn [parseRealSaveValue]. rewrite !(stuck_neq c) by (done || set_solver).
  unfold stuck in Hc. prop_tests. by rewrite H0.
Qed.

Lemma skip_stuck c r d :
  stuck c = true → d ∈ [QUOTE; "("; "-"; "}"; "]"; ","; ":"; ";"]%char →
  skip_char d (c :: r) = c :: r.
Proof. intros Hc Hd. simpl. rewrite Ascii.eqb_sym. by rewrite (stuck_neq c). Qed.

Lemma array_loop_stuck n c r h : stuck c = true → array_loop n (c :: r) h = OutOfFuel.
Proof.
  intros Hc. induction n as [|n IH]; [done|]. rewrite array_loop_S.
  rewrite !(stuck_neq c) by (done || set_solver).
  destruct n as [|n]; [done|]. rewrite parse_stuck by done. cbn [rbind].
  rewrite skip_stuck by (done || set_solver). by rewrite IH.
Qed.

Lemma mapping_loop_stuck n c r h : stuck c = true → mapping_loop n (c :: r) h = OutOfFuel.
Proof.
  intros Hc. induction n as [|n IH]; [done|]. rewrite mapping_loop_S.
  rewrite (stuck_neq c) by (done || set_solver).
  destruct n as [|n]; [done|]. rewrite parse_stuck by done. cbn [rbind].
  rewrite skip_stuck by (done || set_solver). rewrite parse_stuck by done. cbn [rbind].
  assert (next_is ";" (c :: r) = false) as Hn.
  { change (Ascii.eqb ";" c = false). rewrite Ascii.eqb_sym.
    apply (stuck_neq c); [done|set_solver]. }
  cbn [column_loop]. rewrite Hn. cbn [rbind].
  rewrite skip_stuck by (done || set_solver). by rewrite IH.
Qed.

(** ** Saving a value that contains itself *)

Definition writes (h : heap) (v : value) (s : bytes) : Prop :=
  ∃ n0, ∀ n, (n0 ≤ n)%nat → writeRealSaveValue n h v = Ok s.

Lemma denotes_writes h v t : denotes h v t → writes h v (wtree t).
Proof.
  intros [n0 Hn0]. exists n0. intros n Hn. apply writeRealSaveValue_tree.
  by eapply unfold_value_mono.
Qed.

Lemma rmap_elem_Ok {A B} (f : A → result B) l k x :
  rmap f l = Ok k → x ∈ l → ∃ y, f x = Ok y.
Proof.
  rewrite rmap_Forall2. intros H Hx.
  apply list_elem_of_lookup in Hx as [i Hi].
  destruct (Forall2_lookup_l _ _ _ _ _ H Hi) as (y & _ & Hy). eauto.
Qed.

Lemma float_text_inf sg : float_text (S754_infinity sg) = if sg then $"-inf" else $"inf".
Proof. by destruct sg. Qed.

(** ** Properties *)

(** C1: [writeRealSaveValue] then [parseRestoreVariableTopLevel], the writer
    and the reader of [save_variable] and [restore_variable]: a value whose
    contents are a finite tree of 64-bit integers, floats that survive
    ["%f"], strings, arrays and mappings is written as one text, and reading
    that text back allocates a value with the same contents, except that
    carriage returns in strings become newlines and that nil, symbols,
    objects, closures and buffers become 0. *)
Theorem save_restore_roundtrip h v t (Hd : denotes h v t) (Hs : savable t = true) :
  ∃ s, writes h v s ∧
    ∀ h1 n, (need t ≤ n)%nat →
      ∃ v' h', parseRestoreVariableTopLevel n s h1 = Ok (v', h')
        ∧ extends h1 h' ∧ denotes h' v' (restored t).
Proof.
  exists (wtree t). split; [by apply denotes_writes|]. intros h1 n Hn. by apply toplevel_reads.
Qed.

(** Saving what was restored gives the same text again: the saved text is
    a fixed point of restore-then-save, for values without nil, symbols,
    objects, closures and buffers. *)
Theorem resave_same_text h v t (Hd : denotes h v t) (Hs : savable t = true)
    (Hp : plain t = true) h1 n (Hn : (need t ≤ n)%nat) :
  ∃ s v' h', writes h v s ∧ parseRestoreVariableTopLevel n s h1 = Ok (v', h') ∧ writes h' v' s.
Proof.
  destruct (toplevel_reads t n h1 Hs Hn) as (v' & h' & Hr & _ & Hv').
  exists (wtree t), v', h'. split_and!; [by apply denotes_writes|done|].
  rewrite <- wtree_restored by done. by apply denotes_writes.
Qed.

(** [writeRealSaveValue] has no depth limit: on an array that contains
    itself, at any position, it returns no text whatever bound its recursion
    is given; when the array itself is the first element no outcome but
    running out is possible. *)
Theorem save_self_containing h a items fl1 fl2 (Ha : arrays h !! a = Some items)
    (Hin : Value (VArr (Some a)) fl1 fl2 ∈ items) :
  (∀ n s, writeRealSaveValue n h (mk (VArr (Some a))) ≠ Ok s) ∧
  (∀ n, head items = Some (Value (VArr (Some a)) fl1 fl2) →
    writeRealSaveValue n h (mk (VArr (Some a))) = OutOfFuel).
Proof.
  assert (Hflags : ∀ n d b1 b2,
    writeRealSaveValue n h (Value d b1 b2) = writeRealSaveValue n h (mk d)) by (by intros [|n]).
  split.
  - intros n. induction n as [|n IH]; intros s; [done|]. simpl. rewrite Ha. simpl.
    intros H. inv_ok. destruct (rmap_elem_Ok _ _ _ _ H Hin) as [y Hy].
    by rewrite Hflags in Hy; apply IH in Hy.
  - intros n Hh. destruct items as [|x items]; [done|]. injection Hh as ->.
    induction n as [|n IH]; [done|]. simpl. rewrite Ha. simpl.
    by rewrite Hflags, IH.
Qed.

(** C39: a byte that starts no value and ends no loop makes the readers of
    arrays and mappings loop for ever: no bound on the recursion is enough. *)
Theorem restore_stuck_loops c r n h (Hc : stuck c = true) :
  parseRestoreVariableTopLevel n ($"({" ++ c :: r) h = OutOfFuel ∧
  parseRestoreVariableTopLevel n ($"([" ++ c :: r) h = OutOfFuel.
Proof.
  split; rewrite toplevel_nested by done; destruct n as [|n]; try done; cbn [app].
  - change ($"({" ++ c :: r) with ("("%char :: "{"%char :: c :: r).
    rewrite (parse_S_open _ "{") by done. cbn [tail]. by rewrite array_loop_stuck.
  - change ($"([" ++ c :: r) with ("("%char :: "["%char :: c :: r).
    rewrite parse_S_map. by rewrite mapping_loop_stuck.
Qed.

(** The writer produces such texts: an array whose first element is an
    infinity is saved, and restoring the saved text never returns. *)
Theorem saved_infinity_never_restores h a rest ts (Ha : arrays h !! a = Some (mk (VFloat (S754_infinity false)) :: rest))
    (Hts : Forall2 (denotes h) rest ts) :
  ∃ s, writes h (mk (VArr (Some a))) s ∧
    ∀ n h1, parseRestoreVariableTopLevel n s h1 = OutOfFuel.
Proof.
  eexists. split.
  - apply denotes_writes. eapply denotes_arr; [exact Ha|]. constructor; [|exact Hts].
    by exists 1%nat.
  - intros n h1. rewrite toplevel_nested by done. destruct n as [|n]; [done|].
    cbn [wtree map concat]. rewrite float_text_inf. cbn [app].
    change ($"({" ++ ?x) with ("("%char :: "{"%char :: x).
    rewrite (parse_S_open _ "{") by done. cbn [tail app list_ascii_of_string].
    by rewrite array_loop_stuck.
Qed.

(** [restore_variable] is strict about strings only at the top level: a
    quoted string is read back, anything after its closing quote or a missing
    closing quote is an error, and a minus sign without a digit is an error;
    inside an array the unterminated string is accepted. *)
Theorem restore_toplevel_strict s n h :
  parseRestoreVariableTopLevel n ([QUOTE] ++ escape s ++ [QUOTE]) h
    = Ok (mk (VStr (map cr_to_nl s)), h) ∧
  (∀ c r, parseRestoreVariableTopLevel n ([QUOTE] ++ escape s ++ QUOTE :: c :: r) h
    = Throw string_error) ∧
  parseRestoreVariableTopLevel n ([QUOTE] ++ escape s) h = Throw string_error ∧
  (∀ c r, is_digit c = false →
    parseRestoreVariableTopLevel n ("-"%char :: c :: r) h = Throw numeric_error) ∧
  parseRealSaveString (escape s) = (map cr_to_nl s, []).
Proof.
  split_and!.
  - cbn [app parseRestoreVariableTopLevel]. rewrite Ascii.eqb_refl.
    by rewrite parseRestoreVariableString_escape.
  - intros c r. cbn [app parseRestoreVariableTopLevel]. rewrite Ascii.eqb_refl.
    by rewrite parseRestoreVariableString_trailing.
  - cbn [app parseRestoreVariableTopLevel]. rewrite Ascii.eqb_refl.
    by rewrite parseRestoreVariableString_open.
  - intros c r Hc. cbn. by rewrite Hc.
  - apply parseRealSaveString_open.
Qed.

(** ** Witnesses *)

Definition sample_heap : heap :=
  set_arrays (insert 1%positive [mk (VInt (-3)); mk (VStr $"a\b"); mk (VFloat (dlit "0.5"))]) empty_heap.
Definition sample_tree : tree := TArr [TInt (-3); TStr $"a\b"; TFloat (dlit "0.5")].

Lemma sample_denotes : denotes sample_heap (mk (VArr (Some 1%positive))) sample_tree.
Proof. exists 3%nat. by vm_compute. Qed.

Lemma save_restore_roundtrip_witness :
  ∃ s, writes sample_heap (mk (VArr (Some 1%positive))) s ∧
    ∃ v' h', parseRestoreVariableTopLevel 20 s empty_heap = Ok (v', h') ∧ denotes h' v' sample_tree.
Proof.
  destruct (save_restore_roundtrip _ _ _ sample_denotes) as (s & Hs & Hr);
    [vm_compute; reflexivity|]. exists s. split; [exact Hs|].
  destruct (Hr empty_heap 20%nat) as (v' & h' & Hp & _ & Hv); [apply Nat.leb_le; vm_compute; reflexivity|].
  exists v', h'. split; [exact Hp|exact Hv].
Defined.

Lemma resave_same_text_witness :
  ∃ s v' h', writes sample_heap (mk (VArr (Some 1%positive))) s ∧
    parseRestoreVariableTopLevel 20 s empty_heap = Ok (v', h') ∧ writes h' v' s.
Proof.
  apply (resave_same_text _ _ _ sample_denotes); [vm_compute; reflexivity|reflexivity|].
  apply Nat.leb_le. vm_compute. reflexivity.
Defined.

Definition cyclic_heap : heap :=
  set_arrays (insert 1%positive [mk (VArr (Some 1%positive))]) empty_heap.

Lemma save_self_containing_witness :
  writeRealSaveValue 100 cyclic_heap (mk (VArr (Some 1%positive))) = OutOfFuel.
Proof.
  apply (save_self_containing cyclic_heap 1%positive [mk (VArr (Some 1%positive))] false false);
    [reflexivity|left|reflexivity].
Defined.

Lemma restore_stuck_loops_witness :
  parseRestoreVariableTopLevel 100 ($"({" ++ $"inf,})") empty_heap = OutOfFuel.
Proof. apply (restore_stuck_loops "i" $"nf,})" 100 empty_heap). reflexivity. Defined.

Lemma saved_infinity_never_restores_witness :
  ∃ s, ∀ n h1, parseRestoreVariableTopLevel n s h1 = OutOfFuel.
Proof.
  destruct (saved_infinity_never_restores
    (set_arrays (insert 1%positive [mk (VFloat (S754_infinity false))]) empty_heap) 1%positive [] [])
    as (s & _ & Hs); [reflexivity|constructor|]. exists s. exact Hs.
Defined.

Lemma restore_toplevel_strict_witness :
  parseRestoreVariableTopLevel 0 $"-x" empty_heap = Throw numeric_error.
Proof. apply (restore_toplevel_strict [] 0 empty_heap). reflexivity. Defined.
