(* ===== verification/StateSerializer.v ===== *)
(** * StateSerializer: the world dump

    Models [src/persist/StateSerializer.cpp].  The reader works on the whole
    text and a position of type [size_t]; positions and lengths wrap at 64 bits
    as there, so that a missing delimiter ([npos]) behaves as in the code. *)

From S2P Require Import Prelude Doubles Values Trees.

Definition kMagic : bytes := $"AMLPSTATE1" ++ [NL].

(** ** Writing a value *)

Definition dump_closure_error : exn :=
  LpcRuntimeError $"dump_state: cannot dump an unbound_lambda()/quoted-code closure".
Definition dump_object_error : exn :=
  LpcRuntimeError $"dump_state: object reference not found in id table".

Definition bool_digit (b : bool) : bytes := if b then $"1" else $"0".

(** The id of a closure's owner: -1 when it is gone or not in the table. *)
Definition owner_id (ids : gmap addr Z) (alive : addr → bool) (p : option addr) : Z :=
  match p with
  | Some a => if alive a then default (-1) (ids !! a) else -1
  | None => -1
  end.

Definition closure_header (ownerId : Z) (efun : bool) (name : bytes) (args : nat) : bytes :=
  $"C" ++ to_string ownerId ++ $";" ++ bool_digit efun ++ $";" ++
  to_string (size name) ++ $":" ++ name ++ to_string (Z.of_nat args) ++ $";".

Definition array_header (n : nat) : bytes := $"A" ++ to_string (Z.of_nat n) ++ $":".
Definition map_header (n : nat) (width : Z) : bytes :=
  $"M" ++ to_string (Z.of_nat n) ++ (if 1 <? width then $"w" ++ to_string width else []) ++ $":".

Section Write.
Context (ids : gmap addr Z) (alive : addr → bool).

Fixpoint serializeWorldValue (fuel : nat) (h : heap) (v : value) : result bytes :=
  match fuel with
  | O => OutOfFuel
  | S f =>
      match vdata v with
      | VInt i => Ok ($"I" ++ to_string i ++ $";")
      | VFloat d => Ok ($"F" ++ print_g d ++ $";")
      | VStr s => Ok ($"S" ++ to_string (size s) ++ $":" ++ s)
      | VArr p =>
          let* items := match p with None => Ok [] | Some a => deref (arrays h !! a) end in
          let* texts := rmap (serializeWorldValue f h) items in
          Ok (array_header (length items) ++ concat texts)
      | VMap None => Ok (map_header 0 1)
      | VMap (Some a) =>
          let* m := deref (mappings h !! a) in
          let* rows := mapping_rows m in
          let* texts := rmap (rmap (serializeWorldValue f h)) rows in
          Ok (map_header (length rows) (width m) ++ concat (map (λ r, concat r) texts))
      | VObj None => Ok $"N"
      | VObj (Some a) =>
          match ids !! a with
          | Some i => Ok ($"O" ++ to_string i ++ $";")
          | None => Throw dump_object_error
          end
      | VClo None => Ok $"N"
      | VClo (Some a) =>
          let* c := deref (closures h !! a) in
          if unboundUntilBound c || negb (isVoid (lambdaBody c)) then Throw dump_closure_error
          else
            let* texts := rmap (serializeWorldValue f h) (boundArgs c) in
            Ok (closure_header (owner_id ids alive (owner c)) (forceEfun c) (functionName c)
                  (length (boundArgs c)) ++ concat texts)
      | _ => Ok $"N"
      end
  end.
End Write.

(** ** Reading a value *)

Definition corrupt (what : string) : exn :=
  LpcRuntimeError ($"restore_state: corrupt statedump data (" ++ list_ascii_of_string what ++ $")").

(** [s.substr(pos, end - pos)] up to a delimiter that may be missing, and the
    position after it. *)
Definition field (s : bytes) (pos : Z) (delim : ascii) : result (bytes * Z) :=
  let e := find_from delim s pos in
  let* t := substr s pos (u64 (e - pos)) in
  Ok (t, u64 (e + 1)).

Definition find_sep (s : bytes) (pos : Z) : Z := Z.min (find_from ":" s pos) (find_from "w" s pos).


(** The count of a mapping and its width, with the position after the header. *)
Definition read_map_header (s : bytes) (pos : Z) : result (Z * Z * Z) :=
  let sep := find_sep s pos in
  if sep =? npos then Throw (corrupt "truncated mapping") else
  let* t := substr s pos (u64 (sep - pos)) in
  let* count := stoull t in
  match at_pos s sep with
  | Some "w"%char =>
      let pos := sep + 1 in
      let colon := find_from ":" s pos in
      if colon =? npos then Throw (corrupt "truncated mapping width") else
      let* t := substr s pos (u64 (colon - pos)) in
      let* w := stoll t in
      Ok (count, Z.max 1 (to_i32 w), u64 (colon + 1))
  | _ => Ok (count, 1, sep + 1)
  end.

Section Read.
(** The longest vector the allocator grants. *)
Context (max_items : Z) (objectOfId : gmap Z addr).

Definition reserve (n : Z) : result unit :=
  if n <=? max_items then Ok tt else Throw AllocFailure.

Definition read_closure_header (s : bytes) (pos : Z) : result (Z * bool * bytes * Z * Z) :=
  let* (t, pos) := field s pos ";" in
  let* ownerId := stoll t in
  let* (t, pos) := field s pos ";" in
  let efun := bool_decide (t = $"1") in
  let* (t, pos) := field s pos ":" in
  let* nameLen := stoull t in
  let* name := substr s pos nameLen in
  let* (t, pos) := field s (u64 (pos + nameLen)) ";" in
  let* argCount := stoull t in
  Ok (ownerId, efun, name, argCount, pos).

Definition find_owner (ownerId : Z) : option addr :=
  if 0 <=? ownerId then objectOfId !! ownerId else None.

(** The [switch] on the kind byte; [values] and [rows] are the loops. *)
Definition read_kind
    (values : Z → bytes → Z → heap → result (list value * Z * heap))
    (rows : Z → Z → bytes → Z → heap → result (list (value * value * list value) * Z * heap))
    (kind : ascii) (s : bytes) (pos : Z) (h : heap) : result (value * Z * heap) :=
  if Ascii.eqb kind "N" then Ok (mk VVoid, pos, h)
  else if Ascii.eqb kind "I" then
    let* (t, pos) := field s pos ";" in
    let* i := stoll t in Ok (mk (VInt i), pos, h)
  else if Ascii.eqb kind "F" then
    let* (t, pos) := field s pos ";" in
    let* d := stod t in Ok (mk (VFloat d), pos, h)
  else if Ascii.eqb kind "S" then
    let* (t, pos) := field s pos ":" in
    let* len := stoull t in
    let* v := substr s pos len in Ok (mk (VStr v), u64 (pos + len), h)
  else if Ascii.eqb kind "A" then
    let* (t, pos) := field s pos ":" in
    let* count := stoull t in
    let* _ := reserve count in
    let* (items, pos, h) := values count s pos h in
    let '(a, h) := alloc_array items h in Ok (mk (VArr (Some a)), pos, h)
  else if Ascii.eqb kind "M" then
    let* (count, w, pos) := read_map_header s pos in
    let* _ := reserve count in
    let* (rs, pos, h) := rows count w s pos h in
    let '(a, h) := alloc_mapping
      (mkMapping (map fst rs) w (if 1 <? w then map snd rs else [])) h in
    Ok (mk (VMap (Some a)), pos, h)
  else if Ascii.eqb kind "O" then
    let* (t, pos) := field s pos ";" in
    let* i := stoll t in
    Ok (match objectOfId !! i with Some a => mk (VObj (Some a)) | None => mk VVoid end, pos, h)
  else if Ascii.eqb kind "C" then
    let* (ownerId, efun, name, argCount, pos) := read_closure_header s pos in
    let* _ := reserve argCount in
    let* (args, pos, h) := values argCount s pos h in
    let '(a, h) := alloc_closure
      (mkClosure (find_owner ownerId) name args efun false [] (mk VVoid)) h in
    Ok (mk (VClo (Some a)), pos, h)
  else Throw (corrupt "unknown value kind").

Fixpoint deserializeWorldValue (fuel : nat) (s : bytes) (pos : Z) (h : heap) {struct fuel}
  : result (value * Z * heap) :=
  match fuel with
  | O => OutOfFuel
  | S f =>
      match at_pos s pos with
      | None => Ok (mk VVoid, pos, h)
      | Some kind => read_kind (read_values f) (read_rows f) kind s (pos + 1) h
      end
  end
with read_values (fuel : nat) (count : Z) (s : bytes) (pos : Z) (h : heap) {struct fuel}
  : result (list value * Z * heap) :=
  match fuel with
  | O => OutOfFuel
  | S f =>
      if count <=? 0 then Ok ([], pos, h) else
      let* (v, pos, h) := deserializeWorldValue f s pos h in
      let* (vs, pos, h) := read_values f (count - 1) s pos h in
      Ok (v :: vs, pos, h)
  end
with read_rows (fuel : nat) (count w : Z) (s : bytes) (pos : Z) (h : heap) {struct fuel}
  : result (list (value * value * list value) * Z * heap) :=
  match fuel with
  | O => OutOfFuel
  | S f =>
      if count <=? 0 then Ok ([], pos, h) else
      let* (k, pos, h) := deserializeWorldValue f s pos h in
      let* (v, pos, h) := deserializeWorldValue f s pos h in
      let* _ := reserve (w - 1) in
      let* (extra, pos, h) := read_values f (w - 1) s pos h in
      let* (rows, pos, h) := read_rows f (count - 1) w s pos h in
      Ok ((k, v, extra) :: rows, pos, h)
  end.
End Read.

(** ** Text at a position *)

Definition at_text (s : bytes) (pos : Z) (t : bytes) : Prop :=
  ∃ pre post, s = pre ++ t ++ post ∧ pos = size pre.

Lemma at_text_app s pos a b :
  at_text s pos (a ++ b) → at_text s pos a ∧ at_text s (pos + size a) b.
Proof.
  intros (pre & post & -> & ->). split.
  - exists pre, (b ++ post). by rewrite <- !app_assoc.
  - exists (pre ++ a), post. by rewrite size_app, <- !app_assoc.
Qed.

Lemma at_text_cons s pos c r :
  at_text s pos (c :: r) → at_pos s pos = Some c ∧ at_text s (pos + 1) r.
Proof.
  intros H. split.
  - destruct H as (pre & post & -> & ->). apply at_pos_app.
  - by apply (at_text_app s pos [c] r).
Qed.

Lemma at_text_bounds s pos t : at_text s pos t → 0 ≤ pos ∧ pos + size t ≤ size s.
Proof.
  intros (pre & post & -> & ->). rewrite !size_app.
  pose proof (size_nonneg pre). pose proof (size_nonneg post). lia.
Qed.

Lemma at_text_u64 s pos t z :
  fits s → at_text s pos t → 0 ≤ z ≤ pos + size t → u64 z = z.
Proof.
  intros Hs Ht Hz. apply at_text_bounds in Ht. unfold fits in Hs. apply u64_small. lia.
Qed.

Lemma substr_read s pos t : at_text s pos t → substr s pos (size t) = Ok t.
Proof. intros (pre & post & -> & ->). apply substr_app. Qed.

Lemma find_read s pos t c r :
  at_text s pos (t ++ c :: r) → c ∉ t → find_from c s pos = pos + size t.
Proof.
  intros (pre & post & -> & ->) Hc. rewrite <- app_assoc. by apply find_from_app.
Qed.

Lemma field_read s pos t delim :
  fits s → at_text s pos (t ++ [delim]) → delim ∉ t →
  field s pos delim = Ok (t, pos + size t + 1).
Proof.
  intros Hs Ht Hd. pose proof (at_text_bounds _ _ _ Ht) as [Hb _].
  pose proof (size_nonneg t). unfold field.
  assert (Hsz : size (t ++ [delim]) = size t + 1) by by rewrite size_app.
  rewrite (find_read _ _ t delim []) by done.
  replace (pos + size t - pos) with (size t) by lia.
  rewrite !(at_text_u64 s pos (t ++ [delim])) by (done || lia).
  apply at_text_app in Ht as [Ht _]. by rewrite (substr_read s pos t).
Qed.

Lemma field_step s pos t delim r :
  fits s → at_text s pos (t ++ delim :: r) → delim ∉ t →
  field s pos delim = Ok (t, pos + size t + 1) ∧ at_text s (pos + size t + 1) r.
Proof.
  intros Hs Hat Hd. change (delim :: r) with ([delim] ++ r) in Hat. rewrite app_assoc in Hat.
  apply at_text_app in Hat as [H1 H2]. split; [by apply field_read|].
  rewrite size_app, Z.add_assoc in H2. done.
Qed.

(** ** The text of a tree *)

Section Tree.
Context (ids : gmap addr Z) (alive : addr → bool).

Fixpoint dtree (t : tree) : bytes :=
  match t with
  | TInt i => $"I" ++ to_string i ++ $";"
  | TFloat d => $"F" ++ print_g d ++ $";"
  | TStr s => $"S" ++ to_string (size s) ++ $":" ++ s
  | TArr ts => array_header (length ts) ++ concat (map dtree ts)
  | TMap w rows =>
      map_header (length rows) w ++ concat (map (λ r, concat (map dtree r)) rows)
  | TObj (Some a) => match ids !! a with
                     | Some i => $"O" ++ to_string i ++ $";"
                     | None => []
                     end
  | TClo o n e ts =>
      closure_header (owner_id ids alive o) e n (length ts) ++ concat (map dtree ts)
  | _ => $"N"
  end.

(** Every object is in the table and no closure is a lambda. *)
Fixpoint dumpable (t : tree) : bool :=
  match t with
  | TArr ts => forallb dumpable ts
  | TMap _ rows => forallb (forallb dumpable) rows
  | TObj (Some a) => match ids !! a with Some _ => true | None => false end
  | TClo _ _ _ ts => forallb dumpable ts
  | TLambda => false
  | _ => true
  end.

Lemma rmap_tree f h l ts :
  (∀ v t, unfold_value f h v = Some t → dumpable t = true →
     serializeWorldValue ids alive f h v = Ok (dtree t)) →
  olist (unfold_value f h) l = Some ts → forallb dumpable ts = true →
  rmap (serializeWorldValue ids alive f h) l = Ok (map dtree ts) ∧ length l = length ts.
Proof.
  intros Hf. rewrite olist_Forall2, rmap_Forall2. intros H Hd.
  split; [|by eapply Forall2_length].
  revert Hd. induction H; simpl; intros Hd; [constructor|]. prop_tests. constructor; auto.
Qed.

Lemma rmap_tree_rows f h l tss :
  (∀ v t, unfold_value f h v = Some t → dumpable t = true →
     serializeWorldValue ids alive f h v = Ok (dtree t)) →
  olist (olist (unfold_value f h)) l = Some tss → forallb (forallb dumpable) tss = true →
  rmap (rmap (serializeWorldValue ids alive f h)) l = Ok (map (map dtree) tss)
  ∧ length l = length tss.
Proof.
  intros Hf. rewrite olist_Forall2, rmap_Forall2. intros H Hd.
  split; [|by eapply Forall2_length].
  revert Hd. induction H; simpl; intros Hd; [constructor|]. prop_tests. constructor; [|auto].
  by apply (rmap_tree f h x y Hf).
Qed.

Lemma serialize_tree fuel h v t :
  unfold_value fuel h v = Some t → dumpable t = true →
  serializeWorldValue ids alive fuel h v = Ok (dtree t).
Proof.
  revert v t. induction fuel as [|fuel IH]; intros v t; [done|]. simpl.
  destruct (vdata v) as [| | | | | |p|p|p|p|p]; try (intros [= <-]; done);
    destruct p as [a|]; try (intros [= <-]; simpl; try done).
  - by destruct (ids !! a).
  - destruct (arrays h !! a) as [items|]; [|done]. simpl.
    destruct (olist _ items) as [ts|] eqn:E; [|done]. intros [= <-] Hd. simpl in Hd.
    destruct (rmap_tree _ _ _ _ IH E Hd) as [-> ->]. done.
  - destruct (mappings h !! a) as [m|]; [|done]. simpl.
    destruct (mapping_rows m) as [rows| | |]; try done. simpl.
    destruct (olist _ rows) as [tss|] eqn:E; [|done]. intros [= <-] Hd. simpl in Hd.
    destruct (rmap_tree_rows _ _ _ _ IH E Hd) as [-> ->]. simpl. by rewrite map_map.
  - destruct (closures h !! a) as [c|]; [|done]. simpl. case_if; [by intros [= <-]|].
    destruct (olist _ (boundArgs c)) as [ts|] eqn:E; [|done]. intros [= <-] Hd. simpl in Hd.
    destruct (rmap_tree _ _ _ _ IH E Hd) as [-> ->]. done.
Qed.
End Tree.

(** ** Reading the text of a tree *)

Lemma index_of_lower c t post i : index_of c (t ++ post) = Some i → c ∉ t → (length t ≤ i)%nat.
Proof.
  revert i. induction t as [|d t IH]; simpl; intros i Hi Hc; [lia|].
  apply not_elem_of_cons in Hc as [Hcd Hc]. rewrite ascii_eqb_neq in Hi by done.
  destruct (index_of c (t ++ post)) as [j|]; [|done]. injection Hi as <-.
  specialize (IH j eq_refl Hc). lia.
Qed.

Lemma find_after s pos t c :
  fits s → at_text s pos t → c ∉ t → pos + size t ≤ find_from c s pos.
Proof.
  intros Hs (pre & post & -> & ->) Hc. unfold find_from. rewrite dropz_app.
  destruct (index_of c (t ++ post)) as [i|] eqn:E.
  - apply index_of_lower in E; [|done]. unfold size at 2. lia.
  - unfold fits, npos in *. rewrite !size_app in Hs. pose proof (size_nonneg post). lia.
Qed.


Lemma no_digit_sep n c : 0 ≤ n → is_digit c = false → c ≠ "-"%char → c ∉ to_string n.
Proof. intros. by apply to_string_no_char. Qed.

(** The separator after a count, and the count. *)
Lemma read_count s pos n c r :
  fits s → at_text s pos (to_string (Z.of_nat n) ++ c :: r) → Z.of_nat n < 2 ^ 63 →
  c = ":"%char ∨ c = "w"%char →
  find_sep s pos = pos + size (to_string (Z.of_nat n)) ∧
  find_sep s pos ≠ npos ∧
  substr s pos (u64 (find_sep s pos - pos)) = Ok (to_string (Z.of_nat n)) ∧
  at_pos s (find_sep s pos) = Some c ∧
  at_text s (find_sep s pos + 1) r.
Proof.
  intros Hs Ht Hn Hc. set (num := to_string (Z.of_nat n)) in *.
  assert (Hnc : ":"%char ∉ num) by by apply no_digit_sep; [lia|..].
  assert (Hnw : "w"%char ∉ num) by by apply no_digit_sep; [lia|..].
  pose proof (at_text_bounds _ _ _ Ht) as Hb. rewrite size_app, size_cons in Hb.
  pose proof (size_nonneg num). pose proof (size_nonneg r). pose proof Hs as Hfit. unfold fits in Hfit.
  assert (Hsep : find_sep s pos = pos + size num).
  { unfold find_sep. change (c :: r) with ([c] ++ r) in Ht.
    rewrite app_assoc in Ht. apply at_text_app in Ht as [Ht _].
    assert (Hlow : ∀ d, d ∉ num → d ≠ c → pos + size num + 1 ≤ find_from d s pos).
    { intros d Hd Hdc. pose proof (find_after s pos (num ++ [c]) d Hs Ht) as Hf.
      rewrite size_app in Hf. change (size [c]) with 1 in Hf. rewrite Z.add_assoc in Hf.
      apply Hf. set_solver. }
    destruct Hc as [-> | ->].
    - rewrite (find_read s pos num ":" []) by done. specialize (Hlow "w"%char Hnw ltac:(done)). lia.
    - rewrite (find_read s pos num "w" []) by done. specialize (Hlow ":"%char Hnc ltac:(done)). lia. }
  rewrite Hsep. split_and!; [done|unfold npos; lia| | |].
  - replace (pos + size num - pos) with (size num) by lia.
    rewrite u64_small by lia. apply at_text_app in Ht as [Ht _]. by apply substr_read.
  - apply at_text_app in Ht as [_ Ht]. by apply at_text_cons in Ht as [? _].
  - apply at_text_app in Ht as [_ Ht]. by apply at_text_cons in Ht as [_ ?].
Qed.

Lemma read_map_header_ok s pos n w :
  fits s → w < 2 ^ 31 → Z.of_nat n < 2 ^ 63 → at_text s pos (tail (map_header n w)) →
  read_map_header s pos = Ok (Z.of_nat n, Z.max 1 w, pos + size (tail (map_header n w))).
Proof.
  intros Hs Hw Hn Ht. unfold map_header in *. cbn [tail app list_ascii_of_string] in *.
  pose proof (at_text_bounds _ _ _ Ht) as Hb. unfold read_map_header.
  set (num := to_string (Z.of_nat n)) in *. destruct (1 <? w) eqn:E; prop_tests.
  - cbn [app list_ascii_of_string] in *.
    destruct (read_count s pos n "w" (to_string w ++ [":"%char])) as (H1 & H2 & H3 & H4 & H5); auto.
    rewrite (proj2 (Z.eqb_neq _ _) H2), H3. cbn [rbind].
    rewrite stoull_to_string_nil by lia. cbn [rbind]. rewrite H4.
    assert (Hcol : ":"%char ∉ to_string w) by by apply no_digit_sep; [lia|..].
    rewrite (find_read _ _ (to_string w) ":" []) by done. fold num in H1. rewrite H1 in *.
    rewrite size_app, size_cons, size_app in *. change (size [":"%char]) with 1 in *.
    pose proof (size_nonneg num). pose proof (size_nonneg (to_string w)). unfold fits, npos in *.
    rewrite (proj2 (Z.eqb_neq _ _)) by lia.
    rewrite (Z.add_comm _ (size (to_string w))), Z.add_simpl_r.
    rewrite u64_small by lia. apply at_text_app in H5 as [H5 _]. rewrite substr_read by done.
    cbn [rbind]. rewrite stoll_to_string_nil by (apply in_i64_true; lia).
    cbn [rbind]. rewrite to_i32_small, u64_small by lia. do 2 f_equal. lia.
  - cbn [app list_ascii_of_string] in *.
    destruct (read_count s pos n ":" []) as (H1 & H2 & H3 & H4 & _); auto.
    rewrite (proj2 (Z.eqb_neq _ _) H2), H3. cbn [rbind].
    rewrite stoull_to_string_nil by lia. cbn [rbind]. rewrite H4, H1.
    rewrite size_app. change (size [":"%char]) with 1. fold num. do 2 f_equal; [f_equal; lia|lia].
Qed.

Lemma read_values_S max_items objs f count s pos h :
  read_values max_items objs (S f) count s pos h =
  if count <=? 0 then Ok ([], pos, h) else
  let* (v, pos, h) := deserializeWorldValue max_items objs f s pos h in
  let* (vs, pos, h) := read_values max_items objs f (count - 1) s pos h in
  Ok (v :: vs, pos, h).
Proof. done. Qed.

Lemma read_rows_S max_items objs f count w s pos h :
  read_rows max_items objs (S f) count w s pos h =
  if count <=? 0 then Ok ([], pos, h) else
  let* (k, pos, h) := deserializeWorldValue max_items objs f s pos h in
  let* (v, pos, h) := deserializeWorldValue max_items objs f s pos h in
  let* _ := reserve max_items (w - 1) in
  let* (extra, pos, h) := read_values max_items objs f (w - 1) s pos h in
  let* (rows, pos, h) := read_rows max_items objs f (count - 1) w s pos h in
  Ok ((k, v, extra) :: rows, pos, h).
Proof. done. Qed.

Section RoundTrip.
Context (ids : gmap addr Z) (alive : addr → bool) (objectOfId : gmap Z addr) (max_items : Z).
Hypothesis Hids : map_Forall (λ _ i, 0 ≤ i < 2 ^ 63) ids.
Hypothesis Hmax : 0 ≤ max_items < 2 ^ 63.

(** The object a reference comes back as. *)
Definition resolve (p : option addr) : option addr :=
  match p with
  | Some a => match ids !! a with Some i => objectOfId !! i | None => None end
  | None => None
  end.

(** What a tree looks like after a dump and a restore. *)
Fixpoint dumped (t : tree) : tree :=
  match t with
  | TInt i => TInt i
  | TFloat d => TFloat d
  | TStr s => TStr s
  | TArr ts => TArr (map dumped ts)
  | TMap w rows => TMap (Z.max 1 w) (map (map dumped) rows)
  | TObj p => match resolve p with Some b => TObj (Some b) | None => TVoid end
  | TClo o n e ts =>
      TClo (find_owner objectOfId (owner_id ids alive o)) n e (map dumped ts)
  | _ => TVoid
  end.

Definition grantable (n : nat) : bool := Z.of_nat n <=? max_items.

Definition row_fits (w : Z) (r : list tree) : bool :=
  (length r =? 2 + Z.to_nat (w - 1))%nat.

(** Integers are 64-bit, floats survive six digits, lists are short enough
    to allocate, rows are as wide as their mapping. *)
Fixpoint storable (t : tree) : bool :=
  match t with
  | TInt i => in_i64 i
  | TFloat d => stable print_g d && negb (bool_decide (";"%char ∈ print_g d))
  | TArr ts => grantable (length ts) && forallb storable ts
  | TMap w rows =>
      grantable (length rows) && (w <? 2 ^ 31) && (w - 1 <=? max_items)
      && forallb (λ r, row_fits w r && forallb storable r) rows
  | TClo _ _ _ ts => grantable (length ts) && forallb storable ts
  | _ => true
  end.

(** A bound on the recursion of the reader. *)
Fixpoint rneed (t : tree) : nat :=
  match t with
  | TArr ts | TClo _ _ _ ts => 2 + list_sum (map (λ t, S (rneed t)) ts)
  | TMap _ rows => 2 + list_sum (map (λ r, 2 + list_sum (map (λ t, S (rneed t)) r))%nat rows)
  | _ => 1
  end.

Definition reads (t : tree) : Prop :=
  ∀ fuel s pos h, fits s → at_text s pos (dtree ids alive t) → (rneed t ≤ fuel)%nat →
  ∃ v h', deserializeWorldValue max_items objectOfId fuel s pos h
          = Ok (v, pos + size (dtree ids alive t), h')
    ∧ extends h h' ∧ denotes h' v (dumped t).

Abbreviation texts ts := (concat (map (dtree ids alive) ts)).

Lemma read_values_ok ts :
  Forall reads ts →
  ∀ fuel s pos h n, fits s → at_text s pos (texts ts) → n = Z.of_nat (length ts) →
  (S (list_sum (map (λ t, S (rneed t)) ts)) ≤ fuel)%nat →
  ∃ vs h', read_values max_items objectOfId fuel n s pos h = Ok (vs, pos + size (texts ts), h')
    ∧ extends h h' ∧ Forall2 (denotes h') vs (map dumped ts).
Proof.
  induction 1 as [|t ts Ht _ IH]; intros [|f] s pos h n Hs Hat -> Hf; simpl in Hf; try lia.
  { exists [], h. cbn. rewrite Z.add_0_r. split_and!; [done|done|constructor]. }
  cbn [map concat] in *. apply at_text_app in Hat as [Hat1 Hat2].
  destruct (Ht f s pos h Hs Hat1) as (v & h1 & Hv & Hh1 & Hd); [lia|].
  destruct (IH f s _ h1 _ Hs Hat2 eq_refl) as (vs & h2 & Hvs & Hh2 & Hds); [lia|].
  exists (v :: vs), h2. split_and!; [|by etrans|].
  - cbn [length]. rewrite read_values_S, (proj2 (Z.leb_gt _ _)) by lia. rewrite Hv. cbn [rbind].
    replace (Z.of_nat (S (length ts)) - 1) with (Z.of_nat (length ts)) by lia.
    rewrite Hvs. cbn [rbind]. rewrite size_app. do 2 f_equal. f_equal. lia.
  - constructor; [by eapply denotes_mono|done].
Qed.

Definition row_rneed (r : list tree) : nat := 2 + list_sum (map (λ t, S (rneed t)) r).

Definition rows_text (rows : list (list tree)) : bytes := concat (map (λ r, texts r) rows).

Lemma read_rows_ok w rows :
  1 ≤ w → w - 1 ≤ max_items →
  Forall (λ r, length r = (2 + Z.to_nat (w - 1))%nat ∧ Forall reads r) rows →
  ∀ fuel s pos h n, fits s → at_text s pos (rows_text rows) → n = Z.of_nat (length rows) →
  (S (list_sum (map row_rneed rows)) ≤ fuel)%nat →
  ∃ vrows h', read_rows max_items objectOfId fuel n w s pos h
              = Ok (vrows, pos + size (rows_text rows), h')
    ∧ extends h h' ∧ Forall (λ r, length (snd r) = Z.to_nat (w - 1)) vrows
    ∧ Forall2 (Forall2 (denotes h')) (map row_cells vrows) (map (map dumped) rows).
Proof.
  intros Hw Hwm. unfold rows_text.
  induction 1 as [|row rows [Hlen Hrow] _ IH]; intros [|f] s pos h n Hs Hat -> Hf;
    simpl in Hf; try lia.
  { exists [], h. cbn. rewrite Z.add_0_r. split_and!; [done|done|constructor|constructor]. }
  destruct row as [|tk [|tv te]]; simpl in Hlen; try lia.
  apply Forall_cons in Hrow as [Hk [Hv He]%Forall_cons].
  change (list_sum (map (λ t, S (rneed t)) (tk :: tv :: te)))
    with ((S (rneed tk) + (S (rneed tv) + list_sum (map (λ t, S (rneed t)) te))))%nat in Hf.
  cbn [map concat] in *. rewrite <- !app_assoc in Hat.
  apply at_text_app in Hat as [Hat1 Hat]. apply at_text_app in Hat as [Hat2 Hat].
  apply at_text_app in Hat as [Hat3 Hat].
  destruct (Hk f s pos h Hs Hat1) as (k & h1 & Ek & Hh1 & Hdk); [lia|].
  destruct (Hv f s _ h1 Hs Hat2) as (v & h2 & Ev & Hh2 & Hdv); [lia|].
  destruct (read_values_ok te He f s _ h2 (w - 1) Hs Hat3) as (vs & h3 & Evs & Hh3 & Hdvs);
    [lia|lia|].
  destruct (IH f s _ h3 _ Hs Hat eq_refl) as (vrows & h4 & Erows & Hh4 & Hls & Hdrows); [lia|].
  exists ((k, v, vs) :: vrows), h4. split_and!.
  - cbn [length]. rewrite read_rows_S, (proj2 (Z.leb_gt _ _)) by lia. rewrite Ek. cbn [rbind].
    rewrite Ev. cbn [rbind]. unfold reserve. rewrite (proj2 (Z.leb_le _ _)) by lia.
    cbn [rbind]. rewrite Evs. cbn [rbind].
    replace (Z.of_nat (S (length rows)) - 1) with (Z.of_nat (length rows)) by lia.
    rewrite Erows. cbn [rbind]. rewrite !size_app. do 2 f_equal. f_equal. lia.
  - by repeat (etrans; [eassumption|]).
  - constructor; [|done]. simpl. apply Forall2_length in Hdvs. rewrite length_map in Hdvs. lia.
  - simpl. constructor; [|done].
    repeat constructor; [| |by eapply Forall2_denotes_mono];
      (eapply denotes_mono; [|eassumption]); by repeat (etrans; [eassumption|]).
Qed.

Lemma deser_at f s pos h kind r :
  at_text s pos (kind :: r) →
  deserializeWorldValue max_items objectOfId (S f) s pos h
  = read_kind max_items objectOfId (read_values max_items objectOfId f)
      (read_rows max_items objectOfId f) kind s (pos + 1) h
  ∧ at_text s (pos + 1) r.
Proof. intros [H1 H2]%at_text_cons. split; [|done]. cbn [deserializeWorldValue]. by rewrite H1. Qed.

Lemma semi_not_in_number z : ";"%char ∉ to_string z.
Proof. by apply to_string_no_char. Qed.
Lemma colon_not_in_number z : ":"%char ∉ to_string z.
Proof. by apply to_string_no_char. Qed.

Lemma denotes_void h : denotes h (mk VVoid) TVoid.
Proof. by exists 1%nat. Qed.

(** A tagged number up to its delimiter. *)
Lemma reads_int i fuel s pos h :
  in_i64 i = true → fits s → at_text s pos ($"I" ++ to_string i ++ $";") → (1 ≤ fuel)%nat →
  deserializeWorldValue max_items objectOfId fuel s pos h
  = Ok (mk (VInt i), pos + size ($"I" ++ to_string i ++ $";"), h).
Proof.
  intros Hi Hs Ht Hf. destruct fuel as [|f]; [lia|].
  destruct (deser_at f s pos h _ _ Ht) as [-> Ht1]. cbn [read_kind Ascii.eqb Bool.eqb].
  rewrite (field_read s (pos + 1) (to_string i)) by (done || apply semi_not_in_number).
  cbn [rbind]. rewrite stoll_to_string_nil by done. cbn [rbind].
  rewrite !size_app. change (size $"I") with 1. change (size $";") with 1.
  do 2 f_equal. f_equal. lia.
Qed.

(** Start reading: the kind byte is consumed. *)
Ltac open_kind Ht f s pos h :=
  let Ht1 := fresh "Ht" in
  destruct (deser_at f s pos h _ _ Ht) as [-> Ht1]; clear Ht; rename Ht1 into Ht;
  cbn [read_kind Ascii.eqb Bool.eqb].

Lemma reads_nothing t :
  dtree ids alive t = $"N" → dumped t = TVoid → reads t.
Proof.
  intros Ht Hd [|f] s pos h Hs Hat Hf; [destruct t; simpl in Hf; lia|]. rewrite Ht in *.
  open_kind Hat f s pos h. exists (mk VVoid), h.
  split_and!; [done|done|rewrite Hd; apply denotes_void].
Qed.

Lemma reads_leaf t : is_leaf t = true → dumpable ids t = true → storable t = true → reads t.
Proof.
  intros Hl Hdu Hst. destruct t as [| |i|d|str|nm|p|ts|w rows| |o n e ts| |p]; try done;
    try by apply reads_nothing.
  - intros fuel s pos h Hs Hat Hf. rewrite (reads_int i) by (done || simpl in Hf; lia).
    exists (mk (VInt i)), h. split_and!; [done|done|by exists 1%nat].
  - intros [|f] s pos h Hs Hat Hf; [simpl in Hf; lia|]. simpl in Hst. prop_tests.
    open_kind Hat f s pos h. rewrite (field_read s (pos + 1) (print_g d)) by done.
    cbn [rbind]. unfold stable in H. prop_tests. rewrite H. cbn [rbind].
    exists (mk (VFloat d)), h. split_and!; [|done|by exists 1%nat].
    cbn [dtree]. sizes. do 2 f_equal. f_equal. sizes. lia.
  - intros [|f] s pos h Hs Hat Hf; [simpl in Hf; lia|].
    pose proof (at_text_bounds _ _ _ Hat) as Hb. unfold fits in Hs.
    open_kind Hat f s pos h.
    pose proof (size_nonneg str). cbn [dtree] in *. sizes_in Hb.
    rewrite app_assoc in Hat. apply at_text_app in Hat as [Hat1 Hat2].
    rewrite (field_read s (pos + 1) (to_string (size str)))
      by (done || apply colon_not_in_number).
    cbn [rbind]. pose proof (size_nonneg (to_string (size str))).
    rewrite stoull_to_string_nil by lia. cbn [rbind].
    sizes_in Hat2. rewrite Z.add_0_r, Z.add_assoc in Hat2.
    rewrite substr_read by done. cbn [rbind].
    exists (mk (VStr str)), h. split_and!; [|done|by exists 1%nat].
    rewrite u64_small by lia. do 2 f_equal. f_equal. sizes. lia.
  - destruct p as [a|]; [|by apply reads_nothing].
    intros [|f] s pos h Hs Hat Hf; [simpl in Hf; lia|].
    simpl in Hdu. cbn [dtree dumped resolve] in *. destruct (ids !! a) as [i|] eqn:Ei; [|done].
    pose proof (Hids _ _ Ei) as Hi. cbn beta in Hi.
    open_kind Hat f s pos h.
    rewrite (field_read s (pos + 1) (to_string i)) by (done || apply semi_not_in_number).
    cbn [rbind]. rewrite stoll_to_string_nil by (apply in_i64_true; lia). cbn [rbind].
    eexists _, h. split; [do 2 f_equal; f_equal; sizes; lia|].
    split; [done|]. destruct (objectOfId !! i); by exists 1%nat.
Qed.

(** Equality of results up to the arithmetic of positions. *)
Ltac same_position := do 2 f_equal; f_equal; sizes; lia.

Lemma reserve_ok n : grantable n = true → reserve max_items (Z.of_nat n) = Ok tt.
Proof. unfold grantable, reserve. by intros ->. Qed.

Lemma reads_arr ts :
  Forall reads ts → grantable (length ts) = true → reads (TArr ts).
Proof.
  intros Hts Hg [|f] s pos h Hs Hat Hf; [simpl in Hf; lia|]. pose proof Hg as Hn.
  unfold grantable in Hn. apply Z.leb_le in Hn.
  cbn [dtree] in *. unfold array_header in *. rewrite <- !app_assoc in Hat.
  open_kind Hat f s pos h.
  rewrite app_assoc in Hat. apply at_text_app in Hat as [Hat1 Hat2].
  rewrite (field_read s (pos + 1) (to_string (Z.of_nat (length ts))))
    by (done || apply colon_not_in_number).
  cbn [rbind]. rewrite stoull_to_string_nil by lia. cbn [rbind].
  rewrite reserve_ok by done. cbn [rbind].
  sizes_in Hat2. rewrite Z.add_0_r, Z.add_assoc in Hat2.
  destruct (read_values_ok ts Hts f s _ h _ Hs Hat2 eq_refl) as (vs & h1 & -> & Hh1 & Hd);
    [simpl in Hf; lia|].
  cbn [rbind]. destruct (alloc_array vs h1) as [a h2] eqn:Ea.
  apply alloc_array_spec in Ea as [Hh2 Ha].
  exists (mk (VArr (Some a))), h2. split_and!; [same_position|by etrans|].
  eapply denotes_arr; [done|]. by eapply Forall2_denotes_mono.
Qed.

(** The fields of a closure. *)
Lemma read_closure_header_ok s pos o e n k :
  fits s → Z.of_nat k < 2 ^ 63 →
  at_text s pos (tail (closure_header (owner_id ids alive o) e n k)) →
  read_closure_header s pos
  = Ok (owner_id ids alive o, e, n, Z.of_nat k,
        pos + size (tail (closure_header (owner_id ids alive o) e n k))).
Proof.
  intros Hs Hk Hat. pose proof (at_text_bounds _ _ _ Hat) as Hb. pose proof Hs as Hfit.
  unfold fits in Hfit. unfold closure_header in *. set (i := owner_id ids alive o) in *.
  assert (Hi : in_i64 i = true).
  { apply in_i64_true. unfold i, owner_id. destruct o as [a|]; [|lia]. case_if; [|lia].
    destruct (ids !! a) eqn:E; simpl; [|lia]. apply Hids in E. cbn beta in E. lia. }
  cbn [tail app list_ascii_of_string] in *. sizes_in Hb.
  pose proof (size_nonneg n). pose proof (size_nonneg (to_string i)).
  pose proof (size_nonneg (bool_digit e)). pose proof (size_nonneg (to_string (size n))).
  pose proof (size_nonneg (to_string (Z.of_nat k))).
  unfold read_closure_header.
  destruct (field_step _ _ (to_string i) _ _ Hs Hat (semi_not_in_number _)) as [-> Hat2].
  cbn [rbind]. rewrite stoll_to_string_nil by done. cbn [rbind].
  destruct (field_step _ _ (bool_digit e) _ _ Hs Hat2) as [-> Hat3].
  { destruct e; simpl; set_solver. }
  cbn [rbind].
  destruct (field_step _ _ (to_string (size n)) _ _ Hs Hat3 (colon_not_in_number _)) as [-> Hat4].
  cbn [rbind]. rewrite stoull_to_string_nil by lia. cbn [rbind].
  apply at_text_app in Hat4 as [Hat4 Hat5]. rewrite substr_read by done. cbn [rbind].
  rewrite u64_small by lia.
  destruct (field_step _ _ (to_string (Z.of_nat k)) _ _ Hs Hat5 (semi_not_in_number _)) as [-> _].
  cbn [rbind]. rewrite stoull_to_string_nil by lia. cbn [rbind].
  replace (bool_decide (bool_digit e = $"1")) with e by by destruct e.
  do 2 f_equal. sizes. lia.
Qed.

Lemma reads_clo o n e ts :
  Forall reads ts → grantable (length ts) = true → reads (TClo o n e ts).
Proof.
  intros Hts Hg [|f] s pos h Hs Hat Hf; [simpl in Hf; lia|]. pose proof Hg as Hn.
  unfold grantable in Hn. apply Z.leb_le in Hn. cbn [dtree] in *.
  apply at_text_app in Hat as [Hat Hat2].
  open_kind Hat f s pos h. rewrite (read_closure_header_ok s (pos + 1) o e n (length ts)) by (done || lia).
  cbn [rbind]. rewrite reserve_ok by done. cbn [rbind].
  replace (pos + 1 + size (tail (closure_header (owner_id ids alive o) e n (length ts))))
    with (pos + size (closure_header (owner_id ids alive o) e n (length ts)))
    by (unfold closure_header; cbn [app tail list_ascii_of_string]; rewrite size_cons; lia).
  destruct (read_values_ok ts Hts f s _ h _ Hs Hat2 eq_refl) as (vs & h1 & -> & Hh1 & Hd);
    [simpl in Hf; lia|].
  cbn [rbind]. destruct (alloc_closure _ h1) as [a h2] eqn:Ea.
  apply alloc_closure_spec in Ea as [Hh2 Ha].
  exists (mk (VClo (Some a))), h2. split_and!; [same_position|by etrans|].
  apply (denotes_clo h2 a (mkClosure (find_owner objectOfId (owner_id ids alive o)) n vs e
           false [] (mk VVoid))); [done|done|done|]. by eapply Forall2_denotes_mono.
Qed.

Lemma rows_of_built w vrows :
  1 ≤ w → Forall (λ r : value * value * list value, length (snd r) = Z.to_nat (w - 1)) vrows →
  mapping_rows (mkMapping (map fst vrows) w (if 1 <? w then map snd vrows else []))
  = Ok (map row_cells vrows).
Proof.
  intros Hw Hl. unfold mapping_rows. cbn [entries]. destruct (1 <? w) eqn:E; prop_tests.
  - by apply (rows_from_spec w (Z.to_nat (w - 1)) []).
  - apply rows_from_narrow; simpl; [lia|done|]. eapply Forall_impl; [exact Hl|].
    intros r Hr. cbn in Hr. apply nil_length_inv. lia.
Qed.

Lemma reads_map w rows :
  Forall (λ r, row_fits w r = true ∧ Forall reads r) rows →
  grantable (length rows) = true → w < 2 ^ 31 → w - 1 ≤ max_items → reads (TMap w rows).
Proof.
  intros Hrows Hg Hw Hwm [|f] s pos h Hs Hat Hf; [simpl in Hf; lia|]. pose proof Hg as Hn.
  unfold grantable in Hn. apply Z.leb_le in Hn. cbn [dtree] in *.
  apply at_text_app in Hat as [Hat Hat2].
  open_kind Hat f s pos h. rewrite (read_map_header_ok s (pos + 1) (length rows) w) by (done || lia).
  cbn [rbind]. rewrite reserve_ok by done. cbn [rbind].
  replace (pos + 1 + size (tail (map_header (length rows) w)))
    with (pos + size (map_header (length rows) w))
    by (unfold map_header; cbn [app tail list_ascii_of_string]; rewrite size_cons; lia).
  destruct (read_rows_ok (Z.max 1 w) rows) with (fuel := f) (s := s) (h := h)
    (pos := pos + size (map_header (length rows) w)) (n := Z.of_nat (length rows))
    as (vs & h1 & -> & Hh1 & Hl & Hd); try done; try lia.
  { eapply Forall_impl; [exact Hrows|]. intros r [Hr ?]. split; [|done].
    unfold row_fits in Hr. apply Nat.eqb_eq in Hr. rewrite Hr. f_equal. lia. }
  { unfold row_rneed. simpl in Hf |- *. lia. }
  cbn [rbind]. destruct (alloc_mapping _ h1) as [a h2] eqn:Ea.
  apply alloc_mapping_spec in Ea as [Hh2 Ha].
  exists (mk (VMap (Some a))), h2. split_and!; [unfold rows_text; same_position|by etrans|].
  cbn [dumped].
  apply (denotes_map h2 a _ (map row_cells vs) _ Ha); [apply rows_of_built; [lia|done]|].
  eapply Forall2_impl; [exact Hd|]. intros ??. by apply Forall2_denotes_mono.
Qed.

Lemma storable_reads t : dumpable ids t = true → storable t = true → reads t.
Proof.
  induction t as [t Hleaf|ts IH|w rows IH|o n e ts IH] using tree_rect_nested; intros Hd Hst.
  - by apply reads_leaf.
  - simpl in Hd, Hst. prop_tests. rewrite forallb_Forall, Forall_forall in *.
    apply reads_arr; [|done]. rewrite Forall_forall. auto.
  - simpl in Hd, Hst. prop_tests. rewrite forallb_Forall, Forall_forall in *.
    apply reads_map; [|done|done|lia]. rewrite Forall_forall. intros r Hr.
    specialize (H0 r Hr). specialize (Hd r Hr). specialize (IH r Hr). cbn beta in *. prop_tests.
    split; [done|]. rewrite forallb_Forall, Forall_forall in *. auto.
  - simpl in Hd, Hst. prop_tests. rewrite forallb_Forall, Forall_forall in *.
    apply reads_clo; [|done]. rewrite Forall_forall. auto.
Qed.
End RoundTrip.
