(* ===== verification/Config.v ===== *)
(** * Config: the configuration file and the dialect names

    Models [src/config/Config.cpp], [include/kjdmud/config/Config.hpp],
    [src/dialect/LpcDialect.cpp], [src/dialect/DialectSelect.cpp] and the two
    boot interfaces of [include/kjdmud/dialect/]. *)

From S2P Require Import Prelude.

Inductive ListenKind := Telnet | WebSocket.

#[export] Instance ListenKind_eq_dec : EqDecision ListenKind.
Proof. solve_decision. Defined.

Record ListenPort := mkListenPort {
  lp_slot : Z;
  lp_kind : ListenKind;
  lp_port : Z;
  lp_tls : bool;
}.

Record Config := mkConfig {
  mudlibRoot_ : bytes;
  masterFile_ : bytes;
  port_ : Z;
  heartbeatIntervalMs_ : Z;
  maxEvalCost_ : Z;
  maxStringLength_ : Z;
  includeDir_ : bytes;
  simulEfunFile_ : bytes;
  mudName_ : bytes;
  globalIncludeFile_ : bytes;
  dialect_ : bytes;
  autoTrustBackbone_ : bool;
  listenPorts_ : list ListenPort;
  sawListenLine_ : bool;
  tlsCert_ : bytes;
  tlsKey_ : bytes;
  testResultsPath_ : bytes;
  maxConnections_ : Z;
  raw_ : gmap bytes bytes;
}.

#[export] Instance eta_Config : Eta Config := λ c,
  mkConfig (mudlibRoot_ c) (masterFile_ c) (port_ c) (heartbeatIntervalMs_ c) (maxEvalCost_ c)
    (maxStringLength_ c) (includeDir_ c) (simulEfunFile_ c) (mudName_ c) (globalIncludeFile_ c)
    (dialect_ c) (autoTrustBackbone_ c) (listenPorts_ c) (sawListenLine_ c) (tlsCert_ c)
    (tlsKey_ c) (testResultsPath_ c) (maxConnections_ c) (raw_ c).

Definition default_config : Config :=
  {| mudlibRoot_ := $"./test/mudlib_stub"; masterFile_ := $"/master"; port_ := 1129;
     heartbeatIntervalMs_ := 2000; maxEvalCost_ := 10000000; maxStringLength_ := 200000;
     includeDir_ := $"secure/include"; simulEfunFile_ := []; mudName_ := $"KJDMUD";
     globalIncludeFile_ := []; dialect_ := $"fluffos"; autoTrustBackbone_ := false;
     listenPorts_ := []; sawListenLine_ := false; tlsCert_ := []; tlsKey_ := [];
     testResultsPath_ := []; maxConnections_ := 256; raw_ := ∅ |}.

(** ** Reading the file *)

Definition is_blank (c : ascii) : bool :=
  bool_decide (c ∈ [" "; "009"; "013"; "010"]%char).

(** [trim]: what lies between the first and the last byte that is not blank. *)
Definition trim (s : bytes) : bytes :=
  reverse (snd (span is_blank (reverse (snd (span is_blank s))))).

(** [in >> portNum]: a sign and digits; out of range or no digit fails. *)
Definition read_int (s : bytes) : option (Z * bytes) :=
  let s := snd (span is_space s) in
  let '(neg, s) := match s with
                   | c :: r => if Ascii.eqb c "-" then (true, r)
                               else if Ascii.eqb c "+" then (false, r) else (false, s)
                   | [] => (false, s)
                   end in
  match span is_digit s with
  | ([], _) => None
  | (ds, r) => let z := if neg then - digits_val ds else digits_val ds in
               if in_i32 z then Some (z, r) else None
  end.

(** The loop [while (in >> flag)]: each word leaves a shorter rest. *)
Fixpoint saw_tls (fuel : nat) (s : bytes) : bool :=
  match fuel with
  | O => false
  | S f => match read_word s with
           | None => false
           | Some (w, r) => bool_decide (w = $"tls") || saw_tls f r
           end
  end.

Definition addListenLine (val : bytes) (c : Config) : Config :=
  match read_word val with
  | None => c
  | Some (kindWord, r) =>
      match read_int r with
      | None => c
      | Some (portNum, r) =>
          let entry := mkListenPort (size (listenPorts_ c) + 1)
            (if bool_decide (kindWord = $"websocket") then WebSocket else Telnet)
            portNum (saw_tls (length r) r) in
          c <| listenPorts_ ::= λ l, l ++ [entry] |> <| sawListenLine_ := true |>
      end
  end.

Definition ensureDefaultListenPort (c : Config) : Config :=
  match listenPorts_ c with
  | _ :: _ => c
  | [] => c <| listenPorts_ := [mkListenPort 1 Telnet (port_ c) false] |>
  end.

Definition yes (val : bytes) : bool :=
  bool_decide (val ∈ [$"1"; $"true"; $"yes"; $"on"]).

(** The chain of [if (key == ...)] tests. *)
Definition set_key (key val : bytes) (c : Config) : result Config :=
  let key_is k := bool_decide (key = k) in
  if key_is $"mudlib_root" then Ok (c <| mudlibRoot_ := val |>)
  else if key_is $"master_file" then Ok (c <| masterFile_ := val |>)
  else if key_is $"port" then let* n := stoi val in Ok (c <| port_ := n |>)
  else if key_is $"heartbeat_interval_ms" then
    let* n := stoi val in Ok (c <| heartbeatIntervalMs_ := n |>)
  else if key_is $"max_eval_cost" then let* n := stoi val in Ok (c <| maxEvalCost_ := n |>)
  else if key_is $"max_string_length" then
    let* n := stoi val in Ok (c <| maxStringLength_ := n |>)
  else if key_is $"include_dir" then Ok (c <| includeDir_ := val |>)
  else if key_is $"simul_efun_file" then Ok (c <| simulEfunFile_ := val |>)
  else if key_is $"mud_name" then Ok (c <| mudName_ := val |>)
  else if key_is $"global_include_file" then Ok (c <| globalIncludeFile_ := val |>)
  else if key_is $"dialect" then Ok (c <| dialect_ := val |>)
  else if key_is $"auto_trust_backbone" then Ok (c <| autoTrustBackbone_ := yes val |>)
  else if key_is $"listen" then Ok (addListenLine val c)
  else if key_is $"tls_cert" then Ok (c <| tlsCert_ := val |>)
  else if key_is $"tls_key" then Ok (c <| tlsKey_ := val |>)
  else if key_is $"test_results_path" then Ok (c <| testResultsPath_ := val |>)
  else if key_is $"max_connections" then let* n := stoi val in Ok (c <| maxConnections_ := n |>)
  else Ok c.

Definition config_line (line : bytes) (c : Config) : result Config :=
  match line with
  | [] => Ok c
  | h :: _ =>
      if Ascii.eqb h "#" then Ok c else
      match span (λ c, negb (Ascii.eqb c ":")) line with
      | (_, []) => Ok c
      | (k, _ :: v) =>
          let key := trim k in
          let val := trim v in
          match key with
          | [] => Ok c
          | _ => set_key key val (c <| raw_ ::= <[key := val]> |>)
          end
      end
  end.

Fixpoint config_lines (lines : list bytes) (c : Config) : result Config :=
  match lines with
  | [] => Ok c
  | l :: ls => let* c := config_line l c in config_lines ls c
  end.

(** [loadFromFile] on the contents of the file, [None] when it cannot be
    opened. *)
Definition loadFromFile (file : option bytes) (c : Config) : result (bool * Config) :=
  match file with
  | None => Ok (false, c)
  | Some text =>
      let* c := config_lines (getlines text)
                  (c <| listenPorts_ := [] |> <| sawListenLine_ := false |>) in
      Ok (true, ensureDefaultListenPort c)
  end.

(** ** Dialects *)

Inductive LpcDialect := FluffOS | LdMud | DGD.

#[export] Instance LpcDialect_eq_dec : EqDecision LpcDialect.
Proof. solve_decision. Defined.

Definition dialectName (d : LpcDialect) : bytes :=
  match d with FluffOS => $"fluffos" | LdMud => $"ldmud" | DGD => $"dgd" end.

Definition dialectFromString (s : bytes) : result LpcDialect :=
  if bool_decide (s = $"fluffos") then Ok FluffOS
  else if bool_decide (s = $"ldmud") then Ok LdMud
  else if bool_decide (s = $"dgd") then Ok DGD
  else Throw InvalidArgument.

(** [BootApi]: the applies of the master object that boot uses. *)
Record BootApi := mkBootApi {
  masterFile : bytes;
  simulEfunFile : option bytes;
  logonApply : bytes;
  compileObjectApply : bytes;
  privsFileApply : bytes;
  heartBeatErrorApply : bytes;
  hasAutoObject : bool;
  autoObjectFile : option bytes;
  masterUidApply : bytes;
  inaugurateMasterApply : option bytes;
}.

Definition simul_efun_of (c : Config) : option bytes :=
  match simulEfunFile_ c with [] => None | f => Some f end.

Definition FluffOsBootApi (c : Config) : BootApi :=
  {| masterFile := masterFile_ c; simulEfunFile := simul_efun_of c; logonApply := $"logon";
     compileObjectApply := $"compile_object"; privsFileApply := $"privs_file";
     heartBeatErrorApply := $"heart_beat_error"; hasAutoObject := false; autoObjectFile := None;
     masterUidApply := $"get_root_uid"; inaugurateMasterApply := None |}.

Definition LdmudBootApi (c : Config) : BootApi :=
  {| masterFile := masterFile_ c; simulEfunFile := simul_efun_of c; logonApply := $"logon";
     compileObjectApply := $"compile_object"; privsFileApply := $"privs_file";
     heartBeatErrorApply := $"heart_beat_error"; hasAutoObject := false; autoObjectFile := None;
     masterUidApply := $"get_master_uid"; inaugurateMasterApply := Some $"inaugurate_master" |}.

Definition makeBootApiForConfig (c : Config) : result BootApi :=
  let* d := dialectFromString (dialect_ c) in
  match d with
  | FluffOS => Ok (FluffOsBootApi c)
  | LdMud => Ok (LdmudBootApi c)
  | DGD => Throw (NotImplementedError $"dgd dialect (DgdBootApi does not exist yet)")
  end.

(** ** Listen ports are numbered from 1 *)

Definition slots_from_one (ports : list ListenPort) : Prop :=
  ∀ i p, ports !! i = Some p → lp_slot p = Z.of_nat i + 1.

Lemma addListenLine_ports val c :
  listenPorts_ (addListenLine val c) = listenPorts_ c ∨
  ∃ p, listenPorts_ (addListenLine val c) = listenPorts_ c ++ [p]
    ∧ lp_slot p = size (listenPorts_ c) + 1.
Proof.
  unfold addListenLine. destruct (read_word val) as [[kw r]|]; [|auto].
  destruct (read_int r) as [[n r']|]; [|auto]. right. simpl. eauto.
Qed.

Lemma addListenLine_slots val c :
  slots_from_one (listenPorts_ c) → slots_from_one (listenPorts_ (addListenLine val c)).
Proof.
  intros Hc. destruct (addListenLine_ports val c) as [->|(p & -> & Hp)]; [done|].
  intros i q. rewrite lookup_app. destruct (listenPorts_ c !! i) eqn:E.
  - intros [= <-]. by apply Hc.
  - intros Hq. apply list_lookup_singleton_Some in Hq as [Hi <-].
    apply lookup_ge_None in E. rewrite Hp. unfold size. lia.
Qed.

(** A key either leaves the ports alone or is a [listen] line. *)
Lemma set_key_ports key val c c' :
  set_key key val c = Ok c' →
  listenPorts_ c' = listenPorts_ c ∨ listenPorts_ c' = listenPorts_ (addListenLine val c).
Proof.
  unfold set_key. intros H.
  repeat (case_if_in H; [clear Heqb; inv_ok; first [by left|by right]|clear Heqb]).
  inv_ok. by left.
Qed.

Lemma config_line_slots line c c' :
  slots_from_one (listenPorts_ c) → config_line line c = Ok c' →
  slots_from_one (listenPorts_ c').
Proof.
  intros Hc H. unfold config_line in H. destruct line as [|h t]; [by inv_ok|].
  case_if_in H; [by inv_ok|]. destruct (span _ _) as [k [|x v]]; [by inv_ok|].
  destruct (trim k) as [|y k'] eqn:E; [by inv_ok|]. apply set_key_ports in H as [->| ->]; [done|].
  by apply addListenLine_slots.
Qed.

Lemma config_lines_slots lines c c' :
  slots_from_one (listenPorts_ c) → config_lines lines c = Ok c' →
  slots_from_one (listenPorts_ c').
Proof.
  revert c. induction lines as [|l ls IH]; simpl; intros c Hc H; [by inv_ok|].
  inv_ok. eapply IH; [|done]. by eapply config_line_slots.
Qed.

(** ** Properties *)

(** Loading a configuration file that can be opened leaves at least one
    listen port, numbered 1, 2, 3, ... in file order; without a [listen] line
    it is one plain telnet port on the configured [port]. *)
Theorem loadFromFile_listens text c c' (H : loadFromFile (Some text) c = Ok (true, c')) :
  listenPorts_ c' ≠ [] ∧ slots_from_one (listenPorts_ c') ∧
  ((∃ c0, config_lines (getlines text) (c <| listenPorts_ := [] |> <| sawListenLine_ := false |>)
           = Ok c0 ∧ listenPorts_ c0 ≠ [] ∧ c' = c0) ∨
   listenPorts_ c' = [mkListenPort 1 Telnet (port_ c') false]).
Proof.
  unfold loadFromFile in H. apply rbind_Ok_inv in H as (c0 & H0 & H). injection H as <-.
  assert (Hs : slots_from_one (listenPorts_ c0)).
  { eapply config_lines_slots; [|exact H0]. simpl. by intros [|?]. }
  unfold ensureDefaultListenPort. destruct (listenPorts_ c0) as [|p ps] eqn:E.
  - simpl. split_and!; [done| |auto]. intros [|[|i]]; simpl; [intros ? [= <-]|done|done]; done.
  - rewrite E. split_and!; [done|done|]. left. exists c0. by rewrite E.
Qed.

Lemma loadFromFile_listens_witness :
  ∃ c', loadFromFile (Some $"listen: telnet 23 tls") default_config = Ok (true, c') ∧
        listenPorts_ c' ≠ [].
Proof.
  eexists. split; [vm_compute; reflexivity|].
  eapply (loadFromFile_listens $"listen: telnet 23 tls" default_config). vm_compute. reflexivity.
Defined.

(** The dialect names and [dialectFromString] are inverse to each other,
    and booting works for exactly FluffOS and LDMud: any other configured name
    is an error, [dgd] included. *)
Theorem dialect_names (c : Config) :
  (∀ d, dialectFromString (dialectName d) = Ok d) ∧
  (∀ s d, dialectFromString s = Ok d → s = dialectName d) ∧
  ((∃ b, makeBootApiForConfig c = Ok b) ↔ dialect_ c = $"fluffos" ∨ dialect_ c = $"ldmud").
Proof.
  assert (Hinv : ∀ s d, dialectFromString s = Ok d → s = dialectName d).
  { intros s d. unfold dialectFromString. repeat case_if; prop_tests; intros; by simplify_eq/=. }
  assert (Hname : ∀ d, dialectFromString (dialectName d) = Ok d) by by intros [].
  split_and!; [done|done|]. unfold makeBootApiForConfig. split.
  - intros [b H]. inv_ok. apply Hinv in H. destruct x; naive_solver.
  - intros [->| ->]; vm_compute; eauto.
Qed.
