(* ===== verification/Uids.v ===== *)
(** * Uids: the uid and effective uid of a new object

    Models [src/security/UidModel.cpp] and
    [include/kjdmud/security/UidModel.hpp]. *)

From S2P Require Import Prelude.

Record UidModel := mkUidModel {
  rootUid : option bytes;
  backboneUid : option bytes;
  um_autoTrustBackbone : bool;
}.

#[export] Instance eta_UidModel : Eta UidModel := λ m,
  mkUidModel (rootUid m) (backboneUid m) (um_autoTrustBackbone m).

Definition active (m : UidModel) : bool :=
  match rootUid m with Some _ => true | None => false end.

Record ResolvedObjectUids := mkResolved { r_uid : bytes; r_euid : option bytes }.

Definition resolveObjectUids (model : UidModel) (creatorName : bytes)
    (loaderUid loaderEuid : option bytes) : ResolvedObjectUids :=
  if bool_decide (loaderUid = Some creatorName) then
    mkResolved creatorName loaderEuid
  else
    match loaderEuid with
    | Some e =>
        if um_autoTrustBackbone model && bool_decide (backboneUid model = Some creatorName)
        then mkResolved e loaderEuid
        else mkResolved creatorName None
    | None => mkResolved creatorName None
    end.

(** The object runs with the loader's effective uid or with none. *)
Lemma resolve_euid model creator lu le :
  r_euid (resolveObjectUids model creator lu le) = None ∨
  r_euid (resolveObjectUids model creator lu le) = le.
Proof. unfold resolveObjectUids. repeat (case_match; simpl; auto). Qed.

(** A new object never gains an effective uid its loader does not have:
    it gets the loader's or none, and it gets the loader's only when the
    creator is the loader itself or is the trusted backbone; its owner is the
    creator unless the backbone is trusted. *)
Theorem resolve_no_escalation model creator lu le :
  let r := resolveObjectUids model creator lu le in
  (∀ e, r_euid r = Some e →
    le = Some e ∧
    (lu = Some creator ∨ (um_autoTrustBackbone model = true ∧ backboneUid model = Some creator))) ∧
  (r_uid r = creator ∨
    (um_autoTrustBackbone model = true ∧ backboneUid model = Some creator ∧ le = Some (r_uid r))).
Proof.
  unfold resolveObjectUids. case_bool_decide; simpl; [naive_solver|].
  destruct le as [e|]; simpl; [|naive_solver].
  case_if; simpl; [|naive_solver]. prop_tests. naive_solver.
Qed.

(** Without the backbone option every object created by somebody else's
    file starts without an effective uid, whatever the loader is. *)
Theorem resolve_untrusted model creator lu le
    (Hoff : um_autoTrustBackbone model = false) (Hother : lu ≠ Some creator) :
  resolveObjectUids model creator lu le = mkResolved creator None.
Proof.
  unfold resolveObjectUids. rewrite bool_decide_false by done. rewrite Hoff. by destruct le.
Qed.

Lemma resolve_untrusted_witness :
  resolveObjectUids (mkUidModel (Some $"Root") (Some $"Backbone") false) $"alice"
    (Some $"bob") (Some $"bob") = mkResolved $"alice" None.
Proof. apply resolve_untrusted; [reflexivity|discriminate]. Defined.
