(* ===== verification/Objects.v ===== *)
(** * Objects: LPC objects and the registries of live objects

    Models [include/kjdmud/object/LpcObject.hpp], [src/object/LpcObject.cpp],
    [src/object/LivingNameRegistry.cpp], [src/object/LiveObjectRegistry.cpp]
    and [src/net/InteractiveRegistry.cpp].

    An object is an address into the table [objects] of the world.  A
    [std::weak_ptr] is an optional address and locking it looks the address up:
    an object that was freed is absent from the table.  Time points of the
    steady clock are nanoseconds, as in the C++ library. *)

From S2P Require Import Prelude Doubles Values.

(** ** Objects *)

Record ActionEntry := mkActionEntry {
  ae_verb : bytes;
  ae_functionName : bytes;
  ae_owner : option addr;
  ae_flag : Z;
}.

(** The parts of a compiled program the object layer reads. *)
Record CompiledProgram := mkCompiledProgram {
  objectVarNames : list bytes;
  inherits : list bytes;
  inheritedPrograms : list addr;
  ancestorBaseOffsets : gmap addr Z;
}.

Definition seconds (n : Z) : Z := n * 1000000000.

(** [steady_clock::time_point::max()]. *)
Definition time_max : Z := 2 ^ 63 - 1.

Record LpcObject := mkLpcObject {
  filename_ : bytes;
  program_ : addr;
  replacedProgramName_ : option bytes;
  variables_ : list value;
  heartbeatInterval_ : Z;
  environment_ : option addr;
  inventory_ : list addr;
  commandsEnabled_ : bool;
  destructed_ : bool;
  everInteractive_ : bool;
  hidden_ : bool;
  notifyDestruct_ : bool;
  isWizard_ : bool;
  actions_ : list ActionEntry;
  privs_ : option bytes;
  uid_ : option bytes;
  euid_ : option bytes;
  livingName_ : bytes;
  shadowedBy_ : option addr;
  shadowing_ : option addr;
  snoopedBy_ : option addr;
  snooping_ : option addr;
  isVirtual_ : bool;
  totalLight_ : Z;
  hasParseInfo_ : bool;
  parseInfoFlags_ : Z;
  parseNounIds_ : list bytes;
  parsePluralIds_ : list bytes;
  parseAdjIds_ : list bytes;
  resetState_ : bool;
  willCleanUp_ : bool;
  isClone_ : bool;
  timeReset_ : Z;
  timeOfRef_ : Z;
}.

#[export] Instance eta_LpcObject : Eta LpcObject := λ o,
  mkLpcObject (filename_ o) (program_ o) (replacedProgramName_ o) (variables_ o)
    (heartbeatInterval_ o) (environment_ o) (inventory_ o) (commandsEnabled_ o)
    (destructed_ o) (everInteractive_ o) (hidden_ o) (notifyDestruct_ o) (isWizard_ o)
    (actions_ o) (privs_ o) (uid_ o) (euid_ o) (livingName_ o) (shadowedBy_ o)
    (shadowing_ o) (snoopedBy_ o) (snooping_ o) (isVirtual_ o) (totalLight_ o)
    (hasParseInfo_ o) (parseInfoFlags_ o) (parseNounIds_ o) (parsePluralIds_ o)
    (parseAdjIds_ o) (resetState_ o) (willCleanUp_ o) (isClone_ o) (timeReset_ o)
    (timeOfRef_ o).

(** The constructor: one slot per variable of the program, each an untagged 0
    or, under the FluffOS dialect, the tagged one. *)
Definition makeLpcObject (filename : bytes) (program : addr) (p : CompiledProgram)
    (fluffosDialect : bool) (now : Z) : LpcObject :=
  {| filename_ := filename; program_ := program; replacedProgramName_ := None;
     variables_ := replicate (length (objectVarNames p))
                     (if fluffosDialect then makeUndefinedNumber else mk (VInt 0));
     heartbeatInterval_ := 0; environment_ := None; inventory_ := [];
     commandsEnabled_ := false; destructed_ := false; everInteractive_ := false;
     hidden_ := false; notifyDestruct_ := false; isWizard_ := false; actions_ := [];
     privs_ := None; uid_ := None; euid_ := None; livingName_ := [];
     shadowedBy_ := None; shadowing_ := None; snoopedBy_ := None; snooping_ := None;
     isVirtual_ := false; totalLight_ := 0; hasParseInfo_ := false; parseInfoFlags_ := 0;
     parseNounIds_ := []; parsePluralIds_ := []; parseAdjIds_ := [];
     resetState_ := false; willCleanUp_ := false; isClone_ := false;
     timeReset_ := 0; timeOfRef_ := now |}.

Definition addAction (e : ActionEntry) (o : LpcObject) : LpcObject :=
  o <| actions_ ::= cons e |>.

(** [removeAction]: the first entry of this owner, function and verb.  [lock]
    resolves a weak pointer. *)
Fixpoint remove_first_action (lock : option addr → option addr) (owner : option addr)
    (functionName verb : bytes) (l : list ActionEntry) : option (list ActionEntry) :=
  match l with
  | [] => None
  | e :: l =>
      if bool_decide (lock (ae_owner e) = owner) && bool_decide (ae_functionName e = functionName)
         && bool_decide (ae_verb e = verb)
      then Some l
      else cons e <$> remove_first_action lock owner functionName verb l
  end.

Definition removeAction lock owner functionName verb (o : LpcObject) : bool * LpcObject :=
  match remove_first_action lock owner functionName verb (actions_ o) with
  | Some l => (true, o <| actions_ := l |>)
  | None => (false, o)
  end.

(** [armReset]: half the period (in seconds) from now plus a random part of the other half;
    [jitter] is the number the generator draws from [0 .. half-1]. *)
Definition armReset (timeToReset now jitter : Z) (o : LpcObject) : LpcObject :=
  let half := timeToReset / 2 in
  o <| timeReset_ := now + seconds half + seconds (if 0 <? half then jitter else 0) |>
    <| resetState_ := true |>.

Definition disableReset (o : LpcObject) : LpcObject := o <| timeReset_ := time_max |>.
Definition touchTimeOfRef (now : Z) (o : LpcObject) : LpcObject := o <| timeOfRef_ := now |>.

(** ** The object table *)

Abbreviation table := (gmap addr LpcObject).

(** [weak_ptr::lock]. *)
Definition lock (os : table) (p : option addr) : option addr :=
  match p with
  | Some a => if bool_decide (is_Some (os !! a)) then Some a else None
  | None => None
  end.

Definition upd (f : LpcObject → LpcObject) (a : addr) (os : table) : table := alter f a os.

(** A property of the object at an address, false when there is none. *)
Definition flag_of (f : LpcObject → bool) (os : table) (a : addr) : bool :=
  match os !! a with Some o => f o | None => false end.

Lemma flag_of_true f os a : flag_of f os a = true ↔ ∃ o, os !! a = Some o ∧ f o = true.
Proof. unfold flag_of. destruct (os !! a); naive_solver. Qed.

Lemma lock_Some os p a : lock os p = Some a ↔ p = Some a ∧ is_Some (os !! a).
Proof. unfold lock. destruct p; [|naive_solver]. case_bool_decide; naive_solver. Qed.

Lemma lock_alive os a : is_Some (os !! a) → lock os (Some a) = Some a.
Proof. intros H. by apply lock_Some. Qed.

Lemma upd_is_Some f a os b : is_Some (upd f a os !! b) ↔ is_Some (os !! b).
Proof. apply lookup_alter_is_Some. Qed.

Lemma lock_upd f a os p : lock (upd f a os) p = lock os p.
Proof.
  unfold lock. destruct p as [b|]; [|done].
  by rewrite (bool_decide_ext _ _ (upd_is_Some f a os b)).
Qed.

Lemma upd_same f a os o : os !! a = Some o → upd f a os !! a = Some (f o).
Proof. intros H. unfold upd. by rewrite lookup_alter_eq, H. Qed.

Lemma upd_other f a os b : a ≠ b → upd f a os !! b = os !! b.
Proof. intros H. unfold upd. by rewrite lookup_alter_ne. Qed.

(** ** Registries of weak pointers *)

(** The entries kept when an object is removed: those that lock to another. *)
Definition keeps (os : table) (obj : addr) (p : option addr) : bool :=
  match lock os p with Some a => negb (bool_decide (a = obj)) | None => false end.

Lemma keeps_true os a p : keeps os a p = true ↔ ∃ b, lock os p = Some b ∧ b ≠ a.
Proof.
  unfold keeps. destruct (lock os p) as [b|]; [|naive_solver].
  rewrite negb_true_iff, bool_decide_eq_false. naive_solver.
Qed.

Module LivingNameRegistry.

Record Entry := mkEntry { obj : addr; name : bytes }.
Abbreviation registry := (list Entry).

Definition remove (os : table) (p : option addr) (g : registry) : registry :=
  match p with
  | None => g
  | Some a => filter (λ e, keeps os a (Some (obj e)) = true) g
  end.

Definition set (os : table) (p : option addr) (n : bytes) (g : registry) : registry :=
  match p with
  | None => g
  | Some a => remove os p g ++ [mkEntry a n]
  end.

Definition selects (os : table) (n : bytes) (requireOnceInteractive : bool) (e : Entry) : bool :=
  bool_decide (name e = n) &&
  flag_of (λ o, negb (destructed_ o) && (negb requireOnceInteractive || everInteractive_ o)
                && commandsEnabled_ o) os (obj e).

Fixpoint find (os : table) (n : bytes) (requireOnceInteractive : bool) (g : registry)
  : option addr :=
  match g with
  | [] => None
  | e :: g => if selects os n requireOnceInteractive e then Some (obj e)
              else find os n requireOnceInteractive g
  end.

Definition allWithCommandsEnabled (os : table) (g : registry) : list addr :=
  obj <$> filter (λ e, flag_of (λ o, negb (destructed_ o) && commandsEnabled_ o) os (obj e) = true) g.

(** No object has two names. *)
Definition functional (g : registry) : Prop := NoDup (obj <$> g).

Lemma remove_sublist os p g : remove os p g `sublist_of` g.
Proof. destruct p; [apply sublist_filter|done]. Qed.

Lemma remove_functional os p g : functional g → functional (remove os p g).
Proof. intros H. eapply sublist_NoDup; [exact H|]. apply fmap_sublist, remove_sublist. Qed.

Lemma elem_of_remove os a e g :
  e ∈ remove os (Some a) g ↔ e ∈ g ∧ is_Some (os !! obj e) ∧ obj e ≠ a.
Proof.
  simpl. rewrite list_elem_of_filter, keeps_true. setoid_rewrite lock_Some. naive_solver.
Qed.

Lemma set_functional os p n g : functional g → functional (set os p n g).
Proof.
  intros Hg. destruct p as [a|]; [|done]. unfold functional, set.
  rewrite fmap_app. apply NoDup_app. split_and!.
  - by apply remove_functional.
  - intros x (e & -> & He)%list_elem_of_fmap Hx. simpl in Hx.
    apply list_elem_of_singleton in Hx. apply elem_of_remove in He. naive_solver.
  - apply NoDup_singleton.
Qed.

Lemma find_Some os n r g a :
  find os n r g = Some a → ∃ e, e ∈ g ∧ obj e = a ∧ selects os n r e = true.
Proof.
  induction g as [|e g IH]; simpl; [done|]. case_if; [|set_solver].
  intros [= <-]. exists e. set_solver.
Qed.

Lemma find_None os n r g e : find os n r g = None → e ∈ g → selects os n r e = false.
Proof.
  induction g as [|d g IH]; simpl; [set_solver|]. case_if; [done|].
  intros H [->|Hin]%elem_of_cons; auto.
Qed.

End LivingNameRegistry.

Module LiveObjectRegistry.

Abbreviation registry := (list addr).

Definition add (p : option addr) (g : registry) : registry :=
  match p with None => g | Some a => g ++ [a] end.

Definition remove (os : table) (p : option addr) (g : registry) : registry :=
  match p with
  | None => g
  | Some a => filter (λ b, keeps os a (Some b) = true) g
  end.

Definition all (os : table) (g : registry) : list addr :=
  filter (λ a, flag_of (λ o, negb (destructed_ o)) os a = true) g.

(** [releaseAll]: zero the variables and clear the inventory of everything
    still registered, then forget it all. *)
Definition release (o : LpcObject) : LpcObject :=
  o <| variables_ ::= map (λ _, mk (VInt 0)) |> <| inventory_ := [] |>.
Definition releaseAll (os : table) (g : registry) : table * registry :=
  (foldr (upd release) os g, []).

Lemma live_elem_of_remove os a b g :
  b ∈ remove os (Some a) g ↔ b ∈ g ∧ is_Some (os !! b) ∧ b ≠ a.
Proof.
  simpl. rewrite list_elem_of_filter, keeps_true. setoid_rewrite lock_Some. naive_solver.
Qed.

Lemma elem_of_all os a g :
  a ∈ all os g ↔ a ∈ g ∧ ∃ o, os !! a = Some o ∧ destructed_ o = false.
Proof.
  unfold all. rewrite list_elem_of_filter, flag_of_true.
  setoid_rewrite negb_true_iff. naive_solver.
Qed.

End LiveObjectRegistry.

Module InteractiveRegistry.

(** [conn] identifies a connection. *)
Record Entry := mkEntry { obj : addr; conn : positive }.
Abbreviation registry := (list Entry).

Definition add (p : option addr) (c : positive) (g : registry) : registry :=
  match p with None => g | Some a => g ++ [mkEntry a c] end.

Definition remove (os : table) (p : option addr) (g : registry) : registry :=
  match p with
  | None => g
  | Some a => filter (λ e, keeps os a (Some (obj e)) = true) g
  end.

Definition all (os : table) (g : registry) : list addr :=
  obj <$> filter (λ e, is_Some (os !! obj e)) g.

Fixpoint find_conn (os : table) (a : addr) (g : registry) : option positive :=
  match g with
  | [] => None
  | e :: g => if bool_decide (lock os (Some (obj e)) = Some a) then Some (conn e)
              else find_conn os a g
  end.
Definition find (os : table) (p : option addr) (g : registry) : option positive :=
  match p with None => None | Some a => find_conn os a g end.

Lemma find_conn_remove_other os a b g :
  a ≠ b → find_conn os b (remove os (Some a) g) = find_conn os b g.
Proof.
  intros Hab. unfold remove. induction g as [|e g IH]; [done|].
  rewrite filter_cons. destruct (decide _) as [H|H]; cbn [find_conn]; rewrite IH; [done|].
  case_bool_decide as E; [|done]. destruct H. apply keeps_true. by exists b.
Qed.

Lemma find_conn_remove_same os a g : find_conn os a (remove os (Some a) g) = None.
Proof.
  unfold remove. induction g as [|e g IH]; [done|].
  rewrite filter_cons. destruct (decide _) as [H|H]; [|done]. cbn [find_conn].
  apply keeps_true in H as (b & Hb & Hba). rewrite bool_decide_false; [done|]. congruence.
Qed.

End InteractiveRegistry.

(** ** Properties *)

(** [set_living_name] renames: no object has two names afterwards, the
    object is never found under another name again, and it is found under the
    new one if it is live, accepts commands and nobody else goes by it. *)
Theorem set_living_name os a n g (Hg : LivingNameRegistry.functional g) :
  let g' := LivingNameRegistry.set os (Some a) n g in
  LivingNameRegistry.functional g' ∧
  (∀ m r, m ≠ n → LivingNameRegistry.find os m r g' ≠ Some a) ∧
  (∀ o, os !! a = Some o → destructed_ o = false → commandsEnabled_ o = true →
    (∀ e, e ∈ g → LivingNameRegistry.obj e ≠ a → LivingNameRegistry.name e ≠ n) →
    LivingNameRegistry.find os n false g' = Some a).
Proof.
  intros g'. split_and!; [by apply LivingNameRegistry.set_functional| |].
  - intros m r Hmn Hf. apply LivingNameRegistry.find_Some in Hf as (e & Hin & Ha & Hs).
    unfold g', LivingNameRegistry.set in Hin. apply elem_of_app in Hin as [Hin|Hin].
    + apply LivingNameRegistry.elem_of_remove in Hin. naive_solver.
    + apply list_elem_of_singleton in Hin as ->. unfold LivingNameRegistry.selects in Hs.
      prop_tests. simpl in *. congruence.
  - intros o Ho Hd Hc Hother.
    assert (Hin : LivingNameRegistry.mkEntry a n ∈ g') by (apply elem_of_app; right; set_solver).
    assert (Hsel : LivingNameRegistry.selects os n false (LivingNameRegistry.mkEntry a n) = true).
    { unfold LivingNameRegistry.selects, flag_of. simpl. rewrite Ho, Hd, Hc.
      by rewrite bool_decide_true. }
    destruct (LivingNameRegistry.find os n false g') as [b|] eqn:Ef;
      [|by rewrite (LivingNameRegistry.find_None _ _ _ _ _ Ef Hin) in Hsel].
    apply LivingNameRegistry.find_Some in Ef as (e & He & <- & Hs).
    unfold g', LivingNameRegistry.set in He. apply elem_of_app in He as [He|He].
    + apply LivingNameRegistry.elem_of_remove in He as (He & _ & Hne).
      unfold LivingNameRegistry.selects in Hs. prop_tests. by destruct (Hother e He Hne).
    + by apply list_elem_of_singleton in He as ->.
Qed.

Lemma set_living_name_witness :
  LivingNameRegistry.functional
    (LivingNameRegistry.set ∅ (Some 1%positive) $"orc" []).
Proof. apply (set_living_name ∅ 1%positive $"orc" []). apply NoDup_nil_2. Defined.
