(* ===== verification/ObjectManager.v ===== *)
(** * ObjectManager: compiling, loading, cloning and destructing objects

    Models [src/object/ObjectManager.cpp] from [normalizeFilename] on (the
    preprocessor passes before it are in [Preprocess]).  The virtual machine
    and the compiler's front end are interfaces: a class [VM] of the calls the
    manager makes, and a record [frontend] of functions from a source text to the inherit
    list and the variables it declares.  Both may do anything to the world. *)

From S2P Require Import Prelude Doubles Values Config Uids Objects.

Record world := mkWorld {
  config_ : Config;
  vm_ : bool;                                   (** [vm_ != nullptr] *)
  uidModel_ : UidModel;
  master_ : option addr;
  simulEfunObject_ : option addr;
  programCache_ : gmap bytes addr;
  programSource_ : gmap bytes bytes;
  loaded_ : gmap bytes addr;
  restoredObjects_ : list addr;
  compiling_ : gset bytes;
  virtualCompiling_ : gset bytes;
  objects : table;
  programs : gmap addr CompiledProgram;
  livingNames : list LivingNameRegistry.Entry;  (** [LivingNameRegistry] *)
  liveObjects : list addr;                      (** [LiveObjectRegistry] *)
  lpcHeap : heap;
  files : gmap bytes bytes;                     (** LPC sources by normalized name *)
  clock : Z;                                    (** [steady_clock::now()] *)
  jitter : list Z;                              (** the draws [armReset] will get *)
}.

#[export] Instance eta_world : Eta world := λ w,
  mkWorld (config_ w) (vm_ w) (uidModel_ w) (master_ w) (simulEfunObject_ w) (programCache_ w)
    (programSource_ w) (loaded_ w) (restoredObjects_ w) (compiling_ w) (virtualCompiling_ w)
    (objects w) (programs w) (livingNames w) (liveObjects w) (lpcHeap w) (files w) (clock w)
    (jitter w).

Definition upd_obj (f : LpcObject → LpcObject) (a : addr) (w : world) : world :=
  w <| objects ::= upd f a |>.
Definition on_obj (f : LpcObject → LpcObject) (p : option addr) (w : world) : world :=
  match p with Some a => upd_obj f a w | None => w end.

Definition wlock (w : world) : option addr → option addr := lock (objects w).

(** [std::make_shared<LpcObject>]. *)
Definition alloc_object (o : LpcObject) (w : world) : addr * world :=
  let a := fresh (dom (objects w)) in (a, w <| objects ::= insert a o |>).
Definition alloc_program (p : CompiledProgram) (w : world) : addr * world :=
  let a := fresh (dom (programs w)) in (a, w <| programs ::= insert a p |>).

(** ** File names *)

Definition strip_c (s : bytes) : bytes :=
  match reverse s with
  | "c"%char :: "."%char :: r => reverse r
  | _ => s
  end.

Definition normalizeFilename (filename : bytes) : bytes :=
  let r := strip_c filename in
  match r with
  | "/"%char :: _ => r
  | _ => "/"%char :: r
  end.

(** ** Compiling *)

(** [stage]: the passes before the [try] block of [compile], from a file name
    and its text to the preprocessed text; [None] when they report a failure.
    [parse]: lexer and parser, to the inherit paths and the code generator,
    which from the names of the parents' variables makes the names of all
    variables of the object.  [inl] is an exception. *)
Record Frontend := mkFrontend {
  stage : bytes → bytes → exn + option bytes;
  parse : bytes → exn + (list bytes * (list bytes → exn + list bytes));
}.

Definition from_sum {A} (r : exn + A) : result A :=
  match r with inl e => Throw e | inr a => Ok a end.

Section Compile.
Context (frontend : Frontend).

(** The loop over the inherit paths; [rec] compiles one. *)
Fixpoint compile_parents (rec : bytes → M world (option addr)) (paths : list bytes)
    (parents : list addr) (names : list bytes) (offsets : gmap addr Z)
  : M world (option (list addr * list bytes * gmap addr Z)) :=
  match paths with
  | [] => ret (Some (parents, names, offsets))
  | path :: paths =>
      do* parent := rec path in
      match parent with
      | None => ret None
      | Some p =>
          do* w := get in
          match programs w !! p with
          | None => lift Undefined
          | Some prog =>
              let base := size names in
              let inherited := (λ off, base + off) <$> ancestorBaseOffsets prog in
              compile_parents rec paths (parents ++ [p]) (names ++ objectVarNames prog)
                (inherited ∪ <[p := base]> offsets)
          end
      end
  end.

(** The [try] block: parents first, then the program itself, which enters the
    cache. *)
Definition compile_program (rec : bytes → M world (option addr)) (filename text preprocessed : bytes)
  : M world (option addr) :=
  do* (paths, generate) := lift (from_sum (parse frontend preprocessed)) in
  do* r := compile_parents rec paths [] [] ∅ in
  match r with
  | None => ret None
  | Some (parents, names, offsets) =>
      do* vars := lift (from_sum (generate names)) in
      do* w := get in
      let '(p, w) := alloc_program (mkCompiledProgram vars paths parents offsets) w in
      do* _ := modify (λ _, w <| programCache_ ::= <[filename := p]> |>
                              <| programSource_ ::= <[filename := text]> |>) in
      ret (Some p)
  end.

Definition compile_source (rec : bytes → M world (option addr)) (filename text : bytes)
  : M world (option addr) :=
  do* staged := lift (from_sum (stage frontend filename text)) in
  match staged with
  | None => ret None
  | Some preprocessed => try_catch (compile_program rec filename text preprocessed) (λ _, ret None)
  end.

(** [InProgressGuard]: the name is taken out of the set however [m] ends. *)
Definition in_progress {A} (filename : bytes) (m : M world A) : M world A := λ w,
  let '(r, w) := m (w <| compiling_ ::= union {[filename]} |>) in
  (r, w <| compiling_ ::= λ c, c ∖ {[filename]} |>).

Fixpoint compile (fuel : nat) (rawFilename : bytes) : M world (option addr) :=
  match fuel with
  | O => lift OutOfFuel
  | S f =>
      let filename := normalizeFilename rawFilename in
      do* w := get in
      let source := files w !! filename in
      let hit := match programCache_ w !! filename with
                 | Some p =>
                     match source with
                     | None => Some p
                     | Some text => if bool_decide (programSource_ w !! filename = Some text)
                                    then Some p else None
                     end
                 | None => None
                 end in
      match hit with
      | Some p => ret (Some p)
      | None =>
          if bool_decide (filename ∈ compiling_ w) then ret None else
          match source with
          | None => ret None
          | Some text => in_progress filename (compile_source (compile f) filename text)
          end
      end
  end.
End Compile.

(** ** The virtual machine's interface *)

Class VM := {
  callFunction : addr → bytes → list value → M world value;
  callFunctionInProgram : addr → addr → bytes → list value → M world value;
  applyMaster : bytes → list value → M world value;
  functionExists : world → addr → bytes → bool;
  currentObject : world → option addr;
}.

Definition as_string (v : value) : option bytes :=
  match vdata v with VStr s => Some s | _ => None end.

(** [TIME_TO_RESET]. *)
Definition kTimeToReset : Z := 1800.

Section Manager.
Context `{VM} (frontend : Frontend) (compile_fuel : nat).

Definition initPrivsForObject (obj : addr) (filename : bytes) : M world unit :=
  do* w := get in
  if vm_ w && non_null (master_ w) then
    try_catch
      (do* v := applyMaster $"privs_file" [mk (VStr filename)] in
       match as_string v with
       | Some s => modify (upd_obj (λ o, o <| privs_ := Some s |>) obj)
       | None => ret tt
       end)
      (λ _, ret tt)
  else ret tt.

(** The creator name the master gives, if any. *)
Definition creator_of (m : addr) (slashPath : bytes) : M world (option bytes) :=
  do* w := get in
  if functionExists w m $"creator_file" then
    try_catch (do* v := callFunction m $"creator_file" [mk (VStr slashPath)] in
               ret (as_string v))
              (λ _, ret None)
  else ret None.

Definition slash (filename : bytes) : bytes :=
  match filename with
  | [] => []
  | "/"%char :: _ => filename
  | _ => "/"%char :: filename
  end.

Definition loader_uids (w : world) (root : option bytes) : option bytes * option bytes :=
  match currentObject w with
  | Some c => match objects w !! c with
              | Some o => (uid_ o, euid_ o)
              | None => (None, None)
              end
  | None => (root, root)
  end.

Definition assignObjectUid (obj : addr) (filename : bytes) : M world unit :=
  do* w := get in
  match master_ w with
  | Some m =>
      if vm_ w && active (uidModel_ w) then
        do* creator := creator_of m (slash filename) in
        do* w := get in
        match creator with
        | None =>
            do* root := lift (deref (rootUid (uidModel_ w))) in
            modify (upd_obj (λ o, o <| uid_ := Some root |>) obj)
        | Some creatorName =>
            let '(lu, le) := loader_uids w (rootUid (uidModel_ w)) in
            let r := resolveObjectUids (uidModel_ w) creatorName lu le in
            modify (upd_obj (λ o, o <| uid_ := Some (r_uid r) |> <| euid_ := r_euid r |>) obj)
        end
      else ret tt
  | None => ret tt
  end.

(** [obj->armReset(TIME_TO_RESET)]: one number is drawn. *)
Definition rearm (obj : addr) (w : world) : world :=
  upd_obj (armReset kTimeToReset (clock w) (default 0 (head (jitter w)))) obj
    (w <| jitter ::= tail |>).

Definition armResetAndCleanup (obj : addr) (w : world) : world :=
  if flag_of (λ o, negb (destructed_ o)) (objects w) obj then
    upd_obj (λ o, o <| willCleanUp_ := true |>) obj (rearm obj w)
  else w.

(** Parents first, then the program itself. *)
Fixpoint runObjectVarInitializers (fuel : nat) (obj program : addr) : M world unit :=
  match fuel with
  | O => lift OutOfFuel
  | S f =>
      do* w := get in
      if vm_ w then
        match programs w !! program with
        | None => lift Undefined
        | Some p =>
            do* _ := foldr (λ parent k, do* _ := runObjectVarInitializers f obj parent in k)
                       (ret tt) (inheritedPrograms p) in
            do* _ := callFunctionInProgram obj program $"$objvarinit" [] in
            ret tt
        end
      else ret tt
  end.

(** The initializers and [create], and whether they threw. *)
Definition run_create (obj program : addr) (args : list value) : M world bool :=
  do* w := get in
  if vm_ w then
    try_catch
      (do* _ := runObjectVarInitializers compile_fuel obj program in
       do* _ := callFunction obj $"create" args in
       ret true)
      (λ _, ret false)
  else ret true.

Definition sourceFileExists (w : world) (rawFilename : bytes) : bool :=
  match files w !! normalizeFilename rawFilename with Some _ => true | None => false end.

Definition loadVirtualObject (filename : bytes) : M world (option addr) :=
  do* w := get in
  if vm_ w && non_null (master_ w) then
    if bool_decide (filename ∈ virtualCompiling_ w) then ret None else
    do* _ := modify (λ w, w <| virtualCompiling_ ::= union {[filename]} |>) in
    do* v := try_catch (applyMaster $"compile_object" [mk (VStr filename); mk (VInt 0)])
               (λ _, ret (mk VVoid)) in
    do* r := match vdata v with
             | VObj (Some ob) =>
                 do* _ := modify (upd_obj (λ o, o <| filename_ := filename |>
                                                  <| isVirtual_ := true |>) ob) in
                 do* _ := modify (λ w, w <| loaded_ ::= <[filename := ob]> |>) in
                 ret (Some ob)
             | _ => ret None
             end in
    do* _ := modify (λ w, w <| virtualCompiling_ ::= λ c, c ∖ {[filename]} |>) in
    ret r
  else ret None.

Definition is_fluffos (w : world) : bool := bool_decide (dialect_ (config_ w) = $"fluffos").

(** A new object of a program, registered, with its privileges and uids. *)
Definition newObject (filename : bytes) (program : addr) (prepare : addr → world → world)
  : M world addr :=
  do* w := get in
  do* p := lift (deref (programs w !! program)) in
  let '(obj, w) := alloc_object (makeLpcObject filename program p (is_fluffos w) (clock w)) w in
  do* _ := modify (λ _, prepare obj w) in
  do* _ := modify (λ w, w <| liveObjects ::= LiveObjectRegistry.add (Some obj) |>) in
  do* _ := initPrivsForObject obj filename in
  do* _ := assignObjectUid obj filename in
  ret obj.

Definition loadObject (rawFilename : bytes) : M world (option addr) :=
  let filename := normalizeFilename rawFilename in
  do* w := get in
  match loaded_ w !! filename with
  | Some a => ret (Some a)
  | None =>
      if negb (sourceFileExists w filename) then loadVirtualObject filename else
      do* program := compile frontend compile_fuel filename in
      match program with
      | None => ret None
      | Some p =>
          do* obj := newObject filename p (λ a w, w <| loaded_ ::= <[filename := a]> |>) in
          do* ok := run_create obj p [] in
          if (ok : bool) then
            do* _ := modify (armResetAndCleanup obj) in ret (Some obj)
          else
            do* _ := modify (λ w, w <| loaded_ ::= delete filename |>) in ret None
      end
  end.

Definition seteuid_error : exn :=
  LpcRuntimeError ($"Object must call seteuid() prior to calling clone_object()." ++ [NL]).

(** The caller may clone: it has an effective uid, or nobody asks. *)
Definition may_clone (w : world) : bool :=
  negb (active (uidModel_ w) && vm_ w) ||
  match currentObject w with
  | Some c => match objects w !! c with
              | Some o => match euid_ o with Some _ => true | None => false end
              | None => false
              end
  | None => true
  end.

Definition cloneObject (rawFilename : bytes) (createArgs : list value) : M world (option addr) :=
  do* w := get in
  if negb (may_clone w) then throw seteuid_error else
  let filename := normalizeFilename rawFilename in
  do* program := compile frontend compile_fuel filename in
  match program with
  | None => ret None
  | Some p =>
      do* obj := newObject filename p (λ _ w, w) in
      do* _ := modify (upd_obj (λ o, o <| isClone_ := true |>) obj) in
      do* ok := run_create obj p createArgs in
      if (ok : bool) then
        do* _ := modify (armResetAndCleanup obj) in ret (Some obj)
      else ret None
  end.

Definition lookupLoadedObject (w : world) (rawFilename : bytes) : option addr :=
  loaded_ w !! normalizeFilename rawFilename.

(** The master's root uid, under either of its names. *)
Definition ask_root_uid (m : addr) : M world (option bytes) :=
  try_catch
    (do* v := callFunction m $"get_root_uid" [] in
     do* v := if isVoid v then callFunction m $"get_master_uid" [] else ret v in
     ret (as_string v))
    (λ _, ret None).

Definition captureBootUids : M world unit :=
  do* w := get in
  match master_ w with
  | Some m =>
      if vm_ w then
        do* root := ask_root_uid m in
        match root with
        | None | Some [] => ret tt
        | Some rootStr =>
            do* _ := modify (λ w, w <| uidModel_ ::= λ u, u <| rootUid := Some rootStr |> |>) in
            do* bb := try_catch (do* v := callFunction m $"get_bb_uid" [] in ret (as_string v))
                        (λ _, ret None) in
            do* _ := match bb with
                     | None | Some [] => ret tt
                     | Some b => modify (λ w, w <| uidModel_ ::= λ u, u <| backboneUid := Some b |> |>)
                     end in
            do* _ := modify (λ w, w <| uidModel_ ::= λ u,
                       u <| um_autoTrustBackbone := autoTrustBackbone_ (config_ w) |> |>) in
            do* w := get in
            modify (on_obj (λ o, o <| uid_ := Some rootStr |> <| euid_ := Some rootStr |>)
                      (master_ w))
        end
      else ret tt
  | None => ret tt
  end.

Definition loadMasterObject : M world bool :=
  do* w := get in
  do* m := loadObject (masterFile_ (config_ w)) in
  do* _ := modify (λ w, w <| master_ := m |>) in
  match m with
  | Some _ => do* _ := captureBootUids in ret true
  | None => ret false
  end.

Definition loadSimulEfunObject : M world bool :=
  do* w := get in
  match simulEfunFile_ (config_ w) with
  | [] => ret false
  | file =>
      do* o := loadObject file in
      do* _ := modify (λ w, w <| simulEfunObject_ := o |>) in
      ret (non_null o)
  end.
End Manager.

(** ** Destructing *)

Section Destruct.
Context (onDestructed : addr → world → world).

Definition set_shadowedBy (p : option addr) : LpcObject → LpcObject := λ o, o <| shadowedBy_ := p |>.
Definition set_shadowing (p : option addr) : LpcObject → LpcObject := λ o, o <| shadowing_ := p |>.

(** The splice out of the shadow chain; [below] is what [obj] shadows and
    [above] what shadows it. *)
Definition splice (obj : addr) (below above : option addr) (w : world) : world :=
  upd_obj (λ o, set_shadowedBy None (set_shadowing None o)) obj
    (on_obj (set_shadowing below) above (on_obj (set_shadowedBy above) below w)).

(** The object stops snooping. *)
Definition stop_snooping (obj : addr) (w : world) : world :=
  let victim := match objects w !! obj with Some o => wlock w (snooping_ o) | None => None end in
  upd_obj (λ o, o <| snooping_ := None |>) obj (on_obj (λ o, o <| snoopedBy_ := None |>) victim w).

(** The object leaves its environment's inventory. *)
Definition leave_environment (obj : addr) (w : world) : world :=
  let env := match objects w !! obj with Some o => wlock w (environment_ o) | None => None end in
  upd_obj (λ o, o <| environment_ := None |>) obj
    (on_obj (λ o, o <| inventory_ ::= filter (λ a, a ≠ obj) |>) env w).

Definition mark_destructed (obj : addr) (w : world) : world :=
  upd_obj (λ o, o <| destructed_ := true |> <| replacedProgramName_ := None |>) obj w.

Definition unregister (obj : addr) (w : world) : world :=
  w <| livingNames ::= LivingNameRegistry.remove (objects w) (Some obj) |>
    <| liveObjects ::= LiveObjectRegistry.remove (objects w) (Some obj) |>.

(** The manager drops its own references, by file name and by pointer. *)
Definition forget (obj : addr) (w : world) : world :=
  let name := match objects w !! obj with Some o => filename_ o | None => [] end in
  w <| loaded_ ::= delete name |> <| restoredObjects_ ::= filter (λ a, a ≠ obj) |>.

(** The steps after the shadow chain is dealt with. *)
Definition destruct_alone (obj : addr) (w : world) : world :=
  forget obj (leave_environment obj (unregister obj
    (mark_destructed obj (stop_snooping obj (onDestructed obj w))))).

(** The last object of a shadow chain. *)
Fixpoint chain_top (fuel : nat) (w : world) (a : addr) : result addr :=
  match fuel with
  | O => OutOfFuel
  | S f =>
      let* o := deref (objects w !! a) in
      match wlock w (shadowedBy_ o) with
      | Some b => chain_top f w b
      | None => Ok a
      end
  end.

(** [destructObject] and the loop over the chain of the object's shadows,
    from the top down. *)
Fixpoint destructObject (fuel : nat) (w : world) (obj : addr) {struct fuel} : result world :=
  match fuel with
  | O => OutOfFuel
  | S f =>
      let* o := deref (objects w !! obj) in
      if destructed_ o then Ok w else
      let above := wlock w (shadowedBy_ o) in
      let below := wlock w (shadowing_ o) in
      match above, below with
      | Some a, None => let* top := chain_top f w a in destruct_chain f w top
      | _, _ => Ok (destruct_alone obj (splice obj below above w))
      end
  end
with destruct_chain (fuel : nat) (w : world) (top : addr) {struct fuel} : result world :=
  match fuel with
  | O => OutOfFuel
  | S f =>
      let* o := deref (objects w !! top) in
      let below := wlock w (shadowing_ o) in
      let w := upd_obj (set_shadowing None) top (on_obj (set_shadowedBy None) below w) in
      let* w := destructObject f w top in
      match below with
      | Some b => destruct_chain f w b
      | None => Ok w
      end
  end.

(** [reloadObject]'s loop destructs the shadows from the bottom up. *)
Fixpoint destruct_shadows (fuel : nat) (w : world) (cur : addr) : result world :=
  match fuel with
  | O => OutOfFuel
  | S f =>
      let* o := deref (objects w !! cur) in
      let next := wlock w (shadowedBy_ o) in
      let w := upd_obj (λ o, set_shadowedBy None (set_shadowing None o)) cur w in
      let* w := destructObject f w cur in
      match next with
      | Some n => destruct_shadows f w n
      | None => Ok w
      end
  end.

Definition reload_unlink (fuel : nat) (obj : addr) (w : world) : result world :=
  let w := upd_obj (λ o, o <| variables_ ::= map (λ _, mk (VInt 0)) |>) obj w in
  let* o := deref (objects w !! obj) in
  let above := wlock w (shadowedBy_ o) in
  let below := wlock w (shadowing_ o) in
  let* w := match above, below with
            | Some a, None => destruct_shadows fuel w a
            | _, _ => Ok (on_obj (set_shadowing below) above (on_obj (set_shadowedBy above) below w))
            end in
  let w := upd_obj (λ o, set_shadowedBy None (set_shadowing None o)) obj w in
  Ok (w <| livingNames ::= LivingNameRegistry.remove (objects w) (Some obj) |>).
End Destruct.

Definition retainRestoredObjects (objs : list addr) (w : world) : world :=
  w <| restoredObjects_ ::= λ l, l ++ objs |>.

Section Reload.
Context `{VM} (onDestructed : addr → world → world) (fuel : nat).

Definition reloadObject (obj : addr) : M world unit :=
  do* w := get in
  do* w := lift (reload_unlink onDestructed fuel obj w) in
  do* _ := modify (λ _, w) in
  do* _ :=
    if vm_ w then
      try_catch
        (do* o := lift (deref (objects w !! obj)) in
         do* _ := runObjectVarInitializers fuel obj (program_ o) in
         do* w := get in
         if flag_of (λ o, negb (destructed_ o)) (objects w) obj then
           do* _ := callFunction obj $"create" [] in ret tt
         else ret tt)
        (λ _, ret tt)
    else ret tt in
  modify (armResetAndCleanup obj).
End Reload.

(** The destructor of the last manager. *)
Definition teardown (w : world) : world :=
  let '(os, live) := LiveObjectRegistry.releaseAll (objects w) (liveObjects w) in
  w <| loaded_ := ∅ |> <| restoredObjects_ := [] |> <| programCache_ := ∅ |>
    <| programSource_ := ∅ |> <| compiling_ := ∅ |> <| virtualCompiling_ := ∅ |>
    <| master_ := None |> <| simulEfunObject_ := None |>
    <| objects := os |> <| liveObjects := live |>.

(** ** Compilation ends *)

(** Cached programs exist. *)
Definition cache_ok (w : world) : Prop :=
  map_Forall (λ _ p, is_Some (programs w !! p)) (programCache_ w).

(** What compiling leaves alone. *)
Definition compile_frame (w w' : world) : Prop :=
  compiling_ w' = compiling_ w ∧ files w' = files w ∧ loaded_ w' = loaded_ w ∧
  objects w' = objects w ∧ vm_ w' = vm_ w ∧ master_ w' = master_ w ∧
  config_ w' = config_ w ∧ clock w' = clock w ∧ liveObjects w' = liveObjects w ∧
  programs w ⊆ programs w'.

#[export] Instance compile_frame_preorder : PreOrder compile_frame.
Proof.
  split; unfold compile_frame.
  - intros w. by split_and!.
  - intros w1 w2 w3 H1 H2. destruct_and!. split_and!; try congruence. by etrans.
Qed.

(** The files not being compiled yet: what the recursion can still enter. *)
Definition uncompiled (w : world) : nat := base.size (dom (files w) ∖ compiling_ w).

(** It ends, and an exception that escapes is one of staging this file. *)
Definition compile_ends (frontend : Frontend) (filename text : bytes) (r : result (option addr)) : Prop :=
  (∃ o, r = Ok o) ∨ ∃ e, r = Throw e ∧ stage frontend filename text = inl e.

Definition compiled_ok (frontend : Frontend) (filename : bytes) (w : world) (m : M world (option addr)) : Prop :=
  ∃ r w', m w = (r, w') ∧ cache_ok w' ∧ compile_frame w w' ∧
    ((∃ o, r = Ok o) ∨ ∃ e text, r = Throw e ∧ files w !! filename = Some text ∧ stage frontend filename text = inl e) ∧
    ∀ p, r = Ok (Some p) → is_Some (programs w' !! p) ∧ programCache_ w' !! filename = Some p
                       ∧ ∀ text, files w !! filename = Some text →
                           programSource_ w' !! filename = Some text.

Section CompileProofs.
Context (frontend : Frontend).

Lemma frame_uncompiled w w' : compile_frame w w' → uncompiled w' = uncompiled w.
Proof. intros (Hc & Hf & _). unfold uncompiled. by rewrite Hc, Hf. Qed.

Lemma uncompiled_enter w f :
  f ∈ dom (files w) → f ∉ compiling_ w →
  (uncompiled (w <| compiling_ ::= union {[f]} |>) < uncompiled w)%nat.
Proof. intros Hf Hc. unfold uncompiled. apply subset_size. simpl. set_solver. Qed.

Lemma compile_parents_ok n rec :
  (∀ w path, (uncompiled w < n)%nat → cache_ok w →
     compiled_ok frontend (normalizeFilename path) w (rec path)) →
  ∀ paths w parents names offsets, (uncompiled w < n)%nat → cache_ok w →
  ∃ r w', compile_parents rec paths parents names offsets w = (r, w')
    ∧ cache_ok w' ∧ compile_frame w w' ∧ ((∃ o, r = Ok o) ∨ ∃ e, r = Throw e).
Proof.
  intros Hrec paths. induction paths as [|path paths IH]; intros w parents names offsets Hn Hw.
  { exists (Ok (Some (parents, names, offsets))), w. split_and!; try done. left. by eexists. }
  destruct (Hrec w path Hn Hw) as (r & w1 & Hr & Hw1 & Hf1 & Hends & Hp).
  cbn [compile_parents]. unfold bind at 1. rewrite Hr.
  destruct Hends as [[[p|] ->]|(e & text & -> & _)]; [|exists (Ok None), w1; split_and!; try done; left; by eexists
     |exists (Throw e), w1; split_and!; try done; right; by eexists].
  destruct (Hp p eq_refl) as ([prog Hprog] & _). unfold bind, get. rewrite Hprog.
  match goal with |- context [compile_parents rec paths ?a ?b ?c w1] =>
    destruct (IH w1 a b c) as (r2 & w2 & H2 & Hw2 & Hf2 & He2) end;
    [by rewrite (frame_uncompiled _ _ Hf1)|done|].
  exists r2, w2. split_and!; [done|done|by etrans|done].
Qed.

(** The cache decides: no source, or the source it was compiled from. *)
Lemma compile_hit f w p :
  programCache_ w !! normalizeFilename f = Some p →
  (files w !! normalizeFilename f = None ∨
   ∃ text, files w !! normalizeFilename f = Some text ∧
           programSource_ w !! normalizeFilename f = Some text) →
  ∀ n, compile frontend (S n) f w = (Ok (Some p), w).
Proof.
  intros Hp Hs n. cbn [compile]. unfold bind at 1, get. rewrite Hp.
  destruct Hs as [->|(text & -> & ->)]; [done|]. by rewrite bool_decide_true.
Qed.

(** Leaving the set of files being compiled restores it. *)
Lemma leave_compiling w w1 f :
  f ∉ compiling_ w → compile_frame (w <| compiling_ ::= union {[f]} |>) w1 →
  compile_frame w (w1 <| compiling_ ::= λ c, c ∖ {[f]} |>).
Proof.
  intros Hf H. unfold compile_frame in *. simpl in *. destruct_and!. split_and!; try done.
  set_solver.
Qed.

Lemma store_program w prog p w1 f text :
  cache_ok w → alloc_program prog w = (p, w1) →
  let w2 := w1 <| programCache_ ::= <[f := p]> |> <| programSource_ ::= <[f := text]> |> in
  cache_ok w2 ∧ compile_frame w w2 ∧ is_Some (programs w2 !! p).
Proof.
  intros Hw [= <- <-]. unfold cache_ok, compile_frame. simpl.
  assert (programs w ⊆ <[fresh (dom (programs w)) := prog]> (programs w)) as Hs.
  { apply insert_subseteq, not_elem_of_dom, is_fresh. }
  split_and!; try done; [|by rewrite lookup_insert_eq].
  apply map_Forall_insert_2; [by rewrite lookup_insert_eq|].
  eapply map_Forall_impl; [exact Hw|]. intros ? q [o Hq]. exists o. by eapply lookup_weaken.
Qed.

(** The body of a compilation that is not answered by the cache. *)
Definition body_ok (filename text : bytes) (w : world) (m : M world (option addr)) : Prop :=
  ∃ r w', m w = (r, w') ∧ cache_ok w' ∧ compile_frame w w' ∧ compile_ends frontend filename text r ∧
    ∀ p, r = Ok (Some p) → is_Some (programs w' !! p) ∧ programCache_ w' !! filename = Some p
                       ∧ programSource_ w' !! filename = Some text.

Lemma body_none filename text w : cache_ok w → body_ok filename text w (ret None).
Proof. intros Hw. exists (Ok None), w. split_and!; try done. by left; eexists. Qed.

Lemma compile_program_ok n w filename text pre :
  (∀ w path, (uncompiled w < n)%nat → cache_ok w →
     compiled_ok frontend (normalizeFilename path) w (compile frontend n path)) →
  (uncompiled w < n)%nat → cache_ok w →
  body_ok filename text w (try_catch (compile_program frontend (compile frontend n) filename text pre) (λ _, ret None)).
Proof.
  intros Hrec Hn Hw. unfold try_catch, compile_program. unfold body_ok. unfold bind at 1, lift.
  destruct (parse frontend pre) as [e|[paths generate]]; cbn [from_sum]; [by apply body_none|].
  destruct (compile_parents_ok n (compile frontend n) Hrec paths w [] [] ∅ Hn Hw)
    as (r & w1 & H1 & Hw1 & Hf1 & He1).
  unfold bind at 1. rewrite H1.
  assert (∀ r2, r2 = Ok None → ∃ r' w', (r2, w1) = (r', w') ∧ cache_ok w' ∧ compile_frame w w' ∧
    compile_ends frontend filename text r' ∧ ∀ p, r' = Ok (Some p) → is_Some (programs w' !! p) ∧
      programCache_ w' !! filename = Some p ∧ programSource_ w' !! filename = Some text) as Hnone.
  { intros r2 ->. exists (Ok None), w1. split_and!; try done. by left; eexists. }
  destruct He1 as [[[[[parents names] offsets]|] ->]|[e ->]]; [|by apply Hnone..].
  unfold bind at 1, lift. destruct (generate names) as [e|vars]; cbn [from_sum]; [by apply Hnone|].
  unfold bind, get, modify, ret. destruct (alloc_program _ w1) as [p w2] eqn:E.
  eapply (store_program _ _ _ _ filename text) in E as (Hw3 & Hf3 & Hp); [|done].
  eexists _, _. split; [reflexivity|]. split_and!; [done|by etrans|by left; eexists|].
  intros q [= <-]. simpl. by rewrite !lookup_insert_eq.
Qed.

Lemma compile_miss_ok n w filename text :
  (∀ w path, (uncompiled w < n)%nat → cache_ok w →
     compiled_ok frontend (normalizeFilename path) w (compile frontend n path)) →
  (uncompiled w < n)%nat → cache_ok w →
  body_ok filename text w (compile_source frontend (compile frontend n) filename text).
Proof.
  intros Hrec Hn Hw. unfold body_ok, compile_source, bind, lift.
  destruct (stage frontend filename text) as [e|[pre|]] eqn:Es; cbn [from_sum].
  - exists (Throw e), w. split_and!; try done. right. by exists e.
  - by apply (compile_program_ok n w filename text pre).
  - by apply body_none.
Qed.

Lemma compile_ok n w f :
  (uncompiled w < n)%nat → cache_ok w →
  compiled_ok frontend (normalizeFilename f) w (compile frontend n f).
Proof.
  revert w f. induction n as [|n IH]; intros w f Hn Hw; [lia|].
  unfold compiled_ok. cbn [compile]. unfold bind at 1, get.
  set (filename := normalizeFilename f).
  destruct (match programCache_ w !! filename with Some _ => _ | None => _ end)
    as [p|] eqn:Ehit.
  { exists (Ok (Some p)), w. split_and!; [done|done|done|by left; eexists|]. intros q [= <-].
    destruct (programCache_ w !! filename) as [p'|] eqn:Ec; [|done].
    assert (is_Some (programs w !! p')) by by eapply Hw.
    destruct (files w !! filename); [|by simplify_eq]. case_bool_decide; naive_solver. }
  assert (∃ r w', ret None w = (r, w') ∧ cache_ok w' ∧ compile_frame w w' ∧ ((∃ o, r = Ok o) ∨ ∃ e text, r = Throw e ∧
    files w !! filename = Some text ∧ stage frontend filename text = inl e) ∧ ∀ p : addr, r = Ok (Some p) →
    is_Some (programs w' !! p) ∧ programCache_ w' !! filename = Some p ∧ ∀ text, files w !! filename = Some text →
    programSource_ w' !! filename = Some text) as Hnone.
  { exists (Ok None), w. split_and!; try done. by left; eexists. }
  clear Ehit. case_bool_decide as Hin; [exact Hnone|].
  destruct (files w !! filename) as [text|] eqn:Es; [|exact Hnone]. clear Hnone.
  set (w1 := w <| compiling_ ::= union {[filename]} |>).
  assert (Hn1 : (uncompiled w1 < n)%nat).
  { enough (uncompiled w1 < uncompiled w)%nat by lia. apply uncompiled_enter; [|done].
    apply elem_of_dom. eauto. }
  destruct (compile_miss_ok n w1 filename text IH Hn1 Hw) as (r & w2 & H2 & Hw2 & Hf2 & He & Hp).
  unfold in_progress. fold w1. rewrite H2. eexists r, _. split; [reflexivity|].
  split_and!; [done|by apply leave_compiling| |].
  - destruct He as [?|(e & -> & He)]; [by left|right]. by exists e, text.
  - intros p Hr. simpl. destruct (Hp p Hr) as (? & ? & ?). split_and!; [done|done|]. naive_solver.
Qed.
End CompileProofs.

(** ** Destructing: what an object's identity keeps

    The steps of a destruct touch many fields; the [core] of an object is the
    part that decides who is destructed, and every step is an update of it. *)

Record core := mkCore {
  c_filename : bytes;
  c_destructed : bool;
  c_shadowedBy : option addr;
  c_shadowing : option addr;
  c_variables : list value;
  c_isClone : bool;
}.

#[export] Instance eta_core : Eta core := λ c,
  mkCore (c_filename c) (c_destructed c) (c_shadowedBy c) (c_shadowing c) (c_variables c)
    (c_isClone c).

Definition core_of (o : LpcObject) : core :=
  mkCore (filename_ o) (destructed_ o) (shadowedBy_ o) (shadowing_ o) (variables_ o) (isClone_ o).

Definition cores (w : world) : gmap addr core := core_of <$> objects w.

Definition unlink (c : core) : core := c <| c_shadowing := None |> <| c_shadowedBy := None |>.
Definition die (c : core) : core := unlink c <| c_destructed := true |>.

(** A callback that closes sockets does not touch the object layer.  (It
    cannot raise: what the [on_destruct] apply of an object throws is caught in
    [VM::destructObject].  An apply that changes objects is excluded.) *)
Definition callback_ok (cb : addr → world → world) : Prop := ∀ a w,
  objects (cb a w) = objects w ∧ livingNames (cb a w) = livingNames w ∧
  liveObjects (cb a w) = liveObjects w ∧ loaded_ (cb a w) = loaded_ w ∧
  restoredObjects_ (cb a w) = restoredObjects_ w.

Lemma cores_upd f g a w :
  (∀ o, core_of (f o) = g (core_of o)) → cores (upd_obj f a w) = alter g a (cores w).
Proof.
  intros Hfg. unfold cores, upd_obj, upd. simpl. apply map_eq. intros b.
  destruct (decide (a = b)) as [->|Hab].
  - rewrite lookup_fmap, !lookup_alter_eq, lookup_fmap. destruct (objects w !! b); simpl; [|done].
    by rewrite Hfg.
  - by rewrite lookup_fmap, !lookup_alter_ne, lookup_fmap.
Qed.

Lemma cores_upd_id f a w : (∀ o, core_of (f o) = core_of o) → cores (upd_obj f a w) = cores w.
Proof.
  intros Hf. rewrite (cores_upd f id) by done. apply map_eq. intros b.
  destruct (decide (a = b)) as [->|]; [rewrite lookup_alter_eq|by rewrite lookup_alter_ne].
  by destruct (cores w !! b).
Qed.

Lemma cores_on_obj_id f p w : (∀ o, core_of (f o) = core_of o) → cores (on_obj f p w) = cores w.
Proof. intros Hf. destruct p; [|done]. by apply cores_upd_id. Qed.

Lemma cores_lookup w a c : cores w !! a = Some c ↔ ∃ o, objects w !! a = Some o ∧ c = core_of o.
Proof. unfold cores. rewrite lookup_fmap. destruct (objects w !! a); naive_solver. Qed.

Lemma cores_forget a w : cores (forget a w) = cores w.
Proof. reflexivity. Qed.
Lemma cores_unregister a w : cores (unregister a w) = cores w.
Proof. reflexivity. Qed.

Section DestructProofs.
Context (cb : addr → world → world) (Hcb : callback_ok cb).

Lemma cores_destruct_alone a w :
  cores (destruct_alone cb a w) = alter (λ c, c <| c_destructed := true |>) a (cores w).
Proof.
  unfold destruct_alone. rewrite cores_forget.
  unfold leave_environment. rewrite cores_upd_id, cores_on_obj_id by done.
  rewrite cores_unregister.
  unfold mark_destructed. rewrite (cores_upd _ (λ c, c <| c_destructed := true |>)) by done.
  unfold stop_snooping. rewrite cores_upd_id, cores_on_obj_id by done.
  f_equal. unfold cores. by destruct (Hcb a w) as [-> _].
Qed.

Lemma cores_destruct_single a w :
  cores (destruct_alone cb a (splice a None None w)) = alter die a (cores w).
Proof.
  rewrite cores_destruct_alone. unfold splice. simpl. rewrite (cores_upd _ unlink) by done.
  apply map_eq. intros b.
  destruct (decide (a = b)) as [->|]; [rewrite !lookup_alter_eq|by rewrite !lookup_alter_ne].
  by destruct (cores w !! b).
Qed.

(** Links of a chain, from the top object down to the base. *)
Fixpoint tower (cs : gmap addr core) (l : list addr) : Prop :=
  match l with
  | [] => True
  | t :: r =>
      (∃ c, cs !! t = Some c ∧ c_destructed c = false ∧ c_shadowing c = head r) ∧ tower cs r
  end.

Lemma tower_ext cs cs' l :
  (∀ a, a ∈ l → (λ c, (c_destructed c, c_shadowing c)) <$> cs' !! a
                = (λ c, (c_destructed c, c_shadowing c)) <$> cs !! a) →
  tower cs l → tower cs' l.
Proof.
  induction l as [|t r IH]; [done|]. intros Heq [(c & Hc & Hd & Hs) Ht]. split.
  - specialize (Heq t ltac:(set_solver)). rewrite Hc in Heq.
    destruct (cs' !! t) as [c'|]; [|done]. simpl in Heq. injection Heq as H1 H2.
    exists c'. split_and!; congruence.
  - apply IH; [|done]. intros a Ha. apply Heq. set_solver.
Qed.

Lemma wlock_alive w a : is_Some (cores w !! a) → wlock w (Some a) = Some a.
Proof.
  intros [c Hc]. apply cores_lookup in Hc as (o & Ho & _). apply lock_alive. by rewrite Ho.
Qed.

(** One object whose links are cleared already, or that nothing shadows. *)
Lemma destructObject_single f w a c :
  cores w !! a = Some c → c_destructed c = false → c_shadowedBy c = None →
  c_shadowing c = None →
  ∃ w', destructObject cb (S f) w a = Ok w' ∧ cores w' = alter die a (cores w).
Proof.
  intros Hc Hd Hb Hs. apply cores_lookup in Hc as (o & Ho & ->). simpl in *.
  cbn [destructObject]. rewrite Ho. simpl. rewrite Hd, Hb, Hs. simpl.
  eexists. split; [reflexivity|]. apply cores_destruct_single.
Qed.

Definition died (l : list addr) (cs cs' : gmap addr core) : Prop :=
  ∀ a, cs' !! a = if bool_decide (a ∈ l) then die <$> cs !! a else cs !! a.

(** One round of the loop: the links of [t] and to [t] are cleared, then [t]
    is destructed. *)
Definition cut (t : addr) (below : option addr) (w : world) : world :=
  upd_obj (set_shadowing None) t (on_obj (set_shadowedBy None) below w).

Definition cut_core (b : option addr) (a : addr) (c : core) : core :=
  if bool_decide (b = Some a) then c <| c_shadowedBy := None |> else c.

Lemma destruct_round f w t below c :
  cores w !! t = Some c → c_destructed c = false → c_shadowedBy c = None →
  below ≠ Some t →
  ∃ w', destructObject cb (S f) (cut t below w) t = Ok w' ∧
    ∀ a, cores w' !! a = (if decide (a = t) then die else cut_core below a) <$> cores w !! a.
Proof.
  intros Hc Hd Hb Hne. unfold cut.
  assert (Hcut : ∀ a, cores (on_obj (set_shadowedBy None) below w) !! a
                      = cut_core below a <$> cores w !! a).
  { intros a. unfold cut_core. destruct below as [b|]; simpl.
    - rewrite (cores_upd _ (λ c, c <| c_shadowedBy := None |>)) by done.
      destruct (decide (b = a)) as [->|].
      + rewrite bool_decide_true by done. by rewrite lookup_alter_eq.
      + rewrite bool_decide_false by congruence. rewrite lookup_alter_ne by done.
        by destruct (cores w !! a).
    - by destruct (cores w !! a). }
  set (w1 := on_obj _ _ _) in *.
  assert (Ht : cores w1 !! t = Some c).
  { rewrite Hcut, Hc. simpl. unfold cut_core. by rewrite bool_decide_false. }
  destruct (destructObject_single f (upd_obj (set_shadowing None) t w1) t
              (c <| c_shadowing := None |>)) as (w' & -> & Hw'); try done.
  { rewrite (cores_upd _ (λ c, c <| c_shadowing := None |>)) by done.
    by rewrite lookup_alter_eq, Ht. }
  exists w'. split; [done|]. intros a. rewrite Hw'.
  rewrite (cores_upd _ (λ c, c <| c_shadowing := None |>)) by done.
  destruct (decide (a = t)) as [->|].
  - rewrite !lookup_alter_eq, Ht, Hc. done.
  - rewrite !lookup_alter_ne by done. apply Hcut.
Qed.

(** The loop over the chain kills its objects and no other. *)
Lemma destruct_chain_tower l : ∀ w t f,
  tower (cores w) (t :: l) → NoDup (t :: l) →
  (∀ c, cores w !! t = Some c → c_shadowedBy c = None) → (S (S (length l)) ≤ f)%nat →
  ∃ w', destruct_chain cb f w t = Ok w' ∧ died (t :: l) (cores w) (cores w').
Proof.
  induction l as [|b l IH]; intros w t f [(c & Hc & Hd & Hs) Ht] Hnd Htop Hf;
    (destruct f as [|[|f]]; [simpl in Hf; lia|simpl in Hf; lia|]);
    pose proof (Htop c Hc) as Hb; pose proof Hc as Ho;
    apply cores_lookup in Ho as (o & Ho & ->);
    cbn [destruct_chain]; rewrite Ho; cbn [deref rbind]; simpl in Hs; rewrite Hs.
  - destruct (destruct_round f w t None _ Hc Hd Hb) as (w' & Hw' & Hcs); [done|].
    unfold cut in Hw'. simpl in Hw'. simpl. rewrite Hw'. simpl.
    exists w'. split; [done|]. intros a. rewrite Hcs. unfold cut_core. simpl.
    destruct (decide (a = t)) as [->|].
    + by rewrite bool_decide_true by set_solver.
    + rewrite bool_decide_false by set_solver. by destruct (cores w !! a).
  - apply NoDup_cons in Hnd as [Htb Hnd].
    assert (b ≠ t) by set_solver.
    destruct (destruct_round f w t (Some b) _ Hc Hd Hb) as (w1 & Hw1 & Hcs); [congruence|].
    destruct Ht as [(cb' & Hcb' & Hrest) Ht].
    rewrite wlock_alive by eauto. unfold cut in Hw1.
    rewrite Hw1. cbn [rbind].
    destruct (IH w1 b (S f)) as (w' & Hw' & Hdied); [| |..].
    + eapply tower_ext; [|split; [by exists cb'|exact Ht]]. intros a Ha. rewrite Hcs.
      rewrite decide_False by set_solver. unfold cut_core.
      destruct (cores w !! a); simpl; [|done]. by case_bool_decide.
    + done.
    + intros c0. rewrite Hcs, decide_False, Hcb' by done. simpl. unfold cut_core.
      rewrite bool_decide_true by done. by intros [= <-].
    + simpl in *. lia.
    + exists w'. split; [done|]. intros a. rewrite Hdied, Hcs. unfold cut_core.
      destruct (decide (a = t)) as [->|].
      * rewrite bool_decide_false by done. by rewrite bool_decide_true by set_solver.
      * rewrite (bool_decide_ext (a ∈ t :: b :: l) (a ∈ b :: l)) by set_solver.
        destruct (cores w !! a); [|by case_bool_decide]. simpl.
        case_bool_decide; [by case_bool_decide|]. by rewrite bool_decide_false by set_solver.
Qed.

(** A stretch of a shadow chain, the base first: each object is shadowed by
    the next; [below] and [above] are its neighbours outside the stretch. *)
Fixpoint chain (cs : gmap addr core) (below : option addr) (l : list addr) (above : option addr)
  : Prop :=
  match l with
  | [] => True
  | a :: r =>
      (∃ c, cs !! a = Some c ∧ c_destructed c = false ∧ c_shadowing c = below
            ∧ c_shadowedBy c = union (head r) above)
      ∧ chain cs (Some a) r above
  end.

Lemma chain_tower cs l : ∀ below above acc,
  chain cs below l above → tower cs acc → head acc = below → tower cs (reverse l ++ acc).
Proof.
  induction l as [|a r IH]; intros below above acc Hl Hacc Hh; [done|].
  destruct Hl as [(c & Hc & Hd & Hs & _) Hr]. rewrite reverse_cons, <- app_assoc.
  apply (IH (Some a) above); [done| |done]. simpl. split; [|done]. exists c. by rewrite Hh.
Qed.

Lemma chain_app cs l1 l2 below above :
  chain cs below (l1 ++ l2) above ↔
  chain cs below l1 (union (head l2) above) ∧ chain cs (union (last l1) below) l2 above.
Proof.
  revert below. induction l1 as [|a l1 IH]; intros below.
  - simpl. destruct below; simpl; tauto.
  - cbn [app chain]. rewrite IH.
    replace (union (last (a :: l1)) below) with (union (last l1) (Some a))
      by (rewrite last_cons; by destruct (last l1), below).
    replace (union (head (l1 ++ l2)) above) with (union (head l1) (union (head l2) above))
      by (destruct l1, l2, above; reflexivity).
    tauto.
Qed.

(** Nothing shadows the last object. *)
Lemma chain_top_free w l t c :
  chain (cores w) None l None → last l = Some t → cores w !! t = Some c → c_shadowedBy c = None.
Proof.
  intros Hch Hl Hc. apply last_Some in Hl as [l' ->].
  apply chain_app in Hch as [_ [(c' & Hc' & _ & _ & Hb) _]]. by simplify_eq/=.
Qed.

Lemma chain_top_last w l : ∀ below a f, chain (cores w) below (a :: l) None →
  (length l < f)%nat → chain_top f w a = Ok (default a (last l)).
Proof.
  induction l as [|b l IH]; intros below a f [(c & Hc & Hd & Hs & Hb) Hr] Hf;
    (destruct f as [|f]; [simpl in Hf; lia|]);
    pose proof Hc as Ho; apply cores_lookup in Ho as (o & Ho & ->);
    cbn [chain_top]; rewrite Ho; cbn [deref rbind].
  { by replace (shadowedBy_ o) with (@None addr). }
  replace (shadowedBy_ o) with (Some b) by done.
  rewrite wlock_alive by (destruct Hr as [(? & ? & _) _]; eauto).
  rewrite (IH (Some a)) by (done || (simpl in Hf; lia)). rewrite last_cons.
  by destruct (last l).
Qed.

Lemma destruct_whole_chain w base l f :
  chain (cores w) None (base :: l) None → NoDup (base :: l) → (length l + 3 ≤ f)%nat →
  ∃ w', destructObject cb f w base = Ok w' ∧ died (base :: l) (cores w) (cores w').
Proof.
  intros Hch Hnd Hf. destruct f as [|f]; [lia|].
  pose proof Hch as [(c & Hc & Hd & Hs & Hb) Hr]. destruct l as [|b l].
  - destruct (destructObject_single f w base c Hc Hd Hb Hs) as (w' & Hw' & Hcs).
    exists w'. split; [done|]. intros a. rewrite Hcs.
    destruct (decide (a = base)) as [->|].
    + rewrite lookup_alter_eq. by rewrite bool_decide_true by set_solver.
    + rewrite lookup_alter_ne by done. by rewrite bool_decide_false by set_solver.
  - pose proof Hc as Ho. apply cores_lookup in Ho as (o & Ho & ->). simpl in Hd, Hs, Hb.
    cbn [destructObject]. rewrite Ho. cbn [deref rbind].
    rewrite Hd, Hs. replace (shadowedBy_ o) with (Some b) by done.
    rewrite wlock_alive by (destruct Hr as [(? & ? & _) _]; eauto). cbn [wlock lock].
    rewrite (chain_top_last w l (Some base)); [|exact Hr|simpl in Hf; lia]. cbn [rbind].
    pose proof (chain_tower _ _ _ _ [] Hch I eq_refl) as Ht. rewrite app_nil_r in Ht.
    destruct (reverse (base :: b :: l)) as [|t r] eqn:Er;
      [by apply (f_equal length) in Er; rewrite length_reverse in Er|].
    assert (Hlast : last (base :: b :: l) = Some t).
    { rewrite <- (reverse_involutive (base :: b :: l)), Er, reverse_cons. apply last_snoc. }
    rewrite !last_cons in Hlast.
    replace (default b (last l)) with t by (destruct (last l); simpl in *; congruence).
    assert (Hlen : length (t :: r) = length (base :: b :: l)) by by rewrite <- Er, length_reverse.
    destruct (destruct_chain_tower r w t f) as (w' & Hw' & Hdied).
    + done.
    + rewrite <- Er. by rewrite reverse_Permutation.
    + intros c' Hc'. apply (chain_top_free w (base :: b :: l) t c' Hch); [|done].
      by rewrite !last_cons.
    + simpl in *. lia.
    + exists w'. split; [done|]. intros a. rewrite Hdied.
      rewrite (bool_decide_ext (a ∈ t :: r) (a ∈ base :: b :: l)); [done|].
      rewrite <- Er. by rewrite reverse_Permutation.
Qed.

Lemma chain_ext cs cs' l below above :
  (∀ a, a ∈ l → cs' !! a = cs !! a) → chain cs below l above → chain cs' below l above.
Proof.
  revert below. induction l as [|a l IH]; intros below Heq; [done|].
  intros [(c & Hc & H) Hr]. split.
  - exists c. rewrite Heq by set_solver. done.
  - apply IH; [|done]. intros. apply Heq. set_solver.
Qed.

(** The cores after an object between two others is destructed. *)
Lemma cores_splice_destruct w a b above x :
  a ≠ b → above ≠ Some a → above ≠ Some b →
  cores (destruct_alone cb a (splice a (Some b) above w)) !! x =
  (if decide (x = a) then die
   else if decide (x = b) then λ c, c <| c_shadowedBy := above |>
   else if decide (above = Some x) then λ c, c <| c_shadowing := Some b |>
   else id) <$> cores w !! x.
Proof.
  intros Hab Haa Hbb. rewrite cores_destruct_alone. unfold splice.
  rewrite (cores_upd _ unlink) by done.
  assert (Hup : ∀ x, cores (on_obj (set_shadowing (Some b)) above
                       (on_obj (set_shadowedBy above) (Some b) w)) !! x =
    (if decide (x = b) then λ c, c <| c_shadowedBy := above |>
     else if decide (above = Some x) then λ c, c <| c_shadowing := Some b |>
     else id) <$> cores w !! x).
  { intros y. pose proof (cores_upd (set_shadowedBy above) (λ c, c <| c_shadowedBy := above |>)
      b w (λ o, eq_refl)) as Hb0. cbn [on_obj].
    destruct above as [d|]; cbn [on_obj];
      [rewrite (cores_upd _ (λ c, c <| c_shadowing := Some b |>)) by done|]; rewrite Hb0.
    - destruct (decide (y = d)) as [->|].
      + rewrite lookup_alter_eq, lookup_alter_ne by congruence.
        rewrite decide_False by congruence. by rewrite decide_True.
      + rewrite lookup_alter_ne by done. rewrite (decide_False (P := Some d = Some y)) by congruence.
        destruct (decide (y = b)) as [->|]; [by rewrite lookup_alter_eq|].
        rewrite lookup_alter_ne by done. by destruct (cores w !! y).
    - rewrite (decide_False (P := None = Some y)) by done.
      destruct (decide (y = b)) as [->|]; [by rewrite lookup_alter_eq|].
      rewrite lookup_alter_ne by done. by destruct (cores w !! y). }
  destruct (decide (x = a)) as [->|].
  - rewrite !lookup_alter_eq, Hup. rewrite !decide_False by done. by destruct (cores w !! a).
  - rewrite !lookup_alter_ne by done. apply Hup.
Qed.

Lemma destruct_spliced w f l1 b a l2 :
  chain (cores w) None (l1 ++ b :: a :: l2) None → NoDup (l1 ++ b :: a :: l2) →
  ∃ w', destructObject cb (S f) w a = Ok w' ∧ chain (cores w') None (l1 ++ b :: l2) None
    ∧ cores w' !! a = die <$> cores w !! a.
Proof.
  intros Hch Hnd. apply NoDup_app in Hnd as (_ & Hd1 & Hd2).
  apply NoDup_cons in Hd2 as [Hb Hd2]. apply NoDup_cons in Hd2 as [Ha Hd2].
  apply chain_app in Hch as [H1 [(cb' & Hcb' & Hdb & Hsb & Hub) [(c & Hc & Hda & Hsa & Hua) H2]]].
  pose proof Hc as Ho. apply cores_lookup in Ho as (o & Ho & ->).
  assert (Hub2 : union (head l2) None = head l2) by by destruct l2. rewrite Hub2 in Hua.
  simpl in Hda, Hsa, Hua. cbn [destructObject]. rewrite Ho. cbn [deref rbind].
  rewrite Hda, Hsa, Hua. rewrite (wlock_alive w b) by eauto.
  assert (Habove : wlock w (head l2) = head l2).
  { destruct l2 as [|d l2]; [done|]. apply wlock_alive. destruct H2 as [(? & ? & _) _]; eauto. }
  rewrite Habove. exists (destruct_alone cb a (splice a (Some b) (head l2) w)).
  split; [by destruct (head l2)|].
  assert (a ≠ b) by set_solver.
  assert (Hna : head l2 ≠ Some a) by (intros ?%head_Some_elem_of; set_solver).
  assert (Hnb : head l2 ≠ Some b) by (intros ?%head_Some_elem_of; set_solver).
  pose proof (λ x, cores_splice_destruct w a b (head l2) x H Hna Hnb) as Hcs.
  split; [|by rewrite Hcs, decide_True].
  apply chain_app. split.
  - eapply chain_ext; [|exact H1]. intros x Hx. rewrite Hcs.
    assert (x ≠ a ∧ x ≠ b ∧ head l2 ≠ Some x) as (? & ? & ?).
    { specialize (Hd1 x Hx). split_and!; [set_solver|set_solver|].
      intros ?%head_Some_elem_of. set_solver. }
    rewrite !decide_False by done. by destruct (cores w !! x).
  - split.
    + exists (cb' <| c_shadowedBy := head l2 |>). rewrite Hcs, Hcb'.
      rewrite decide_False, decide_True by done. by rewrite Hub2.
    + destruct l2 as [|d l2]; [done|]. destruct H2 as [(cd & Hcd & Hdd & Hsd & Hud) H2]. split.
      * exists (cd <| c_shadowing := Some b |>). rewrite Hcs, Hcd.
        apply not_elem_of_cons in Ha as [Ha _]. apply not_elem_of_cons in Hb as [_ Hb].
        apply not_elem_of_cons in Hb as [Hb _].
        rewrite !decide_False by done. by rewrite decide_True.
      * eapply chain_ext; [|exact H2]. intros x Hx. rewrite Hcs.
        apply NoDup_cons in Hd2 as [Hd2 _].
        assert (x ≠ a ∧ x ≠ b ∧ Some d ≠ Some x) as (? & ? & ?).
        { split_and!; [intros ->|intros ->|intros [= ->]]; [apply Ha|apply Hb|by apply Hd2];
            rewrite ?elem_of_cons; auto. }
        cbn [head]. rewrite !decide_False by done. by destruct (cores w !! x).
Qed.

(** A field no step before [leave_environment] changes. *)
Lemma field_upd {A} (g : LpcObject → A) f a b w :
  (∀ o, g (f o) = g o) → g <$> objects (upd_obj f a w) !! b = g <$> objects w !! b.
Proof.
  intros Hg. unfold upd_obj, upd. simpl. destruct (decide (a = b)) as [->|].
  - rewrite lookup_alter_eq. destruct (objects w !! b); simpl; by rewrite ?Hg.
  - by rewrite lookup_alter_ne.
Qed.

Lemma field_on_obj {A} (g : LpcObject → A) f p b w :
  (∀ o, g (f o) = g o) → g <$> objects (on_obj f p w) !! b = g <$> objects w !! b.
Proof. intros Hg. destruct p; [|done]. by apply field_upd. Qed.

Definition before_leave (a : addr) (below above : option addr) (w : world) : world :=
  unregister a (mark_destructed a (stop_snooping a (cb a (splice a below above w)))).

Definition place (o : LpcObject) : option addr * bytes := (environment_ o, filename_ o).

Lemma place_before_leave a below above w b :
  place <$> objects (before_leave a below above w) !! b = place <$> objects w !! b.
Proof.
  unfold before_leave, mark_destructed, stop_snooping, splice.
  change (objects (unregister a ?x)) with (objects x).
  rewrite !field_upd, field_on_obj by done.
  match goal with |- _ <$> objects (cb a ?x) !! _ = _ => destruct (Hcb a x) as [-> _] end.
  by rewrite field_upd, !field_on_obj by done.
Qed.

Lemma before_leave_alive a below above w b :
  is_Some (objects (before_leave a below above w) !! b) ↔ is_Some (objects w !! b).
Proof.
  rewrite <- (fmap_is_Some place), place_before_leave. apply fmap_is_Some.
Qed.

Lemma leave_environment_inventory a w o e oe :
  objects w !! a = Some o → wlock w (environment_ o) = Some e →
  objects (leave_environment a w) !! e = Some oe → a ∉ inventory_ oe.
Proof.
  intros Ho He. unfold leave_environment. rewrite Ho, He. simpl. intros Hoe.
  assert (Hinv : inventory_ <$> objects (upd_obj (λ o, o <| inventory_ ::= filter (λ x, x ≠ a) |>) e w)
                   !! e = Some (inventory_ oe)).
  { rewrite <- (field_upd inventory_ (λ o, o <| environment_ := None |>) a) by done.
    unfold upd_obj at 1. simpl. by rewrite Hoe. }
  unfold upd_obj, upd in Hinv. simpl in Hinv. rewrite lookup_alter_eq in Hinv.
  destruct (objects w !! e) as [o'|]; [|done]. simpl in Hinv. injection Hinv as <-.
  rewrite list_elem_of_filter. tauto.
Qed.

Lemma wlock_before_leave a below above w p :
  wlock (before_leave a below above w) p = wlock w p.
Proof.
  unfold wlock, lock. destruct p as [b|]; [|done].
  by rewrite (bool_decide_ext _ _ (before_leave_alive a below above w b)).
Qed.

Lemma filename_leave_environment a w b :
  filename_ <$> objects (leave_environment a w) !! b = filename_ <$> objects w !! b.
Proof. unfold leave_environment. by rewrite field_upd, field_on_obj by done. Qed.

(** The registries and tables, which the object updates leave alone. *)
Definition tables (w : world) :=
  (livingNames w, liveObjects w, loaded_ w, restoredObjects_ w).

Lemma tables_on_obj f p w : tables (on_obj f p w) = tables w.
Proof. by destruct p. Qed.

Lemma tables_leave_environment a w :
  livingNames (leave_environment a w) = livingNames w ∧
  liveObjects (leave_environment a w) = liveObjects w ∧
  loaded_ (leave_environment a w) = loaded_ w.
Proof.
  unfold leave_environment. match goal with |- context [on_obj ?f ?p w] =>
    pose proof (tables_on_obj f p w) as Ht; set (w1 := on_obj f p w) in * end.
  unfold tables in Ht. simplify_eq. done.
Qed.

Lemma loaded_before_leave a below above w : loaded_ (before_leave a below above w) = loaded_ w.
Proof.
  unfold before_leave, mark_destructed, stop_snooping. simpl.
  match goal with |- loaded_ (on_obj ?f ?p ?x) = _ =>
    pose proof (f_equal (λ t, snd (fst t)) (tables_on_obj f p x)) as Ht end.
  simpl in Ht. rewrite Ht.
  match goal with |- loaded_ (cb a ?x) = _ => destruct (Hcb a x) as (_ & _ & _ & -> & _) end.
  unfold splice. by destruct above, below.
Qed.

(** The last step seen from outside. *)
Lemma destruct_alone_steps a below above w :
  destruct_alone cb a (splice a below above w)
  = forget a (leave_environment a (before_leave a below above w)).
Proof. reflexivity. Qed.

Lemma forget_spec a w :
  objects (forget a w) = objects w ∧ liveObjects (forget a w) = liveObjects w ∧
  livingNames (forget a w) = livingNames w ∧
  restoredObjects_ (forget a w) = filter (λ b, b ≠ a) (restoredObjects_ w) ∧
  ∀ o, objects w !! a = Some o → loaded_ (forget a w) = delete (filename_ o) (loaded_ w).
Proof. split_and!; try reflexivity. intros o Ho. unfold forget. by rewrite Ho. Qed.

Lemma cores_objects w w' : objects w = objects w' → cores w = cores w'.
Proof. unfold cores. by intros ->. Qed.

Lemma unregister_before_leave a below above w :
  ∃ os, (∃ g, liveObjects (before_leave a below above w) = LiveObjectRegistry.remove os (Some a) g) ∧
        (∃ g, livingNames (before_leave a below above w) = LivingNameRegistry.remove os (Some a) g).
Proof. eexists. split; eexists; reflexivity. Qed.

Lemma destruct_alone_forgets a below above w o :
  objects w !! a = Some o →
  let w' := destruct_alone cb a (splice a below above w) in
  a ∉ liveObjects w' ∧ (∀ e, e ∈ livingNames w' → LivingNameRegistry.obj e ≠ a) ∧
  a ∉ restoredObjects_ w' ∧ loaded_ w' = delete (filename_ o) (loaded_ w) ∧
  (∀ e oe, wlock w (environment_ o) = Some e → objects w' !! e = Some oe → a ∉ inventory_ oe) ∧
  ∃ o', objects w' !! a = Some o' ∧ destructed_ o' = true.
Proof.
  intros Ho w'. subst w'.
  pose proof (cores_destruct_alone a (splice a below above w)) as Hc.
  rewrite destruct_alone_steps in *.
  pose proof (place_before_leave a below above w a) as Hp. rewrite Ho in Hp.
  pose proof (loaded_before_leave a below above w) as Hl.
  pose proof (wlock_before_leave a below above w (environment_ o)) as Hwl.
  destruct (unregister_before_leave a below above w) as (os & [g1 Hg1] & [g2 Hg2]).
  generalize dependent (before_leave a below above w). intros w1 Hc Hp Hl Hwl Hg1 Hg2.
  destruct (objects w1 !! a) as [o1|] eqn:E1; [|done]. injection Hp as He Hf.
  pose proof (filename_leave_environment a w1 a) as Hfn. rewrite E1 in Hfn.
  destruct (tables_leave_environment a w1) as (Ht1 & Ht2 & Ht3).
  pose proof (leave_environment_inventory a w1 o1) as Hinv.
  generalize dependent (leave_environment a w1). intros w2 Hc Hfn Ht1 Ht2 Ht3 Hinv.
  destruct (objects w2 !! a) as [o2|] eqn:E2; [|done]. injection Hfn as Hfn.
  destruct (forget_spec a w2) as (Hs1 & Hs2 & Hs3 & Hs4 & Hs5). split_and!.
  - rewrite Hs2, Ht2, Hg1. intros Hin%LiveObjectRegistry.live_elem_of_remove. naive_solver.
  - rewrite Hs3, Ht1, Hg2. intros e Hin%LivingNameRegistry.elem_of_remove. naive_solver.
  - rewrite Hs4, list_elem_of_filter. tauto.
  - rewrite (Hs5 o2 E2). by rewrite Hfn, Hf, Ht3, Hl.
  - rewrite Hs1. intros e oe Henv Hoe. eapply Hinv; [done| |exact Hoe].
    by rewrite He, Hwl.
  - rewrite Hs1. exists o2. split; [exact E2|].
    rewrite (cores_objects _ _ Hs1) in Hc.
    apply (f_equal (λ m, c_destructed <$> m !! a)) in Hc. rewrite lookup_alter_eq in Hc.
    unfold cores at 1 in Hc. rewrite lookup_fmap, E2 in Hc. simpl in Hc.
    by destruct (cores (splice a below above w) !! a); simplify_eq/=.
Qed.
End DestructProofs.

(** ** Properties: destructing *)

(** C8: destructing the base of a shadow chain ends, destructs every object of
    the chain, clears their shadow links, and destructs nothing else: every
    other object keeps its name, variables, links and status. *)
Theorem destruct_base_of_chain cb w base rest fuel (Hcb : callback_ok cb)
    (Hchain : chain (cores w) None (base :: rest) None) (Hnd : NoDup (base :: rest))
    (Hfuel : (length rest + 3 ≤ fuel)%nat) :
  ∃ w', destructObject cb fuel w base = Ok w' ∧ died (base :: rest) (cores w) (cores w').
Proof. by apply destruct_whole_chain. Qed.

(** C9: destructing an object that itself shadows another takes it out of the
    chain: the object is destructed, its neighbours are linked to each other
    and the rest is still a well-formed shadow chain. *)
Theorem destruct_splices_chain cb w fuel l1 below a l2 (Hcb : callback_ok cb)
    (Hchain : chain (cores w) None (l1 ++ below :: a :: l2) None)
    (Hnd : NoDup (l1 ++ below :: a :: l2)) (Hfuel : (1 ≤ fuel)%nat) :
  ∃ w', destructObject cb fuel w a = Ok w' ∧
    chain (cores w') None (l1 ++ below :: l2) None ∧ cores w' !! a = die <$> cores w !! a.
Proof. destruct fuel as [|fuel]; [lia|]. by apply destruct_spliced. Qed.

(** Destructing an object that is not the base of a shadow chain takes it
    out of what the manager keeps: the registries of live objects and of living
    names, the list of restored objects and its environment's inventory; of the
    loaded table the entry under its own file name is erased and no other; and
    destructing it again does nothing.  (The registry of interactive objects is
    left to the connection.) *)
Theorem destruct_forgets cb w a o fuel (Hcb : callback_ok cb) (Ho : objects w !! a = Some o)
    (Hd : destructed_ o = false)
    (Hbase : wlock w (shadowedBy_ o) = None ∨ wlock w (shadowing_ o) ≠ None)
    (Hfuel : (1 ≤ fuel)%nat) :
  ∃ w', destructObject cb fuel w a = Ok w' ∧
    a ∉ liveObjects w' ∧ (∀ e, e ∈ livingNames w' → LivingNameRegistry.obj e ≠ a) ∧
    a ∉ restoredObjects_ w' ∧ loaded_ w' = delete (filename_ o) (loaded_ w) ∧
    (∀ e oe, wlock w (environment_ o) = Some e → objects w' !! e = Some oe → a ∉ inventory_ oe) ∧
    destructObject cb fuel w' a = Ok w'.
Proof.
  destruct fuel as [|f]; [lia|]. cbn [destructObject]. rewrite Ho. cbn [deref rbind]. rewrite Hd.
  destruct (destruct_alone_forgets cb Hcb a (wlock w (shadowing_ o)) (wlock w (shadowedBy_ o)) w o Ho)
    as (H1 & H2 & H3 & H4 & H5 & o' & Ho' & Hd').
  exists (destruct_alone cb a (splice a (wlock w (shadowing_ o)) (wlock w (shadowedBy_ o)) w)).
  split.
  { destruct (wlock w (shadowedBy_ o)), (wlock w (shadowing_ o)); try done.
    by destruct Hbase. }
  split_and!; [done|done|done|done|done|]. rewrite Ho'. cbn [deref rbind]. by rewrite Hd'.
Qed.

(** C40: [destructObject] erases the loaded table's entry by file name, and a
    clone has its blueprint's: destructing a clone unloads the blueprint, which
    itself stays alive but can no longer be looked up. *)
Theorem destruct_clone_unloads_blueprint cb w a o bp ob fuel (Hcb : callback_ok cb)
    (Ho : objects w !! a = Some o) (Hclone : isClone_ o = true) (Hd : destructed_ o = false)
    (Hsh : shadowedBy_ o = None ∧ shadowing_ o = None)
    (Hbp : loaded_ w !! filename_ o = Some bp) (Hne : bp ≠ a)
    (Hob : objects w !! bp = Some ob) (Hlive : destructed_ ob = false)
    (Hnorm : normalizeFilename (filename_ o) = filename_ o) (Hfuel : (1 ≤ fuel)%nat) :
  lookupLoadedObject w (filename_ o) = Some bp ∧
  ∃ w', destructObject cb fuel w a = Ok w' ∧ lookupLoadedObject w' (filename_ o) = None ∧
    cores w' !! bp = cores w !! bp.
Proof.
  unfold lookupLoadedObject. rewrite Hnorm. split; [done|]. destruct fuel as [|f]; [lia|].
  destruct Hsh as [Hs1 Hs2]. cbn [destructObject]. rewrite Ho. cbn [deref rbind].
  rewrite Hd, Hs1, Hs2. cbn [wlock lock]. eexists. split; [done|]. split.
  - destruct (destruct_alone_forgets cb Hcb a None None w o Ho) as (_ & _ & _ & -> & _).
    apply lookup_delete_eq.
  - rewrite cores_destruct_single by done. by rewrite lookup_alter_ne.
Qed.

(** ** Properties: compiling and loading *)

(** C7: [compile] ends on every file, inherit cycles and self-inheriting files
    included, once its bound exceeds the number of source files not being
    compiled.  Errors of the lexer, the parser and the code generator, and
    whatever escapes from compiling a parent, give no program; the only
    exception that escapes is one thrown while this very file is staged.
    However it ends, the set of files in progress, the loaded table and the
    objects are as they were, every cached program exists, and compiling the
    same file again returns the same program from the cache. *)
Theorem compile_total frontend fuel w f (Hcache : cache_ok w) (Hfuel : (uncompiled w < fuel)%nat) :
  ∃ r w', compile frontend fuel f w = (r, w') ∧ cache_ok w' ∧
    compiling_ w' = compiling_ w ∧ loaded_ w' = loaded_ w ∧ objects w' = objects w ∧
    ((∃ o, r = Ok o) ∨ ∃ e text, r = Throw e ∧ files w !! normalizeFilename f = Some text ∧
                                  stage frontend (normalizeFilename f) text = inl e) ∧
    (∀ p n, r = Ok (Some p) → compile frontend (S n) f w' = (Ok (Some p), w')).
Proof.
  destruct (compile_ok frontend fuel w f Hfuel Hcache) as (r & w' & Hr & Hw' & Hfr & He & Hp).
  exists r, w'. pose proof Hfr as (? & Hfiles & ? & ? & _). split_and!; try done.
  intros p n Hrp. destruct (Hp p Hrp) as (_ & Hc & Hs). apply compile_hit; [done|].
  rewrite Hfiles. destruct (files w !! normalizeFilename f) as [text|]; [right|by left].
  exists text. split; [done|]. by apply Hs.
Qed.

(** A file that inherits itself, under any spelling of its name, is
    rejected. *)
Theorem self_inherit_rejected frontend fuel w f text pre path rest generate
    (Hcache : programCache_ w !! normalizeFilename f = None)
    (Htext : files w !! normalizeFilename f = Some text)
    (Hstage : stage frontend (normalizeFilename f) text = inr (Some pre))
    (Hself : parse frontend pre = inr (path :: rest, generate))
    (Hpath : normalizeFilename path = normalizeFilename f) :
  ∃ w', compile frontend (S (S fuel)) f w = (Ok None, w').
Proof.
  remember (S fuel) as n eqn:En. cbn [compile]. unfold bind at 1, get.
  rewrite Hcache, Htext. case_bool_decide; [by eexists|].
  unfold in_progress, compile_source, compile_program, try_catch, bind, lift. rewrite Hstage. cbn [from_sum].
  rewrite Hself. cbn [from_sum compile_parents]. rewrite En. cbn [compile].
  unfold bind, get. rewrite Hpath. simpl. rewrite Hcache, Htext.
  rewrite bool_decide_true by set_solver. by eexists.
Qed.

Section LoadProofs.
Context `{VM} (frontend : Frontend) (compile_fuel : nat).

(** A load of an existing source that fails leaves nothing in the loaded
    table under that name, whether compilation or [create] failed and
    whatever the virtual machine did meanwhile. *)
Theorem failed_load_unloaded w raw w' (Hcache : cache_ok w)
    (Hfuel : (uncompiled w < compile_fuel)%nat)
    (Hnot : loaded_ w !! normalizeFilename raw = None)
    (Hsrc : sourceFileExists w (normalizeFilename raw) = true)
    (Hfail : loadObject frontend compile_fuel raw w = (Ok None, w')) :
  loaded_ w' !! normalizeFilename raw = None.
Proof.
  unfold loadObject in Hfail. unfold bind at 1, get in Hfail. rewrite Hnot, Hsrc in Hfail.
  destruct (compile_ok frontend compile_fuel w (normalizeFilename raw) Hfuel Hcache)
    as (r & w1 & Hr & _ & Hfr & He & _).
  cbn [negb] in Hfail. unfold bind at 1 in Hfail. rewrite Hr in Hfail.
  destruct He as [[[p|] ->]|(e & text & -> & _)]; [| |done].
  - apply bind_Ok_inv in Hfail as (obj & w2 & _ & Hfail).
    apply bind_Ok_inv in Hfail as (ok & w3 & _ & Hfail).
    destruct ok; [by unfold bind, modify, ret in Hfail|].
    unfold bind, modify, ret in Hfail. injection Hfail as <-. apply lookup_delete_eq.
  - unfold ret in Hfail. injection Hfail as <-. by destruct Hfr as (_ & _ & -> & _).
Qed.

(** Under the uid model an object whose caller has no effective uid
    cannot clone anything: the call throws and changes nothing. *)
Theorem clone_requires_euid w caller o raw args
    (Hactive : active (uidModel_ w) = true) (Hvm : vm_ w = true)
    (Hcur : currentObject w = Some caller) (Ho : objects w !! caller = Some o)
    (He : euid_ o = None) :
  cloneObject frontend compile_fuel raw args w = (Throw seteuid_error, w).
Proof.
  unfold cloneObject, bind at 1, get, may_clone. by rewrite Hactive, Hvm, Hcur, Ho, He.
Qed.

(** [assignObjectUid] gives a new object an owner whenever the model is
    active, and an effective uid only if the calling object (or the boot
    itself, as root) has exactly that effective uid. *)
Theorem assign_uid_bounded w obj f m root c w1 o
    (Hm : master_ w = Some m) (Hvm : vm_ w = true) (Hroot : rootUid (uidModel_ w) = Some root)
    (Hcreator : creator_of m (slash f) w = (Ok (Some c), w1))
    (Ho : objects w1 !! obj = Some o) :
  ∃ w' o', assignObjectUid obj f w = (Ok tt, w') ∧ objects w' !! obj = Some o' ∧
    (∃ u, uid_ o' = Some u) ∧
    (∀ e, euid_ o' = Some e → snd (loader_uids w1 (rootUid (uidModel_ w1))) = Some e).
Proof.
  unfold assignObjectUid, bind at 1, get. rewrite Hm, Hvm. unfold active. rewrite Hroot. simpl.
  unfold bind at 1. rewrite Hcreator. unfold bind, modify.
  destruct (loader_uids w1 _) as [lu le]. eexists _, _. split; [reflexivity|].
  unfold upd_obj. cbn. rewrite (upd_same _ _ _ o Ho). split_and!; [reflexivity|by eexists|].
  intros e. simpl. destruct (resolve_euid (uidModel_ w1) c lu le) as [->|Hle]; [done|].
  by rewrite Hle.
Qed.
End LoadProofs.

(** The world of a manager without a virtual machine, for examples. *)
Definition empty_world : world :=
  {| config_ := default_config; vm_ := false; uidModel_ := mkUidModel None None false;
     master_ := None; simulEfunObject_ := None; programCache_ := ∅; programSource_ := ∅;
     loaded_ := ∅; restoredObjects_ := []; compiling_ := ∅; virtualCompiling_ := ∅;
     objects := ∅; programs := ∅; livingNames := []; liveObjects := []; lpcHeap := empty_heap;
     files := ∅; clock := 0; jitter := [] |}.

(** ** Witnesses *)

Definition sample_program : CompiledProgram := mkCompiledProgram [$"hp"] [] [] ∅.
Definition sample_object (name : string) : LpcObject :=
  makeLpcObject (list_ascii_of_string name) 1 sample_program true 0.

(** 1 is the blueprint of clone 2; 3 is shadowed by 4, and 4 by 5. *)
Definition sample_world : world :=
  empty_world
    <| objects := list_to_map
         [(1, sample_object "/a"); (2, (sample_object "/a") <| isClone_ := true |>);
          (3, set_shadowedBy (Some 4) (sample_object "/b"));
          (4, set_shadowing (Some 3) (set_shadowedBy (Some 5) (sample_object "/c")));
          (5, set_shadowing (Some 4) (sample_object "/d"))]%positive |>
    <| loaded_ := {[ $"/a" := 1%positive ]} |>
    <| liveObjects := [1; 2; 3; 4; 5]%positive |>.

Definition no_callback (a : addr) (w : world) : world := w.

Lemma no_callback_ok : callback_ok no_callback.
Proof. done. Qed.

Ltac nodup := repeat constructor; set_solver.

Ltac solve_chain := simpl; repeat split; eexists; (split; [reflexivity|]); by split_and!.

Lemma sample_chain : chain (cores sample_world) None [3; 4; 5]%positive None.
Proof. solve_chain. Qed.

Lemma destruct_base_of_chain_witness :
  ∃ w', destructObject no_callback 5 sample_world 3%positive = Ok w' ∧
    died [3; 4; 5]%positive (cores sample_world) (cores w').
Proof.
  apply destruct_base_of_chain; [exact no_callback_ok|exact sample_chain|nodup|simpl; lia].
Defined.

Lemma destruct_splices_chain_witness :
  ∃ w', destructObject no_callback 1 sample_world 4%positive = Ok w' ∧
    chain (cores w') None [3; 5]%positive None.
Proof.
  destruct (destruct_splices_chain no_callback sample_world 1 [] 3%positive 4%positive [5%positive])
    as (w' & H1 & H2 & _); [exact no_callback_ok|exact sample_chain|simpl; nodup|lia|].
  exists w'. split; [exact H1|exact H2].
Defined.

Lemma destruct_forgets_witness :
  ∃ w', destructObject no_callback 1 sample_world 1%positive = Ok w' ∧ loaded_ w' = ∅.
Proof.
  destruct (destruct_forgets no_callback sample_world 1%positive (sample_object "/a") 1)
    as (w' & H1 & _ & _ & _ & H2 & _); [exact no_callback_ok|reflexivity|reflexivity|by left|lia|].
  exists w'. split; [exact H1|]. rewrite H2. apply delete_singleton_eq.
Defined.

Lemma destruct_clone_unloads_blueprint_witness :
  ∃ w', destructObject no_callback 1 sample_world 2%positive = Ok w' ∧
    lookupLoadedObject w' $"/a" = None.
Proof.
  destruct (destruct_clone_unloads_blueprint no_callback sample_world 2%positive
    ((sample_object "/a") <| isClone_ := true |>) 1%positive (sample_object "/a") 1)
    as (_ & w' & H1 & H2 & _); try reflexivity; [exact no_callback_ok|by split|lia|].
  exists w'. split; [exact H1|exact H2].
Defined.

(** A front end for files of inherit paths separated by newlines. *)
Definition list_frontend : Frontend := {|
  stage name text := inr (Some text);
  parse text := inr (getlines text, λ names, inr (names ++ [text]));
|}.

Definition cyclic_files : world :=
  empty_world <| files := <[ $"/a" := $"/b.c" ]> {[ $"/b" := $"a" ]} |>.

(** The second file cannot be staged: the error escapes when it is compiled by
    itself, and is an ordinary failure when it is inherited. *)
Definition failing_frontend : Frontend := {|
  stage name text := if bool_decide (name = $"/b") then inl OutOfRange else inr (Some text);
  parse := parse list_frontend;
|}.

Lemma compile_total_witness :
  (∃ r w', compile list_frontend 3 $"a.c" cyclic_files = (r, w') ∧ cache_ok w') ∧
  fst (compile failing_frontend 3 $"a.c" cyclic_files) = Ok None ∧
  ∃ w', compile failing_frontend 3 $"b" cyclic_files = (Throw OutOfRange, w') ∧ compiling_ w' = ∅.
Proof.
  assert (cache_ok cyclic_files) as Hcache by apply map_Forall_empty.
  assert ((uncompiled cyclic_files < 3)%nat) as Hfuel by (apply Nat.ltb_lt; vm_compute; reflexivity).
  split_and!.
  - destruct (compile_total list_frontend 3 cyclic_files $"a.c" Hcache Hfuel) as (r & w' & H1 & H2 & _).
    exists r, w'. split; [exact H1|exact H2].
  - vm_compute. reflexivity.
  - destruct (compile_total failing_frontend 3 cyclic_files $"b" Hcache Hfuel) as (r & w' & H1 & _ & H3 & _).
    exists w'. split; [|exact H3]. rewrite H1. f_equal. apply (f_equal fst) in H1. vm_compute in H1. symmetry. exact H1.
Defined.

Definition self_files : world := empty_world <| files := {[ $"/a" := $"a.c" ]} |>.

Lemma self_inherit_rejected_witness :
  ∃ w', compile list_frontend 2 $"/a.c" self_files = (Ok None, w').
Proof.
  apply (self_inherit_rejected list_frontend 0 self_files $"/a.c" $"a.c" $"a.c" $"a.c" []
           (λ names, inr (names ++ [ $"a.c" ]))); reflexivity.
Defined.

(** A machine whose [create] always throws and whose master names [bob] as the
    creator of every file. *)
Definition sample_vm : VM := {|
  callFunction := λ _ f _, if bool_decide (f = $"create") then throw InvalidArgument
                           else ret (mk (VStr $"bob"));
  callFunctionInProgram := λ _ _ _ _, ret (mk VVoid);
  applyMaster := λ _ _, ret (mk VVoid);
  functionExists := λ _ _ _, true;
  currentObject := λ _, Some 1%positive;
|}.

Definition source_world : world :=
  empty_world <| files := {[ $"/x" := [] ]} |> <| vm_ := true |>.

Lemma failed_load_unloaded_witness :
  loaded_ (snd (@loadObject sample_vm list_frontend 3 $"x" source_world)) !! $"/x" = None.
Proof.
  apply (@failed_load_unloaded sample_vm list_frontend 3 source_world $"x").
  - apply map_Forall_empty.
  - apply Nat.ltb_lt. vm_compute. reflexivity.
  - reflexivity.
  - reflexivity.
  - vm_compute. reflexivity.
Defined.

Definition uid_world : world :=
  sample_world <| vm_ := true |> <| master_ := Some 3%positive |>
    <| uidModel_ := mkUidModel (Some $"Root") None false |>.

Lemma clone_requires_euid_witness :
  @cloneObject sample_vm list_frontend 3 $"x" [] uid_world = (Throw seteuid_error, uid_world).
Proof.
  apply (@clone_requires_euid sample_vm list_frontend 3 uid_world 1%positive (sample_object "/a"));
    reflexivity.
Defined.

Lemma assign_uid_bounded_witness :
  ∃ w' o', @assignObjectUid sample_vm 5%positive $"d" uid_world = (Ok tt, w') ∧
    objects w' !! 5%positive = Some o' ∧ ∃ u, uid_ o' = Some u.
Proof.
  destruct (@assign_uid_bounded sample_vm uid_world 5%positive $"d" 3%positive $"Root" $"bob" uid_world
    (set_shadowing (Some 4%positive) (sample_object "/d"))) as (w' & o' & H1 & H2 & H3 & _);
    try reflexivity.
  exists w', o'. split; [exact H1|]. split; [exact H2|exact H3].
Defined.
