(* ===== verification/WorldDump.v ===== *)
(** * WorldDump: dumping and restoring the whole world

    Models [dumpState] and [restoreState] of [src/persist/StateSerializer.cpp]
    on top of the value codec of [StateSerializer]. *)

From S2P Require Import Prelude Doubles Values Trees Config Uids Objects ObjectManager StateSerializer.

(** ** Writing *)

(** [idOfObject]: the index of each object in the registry's order. *)
Fixpoint id_table (i : Z) (l : list addr) (m : gmap addr Z) : gmap addr Z :=
  match l with
  | [] => m
  | a :: l => id_table (i + 1) l (<[a := i]> m)
  end.

Definition join_comma (l : list bytes) : bytes :=
  match l with
  | [] => []
  | x :: l => x ++ concat (map (λ y, $"," ++ y) l)
  end.

(** One entry of Section A. *)
Definition placement_text (id : Z) (clone : bool) (envId invCount : Z) (invIds : list Z)
    (filename : bytes) : bytes :=
  to_string id ++ $";" ++ bool_digit clone ++ $";" ++ to_string envId ++ $";" ++
  to_string invCount ++ $";" ++ join_comma (map to_string invIds) ++ $";" ++
  to_string (size filename) ++ $":" ++ filename.

Section Dump.
Context (w : world) (ids : gmap addr Z).

Definition env_id (o : LpcObject) : Z :=
  match wlock w (environment_ o) with
  | Some e => default (-1) (ids !! e)
  | None => -1
  end.

Definition dump_placement (a : addr) : result bytes :=
  let* o := deref (objects w !! a) in
  Ok (placement_text (default 0 (ids !! a)) (isClone_ o) (env_id o) (size (inventory_ o))
        (omap (λ c, ids !! c) (inventory_ o)) (filename_ o)).

Definition owner_alive (a : addr) : bool :=
  match objects w !! a with Some _ => true | None => false end.

Definition dump_variables (fuel : nat) (a : addr) : result bytes :=
  let* o := deref (objects w !! a) in
  let* texts := rmap (serializeWorldValue ids owner_alive fuel (lpcHeap w)) (variables_ o) in
  Ok (to_string (default 0 (ids !! a)) ++ $";" ++ to_string (size (variables_ o)) ++ $";" ++
      concat texts).
End Dump.

Definition dumpState (fuel : nat) (w : world) : result bytes :=
  let liveObjs := LiveObjectRegistry.all (objects w) (liveObjects w) in
  let ids := id_table 0 liveObjs ∅ in
  let* placements := rmap (dump_placement w ids) liveObjs in
  let* variables := rmap (dump_variables w ids fuel) liveObjs in
  Ok (kMagic ++ to_string (size liveObjs) ++ $";" ++ concat placements ++ concat variables).

(** ** Reading *)

Record PlacementEntry := mkPlacement {
  pe_id : Z;
  pe_isClone : bool;
  pe_envId : Z;
  pe_invIds : list Z;
  pe_filename : bytes;
}.

Definition readIntField (s : bytes) (pos : Z) (delim : ascii) : result (Z * Z) :=
  let e := find_from delim s pos in
  if e =? npos then Throw (corrupt "truncated field") else
  let* t := substr s pos (u64 (e - pos)) in
  let* v := stoll t in
  Ok (v, e + 1).

(** [k] ids separated by commas. *)
Fixpoint read_inv_ids (k : nat) (invList : bytes) (p2 : Z) : result (list Z) :=
  match k with
  | O => Ok []
  | S k =>
      let comma := find_from "," invList p2 in
      let* tok := substr invList p2 (u64 (comma - p2)) in
      let* id := stoll tok in
      let* ids := read_inv_ids k invList (if comma =? npos then size invList else comma + 1) in
      Ok (id :: ids)
  end.

Definition read_entry (s : bytes) (pos : Z) : result (PlacementEntry * Z) :=
  let* (id, pos) := readIntField s pos ";" in
  let* (clone, pos) := readIntField s pos ";" in
  let* (envId, pos) := readIntField s pos ";" in
  let* (invCount, pos) := readIntField s pos ";" in
  let listEnd := find_from ";" s pos in
  if listEnd =? npos then Throw (corrupt "truncated inventory list") else
  let* invList := substr s pos (u64 (listEnd - pos)) in
  let pos := listEnd + 1 in
  let* invIds := read_inv_ids (Z.to_nat (u64 invCount)) invList 0 in
  let colon := find_from ":" s pos in
  if colon =? npos then Throw (corrupt "truncated filename") else
  let* t := substr s pos (u64 (colon - pos)) in
  let* fnameLen := stoull t in
  let* filename := substr s (colon + 1) fnameLen in
  Ok (mkPlacement id (negb (clone =? 0)) envId invIds filename, u64 (colon + 1 + fnameLen)).

Fixpoint read_entries (n : nat) (s : bytes) (pos : Z) : result (list PlacementEntry * Z) :=
  match n with
  | O => Ok ([], pos)
  | S n =>
      let* (e, pos) := read_entry s pos in
      let* (es, pos) := read_entries n s pos in
      Ok (e :: es, pos)
  end.

Section Restore.
Context (max_items : Z).

(** One entry of Section B: an id and its values. *)
Definition read_variables (fuel : nat) (objs : gmap Z addr) (s : bytes) (pos : Z) (h : heap)
  : result (Z * list value * Z * heap) :=
  let* (id, pos) := readIntField s pos ";" in
  let* (varCount, pos) := readIntField s pos ";" in
  let* _ := reserve max_items (u64 varCount) in
  let* (vs, pos, h) := read_values max_items objs fuel (u64 varCount) s pos h in
  Ok (id, vs, pos, h).

(** Header and Section A; [None] when the magic is missing. *)
Definition read_placements (s : bytes) : result (option (list PlacementEntry * Z)) :=
  match strip_prefix kMagic s with
  | None => Ok None
  | Some _ =>
      let* (count, pos) := readIntField s (size kMagic) ";" in
      let* _ := reserve max_items (u64 count) in
      let* r := read_entries (Z.to_nat (u64 count)) s pos in
      Ok (Some r)
  end.

Definition place (objs : gmap Z addr) (e : PlacementEntry) (w : world) : world :=
  match objs !! pe_id e with
  | None => w
  | Some obj =>
      let set_env := if 0 <=? pe_envId e
                     then match objs !! pe_envId e with
                          | Some env => λ o, o <| environment_ := Some env |>
                          | None => id
                          end
                     else id in
      upd_obj (λ o, (set_env o) <| inventory_ := omap (λ i, objs !! i) (pe_invIds e) |>) obj w
  end.

(** Values are assigned up to the shorter of the two lists. *)
Fixpoint assign (vars vs : list value) : list value :=
  match vars, vs with
  | _ :: vars, v :: vs => v :: assign vars vs
  | vars, _ => vars
  end.

Definition assign_variables (objs : gmap Z addr) (id : Z) (vs : list value) (w : world) : world :=
  on_obj (λ o, o <| variables_ ::= λ vars, assign vars vs |>) (objs !! id) w.

(** Section B, entry by entry: what is read before an error stays. *)
Fixpoint restore_variables (fuel n : nat) (objs : gmap Z addr) (s : bytes) (pos : Z)
  : M world unit :=
  match n with
  | O => ret tt
  | S n =>
      do* w := get in
      do* (id, vs, pos, h) := lift (read_variables fuel objs s pos (lpcHeap w)) in
      do* _ := modify (λ w, assign_variables objs id vs (w <| lpcHeap := h |>)) in
      restore_variables fuel n objs s pos
  end.

Context `{VM} (frontend : Frontend) (compile_fuel : nat).

(** Pass 1: one object per entry, in order. *)
Definition reconstruct (e : PlacementEntry) : M world addr :=
  do* obj :=
    if pe_isClone e then cloneObject frontend compile_fuel (pe_filename e) []
    else
      do* w := get in
      match lookupLoadedObject w (pe_filename e) with
      | Some a => ret (Some a)
      | None => loadObject frontend compile_fuel (pe_filename e)
      end in
  match obj with
  | Some a => ret a
  | None => throw (LpcRuntimeError
      ($"restore_state: could not reconstruct object for " ++ pe_filename e))
  end.

Fixpoint reconstruct_all (es : list PlacementEntry) (objs : gmap Z addr) (acc : list addr)
  : M world (gmap Z addr * list addr) :=
  match es with
  | [] => ret (objs, acc)
  | e :: es =>
      do* a := reconstruct e in
      reconstruct_all es (<[pe_id e := a]> objs) (acc ++ [a])
  end.

(** [restoreState] on the contents of the file, [None] when it cannot be
    opened. *)
Definition restoreState (fuel : nat) (file : option bytes) : M world bool :=
  match file with
  | None => ret false
  | Some s =>
      do* r := lift (read_placements s) in
      match r with
      | None => ret false
      | Some (entries, pos) =>
          do* (objs, acc) := reconstruct_all entries ∅ [] in
          do* _ := modify (retainRestoredObjects acc) in
          do* _ := modify (λ w, foldl (λ w e, place objs e w) w entries) in
          do* _ := restore_variables fuel (length entries) objs s pos in
          ret true
      end
  end.
End Restore.

(** ** Reading what was written *)

Lemma readIntField_step s pos z r :
  fits s → in_i64 z = true → at_text s pos (to_string z ++ ";"%char :: r) →
  readIntField s pos ";" = Ok (z, pos + size (to_string z) + 1)
  ∧ at_text s (pos + size (to_string z) + 1) r.
Proof.
  intros Hs Hz Hat. pose proof (at_text_bounds _ _ _ Hat) as Hb.
  rewrite size_app, size_cons in Hb. pose proof (size_nonneg r).
  pose proof (size_nonneg (to_string z)). unfold fits in Hs.
  unfold readIntField. rewrite (find_read _ _ (to_string z) ";" r) by (done || apply semi_not_in_number).
  rewrite (proj2 (Z.eqb_neq _ _)) by (unfold npos; lia).
  replace (pos + size (to_string z) - pos) with (size (to_string z)) by lia.
  rewrite u64_small by lia. split.
  - apply at_text_app in Hat as [Hat _]. rewrite substr_read by done. cbn [rbind].
    by rewrite stoll_to_string_nil.
  - apply at_text_app in Hat as [_ Hat]. by apply at_text_cons in Hat as [_ ?].
Qed.

Lemma comma_not_in_number z : ","%char ∉ to_string z.
Proof. by apply to_string_no_char. Qed.

Lemma index_of_None c s : c ∉ s → index_of c s = None.
Proof.
  induction s as [|d s IH]; [done|]. intros [Hcd Hc]%not_elem_of_cons. simpl.
  by rewrite ascii_eqb_neq, IH.
Qed.

Lemma find_none c pre t : c ∉ t → find_from c (pre ++ t) (size pre) = npos.
Proof. intros Hc. unfold find_from. by rewrite dropz_app, index_of_None. Qed.

(** [substr] to the end of the string. *)
Lemma substr_rest pre t n : size t ≤ n → substr (pre ++ t) (size pre) n = Ok t.
Proof.
  intros Hn. unfold substr. rewrite size_app, dropz_app. pose proof (size_nonneg t).
  rewrite (proj2 (Z.ltb_ge _ _)) by lia. unfold takez. by rewrite (proj2 (Z.leb_le _ _)).
Qed.

Lemma read_inv_ids_ok l : Forall (λ i, in_i64 i = true) l → ∀ pre,
  fits (pre ++ join_comma (map to_string l)) →
  read_inv_ids (length l) (pre ++ join_comma (map to_string l)) (size pre) = Ok l.
Proof.
  induction 1 as [|i l Hi _ IH]; intros pre Hfit; [done|]. cbn [length read_inv_ids].
  pose proof (size_nonneg pre). unfold fits in Hfit. rewrite size_app in Hfit.
  destruct l as [|j l].
  - cbn [map join_comma concat] in *. rewrite app_nil_r in *.
    pose proof (size_nonneg (to_string i)).
    rewrite find_none by apply comma_not_in_number.
    rewrite substr_rest by (rewrite u64_small by (unfold npos; lia); unfold npos; lia).
    cbn [rbind]. rewrite stoll_to_string_nil by done. done.
  - set (tl := join_comma (map to_string (j :: l))) in *.
    assert (Hjoin : join_comma (map to_string (i :: j :: l)) = to_string i ++ ","%char :: tl) by done.
    rewrite Hjoin in *. rewrite size_app, size_cons in Hfit.
    pose proof (size_nonneg (to_string i)). pose proof (size_nonneg tl).
    rewrite find_from_app by apply comma_not_in_number.
    replace (size pre + size (to_string i) - size pre) with (size (to_string i)) by lia.
    rewrite u64_small by lia. rewrite substr_app. cbn [rbind].
    rewrite stoll_to_string_nil by done. cbn [rbind].
    rewrite (proj2 (Z.eqb_neq _ _)) by (unfold npos; lia).
    change (to_string i ++ ","%char :: tl) with (to_string i ++ [","%char] ++ tl).
    rewrite !app_assoc.
    replace (size pre + size (to_string i) + 1) with (size ((pre ++ to_string i) ++ [","%char]))
      by (rewrite !size_app; change (size [","%char]) with 1; lia).
    rewrite IH; [done|]. unfold fits. rewrite !size_app. change (size [","%char]) with 1. fold tl. lia.
Qed.

Definition entry_ok (e : PlacementEntry) : Prop :=
  in_i64 (pe_id e) = true ∧ in_i64 (pe_envId e) = true ∧
  Forall (λ i, in_i64 i = true) (pe_invIds e).

Definition entry_text (e : PlacementEntry) : bytes :=
  placement_text (pe_id e) (pe_isClone e) (pe_envId e) (size (pe_invIds e)) (pe_invIds e)
    (pe_filename e).

Lemma no_semi_join l : ";"%char ∉ join_comma (map to_string l).
Proof.
  destruct l as [|i l]; [apply not_elem_of_nil|]. cbn [map join_comma].
  apply not_elem_of_app. split; [apply semi_not_in_number|].
  induction l as [|j l IH]; [apply not_elem_of_nil|]. cbn [map concat].
  rewrite <- app_assoc. change ($"," ++ ?x) with (","%char :: x).
  apply not_elem_of_cons. split; [done|]. apply not_elem_of_app.
  split; [apply semi_not_in_number|done].
Qed.

Lemma join_length l : size l ≤ size (join_comma (map to_string l)) + 1.
Proof.
  destruct l as [|i l]; [by simpl|]. cbn [map join_comma]. rewrite size_app, size_cons.
  pose proof (size_nonneg (to_string i)).
  enough (size l ≤ size (concat (map (λ y, $"," ++ y) (map to_string l)))) by lia.
  clear. induction l as [|j l IH]; [done|]. cbn [map concat].
  rewrite !size_app, size_cons. change (size $",") with 1.
  pose proof (size_nonneg (to_string j)). lia.
Qed.

Lemma bool_digit_number b : bool_digit b = to_string (if b then 1 else 0).
Proof. by destruct b. Qed.

Lemma read_entry_ok s pos e :
  fits s → entry_ok e → at_text s pos (entry_text e) →
  read_entry s pos = Ok (e, pos + size (entry_text e)).
Proof.
  intros Hs (Hid & Henv & Hinv) Hat. pose proof (at_text_bounds _ _ _ Hat) as Hb.
  pose proof Hs as Hfit. unfold fits in Hfit. destruct e as [id clone envId invIds fname].
  unfold entry_text, placement_text in *.
  cbn [pe_id pe_isClone pe_envId pe_invIds pe_filename list_ascii_of_string app] in *.
  rewrite bool_digit_number in *. sizes_in Hb.
  pose proof (size_nonneg (to_string (size fname))). pose proof (size_nonneg fname).
  pose proof (size_nonneg invIds). pose proof (join_length invIds).
  pose proof (size_nonneg (join_comma (map to_string invIds))).
  pose proof (size_nonneg (to_string id)). pose proof (size_nonneg (to_string envId)).
  pose proof (size_nonneg (to_string (if clone then 1 else 0))).
  pose proof (size_nonneg (to_string (size invIds))).
  assert (Hc : in_i64 (if clone then 1 else 0) = true) by by destruct clone.
  assert (Hn : in_i64 (size invIds) = true) by (apply in_i64_true; lia).
  unfold read_entry.
  destruct (readIntField_step _ _ _ _ Hs Hid Hat) as [-> Hat1]. cbn [rbind].
  destruct (readIntField_step _ _ _ _ Hs Hc Hat1) as [-> Hat2].
  cbn [rbind]. destruct (readIntField_step _ _ _ _ Hs Henv Hat2) as [-> Hat3]. cbn [rbind].
  destruct (readIntField_step _ _ _ _ Hs Hn Hat3) as [-> Hat4].
  cbn [rbind]. match type of Hat4 with at_text _ ?p _ => set (p4 := p) in * end.
  rewrite (find_read _ _ (join_comma (map to_string invIds)) ";" _ Hat4) by apply no_semi_join.
  rewrite (proj2 (Z.eqb_neq _ _)) by (unfold p4, npos; lia).
  replace (p4 + size (join_comma (map to_string invIds)) - p4)
    with (size (join_comma (map to_string invIds))) by lia.
  rewrite u64_small by lia. apply at_text_app in Hat4 as [Hat4 Hat5].
  rewrite substr_read by done. cbn [rbind]. apply at_text_cons in Hat5 as [_ Hat5].
  rewrite u64_small by lia. replace (Z.to_nat (size invIds)) with (length invIds)
    by (unfold size; lia).
  pose proof (read_inv_ids_ok invIds Hinv []) as Hread. rewrite app_nil_l in Hread.
  change (size []) with 0 in Hread. rewrite Hread by (unfold fits; lia). cbn [rbind].
  rewrite (find_read _ _ (to_string (size fname)) ":" _ Hat5) by apply colon_not_in_number.
  rewrite (proj2 (Z.eqb_neq _ _)) by (unfold p4, npos; lia).
  match goal with |- context [substr s ?p (u64 (?p + ?n - ?p))] =>
    replace (p + n - p) with n by lia end.
  rewrite u64_small by lia. apply at_text_app in Hat5 as [Hat5 Hat6].
  rewrite substr_read by done. cbn [rbind]. rewrite stoull_to_string_nil by lia. cbn [rbind].
  apply at_text_cons in Hat6 as [_ Hat6]. rewrite substr_read by done. cbn [rbind].
  rewrite u64_small by (unfold p4; lia). do 2 f_equal.
  - f_equal. by destruct clone.
  - unfold p4. sizes. lia.
Qed.

Lemma read_entries_ok s es : ∀ pos,
  fits s → Forall entry_ok es → at_text s pos (concat (map entry_text es)) →
  read_entries (length es) s pos = Ok (es, pos + size (concat (map entry_text es))).
Proof.
  induction es as [|e es IH]; intros pos Hs Hok Hat.
  - cbn. by rewrite Z.add_0_r.
  - apply Forall_cons in Hok as [He Hok]. cbn [map concat length read_entries] in *.
    apply at_text_app in Hat as [H1 H2]. rewrite (read_entry_ok s pos e) by done. cbn [rbind].
    rewrite IH by done. cbn [rbind]. rewrite size_app. do 2 f_equal. lia.
Qed.

(** ** The id table *)

Lemma id_table_lookup_notin l : ∀ i m a, a ∉ l → id_table i l m !! a = m !! a.
Proof.
  induction l as [|b l IH]; intros i m a Ha; [done|]. apply not_elem_of_cons in Ha as [Hab Ha].
  simpl. rewrite IH by done. by rewrite lookup_insert_ne.
Qed.

Lemma id_table_lookup l : ∀ i m a k, NoDup l → l !! k = Some a →
  id_table i l m !! a = Some (i + Z.of_nat k).
Proof.
  induction l as [|b l IH]; intros i m a k Hnd Hk; [done|]. apply NoDup_cons in Hnd as [Hb Hnd].
  destruct k as [|k]; simpl in *.
  - injection Hk as ->. rewrite id_table_lookup_notin by done.
    rewrite lookup_insert_eq. f_equal. lia.
  - rewrite (IH _ _ a k) by done. f_equal. lia.
Qed.

Lemma id_table_range l : ∀ i m, 0 ≤ i → i + size l < 2 ^ 63 →
  map_Forall (λ _ j, 0 ≤ j < 2 ^ 63) m → map_Forall (λ _ j, 0 ≤ j < 2 ^ 63) (id_table i l m).
Proof.
  induction l as [|b l IH]; intros i m Hi Hl Hm; [done|]. simpl. rewrite size_cons in Hl.
  pose proof (size_nonneg l). apply IH; [lia|lia|]. apply map_Forall_insert_2; [lia|done].
Qed.

(** ** Section A *)

Definition entry_of (w : world) (ids : gmap addr Z) (a : addr) (o : LpcObject) : PlacementEntry :=
  mkPlacement (default 0 (ids !! a)) (isClone_ o) (env_id w ids o)
    (omap (λ c, ids !! c) (inventory_ o)) (filename_ o).

(** Everything an object of the list carries is in the list. *)
Definition closed (w : world) (ids : gmap addr Z) (l : list addr) : Prop :=
  Forall (λ a, ∃ o, objects w !! a = Some o ∧
                    Forall (λ c, is_Some (ids !! c)) (inventory_ o)) l.

Lemma omap_length {A B} (f : A → option B) l :
  Forall (λ x, is_Some (f x)) l → size (omap f l) = size l.
Proof.
  intros H. unfold size. f_equal. induction H as [|x l [y Hy] _ IH]; [done|].
  csimpl. rewrite Hy. simpl. by rewrite IH.
Qed.

Lemma entry_of_ok w ids a o :
  map_Forall (λ _ j, 0 ≤ j < 2 ^ 63) ids → entry_ok (entry_of w ids a o).
Proof.
  intros Hids. assert (Hin : ∀ c j, ids !! c = Some j → in_i64 j = true).
  { intros c j Hj. apply Hids in Hj. apply in_i64_true. lia. }
  assert (Hdef : ∀ c d, in_i64 d = true → in_i64 (default d (ids !! c)) = true).
  { intros c d Hd. destruct (ids !! c) eqn:E; [by eapply Hin|done]. }
  unfold entry_ok, entry_of. simpl. split_and!.
  - by apply Hdef.
  - unfold env_id. destruct (wlock w _); [by apply Hdef|done].
  - apply Forall_forall. intros j (c & _ & Hc)%list_elem_of_omap. by eapply Hin.
Qed.

Lemma dump_placements_text w ids l :
  closed w ids l →
  ∃ os, Forall2 (λ a o, objects w !! a = Some o) l os ∧
    rmap (dump_placement w ids) l = Ok (map entry_text (zip_with (entry_of w ids) l os)).
Proof.
  induction 1 as [|a l (o & Ho & Hinv) _ (os & Hos & IH)]; [by exists []|].
  exists (o :: os). split; [by constructor|]. simpl. unfold dump_placement at 1. rewrite Ho.
  cbn [deref rbind]. rewrite IH. cbn [rbind].
  by rewrite <- (omap_length (λ c, ids !! c) (inventory_ o)).
Qed.

(** ** Section B *)

Lemma dump_variables_text w ids n0 a o ts :
  objects w !! a = Some o → olist (unfold_value n0 (lpcHeap w)) (variables_ o) = Some ts →
  forallb (dumpable ids) ts = true →
  dump_variables w ids n0 a =
  Ok (to_string (default 0 (ids !! a)) ++ $";" ++ to_string (Z.of_nat (length ts)) ++ $";" ++
      concat (map (dtree ids (owner_alive w)) ts)).
Proof.
  intros Ho Hts Hd. unfold dump_variables. rewrite Ho. cbn [deref rbind].
  destruct (rmap_tree ids (owner_alive w) n0 (lpcHeap w) _ ts (serialize_tree _ _ n0 _) Hts Hd)
    as [-> Hlen]. cbn [rbind]. unfold size. by rewrite Hlen.
Qed.

(** ** Properties *)

(** C3: the header and placement section of a dump are read back exactly: as
    many entries as live objects, in order, with each object's id, clone flag,
    environment and inventory ids and file name, and reading stops where the
    variables begin. *)
Theorem dump_placements_roundtrip w fuel text max_items
    (l := LiveObjectRegistry.all (objects w) (liveObjects w)) (ids := id_table 0 l ∅)
    (Hdump : dumpState fuel w = Ok text) (Hfit : fits text) (Hclosed : closed w ids l)
    (Hmax : size l ≤ max_items < 2 ^ 63) :
  ∃ os vars pos,
    Forall2 (λ a o, objects w !! a = Some o) l os ∧
    rmap (dump_variables w ids fuel) l = Ok vars ∧
    read_placements max_items text = Ok (Some (zip_with (entry_of w ids) l os, pos)) ∧
    at_text text pos (concat vars).
Proof.
  unfold dumpState in Hdump. fold l ids in Hdump.
  destruct (dump_placements_text w ids l Hclosed) as (os & Hos & Hp). rewrite Hp in Hdump.
  cbn [rbind] in Hdump. apply rbind_Ok_inv in Hdump as (vars & Hv & Hok).
  set (es := zip_with (entry_of w ids) l os) in *.
  assert (Htext : kMagic ++ to_string (size l) ++ $";" ++ concat (map entry_text es) ++ concat vars
                  = text) by congruence.
  assert (Hes : length es = length l).
  { unfold es. rewrite length_zip_with_l_eq; [done|]. by eapply Forall2_length. }
  assert (Hat : at_text text (size kMagic)
    (to_string (size l) ++ ";"%char :: concat (map entry_text es) ++ concat vars)).
  { exists kMagic, []. by rewrite app_nil_r, <- Htext. }
  pose proof (size_nonneg l).
  assert (Hn : in_i64 (size l) = true) by (apply in_i64_true; lia).
  destruct (readIntField_step _ _ _ _ Hfit Hn Hat) as [Hcount Hat2].
  apply at_text_app in Hat2 as [Hat2 Hat3].
  exists os, vars. eexists. split; [done|]. split; [done|]. split; [|exact Hat3].
  unfold read_placements. rewrite <- Htext, strip_prefix_app, Htext, Hcount. cbn [rbind].
  unfold reserve. rewrite u64_small by lia. rewrite (proj2 (Z.leb_le _ _)) by lia. cbn [rbind].
  replace (Z.to_nat (size l)) with (length es) by (unfold size; lia).
  rewrite read_entries_ok; [done|done| |done].
  unfold es. apply Forall_forall. intros e He.
  apply list_elem_of_lookup in He as [k He]. apply lookup_zip_with_Some in He as (a & o & -> & _).
  apply entry_of_ok. unfold ids. apply id_table_range; [lia| |apply map_Forall_empty].
  fold l. lia.
Qed.

(** C2: the variables of an object are read back from a dump: the same number
    of values, each with the contents it had, where a reference comes back as
    the object restored under the id of the one it named, and nil, symbols,
    buffers, null closures and references to objects that were not restored
    have become void.  This holds for contents that can be dumped (a finite
    tree without lambdas, every object in the id table) and stored (64-bit
    integers, floats that survive being printed with six digits, lists that
    can be allocated). *)
Theorem dump_variables_roundtrip w ids objs max_items a o ts
    (Hids : map_Forall (λ _ i, 0 ≤ i < 2 ^ 63) ids) (Hmax : 0 ≤ max_items < 2 ^ 63)
    (Ho : objects w !! a = Some o)
    (Hts : Forall2 (denotes (lpcHeap w)) (variables_ o) ts)
    (Hd : forallb (dumpable ids) ts = true) (Hs : forallb (storable max_items) ts = true)
    (Hlen : grantable max_items (length ts) = true) :
  ∃ n0 text, dump_variables w ids n0 a = Ok text ∧
    ∀ s pos h n, fits s → at_text s pos text →
      (S (list_sum (map (λ t, S (rneed t)) ts)) ≤ n)%nat →
      ∃ vs h', read_variables max_items n objs s pos h
               = Ok (default 0 (ids !! a), vs, pos + size text, h')
        ∧ extends h h' ∧ Forall2 (denotes h') vs (map (dumped ids (owner_alive w) objs) ts).
Proof.
  destruct (denotes_list _ _ _ Hts) as [n0 Hn0]. eexists n0, _.
  split; [by apply (dump_variables_text w ids n0 a o ts)|]. intros s pos h n Hfit Hat Hn.
  assert (Hid : in_i64 (default 0 (ids !! a)) = true).
  { destruct (ids !! a) eqn:E; [|done]. apply Hids in E. apply in_i64_true. simpl. lia. }
  pose proof Hlen as Hl. unfold grantable in Hl. apply Z.leb_le in Hl.
  assert (Hk : in_i64 (Z.of_nat (length ts)) = true) by (apply in_i64_true; lia).
  cbn [list_ascii_of_string app] in Hat. unfold read_variables.
  destruct (readIntField_step _ _ _ _ Hfit Hid Hat) as [-> Hat1]. cbn [rbind].
  destruct (readIntField_step _ _ _ _ Hfit Hk Hat1) as [-> Hat2]. cbn [rbind].
  rewrite u64_small by lia. rewrite reserve_ok by done. cbn [rbind].
  assert (Hreads : Forall (reads ids (owner_alive w) objs max_items) ts).
  { rewrite forallb_Forall, Forall_forall in Hd, Hs. apply Forall_forall. intros t Ht.
    by apply storable_reads; auto. }
  destruct (read_values_ok ids (owner_alive w) objs max_items ts Hreads n s _ h _ Hfit Hat2 eq_refl Hn)
    as (vs & h' & -> & Hh & Hvs).
  cbn [rbind]. exists vs, h'. split_and!; [|done|done]. do 2 f_equal. f_equal. sizes. lia.
Qed.

(** A file that cannot be opened or does not start with the magic line is
    refused: the restore answers false and the world is untouched. *)
Theorem restore_refuses_foreign (V : VM) max_items frontend compile_fuel fuel w :
  @restoreState max_items V frontend compile_fuel fuel None w = (Ok false, w) ∧
  ∀ text, strip_prefix kMagic text = None →
    @restoreState max_items V frontend compile_fuel fuel (Some text) w = (Ok false, w).
Proof.
  split; [done|]. intros text Ht. unfold restoreState, read_placements, bind, lift.
  by rewrite Ht.
Qed.

Lemma index_of_bound c s i : index_of c s = Some i → (i < length s)%nat.
Proof.
  revert i. induction s as [|d s IH]; simpl; [done|]. intros i. case_if; [naive_solver lia|].
  destruct (index_of c s) as [j|]; [|done]. intros [= <-]. specialize (IH j eq_refl). lia.
Qed.

Lemma takez_cons {A} n (x : A) l : 1 ≤ n → ∃ t, takez n (x :: l) = x :: t.
Proof.
  intros Hn. unfold takez. case_if; [by eexists|].
  destruct (Z.to_nat n) as [|k] eqn:E; [lia|]. simpl. by eexists.
Qed.

(** Read as a value, the magic line is an array whose count starts with [M]. *)
Lemma field_magic r :
  fits (kMagic ++ r) → ∃ t p, field (kMagic ++ r) (0 + 1) ":" = Ok ("M"%char :: t, p).
Proof.
  intros Hfit. unfold field, substr. unfold fits in Hfit. rewrite size_app in Hfit.
  change (size kMagic) with 11 in Hfit. pose proof (size_nonneg r).
  rewrite size_app. change (size kMagic) with 11. rewrite (proj2 (Z.ltb_ge _ _)) by lia.
  unfold find_from. rewrite Z.add_0_l.
  change (kMagic ++ r) with (["A"%char] ++ "M"%char :: $"LPSTATE1" ++ NL :: r).
  change 1 with (size ["A"%char]) at 1 3. rewrite !dropz_app.
  set (e := match index_of _ _ with Some i => _ | None => _ end).
  assert (He : 1 ≤ u64 (e - 1)).
  { subst e. cbn [index_of Ascii.eqb Bool.eqb app list_ascii_of_string]. unfold NL.
    cbn [Ascii.eqb Bool.eqb]. destruct (index_of ":" r) as [i|] eqn:E; [|by vm_compute].
    apply index_of_bound in E. cbn [fmap option_fmap option_map].
    rewrite u64_small; unfold size in *; simpl; lia. }
  destruct (takez_cons (u64 (e - 1)) "M"%char ($"LPSTATE1" ++ NL :: r) He) as [t Ht].
  pose proof (dropz_app ["A"%char] ("M"%char :: $"LPSTATE1" ++ NL :: r)) as Hd.
  change (size ["A"%char]) with 1 in *. rewrite Hd, Ht. cbn [rbind]. eauto.
Qed.

(** A dump cut off inside its last number is not detected: the number is
    accepted without its delimiter and the position wraps around to the start
    of the file, where the next value read is the magic line, reported as a
    conversion error and not as a corrupt dump. *)
Theorem truncated_number_wraps max_items objs fuel pre i h (Hi : in_i64 i = true)
    (Hfit : fits (pre ++ $"I" ++ to_string i)) (Hfuel : (1 ≤ fuel)%nat) :
  deserializeWorldValue max_items objs fuel (pre ++ $"I" ++ to_string i) (size pre) h
    = Ok (mk (VInt i), 0, h) ∧
  ∀ r, fits (kMagic ++ r) →
    deserializeWorldValue max_items objs fuel (kMagic ++ r) 0 h = Throw InvalidArgument.
Proof.
  destruct fuel as [|f]; [lia|]. split.
  - assert (Hat : at_text (pre ++ $"I" ++ to_string i) (size pre) ("I"%char :: to_string i)).
    { exists pre, []. by rewrite app_nil_r. }
    destruct (deser_at objs max_items f _ _ h _ _ Hat) as [-> _].
    cbn [read_kind Ascii.eqb Bool.eqb]. unfold field.
    change (pre ++ $"I" ++ to_string i) with (pre ++ [("I"%char)] ++ to_string i) in *.
    rewrite app_assoc in *.
    replace (size pre + 1) with (size (pre ++ ["I"%char])) by by rewrite size_app.
    rewrite find_none by apply semi_not_in_number.
    unfold fits in Hfit. rewrite size_app in Hfit. pose proof (size_nonneg (pre ++ ["I"%char])).
    pose proof (size_nonneg (to_string i)).
    rewrite substr_rest by (rewrite u64_small by (unfold npos; lia); unfold npos; lia).
    cbn [rbind]. rewrite stoll_to_string_nil by done. done.
  - intros r Hr. cbn [deserializeWorldValue].
    change (at_pos (kMagic ++ r) 0) with (Some "A"%char). cbn [read_kind Ascii.eqb Bool.eqb].
    destruct (field_magic r) as (t & p & ->); [done|]. done.
Qed.

(** Dumping is not exact on floats: six significant digits are written, so
    the third comes back as another number. *)
Theorem dump_float_lossy :
  let third := dlit "0.3333333333333333" in
  let back := dlit "0.333333" in
  third ≠ back ∧
  ∀ ids alive objs max_items h,
    serializeWorldValue ids alive 1 h (mk (VFloat third)) = Ok $"F0.333333;" ∧
    deserializeWorldValue max_items objs 1 $"F0.333333;" 0 h = Ok (mk (VFloat back), 10, h).
Proof.
  split; [by vm_compute|]. intros. split; by vm_compute.
Qed.

(** ** Witnesses *)

Definition dump_text : bytes :=
  match dumpState 3 sample_world with Ok t => t | _ => [] end.

Lemma dump_placements_roundtrip_witness :
  ∃ es pos, read_placements 100 dump_text = Ok (Some (es, pos)).
Proof.
  destruct (dump_placements_roundtrip sample_world 3 dump_text 100)
    as (os & vars & pos & _ & _ & H & _).
  - vm_compute. reflexivity.
  - vm_compute. reflexivity.
  - vm_compute. repeat constructor; eexists; (split; [reflexivity|constructor]).
  - split; [by vm_compute|lia].
  - eexists _, pos. exact H.
Defined.

Definition sample_ids : gmap addr Z := <[1%positive := 0]> {[2%positive := 1]}.

(** Object 1 with an integer, a text with the characters of the format, a
    reference to object 2 and an array. *)
Definition full_world : world := sample_world
  <| objects ::= insert 1%positive ((sample_object "/a") <| variables_ :=
       [mk (VInt (-5)); mk (VStr $"a;S3:N"); mk (VObj (Some 2%positive)); mk (VArr (Some 1%positive))] |>) |>
  <| lpcHeap := set_arrays (insert 1%positive [mk (VInt 7); mk (VFloat (dlit "0.5"))]) empty_heap |>.
Definition full_trees : list tree :=
  [TInt (-5); TStr $"a;S3:N"; TObj (Some 2%positive); TArr [TInt 7; TFloat (dlit "0.5")]].

(** The object with the id 1 is restored as object 9. *)
Lemma dump_variables_roundtrip_witness :
  ∃ n0 text, dump_variables full_world sample_ids n0 1%positive = Ok text ∧
    ∃ vs h', read_variables 100 50 {[1 := 9%positive]} text 0 empty_heap = Ok (0, vs, size text, h') ∧
      Forall2 (denotes h') vs [TInt (-5); TStr $"a;S3:N"; TObj (Some 9%positive); TArr [TInt 7; TFloat (dlit "0.5")]].
Proof.
  destruct (dump_variables_roundtrip full_world sample_ids {[1 := 9%positive]} 100 1%positive
    ((sample_object "/a") <| variables_ :=
       [mk (VInt (-5)); mk (VStr $"a;S3:N"); mk (VObj (Some 2%positive)); mk (VArr (Some 1%positive))] |>)
    full_trees) as (n0 & text & H & Hread).
  - apply map_Forall_insert_2; [lia|]. apply map_Forall_singleton. lia.
  - lia.
  - reflexivity.
  - repeat constructor; (by exists 2%nat; vm_compute).
  - reflexivity.
  - vm_compute. reflexivity.
  - reflexivity.
  - exists n0, text. split; [exact H|].
    assert (text = $"0;4;I-5;S6:a;S3:NO1;A2:I7;F0.5;") as ->.
    { destruct n0 as [|[|n0]]; vm_compute in H; [discriminate H..|]. injection H as H. rewrite <- H. vm_compute. reflexivity. }
    destruct (Hread $"0;4;I-5;S6:a;S3:NO1;A2:I7;F0.5;" 0 empty_heap 50%nat) as (vs & h' & Hr & _ & Hv); [by vm_compute| |apply Nat.leb_le; reflexivity|].
    + exists [], []. rewrite app_nil_r. done.
    + exists vs, h'. split; [exact Hr|exact Hv].
Defined.

Lemma truncated_number_wraps_witness :
  deserializeWorldValue 100 ∅ 1 $"I42" 0 empty_heap = Ok (mk (VInt 42), 0, empty_heap).
Proof. apply (truncated_number_wraps 100 ∅ 1 [] 42 empty_heap); [reflexivity|by vm_compute|lia]. Defined.
