(* ===== verification/Scheduler.v ===== *)
(** * Scheduler: call outs, heart beats, resets and clean ups

    Models [src/scheduler/Scheduler.cpp] and
    [include/kjdmud/scheduler/Scheduler.hpp].  LPC code runs through the
    interface [Driver]; it may change the scheduler and the world, and may
    throw.  The steady clock is the world's [clock]. *)

From S2P Require Import Prelude Doubles Values Config Uids Objects ObjectManager.

Record CallOutEntry := mkCallOut {
  co_handle : Z;
  co_target : option addr;
  co_function : bytes;
  co_closure : option addr;
  co_args : list value;
  co_dueAt : Z;
}.

Record HeartbeatEntry := mkHeartbeat { hb_target : addr; ticksRemaining : Z }.

Record sched := mkSched {
  callOuts_ : list CallOutEntry;
  heartbeats_ : list HeartbeatEntry;
  lastHeartbeat_ : Z;
  nextHandle_ : Z;
  shutdownRequested : bool;
  sworld : world;
}.

#[export] Instance eta_CallOutEntry : Eta CallOutEntry := λ e,
  mkCallOut (co_handle e) (co_target e) (co_function e) (co_closure e) (co_args e) (co_dueAt e).
#[export] Instance eta_HeartbeatEntry : Eta HeartbeatEntry := λ e,
  mkHeartbeat (hb_target e) (ticksRemaining e).
#[export] Instance eta_sched : Eta sched := λ s,
  mkSched (callOuts_ s) (heartbeats_ s) (lastHeartbeat_ s) (nextHandle_ s)
    (shutdownRequested s) (sworld s).

Definition slock (s : sched) : option addr → option addr := wlock (sworld s).
Definition sobj (f : LpcObject → LpcObject) (a : addr) (s : sched) : sched :=
  s <| sworld ::= upd_obj f a |>.
Definition lookup_obj (s : sched) (a : addr) : option LpcObject := objects (sworld s) !! a.

(** ** Call outs *)

(** The next handle is a 64-bit integer in the program; it would take 2^63 call
    outs to reach its end. *)
Definition addCallOut (e : CallOutEntry) (s : sched) : Z * sched :=
  let handle := nextHandle_ s in
  (handle, s <| nextHandle_ := handle + 1 |>
             <| callOuts_ ::= λ l, l ++ [e <| co_handle := handle |>] |>).

(** Whole seconds until due, never negative. *)
Definition remainingSeconds (s : sched) (dueAt : Z) : Z :=
  let now := clock (sworld s) in
  if dueAt <=? now then 0 else (dueAt - now) / seconds 1.

(** The first entry satisfying a test, and the list without it. *)
Fixpoint take_first {A} (p : A → bool) (l : list A) : option (A * list A) :=
  match l with
  | [] => None
  | x :: l => if p x then Some (x, l)
              else match take_first p l with
                   | Some (y, l') => Some (y, x :: l')
                   | None => None
                   end
  end.

Definition by_name (s : sched) (owner : addr) (function : bytes) (e : CallOutEntry) : bool :=
  negb (non_null (co_closure e)) && bool_decide (slock s (co_target e) = Some owner)
  && bool_decide (co_function e = function).

Definition by_handle (handle : Z) (e : CallOutEntry) : bool := co_handle e =? handle.

Definition remove_matching (p : CallOutEntry → bool) (s : sched) : Z * sched :=
  match take_first p (callOuts_ s) with
  | Some (e, l) => (remainingSeconds s (co_dueAt e), s <| callOuts_ := l |>)
  | None => (-1, s)
  end.

Definition removeCallOutByName (owner : option addr) (function : bytes) (s : sched) : Z * sched :=
  match owner with
  | None => (-1, s)
  | Some o => remove_matching (by_name s o function) s
  end.

Definition removeCallOutByHandle (handle : Z) (s : sched) : Z * sched :=
  remove_matching (by_handle handle) s.

(** The live owner of an entry: of its closure, or the target. *)
Definition entry_owner (s : sched) (e : CallOutEntry) : option addr :=
  match co_closure e with
  | Some c => match closures (lpcHeap (sworld s)) !! c with
              | Some clo => slock s (owner clo)
              | None => None
              end
  | None => slock s (co_target e)
  end.

Definition alive (s : sched) (p : option addr) : bool :=
  match p with
  | Some a => flag_of (λ o, negb (destructed_ o)) (objects (sworld s)) a
  | None => false
  end.

Definition removeAllCallOutsForObject (obj : option addr) (s : sched) : sched :=
  s <| callOuts_ ::= filter (λ e,
         negb (non_null obj && bool_decide (entry_owner s e = obj))
         && alive s (entry_owner s e) = true) |>.

Definition find_matching (p : CallOutEntry → bool) (s : sched) : Z :=
  match take_first p (callOuts_ s) with
  | Some (e, _) => remainingSeconds s (co_dueAt e)
  | None => -1
  end.

Definition findCallOutByName (owner : option addr) (function : bytes) (s : sched) : Z :=
  match owner with
  | None => -1
  | Some o => find_matching (by_name s o function) s
  end.

Definition findCallOutByHandle (handle : Z) (s : sched) : Z := find_matching (by_handle handle) s.

(** ** Heart beats *)



Definition set_interval (i : Z) : LpcObject → LpcObject := λ o, o <| heartbeatInterval_ := i |>.


(** The first loop of [tickHeartbeats]: dead entries are dropped, the others
    count down; those that reach zero are due and start over.  The count is an
    [int]: [set_heart_beat(2^31)] leaves [INT_MIN], whose decrement is undefined
    in C++ and is read here as an ordinary subtraction. *)
Fixpoint countdown (os : table) (l : list HeartbeatEntry) : list HeartbeatEntry * list addr :=
  match l with
  | [] => ([], [])
  | e :: l =>
      let '(rest, due) := countdown os l in
      match os !! hb_target e with
      | None => (rest, due)
      | Some o =>
          let t := ticksRemaining e - 1 in
          if t <? 1 then (mkHeartbeat (hb_target e) (heartbeatInterval_ o) :: rest, hb_target e :: due)
          else (mkHeartbeat (hb_target e) t :: rest, due)
      end
  end.

(** ** The virtual machine as the scheduler sees it *)

Class Driver := {
  resetEvalCost : M sched unit;
  pushCommandGiver : option addr → M sched unit;
  popCommandGiver : M sched unit;
  callObject : addr → bytes → list value → M sched value;
  callClosure : addr → list value → M sched value;
  hasFunction : sched → addr → bytes → bool;
  getDriverHook : sched → Z → value;
  processPendingReplacePrograms : M sched unit;
  resumeReadyAsyncTasks : Z → M sched unit;
  pollOnce : M sched unit;
}.

Section Ticks.
Context `{Driver}.

(** The end of the chain of objects this one shadows. *)
Fixpoint command_giver (fuel : nat) (s : sched) (a : addr) : result addr :=
  match fuel with
  | O => OutOfFuel
  | S f =>
      let* o := deref (lookup_obj s a) in
      match slock s (shadowing_ o) with
      | Some b => command_giver f s b
      | None => Ok a
      end
  end.

(** An error is reported and the loop goes on. *)
Definition isolated (m : M sched unit) : M sched unit := try_catch m (λ _, ret tt).

Definition fire_heartbeat (fuel : nat) (obj : addr) : M sched unit :=
  isolated (
    do* _ := resetEvalCost in
    do* s := get in
    do* giver := lift (command_giver fuel s obj) in
    let giver := if flag_of commandsEnabled_ (objects (sworld s)) giver then Some giver else None in
    do* _ := pushCommandGiver giver in
    do* _ := try_catch (callObject obj $"heart_beat" [])
               (λ e, do* _ := popCommandGiver in throw e) in
    popCommandGiver).

Fixpoint for_each {A} (f : A → M sched unit) (l : list A) : M sched unit :=
  match l with
  | [] => ret tt
  | x :: l => do* _ := f x in for_each f l
  end.

Definition tickHeartbeats (fuel : nat) : M sched unit :=
  do* s := get in
  let '(rest, due) := countdown (objects (sworld s)) (heartbeats_ s) in
  do* _ := modify (λ s, s <| heartbeats_ := rest |>) in
  for_each (fire_heartbeat fuel) due.

(** ** Resets and clean ups *)

Definition kHReset : Z := 7.
Definition kHCleanUp : Z := 8.
Definition kTimeToCleanUp : Z := 3600.

Definition hookFunctionName (s : sched) (hookNum : Z) (fallback : bytes) : bytes :=
  match as_string (getDriverHook s hookNum) with Some n => n | None => fallback end.

Definition is_destructed (s : sched) (obj : addr) : bool :=
  flag_of destructed_ (objects (sworld s)) obj.

(** A due reset; answers whether a real [reset] was called for. *)
Definition run_reset (obj : addr) : M sched bool :=
  do* s := get in
  do* o := lift (deref (lookup_obj s obj)) in
  do* _ := modify (λ s, s <| sworld ::= rearm obj |>) in
  if resetState_ o then ret false else
  do* s := get in
  let resetFn := hookFunctionName s kHReset $"reset" in
  do* _ :=
    if hasFunction s obj resetFn then
      isolated (do* _ := resetEvalCost in do* _ := callObject obj resetFn [] in ret tt)
    else modify (sobj disableReset obj) in
  do* s := get in
  do* _ := if is_destructed s obj then ret tt
           else modify (sobj (λ o, o <| resetState_ := true |>) obj) in
  ret true.

Definition run_clean_up (obj : addr) : M sched unit :=
  do* s := get in
  do* o := lift (deref (lookup_obj s obj)) in
  let arg := if isClone_ o then 0 else 1 in
  do* result :=
    try_catch
      (do* _ := resetEvalCost in
       do* s := get in
       callObject obj (hookFunctionName s kHCleanUp $"clean_up") [mk (VInt arg)])
      (λ _, ret (mk VVoid)) in
  do* s := get in
  if is_destructed s obj then ret tt else
  modify (sobj (λ o', (if isTruthy result then o' else o' <| willCleanUp_ := false |>)
                      <| resetState_ := resetState_ o |>) obj).

(** One object of the sweep that began at [now]. *)
Definition sweep_object (dialect : LpcDialect) (now : Z) (obj : addr) : M sched unit :=
  do* s := get in
  if is_destructed s obj then ret tt else
  do* o := lift (deref (lookup_obj s obj)) in
  let readyForCleanUp := willCleanUp_ o && (seconds kTimeToCleanUp <? now - timeOfRef_ o) in
  do* resetCalled := if timeReset_ o <=? now then run_reset obj else ret false in
  do* s := get in
  if (resetCalled : bool) && is_destructed s obj then ret tt else
  let suppressed := resetCalled && bool_decide (dialect = LdMud) in
  if readyForCleanUp && negb suppressed then run_clean_up obj else ret tt.

Definition tickResetsAndCleanup : M sched unit :=
  do* s := get in
  do* dialect := lift (dialectFromString (dialect_ (config_ (sworld s)))) in
  for_each (sweep_object dialect (clock (sworld s)))
    (LiveObjectRegistry.all (objects (sworld s)) (liveObjects (sworld s))).

(** ** Firing call outs *)

Definition fire_call_out (e : CallOutEntry) : M sched unit :=
  match co_closure e with
  | Some c =>
      isolated (do* _ := resetEvalCost in do* _ := callClosure c (co_args e) in ret tt)
  | None =>
      do* s := get in
      match slock s (co_target e) with
      | None => ret tt
      | Some obj =>
          isolated (do* _ := resetEvalCost in
                    do* _ := callObject obj (co_function e) (co_args e) in ret tt)
      end
  end.

Definition is_due (now : Z) (e : CallOutEntry) : bool := co_dueAt e <=? now.

Definition tickCallOuts : M sched unit :=
  do* s := get in
  let now := clock (sworld s) in
  let due := filter (λ e, is_due now e = true) (callOuts_ s) in
  do* _ := modify (λ s, s <| callOuts_ ::= filter (λ e, is_due now e = false) |>) in
  for_each fire_call_out due.

(** ** The main loop *)

Definition kHeartbeatCycle : Z := seconds 2.

Definition run_iteration (fuel : nat) : M sched unit :=
  do* _ := pollOnce in
  do* _ := processPendingReplacePrograms in
  do* s := get in
  let now := clock (sworld s) in
  do* _ :=
    if kHeartbeatCycle <=? now - lastHeartbeat_ s then
      do* _ := modify (λ s, s <| lastHeartbeat_ := now |>) in
      do* _ := tickHeartbeats fuel in
      tickResetsAndCleanup
    else ret tt in
  do* _ := tickCallOuts in
  resumeReadyAsyncTasks now.

(** [run(server, n)] for [n > 0]: at most [n] iterations, fewer after a
    shutdown request. *)
Fixpoint run_loop (fuel n : nat) : M sched unit :=
  match n with
  | O => ret tt
  | S n =>
      do* _ := run_iteration fuel in
      do* s := get in
      if shutdownRequested s then ret tt else run_loop fuel n
  end.

Definition run (fuel n : nat) : M sched unit :=
  do* _ := modify (λ s, s <| shutdownRequested := false |>) in
  run_loop fuel n.
End Ticks.

(** ** Handles *)

Definition handles_ok (s : sched) : Prop :=
  NoDup (co_handle <$> callOuts_ s) ∧ Forall (λ e, co_handle e < nextHandle_ s) (callOuts_ s).

Lemma take_first_None {A} (p : A → bool) l : take_first p l = None ↔ Forall (λ x, p x = false) l.
Proof.
  induction l as [|x l IH]; simpl; [done|]. rewrite Forall_cons.
  destruct (p x); [naive_solver|]. destruct (take_first p l) as [[? ?]|]; naive_solver.
Qed.

Lemma take_first_Some {A} (p : A → bool) l x l' :
  take_first p l = Some (x, l') → p x = true ∧ ∃ a b, l = a ++ x :: b ∧ l' = a ++ b
    ∧ Forall (λ y, p y = false) a.
Proof.
  revert l'. induction l as [|y l IH]; intros l'; simpl; [done|]. destruct (p y) eqn:E.
  - intros [= <- <-]. split; [done|]. by exists [], l.
  - destruct (take_first p l) as [[z l1]|]; [|done]. intros [= <- <-].
    destruct (IH l1 eq_refl) as (Hp & a & b & -> & -> & Ha). split; [done|].
    exists (y :: a), b. split_and!; [done|done|]. by constructor.
Qed.

Lemma take_first_app {A} (p : A → bool) a x :
  Forall (λ y, p y = false) a → p x = true → take_first p (a ++ [x]) = Some (x, a).
Proof. induction 1 as [|y a Hy _ IH]; simpl; intros Hx; [by rewrite Hx|]. by rewrite Hy, IH. Qed.

Lemma handles_fresh s :
  handles_ok s → Forall (λ e, by_handle (nextHandle_ s) e = false) (callOuts_ s).
Proof.
  intros [_ H]. eapply Forall_impl; [exact H|]. intros e He. cbn in He.
  apply Z.eqb_neq. lia.
Qed.

Lemma addCallOut_ok e s : handles_ok s → handles_ok (snd (addCallOut e s)).
Proof.
  intros [Hn Hf]. unfold handles_ok. simpl. split.
  - rewrite fmap_app. apply NoDup_app. split_and!; [done| |apply NoDup_singleton].
    intros h (d & -> & Hd)%list_elem_of_fmap Hin. apply list_elem_of_singleton in Hin.
    rewrite Forall_forall in Hf. specialize (Hf d Hd). simpl in Hin. lia.
  - apply Forall_app. split; [|constructor; [simpl; lia|done]].
    eapply Forall_impl; [exact Hf|]. simpl. lia.
Qed.

Lemma remove_added e s :
  handles_ok s →
  let '(h, s1) := addCallOut e s in
  removeCallOutByHandle h s1 = (remainingSeconds s (co_dueAt e), s1 <| callOuts_ := callOuts_ s |>).
Proof.
  intros Hs. unfold addCallOut, removeCallOutByHandle, remove_matching. simpl.
  erewrite take_first_app; [done|by apply handles_fresh|apply Z.eqb_refl].
Qed.

Lemma remove_matching_ok p s : handles_ok s → handles_ok (snd (remove_matching p s)).
Proof.
  intros [Hn Hf]. unfold remove_matching. destruct (take_first p (callOuts_ s)) as [[e l]|] eqn:E;
    [|done].
  apply take_first_Some in E as (_ & a & b & Hl & -> & _). unfold handles_ok. simpl.
  rewrite Hl in Hn, Hf. rewrite fmap_app in *. simpl in Hn.
  rewrite Forall_app, Forall_cons in Hf. rewrite Forall_app.
  apply NoDup_app in Hn as (H1 & H2 & [_ H3]%NoDup_cons).
  split; [|naive_solver]. apply NoDup_app. split_and!; [done| |done].
  intros x Hx Hb. apply (H2 x Hx). by right.
Qed.

(** ** Beats *)

Lemma countdown_app os l1 l2 :
  countdown os (l1 ++ l2) =
  (fst (countdown os l1) ++ fst (countdown os l2), snd (countdown os l1) ++ snd (countdown os l2)).
Proof.
  induction l1 as [|e l1 IH]; simpl; [by destruct (countdown os l2)|]. rewrite IH.
  destruct (countdown os l1) as [r d], (countdown os l2) as [r2 d2]. simpl.
  destruct (os !! hb_target e); [|done]. by case_if.
Qed.

(** The entries left after [k] cycles during which no object changes. *)
Fixpoint cycles (os : table) (k : nat) (l : list HeartbeatEntry) : list HeartbeatEntry :=
  match k with
  | O => l
  | S k => cycles os k (fst (countdown os l))
  end.

Lemma cycles_S os k l : cycles os (S k) l = fst (countdown os (cycles os k l)).
Proof. revert l. induction k as [|k IH]; intros l; [done|]. exact (IH _). Qed.

(** Other objects' entries do not mention this one. *)
Definition others (obj : addr) (l : list HeartbeatEntry) : Prop :=
  Forall (λ e, hb_target e ≠ obj) l.

Lemma others_countdown obj os l :
  others obj l → others obj (fst (countdown os l)) ∧ obj ∉ snd (countdown os l).
Proof.
  unfold others. induction 1 as [|e l He _ [IH1 IH2]]; simpl; [split; [done|apply not_elem_of_nil]|].
  destruct (countdown os l) as [r d]. simpl in *.
  destruct (os !! hb_target e); [|done]. case_if; simpl; [|by split; [constructor|]].
  split; [by constructor|]. apply not_elem_of_cons. naive_solver.
Qed.

(** The ticks left in the middle of a period. *)
Definition ticks_left (n k : Z) : Z := n - k mod n.

Lemma cycles_entry os obj o n l1 l2 k :
  os !! obj = Some o → heartbeatInterval_ o = n → 1 ≤ n → others obj l1 → others obj l2 →
  ∃ l1' l2', cycles os k (l1 ++ mkHeartbeat obj n :: l2)
             = l1' ++ mkHeartbeat obj (ticks_left n (Z.of_nat k)) :: l2'
    ∧ others obj l1' ∧ others obj l2'.
Proof.
  intros Ho Hi Hn H1 H2. induction k as [|k (a & b & IH & Ha & Hb)].
  - exists l1, l2. unfold ticks_left. rewrite Z.mod_0_l, Z.sub_0_r by lia. done.
  - rewrite cycles_S, IH, countdown_app. cbn [fst].
    destruct (others_countdown obj os a Ha) as [Ha' _].
    destruct (others_countdown obj os b Hb) as [Hb' _].
    exists (fst (countdown os a)), (fst (countdown os b)). split_and!; [|done|done].
    f_equal. simpl. destruct (countdown os b) as [r d]. rewrite Ho. simpl.
    unfold ticks_left. rewrite Nat2Z.inj_succ. pose proof (Z.mod_pos_bound (Z.of_nat k) n).
    assert (Hs : Z.succ (Z.of_nat k) mod n
                 = if n - Z.of_nat k mod n - 1 <? 1 then 0 else Z.of_nat k mod n + 1).
    { rewrite <- Z.add_1_r, <- Z.add_mod_idemp_l by lia. case_if; prop_tests.
      - replace (Z.of_nat k mod n + 1) with n by lia. apply Z.mod_same. lia.
      - apply Z.mod_small. lia. }
    rewrite Hs. case_if; simpl; [|f_equal; f_equal; lia]. rewrite Z.sub_0_r. by rewrite Hi.
Qed.

(** ** One entry per object *)





Section AtEntry.
Context (s : sched) (obj : addr) (o : LpcObject) (Ho : lookup_obj s obj = Some o).





End AtEntry.




(** ** Ticks *)

Section TickProofs.
Context {D : Driver}.

(** A call that returns or throws. *)
Definition returned {A} (r : result A) : Prop :=
  match r with Ok _ | Throw _ => True | _ => False end.

Definition is_there (s : sched) (obj : addr) : Prop := is_Some (lookup_obj s obj).

(** The calls of the virtual machine return or throw, and what the sweep holds
    a pointer to stays there. *)
Record driver_returns : Prop := {
  reset_returns : ∀ s, ∃ s', resetEvalCost s = (Ok tt, s') ∧ ∀ x, is_there s x → is_there s' x;
  object_returns : ∀ a f args s, returned (fst (callObject a f args s)) ∧
    ∀ x, is_there s x → is_there (snd (callObject a f args s)) x;
  closure_returns : ∀ c args s, returned (fst (callClosure c args s));
}.

(** *** What firing call outs means *)

(** The entries are fired one after the other: the closure is applied, or the
    function called in the target, unless the target is gone; what a call
    returns or throws does not matter. *)
Inductive fired : list CallOutEntry → sched → sched → Prop :=
  | fired_none s : fired [] s s
  | fired_gone e l s s' :
      co_closure e = None → wlock (sworld s) (co_target e) = None → fired l s s' → fired (e :: l) s s'
  | fired_function e l obj s s1 r s2 s' :
      co_closure e = None → wlock (sworld s) (co_target e) = Some obj →
      resetEvalCost s = (Ok tt, s1) → callObject obj (co_function e) (co_args e) s1 = (r, s2) →
      fired l s2 s' → fired (e :: l) s s'
  | fired_closure e l c s s1 r s2 s' :
      co_closure e = Some c → resetEvalCost s = (Ok tt, s1) → callClosure c (co_args e) s1 = (r, s2) →
      fired l s2 s' → fired (e :: l) s s'.

Lemma isolated_call {A} (m : M sched A) s s1 r s2 :
  resetEvalCost s = (Ok tt, s1) → m s1 = (r, s2) → returned r →
  isolated (do* _ := resetEvalCost in do* _ := m in ret tt) s = (Ok tt, s2).
Proof. intros H1 H2 Hr. unfold isolated, try_catch, bind. rewrite H1, H2. by destruct r. Qed.

Lemma fire_all (Hd : driver_returns) l : ∀ s, ∃ s', for_each fire_call_out l s = (Ok tt, s') ∧ fired l s s'.
Proof.
  induction l as [|e l IH]; intros s; [by exists s; split; [|constructor]|]. cbn [for_each]. unfold bind at 1.
  destruct (reset_returns Hd s) as (s1 & H1 & _). unfold fire_call_out. destruct (co_closure e) as [c|] eqn:Ec.
  - pose proof (closure_returns Hd c (co_args e) s1) as Hr. destruct (callClosure c (co_args e) s1) as [r s2] eqn:E2.
    rewrite (isolated_call _ s s1 r s2) by done. destruct (IH s2) as (s' & H' & Hf). exists s'. split; [done|].
    by eapply fired_closure.
  - unfold bind at 1, get, slock. destruct (wlock (sworld s) (co_target e)) as [obj|] eqn:Et.
    + destruct (object_returns Hd obj (co_function e) (co_args e) s1) as [Hr _].
      destruct (callObject obj (co_function e) (co_args e) s1) as [r s2] eqn:E2.
      rewrite (isolated_call _ s s1 r s2) by done. destruct (IH s2) as (s' & H' & Hf). exists s'. split; [done|].
      by eapply fired_function.
    + cbn beta iota delta [ret]. destruct (IH s) as (s' & H' & Hf). exists s'. split; [done|]. by apply fired_gone.
Qed.

(** *** What the sweep means *)

(** [clean_up] is called with 0 in a clone and 1 in a blueprint.  Unless it
    destructs the object, the object is only asked again when it returned a
    true value, and counts as touched exactly when it did before. *)
Inductive cleaned (obj : addr) (s : sched) : sched → Prop :=
  | cleaned_up o s1 r s2 name :
      lookup_obj s obj = Some o → resetEvalCost s = (Ok tt, s1) →
      name = match as_string (getDriverHook s1 8) with Some n => n | None => $"clean_up" end →
      callObject obj name [mk (VInt (if isClone_ o then 0 else 1))] s1 = (r, s2) →
      cleaned obj s
        (if is_destructed s2 obj then s2
         else sobj (λ o2, o2 <| willCleanUp_ := willCleanUp_ o2 && match r with Ok v => isTruthy v | _ => false end |>
                             <| resetState_ := resetState_ o |>) obj s2).

(** The timer is pushed first; then [reset] is called, or, where there is none,
    the timer is turned off. *)
Inductive reset_called (obj : addr) (s : sched) : sched → Prop :=
  | reset_function s1 r s2 name :
      name = match as_string (getDriverHook (s <| sworld ::= rearm obj |>) 7) with Some n => n | None => $"reset" end →
      hasFunction (s <| sworld ::= rearm obj |>) obj name = true →
      resetEvalCost (s <| sworld ::= rearm obj |>) = (Ok tt, s1) → callObject obj name [] s1 = (r, s2) →
      reset_called obj s s2
  | reset_missing name :
      name = match as_string (getDriverHook (s <| sworld ::= rearm obj |>) 7) with Some n => n | None => $"reset" end →
      hasFunction (s <| sworld ::= rearm obj |>) obj name = false →
      reset_called obj s (sobj disableReset obj (s <| sworld ::= rearm obj |>)).

(** [ready]: the object wants to be cleaned up and has not been used for an
    hour, as it was before the sweep. *)
Inductive clean_up_if (ready : bool) (obj : addr) (s : sched) : sched → Prop :=
  | clean_up_ready s' : ready = true → cleaned obj s s' → clean_up_if ready obj s s'
  | clean_up_not : ready = false → clean_up_if ready obj s s.

Inductive swept (dialect : LpcDialect) (now : Z) (obj : addr) (s : sched) (o : LpcObject) : sched → Prop :=
  | swept_destructed : destructed_ o = true → swept dialect now obj s o s
  | swept_not_due s' : destructed_ o = false → now < timeReset_ o →
      clean_up_if (willCleanUp_ o && (3600 * 1000000000 <? now - timeOfRef_ o)) obj s s' → swept dialect now obj s o s'
  | swept_untouched s' : destructed_ o = false → timeReset_ o ≤ now → resetState_ o = true →
      clean_up_if (willCleanUp_ o && (3600 * 1000000000 <? now - timeOfRef_ o)) obj (s <| sworld ::= rearm obj |>) s' →
      swept dialect now obj s o s'
  | swept_gone s1 : destructed_ o = false → timeReset_ o ≤ now → resetState_ o = false →
      reset_called obj s s1 → is_destructed s1 obj = true → swept dialect now obj s o s1
  | swept_reset s1 s' : destructed_ o = false → timeReset_ o ≤ now → resetState_ o = false →
      reset_called obj s s1 → is_destructed s1 obj = false →
      clean_up_if (willCleanUp_ o && (3600 * 1000000000 <? now - timeOfRef_ o) && negb (bool_decide (dialect = LdMud))) obj
        (sobj (λ o, o <| resetState_ := true |>) obj s1) s' →
      swept dialect now obj s o s'.

Lemma lookup_sobj_other f a b s : is_there s b → is_there (sobj f a s) b.
Proof. unfold is_there, lookup_obj. simpl. by rewrite upd_is_Some. Qed.

Lemma sobj_ext f g a s : (∀ o, f o = g o) → sobj f a s = sobj g a s.
Proof. intros H. unfold sobj, upd_obj, upd. destruct s as [? ? ? ? ? []]. cbn. do 2 f_equal. by apply alter_ext. Qed.

Lemma is_destructed_lookup s obj o : lookup_obj s obj = Some o → is_destructed s obj = destructed_ o.
Proof. unfold is_destructed, flag_of, lookup_obj. by intros ->. Qed.

Lemma then_run {A B} (m : M sched A) (k : A → M sched B) s a s1 : m s = (Ok a, s1) → bind m k s = k a s1.
Proof. unfold bind. by intros ->. Qed.

Lemma clean_up_answers obj arg s s1 r s2 :
  resetEvalCost s = (Ok tt, s1) → callObject obj (hookFunctionName s1 kHCleanUp $"clean_up") [arg] s1 = (r, s2) →
  returned r → ∃ v,
    try_catch (do* _ := resetEvalCost in do* s := get in callObject obj (hookFunctionName s kHCleanUp $"clean_up") [arg])
      (λ _, ret (mk VVoid)) s = (Ok v, s2) ∧
    isTruthy v = match r with Ok v => isTruthy v | _ => false end.
Proof.
  intros H1 H2 Hr. unfold try_catch. rewrite (then_run _ _ _ _ _ H1), (then_run get _ s1 s1 s1) by done. rewrite H2.
  destruct r as [v|e| |]; [by exists v|by exists (mk VVoid)|done..].
Qed.

Lemma run_clean_up_does (Hd : driver_returns) obj s : is_there s obj → ∃ s', run_clean_up obj s = (Ok tt, s') ∧ cleaned obj s s'.
Proof.
  intros [o Ho]. destruct (reset_returns Hd s) as (s1 & H1 & _).
  set (name := hookFunctionName s1 kHCleanUp $"clean_up").
  destruct (object_returns Hd obj name [mk (VInt (if isClone_ o then 0 else 1))] s1) as [Hr _].
  destruct (callObject obj name [mk (VInt (if isClone_ o then 0 else 1))] s1) as [r s2] eqn:E2. simpl in Hr.
  destruct (clean_up_answers obj _ s s1 r s2 H1 E2 Hr) as (v & Hv & Ht).
  eexists. split; [|by eapply (cleaned_up obj s o s1 r s2 name)].
  unfold run_clean_up. rewrite (then_run get _ s s s) by done.
  rewrite (then_run (lift _) _ s o s) by (unfold lift; by rewrite Ho).
  cbv zeta. rewrite (then_run _ _ _ _ _ Hv), (then_run get _ s2 s2 s2) by done.
  destruct (is_destructed s2 obj); [done|]. unfold modify. f_equal. rewrite <- Ht. apply sobj_ext.
  intros []; destruct (isTruthy v); cbn; by rewrite ?andb_true_r, ?andb_false_r.
Qed.

Lemma run_reset_virtual obj s o : lookup_obj s obj = Some o → resetState_ o = true →
  run_reset obj s = (Ok false, s <| sworld ::= rearm obj |>).
Proof. intros Ho Hr. unfold run_reset, bind, get, lift, modify. rewrite Ho. cbn [deref]. by rewrite Hr. Qed.

Lemma is_there_rearm s obj x : is_there s x → is_there (s <| sworld ::= rearm obj |>) x.
Proof. unfold is_there, lookup_obj. simpl. by rewrite upd_is_Some. Qed.

Lemma run_reset_calls (Hd : driver_returns) obj s o : lookup_obj s obj = Some o → resetState_ o = false →
  ∃ s1, reset_called obj s s1 ∧ is_there s1 obj ∧
    run_reset obj s = (Ok true, if is_destructed s1 obj then s1 else sobj (λ o, o <| resetState_ := true |>) obj s1).
Proof.
  intros Ho Hr. set (sr := s <| sworld ::= rearm obj |>).
  assert (Hin : is_there sr obj) by (apply is_there_rearm; by exists o).
  destruct (reset_returns Hd sr) as (s1 & H1 & Hs1). set (name := hookFunctionName sr kHReset $"reset").
  destruct (object_returns Hd obj name [] s1) as [Hret Hkeep].
  destruct (callObject obj name [] s1) as [r s2] eqn:E2. simpl in Hret, Hkeep.
  assert (Hrun : run_reset obj s = bind (if hasFunction sr obj name
      then isolated (do* _ := resetEvalCost in do* _ := callObject obj name [] in ret tt)
      else modify (sobj disableReset obj)) (λ _, bind get (λ s, bind (if is_destructed s obj then ret tt
           else modify (sobj (λ o, o <| resetState_ := true |>) obj)) (λ _, ret true))) sr).
  { unfold run_reset. rewrite (then_run get _ s s s) by done.
    rewrite (then_run (lift _) _ s o s) by (unfold lift; by rewrite Ho).
    rewrite (then_run (modify _) _ s tt sr) by done. by rewrite Hr. }
  rewrite Hrun. destruct (hasFunction sr obj name) eqn:Ef.
  - exists s2. split; [by eapply (reset_function obj s s1 r s2 name)|]. split; [auto|].
    rewrite (then_run _ _ _ _ _ (isolated_call _ sr s1 r s2 H1 E2 Hret)), (then_run get _ s2 s2 s2) by done.
    by destruct (is_destructed s2 obj).
  - exists (sobj disableReset obj sr). split; [by eapply (reset_missing obj s name)|]. split; [by apply lookup_sobj_other|].
    rewrite (then_run (modify _) _ sr tt (sobj disableReset obj sr)), (then_run get _ (sobj disableReset obj sr)
      (sobj disableReset obj sr) (sobj disableReset obj sr)) by done.
    by destruct (is_destructed (sobj disableReset obj sr) obj).
Qed.

Lemma clean_up_if_does (Hd : driver_returns) (ready : bool) obj s : is_there s obj →
  ∃ s', (if (ready : bool) then run_clean_up obj else ret tt) s = (Ok tt, s') ∧ clean_up_if ready obj s s'.
Proof.
  intros H. destruct ready; [|by exists s; split; [|constructor]].
  destruct (run_clean_up_does Hd obj s H) as (s' & Hr & Hc). exists s'. split; [done|by constructor].
Qed.

Lemma is_destructed_sobj obj s : is_destructed (sobj (λ o, o <| resetState_ := true |>) obj s) obj = is_destructed s obj.
Proof.
  unfold is_destructed, flag_of. simpl. unfold upd. rewrite lookup_alter_eq. by destruct (objects (sworld s) !! obj).
Qed.
End TickProofs.

(** ** Properties *)

(** C13: call out handles are unique: a new one differs from every pending one,
    removing it gives back the remaining seconds and the queue as it was, a
    second removal finds nothing, and adding and removing keep the handles
    unique. *)
Theorem call_out_handles e s p (Hs : handles_ok s) :
  let '(h, s1) := addCallOut e s in
  (∀ d, d ∈ callOuts_ s → co_handle d ≠ h) ∧
  removeCallOutByHandle h s1 = (remainingSeconds s (co_dueAt e), s1 <| callOuts_ := callOuts_ s |>) ∧
  fst (removeCallOutByHandle h (snd (removeCallOutByHandle h s1))) = -1 ∧
  handles_ok s1 ∧ handles_ok (snd (remove_matching p s1)).
Proof.
  pose proof (addCallOut_ok e s Hs) as Hok. unfold addCallOut in *. cbn [snd] in Hok.
  pose proof (handles_fresh s Hs) as Hfresh.
  pose proof (remove_added e s Hs) as Hrem. cbn beta iota zeta delta [addCallOut] in Hrem.
  rewrite Hrem. cbn [snd].
  split_and!.
  - intros d Hd Heq. rewrite Forall_forall in Hfresh. specialize (Hfresh d Hd).
    apply Z.eqb_neq in Hfresh. done.
  - done.
  - unfold removeCallOutByHandle, remove_matching. simpl.
    by rewrite (proj2 (take_first_None _ _)).
  - done.
  - by apply remove_matching_ok.
Qed.

(** C11: an object with heart beat interval [n] is called on every [n]-th cycle
    and on no other: of the cycles after [set_heart_beat(n)] it is due exactly
    in those whose number is a multiple of [n]. *)
Theorem heartbeat_period os obj o n l1 l2 k (Ho : os !! obj = Some o)
    (Hi : heartbeatInterval_ o = n) (Hn : 1 ≤ n) (H1 : others obj l1) (H2 : others obj l2) :
  obj ∈ snd (countdown os (cycles os k (l1 ++ mkHeartbeat obj n :: l2))) ↔
  (n | Z.of_nat (S k)).
Proof.
  destruct (cycles_entry os obj o n l1 l2 k Ho Hi Hn H1 H2) as (a & b & -> & Ha & Hb).
  rewrite countdown_app. cbn [snd].
  destruct (others_countdown obj os a Ha) as [_ Ha'].
  destruct (others_countdown obj os b Hb) as [_ Hb'].
  rewrite elem_of_app. simpl. destruct (countdown os b) as [r d]. rewrite Ho. simpl in *.
  rewrite <- Z.mod_divide by lia. rewrite Nat2Z.inj_succ, <- Z.add_1_r.
  rewrite <- Z.add_mod_idemp_l by lia. unfold ticks_left.
  pose proof (Z.mod_pos_bound (Z.of_nat k) n). case_if; prop_tests; cbn [snd].
  - replace (Z.of_nat k mod n + 1) with n by lia. rewrite Z.mod_same by lia. set_solver.
  - rewrite Z.mod_small by lia. split; [set_solver|lia].
Qed.



(** C10: one tick of the call outs takes the entries whose time has come out of
    the queue before any of them runs, so one added by a running call out waits
    for a later tick; then it fires each of them once, in queue order, with its
    own arguments: the closure is applied, or the function called in the
    target, with the evaluation limit reset, and skipped when the target is
    gone.  Whatever a call returns or throws, the following ones still run and
    the tick returns. *)
Theorem tick_call_outs_isolated {D : Driver} s (Hd : driver_returns) :
  let now := clock (sworld s) in
  ∃ s', tickCallOuts s = (Ok tt, s') ∧
    fired (filter (λ e, co_dueAt e ≤ now) (callOuts_ s))
      (s <| callOuts_ := filter (λ e, now < co_dueAt e) (callOuts_ s) |>) s'.
Proof.
  cbv zeta. set (now := clock (sworld s)).
  destruct (fire_all Hd (filter (λ e, is_due now e = true) (callOuts_ s))
    (s <| callOuts_ ::= filter (λ e, is_due now e = false) |>)) as (s' & Hr & Hf).
  exists s'. split; [exact Hr|]. unfold is_due in Hf.
  rewrite (list_filter_iff _ (λ e, (co_dueAt e <=? now) = true)) by (intros; lia).
  rewrite (list_filter_iff (λ e, now < co_dueAt e) (λ e, (co_dueAt e <=? now) = false)) by (intros; lia). done.
Qed.

(** C14: the sweep over one object, in every case.  A destructed object is left
    alone.  When the reset is not due, or the object was not touched since the
    last one, no [reset] is called; else it is, or the timer is turned off where
    there is none, and an object it destructs is left.  Then [clean_up] is
    called when the object wanted it and had not been used for an hour before
    the sweep, except that LDMud does not call it in the sweep that called
    [reset].  Errors of both calls are caught. *)
Theorem sweep_reset_clean_up {D : Driver} dialect now obj s o (Hd : driver_returns) (Ho : lookup_obj s obj = Some o) :
  ∃ s', sweep_object dialect now obj s = (Ok tt, s') ∧ swept dialect now obj s o s'.
Proof.
  assert (Hrun : sweep_object dialect now obj s = if destructed_ o then (Ok tt, s) else
      bind (if timeReset_ o <=? now then run_reset obj else ret false) (λ resetCalled, bind get (λ s,
        if (resetCalled : bool) && is_destructed s obj then ret tt else
        if willCleanUp_ o && (seconds kTimeToCleanUp <? now - timeOfRef_ o) &&
             negb (resetCalled && bool_decide (dialect = LdMud)) then run_clean_up obj else ret tt)) s).
  { unfold sweep_object. rewrite (then_run get _ s s s), (is_destructed_lookup s obj o) by done.
    destruct (destructed_ o); [done|]. by rewrite (then_run (lift _) _ s o s) by (unfold lift; by rewrite Ho). }
  rewrite Hrun. destruct (destructed_ o) eqn:Ed; [exists s; split; [done|by apply swept_destructed]|].
  set (ready := willCleanUp_ o && (seconds kTimeToCleanUp <? now - timeOfRef_ o)).
  destruct (timeReset_ o <=? now) eqn:Et; [apply Z.leb_le in Et|apply Z.leb_gt in Et].
  - destruct (resetState_ o) eqn:Er.
    + rewrite (then_run _ _ _ _ _ (run_reset_virtual obj s o Ho Er)).
      set (sr := s <| sworld ::= rearm obj |>). rewrite (then_run get _ sr sr sr) by done. cbn [andb negb].
      rewrite andb_true_r. destruct (clean_up_if_does Hd ready obj sr) as (s' & H1 & H2);
        [apply is_there_rearm; by exists o|].
      exists s'. split; [done|]. by eapply swept_untouched.
    + destruct (run_reset_calls Hd obj s o Ho Er) as (s1 & Hc & Hin & H1). rewrite (then_run _ _ _ _ _ H1).
      destruct (is_destructed s1 obj) eqn:E1.
      * rewrite (then_run get _ s1 s1 s1), E1 by done. cbn [andb]. exists s1. split; [done|]. by eapply swept_gone.
      * set (s2 := sobj (λ o, o <| resetState_ := true |>) obj s1). rewrite (then_run get _ s2 s2 s2) by done.
        unfold s2. rewrite is_destructed_sobj, E1. cbn [andb]. fold s2.
        destruct (clean_up_if_does Hd (ready && negb (bool_decide (dialect = LdMud))) obj s2) as (s' & H2 & H3);
          [by apply lookup_sobj_other|].
        exists s'. split; [done|]. by eapply swept_reset.
  - rewrite (then_run (ret false) _ s false s), (then_run get _ s s s) by done. cbn [andb negb]. rewrite andb_true_r.
    destruct (clean_up_if_does Hd ready obj s) as (s' & H1 & H2); [by exists o|].
    exists s'. split; [done|]. by eapply swept_not_due.
Qed.

(** ** Witnesses *)

Definition sample_sched : sched := {|
  callOuts_ := [mkCallOut 1 (Some 1%positive) $"tick" None [] 0;
                mkCallOut 2 (Some 2%positive) $"tock" None [] (seconds 5)];
  heartbeats_ := [mkHeartbeat 2%positive 4]; lastHeartbeat_ := 0; nextHandle_ := 3;
  shutdownRequested := false; sworld := sample_world |}.

Lemma call_out_handles_witness :
  fst (removeCallOutByHandle 3 (snd (addCallOut (mkCallOut 0 (Some 1%positive) $"x" None [] (seconds 9))
                                      sample_sched))) = 9.
Proof.
  destruct (call_out_handles (mkCallOut 0 (Some 1%positive) $"x" None [] (seconds 9)) sample_sched
    (λ _, true)) as (_ & -> & _); [|reflexivity].
  split; [|repeat constructor; simpl; lia].
  apply NoDup_cons. split; [by intros [=]%list_elem_of_singleton|apply NoDup_singleton].
Defined.

Definition beating_objects : table := {[ 1%positive := set_interval 3 (sample_object "/a") ]}.

Lemma heartbeat_period_witness :
  1%positive ∈ snd (countdown beating_objects (cycles beating_objects 5 [mkHeartbeat 1%positive 3])).
Proof.
  apply (heartbeat_period beating_objects 1%positive (set_interval 3 (sample_object "/a")) 3 [] []);
    [reflexivity|reflexivity|lia|constructor|constructor|by exists 2].
Defined.


(** A machine on which every call throws. *)
Definition failing_driver : Driver := {|
  resetEvalCost := ret tt; pushCommandGiver := λ _, ret tt; popCommandGiver := ret tt;
  callObject := λ _ _ _, throw InvalidArgument; callClosure := λ _ _, throw InvalidArgument;
  hasFunction := λ _ _ _, true; getDriverHook := λ _ _, mk VVoid;
  processPendingReplacePrograms := ret tt; resumeReadyAsyncTasks := λ _, ret tt;
  pollOnce := ret tt |}.

Lemma failing_driver_returns : @driver_returns failing_driver.
Proof.
  apply (@Build_driver_returns failing_driver).
  - intros s. by exists s.
  - intros. by split.
  - done.
Qed.

Lemma tick_call_outs_isolated_witness :
  fst (@tickCallOuts failing_driver sample_sched) = Ok tt ∧
  co_handle <$> callOuts_ (snd (@tickCallOuts failing_driver sample_sched)) = [2].
Proof.
  destruct (@tick_call_outs_isolated failing_driver sample_sched failing_driver_returns) as (s' & Hr & _).
  rewrite Hr. split; [reflexivity|]. apply (f_equal snd) in Hr. cbn [snd] in *. rewrite <- Hr. vm_compute. reflexivity.
Defined.

(** The reset of object 1 is due: the error of [reset] is caught, and under
    LDMud nothing more happens. *)
Lemma sweep_reset_clean_up_witness :
  fst (@sweep_object failing_driver LdMud 0 1%positive sample_sched) = Ok tt ∧
  resetState_ <$> lookup_obj (snd (@sweep_object failing_driver LdMud 0 1%positive sample_sched)) 1%positive = Some true.
Proof.
  destruct (@sweep_reset_clean_up failing_driver LdMud 0 1%positive sample_sched (sample_object "/a")
    failing_driver_returns) as (s' & Hr & _); [reflexivity|].
  rewrite Hr. split; [reflexivity|]. apply (f_equal snd) in Hr. cbn [snd] in *. rewrite <- Hr. vm_compute. reflexivity.
Defined.
