(* ===== verification/Connection.v ===== *)
(** * Connection: one network connection

    Models [src/net/Connection.cpp] and [include/kjdmud/net/Connection.hpp]:
    the transport (partial writes, WebSocket framing and handshake), the telnet
    state machine, the protocol messages built on it, the line reader and the
    life cycle.  The system calls and OpenSSL are outside: the results of the
    writes to come are the list [tx] of the state, those of the reads and of
    the TLS handshake are arguments, and the accept key of the WebSocket
    handshake is a parameter. *)

From S2P Require Import Prelude Doubles Values Objects.

(** ** Constants *)

Definition kIac : ascii := "255".
Definition kDont : ascii := "254".
Definition kDo : ascii := "253".
Definition kWont : ascii := "252".
Definition kWill : ascii := "251".
Definition kSb : ascii := "250".
Definition kSe : ascii := "240".
Definition kTelOptEcho : ascii := "001".
Definition kTelOptTtype : ascii := "024".
Definition kTelOptNaws : ascii := "031".
Definition kTelOptMsdp : ascii := "069".
Definition kTelOptMssp : ascii := "070".
Definition kTelOptMsp : ascii := "090".
Definition kTelOptMxp : ascii := "091".
Definition kTelOptZmp : ascii := "093".
Definition kTelOptGmcp : ascii := "201".
Definition kTelQualIs : ascii := "000".
Definition kTelQualSend : ascii := "001".
Definition kMsspVar : ascii := "001".
Definition kMsspVal : ascii := "002".
Definition kMsdpVar : ascii := "001".
Definition kMsdpVal : ascii := "002".

(** ** State *)

Inductive TelnetState := Data | Iac | Will | Wont | Do | Dont | Sb | SbIac.

#[export] Instance TelnetState_eq_dec : EqDecision TelnetState.
Proof. solve_decision. Defined.

Record PendingInputTo := mkPendingInputTo {
  pi_object : option addr;
  pi_function : value;
  pi_extraArgs : list value;
}.

(** What a [write] that is still to come will do: take some bytes, be
    interrupted by a signal, or fail.  An exhausted list takes everything. *)
Inductive WriteResult := Wrote (n : Z) | WriteInterrupted | WriteFailed.

Record conn := mkConn {
  fd_ : Z;
  localPort_ : Z;
  useWebSocket_ : bool;
  wsHandshakeDone_ : bool;
  telnetOffered_ : bool;
  wsHttpBuffer_ : bytes;
  wsFrameBuffer_ : bytes;
  wsPendingSend_ : bytes;
  encoding_ : bytes;
  gmcpEnabled_ : bool;
  gmcpEnableNegotiated_ : bool;
  incomingGmcp_ : list bytes;
  msspNegotiated_ : bool;
  msdpEnabled_ : bool;
  msdpEnableNegotiated_ : bool;
  incomingMsdp_ : list (bytes * bytes);
  mxpEnabled_ : bool;
  mspEnabled_ : bool;
  mspEnableNegotiated_ : bool;
  zmpEnabled_ : bool;
  incomingZmp_ : list (bytes * list bytes);
  inputBuffer_ : bytes;
  boundObject_ : option addr;
  closed_ : bool;
  pendingInputTo_ : option PendingInputTo;
  pendingNotifyFail_ : option value;
  lastActivityTime_ : Z;
  telnetState_ : TelnetState;
  sbBuffer_ : bytes;
  echoSuppressed_ : bool;
  terminalWidth_ : Z;
  terminalHeight_ : Z;
  windowSizeUpdated_ : bool;
  terminalType_ : bytes;
  terminalTypeUpdated_ : bool;
  tx : list WriteResult;                (** what the writes to come will do *)
  wire : bytes;                         (** the bytes written so far *)
}.

#[export] Instance eta_conn : Eta conn := λ c,
  mkConn (fd_ c) (localPort_ c) (useWebSocket_ c) (wsHandshakeDone_ c) (telnetOffered_ c)
    (wsHttpBuffer_ c) (wsFrameBuffer_ c) (wsPendingSend_ c) (encoding_ c) (gmcpEnabled_ c)
    (gmcpEnableNegotiated_ c) (incomingGmcp_ c) (msspNegotiated_ c) (msdpEnabled_ c)
    (msdpEnableNegotiated_ c) (incomingMsdp_ c) (mxpEnabled_ c) (mspEnabled_ c)
    (mspEnableNegotiated_ c) (zmpEnabled_ c) (incomingZmp_ c) (inputBuffer_ c) (boundObject_ c)
    (closed_ c) (pendingInputTo_ c) (pendingNotifyFail_ c) (lastActivityTime_ c) (telnetState_ c)
    (sbBuffer_ c) (echoSuppressed_ c) (terminalWidth_ c) (terminalHeight_ c)
    (windowSizeUpdated_ c) (terminalType_ c) (terminalTypeUpdated_ c) (tx c) (wire c).

(** The constructor. *)
Definition newConnection (fd now : Z) : conn :=
  {| fd_ := fd; localPort_ := 0; useWebSocket_ := false; wsHandshakeDone_ := false;
     telnetOffered_ := false; wsHttpBuffer_ := []; wsFrameBuffer_ := []; wsPendingSend_ := [];
     encoding_ := $"utf-8"; gmcpEnabled_ := false; gmcpEnableNegotiated_ := false;
     incomingGmcp_ := []; msspNegotiated_ := false; msdpEnabled_ := false;
     msdpEnableNegotiated_ := false; incomingMsdp_ := []; mxpEnabled_ := false;
     mspEnabled_ := false; mspEnableNegotiated_ := false; zmpEnabled_ := false;
     incomingZmp_ := []; inputBuffer_ := []; boundObject_ := None; closed_ := false;
     pendingInputTo_ := None; pendingNotifyFail_ := None; lastActivityTime_ := now;
     telnetState_ := Data; sbBuffer_ := []; echoSuppressed_ := false; terminalWidth_ := 0;
     terminalHeight_ := 0; windowSizeUpdated_ := false; terminalType_ := [];
     terminalTypeUpdated_ := false; tx := []; wire := [] |}.

(** ** Writing *)

(** One [rawWrite]: how many bytes it took, if it did not fail. *)
Definition rawWrite (data : bytes) (c : conn) : WriteResult * conn :=
  match tx c with
  | [] => (Wrote (size data), c <| wire ::= λ w, w ++ data |>)
  | Wrote n :: r =>
      let k := Z.max 0 (Z.min n (size data)) in
      (Wrote k, c <| wire ::= λ w, w ++ takez k data |> <| tx := r |>)
  | e :: r => (e, c <| tx := r |>)
  end.

(** The loop of [send]: a signal is retried, a failure or a write of nothing
    gives up on the rest.  It runs over the results of the writes to come. *)
Fixpoint write_loop (txs : list WriteResult) (data : bytes) : bytes * list WriteResult :=
  match data with
  | [] => ([], txs)
  | _ => match txs with
         | [] => (data, [])
         | WriteInterrupted :: r => write_loop r data
         | WriteFailed :: r => ([], r)
         | Wrote n :: r =>
             if n <=? 0 then ([], r) else
             let '(w, r') := write_loop r (dropz n data) in (takez n data ++ w, r')
         end
  end.

Definition byte_at (len : Z) (shift : Z) : ascii := chr (Z.land (Z.shiftr len shift) 255).

Definition encodeWsFrame (payload : bytes) : bytes :=
  let len := size payload in
  ["129"%char] ++
  (if len <=? 125 then [chr len]
   else if len <=? 65535 then ["126"%char; byte_at len 8; byte_at len 0]
   else "127"%char :: map (λ i, byte_at len (i * 8)) [7; 6; 5; 4; 3; 2; 1; 0]) ++
  payload.

Definition send (data : bytes) (c : conn) : conn :=
  if fd_ c <? 0 then c else
  if useWebSocket_ c && negb (wsHandshakeDone_ c) then c <| wsPendingSend_ ::= λ p, p ++ data |>
  else
    let out := if useWebSocket_ c && wsHandshakeDone_ c then encodeWsFrame data else data in
    let '(w, r) := write_loop (tx c) out in
    c <| wire ::= λ x, x ++ w |> <| tx := r |>.

(** ** Telnet messages *)

Definition appendIacEscaped (data : bytes) : bytes :=
  concat (map (λ b, if Ascii.eqb b kIac then [b; kIac] else [b]) data).

Definition subnegotiation (option : ascii) (payload : bytes) : bytes :=
  [kIac; kSb; option] ++ payload ++ [kIac; kSe].

Definition sendGmcp (package : bytes) : conn → conn :=
  send (subnegotiation kTelOptGmcp (appendIacEscaped package)).

Definition appendMsspVar (name value : bytes) : bytes :=
  [kMsspVar] ++ appendIacEscaped name ++ [kMsspVal] ++ appendIacEscaped value.

Definition sendMssp (mudName : bytes) (playerCount uptimeSeconds : Z) : conn → conn :=
  send (subnegotiation kTelOptMssp
    (appendMsspVar $"NAME" mudName ++ appendMsspVar $"PLAYERS" (to_string playerCount) ++
     appendMsspVar $"UPTIME" (to_string uptimeSeconds) ++ appendMsspVar $"CODEBASE" $"kjdmud")).

Definition sendMsdp (varName value : bytes) : conn → conn :=
  send (subnegotiation kTelOptMsdp
    ([kMsdpVar] ++ appendIacEscaped varName ++ [kMsdpVal] ++ appendIacEscaped value)).

Definition sendMspOob (payload : bytes) (c : conn) : conn :=
  if mspEnabled_ c then send (subnegotiation kTelOptMsp (appendIacEscaped payload)) c else c.

Definition zmp_fields (fields : list bytes) : bytes :=
  concat (map (λ f, appendIacEscaped f ++ [NUL]) fields).

Definition sendZmp (command : bytes) (args : list bytes) : conn → conn :=
  send (subnegotiation kTelOptZmp (zmp_fields (command :: args))).

Definition suppressEcho (c : conn) : conn :=
  if echoSuppressed_ c then c
  else send [kIac; kWill; kTelOptEcho] (c <| echoSuppressed_ := true |>).

Definition requestWindowSize : conn → conn := send [kIac; kDo; kTelOptNaws].
Definition requestTerminalType : conn → conn :=
  send [kIac; kSb; kTelOptTtype; kTelQualSend; kIac; kSe].
Definition startRequestTerminalType : conn → conn := send [kIac; kDo; kTelOptTtype].

(** ** The telnet state machine *)

Definition handleNegotiation (kind : TelnetState) (option : ascii) (c : conn) : conn :=
  match kind with
  | Will =>
      if Ascii.eqb option kTelOptEcho || Ascii.eqb option kTelOptNaws then c else
      if Ascii.eqb option kTelOptTtype then requestTerminalType c else
      if Ascii.eqb option kTelOptGmcp then
        (send [kIac; kDo; kTelOptGmcp] c)
          <| gmcpEnabled_ := true |> <| gmcpEnableNegotiated_ := true |> else
      if Ascii.eqb option kTelOptMsdp then
        (send [kIac; kDo; kTelOptMsdp] c)
          <| msdpEnabled_ := true |> <| msdpEnableNegotiated_ := true |> else
      if Ascii.eqb option kTelOptMxp then
        (send [kIac; kDo; kTelOptMxp] c) <| mxpEnabled_ := true |> else
      if Ascii.eqb option kTelOptMsp then
        (send [kIac; kDo; kTelOptMsp] c)
          <| mspEnabled_ := true |> <| mspEnableNegotiated_ := true |> else
      if Ascii.eqb option kTelOptZmp then
        (send [kIac; kDo; kTelOptZmp] c) <| zmpEnabled_ := true |> else
      send [kIac; kDont; option] c
  | Do =>
      if Ascii.eqb option kTelOptEcho then c else
      if Ascii.eqb option kTelOptGmcp then
        c <| gmcpEnabled_ := true |> <| gmcpEnableNegotiated_ := true |> else
      if Ascii.eqb option kTelOptMssp then c <| msspNegotiated_ := true |> else
      if Ascii.eqb option kTelOptMsdp then
        c <| msdpEnabled_ := true |> <| msdpEnableNegotiated_ := true |> else
      if Ascii.eqb option kTelOptMxp then c <| mxpEnabled_ := true |> else
      if Ascii.eqb option kTelOptMsp then
        c <| mspEnabled_ := true |> <| mspEnableNegotiated_ := true |> else
      if Ascii.eqb option kTelOptZmp then c <| zmpEnabled_ := true |> else
      send [kIac; kWont; option] c
  | _ => c
  end.

(** The variable and value of an MSDP payload after its first marker. *)
Definition split_at_byte (b : ascii) (s : bytes) : bytes * bytes :=
  match index_of b s with
  | Some i => (take i s, drop (S i) s)
  | None => (s, [])
  end.

(** The fields of a payload whose last byte is NUL. *)
Fixpoint nul_fields (s : bytes) : list bytes :=
  match s with
  | [] => []
  | b :: s' =>
      if Ascii.eqb b NUL then [] :: nul_fields s'
      else match nul_fields s' with
           | f :: fs => (b :: f) :: fs
           | [] => [[b]]
           end
  end.

Definition word16 (hi lo : ascii) : Z := Z.lor (Z.shiftl (code hi) 8) (code lo).

Definition sub_ttype (payload : bytes) (c : conn) : conn :=
  match payload with
  | q :: name => if Ascii.eqb q kTelQualIs
                 then c <| terminalType_ := name |> <| terminalTypeUpdated_ := true |> else c
  | [] => c
  end.

Definition sub_gmcp (payload : bytes) (c : conn) : conn :=
  (match payload with [] => c | _ => c <| incomingGmcp_ ::= λ l, l ++ [payload] |> end)
    <| gmcpEnabled_ := true |>.

Definition sub_msdp (payload : bytes) (c : conn) : conn :=
  (match payload with
   | m :: rest => if Ascii.eqb m kMsdpVar
                  then c <| incomingMsdp_ ::= λ l, l ++ [split_at_byte kMsdpVal rest] |> else c
   | [] => c
   end) <| msdpEnabled_ := true |>.

Definition sub_zmp (payload : bytes) (c : conn) : conn :=
  (if bool_decide (last payload = Some NUL) then
     match nul_fields payload with
     | command :: args => c <| incomingZmp_ ::= λ l, l ++ [(command, args)] |>
     | [] => c
     end
   else c) <| zmpEnabled_ := true |>.

Definition sub_naws (payload : bytes) (c : conn) : conn :=
  match payload with
  | a :: b :: d :: e :: _ =>
      c <| terminalWidth_ := word16 a b |> <| terminalHeight_ := word16 d e |>
        <| windowSizeUpdated_ := true |>
  | _ => c
  end.

Definition handleSubnegotiation (c : conn) : conn :=
  match sbBuffer_ c with
  | [] => c
  | sbOption :: payload =>
      if Ascii.eqb sbOption kTelOptTtype then sub_ttype payload c else
      if Ascii.eqb sbOption kTelOptGmcp then sub_gmcp payload c else
      if Ascii.eqb sbOption kTelOptMsdp then sub_msdp payload c else
      if Ascii.eqb sbOption kTelOptZmp then sub_zmp payload c else
      if Ascii.eqb sbOption kTelOptNaws then sub_naws payload c else c
  end.

Definition to_state (t : TelnetState) (c : conn) : conn := c <| telnetState_ := t |>.

(** One byte: the data byte it yields, if any, and the next state. *)
Definition telnet_byte (b : ascii) (c : conn) : bytes * conn :=
  match telnetState_ c with
  | Data => if Ascii.eqb b kIac then ([], to_state Iac c) else ([b], c)
  | Iac =>
      if Ascii.eqb b kIac then ([kIac], to_state Data c) else
      if Ascii.eqb b kWill then ([], to_state Will c) else
      if Ascii.eqb b kWont then ([], to_state Wont c) else
      if Ascii.eqb b kDo then ([], to_state Do c) else
      if Ascii.eqb b kDont then ([], to_state Dont c) else
      if Ascii.eqb b kSb then ([], to_state Sb c <| sbBuffer_ := [] |>) else
      ([], to_state Data c)
  | Will | Wont | Do | Dont =>
      ([], to_state Data (handleNegotiation (telnetState_ c) b c))
  | Sb => if Ascii.eqb b kIac then ([], to_state SbIac c)
          else ([], c <| sbBuffer_ ::= λ s, s ++ [b] |>)
  | SbIac =>
      if Ascii.eqb b kSe then ([], to_state Data (handleSubnegotiation c)) else
      if Ascii.eqb b kIac then ([], to_state Sb c <| sbBuffer_ ::= λ s, s ++ [kIac] |>)
      else ([], to_state Data c)
  end.

(** The plain bytes of a chunk, and the state after it. *)
Fixpoint processTelnetBytes (raw : bytes) (c : conn) : bytes * conn :=
  match raw with
  | [] => ([], c)
  | b :: raw =>
      let '(p, c) := telnet_byte b c in
      let '(q, c) := processTelnetBytes raw c in
      (p ++ q, c)
  end.

(** ** WebSocket *)

Definition xor_byte (a b : ascii) : ascii := chr (Z.lxor (code a) (code b)).

(** The payload under the four byte mask that begins at position [i mod 4]. *)
Fixpoint unmask (mask : list ascii) (i : nat) (data : bytes) : bytes :=
  match data with
  | [] => []
  | b :: data => xor_byte b (nth (i mod 4) mask NUL) :: unmask mask (S i) data
  end.

Definition be_value (s : bytes) : Z := foldl (λ a b, Z.lor (Z.shiftl a 8) (code b)) 0 s.

(** The first frame of the buffer: opcode, mask flag, length and header size
    without the mask; [None] when more bytes are needed. *)
Definition ws_header (buf : bytes) : option (Z * bool * Z * Z) :=
  match buf with
  | b0 :: b1 :: rest =>
      let opcode := Z.land (code b0) 15 in
      let masked := negb (Z.land (code b1) 128 =? 0) in
      let len := Z.land (code b1) 127 in
      if len =? 126 then
        if size buf <? 4 then None else Some (opcode, masked, be_value (takez 2 rest), 4)
      else if len =? 127 then
        if size buf <? 10 then None else Some (opcode, masked, be_value (takez 8 rest), 10)
      else Some (opcode, masked, len, 2)
  | _ => None
  end.

(** The payload of a frame and the rest of the buffer.  [header + len] is
    computed in [size_t]. *)
Definition ws_frame (buf : bytes) : option (result (Z * bytes * bytes)) :=
  match ws_header buf with
  | None => None
  | Some (opcode, masked, len, maskOff) =>
      let header := if (masked : bool) then maskOff + 4 else maskOff in
      if size buf <? u64 (header + len) then None else
      Some (let* data := substr buf header len in
            let data := if masked then unmask (takez 4 (dropz maskOff buf)) 0 data else data in
            Ok (opcode, data, dropz (u64 (header + len)) buf))
  end.

Definition pong (data : bytes) : bytes :=
  "138"%char :: (if size data <=? 125 then chr (size data) :: data else [NUL]).

(** The loop of [decodeWsFrames] over the frame buffer. *)
Fixpoint ws_loop (fuel : nat) : M conn bytes :=
  match fuel with
  | O => lift OutOfFuel
  | S f =>
      do* c := get in
      match ws_frame (wsFrameBuffer_ c) with
      | None => ret []
      | Some r =>
          do* frame := lift r in
          let '(opcode, data, rest) := frame in
          do* _ := modify (λ c, c <| wsFrameBuffer_ := rest |>) in
          if opcode =? 8 then
            do* _ := modify (λ c, c <| closed_ := true |>) in ret []
          else if opcode =? 9 then
            do* _ := modify (λ c, snd (rawWrite (pong data) c)) in ws_loop f
          else
            do* payload := ws_loop f in
            ret ((if (opcode =? 1) || (opcode =? 2) || (opcode =? 0) then data else []) ++ payload)
      end
  end.

Definition decodeWsFrames (fuel : nat) (incoming : bytes) : M conn bytes :=
  do* _ := modify (λ c, c <| wsFrameBuffer_ ::= λ b, b ++ incoming |>) in
  ws_loop fuel.

(** [s.find(p)]: the position of the first occurrence. *)
Fixpoint find_sub (p s : bytes) : option nat :=
  match strip_prefix p s with
  | Some _ => Some 0%nat
  | None => match s with
            | [] => None
            | _ :: s => S <$> find_sub p s
            end
  end.

Definition is_blank_tab (b : ascii) : bool := Ascii.eqb b " " || Ascii.eqb b "009".

Definition headerValue (headers name : bytes) : bytes :=
  match find_sub (map lower (name ++ $":")) (map lower headers) with
  | None => []
  | Some pos =>
      let after := snd (split_at_byte ":" (drop pos headers)) in
      let v := snd (span is_blank_tab after) in
      match index_of CRB v with
      | Some i => take i v
      | None => match index_of NL v with Some i => take i v | None => v end
      end
  end.

(** The loop that writes the handshake response: unlike [send] it retries a
    write of nothing, and a failure ends the connection. *)
Fixpoint write_response (txs : list WriteResult) (data : bytes)
    : bool * bytes * list WriteResult :=
  match data with
  | [] => (true, [], txs)
  | _ => match txs with
         | [] => (true, data, [])
         | WriteInterrupted :: r => write_response r data
         | WriteFailed :: r => (false, [], r)
         | Wrote n :: r =>
             if n <=? 0 then write_response r data else
             let '(ok, w, r') := write_response r (dropz n data) in (ok, takez n data ++ w, r')
         end
  end.

Definition CRLF : bytes := [CRB; NL].
Definition kWsMagic : bytes := $"258EAFA5-E914-47DA-95CA-C5AB0DC85B11".

Section Polling.
(** The base64 text of the SHA-1 digest, computed by OpenSSL. *)
Variable sha1Base64 : bytes → bytes.

Definition handshake_response (key : bytes) : bytes :=
  $"HTTP/1.1 101 Switching Protocols" ++ CRLF ++ $"Upgrade: websocket" ++ CRLF ++
  $"Connection: Upgrade" ++ CRLF ++ $"Sec-WebSocket-Accept: " ++
  sha1Base64 (key ++ kWsMagic) ++ CRLF ++ CRLF.

Definition tryCompleteWebSocketHandshake (fuel : nat) : M conn bool :=
  do* c := get in
  match find_sub (CRLF ++ CRLF) (wsHttpBuffer_ c) with
  | None => ret false
  | Some e =>
      let headers := take e (wsHttpBuffer_ c) in
      let leftover := drop (e + 4) (wsHttpBuffer_ c) in
      do* _ := modify (λ c, c <| wsHttpBuffer_ := [] |>) in
      match headerValue headers $"Sec-WebSocket-Key" with
      | [] => do* _ := modify (λ c, c <| closed_ := true |>) in ret false
      | key =>
          let '(ok, w, r) := write_response (tx c) (handshake_response key) in
          do* _ := modify (λ c, c <| wire ::= λ x, x ++ w |> <| tx := r |>) in
          if negb ok then do* _ := modify (λ c, c <| closed_ := true |>) in ret false else
          do* _ := modify (λ c, c <| wsHandshakeDone_ := true |>) in
          do* _ := modify (λ c, match wsPendingSend_ c with
                                | [] => c
                                | pending => send pending (c <| wsPendingSend_ := [] |>)
                                end) in
          match leftover with
          | [] => ret true
          | _ => do* text := decodeWsFrames fuel leftover in
                 do* _ := modify (λ c, c <| inputBuffer_ ::= λ b, b ++ text |>) in
                 ret true
          end
      end
  end.

(** ** Reading *)

Inductive ReadResult := Chunk (b : bytes) | Eof | Again | ReadInterrupted | ReadFailed.

(** The read loop: the bytes received, and whether the connection ended. *)
Fixpoint read_all (reads : list ReadResult) : bytes * bool :=
  match reads with
  | [] => ([], false)
  | Chunk b :: r => let '(s, e) := read_all r in (b ++ s, e)
  | ReadInterrupted :: r => read_all r
  | Again :: _ => ([], false)
  | Eof :: _ | ReadFailed :: _ => ([], true)
  end.

(** The complete lines of a buffer, and what follows the last newline. *)
Fixpoint split_lines (s : bytes) : list bytes * bytes :=
  match s with
  | [] => ([], [])
  | b :: s =>
      let '(ls, r) := split_lines s in
      if Ascii.eqb b NL then ([] :: ls, r)
      else match ls with
           | l :: ls => ((b :: l) :: ls, r)
           | [] => ([], b :: r)
           end
  end.

Definition strip_cr (l : bytes) : bytes :=
  if bool_decide (last l = Some CRB) then take (length l - 1) l else l.

(** What follows the removal of one line from the buffer. *)
Definition line_taken (c : conn) : conn :=
  if echoSuppressed_ c then send [kIac; kWont; kTelOptEcho] (c <| echoSuppressed_ := false |>)
  else c.

Definition take_lines (c : conn) : list bytes * conn :=
  let '(ls, r) := split_lines (inputBuffer_ c) in
  (map strip_cr ls, foldl (λ c _, line_taken c) (c <| inputBuffer_ := r |>) ls).

(** [processTelnetBytes(rawChunk, inputBuffer_)]. *)
Definition feed (rawChunk : bytes) (c : conn) : conn :=
  let '(plain, c) := processTelnetBytes rawChunk c in
  c <| inputBuffer_ ::= λ b, b ++ plain |>.

Definition finish_poll (rawChunk : bytes) : M conn (list bytes) := λ c,
  let '(ls, c) := take_lines (feed rawChunk c) in (Ok ls, c).

Definition pollLines (fuel : nat) (reads : list ReadResult) : M conn (list bytes) :=
  do* c := get in
  if fd_ c <? 0 then ret [] else
  let '(rawChunk, ended) := read_all reads in
  do* _ := modify (λ c, if (ended : bool) then c <| closed_ := true |> else c) in
  if useWebSocket_ c && negb (wsHandshakeDone_ c) then
    do* _ := modify (λ c, c <| wsHttpBuffer_ ::= λ b, b ++ rawChunk |>) in
    do* ok := tryCompleteWebSocketHandshake fuel in
    if (ok : bool) then finish_poll [] else ret []
  else if useWebSocket_ c && wsHandshakeDone_ c && negb (bool_decide (rawChunk = [])) then
    do* text := decodeWsFrames fuel rawChunk in
    finish_poll text
  else finish_poll rawChunk.
End Polling.

(** ** Life cycle *)

(** The objects and the registry of interactive objects. *)
Record net := mkNet { nobjects : table; users : InteractiveRegistry.registry }.

#[export] Instance eta_net : Eta net := λ n, mkNet (nobjects n) (users n).

(** [attach] of the connection named [self]. *)
Definition attach (self : positive) (obj : option addr) (c : conn) (n : net) : conn * net :=
  let n := match boundObject_ c with
           | Some _ => n <| users ::= InteractiveRegistry.remove (nobjects n) (boundObject_ c) |>
           | None => n
           end in
  let c := c <| boundObject_ := obj |> in
  match obj with
  | Some a =>
      (c, n <| users ::= InteractiveRegistry.add obj self |>
            <| nobjects ::= upd (λ o, o <| everInteractive_ := true |>) a |>)
  | None => (c, n)
  end.

Definition clear_snooping (o : LpcObject) : LpcObject := o <| snooping_ := None |>.
Definition clear_snoopedBy (o : LpcObject) : LpcObject := o <| snoopedBy_ := None |>.

(** [close]; the descriptor itself is closed by the system. *)
Definition close (c : conn) (n : net) : conn * net :=
  let n :=
    match boundObject_ c with
    | Some a =>
        let snooper := match nobjects n !! a with
                       | Some o => lock (nobjects n) (snoopedBy_ o)
                       | None => None
                       end in
        let n := match snooper with
                 | Some s => n <| nobjects ::= upd clear_snooping s |>
                 | None => n
                 end in
        let n := n <| nobjects ::= upd clear_snoopedBy a |> in
        n <| users ::= InteractiveRegistry.remove (nobjects n) (Some a) |>
    | None => n
    end in
  (c <| boundObject_ := None |> <| fd_ := (if 0 <=? fd_ c then -1 else fd_ c) |>
     <| closed_ := true |>, n).

(** The one-shot flags and queues: read and cleared together. *)
Definition takeTelnetOfferNeeded (c : conn) : bool * conn :=
  if negb (useWebSocket_ c) || negb (wsHandshakeDone_ c) || telnetOffered_ c then (false, c)
  else (true, c <| telnetOffered_ := true |>).
Definition takeIncomingGmcp (c : conn) := (incomingGmcp_ c, c <| incomingGmcp_ := [] |>).
Definition takeIncomingMsdp (c : conn) := (incomingMsdp_ c, c <| incomingMsdp_ := [] |>).
Definition takeIncomingZmp (c : conn) := (incomingZmp_ c, c <| incomingZmp_ := [] |>).
Definition takeGmcpEnableNegotiated (c : conn) :=
  (gmcpEnableNegotiated_ c, c <| gmcpEnableNegotiated_ := false |>).
Definition takeMsspNegotiated (c : conn) := (msspNegotiated_ c, c <| msspNegotiated_ := false |>).
Definition takeMsdpEnableNegotiated (c : conn) :=
  (msdpEnableNegotiated_ c, c <| msdpEnableNegotiated_ := false |>).
Definition takeMspEnableNegotiated (c : conn) :=
  (mspEnableNegotiated_ c, c <| mspEnableNegotiated_ := false |>).
Definition takeWindowSizeUpdate (c : conn) :=
  (windowSizeUpdated_ c, c <| windowSizeUpdated_ := false |>).
Definition takeTerminalTypeUpdate (c : conn) :=
  (terminalTypeUpdated_ c, c <| terminalTypeUpdated_ := false |>).
Definition setPendingInputTo (obj : option addr) (function : value) (extraArgs : list value)
  (c : conn) : conn := c <| pendingInputTo_ := Some (mkPendingInputTo obj function extraArgs) |>.
Definition takePendingInputTo (c : conn) := (pendingInputTo_ c, c <| pendingInputTo_ := None |>).
Definition setPendingNotifyFail (message : value) (c : conn) : conn :=
  c <| pendingNotifyFail_ := Some message |>.
Definition takePendingNotifyFail (c : conn) :=
  (pendingNotifyFail_ c, c <| pendingNotifyFail_ := None |>).
Definition clearPendingNotifyFail (c : conn) : conn := c <| pendingNotifyFail_ := None |>.
Definition touchActivity (now : Z) (c : conn) : conn := c <| lastActivityTime_ := now |>.
