(* ===== verification/Telnet.v ===== *)
(** * Telnet: what the telnet state machine of a connection does

    The byte loop [processTelnetBytes] is shown to implement a grammar of
    telnet tokens, the protocol messages are read back by it, and the line
    reader delivers the lines that were typed, however the network cuts them
    into reads. *)

From S2P Require Import Prelude Doubles Values Objects Connection.

(** ** Sequencing *)

Lemma processTelnetBytes_app a b c :
  processTelnetBytes (a ++ b) c =
  let '(p, c1) := processTelnetBytes a c in
  let '(q, c2) := processTelnetBytes b c1 in (p ++ q, c2).
Proof.
  revert c. induction a as [|x a IH]; intros c; simpl; [by destruct (processTelnetBytes b c)|].
  destruct (telnet_byte x c) as [p c1]. rewrite IH.
  destruct (processTelnetBytes a c1) as [q c2]. destruct (processTelnetBytes b c2) as [r c3].
  by rewrite app_assoc.
Qed.

(** ** A grammar of telnet *)

Inductive token :=
  | TData (b : ascii)                            (** an ordinary byte *)
  | TEscape                                      (** a doubled IAC *)
  | TCommand (b : ascii)                         (** a two byte command *)
  | TNegotiate (k : TelnetState) (o : ascii)     (** WILL, WONT, DO or DONT *)
  | TSub (p : bytes)                             (** a complete subnegotiation *)
  | TAbandon (p : bytes) (b : ascii).            (** one ended by IAC and another byte *)

Definition negotiating (k : TelnetState) : bool :=
  match k with Will | Wont | Do | Dont => true | _ => false end.

Definition wf_token (t : token) : Prop :=
  match t with
  | TData b => b ≠ kIac
  | TCommand b => b ∉ [kIac; kWill; kWont; kDo; kDont; kSb]
  | TNegotiate k _ => negotiating k = true
  | TAbandon _ b => b ≠ kSe ∧ b ≠ kIac
  | _ => True
  end.

Definition kind_byte (k : TelnetState) : ascii :=
  match k with Will => kWill | Wont => kWont | Do => kDo | _ => kDont end.

Definition render (t : token) : bytes :=
  match t with
  | TData b => [b]
  | TEscape => [kIac; kIac]
  | TCommand b => [kIac; b]
  | TNegotiate k o => [kIac; kind_byte k; o]
  | TSub p => [kIac; kSb] ++ appendIacEscaped p ++ [kIac; kSe]
  | TAbandon p b => [kIac; kSb] ++ appendIacEscaped p ++ [kIac; b]
  end.

Definition plain_of (t : token) : bytes :=
  match t with TData b => [b] | TEscape => [kIac] | _ => [] end.

Definition effect (t : token) (c : conn) : conn :=
  match t with
  | TNegotiate k o => handleNegotiation k o c
  | TSub p => handleSubnegotiation (c <| sbBuffer_ := p |>)
  | TAbandon p _ => c <| sbBuffer_ := p |>
  | _ => c
  end.

Definition render_all (ts : list token) : bytes := concat (map render ts).
Definition plain_all (ts : list token) : bytes := concat (map plain_of ts).
Definition effects (ts : list token) (c : conn) : conn := foldl (λ c t, effect t c) c ts.

(** ** The machine's handlers do not depend on its state *)

Lemma send_to_state t d c : send d (to_state t c) = to_state t (send d c).
Proof. unfold send. cbn. repeat (case_match; try done). Qed.

Lemma to_state_twice t u c : to_state t (to_state u c) = to_state t c.
Proof. done. Qed.

Lemma to_state_same c t : telnetState_ c = t → to_state t c = c.
Proof. destruct c; cbn. by intros ->. Qed.

Lemma handleNegotiation_to_state t k o c :
  handleNegotiation k o (to_state t c) = to_state t (handleNegotiation k o c).
Proof.
  unfold handleNegotiation, requestTerminalType.
  destruct k; try done; repeat (case_if; [by rewrite ?send_to_state|]); by rewrite send_to_state.
Qed.

Lemma handleSubnegotiation_to_state t c :
  handleSubnegotiation (to_state t c) = to_state t (handleSubnegotiation c).
Proof.
  unfold handleSubnegotiation. cbn [to_state sbBuffer_ update].
  destruct (sbBuffer_ c) as [|o p]; [done|].
  unfold sub_ttype, sub_gmcp, sub_msdp, sub_zmp, sub_naws.
  repeat (case_if; [repeat case_match; done|]). done.
Qed.

Lemma send_telnetState d c : telnetState_ (send d c) = telnetState_ c.
Proof. unfold send. repeat (case_match; try done). Qed.

Lemma negotiation_keeps_state k o c : telnetState_ (handleNegotiation k o c) = telnetState_ c.
Proof.
  unfold handleNegotiation, requestTerminalType.
  destruct k; try done; repeat (case_if; [by cbn; rewrite ?send_telnetState|]);
    by rewrite ?send_telnetState.
Qed.

Lemma subnegotiation_keeps_state c : telnetState_ (handleSubnegotiation c) = telnetState_ c.
Proof.
  unfold handleSubnegotiation. destruct (sbBuffer_ c) as [|o p]; [done|].
  unfold sub_ttype, sub_gmcp, sub_msdp, sub_zmp, sub_naws.
  repeat (case_if; [repeat case_match; done|]). done.
Qed.

Lemma effect_keeps_state t c : telnetState_ (effect t c) = telnetState_ c.
Proof.
  destruct t; try done; cbn [effect].
  - apply negotiation_keeps_state.
  - by rewrite subnegotiation_keeps_state.
Qed.

(** ** One token *)

Lemma sb_payload p c :
  telnetState_ c = Sb →
  processTelnetBytes (appendIacEscaped p) c = ([], c <| sbBuffer_ ::= λ s, s ++ p |>).
Proof.
  unfold appendIacEscaped. revert c. induction p as [|b p IH]; intros c Hc.
  - destruct c; cbn. by rewrite app_nil_r.
  - cbn [map concat]. destruct (Ascii.eqb b kIac) eqn:E.
    + prop_tests. subst b. cbn [app processTelnetBytes]. unfold telnet_byte at 1. rewrite Hc.
      cbn -[processTelnetBytes]. rewrite IH by done. destruct c; cbn in *. by subst; rewrite <- app_assoc.
    + cbn [app processTelnetBytes]. unfold telnet_byte at 1. rewrite Hc, E.
      cbn -[processTelnetBytes]. rewrite IH by done. destruct c; cbn in *. by subst; rewrite <- app_assoc.
Qed.

(** The first byte of a command, and of a subnegotiation. *)
Lemma iac_step raw c :
  telnetState_ c = Data → processTelnetBytes (kIac :: raw) c = processTelnetBytes raw (to_state Iac c).
Proof.
  intros Hc. cbn [processTelnetBytes]. unfold telnet_byte at 1. rewrite Hc, Ascii.eqb_refl.
  by destruct (processTelnetBytes raw _).
Qed.

Lemma sb_iac_step raw c :
  telnetState_ c = Sb → processTelnetBytes (kIac :: raw) c = processTelnetBytes raw (to_state SbIac c).
Proof.
  intros Hc. cbn [processTelnetBytes]. unfold telnet_byte at 1. rewrite Hc, Ascii.eqb_refl.
  by destruct (processTelnetBytes raw _).
Qed.

Lemma sb_start raw c :
  processTelnetBytes (kSb :: raw) (to_state Iac c)
  = processTelnetBytes raw (to_state Sb (c <| sbBuffer_ := [] |>)).
Proof. cbn. by destruct (processTelnetBytes raw _). Qed.

Lemma process_one b c : processTelnetBytes [b] c = telnet_byte b c.
Proof. cbn [processTelnetBytes]. destruct (telnet_byte b c). by rewrite app_nil_r. Qed.

Lemma sub_steps p b c :
  telnetState_ c = Data →
  processTelnetBytes ([kIac; kSb] ++ appendIacEscaped p ++ [kIac; b]) c
  = telnet_byte b (to_state SbIac (c <| sbBuffer_ := p |>)).
Proof.
  intros Hc. cbn [app]. rewrite iac_step, sb_start, processTelnetBytes_app, sb_payload by done.
  rewrite sb_iac_step, process_one by done.
  change (to_state SbIac _) with (to_state SbIac (c <| sbBuffer_ := p |>)).
  by destruct (telnet_byte b _).
Qed.

Lemma token_step t c :
  telnetState_ c = Data → wf_token t → processTelnetBytes (render t) c = (plain_of t, effect t c).
Proof.
  intros Hc. destruct t as [b| |b|k o|p|p b]; cbn [wf_token render plain_of effect]; intros Hw.
  - cbn [processTelnetBytes]. unfold telnet_byte. by rewrite Hc, ascii_eqb_neq by done.
  - rewrite iac_step by done. cbn. by rewrite to_state_twice, to_state_same.
  - rewrite iac_step by done. cbn [processTelnetBytes]. unfold telnet_byte. cbn [to_state telnetState_ update].
    rewrite !not_elem_of_cons in Hw. destruct Hw as (H1 & H2 & H3 & H4 & H5 & H6 & _).
    rewrite !ascii_eqb_neq by done. cbn. by rewrite to_state_twice, to_state_same.
  - rewrite iac_step by done. cbn [processTelnetBytes].
    assert (Hk : telnet_byte (kind_byte k) (to_state Iac c) = ([], to_state k c)) by by destruct k.
    rewrite Hk. unfold telnet_byte. cbn [to_state telnetState_ update].
    destruct k; try done; cbn [app]; f_equal;
      by rewrite handleNegotiation_to_state, to_state_twice, to_state_same
        by (by rewrite negotiation_keeps_state).
  - rewrite sub_steps by done. unfold telnet_byte. cbn [to_state telnetState_ update]. f_equal.
    by rewrite handleSubnegotiation_to_state, to_state_twice, to_state_same
      by (by rewrite subnegotiation_keeps_state).
  - destruct Hw. rewrite sub_steps by done. unfold telnet_byte. cbn [to_state telnetState_ update].
    rewrite !ascii_eqb_neq by done. rewrite to_state_twice. by rewrite to_state_same.
Qed.

Lemma tokens_step ts c :
  telnetState_ c = Data → Forall wf_token ts →
  processTelnetBytes (render_all ts) c = (plain_all ts, effects ts c).
Proof.
  intros Hc Hw. revert c Hc. induction Hw as [|t ts Ht _ IH]; intros c Hc; [done|].
  unfold render_all, plain_all in *. cbn [map concat]. rewrite processTelnetBytes_app, token_step by done.
  rewrite IH by (by rewrite effect_keeps_state). done.
Qed.

(** ** Every byte sequence is tokens and an unfinished one *)

Definition unfinished (s : bytes) : Prop :=
  s = [] ∨ s = [kIac] ∨ (∃ k, negotiating k = true ∧ s = [kIac; kind_byte k]) ∨
  ∃ p, s = [kIac; kSb] ++ appendIacEscaped p ∨ s = [kIac; kSb] ++ appendIacEscaped p ++ [kIac].

Lemma unfinished_plain s c :
  telnetState_ c = Data → unfinished s → fst (processTelnetBytes s c) = [].
Proof.
  intros Hc [->|[->|[(k & Hk & ->)|(p & [->| ->])]]]; [done| | | |].
  - by rewrite iac_step.
  - rewrite iac_step by done. by destruct k.
  - cbn [app]. rewrite iac_step, sb_start, sb_payload by done. done.
  - cbn [app]. rewrite iac_step, sb_start, processTelnetBytes_app, sb_payload by done.
    by rewrite sb_iac_step.
Qed.

Lemma escape_app p q : appendIacEscaped (p ++ q) = appendIacEscaped p ++ appendIacEscaped q.
Proof. unfold appendIacEscaped. by rewrite map_app, concat_app. Qed.

Lemma escape_cons b p :
  appendIacEscaped (b :: p) = (if Ascii.eqb b kIac then [b; kIac] else [b]) ++ appendIacEscaped p.
Proof. done. Qed.

(** The body of a subnegotiation: escaped bytes up to an IAC that is not
    doubled, if there is one. *)
Lemma sb_split n s : (length s < n)%nat →
  (∃ p, s = appendIacEscaped p ∨ s = appendIacEscaped p ++ [kIac]) ∨
  ∃ p b r, s = appendIacEscaped p ++ kIac :: b :: r ∧ b ≠ kIac.
Proof.
  revert s. induction n as [|n IH]; intros s Hn; [lia|].
  destruct s as [|x s]; [left; exists []; by left|]. simpl in Hn.
  destruct (decide (x = kIac)) as [->|Hx].
  - destruct s as [|y s]; [left; exists []; by right|]. simpl in Hn.
    destruct (decide (y = kIac)) as [->|Hy]; [|right; by exists [], y, s].
    destruct (IH s) as [(p & [->| ->])|(p & b & r & -> & Hb)]; [lia|..].
    + left. exists (kIac :: p). by left.
    + left. exists (kIac :: p). by right.
    + right. by exists (kIac :: p), b, r.
  - assert (Hc : ∀ p, appendIacEscaped (x :: p) = x :: appendIacEscaped p)
      by (intros; by rewrite escape_cons, ascii_eqb_neq).
    destruct (IH s) as [(p & [->| ->])|(p & b & r & -> & Hb)]; [lia|..].
    + left. exists (x :: p). rewrite Hc. by left.
    + left. exists (x :: p). rewrite Hc. by right.
    + right. exists (x :: p), b, r. by rewrite Hc.
Qed.

(** The first token of a nonempty sequence. *)
Lemma first_token s :
  unfinished s ∨ ∃ t r, s = render t ++ r ∧ wf_token t ∧ (length r < length s)%nat.
Proof.
  assert (Htok : ∀ t r s, s = render t ++ r → wf_token t → (0 < length (render t))%nat →
    ∃ t r, s = render t ++ r ∧ wf_token t ∧ (length r < length s)%nat).
  { intros t r s' -> Hw Hl. exists t, r. split_and!; [done|done|]. rewrite length_app. lia. }
  destruct s as [|b s]; [left; by left|].
  destruct (decide (b = kIac)) as [->|Hb]; [|right; apply (Htok (TData b) s); simpl; [done|done|lia]].
  destruct s as [|x s]; [left; right; by left|].
  destruct (decide (x = kIac)) as [->|]; [right; apply (Htok TEscape s); simpl; [done|done|lia]|].
  assert (Hn : ∀ k, negotiating k = true → x = kind_byte k →
    unfinished (kIac :: x :: s) ∨ ∃ t r, kIac :: x :: s = render t ++ r ∧ wf_token t
      ∧ (length r < length (kIac :: x :: s))%nat).
  { intros k Hk ->. destruct s as [|o s]; [left; right; right; left; by exists k|].
    right. apply (Htok (TNegotiate k o) s); simpl; [done|done|lia]. }
  destruct (decide (x = kWill)); [by apply (Hn Will)|].
  destruct (decide (x = kWont)); [by apply (Hn Wont)|].
  destruct (decide (x = kDo)); [by apply (Hn Do)|].
  destruct (decide (x = kDont)); [by apply (Hn Dont)|].
  destruct (decide (x = kSb)) as [->|].
  - destruct (sb_split (S (length s)) s) as [(p & [->| ->])|(p & y & r & -> & Hy)]; [lia|..].
    + left. right; right; right. exists p. by left.
    + left. right; right; right. exists p. by right.
    + right. destruct (decide (y = kSe)) as [->|].
      * apply (Htok (TSub p) r); simpl; [by rewrite <- app_assoc|done|lia].
      * apply (Htok (TAbandon p y) r); simpl; [by rewrite <- app_assoc|done|lia].
  - right. apply (Htok (TCommand x) s); simpl; [done| |lia].
    rewrite !not_elem_of_cons. split_and!; try done. apply not_elem_of_nil.
Qed.

Lemma tokenize_bytes s :
  ∃ ts r, s = render_all ts ++ r ∧ Forall wf_token ts ∧ unfinished r.
Proof.
  remember (length s) as n eqn:Hn. revert s Hn. induction (lt_wf n) as [n _ IH]; intros s ->.
  destruct (first_token s) as [Hu|(t & r & -> & Hw & Hl)]; [by exists [], s|].
  destruct (IH _ Hl r eq_refl) as (ts & r' & -> & Hts & Hu). exists (t :: ts), r'.
  unfold render_all. cbn. rewrite <- app_assoc. by split_and!; [|constructor|].
Qed.

(** ** An open telnet connection on which writes succeed *)

Definition open_plain (c : conn) : Prop := 0 ≤ fd_ c ∧ useWebSocket_ c = false ∧ tx c = [].

Lemma write_loop_all d : write_loop [] d = (d, []).
Proof. by destruct d. Qed.

Lemma send_plain d c : open_plain c → send d c = c <| wire ::= λ w, w ++ d |>.
Proof.
  intros (Hf & Hw & Ht). unfold send. rewrite Hw, Ht, write_loop_all. cbn.
  destruct (fd_ c <? 0) eqn:E; prop_tests; [lia|]. destruct c; cbn in *. by subst.
Qed.

Lemma token_bytes t c : telnetState_ c = Data → wf_token t →
  ∀ s, s = render t → processTelnetBytes s c = (plain_of t, effect t c).
Proof. intros ?? s ->. by apply token_step. Qed.

Lemma nul_fields_app f r : NUL ∉ f → nul_fields (f ++ NUL :: r) = f :: nul_fields r.
Proof.
  induction f as [|b f IH]; intros Hf; [done|]. apply not_elem_of_cons in Hf as [Hb Hf].
  cbn [app nul_fields]. rewrite ascii_eqb_neq by done. by rewrite IH.
Qed.

Definition nul_terminated (fs : list bytes) : bytes := concat (map (λ f, f ++ [NUL]) fs).

Lemma nul_fields_concat fs : Forall (λ f, NUL ∉ f) fs → nul_fields (nul_terminated fs) = fs.
Proof.
  unfold nul_terminated. induction 1 as [|f fs Hf _ IH]; [done|]. cbn [map concat].
  rewrite <- app_assoc. cbn [app]. by rewrite nul_fields_app, IH.
Qed.

Lemma nul_terminated_last fs : fs ≠ [] → last (nul_terminated fs) = Some NUL.
Proof.
  destruct fs as [|f fs] using rev_ind; [done|]. intros _. unfold nul_terminated.
  rewrite map_app, concat_app. cbn. by rewrite app_nil_r, app_assoc, last_snoc.
Qed.

Lemma zmp_fields_escaped fs : zmp_fields fs = appendIacEscaped (nul_terminated fs).
Proof.
  unfold zmp_fields, nul_terminated. induction fs as [|f fs IH]; [done|]. cbn [map concat].
  by rewrite IH, !escape_app.
Qed.

Lemma split_at_byte_app b x y : b ∉ x → split_at_byte b (x ++ b :: y) = (x, y).
Proof.
  intros H. unfold split_at_byte. rewrite index_of_app by done.
  rewrite take_app_length, drop_app. replace (S (length x) - length x)%nat with 1%nat by lia.
  rewrite drop_ge by lia. done.
Qed.

(** A subnegotiation whose option is not IAC, sent and received. *)
Lemma sub_received o p r :
  telnetState_ r = Data → o ≠ kIac →
  processTelnetBytes (subnegotiation o (appendIacEscaped p)) r
  = ([], handleSubnegotiation (r <| sbBuffer_ := o :: p |>)).
Proof.
  intros Hr Ho. apply (token_bytes (TSub (o :: p)) r); [done|done|].
  unfold subnegotiation, render. rewrite escape_cons, ascii_eqb_neq by done. done.
Qed.

(** ** Lines *)

Lemma split_lines_app x y :
  split_lines (x ++ y) =
  let '(l1, r1) := split_lines x in
  let '(l2, r2) := split_lines (r1 ++ y) in (l1 ++ l2, r2).
Proof.
  induction x as [|b x IH]; cbn [app split_lines]; [by destruct (split_lines y)|].
  rewrite IH. destruct (split_lines x) as [l1 r1].
  destruct (split_lines (r1 ++ y)) as [l2 r2] eqn:E.
  destruct (Ascii.eqb b NL) eqn:Eb.
  - by rewrite E.
  - destruct l1 as [|l l1]; [|cbn; by rewrite E]. cbn [app split_lines]. rewrite E, Eb.
    by destruct l2.
Qed.

Lemma split_lines_line l s : NL ∉ l → split_lines (l ++ NL :: s) =
  let '(ls, r) := split_lines s in (l :: ls, r).
Proof.
  induction l as [|b l IH]; intros Hl; cbn [app split_lines].
  - destruct (split_lines s). by rewrite Ascii.eqb_refl.
  - apply not_elem_of_cons in Hl as [Hb Hl]. rewrite IH by done.
    destruct (split_lines s). by rewrite ascii_eqb_neq by done.
Qed.

Lemma strip_cr_snoc l : strip_cr (l ++ [CRB]) = l.
Proof.
  unfold strip_cr. rewrite last_snoc, bool_decide_eq_true_2 by done. rewrite length_app.
  replace (length l + length [CRB] - 1)%nat with (length l) by (simpl; lia).
  apply take_app_length.
Qed.

(** ** Polls in sequence *)

Definition set_buf (x : bytes) (c : conn) : conn := c <| inputBuffer_ := x |>.

Lemma send_set_buf x d c : send d (set_buf x c) = set_buf x (send d c).
Proof. unfold send. cbn. repeat (case_match; try done). Qed.

Lemma handleNegotiation_set_buf x k o c :
  handleNegotiation k o (set_buf x c) = set_buf x (handleNegotiation k o c).
Proof.
  unfold handleNegotiation, requestTerminalType.
  destruct k; try done; repeat (case_if; [by rewrite ?send_set_buf|]); by rewrite send_set_buf.
Qed.

Lemma handleSubnegotiation_set_buf x c :
  handleSubnegotiation (set_buf x c) = set_buf x (handleSubnegotiation c).
Proof.
  unfold handleSubnegotiation. cbn [set_buf sbBuffer_ update].
  destruct (sbBuffer_ c) as [|o p]; [done|].
  unfold sub_ttype, sub_gmcp, sub_msdp, sub_zmp, sub_naws.
  repeat (case_if; [repeat case_match; done|]). done.
Qed.

Lemma telnet_byte_set_buf x b c :
  telnet_byte b (set_buf x c) = (fst (telnet_byte b c), set_buf x (snd (telnet_byte b c))).
Proof.
  unfold telnet_byte. cbn [set_buf telnetState_ update].
  destruct (telnetState_ c); rewrite ?handleNegotiation_set_buf, ?handleSubnegotiation_set_buf;
    repeat (case_if; [done|]); done.
Qed.

Lemma process_set_buf x raw c :
  processTelnetBytes raw (set_buf x c)
  = (fst (processTelnetBytes raw c), set_buf x (snd (processTelnetBytes raw c))).
Proof.
  revert c. induction raw as [|b raw IH]; intros c; [done|]. cbn [processTelnetBytes].
  rewrite telnet_byte_set_buf. destruct (telnet_byte b c) as [p c1]. cbn [fst snd].
  rewrite IH. by destruct (processTelnetBytes raw c1).
Qed.

(** What a chunk cannot change. *)
Definition same_reader (c c' : conn) : Prop :=
  inputBuffer_ c' = inputBuffer_ c ∧ echoSuppressed_ c' = echoSuppressed_ c ∧
  (open_plain c → open_plain c').

Lemma same_reader_trans c d e : same_reader c d → same_reader d e → same_reader c e.
Proof. intros (H1 & H2 & H3) (? & ? & ?). split_and!; [congruence|congruence|auto]. Qed.

Lemma send_same_reader d c : same_reader c (send d c).
Proof.
  unfold same_reader, open_plain. split_and!;
    [unfold send; repeat (case_match; try done)..|].
  intros Hp. rewrite send_plain by done. done.
Qed.

Lemma negotiation_same_reader k o c : same_reader c (handleNegotiation k o c).
Proof.
  unfold handleNegotiation, requestTerminalType.
  destruct k; try done; repeat (case_if; [first [done | apply send_same_reader]|]);
    first [done | apply send_same_reader].
Qed.

Lemma subnegotiation_same_reader c : same_reader c (handleSubnegotiation c).
Proof.
  unfold handleSubnegotiation. destruct (sbBuffer_ c) as [|o p]; [done|].
  unfold sub_ttype, sub_gmcp, sub_msdp, sub_zmp, sub_naws.
  repeat (case_if; [repeat case_match; done|]). done.
Qed.

Lemma telnet_byte_same_reader b c : same_reader c (snd (telnet_byte b c)).
Proof.
  unfold telnet_byte.
  destruct (telnetState_ c); try (repeat case_if; done); try apply (negotiation_same_reader _ b c).
  case_if; [apply (subnegotiation_same_reader c)|]. by case_if.
Qed.

Lemma process_same_reader raw c : same_reader c (snd (processTelnetBytes raw c)).
Proof.
  revert c. induction raw as [|b raw IH]; intros c; [done|]. cbn [processTelnetBytes].
  pose proof (telnet_byte_same_reader b c) as H1. destruct (telnet_byte b c) as [p c1].
  specialize (IH c1). destruct (processTelnetBytes raw c1) as [q c2].
  by eapply same_reader_trans.
Qed.

(** One poll of an echoing telnet connection that received [raw]. *)
Lemma poll_plain sha fuel raw c :
  open_plain c → echoSuppressed_ c = false →
  pollLines sha fuel [Chunk raw] c =
  let '(ls, r) := split_lines (inputBuffer_ c ++ fst (processTelnetBytes raw c)) in
  (Ok (map strip_cr ls), set_buf r (snd (processTelnetBytes raw c))).
Proof.
  intros (Hf & Hw & _) He. unfold pollLines, bind, get. cbn [read_all]. rewrite app_nil_r, Hw.
  destruct (fd_ c <? 0) eqn:E; prop_tests; [lia|]. cbn [modify andb].
  unfold modify, finish_poll, feed, take_lines.
  destruct (process_same_reader raw c) as (H1 & H2 & _).
  destruct (processTelnetBytes raw c) as [p c1]. cbn in *. rewrite H1.
  destruct (split_lines (inputBuffer_ c ++ p)) as [ls r]. cbn.
  assert (Hfold : ∀ d, echoSuppressed_ d = false → foldl (λ c (_ : bytes), line_taken c) d ls = d).
  { induction ls as [|l ls IH]; intros d Hd; [done|]. cbn. unfold line_taken at 2.
    rewrite Hd. by apply IH. }
  rewrite Hfold by (cbn; congruence). done.
Qed.

Fixpoint poll_each (sha : bytes → bytes) (fuel : nat) (chunks : list bytes) : M conn (list bytes) :=
  match chunks with
  | [] => ret []
  | b :: chunks =>
      do* l := pollLines sha fuel [Chunk b] in
      do* ls := poll_each sha fuel chunks in
      ret (l ++ ls)
  end.

Lemma poll_two sha fuel a b c :
  open_plain c → echoSuppressed_ c = false →
  ∃ l1 c1 l2 c2, pollLines sha fuel [Chunk a] c = (Ok l1, c1) ∧ open_plain c1 ∧
    echoSuppressed_ c1 = false ∧ pollLines sha fuel [Chunk b] c1 = (Ok l2, c2) ∧
    pollLines sha fuel [Chunk (a ++ b)] c = (Ok (l1 ++ l2), c2).
Proof.
  intros Hp He. rewrite !poll_plain by done. destruct (process_same_reader a c) as (H1 & H2 & H3).
  rewrite processTelnetBytes_app. destruct (processTelnetBytes a c) as [p c1]. cbn [fst snd] in *.
  rewrite (surjective_pairing (processTelnetBytes b c1)). cbn [fst snd].
  rewrite app_assoc, (split_lines_app (inputBuffer_ c ++ p)).
  destruct (split_lines (inputBuffer_ c ++ p)) as [l1 r1] eqn:E1.
  exists (map strip_cr l1), (set_buf r1 c1).
  rewrite poll_plain by (cbn; congruence || by apply H3). rewrite process_set_buf. cbn [fst snd].
  change (inputBuffer_ (set_buf r1 c1)) with r1.
  destruct (split_lines (r1 ++ fst (processTelnetBytes b c1))) as [l2 r2]. eexists _, _.
  split_and!; [done|by apply H3|cbn; congruence|reflexivity|]. by rewrite map_app.
Qed.

Lemma poll_each_concat sha fuel chunks : ∀ b c,
  open_plain c → echoSuppressed_ c = false →
  poll_each sha fuel (b :: chunks) c = pollLines sha fuel [Chunk (b ++ concat chunks)] c.
Proof.
  induction chunks as [|d chunks IH]; intros b c Hp He.
  - cbn [poll_each concat]. unfold bind, ret. rewrite app_nil_r, poll_plain by done.
    destruct (split_lines _). by rewrite app_nil_r.
  - cbn [concat]. destruct (poll_two sha fuel b (d ++ concat chunks) c Hp He)
      as (l1 & c1 & l2 & c2 & E1 & Hp1 & He1 & E2 & ->).
    cbn [poll_each]. unfold bind at 1. rewrite E1.
    change (bind (poll_each sha fuel (d :: chunks)) (λ ls, ret (l1 ++ ls)) c1 = (Ok (l1 ++ l2), c2)).
    unfold bind. rewrite IH by done. by rewrite E2.
Qed.

(** ** Typed text *)

Lemma process_escaped l c :
  telnetState_ c = Data → processTelnetBytes (appendIacEscaped l) c = (l, c).
Proof.
  intros Hc. induction l as [|b l IH]; [done|]. rewrite escape_cons, processTelnetBytes_app.
  case_if; prop_tests.
  - subst b. rewrite (token_bytes TEscape c) by done. cbn. by rewrite IH.
  - rewrite (token_bytes (TData b) c) by done. cbn. by rewrite IH.
Qed.

(** The bytes a telnet client sends for lines typed by its user. *)
Definition typed (ls : list bytes) : bytes := concat (map (λ l, appendIacEscaped l ++ CRLF) ls).

Lemma process_typed ls c :
  telnetState_ c = Data → processTelnetBytes (typed ls) c = (concat (map (λ l, l ++ CRLF) ls), c).
Proof.
  intros Hc. unfold typed. induction ls as [|l ls IH]; [done|]. cbn [map concat].
  rewrite !processTelnetBytes_app, process_escaped by done.
  change CRLF with (appendIacEscaped CRLF) at 1. rewrite process_escaped by done. by rewrite IH.
Qed.

Lemma split_typed ls :
  Forall (λ l, NL ∉ l) ls →
  split_lines (concat (map (λ l, l ++ CRLF) ls)) = (map (λ l, l ++ [CRB]) ls, []).
Proof.
  induction 1 as [|l ls Hl _ IH]; [done|]. cbn [map concat].
  replace ((l ++ CRLF) ++ concat (map (λ l, l ++ CRLF) ls))
    with ((l ++ [CRB]) ++ NL :: concat (map (λ l, l ++ CRLF) ls)) by by rewrite <- !app_assoc.
  rewrite split_lines_line, IH; [done|]. apply not_elem_of_app. split; [done|].
  by intros [=]%list_elem_of_singleton.
Qed.

(** ** Properties *)

(** C4: the byte by byte state machine implements the telnet grammar: from the
    data state every input is a sequence of complete tokens and at most one
    unfinished token; the plain bytes are those of the tokens in order, where
    IAC occurs for a doubled IAC only, and the connection changes as the tokens
    say, whatever the machine was told in between. *)
Theorem telnet_refines_grammar raw c (Hc : telnetState_ c = Data) :
  ∃ ts r, raw = render_all ts ++ r ∧ Forall wf_token ts ∧ unfinished r ∧
    fst (processTelnetBytes raw c) = plain_all ts ∧
    snd (processTelnetBytes raw c) = snd (processTelnetBytes r (effects ts c)) ∧
    telnetState_ (effects ts c) = Data ∧
    (TEscape ∉ ts → kIac ∉ fst (processTelnetBytes raw c)).
Proof.
  destruct (tokenize_bytes raw) as (ts & r & -> & Hts & Hu). exists ts, r.
  assert (Hst : ∀ l d, telnetState_ d = Data → telnetState_ (effects l d) = Data).
  { induction l as [|t l IH]; intros d Hd; [done|]. apply IH. by rewrite effect_keeps_state. }
  pose proof (unfinished_plain r (effects ts c) (Hst _ _ Hc) Hu) as Hp.
  rewrite processTelnetBytes_app, tokens_step by done.
  destruct (processTelnetBytes r (effects ts c)) as [q c']. cbn in *. subst q. rewrite app_nil_r.
  split_and!; auto. intros Hne. unfold plain_all. clear -Hts Hne.
  induction Hts as [|t ts Ht _ IH]; [apply not_elem_of_nil|].
  apply not_elem_of_cons in Hne as [Hne1 Hne2]. cbn. apply not_elem_of_app. split; [|by apply IH].
  destruct t; cbn in *; try apply not_elem_of_nil; [|done].
  intros Hin%list_elem_of_singleton. congruence.
Qed.

(** C15: what the driver sends by GMCP, MSDP and ZMP is received as sent by a
    telnet peer running the same state machine, for every byte value including
    IAC, except what the formats cannot carry: the VAL byte in the name of an
    MSDP variable and NUL in a ZMP field.  No byte of it leaks into the peer's
    text. *)
Theorem protocol_roundtrips s r (Hs : open_plain s) (Hr : telnetState_ r = Data) :
  (∀ p, ∃ msg r', wire (sendGmcp p s) = wire s ++ msg ∧ processTelnetBytes msg r = ([], r') ∧
    incomingGmcp_ r' = incomingGmcp_ r ++ (match p with [] => [] | _ => [p] end)) ∧
  (∀ n v, kMsdpVal ∉ n → ∃ msg r', wire (sendMsdp n v s) = wire s ++ msg ∧
    processTelnetBytes msg r = ([], r') ∧ incomingMsdp_ r' = incomingMsdp_ r ++ [(n, v)]) ∧
  (∀ cmd args, Forall (λ f, NUL ∉ f) (cmd :: args) → ∃ msg r',
    wire (sendZmp cmd args s) = wire s ++ msg ∧
    processTelnetBytes msg r = ([], r') ∧ incomingZmp_ r' = incomingZmp_ r ++ [(cmd, args)]).
Proof.
  split_and!.
  - intros p. eexists _, _. unfold sendGmcp. rewrite send_plain by done.
    split; [reflexivity|]. rewrite sub_received by done. split; [reflexivity|]. destruct p; cbn; [by rewrite app_nil_r|done].
  - intros n v Hn. unfold sendMsdp. rewrite send_plain by done.
    change ([kMsdpVar] ++ appendIacEscaped n ++ [kMsdpVal] ++ appendIacEscaped v)
      with (appendIacEscaped [kMsdpVar] ++ appendIacEscaped n ++ appendIacEscaped (kMsdpVal :: v)).
    rewrite <- !escape_app. eexists _, _. split; [reflexivity|]. rewrite sub_received by done.
    split; [reflexivity|]. cbn. by rewrite split_at_byte_app.
  - intros cmd args Hf. unfold sendZmp. rewrite send_plain, zmp_fields_escaped by done.
    eexists _, _. split; [reflexivity|]. rewrite sub_received by done. split; [reflexivity|].
    unfold handleSubnegotiation. cbn [sbBuffer_ update]. cbn -[nul_terminated nul_fields last].
    unfold sub_zmp. rewrite nul_terminated_last, nul_fields_concat by done.
    by rewrite bool_decide_eq_true_2.
Qed.

(** C16: option negotiation cannot loop: the driver answers at most once, only to
    WILL and DO, and a peer that runs the same state machine never answers its
    answer, whatever the option. *)
Theorem negotiation_settles k o c d (Hc : open_plain c) (Hd : telnetState_ d = Data) :
  ∃ reply, wire (handleNegotiation k o c) = wire c ++ reply ∧
    wire (snd (processTelnetBytes reply d)) = wire d ∧
    (k ≠ Will → k ≠ Do → reply = []).
Proof.
  assert (H0 : wire c = wire c ++ [] ∧ wire (snd (processTelnetBytes [] d)) = wire d)
    by by rewrite app_nil_r.
  assert (Hneg : ∀ j x, negotiating j = true → wire (handleNegotiation j x d) = wire d →
    wire (snd (processTelnetBytes [kIac; kind_byte j; x] d)) = wire d).
  { intros j x Hj Hx. by rewrite (token_bytes (TNegotiate j x) d). }
  unfold handleNegotiation, requestTerminalType.
  destruct k; try (exists []; split_and!; (done || apply H0)).
  - repeat (case_if; [first [exists []; split_and!; (done || apply H0)
      | rewrite send_plain by done; eexists; split_and!; [reflexivity| |done];
        first [by apply (Hneg Do) | by rewrite (token_bytes (TSub [kTelOptTtype; kTelQualSend]) d)]]|]).
    rewrite send_plain by done. eexists. split_and!; [reflexivity|by apply (Hneg Dont)|done].
  - repeat (case_if; [exists []; split_and!; (done || apply H0)|]).
    rewrite send_plain by done. eexists. split_and!; [reflexivity|by apply (Hneg Wont)|done].
Qed.

(** C5: on a plain telnet connection (open, no WebSocket client, all writes taken
    whole, echo not suppressed) how the network cuts the input into reads does
    not matter: polling after each read gives, together, the lines and the final state that one poll after
    all of it gives, also when a cut falls inside a telnet command or a line;
    and the lines typed into a telnet client, which doubles IAC and ends lines
    with CR LF, come out exactly as typed. *)
Theorem poll_lines_delivered sha fuel c (Hp : open_plain c) (He : echoSuppressed_ c = false) :
  (∀ b chunks, poll_each sha fuel (b :: chunks) c
               = pollLines sha fuel [Chunk (b ++ concat chunks)] c) ∧
  (telnetState_ c = Data → inputBuffer_ c = [] →
   ∀ ls b chunks, Forall (λ l, NL ∉ l) ls → b ++ concat chunks = typed ls →
   poll_each sha fuel (b :: chunks) c = (Ok ls, c)).
Proof.
  split; [intros; by apply poll_each_concat|]. intros Hc Hb ls b chunks Hls Heq.
  rewrite poll_each_concat, Heq, poll_plain, process_typed, Hb by done. cbn [fst snd app].
  rewrite split_typed by done. rewrite map_map. f_equal.
  - f_equal. rewrite <- (map_id ls) at 2. apply map_ext. apply strip_cr_snoc.
  - destruct c; cbn in *. by subst.
Qed.

(** ** Witnesses *)

Definition no_digest (s : bytes) : bytes := [].
Definition sample_conn : conn := newConnection 5 1000.

Lemma sample_open : open_plain sample_conn.
Proof. by split_and!. Qed.

Lemma telnet_refines_grammar_witness :
  fst (processTelnetBytes ($"a" ++ [kIac; kIac; kIac; kWill; kTelOptGmcp; kIac]) sample_conn)
  = $"a" ++ [kIac] ∧
  ∃ ts, fst (processTelnetBytes ($"a" ++ [kIac; kIac; kIac; kWill; kTelOptGmcp; kIac]) sample_conn)
        = plain_all ts.
Proof.
  split; [reflexivity|].
  destruct (telnet_refines_grammar ($"a" ++ [kIac; kIac; kIac; kWill; kTelOptGmcp; kIac]) sample_conn)
    as (ts & r & _ & _ & _ & H & _); [reflexivity|]. exists ts. exact H.
Defined.

Lemma protocol_roundtrips_witness :
  ∃ msg r', wire (sendGmcp ("{"%char :: kIac :: $"}") sample_conn) = [] ++ msg ∧
    processTelnetBytes msg sample_conn = ([], r') ∧ incomingGmcp_ r' = ["{"%char :: kIac :: $"}"].
Proof.
  destruct (protocol_roundtrips sample_conn sample_conn) as (H & _);
    [apply sample_open|reflexivity|].
  exact (H ("{"%char :: kIac :: $"}")).
Defined.

Lemma negotiation_settles_witness :
  ∃ reply, wire (handleNegotiation Do "200" sample_conn) = [] ++ reply ∧
    wire (snd (processTelnetBytes reply sample_conn)) = [].
Proof.
  destruct (negotiation_settles Do "200" sample_conn sample_conn) as (reply & H1 & H2 & _);
    [apply sample_open|reflexivity|]. exists reply. split; [exact H1|exact H2].
Defined.

Lemma poll_lines_delivered_witness :
  poll_each no_digest 1 [$"loo"; $"k" ++ [CRB]; NL :: $"quit" ++ CRLF] sample_conn
  = (Ok [$"look"; $"quit"], sample_conn).
Proof.
  destruct (poll_lines_delivered no_digest 1 sample_conn) as [_ H];
    [apply sample_open|reflexivity|].
  apply H; [reflexivity|reflexivity| |reflexivity].
  repeat constructor; apply (bool_decide_unpack _); reflexivity.
Defined.
