(* ===== verification/WebSocket.v ===== *)
(** * WebSocket: frames and handshake of a connection

    The decoder is shown to implement the frame format for frames cut into
    reads at any place, and the handshake to hold back the driver's output
    until the upgrade is answered.  A length near [2^64] makes the decoder
    loop. *)

From S2P Require Import Prelude Doubles Values Objects Connection Telnet.

(** ** Big-endian numbers *)

Lemma code_small z : 0 ≤ z < 256 → code (chr z) = z.
Proof. intros. rewrite code_chr. by apply Z.mod_small. Qed.

Lemma lor_byte a b : 0 ≤ b < 256 → Z.lor (Z.shiftl a 8) b = a * 256 + b.
Proof.
  intros Hb. replace (a * 256) with (Z.shiftl a 8) by (rewrite Z.shiftl_mul_pow2; lia).
  rewrite <- Z.add_lor_land.
  replace (Z.land (Z.shiftl a 8) b) with 0; [lia|]. symmetry. apply Z.bits_inj'. intros n Hn.
  rewrite Z.land_spec, Z.bits_0. destruct (Z.lt_ge_cases n 8).
  - by rewrite Z.shiftl_spec_low.
  - destruct (decide (b = 0)) as [->|]; [by rewrite Z.bits_0, andb_false_r|].
    rewrite (Z.bits_above_log2 b n), andb_false_r; [done|lia|].
    apply Z.log2_lt_pow2; [lia|]. pose proof (Z.pow_le_mono_r 2 8 n). lia.
Qed.

Lemma code_byte_at len s : 0 ≤ s → code (byte_at len s) = (len / 2 ^ s) mod 256.
Proof.
  intros. unfold byte_at. change 255 with (Z.ones 8). rewrite Z.land_ones, Z.shiftr_div_pow2 by lia.
  apply code_small. apply Z.mod_pos_bound. lia.
Qed.

(** One step of reading a big-endian number. *)
Lemma be_step len s : 0 ≤ s →
  Z.lor (Z.shiftl (len / 2 ^ (s + 8)) 8) (code (byte_at len s)) = len / 2 ^ s.
Proof.
  intros Hs. rewrite code_byte_at by done. rewrite lor_byte by (apply Z.mod_pos_bound; lia).
  rewrite Z.pow_add_r, <- Z.div_div by (try apply Z.pow_nonzero; try apply Z.pow_pos_nonneg; lia).
  change (2 ^ 8) with 256. pose proof (Z.div_mod (len / 2 ^ s) 256). lia.
Qed.

(** The [n] low bytes of a length, the most significant first. *)
Fixpoint be_bytes (len : Z) (n : nat) : bytes :=
  match n with
  | O => []
  | S k => byte_at len (Z.of_nat k * 8) :: be_bytes len k
  end.

Lemma be_fold len n :
  foldl (λ a b, Z.lor (Z.shiftl a 8) (code b)) (len / 2 ^ (Z.of_nat n * 8)) (be_bytes len n) = len.
Proof.
  induction n as [|n IH]; cbn [be_bytes foldl]; [apply Z.div_1_r|].
  replace (Z.of_nat (S n) * 8) with (Z.of_nat n * 8 + 8) by lia. by rewrite be_step by lia.
Qed.

Lemma be_value_bytes len n : 0 ≤ len < 2 ^ (Z.of_nat n * 8) → be_value (be_bytes len n) = len.
Proof. intros H. unfold be_value. rewrite <- (Z.div_small _ _ H) at 1. apply be_fold. Qed.

Lemma length_be_bytes len n : length (be_bytes len n) = n.
Proof. induction n; simpl; congruence. Qed.

Lemma size_be_bytes len n : size (be_bytes len n) = Z.of_nat n.
Proof. unfold size. by rewrite length_be_bytes. Qed.

(** ** Frames *)

Record frame := mkFrame { f_op : Z; f_mask : option bytes; f_data : bytes }.

Definition wf_frame (f : frame) : Prop :=
  0 ≤ f_op f < 16 ∧ size (f_data f) < 2 ^ 63 ∧
  match f_mask f with Some k => length k = 4%nat | None => True end.

Definition mask_bit (f : frame) : Z := match f_mask f with Some _ => 128 | None => 0 end.

Definition length_bytes (f : frame) : bytes :=
  let len := size (f_data f) in
  if len <=? 125 then [chr (mask_bit f + len)]
  else if len <=? 65535 then chr (mask_bit f + 126) :: be_bytes len 2
  else chr (mask_bit f + 127) :: be_bytes len 8.

(** A frame with its FIN bit set, as RFC 6455 writes it. *)
Definition frame_header (f : frame) : bytes := chr (128 + f_op f) :: length_bytes f.
Definition frame_body (f : frame) : bytes :=
  match f_mask f with Some k => k ++ unmask k 0 (f_data f) | None => f_data f end.
Definition frame_bytes (f : frame) : bytes := frame_header f ++ frame_body f.

Lemma encodeWsFrame_frame p : encodeWsFrame p = frame_bytes (mkFrame 1 None p).
Proof. unfold encodeWsFrame, frame_bytes, frame_header, length_bytes. cbn. by repeat case_if. Qed.

(** A fact about a small number, by computation. *)
Lemma small_cases (p : Z → bool) n :
  forallb (λ i, p (Z.of_nat i)) (seq 0 n) = true → ∀ k, 0 ≤ k < Z.of_nat n → p k = true.
Proof.
  intros H k Hk. rewrite forallb_forall in H. specialize (H (Z.to_nat k)).
  rewrite Z2Nat.id in H by lia. apply H, in_seq. lia.
Qed.

Lemma land_bits m k : m = 0 ∨ m = 128 → 0 ≤ k < 128 →
  Z.land (m + k) 127 = k ∧ Z.land (m + k) 128 = m.
Proof.
  intros Hm Hk. rewrite <- !Z.eqb_eq, <- andb_true_iff.
  destruct Hm as [-> | ->]; revert k Hk;
    apply (small_cases (λ k, (Z.land (_ + k) 127 =? k) && (Z.land (_ + k) 128 =? _)) 128);
    by vm_compute.
Qed.

Lemma land_op op : 0 ≤ op < 16 → Z.land (128 + op) 15 = op.
Proof.
  intros H. apply Z.eqb_eq. revert op H.
  by apply (small_cases (λ op, Z.land (128 + op) 15 =? op) 16); vm_compute.
Qed.

Lemma mask_bit_cases f : mask_bit f = 0 ∨ mask_bit f = 128.
Proof. unfold mask_bit. destruct (f_mask f); auto. Qed.

Lemma mask_bit_zero f : (mask_bit f =? 0) = match f_mask f with Some _ => false | None => true end.
Proof. unfold mask_bit. by destruct (f_mask f). Qed.

(** Where the mask, or the payload, begins. *)
Definition mask_off (f : frame) : Z := size (frame_header f).

Lemma ws_header_frame f x :
  wf_frame f →
  ws_header (frame_header f ++ x)
  = Some (f_op f, negb (mask_bit f =? 0), size (f_data f), mask_off f).
Proof.
  intros (Hop & Hs & _). pose proof (size_nonneg (f_data f)). pose proof (mask_bit_cases f).
  pose proof (land_op (f_op f) Hop) as Hland. unfold mask_off, frame_header, length_bytes.
  assert (Hcode : ∀ k, 0 ≤ k < 128 → code (chr (mask_bit f + k)) = mask_bit f + k)
    by (intros; apply code_small; lia).
  assert (Htake : ∀ n l, takez (Z.of_nat n) (be_bytes l n ++ x) = be_bytes l n).
  { intros n l. rewrite <- (size_be_bytes l n) at 1. apply takez_app. }
  case_if; [|case_if]; prop_tests; cbn [app ws_header].
  - destruct (land_bits (mask_bit f) (size (f_data f))) as [H1 H2]; [done|lia|].
    rewrite !Hcode, !code_small, Hland, H1, H2 by lia.
    destruct (size (f_data f) =? 126) eqn:E1; prop_tests; [lia|].
    destruct (size (f_data f) =? 127) eqn:E2; prop_tests; [lia|]. done.
  - destruct (land_bits (mask_bit f) 126) as [H1 H2]; [done|lia|].
    rewrite !Hcode, !code_small, Hland, H1, H2 by lia. cbn [Z.eqb Pos.eqb].
    pose proof (Htake 2%nat (size (f_data f))) as Ht. change (Z.of_nat 2) with 2 in Ht.
    rewrite Ht, be_value_bytes by (simpl; lia). sizes. rewrite size_be_bytes.
    pose proof (size_nonneg x). destruct (_ <? 4) eqn:E; prop_tests; [lia|done].
  - destruct (land_bits (mask_bit f) 127) as [H1 H2]; [done|lia|].
    rewrite !Hcode, !code_small, Hland, H1, H2 by lia. cbn [Z.eqb Pos.eqb].
    pose proof (Htake 8%nat (size (f_data f))) as Ht. change (Z.of_nat 8) with 8 in Ht.
    rewrite Ht, be_value_bytes by (simpl; lia). sizes. rewrite size_be_bytes.
    pose proof (size_nonneg x). destruct (_ <? 10) eqn:E; prop_tests; [lia|done].
Qed.

(** More bytes do not change a header that was complete. *)
Lemma ws_header_more a x h : ws_header a = Some h → ws_header (a ++ x) = Some h.
Proof.
  assert (Ht : ∀ n (l : bytes), n <= size l → takez n (l ++ x) = takez n l).
  { intros n l Hn. unfold takez. rewrite size_app. pose proof (size_nonneg x).
    destruct (size l <=? n) eqn:E1, (size l + size x <=? n) eqn:E2; prop_tests; try lia.
    - destruct x; [by rewrite app_nil_r|]. rewrite size_cons in *. pose proof (size_nonneg x). lia.
    - rewrite take_app_le by (unfold size in *; lia). apply take_ge. unfold size in *. lia.
    - apply take_app_le. unfold size in *. lia. }
  destruct a as [|b0 [|b1 rest]]; [done|done|]. cbn [app ws_header]. rewrite !size_cons, size_app.
  pose proof (size_nonneg x). repeat (case_if; prop_tests; try done); try lia;
    rewrite Ht by lia; done.
Qed.

Lemma size_unmask k i d : size (unmask k i d) = size d.
Proof. unfold size. revert i. induction d; intros i; simpl; [done|]. specialize (IHd (S i)). lia. Qed.

Lemma xor_byte_twice a b : xor_byte (xor_byte a b) b = a.
Proof.
  apply code_inj. unfold xor_byte. pose proof (code_range a). pose proof (code_range b).
  assert (Hx : ∀ y, 0 ≤ y < 256 → 0 ≤ Z.lxor y (code b) < 256).
  { intros y Hy. split; [by apply Z.lxor_nonneg; lia|].
    destruct (decide (Z.lxor y (code b) = 0)) as [->|]; [lia|]. apply Z.log2_lt_cancel.
    change (Z.log2 256) with 8. pose proof (Z.log2_lxor y (code b)).
    pose proof (Z.log2_le_mono y 255). pose proof (Z.log2_le_mono (code b) 255).
    change (Z.log2 255) with 7 in *. lia. }
  rewrite !code_small by (apply Hx; done || rewrite code_small by (by apply Hx); by apply Hx).
  rewrite Z.lxor_assoc, Z.lxor_nilpotent. apply Z.lxor_0_r.
Qed.

Lemma unmask_twice k i d : unmask k i (unmask k i d) = d.
Proof. revert i. induction d as [|b d IH]; intros i; cbn; [done|]. by rewrite xor_byte_twice, IH. Qed.

Lemma size_body f : wf_frame f →
  size (frame_body f) = (if mask_bit f =? 0 then 0 else 4) + size (f_data f).
Proof.
  intros (_ & _ & Hk). unfold frame_body, mask_bit. destruct (f_mask f) as [k|]; [|done].
  rewrite size_app, size_unmask. unfold size at 1. by rewrite Hk.
Qed.

(** The size the decoder computes for a frame. *)
Lemma frame_size f : wf_frame f →
  u64 ((if negb (mask_bit f =? 0) then mask_off f + 4 else mask_off f) + size (f_data f))
  = size (frame_bytes f).
Proof.
  intros Hw. unfold frame_bytes. rewrite size_app, size_body by done. unfold mask_off.
  assert (Hh : 0 ≤ size (frame_header f) ≤ 10).
  { unfold frame_header, length_bytes. rewrite size_cons.
    repeat case_if; sizes; rewrite ?size_be_bytes; lia. }
  destruct Hw as (_ & Hs & _). pose proof (size_nonneg (f_data f)).
  rewrite u64_small by (case_if; lia). destruct (mask_bit f =? 0); cbn; lia.
Qed.

(** A complete frame at the head of the buffer. *)
Lemma ws_frame_frame f x :
  wf_frame f → ws_frame (frame_bytes f ++ x) = Some (Ok (f_op f, f_data f, x)).
Proof.
  intros Hw. unfold ws_frame. unfold frame_bytes at 1. rewrite <- app_assoc, ws_header_frame by done.
  rewrite frame_size by done. rewrite size_app. pose proof (size_nonneg x).
  destruct (_ <? size (frame_bytes f)) eqn:E; prop_tests; [lia|]. rewrite dropz_app. clear E.
  unfold frame_bytes, frame_body, mask_off. rewrite mask_bit_zero. destruct Hw as (_ & _ & Hk).
  destruct (f_mask f) as [k|]; cbn [negb].
  - replace (size (frame_header f) + 4) with (size (frame_header f ++ k))
      by (rewrite size_app; unfold size; lia).
    replace ((frame_header f ++ k ++ unmask k 0 (f_data f)) ++ x)
      with ((frame_header f ++ k) ++ unmask k 0 (f_data f) ++ x) by by rewrite <- !app_assoc.
    rewrite <- (size_unmask k 0 (f_data f)) at 1. rewrite substr_app. cbn [rbind].
    rewrite <- app_assoc, dropz_app. replace 4 with (size k) by (unfold size; lia).
    rewrite takez_app, unmask_twice. reflexivity.
  - rewrite <- app_assoc, substr_app. done.
Qed.

(** A frame that has not arrived completely. *)
Lemma ws_frame_prefix f t u :
  wf_frame f → frame_bytes f = t ++ u → u ≠ [] → ws_frame t = None.
Proof.
  intros Hw Heq Hu. unfold ws_frame. destruct (ws_header t) as [h|] eqn:Eh; [|done].
  apply (ws_header_more t u) in Eh. rewrite <- Heq in Eh. unfold frame_bytes in Eh.
  rewrite ws_header_frame in Eh by done. injection Eh as <-. rewrite frame_size by done.
  destruct (size t <? size (frame_bytes f)) eqn:E; [done|]. prop_tests.
  rewrite Heq, size_app in E. destruct u; [done|]. rewrite size_cons in E.
  pose proof (size_nonneg u). lia.
Qed.

(** ** Frames in sequence *)

Definition frames_bytes (fs : list frame) : bytes := concat (map frame_bytes fs).

Definition is_data (f : frame) : bool := (f_op f =? 1) || (f_op f =? 2) || (f_op f =? 0).

(** What frames without a close among them do: data frames give their
    payload, a ping is answered, the other kinds are ignored. *)
Fixpoint run_frames (fs : list frame) (c : conn) : bytes * conn :=
  match fs with
  | [] => ([], c)
  | f :: fs =>
      if f_op f =? 9 then run_frames fs (snd (rawWrite (pong (f_data f)) c))
      else let '(p, c') := run_frames fs c in ((if is_data f then f_data f else []) ++ p, c')
  end.

Definition set_frames (x : bytes) (c : conn) : conn := c <| wsFrameBuffer_ := x |>.

Lemma rawWrite_set_frames d x c :
  snd (rawWrite d (set_frames x c)) = set_frames x (snd (rawWrite d c)).
Proof. unfold rawWrite. cbn. by repeat case_match. Qed.

Lemma run_frames_set_frames fs x c :
  run_frames fs (set_frames x c) = (fst (run_frames fs c), set_frames x (snd (run_frames fs c))).
Proof.
  revert c. induction fs as [|f fs IH]; intros c; [done|]. cbn [run_frames].
  case_if; [by rewrite rawWrite_set_frames, IH|]. rewrite IH. by destruct (run_frames fs c).
Qed.

Lemma run_frames_app fs gs c :
  run_frames (fs ++ gs) c =
  (fst (run_frames fs c) ++ fst (run_frames gs (snd (run_frames fs c))),
   snd (run_frames gs (snd (run_frames fs c)))).
Proof.
  revert c. induction fs as [|f fs IH]; intros c; cbn [app run_frames].
  - cbn [fst snd app]. by destruct (run_frames gs c).
  - case_if; [apply IH|]. rewrite IH. destruct (run_frames fs c) as [p c1]. cbn [fst snd].
    by rewrite app_assoc.
Qed.

Definition open_frames (fs : list frame) : Prop := Forall (λ f, wf_frame f ∧ f_op f ≠ 8) fs.

(** One round of the decoder's loop. *)
Lemma ws_loop_step fuel c op d rest :
  ws_frame (wsFrameBuffer_ c) = Some (Ok (op, d, rest)) → op ≠ 8 →
  ws_loop (S fuel) c =
  if op =? 9 then ws_loop fuel (snd (rawWrite (pong d) (set_frames rest c)))
  else bind (ws_loop fuel)
         (λ p, ret ((if (op =? 1) || (op =? 2) || (op =? 0) then d else []) ++ p))
         (set_frames rest c).
Proof.
  intros Hf Hop. cbn [ws_loop]. unfold bind at 1, get. rewrite Hf. apply Z.eqb_neq in Hop.
  unfold bind at 1, lift, bind at 1, modify. rewrite Hop. by destruct (op =? 9).
Qed.

Lemma ws_loop_frames fs t fuel c :
  open_frames fs → ws_frame t = None → (length fs < fuel)%nat →
  ws_loop fuel (set_frames (frames_bytes fs ++ t) c)
  = (Ok (fst (run_frames fs c)), set_frames t (snd (run_frames fs c))).
Proof.
  intros Hfs Ht. revert fuel c. unfold frames_bytes.
  induction Hfs as [|f fs [Hw Hop] _ IH]; intros [|fuel] c Hf; simpl in Hf; try lia.
  - cbn [ws_loop map concat app]. unfold bind at 1, get. cbn [set_frames wsFrameBuffer_ update].
    by rewrite Ht.
  - cbn [map concat]. rewrite <- app_assoc.
    rewrite (ws_loop_step fuel _ (f_op f) (f_data f) (concat (map frame_bytes fs) ++ t))
      by (done || by apply ws_frame_frame).
    change (set_frames ?y (set_frames ?x c)) with (set_frames y c). cbn [run_frames].
    case_if.
    + rewrite rawWrite_set_frames. apply IH. lia.
    + unfold bind. rewrite IH by lia. unfold is_data. by destruct (run_frames fs c).
Qed.

(** Where a cut falls among frames. *)
Lemma frames_cut fs a b :
  open_frames fs → a ++ b = frames_bytes fs →
  ∃ fs1 fs2 t, fs = fs1 ++ fs2 ∧ a = frames_bytes fs1 ++ t ∧ t ++ b = frames_bytes fs2 ∧
    ws_frame t = None.
Proof.
  intros Hfs. revert a. unfold frames_bytes. induction Hfs as [|f fs [Hw Hop] Hfs IH]; intros a Heq.
  - apply app_nil in Heq as [-> ->]. by exists [], [], [].
  - cbn [map concat] in Heq. symmetry in Heq. apply app_eq_app in Heq as (l & [[Ha Hb]|[Ha Hb]]).
    + destruct l as [|x l].
      * rewrite app_nil_r in Ha. destruct (IH []) as (fs1 & fs2 & t & -> & H1 & H2 & H3); [done|].
        exists (f :: fs1), fs2, t. split_and!; [done| |done|done].
        cbn. by rewrite <- app_assoc, <- H1, app_nil_r.
      * exists [], (f :: fs), a. split_and!; [done|done| |].
        { cbn. by rewrite Hb, app_assoc, <- Ha. }
        by apply (ws_frame_prefix f a (x :: l)).
    + subst a. destruct (IH l) as (fs1 & fs2 & t & -> & -> & H2 & H3); [done|].
      exists (f :: fs1), fs2, t. split_and!; [done| |done|done]. cbn. by rewrite app_assoc.
Qed.

(** The payloads of the chunks decoded one after the other. *)
Fixpoint decode_each (fuel : nat) (chunks : list bytes) : M conn bytes :=
  match chunks with
  | [] => ret []
  | b :: chunks =>
      do* p := decodeWsFrames fuel b in
      do* q := decode_each fuel chunks in
      ret (p ++ q)
  end.

Lemma decode_each_frames fuel chunks : ∀ fs t c,
  open_frames fs → t ++ concat chunks = frames_bytes fs → ws_frame t = None →
  (length fs < fuel)%nat →
  decode_each fuel chunks (set_frames t c)
  = (Ok (fst (run_frames fs c)), set_frames [] (snd (run_frames fs c))).
Proof.
  induction chunks as [|b chunks IH]; intros fs t c Hfs Heq Ht Hfuel.
  - destruct Hfs as [|f fs [Hw _] _].
    + rewrite app_nil_r in Heq. by subst t.
    + exfalso. unfold frames_bytes in Heq. cbn [map concat] in Heq. rewrite app_nil_r in Heq. subst t. by rewrite ws_frame_frame in Ht.
  - cbn [concat] in Heq. rewrite app_assoc in Heq.
    destruct (frames_cut fs _ _ Hfs Heq) as (fs1 & fs2 & t' & -> & Ha & Hb & Ht').
    unfold open_frames in Hfs. rewrite length_app in Hfuel. apply Forall_app in Hfs as [Hfs1 Hfs2].
    cbn [decode_each]. unfold bind at 1.
    assert (Hd : decodeWsFrames fuel b (set_frames t c)
                 = (Ok (fst (run_frames fs1 c)), set_frames t' (snd (run_frames fs1 c)))).
    { change (decodeWsFrames fuel b (set_frames t c)) with (ws_loop fuel (set_frames (t ++ b) c)).
      rewrite Ha. apply ws_loop_frames; [done|done|lia]. }
    rewrite Hd. unfold bind. rewrite (IH fs2) by (done || lia). rewrite run_frames_app. done.
Qed.

(** ** A length near [2^64] *)

Definition overflow_frame : bytes :=
  ["129"; "127"; "255"; "255"; "255"; "255"; "255"; "255"; "255"; "246"]%char.

Lemma overflow_frame_stays r :
  ∃ d, ws_frame (overflow_frame ++ r) = Some (Ok (1, d, overflow_frame ++ r)).
Proof.
  unfold ws_frame. rewrite (ws_header_more overflow_frame r (1, false, 2 ^ 64 - 10, 10)) by done.
  change (u64 (10 + (2 ^ 64 - 10))) with 0. pose proof (size_nonneg (overflow_frame ++ r)).
  destruct (_ <? 0) eqn:E; prop_tests; [lia|]. unfold substr.
  assert (Hs : size (overflow_frame ++ r) = 10 + size r) by (rewrite size_app; done).
  pose proof (size_nonneg r). destruct (_ <? 10) eqn:E2; prop_tests; [lia|]. cbn [rbind].
  by eexists.
Qed.

Lemma overflow_loops fuel r c :
  wsFrameBuffer_ c = overflow_frame ++ r → fst (ws_loop fuel c) = OutOfFuel.
Proof.
  revert c. induction fuel as [|fuel IH]; intros c Hc; [done|].
  destruct (overflow_frame_stays r) as (d & Hd).
  rewrite (ws_loop_step fuel c 1 d (overflow_frame ++ r)) by (done || by rewrite Hc).
  cbn [Z.eqb Pos.eqb]. unfold bind.
  specialize (IH (set_frames (overflow_frame ++ r) c) eq_refl).
  destruct (ws_loop fuel _) as [[] c']; done.
Qed.

(** ** The handshake *)

(** A connection that waits for the upgrade request. *)
Definition awaiting (c : conn) : Prop :=
  0 ≤ fd_ c ∧ useWebSocket_ c = true ∧ wsHandshakeDone_ c = false ∧ tx c = [].

Lemma send_awaiting d c : awaiting c → send d c = c <| wsPendingSend_ ::= λ p, p ++ d |>.
Proof.
  intros (Hf & Hw & Hh & _). unfold send. rewrite Hw, Hh.
  destruct (fd_ c <? 0) eqn:E; prop_tests; [lia|done].
Qed.

Lemma send_frame d c :
  0 ≤ fd_ c → useWebSocket_ c = true → wsHandshakeDone_ c = true → tx c = [] →
  wire (send d c) = wire c ++ encodeWsFrame d.
Proof.
  intros Hf Hw Hh Ht. unfold send. rewrite Hw, Hh, Ht, write_loop_all.
  destruct (fd_ c <? 0) eqn:E; prop_tests; [lia|done].
Qed.

Lemma write_response_all d : write_response [] d = (true, d, []).
Proof. by destruct d. Qed.

Lemma handshake_completes sha fuel c e key :
  awaiting c → find_sub (CRLF ++ CRLF) (wsHttpBuffer_ c) = Some e →
  length (wsHttpBuffer_ c) = (e + 4)%nat →
  headerValue (take e (wsHttpBuffer_ c)) $"Sec-WebSocket-Key" = key → key ≠ [] →
  wsPendingSend_ c ≠ [] →
  ∃ c', tryCompleteWebSocketHandshake sha fuel c = (Ok true, c') ∧
    wsHandshakeDone_ c' = true ∧ wsPendingSend_ c' = [] ∧ echoSuppressed_ c' = echoSuppressed_ c ∧
    wire c' = wire c ++ handshake_response sha key ++ encodeWsFrame (wsPendingSend_ c).
Proof.
  intros (Hf & Hw & Hh & Ht) He Hend Hkey Hk Hp. destruct c; cbn in Hf, Hw, Hh, Ht, Hp.
  cbn [Connection.wsHttpBuffer_] in He, Hend, Hkey.
  match type of Hp with ?x ≠ [] => destruct x as [|b0 bs]; [done|] end. subst. unfold tryCompleteWebSocketHandshake, bind, get.
  cbn [Connection.wsHttpBuffer_]. rewrite He, drop_ge by lia. unfold modify.
  destruct (headerValue _ _) as [|k0 key]; [done|]. cbn [Connection.tx]. rewrite write_response_all.
  unfold ret. cbn -[handshake_response send encodeWsFrame]. eexists. split; [reflexivity|].
  unfold send. cbn [Connection.fd_ Connection.useWebSocket_ Connection.wsHandshakeDone_ Connection.tx].
  destruct (_ <? 0) eqn:E; prop_tests; [lia|]. cbn [andb negb]. rewrite write_loop_all.
  cbn -[handshake_response encodeWsFrame]. by rewrite <- app_assoc.
Qed.

Lemma finish_poll_quiet c :
  echoSuppressed_ c = false → ∃ ls c', finish_poll [] c = (Ok ls, c') ∧
    wire c' = wire c ∧ wsHandshakeDone_ c' = wsHandshakeDone_ c ∧ wsPendingSend_ c' = wsPendingSend_ c.
Proof.
  intros He. unfold finish_poll, feed, take_lines. cbn [processTelnetBytes].
  destruct (split_lines _) as [ls r]. eexists _, _. split; [reflexivity|].
  assert (Hfold : ∀ d, echoSuppressed_ d = false → foldl (λ c (_ : bytes), line_taken c) d ls = d).
  { induction ls as [|l ls IH]; intros d Hd; [done|]. cbn. unfold line_taken at 2.
    rewrite Hd. by apply IH. }
  by rewrite Hfold.
Qed.

(** ** Properties *)

(** C6: frames are decoded right however the network cuts them: for any sequence
    of frames without a close, masked or not, of any length, arriving in chunks
    cut anywhere, the decoder gives the concatenated payloads of the data
    frames, answers each ping in order and leaves nothing in its buffer; in
    particular it reads back every sequence of messages [encodeWsFrame] wrote. *)
Theorem ws_frames_decoded fs chunks fuel c
    (Hfs : open_frames fs) (Heq : concat chunks = frames_bytes fs)
    (Hb : wsFrameBuffer_ c = []) (Hfuel : (length fs < fuel)%nat) :
  decode_each fuel chunks c
    = (Ok (fst (run_frames fs c)), set_frames [] (snd (run_frames fs c))) ∧
  (∀ ps, fs = map (mkFrame 1 None) ps →
    frames_bytes fs = concat (map encodeWsFrame ps) ∧ run_frames fs c = (concat ps, c)).
Proof.
  split.
  - rewrite <- (decode_each_frames fuel chunks fs [] c) by done. f_equal. destruct c; cbn in *. by subst.
  - intros ps ->. clear. unfold frames_bytes. induction ps as [|p ps [IH1 IH2]]; [done|].
    cbn [map concat run_frames]. rewrite IH1, IH2, encodeWsFrame_frame. done.
Qed.

(** C18: a client hangs the driver with ten bytes: a frame announcing a length
    of [2^64 - 10] makes the size check wrap around to 0, the frame is taken
    without anything being removed from the buffer, and the poll never ends. *)
Theorem ws_overflow_hangs sha fuel c
    (Hf : 0 ≤ fd_ c) (Hw : useWebSocket_ c = true) (Hh : wsHandshakeDone_ c = true)
    (Hb : wsFrameBuffer_ c = []) :
  fst (pollLines sha fuel [Chunk overflow_frame] c) = OutOfFuel.
Proof.
  unfold pollLines, bind at 1, get. cbn [read_all]. rewrite app_nil_r, Hw, Hh.
  destruct (fd_ c <? 0) eqn:E; prop_tests; [lia|]. unfold bind at 1, modify. cbn [andb negb].
  rewrite bool_decide_eq_false_2 by done. cbn [negb]. unfold bind, decodeWsFrames, modify.
  pose proof (overflow_loops fuel [] (c <| wsFrameBuffer_ ::= λ b, b ++ overflow_frame |>)) as H.
  rewrite app_nil_r in H. specialize (H ltac:(cbn; by rewrite Hb)). unfold bind.
  by destruct (ws_loop fuel _) as [[] c'].
Qed.

(** C17: nothing is written to a WebSocket client before the upgrade is
    answered: text sent earlier is kept, the answer to the client's key goes
    out first, and the kept text follows as one frame. *)
Theorem ws_handshake_order sha fuel c banner request e key
    (Hc : awaiting c) (Hp : wsPendingSend_ c = []) (Hecho : echoSuppressed_ c = false)
    (He : find_sub (CRLF ++ CRLF) (wsHttpBuffer_ c ++ request) = Some e)
    (Hend : length (wsHttpBuffer_ c ++ request) = (e + 4)%nat)
    (Hkey : headerValue (take e (wsHttpBuffer_ c ++ request)) $"Sec-WebSocket-Key" = key)
    (Hk : key ≠ []) (Hbanner : banner ≠ []) :
  let c1 := send banner c in
  let c2 := snd (pollLines sha fuel [Chunk request] c1) in
  wire c1 = wire c ∧ wsHandshakeDone_ c2 = true ∧ wsPendingSend_ c2 = [] ∧
  wire c2 = wire c ++ handshake_response sha key ++ encodeWsFrame banner.
Proof.
  cbv zeta. rewrite send_awaiting by done. split; [done|]. destruct Hc as (Hf & Hw & Hh & Ht).
  set (c0 := c <| wsPendingSend_ := banner |> <| wsHttpBuffer_ := wsHttpBuffer_ c ++ request |>).
  destruct (handshake_completes sha fuel c0 e key) as (c' & H1 & H2 & H3 & H4 & H5); try done.
  destruct (finish_poll_quiet c') as (ls & c2 & Hfin & Hw2 & Hd2 & Hp2); [by rewrite H4|].
  assert (Hpoll : pollLines sha fuel [Chunk request] (c <| wsPendingSend_ ::= λ p, p ++ banner |>)
                  = (Ok ls, c2)).
  { unfold pollLines, bind at 1, get. cbn [read_all fd_ useWebSocket_ wsHandshakeDone_ update].
    rewrite app_nil_r, Hw, Hh. destruct (fd_ c <? 0) eqn:E; prop_tests; [lia|].
    cbn [andb negb]. unfold bind, modify.
    match goal with |- context [tryCompleteWebSocketHandshake sha fuel ?d] =>
      replace d with c0 by (subst c0; destruct c; cbn in *; by subst) end.
    by rewrite H1. }
  rewrite Hpoll. cbn [snd]. by rewrite Hw2, Hd2, Hp2, H5.
Qed.

(** The text a client sends in the same read as the end of its request reaches
    the lines unfiltered, telnet commands included; in a later read it is
    filtered. *)
Example ws_early_text_unfiltered :
  let request := $"Sec-WebSocket-Key: k" ++ CRLF ++ CRLF in
  let text := frame_bytes (mkFrame 1 None ([kIac; kWill; kTelOptGmcp] ++ $"hi" ++ [NL])) in
  let c := (newConnection 5 0) <| useWebSocket_ := true |> in
  fst (pollLines (λ s, []) 5 [Chunk (request ++ text)] c)
    = Ok [[kIac; kWill; kTelOptGmcp] ++ $"hi"] ∧
  fst (pollLines (λ s, []) 5 [Chunk text] (snd (pollLines (λ s, []) 5 [Chunk request] c)))
    = Ok [$"hi"].
Proof. by vm_compute. Qed.

(** ** Witnesses *)

Definition ws_conn : conn :=
  (newConnection 5 0) <| useWebSocket_ := true |> <| wsHandshakeDone_ := true |>.

Lemma ws_frames_decoded_witness :
  decode_each 3 [["129"; "130"; "001"]; ["002"; "003"; "004"; "105"]; ["107"]]%char ws_conn
  = (Ok [chr (Z.lxor 105 1); chr (Z.lxor 107 2)], ws_conn).
Proof.
  set (f := mkFrame 1 (Some ["001"; "002"; "003"; "004"]%char)
              [chr (Z.lxor 105 1); chr (Z.lxor 107 2)]).
  destruct (ws_frames_decoded [f] [["129"; "130"; "001"]; ["002"; "003"; "004"; "105"]; ["107"]]%char
    3 ws_conn) as [-> _]; [|reflexivity|reflexivity|simpl; lia|reflexivity].
  repeat constructor; done.
Defined.

Lemma ws_overflow_hangs_witness :
  fst (pollLines no_digest 1000 [Chunk overflow_frame] ws_conn) = OutOfFuel.
Proof. apply ws_overflow_hangs; [done|done|done|done]. Defined.

Lemma ws_handshake_order_witness :
  let c := (newConnection 5 0) <| useWebSocket_ := true |> in
  let request := $"Sec-WebSocket-Key: k" ++ CRLF ++ CRLF in
  wire (snd (pollLines no_digest 5 [Chunk request] (send $"Welcome" c)))
  = handshake_response no_digest $"k" ++ encodeWsFrame $"Welcome".
Proof.
  cbv zeta.
  destruct (ws_handshake_order no_digest 5 ((newConnection 5 0) <| useWebSocket_ := true |>) $"Welcome"
    ($"Sec-WebSocket-Key: k" ++ CRLF ++ CRLF) 20 $"k") as (_ & _ & _ & H);
    [done|done|done|reflexivity|reflexivity|reflexivity|done|done|]. exact H.
Defined.
