(* ===== verification/Lexer.v ===== *)
(** * The lexer: [src/compiler/Lexer.cpp], [include/kjdmud/compiler/Lexer.hpp]

    The source text and the position are kept as the text from the position
    on, so [atEnd()] is "the rest is empty".  The character classes are those
    of the C locale, which the program never changes.  Line numbers are
    integers: a source has fewer than 2^31 lines. *)

From S2P Require Import Prelude Config.

Inductive TokenType := TIdent | TNumber | TString | TSymbol | TQuotedSymbol | TKeyword | TEnd.

#[export] Instance TokenType_eq_dec : EqDecision TokenType.
Proof. solve_decision. Defined.

Record Token := mkToken {
  type : TokenType;
  text : bytes;
  line : Z;
}.

#[export] Instance Token_eq_dec : EqDecision Token.
Proof. solve_decision. Defined.

Record lexer := mkLexer {
  rest : bytes;
  line_ : Z;
}.

(** [<cctype>] *)
Definition is_alpha (c : ascii) : bool :=
  ((65 <=? code c) && (code c <=? 90)) || ((97 <=? code c) && (code c <=? 122)).
Definition is_alnum (c : ascii) : bool := is_alpha c || is_digit c.
Definition is_xdigit (c : ascii) : bool :=
  is_digit c || ((65 <=? code c) && (code c <=? 70)) || ((97 <=? code c) && (code c <=? 102)).

(** A character of an identifier after the first, and the first one. *)
Definition ident_char (c : ascii) : bool := is_alnum c || Ascii.eqb c "_".
Definition ident_start (c : ascii) : bool := is_alpha c || Ascii.eqb c "_".

Definition SQ : ascii := "'".

Definition kKeywords : list bytes := [
  $"void"; $"int"; $"string"; $"object"; $"float"; $"mapping"; $"status";
  $"mixed"; $"function"; $"return"; $"if"; $"else"; $"while"; $"for"; $"do";
  $"static"; $"private"; $"public"; $"protected"; $"nomask"; $"varargs";
  $"inherit"; $"break"; $"continue"; $"foreach"; $"in"; $"switch"; $"case"; $"default"].

Definition kDgdOnlyKeywords : list bytes := [$"atomic"; $"nil"].

(** [peek()] and [peekNext()] at a rest. *)
Definition peek (s : bytes) : ascii := default NUL (head s).
Definition peekNext (s : bytes) : ascii := peek (tail s).

(** The line after [advance()] over one character, and over a text. *)
Definition bump (c : ascii) (n : Z) : Z := if Ascii.eqb c NL then n + 1 else n.
Definition bumps (s : bytes) (n : Z) : Z := fold_left (λ n c, bump c n) s n.

(** [while (!atEnd() && p(peek())) text += advance();] *)
Definition take_while (p : ascii → bool) (s : bytes) (n : Z) : bytes * lexer :=
  let '(t, r) := span p s in (t, mkLexer r (bumps t n)).

Definition is_blank (c : ascii) : bool :=
  Ascii.eqb c " " || Ascii.eqb c TAB || Ascii.eqb c CRB || Ascii.eqb c NL.

(** The body of a block comment and its end. *)
Fixpoint skip_block (s : bytes) (n : Z) : lexer :=
  match s with
  | [] => mkLexer [] n
  | c :: r =>
      if Ascii.eqb c "*" && Ascii.eqb (peek r) "/" then mkLexer (tail r) n
      else skip_block r (bump c n)
  end.

Fixpoint skipWhitespaceAndComments (fuel : nat) (s : bytes) (n : Z) : result lexer :=
  match fuel with
  | O => OutOfFuel
  | S f =>
      match s with
      | [] => Ok (mkLexer [] n)
      | c :: r =>
          if is_blank c then skipWhitespaceAndComments f r (bump c n)
          else if Ascii.eqb c "/" && Ascii.eqb (peek r) "/" then
            let l := snd (take_while (λ c, negb (Ascii.eqb c NL)) s n) in
            skipWhitespaceAndComments f (rest l) (line_ l)
          else if Ascii.eqb c "/" && Ascii.eqb (peek r) "*" then
            let l := skip_block (tail r) n in
            skipWhitespaceAndComments f (rest l) (line_ l)
          else Ok (mkLexer s n)
      end
  end.

Definition lexIdentOrKeyword (d : LpcDialect) (s : bytes) (n : Z) : Token * lexer :=
  let '(t, l) := take_while ident_char s n in
  let isDialectKeyword := bool_decide (d = DGD) && bool_decide (t ∈ kDgdOnlyKeywords) in
  let ty := if bool_decide (t ∈ kKeywords) || isDialectKeyword then TKeyword else TIdent in
  (mkToken ty t n, l).

Definition lexNumber (s : bytes) (n : Z) : Token * lexer :=
  let '(t, l) := take_while is_digit s n in
  let s := rest l in
  if bool_decide (t = $"0") && (Ascii.eqb (peek s) "x" || Ascii.eqb (peek s) "X")
     && is_xdigit (peekNext s) then
    let '(h, l) := take_while is_xdigit (tail s) (line_ l) in
    (mkToken TNumber (t ++ [peek s] ++ h) n, l)
  else if Ascii.eqb (peek s) "." && is_digit (peekNext s) then
    let '(h, l) := take_while is_digit (tail s) (line_ l) in
    (mkToken TNumber (t ++ [peek s] ++ h) n, l)
  else (mkToken TNumber t n, l).

(** [s] is the text after the ['$']. *)
Definition lexLambdaParam (s : bytes) (n : Z) : Token * lexer :=
  if negb (is_digit (peek s)) then (mkToken TSymbol $"$" n, mkLexer s n)
  else let '(t, l) := take_while is_digit s n in (mkToken TIdent ($"$" ++ t) n, l).

Definition string_escape (e : ascii) : ascii :=
  if Ascii.eqb e "n" then NL else if Ascii.eqb e "t" then TAB else e.

(** The loop of [lexString]: the value and the state before the closing quote. *)
Fixpoint string_body (s : bytes) (n : Z) : bytes * lexer :=
  match s with
  | [] => ([], mkLexer [] n)
  | c :: r =>
      if Ascii.eqb c QUOTE then ([], mkLexer s n)
      else match r with
           | e :: r' =>
               if Ascii.eqb c BACKSLASH then
                 let '(v, l) := string_body r' (bump e n) in (string_escape e :: v, l)
               else let '(v, l) := string_body r (bump c n) in (c :: v, l)
           | [] => ([c], mkLexer [] (bump c n))
           end
  end.

Definition at_line (msg : bytes) (n : Z) : bytes := msg ++ $" at line " ++ to_string n.

(** [s] is the text after the opening quote. *)
Definition lexString (s : bytes) (n : Z) : result (Token * lexer) :=
  let '(v, l) := string_body s n in
  match rest l with
  | [] => Throw (LpcRuntimeError (at_line $"unterminated string literal" n))
  | _ :: r => Ok (mkToken TString v n, mkLexer r (line_ l))
  end.

Definition char_error (n : Z) : exn :=
  LpcRuntimeError ($"character literal must contain exactly one character, at line " ++ to_string n).

(** The closing quote of a character literal. *)
Definition close_char (code : Z) (s : bytes) (n n' : Z) : result (Token * lexer) :=
  match s with
  | [] => Throw (char_error n)
  | q :: r =>
      if Ascii.eqb q SQ then Ok (mkToken TNumber (to_string code) n, mkLexer r n')
      else Throw (char_error n)
  end.

(** [s] is the text after the opening quote. *)
Definition lexChar (s : bytes) (n : Z) : result (Token * lexer) :=
  match s with
  | [] => Throw (LpcRuntimeError (at_line $"unterminated character literal" n))
  | [c] => close_char (code c) [] n (bump c n)
  | c :: (e :: r') as r =>
      if Ascii.eqb c BACKSLASH then close_char (code (string_escape e)) r' n (bump e n)
      else close_char (code c) r n (bump c n)
  end.

(** The loop of [lexHeredoc]: the value and the state after the terminator,
    if the terminator is found. *)
Fixpoint heredoc_body (terminator : bytes) (atLineStart : bool) (s : bytes) (n : Z)
    : option (bytes * lexer) :=
  match (if atLineStart then strip_prefix terminator s else None) with
  | Some r => Some ([], mkLexer r (bumps terminator n))
  | None =>
      match s with
      | [] => None
      | c :: s =>
          match heredoc_body terminator (Ascii.eqb c NL) s (bump c n) with
          | Some (v, l) => Some (c :: v, l)
          | None => None
          end
      end
  end.

Definition heredoc_unterminated (terminator : bytes) (n : Z) : exn :=
  LpcRuntimeError (at_line ($"unterminated heredoc: missing closing " ++ [QUOTE] ++ terminator ++ [QUOTE]) n).

(** [s] is the text after the ['@']. *)
Definition lexHeredoc (s : bytes) (n : Z) : result (Token * lexer) :=
  if Ascii.eqb (peek s) "@" then
    Throw (NotImplementedError ([QUOTE] ++ $"@@" ++ [QUOTE] ++ $" array-block heredoc syntax"))
  else
    let '(terminator, l) := take_while (λ c, negb (Ascii.eqb c NL)) s n in
    match terminator with
    | [] => Throw (LpcRuntimeError (at_line $"heredoc: missing terminator" n))
    | _ =>
        match rest l with
        | [] => Throw (heredoc_unterminated terminator n)
        | c :: r =>
            match heredoc_body terminator true r (bump c (line_ l)) with
            | None => Throw (heredoc_unterminated terminator n)
            | Some (v, l) => Ok (mkToken TString v n, l)
            end
        end
    end.

Definition one_of (c : ascii) (cs : bytes) : bool := existsb (Ascii.eqb c) cs.

(** The text of a symbol and what follows; [c] is its first character. *)
Definition symbol_text (c : ascii) (s : bytes) : bytes * bytes :=
  let p := peek s in
  if Ascii.eqb c "-" && Ascii.eqb p ">" then ($"->", tail s) else
  if Ascii.eqb c ":" && Ascii.eqb p ":" then ($"::", tail s) else
  if Ascii.eqb c "+" && Ascii.eqb p "+" then ($"++", tail s) else
  if Ascii.eqb c "-" && Ascii.eqb p "-" then ($"--", tail s) else
  if one_of c $"+-*/%" && Ascii.eqb p "=" then ([c] ++ $"=", tail s) else
  if one_of c $"|&^" && Ascii.eqb p "=" then ([c] ++ $"=", tail s) else
  if Ascii.eqb c "=" && Ascii.eqb p "=" then ($"==", tail s) else
  if Ascii.eqb c "!" && Ascii.eqb p "=" then ($"!=", tail s) else
  if Ascii.eqb c "<" && Ascii.eqb p "<" then
    if Ascii.eqb (peekNext s) "=" then ($"<<=", tail (tail s)) else ($"<<", tail s) else
  if Ascii.eqb c ">" && Ascii.eqb p ">" then
    if Ascii.eqb (peekNext s) "=" then ($">>=", tail (tail s)) else ($">>", tail s) else
  if Ascii.eqb c "<" && Ascii.eqb p "=" then ($"<=", tail s) else
  if Ascii.eqb c ">" && Ascii.eqb p "=" then ($">=", tail s) else
  if Ascii.eqb c "|" && Ascii.eqb p "|" then ($"||", tail s) else
  if Ascii.eqb c "&" && Ascii.eqb p "&" then ($"&&", tail s) else
  if Ascii.eqb c "." && Ascii.eqb p "." then
    if Ascii.eqb (peekNext s) "." then ($"...", tail (tail s)) else ($"..", tail s) else
  ([c], s).

Definition lexSymbol (c : ascii) (s : bytes) (n : Z) : Token * lexer :=
  let '(t, r) := symbol_text c s in (mkToken TSymbol t n, mkLexer r n).

(** [s] is the text after the quote. *)
Definition lexQuote (s : bytes) (n : Z) : result (Token * lexer) :=
  if ident_start (peek s) then
    let '(name, r) := span ident_char s in
    if (length name =? 1)%nat && Ascii.eqb (peek r) SQ then lexChar s n
    else let '(name, l) := take_while ident_char s n in Ok (mkToken TQuotedSymbol name n, l)
  else lexChar s n.

(** [s] is the text after the ['#']. *)
Definition lexHashQuote (s : bytes) (n : Z) : Token * lexer :=
  (mkToken TSymbol $"#'" n, mkLexer (tail s) n).

Definition symbol_chars : bytes := $"(){}[]:;,-=!<>*+|&/%.?^~".

(** The dispatch of [tokenize] on a character that starts a token. *)
Definition lex_token (d : LpcDialect) (c : ascii) (r : bytes) (n : Z) : result (Token * lexer) :=
  if ident_start c then Ok (lexIdentOrKeyword d (c :: r) n)
  else if is_digit c then Ok (lexNumber (c :: r) n)
  else if Ascii.eqb c "." && is_digit (peek r) then Ok (lexNumber (c :: r) n)
  else if Ascii.eqb c QUOTE then lexString r n
  else if Ascii.eqb c SQ then (if bool_decide (d = LdMud) then lexQuote r n else lexChar r n)
  else if Ascii.eqb c "#" && bool_decide (d = LdMud) && Ascii.eqb (peek r) SQ then Ok (lexHashQuote r n)
  else if Ascii.eqb c "@" then lexHeredoc r n
  else if Ascii.eqb c "$" then Ok (lexLambdaParam r n)
  else if one_of c symbol_chars then Ok (lexSymbol c r n)
  else Throw (LpcRuntimeError (at_line ($"lexer: unrecognized character '" ++ [c] ++ $"'") n)).

Fixpoint tokenize_from (fuel : nat) (d : LpcDialect) (l : lexer) : result (list Token) :=
  match fuel with
  | O => OutOfFuel
  | S f =>
      let* l := skipWhitespaceAndComments (S (length (rest l))) (rest l) (line_ l) in
      match rest l with
      | [] => Ok [mkToken TEnd [] (line_ l)]
      | c :: r =>
          let* x := lex_token d c r (line_ l) in
          let* ts := tokenize_from f d (snd x) in
          Ok (fst x :: ts)
      end
  end.

Definition tokenize (d : LpcDialect) (source : bytes) : result (list Token) :=
  tokenize_from (S (length source)) d (mkLexer source 1).
