(* ===== verification/LexerSpec.v ===== *)
(** * What the lexer accepts

    A grammar of LPC source text at the level of tokens (gaps of white space
    and comments, and lexemes with the text that may follow them), and the
    proof that [Lexer::tokenize] reads exactly the texts of this grammar. *)

From S2P Require Import Prelude Config Lexer.

(** ** Lines *)

Lemma bumps_app s t n : bumps (s ++ t) n = bumps t (bumps s n).
Proof. apply fold_left_app. Qed.

Lemma bumps_cons c s n : bumps (c :: s) n = bumps s (bump c n).
Proof. done. Qed.

Lemma bump_other c n : c ≠ NL → bump c n = n.
Proof. intros H. unfold bump. by rewrite (ascii_eqb_neq c NL). Qed.

Lemma bumps_same s n : NL ∉ s → bumps s n = n.
Proof.
  induction s as [|c s IH] in n |- *; [done|]. intros [H ?]%not_elem_of_cons.
  rewrite bumps_cons, bump_other; auto.
Qed.

(** A character class without the newline. *)
Lemma forallb_no_newline p s : p NL = false → forallb p s = true → NL ∉ s.
Proof.
  intros Hp Hs Hin. apply forallb_Forall in Hs. rewrite Forall_forall in Hs.
  apply Hs in Hin. congruence.
Qed.

Lemma take_while_app p t s n :
  forallb p t = true → p (peek s) = false → p NL = false →
  take_while p (t ++ s) n = (t, mkLexer s n).
Proof.
  intros Ht Hs Hp. unfold take_while. rewrite span_app; [|done|by intros c r ->].
  by rewrite bumps_same by eauto using forallb_no_newline.
Qed.

Lemma span_cases p s :
  ∃ t r, span p s = (t, r) ∧ s = t ++ r ∧ forallb p t = true ∧ (r ≠ [] → p (peek r) = false).
Proof.
  induction s as [|c s (t & r & Hspan & -> & Ht & Hr)]; simpl.
  { by exists [], []. }
  destruct (p c) eqn:Hc.
  - rewrite Hspan. exists (c :: t), r. simpl. by rewrite Hc.
  - exists [], (c :: t ++ r). done.
Qed.

(** The same for the loops of the lexer: their classes exclude the NUL that
    [peek] answers at the end. *)
Lemma take_while_cases p s n :
  p NUL = false → p NL = false →
  ∃ t r, take_while p s n = (t, mkLexer r n) ∧ s = t ++ r ∧ forallb p t = true ∧
         p (peek r) = false.
Proof.
  intros H0 Hp. unfold take_while.
  destruct (span_cases p s) as (t & r & -> & -> & Ht & Hr). exists t, r.
  rewrite bumps_same by eauto using forallb_no_newline.
  split_and!; [done..|]. destruct r; [done|by apply Hr].
Qed.

(** ** Gaps *)

(** No end of comment inside a comment. *)
Definition no_close (body : bytes) : Prop := ∀ a b, body ≠ a ++ $"*/" ++ b.

(** White space and closed comments. *)
Inductive gap : bytes → Prop :=
  | gap_nil : gap []
  | gap_blank c g : is_blank c = true → gap g → gap (c :: g)
  | gap_line body g : NL ∉ body → gap (NL :: g) → gap ($"//" ++ body ++ NL :: g)
  | gap_block body g : no_close body → gap g → gap ($"/*" ++ body ++ $"*/" ++ g).

(** The end of a file may be inside a comment. *)
Inductive trailing : bytes → Prop :=
  | trailing_gap g : gap g → trailing g
  | trailing_line g body : gap g → NL ∉ body → trailing (g ++ $"//" ++ body)
  | trailing_block g body : gap g → no_close body → trailing (g ++ $"/*" ++ body).

(** What a gap can be followed by. *)
Definition token_start (s : bytes) : Prop :=
  ∃ c r, s = c :: r ∧ is_blank c = false ∧
         (c = "/"%char → peek r ≠ "/"%char ∧ peek r ≠ "*"%char).

Lemma no_close_cons c body : no_close (c :: body) → no_close body.
Proof. intros H a b ->. by apply (H (c :: a) b). Qed.

Lemma no_close_head body r : no_close ("*"%char :: body) → peek (body ++ $"*/" ++ r) ≠ "/"%char.
Proof. intros H Hp. destruct body as [|c body]; [discriminate Hp|]. change (c = "/"%char) in Hp. subst. by apply (H [] body). Qed.

Lemma skip_block_closed body r n :
  no_close body → skip_block (body ++ $"*/" ++ r) n = mkLexer r (bumps body n).
Proof.
  induction body as [|c body IH] in n |- *; intros H; [done|].
  cbn [skip_block app]. rewrite bumps_cons, <- IH by eauto using no_close_cons.
  destruct (Ascii.eqb c "*") eqn:Hc; [|done]. prop_tests. subst.
  by rewrite (ascii_eqb_neq _ "/") by by apply no_close_head.
Qed.

Lemma skip_block_open body n : no_close body → skip_block body n = mkLexer [] (bumps body n).
Proof.
  induction body as [|c body IH] in n |- *; intros H; [done|].
  cbn [skip_block]. rewrite bumps_cons, <- IH by eauto using no_close_cons.
  destruct (Ascii.eqb c "*") eqn:Hc; [|done]. prop_tests. subst.
  destruct body as [|d body]; [done|]. change (peek (d :: body)) with d.
  destruct (Ascii.eqb d "/") eqn:Hd; [|done]. prop_tests. subst. by destruct (H [] body).
Qed.

Lemma skip_block_cases s :
  (∃ body r, s = body ++ $"*/" ++ r ∧ no_close body) ∨ no_close s.
Proof.
  induction s as [|c s [(body & r & -> & H)|H]].
  - right. intros [|? a] b; done.
  - destruct (decide (c = "*"%char ∧ peek body = "/"%char)) as [[-> Hp]|Hn].
    + destruct body as [|d body]; [done|]. change (d = "/"%char) in Hp. subst.
      left. exists [], (body ++ $"*/" ++ r). split; [done|]. intros [|? a] b; done.
    + left. exists (c :: body), r. split; [done|]. intros [|x a] b; intros [= -> Heq].
      * destruct body; simplify_eq/=. apply Hn. done.
      * by apply (H a b).
  - destruct (decide (c = "*"%char ∧ peek s = "/"%char)) as [[-> Hp]|Hn].
    + destruct s as [|d s]; [done|]. change (d = "/"%char) in Hp. subst.
      left. exists [], s. split; [done|]. intros [|? a] b; done.
    + right. intros [|x a] b; intros [= -> Heq].
      * destruct s; simplify_eq/=. apply Hn. done.
      * by apply (H a b).
Qed.


Lemma bumps_block body g n : bumps ($"/*" ++ body ++ $"*/" ++ g) n = bumps g (bumps body n).
Proof. by rewrite !bumps_app. Qed.

(** The loop over a line comment stops at the newline or the end. *)
Lemma line_comment body r n :
  NL ∉ body → r = [] ∨ peek r = NL →
  snd (take_while (λ c, negb (Ascii.eqb c NL)) ($"//" ++ body ++ r) n) =
  mkLexer r (bumps ($"//" ++ body) n).
Proof.
  intros Hb Hr. unfold take_while. rewrite app_assoc, span_app; [done| |].
  - apply forallb_Forall, Forall_forall. intros c Hc. apply negb_true_iff, ascii_eqb_neq. intros ->.
    apply elem_of_app in Hc as [Hc|Hc]; [|done]. revert Hc. decided.
  - intros c r' ->. destruct Hr as [|Hr]; [done|]. cbn in Hr. by subst.
Qed.

(** One step of the loop: a comment, or a blank, or the end of the gap. *)
Lemma skip_step_line f body r n :
  NL ∉ body → r = [] ∨ peek r = NL →
  skipWhitespaceAndComments (S f) ($"//" ++ body ++ r) n =
  skipWhitespaceAndComments f r (bumps ($"//" ++ body) n).
Proof.
  intros Hb Hr.
  change (skipWhitespaceAndComments (S f) ($"//" ++ body ++ r) n)
    with (let l := snd (take_while (λ c, negb (Ascii.eqb c NL)) ($"//" ++ body ++ r) n) in
          skipWhitespaceAndComments f (rest l) (line_ l)).
  by rewrite line_comment.
Qed.

Lemma skip_step_block f s n :
  skipWhitespaceAndComments (S f) ($"/*" ++ s) n =
  skipWhitespaceAndComments f (rest (skip_block s n)) (line_ (skip_block s n)).
Proof. done. Qed.

Lemma skip_step_blank f c s n :
  is_blank c = true →
  skipWhitespaceAndComments (S f) (c :: s) n = skipWhitespaceAndComments f s (bump c n).
Proof. intros H. cbn [skipWhitespaceAndComments]. by rewrite H. Qed.

Lemma skip_stop f s n :
  token_start s → skipWhitespaceAndComments (S f) s n = Ok (mkLexer s n).
Proof.
  intros (c & r & -> & Hb & Hc). cbn [skipWhitespaceAndComments]. rewrite Hb.
  destruct (Ascii.eqb c "/") eqn:Hs; [|done]. prop_tests.
  destruct (Hc Hs). simpl. by rewrite !ascii_eqb_neq.
Qed.

Definition stops (s : bytes) : Prop := s = [] ∨ token_start s.

Lemma skip_stops f s n : stops s → skipWhitespaceAndComments (S f) s n = Ok (mkLexer s n).
Proof. intros [->|H]; [done|by apply skip_stop]. Qed.

(** A gap is skipped whole, whatever follows it. *)
Lemma skip_gap_then g s f n R :
  gap g → (length g + length s < f)%nat →
  (∀ f', (length s ≤ f')%nat → skipWhitespaceAndComments (S f') s (bumps g n) = R) →
  skipWhitespaceAndComments f (g ++ s) n = R.
Proof.
  intros Hg. revert f n. induction Hg as [|c g Hc _ IH|body g Hb _ IH|body g Hb _ IH];
    intros [|f] n Hf HR; try (simpl in Hf; lia).
  - apply HR. simpl in Hf. lia.
  - simpl app. rewrite skip_step_blank by done. apply IH; [simpl in Hf; lia|done].
  - rewrite !length_app in Hf. simpl in Hf.
    rewrite <- !app_assoc, skip_step_line by (try done; by right).
    apply (IH f); [simpl; lia|]. intros f'. rewrite <- bumps_app, <- app_assoc. apply HR.
  - rewrite !length_app in Hf. simpl in Hf.
    rewrite <- !app_assoc, skip_step_block, skip_block_closed by done. cbn [rest line_].
    apply IH; [lia|]. intros f'. rewrite <- bumps_block. apply HR.
Qed.

Lemma skip_gap g s f n :
  gap g → stops s → (length g + length s < f)%nat →
  skipWhitespaceAndComments f (g ++ s) n = Ok (mkLexer s (bumps g n)).
Proof. intros Hg Hs Hf. eapply skip_gap_then; [done..|]. intros f' _. by apply skip_stops. Qed.

(** A file may end in a comment. *)
Lemma skip_trailing g f n :
  trailing g → (length g < f)%nat →
  skipWhitespaceAndComments f g n = Ok (mkLexer [] (bumps g n)).
Proof.
  intros Ht Hf. destruct Ht as [g Hg|g body Hg Hb|g body Hg Hb].
  - rewrite <- (app_nil_r g) at 1. apply skip_gap; [done|by left|simpl; lia].
  - rewrite length_app in Hf. eapply skip_gap_then; [done..|].
    intros [|f'] Hl; [simpl in Hl; lia|].
    rewrite <- (app_nil_r body), skip_step_line by (try done; by left).
    by rewrite !app_nil_r, !bumps_app.
  - rewrite length_app in Hf. eapply skip_gap_then; [done..|].
    intros [|f'] Hl; [simpl in Hl; lia|].
    rewrite skip_step_block, skip_block_open by done. by rewrite !bumps_app.
Qed.

Lemma gap_prepend g s s' :
  gap g → trailing s ∨ (∃ g' t, s = g' ++ t ∧ gap g' ∧ token_start t) →
  s' = g ++ s →
  (∀ h, gap h → gap (g ++ h)) →
  trailing s' ∨ ∃ g' t, s' = g' ++ t ∧ gap g' ∧ token_start t.
Proof.
  intros Hg H -> Happ. destruct H as [Ht|(g' & t & -> & Hg' & Ht)].
  - left. destruct Ht as [h Hh|h body Hh Hb|h body Hh Hb].
    + by apply trailing_gap, Happ.
    + rewrite app_assoc. by apply trailing_line; [apply Happ|].
    + rewrite app_assoc. by apply trailing_block; [apply Happ|].
  - right. exists (g ++ g'), t. by rewrite <- app_assoc; auto.
Qed.

(** Every text splits into a gap and the start of a lexeme. *)
Lemma gap_cases s :
  trailing s ∨ ∃ g t, s = g ++ t ∧ gap g ∧ token_start t.
Proof.
  induction s as [s IH] using (induction_ltof1 _ (@length ascii)). unfold ltof in IH.
  destruct s as [|c r]; [left; by apply trailing_gap, gap_nil|].
  destruct (is_blank c) eqn:Hb.
  { apply (gap_prepend [c] r); [by apply gap_blank, gap_nil|by apply IH; simpl; lia|done|].
    intros h. by apply gap_blank. }
  destruct (decide (c = "/"%char ∧ peek r = "/"%char)) as [[-> Hp]|Hl].
  { destruct r as [|d r]; [done|]. change (d = "/"%char) in Hp. subst.
    destruct (span_cases (λ c, negb (Ascii.eqb c NL)) r) as (body & t & _ & -> & Hbody & Ht).
    assert (NL ∉ body) as Hnl by (by apply (forallb_no_newline _ _ eq_refl) in Hbody).
    destruct t as [|d t].
    { left. rewrite app_nil_r. by apply (trailing_line [] body gap_nil). }
    specialize (Ht ltac:(done)). apply negb_false_iff, Ascii.eqb_eq in Ht. cbn in Ht. subst d.
    apply (gap_prepend ($"//" ++ body ++ [NL]) t).
    - apply gap_line; [done|]. by apply gap_blank, gap_nil.
    - apply IH. simpl. rewrite length_app. simpl. lia.
    - by rewrite <- !app_assoc.
    - intros h Hh. rewrite <- !app_assoc. apply gap_line; [done|]. by apply gap_blank. }
  destruct (decide (c = "/"%char ∧ peek r = "*"%char)) as [[-> Hp]|Hk].
  { destruct r as [|d r]; [done|]. change (d = "*"%char) in Hp. subst.
    destruct (skip_block_cases r) as [(body & t & -> & Hnc)|Hnc].
    - apply (gap_prepend ($"/*" ++ body ++ $"*/" ++ []) t).
      + by apply gap_block; [|apply gap_nil].
      + apply IH. simpl. rewrite length_app. simpl. lia.
      + by rewrite app_nil_r, <- !app_assoc.
      + intros h Hh. rewrite app_nil_r, <- !app_assoc. by apply gap_block.
    - left. by apply (trailing_block [] r gap_nil). }
  right. exists [], (c :: r). split_and!; [done|apply gap_nil|]. exists c, r. split_and!; [done..|].
  intros ->. split; intros Hp; [apply Hl|apply Hk]; done.
Qed.

(** ** Lexemes *)

Definition keyword (d : LpcDialect) (t : bytes) : bool :=
  bool_decide (t ∈ kKeywords) || (bool_decide (d = DGD) && bool_decide (t ∈ kDgdOnlyKeywords)).

(** The spellings of the characters of a string. *)
Inductive string_text : bytes → bytes → Prop :=
  | string_nil : string_text [] []
  | string_plain c v s :
      c ≠ QUOTE → c ≠ BACKSLASH → string_text v s → string_text (c :: v) (c :: s)
  | string_escaped e v s :
      string_text v s → string_text (string_escape e :: v) (BACKSLASH :: e :: s).

(** The operators and punctuation, the longest first. *)
Definition operators : list bytes := [
  $"<<="; $">>="; $"...";
  $"->"; $"::"; $"++"; $"--"; $"+="; $"-="; $"*="; $"/="; $"%="; $"|="; $"&="; $"^=";
  $"=="; $"!="; $"<<"; $">>"; $"<="; $">="; $"||"; $"&&"; $".."] ++ map (λ c, [c]) symbol_chars.

(** No longer operator starts here. *)
Definition longest_operator (t s : bytes) : Prop :=
  t ∈ operators ∧ t `prefix_of` s ∧ ∀ op, op ∈ operators → op `prefix_of` s → (length op ≤ length t)%nat.

Definition heredoc_line (terminator l : bytes) : Prop :=
  NL ∉ l ∧ strip_prefix terminator l = None.

(** [lexeme d ty v src post]: in dialect [d], [src] followed by [post] spells
    a token of type [ty] and text [v]. *)
Inductive lexeme (d : LpcDialect) : TokenType → bytes → bytes → bytes → Prop :=
  | lexeme_word c t post :
      ident_start c = true → forallb ident_char t = true → ident_char (peek post) = false →
      lexeme d (if keyword d (c :: t) then TKeyword else TIdent) (c :: t) (c :: t) post
  | lexeme_decimal t post :
      t ≠ [] → forallb is_digit t = true → is_digit (peek post) = false →
      (peek post = "."%char → is_digit (peekNext post) = false) →
      (t = $"0" → peek post = "x"%char ∨ peek post = "X"%char → is_xdigit (peekNext post) = false) →
      lexeme d TNumber t t post
  | lexeme_float a b post :
      forallb is_digit a = true → forallb is_digit b = true → b ≠ [] → is_digit (peek post) = false →
      lexeme d TNumber (a ++ $"." ++ b) (a ++ $"." ++ b) post
  | lexeme_hex x h post :
      x = "x"%char ∨ x = "X"%char → forallb is_xdigit h = true → h ≠ [] → is_xdigit (peek post) = false →
      lexeme d TNumber ($"0" ++ [x] ++ h) ($"0" ++ [x] ++ h) post
  | lexeme_param t post :
      t ≠ [] → forallb is_digit t = true → is_digit (peek post) = false →
      lexeme d TIdent ($"$" ++ t) ($"$" ++ t) post
  | lexeme_dollar post : is_digit (peek post) = false → lexeme d TSymbol $"$" $"$" post
  | lexeme_string v s post : string_text v s → lexeme d TString v ([QUOTE] ++ s ++ [QUOTE]) post
  | lexeme_char c post :
      c ≠ BACKSLASH → lexeme d TNumber (to_string (code c)) [SQ; c; SQ] post
  | lexeme_char_escape e post :
      lexeme d TNumber (to_string (code (string_escape e))) [SQ; BACKSLASH; e; SQ] post
  | lexeme_heredoc t ls post :
      t ≠ [] → NL ∉ t → peek t ≠ "@"%char → Forall (heredoc_line t) ls →
      lexeme d TString (unlines ls) ($"@" ++ t ++ [NL] ++ unlines ls ++ t) post
  | lexeme_operator t post :
      longest_operator t (t ++ post) → (t = $"." → is_digit (peek post) = false) →
      lexeme d TSymbol t t post
  | lexeme_quoted c t post :
      d = LdMud → ident_start c = true → forallb ident_char t = true →
      ident_char (peek post) = false → (t = [] → peek post ≠ SQ) →
      lexeme d TQuotedSymbol (c :: t) (SQ :: c :: t) post
  | lexeme_hash_quote post : d = LdMud → lexeme d TSymbol $"#'" ($"#'") post.

(** [source_where P d n s ts]: the text [s] that starts at line [n] is [ts],
    with lexemes that satisfy [P]. *)
Inductive source_where (P : bytes → Prop) (d : LpcDialect) : Z → bytes → list Token → Prop :=
  | source_end n g : trailing g → source_where P d n g [mkToken TEnd [] (bumps g n)]
  | source_token n g ty v src post ts :
      gap g → token_start (src ++ post) → lexeme d ty v src post → P src →
      source_where P d (bumps src (bumps g n)) post ts →
      source_where P d n (g ++ src ++ post) (mkToken ty v (bumps g n) :: ts).

Definition source : LpcDialect → Z → bytes → list Token → Prop := source_where (λ _, True).

(** *** Symbols *)

Ltac split_in H :=
  repeat (apply elem_of_cons in H as [H|H]); [subst..|by apply not_elem_of_nil in H].

Lemma one_of_elem c cs : one_of c cs = true ↔ c ∈ cs.
Proof.
  unfold one_of. rewrite existsb_exists. split.
  - intros (x & Hx & ->%Ascii.eqb_eq). by apply list_elem_of_In.
  - intros H. exists c. by rewrite Ascii.eqb_refl, <- list_elem_of_In.
Qed.

(** Evaluate the tests on known characters, case on the others. *)
Ltac eqb_cases :=
  repeat (cbn [andb orb negb existsb fst snd app head tail default from_option id];
  match goal with
  | |- context [Ascii.eqb ?a ?b] =>
      let v := eval vm_compute in (Ascii.eqb a b) in
      match v with
      | true => change (Ascii.eqb a b) with true
      | false => change (Ascii.eqb a b) with false
      | _ => destruct (Ascii.eqb a b) eqn:?
      end
  end).

Lemma symbol_text_sound c s :
  c ∈ symbol_chars →
  fst (symbol_text c s) ∈ operators ∧ c :: s = fst (symbol_text c s) ++ snd (symbol_text c s).
Proof.
  intros Hc.
  destruct s as [|p [|q s]]; unfold symbol_chars in Hc; cbn in Hc; split_in Hc;
    unfold symbol_text, one_of, peekNext, peek; cbn [list_ascii_of_string]; eqb_cases;
    prop_tests; subst; (split; [decided|done]).
Qed.

Lemma symbol_text_longest c s op :
  op ∈ operators → op `prefix_of` (c :: s) → (length op ≤ length (fst (symbol_text c s)))%nat.
Proof.
  intros Hop [k Hk]. unfold operators in Hop; cbn in Hop.
  split_in Hop; simpl in Hk; injection Hk as -> ->;
    unfold symbol_text, one_of, peekNext, peek; cbn [list_ascii_of_string]; eqb_cases; simpl; lia.
Qed.


Lemma operators_start c t : c :: t ∈ operators → c ∈ symbol_chars.
Proof. intros H. unfold operators in H. cbn in H. split_in H; injection H as -> ->; decided. Qed.

(** A symbol is the longest operator at its place. *)
Lemma symbol_text_spec c s t r :
  c ∈ symbol_chars →
  symbol_text c s = (t, r) ↔ c :: s = t ++ r ∧ longest_operator t (c :: s).
Proof.
  intros Hc. destruct (symbol_text_sound c s Hc) as [Hop Heq].
  pose proof (symbol_text_longest c s) as Hmax.
  destruct (symbol_text c s) as [t' r']. simpl in *. split.
  - intros [= <- <-]. split; [done|]. split; [done|]. split; [by exists r'|done].
  - intros [Hs (Ht & Hp & Hl)]. assert (length t = length t') as Hlen.
    { specialize (Hmax t Ht Hp). specialize (Hl t' Hop (ex_intro _ r' Heq)). lia. }
    rewrite Hs in Heq. by apply app_inj_1 in Heq as [-> ->].
Qed.

(** *** Strings and heredocs *)

Lemma string_body_app v s r n :
  string_text v s → string_body (s ++ QUOTE :: r) n = (v, mkLexer (QUOTE :: r) (bumps s n)).
Proof.
  intros H. revert n. induction H as [|c v s Hq Hb _ IH|e v s _ IH]; intros n.
  - done.
  - change ((c :: s) ++ QUOTE :: r) with (c :: (s ++ QUOTE :: r)).
    specialize (IH (bump c n)). cbn [string_body].
    rewrite ascii_eqb_neq, (ascii_eqb_neq c BACKSLASH) by done.
    destruct (s ++ QUOTE :: r) eqn:E; [by destruct s|]. by rewrite IH.
  - change ((BACKSLASH :: e :: s) ++ QUOTE :: r) with (BACKSLASH :: e :: (s ++ QUOTE :: r)).
    cbn [string_body]. simpl. rewrite IH. done.
Qed.

Lemma string_body_cases s n :
  match rest (snd (string_body s n)) with
  | [] => True
  | q :: r => ∃ t, q = QUOTE ∧ s = t ++ QUOTE :: r ∧ string_text (fst (string_body s n)) t ∧
                   line_ (snd (string_body s n)) = bumps t n
  end.
Proof.
  revert n. induction s as [s IH] using (induction_ltof1 _ (@length ascii)).
  unfold ltof in IH. intros n. destruct s as [|c r]; [done|]. cbn [string_body].
  destruct (Ascii.eqb c QUOTE) eqn:Hq; prop_tests.
  { subst. exists []. by repeat constructor. }
  destruct r as [|e r]; [done|].
  destruct (Ascii.eqb c BACKSLASH) eqn:Hb; prop_tests.
  - subst. specialize (IH r ltac:(simpl; lia) (bump e n)).
    destruct (string_body r (bump e n)) as [v [t m]]. simpl in *. destruct t; [done|].
    destruct IH as (u & -> & -> & Hu & ->). exists (BACKSLASH :: e :: u).
    split_and!; [done..| |done]. by constructor.
  - specialize (IH (e :: r) ltac:(simpl; lia) (bump c n)).
    destruct (string_body (e :: r) (bump c n)) as [v [t m]]. simpl in *. destruct t; [done|].
    destruct IH as (u & -> & Heq & Hu & ->). exists (c :: u).
    split_and!; [done|by rewrite Heq|by constructor|done].
Qed.

Lemma strip_prefix_line t l r :
  NL ∉ t → strip_prefix t (l ++ NL :: r) = None ↔ strip_prefix t l = None.
Proof.
  induction t as [|a t IH] in l |- *; [done|]. intros [Ha Ht]%not_elem_of_cons.
  destruct l as [|b l]; simpl; [by rewrite ascii_eqb_neq by done|].
  destruct (Ascii.eqb a b); [by apply IH|done].
Qed.

Lemma heredoc_body_in_line t l s n :
  NL ∉ l →
  heredoc_body t false (l ++ NL :: s) n =
  '(v, x) ← heredoc_body t true s (n + 1); Some (l ++ NL :: v, x).
Proof.
  induction l as [|c l IH] in n |- *; intros Hl.
  - simpl. by destruct (heredoc_body t true s _) as [[??]|].
  - apply not_elem_of_cons in Hl as [Hc Hl]. simpl. rewrite (ascii_eqb_neq c NL) by done.
    rewrite bump_other by done. rewrite IH by done.
    by destruct (heredoc_body t true s _) as [[??]|].
Qed.

(** A whole line that does not start with the terminator. *)
Lemma heredoc_body_line t l s n :
  NL ∉ t → heredoc_line t l →
  heredoc_body t true (l ++ NL :: s) n =
  '(v, x) ← heredoc_body t true s (n + 1); Some (l ++ NL :: v, x).
Proof.
  intros Ht [Hl Hp]. rewrite <- (strip_prefix_line _ _ s) in Hp by done.
  rewrite <- heredoc_body_in_line by done.
  destruct l as [|c l]; simpl; simpl in Hp; by rewrite Hp.
Qed.

Lemma unlines_cons l ls : unlines (l :: ls) = l ++ NL :: unlines ls.
Proof. unfold unlines. simpl. by rewrite <- app_assoc. Qed.

Lemma heredoc_body_app t ls r n :
  NL ∉ t → Forall (heredoc_line t) ls →
  heredoc_body t true (unlines ls ++ t ++ r) n = Some (unlines ls, mkLexer r (bumps (unlines ls) n)).
Proof.
  intros Ht Hls. revert n. induction Hls as [|l ls Hl _ IH]; intros n.
  - simpl. pose proof (strip_prefix_app t r) as Hp.
    destruct (t ++ r) eqn:E; simpl; rewrite Hp; by rewrite bumps_same.
  - rewrite unlines_cons, <- app_assoc. simpl app. rewrite heredoc_body_line by done. rewrite IH. simpl.
    change (l ++ NL :: unlines ls) with (l ++ [NL] ++ unlines ls).
    by rewrite !bumps_app, (bumps_same l) by apply Hl.
Qed.

Lemma heredoc_body_no_line t l n : NL ∉ l → heredoc_body t false l n = None.
Proof.
  induction l as [|c l IH] in n |- *; [done|]. intros [Hc Hl]%not_elem_of_cons. simpl.
  rewrite (ascii_eqb_neq c NL) by done. by rewrite IH.
Qed.

Lemma heredoc_body_cases t s n v x :
  NL ∉ t → heredoc_body t true s n = Some (v, x) →
  ∃ ls, v = unlines ls ∧ Forall (heredoc_line t) ls ∧ s = v ++ t ++ rest x ∧ line_ x = bumps v n.
Proof.
  intros Ht. revert n v. induction s as [s IH] using (induction_ltof1 _ (@length ascii)).
  unfold ltof in IH. intros n v Hs. destruct (strip_prefix t s) as [r|] eqn:Hp.
  { pose proof (strip_prefix_Some _ _ _ Hp) as ->. exists [].
    assert (Some ([], mkLexer r (bumps t n)) = Some (v, x)) as [= <- <-]
      by (rewrite <- Hs; destruct (t ++ r); simpl; by rewrite Hp).
    split_and!; [done|constructor|done|by apply bumps_same]. }
  destruct (span_cases (λ c, negb (Ascii.eqb c NL)) s) as (l & r & _ & -> & Hl & Hr).
  apply (forallb_no_newline _ _ eq_refl) in Hl. destruct r as [|c r].
  { rewrite app_nil_r in *. destruct l as [|c l]; simpl in Hs; rewrite Hp in Hs; [done|].
    apply not_elem_of_cons in Hl as [Hc Hl].
    by rewrite (ascii_eqb_neq c NL), heredoc_body_no_line in Hs by done. }
  specialize (Hr ltac:(done)). apply negb_false_iff, Ascii.eqb_eq in Hr. cbn in Hr. subst c.
  rewrite strip_prefix_line in Hp by done.
  rewrite heredoc_body_line in Hs by done.
  apply bind_Some in Hs as ((v' & x') & Hs & Heq). simplify_eq.
  apply IH in Hs as (ls & -> & Hls & -> & ->); [|rewrite length_app; simpl; lia].
  exists (l :: ls). split_and!.
  - by rewrite unlines_cons.
  - by constructor.
  - by rewrite <- app_assoc.
  - change (l ++ NL :: unlines ls) with (l ++ [NL] ++ unlines ls).
    by rewrite !bumps_app, (bumps_same l).
Qed.

(** *** Character classes *)

Lemma digit_not_alpha c : is_digit c = true → ident_start c = false.
Proof.
  unfold ident_start, is_alpha, is_digit. intros H. prop_tests.
  destruct (Ascii.eqb c "_") eqn:Hc.
  { prop_tests. subst. change (code "_") with 95 in *. lia. }
  rewrite orb_false_r. apply orb_false_iff. split; apply andb_false_iff; rewrite !Z.leb_gt; lia.
Qed.

Lemma ident_start_char c : ident_start c = true → ident_char c = true.
Proof.
  unfold ident_start, ident_char, is_alnum. intros [->| ->]%orb_true_iff; [done|by rewrite orb_true_r].
Qed.

Lemma xdigit_no_newline h : forallb is_xdigit h = true → NL ∉ h.
Proof. by apply forallb_no_newline. Qed.
Lemma digit_no_newline h : forallb is_digit h = true → NL ∉ h.
Proof. by apply forallb_no_newline. Qed.
Lemma word_no_newline h : forallb ident_char h = true → NL ∉ h.
Proof. by apply forallb_no_newline. Qed.
#[local] Hint Resolve xdigit_no_newline digit_no_newline word_no_newline : core.

Lemma no_newline_app s t : NL ∉ s → NL ∉ t → NL ∉ s ++ t.
Proof. intros ?? [?|?]%elem_of_app; done. Qed.
Lemma no_newline_cons c t : c ≠ NL → NL ∉ t → NL ∉ c :: t.
Proof. intros ? ? [?|?]%elem_of_cons; congruence. Qed.
#[local] Hint Resolve no_newline_app no_newline_cons : core.

Lemma operator_no_newline t : t ∈ operators → NL ∉ t.
Proof.
  intros H. assert (Forall (λ t, NL ∉ t) operators) as Hall by decided.
  rewrite Forall_forall in Hall. auto.
Qed.

(** The dispatch reaches [lexSymbol]. *)
Lemma lex_token_symbol d c r n :
  c ∈ symbol_chars → (c = "."%char → is_digit (peek r) = false) →
  lex_token d c r n = Ok (lexSymbol c r n).
Proof.
  intros Hc Hd. unfold lex_token.
  rewrite (proj2 (one_of_elem _ _) Hc). unfold symbol_chars in Hc. cbn in Hc.
  split_in Hc; try done. by rewrite Hd.
Qed.

Lemma lex_token_digit d c r n : is_digit c = true → lex_token d c r n = Ok (lexNumber (c :: r) n).
Proof. intros H. unfold lex_token. by rewrite digit_not_alpha, H. Qed.

(** *** Every lexeme is lexed *)

Lemma lex_word d c t post n :
  ident_start c = true → forallb ident_char t = true → ident_char (peek post) = false →
  lex_token d c (t ++ post) n =
  Ok (mkToken (if keyword d (c :: t) then TKeyword else TIdent) (c :: t) n, mkLexer post n).
Proof.
  intros Hc Ht Hp. unfold lex_token. rewrite Hc. unfold lexIdentOrKeyword.
  change (c :: t ++ post) with ((c :: t) ++ post).
  rewrite take_while_app; [done| |done|done].
  simpl. by rewrite ident_start_char.
Qed.

Lemma lexNumber_decimal t post n :
  forallb is_digit t = true → is_digit (peek post) = false →
  (peek post = "."%char → is_digit (peekNext post) = false) →
  (t = $"0" → peek post = "x"%char ∨ peek post = "X"%char → is_xdigit (peekNext post) = false) →
  lexNumber (t ++ post) n = (mkToken TNumber t n, mkLexer post n).
Proof.
  intros Ht Hp Hdot Hx. unfold lexNumber. rewrite take_while_app by done. cbn [rest line_].
  destruct (bool_decide (t = $"0") && _ && _) eqn:Hhex.
  { prop_tests. rewrite Hx in *; [done..|]. by apply orb_true_iff in H1 as [?%Ascii.eqb_eq|?%Ascii.eqb_eq]; auto. }
  destruct (Ascii.eqb (peek post) "." && _) eqn:Hfl; [|done].
  prop_tests. rewrite Hdot in *; done.
Qed.

Lemma lexNumber_float a b post n :
  forallb is_digit a = true → forallb is_digit b = true → b ≠ [] → is_digit (peek post) = false →
  lexNumber (a ++ $"." ++ b ++ post) n = (mkToken TNumber (a ++ $"." ++ b) n, mkLexer post n).
Proof.
  intros Ha Hb Hne Hp. unfold lexNumber. rewrite take_while_app by done. cbn [rest line_].
  destruct b as [|c b]; [done|]. pose proof Hb as Hb'. simpl in Hb'. prop_tests.
  change (peek _) with "."%char. rewrite andb_false_r.
  change (peekNext _) with c. rewrite H. simpl andb. cbn [tail].
  change (tail ($"." ++ (c :: b) ++ post)) with ((c :: b) ++ post).
  by rewrite take_while_app.
Qed.

Lemma lexNumber_hex x h post n :
  x = "x"%char ∨ x = "X"%char → forallb is_xdigit h = true → h ≠ [] → is_xdigit (peek post) = false →
  lexNumber ($"0" ++ [x] ++ h ++ post) n = (mkToken TNumber ($"0" ++ [x] ++ h) n, mkLexer post n).
Proof.
  intros Hx Hh Hne Hp. unfold lexNumber. rewrite take_while_app; [|done|by destruct Hx as [-> | ->]|done].
  cbn [rest line_]. destruct h as [|c h]; [done|]. pose proof Hh as Hh'. simpl in Hh'. prop_tests.
  change (peek _) with x. change (peekNext _) with c. rewrite H, andb_true_r.
  rewrite bool_decide_eq_true_2 by done.
  assert (Ascii.eqb x "x" || Ascii.eqb x "X" = true) as -> by (by destruct Hx as [-> | ->]).
  cbn [andb]. change (tail ([x] ++ (c :: h) ++ post)) with ((c :: h) ++ post).
  by rewrite take_while_app.
Qed.

Lemma word_chars c t :
  ident_start c = true → forallb ident_char t = true → forallb ident_char (c :: t) = true.
Proof. intros Hc Ht. simpl. by rewrite ident_start_char. Qed.
#[local] Hint Resolve word_chars : core.

Lemma lexChar_plain c post n :
  c ≠ BACKSLASH →
  lexChar (c :: SQ :: post) n = Ok (mkToken TNumber (to_string (code c)) n, mkLexer post (bump c n)).
Proof. intros H. cbn [lexChar]. by rewrite ascii_eqb_neq by done. Qed.

Lemma lexQuote_char c post n : lexQuote (c :: SQ :: post) n = lexChar (c :: SQ :: post) n.
Proof.
  unfold lexQuote. change (peek (c :: _)) with c. destruct (ident_start c) eqn:Hc; [|done].
  cbn [span]. rewrite ident_start_char by done. done.
Qed.

Lemma lexQuote_escape e post n :
  lexQuote (BACKSLASH :: e :: post) n = lexChar (BACKSLASH :: e :: post) n.
Proof. done. Qed.

Lemma lexQuote_name c t post n :
  ident_start c = true → forallb ident_char t = true → ident_char (peek post) = false →
  (t = [] → peek post ≠ SQ) →
  lexQuote (c :: t ++ post) n = Ok (mkToken TQuotedSymbol (c :: t) n, mkLexer post n).
Proof.
  intros Hc Ht Hp Hq. unfold lexQuote. change (peek (c :: _)) with c. rewrite Hc.
  change (c :: t ++ post) with ((c :: t) ++ post).
  pose proof (word_chars c t Hc Ht) as Hw.
  rewrite take_while_app by done.
  rewrite span_app; [|done|by intros ? ? ->].
  destruct ((length (c :: t) =? 1)%nat && Ascii.eqb (peek post) SQ) eqn:E; [|done].
  prop_tests. destruct t; [|done]. by destruct Hq.
Qed.

Lemma lex_heredoc t ls post n :
  t ≠ [] → NL ∉ t → peek t ≠ "@"%char → Forall (heredoc_line t) ls →
  lexHeredoc (t ++ [NL] ++ unlines ls ++ t ++ post) n =
  Ok (mkToken TString (unlines ls) n, mkLexer post (bumps (unlines ls) (n + 1))).
Proof.
  intros Hne Ht Hat Hls. unfold lexHeredoc.
  destruct t as [|c t]; [done|]. change (peek ((c :: t) ++ _)) with c.
  rewrite ascii_eqb_neq by done.
  unfold take_while. rewrite span_app; [| |by intros ? ? [= <- <-]].
  2:{ apply forallb_Forall, Forall_forall. intros x Hx. apply negb_true_iff, ascii_eqb_neq. by intros ->. }
  cbn [rest line_]. rewrite bumps_same by done. 
  change ([NL] ++ unlines ls ++ (c :: t) ++ post) with (NL :: (unlines ls ++ (c :: t) ++ post)).
  cbv iota beta. change (bump NL n) with (n + 1).
  by rewrite heredoc_body_app.
Qed.

(** A lexeme is lexed to its token, whatever follows it. *)
Lemma lex_lexeme d ty v src post n :
  lexeme d ty v src post →
  ∃ c r, src ++ post = c :: r ∧
         lex_token d c r n = Ok (mkToken ty v n, mkLexer post (bumps src n)).
Proof.
  intros H. destruct H as [c t post Hc Ht Hp|t post Hne Ht Hp Hdot Hx|a b post Ha Hb Hne Hp
    |x h post Hx Hh Hne Hp|t post Hne Ht Hp|post Hp|v s post Hs|c post Hc|e post
    |t ls post Hne Ht Hat Hls|t post Hl Hd|c t post -> Hc Ht Hp Hq|post ->].
  - exists c, (t ++ post). split; [done|]. rewrite lex_word by done.
    by rewrite bumps_same by auto.
  - destruct t as [|c t]; [done|]. exists c, (t ++ post). split; [done|].
    pose proof Ht as Ht'. simpl in Ht'. prop_tests. rewrite lex_token_digit by done.
    change (c :: t ++ post) with ((c :: t) ++ post).
    rewrite lexNumber_decimal, bumps_same by auto. done.
  - rewrite bumps_same by (apply no_newline_app; [auto|apply no_newline_app; [decided|auto]]).
    rewrite <- !app_assoc. rewrite <- (lexNumber_float a b post n) by done.
    destruct a as [|c a].
    + destruct b as [|c b]; [done|]. exists "."%char, ((c :: b) ++ post). split; [done|].
      simpl in Hb. prop_tests. unfold lex_token. cbn. by rewrite H.
    + exists c, (a ++ $"." ++ b ++ post). split; [done|]. simpl in Ha. prop_tests.
      by rewrite lex_token_digit.
  - rewrite bumps_same by (apply no_newline_app; [decided|apply no_newline_app; [|auto]];
      destruct Hx as [-> | ->]; decided).
    exists "0"%char, ([x] ++ h ++ post). split; [done|]. rewrite lex_token_digit by done.
    f_equal. by apply lexNumber_hex.
  - rewrite bumps_same by (apply no_newline_app; [decided|auto]).
    exists "$"%char, (t ++ post). split; [done|]. unfold lex_token. cbn. unfold lexLambdaParam.
    destruct t as [|c t]; [done|]. change (peek ((c :: t) ++ post)) with c.
    pose proof Ht as Ht'. simpl in Ht'. prop_tests. rewrite H. cbn [negb].
    by rewrite take_while_app.
  - exists "$"%char, post. split; [done|]. unfold lex_token. cbn. unfold lexLambdaParam. by rewrite Hp.
  - exists QUOTE, (s ++ QUOTE :: post). split; [by rewrite <- !app_assoc|].
    change (lex_token d QUOTE (s ++ QUOTE :: post) n) with (lexString (s ++ QUOTE :: post) n).
    unfold lexString. rewrite (string_body_app v) by done. cbn [rest line_].
    by rewrite !bumps_app.
  - exists SQ, (c :: SQ :: post). split; [done|].
    change (bumps [SQ; c; SQ] n) with (bump SQ (bump c n)). rewrite (bump_other SQ) by done.
    change (lex_token d SQ (c :: SQ :: post) n)
      with (if bool_decide (d = LdMud) then lexQuote (c :: SQ :: post) n else lexChar (c :: SQ :: post) n).
    rewrite lexQuote_char, lexChar_plain by done. by case_if.
  - exists SQ, (BACKSLASH :: e :: SQ :: post). split; [done|].
    change (bumps [SQ; BACKSLASH; e; SQ] n) with (bump SQ (bump e n)). rewrite (bump_other SQ) by done.
    change (lex_token d SQ (BACKSLASH :: e :: SQ :: post) n)
      with (if bool_decide (d = LdMud) then lexQuote (BACKSLASH :: e :: SQ :: post) n
            else lexChar (BACKSLASH :: e :: SQ :: post) n).
    rewrite lexQuote_escape. by case_if.
  - exists "@"%char, (t ++ [NL] ++ unlines ls ++ t ++ post). split; [by rewrite <- !app_assoc|].
    change (lex_token d "@" (t ++ [NL] ++ unlines ls ++ t ++ post) n)
      with (lexHeredoc (t ++ [NL] ++ unlines ls ++ t ++ post) n).
    rewrite lex_heredoc by done. rewrite !bumps_app.
    by rewrite (bumps_same t), (bumps_same t) by done.
  - destruct Hl as (Hop & Hpre & Hmax). destruct t as [|c t].
    { by assert ([] ∉ operators) by decided. }
    exists c, (t ++ post). split; [done|].
    rewrite lex_token_symbol; [|by eapply operators_start|].
    2:{ intros ->. destruct t as [|x t]; [by apply Hd|].
        assert (∀ x t, "."%char :: x :: t ∈ operators → is_digit x = false) as Hdots.
        { clear. intros x t H. unfold operators in H. cbn in H. split_in H; by simplify_eq. }
        by apply (Hdots x t). }
    unfold lexSymbol.
    rewrite (proj2 (symbol_text_spec c (t ++ post) (c :: t) post (operators_start _ _ Hop))); [|done].
    by rewrite bumps_same by by apply operator_no_newline.
  - exists SQ, (c :: t ++ post). split; [done|].
    change (lex_token LdMud SQ (c :: t ++ post) n) with (lexQuote (c :: t ++ post) n).
    rewrite lexQuote_name by done.
    change (SQ :: c :: t) with ([SQ] ++ (c :: t)).
    rewrite bumps_same; [done|]. apply no_newline_app; [decided|].
    auto.
  - exists "#"%char, (SQ :: post). done.
Qed.

(** *** Every token the lexer makes is a lexeme *)

Definition reads (d : LpcDialect) (s : bytes) (n : Z) (x : Token * lexer) : Prop :=
  ∃ ty v src post, s = src ++ post ∧ lexeme d ty v src post ∧
                   x = (mkToken ty v n, mkLexer post (bumps src n)).

Lemma reads_intro d s n ty v src post m :
  lexeme d ty v src post → s = src ++ post → m = bumps src n →
  reads d s n (mkToken ty v n, mkLexer post m).
Proof. intros ? ? ->. by exists ty, v, src, post. Qed.

Lemma reads_word d c r n : ident_start c = true → reads d (c :: r) n (lexIdentOrKeyword d (c :: r) n).
Proof.
  intros Hc. unfold lexIdentOrKeyword.
  destruct (take_while_cases ident_char (c :: r) n eq_refl eq_refl) as (t & post & -> & Heq & Ht & Hp).
  destruct t as [|x t].
  { simpl in Heq. subst. change (peek (c :: r)) with c in Hp. by rewrite ident_start_char in Hp. }
  injection Heq as <- ->. simpl in Ht. prop_tests.
  eapply reads_intro; [by apply lexeme_word|done|]. symmetry. apply bumps_same. auto.
Qed.

Lemma reads_number d s n :
  is_digit (peek s) = true ∨ (peek s = "."%char ∧ is_digit (peekNext s) = true) →
  reads d s n (lexNumber s n).
Proof.
  intros Hs. unfold lexNumber.
  destruct (take_while_cases is_digit s n eq_refl eq_refl) as (t & post & -> & -> & Ht & Hp).
  cbn [rest line_]. destruct (bool_decide (t = $"0") && _ && _) eqn:Hhex.
  { prop_tests. subst t.
    destruct post as [|x post]; [done|]. change (peek (x :: post)) with x in *. cbn [tail].
    change (peekNext (x :: post)) with (peek post) in *.
    destruct (take_while_cases is_xdigit post n eq_refl eq_refl) as (h & post' & -> & -> & Hh & Hp').
    assert (h ≠ []) as Hne by (intros ->; simpl in *; congruence).
    assert (x = "x"%char ∨ x = "X"%char) as Hx
      by (by apply orb_true_iff in H1 as [?%Ascii.eqb_eq|?%Ascii.eqb_eq]; auto).
    eapply reads_intro; [by apply lexeme_hex|done|].
    symmetry. apply bumps_same. apply no_newline_app; [decided|].
    apply no_newline_app; [destruct Hx as [-> | ->]; decided|auto]. }
  destruct (Ascii.eqb (peek post) "." && _) eqn:Hfl.
  { prop_tests. destruct post as [|x post]; [done|].
    change (x = "."%char) in H. subst x. cbn [tail].
    change (peekNext ("."%char :: post)) with (peek post) in *.
    destruct (take_while_cases is_digit post n eq_refl eq_refl) as (h & post' & -> & -> & Hh & Hp').
    assert (h ≠ []) as Hne by (intros ->; simpl in *; congruence).
    eapply reads_intro; [by apply lexeme_float|by rewrite <- !app_assoc|].
    symmetry. apply bumps_same. apply no_newline_app; [auto|apply no_newline_app; [decided|auto]]. }
  eapply reads_intro; [apply lexeme_decimal|done|]; [|done|done| | |by rewrite bumps_same by auto].
  - intros ->. simpl in *. destruct Hs as [Hs|[Hs Hd]]; [congruence|].
    by rewrite Hs, Hd in Hfl.
  - intros E. by rewrite E in Hfl.
  - intros -> Hx. rewrite bool_decide_eq_true_2 in Hhex by done.
    by destruct Hx as [E|E]; rewrite E in Hhex.
Qed.

Lemma reads_close_char d s src z n n' post x :
  close_char z post n n' = Ok x → s = src ++ post →
  (∀ r, lexeme d TNumber (to_string z) (src ++ [SQ]) r) → n' = bumps src n →
  reads d s n x.
Proof.
  intros Hx -> Hl ->. destruct post as [|q post]; [done|]. simpl in Hx.
  destruct (Ascii.eqb q SQ) eqn:Hq; [|done]. prop_tests. simplify_eq.
  eapply reads_intro; [apply Hl|by rewrite <- app_assoc|by rewrite bumps_app].
Qed.

Lemma reads_char d s n x : lexChar s n = Ok x → reads d (SQ :: s) n x.
Proof.
  destruct s as [|c [|e r]]; [done..|]. cbn [lexChar].
  destruct (Ascii.eqb c BACKSLASH) eqn:Hc; prop_tests; intros Hx.
  - subst. eapply (reads_close_char _ _ [SQ; BACKSLASH; e]); [done..| |done].
    intros r'. apply lexeme_char_escape.
  - eapply (reads_close_char _ _ [SQ; c]); [done..| |done]. intros r'. by apply lexeme_char.
Qed.

Lemma reads_quote s n x : lexQuote s n = Ok x → reads LdMud (SQ :: s) n x.
Proof.
  unfold lexQuote. destruct (ident_start (peek s)) eqn:Hc; [|apply reads_char].
  destruct s as [|c s]; [done|]. change (peek (c :: s)) with c in Hc.
  destruct (take_while_cases ident_char (c :: s) n eq_refl eq_refl) as (t & post & Htw & Heq & Ht & Hp).
  rewrite Htw. destruct t as [|y t].
  { simpl in Heq. subst. change (peek (c :: s)) with c in Hp. by rewrite ident_start_char in Hp. }
  rewrite Heq. rewrite span_app; [|done|by intros ? ? ->].
  destruct ((length (y :: t) =? 1)%nat && _) eqn:E.
  { rewrite <- Heq. apply reads_char. }
  intros [= <-]. injection Heq as <- ->. simpl in Ht. prop_tests.
  eapply reads_intro; [apply lexeme_quoted|done|]; [done..| |].
  - intros ->. intros Hq. by rewrite Hq in E.
  - symmetry. apply bumps_same. apply no_newline_cons; [done|auto].
Qed.

Lemma reads_heredoc d s n x : lexHeredoc s n = Ok x → reads d ("@"%char :: s) n x.
Proof.
  unfold lexHeredoc. destruct (Ascii.eqb (peek s) "@") eqn:Hat; [done|]. prop_tests.
  unfold take_while.
  destruct (span_cases (λ c, negb (Ascii.eqb c NL)) s) as (t & post & -> & -> & Ht & Hp).
  apply (forallb_no_newline _ _ eq_refl) in Ht. cbn [rest line_].
  destruct t as [|c t]; [done|]. destruct post as [|y post]; [done|].
  specialize (Hp ltac:(done)). apply negb_false_iff, Ascii.eqb_eq in Hp. cbn in Hp. subst y.
  rewrite bumps_same by done. change (bump NL n) with (n + 1).
  destruct (heredoc_body _ _ _ _) as [[v l]|] eqn:Hb; [|done]. intros [= <-].
  apply heredoc_body_cases in Hb as (ls & -> & Hls & -> & Hl); [|done].
  destruct l as [post' m]. cbn in Hl. subst m. cbn [rest].
  eapply reads_intro; [by apply (lexeme_heredoc d (c :: t) ls)| |].
  - by rewrite <- !app_assoc.
  - rewrite !bumps_app. by rewrite !(bumps_same (c :: t)) by done.
Qed.

Lemma lex_token_reads d c r n x : lex_token d c r n = Ok x → reads d (c :: r) n x.
Proof.
  unfold lex_token. intros H.
  destruct (ident_start c) eqn:Hi; [simplify_eq; by apply reads_word|].
  destruct (is_digit c) eqn:Hd; [simplify_eq; apply reads_number; by left|].
  destruct (Ascii.eqb c "." && is_digit (peek r)) eqn:Hf.
  { prop_tests. simplify_eq. apply reads_number. by right. }
  destruct (Ascii.eqb c QUOTE) eqn:Hq.
  { prop_tests. subst. unfold lexString in H. pose proof (string_body_cases r n) as Hb.
    destruct (string_body r n) as [v [s m]]. simpl in *. destruct s as [|q post]; [done|].
    destruct Hb as (t & -> & -> & Ht & ->). simplify_eq.
    eapply reads_intro; [by apply lexeme_string|by rewrite <- !app_assoc|].
    by rewrite !bumps_app. }
  destruct (Ascii.eqb c SQ) eqn:Hs.
  { prop_tests. subst. case_bool_decide; [subst; by apply reads_quote|by apply reads_char]. }
  destruct (Ascii.eqb c "#" && _ && _) eqn:Hh.
  { prop_tests. subst. simplify_eq. destruct r as [|q r]; [done|]. change (q = SQ) in H1. subst q.
    by eapply reads_intro; [apply lexeme_hash_quote|done|]. }
  destruct (Ascii.eqb c "@") eqn:Ha; [prop_tests; subst; by apply reads_heredoc|].
  destruct (Ascii.eqb c "$") eqn:Hp.
  { prop_tests. subst. simplify_eq. unfold lexLambdaParam.
    destruct (is_digit (peek r)) eqn:Hr; cbn [negb].
    - destruct (take_while_cases is_digit r n eq_refl eq_refl) as (t & post & -> & -> & Ht & Hp).
      assert (t ≠ []) as Hne by (intros ->; simpl in *; congruence).
      eapply reads_intro; [by apply lexeme_param|done|].
      symmetry. apply bumps_same. apply no_newline_app; [decided|auto].
    - by eapply reads_intro; [apply lexeme_dollar|done|]. }
  destruct (one_of c symbol_chars) eqn:Ho; [|done]. apply one_of_elem in Ho. simplify_eq.
  unfold lexSymbol. destruct (symbol_text c r) as [t post] eqn:Hsym.
  apply symbol_text_spec in Hsym as [Heq Hl]; [|done]. rewrite Heq in Hl |- *.
  eapply reads_intro; [apply lexeme_operator|done|]; [done| |].
  - intros ->. injection Heq as -> ->. by apply andb_false_iff in Hf as [|].
  - symmetry. apply bumps_same, operator_no_newline, Hl.
Qed.

(** Every lexeme takes some text. *)
Lemma lexeme_nonempty d ty v src post : lexeme d ty v src post → src ≠ [].
Proof.
  intros H. destruct H; try done; try (by destruct a).
  destruct H as (Hop & _). intros ->. by assert ([] ∉ operators) by decided.
Qed.

(** ** The lexer reads its grammar *)

Lemma tokenize_from_source P d n s ts :
  source_where P d n s ts → ∀ f, (length s < f)%nat → tokenize_from f d (mkLexer s n) = Ok ts.
Proof.
  induction 1 as [n g Hg|n g ty v src post ts Hg Hst Hl _ Hs IH]; intros [|f] Hf; try lia.
  - cbn [tokenize_from rest line_]. rewrite skip_trailing by (done || lia). done.
  - cbn [tokenize_from rest line_]. rewrite !length_app in Hf.
    rewrite skip_gap; [|done|by right|rewrite !length_app; lia]. cbn [rbind rest line_].
    destruct (lex_lexeme d ty v src post (bumps g n) Hl) as (c & r & -> & ->). cbn [rbind snd fst].
    pose proof (lexeme_nonempty _ _ _ _ _ Hl). destruct src; [done|].
    rewrite IH; [done|]. simpl in Hf. lia.
Qed.

Lemma token_start_nonempty s : token_start s → s ≠ [].
Proof. by intros (c & r & -> & _). Qed.

Definition returns {A} (m : result A) : Prop :=
  match m with Ok _ | Throw _ => True | Undefined | OutOfFuel => False end.

Lemma close_char_returns z s n n' : returns (close_char z s n n').
Proof. unfold close_char. destruct s; [done|]. by case_if. Qed.

Lemma lexChar_returns s n : returns (lexChar s n).
Proof. destruct s as [|c [|e r]]; cbn [lexChar]; [done|done|]. case_if; apply close_char_returns. Qed.

Lemma lex_token_returns d c r n : returns (lex_token d c r n).
Proof.
  unfold lex_token, lexString, lexQuote, lexHeredoc.
  repeat first [done | apply lexChar_returns | case_match].
Qed.

Lemma tokenize_from_cases f d s n :
  (length s < f)%nat →
  match tokenize_from f d (mkLexer s n) with
  | Ok ts => source d n s ts
  | Throw _ => True
  | Undefined | OutOfFuel => False
  end.
Proof.
  induction f as [|f IH] in s, n |- *; intros Hf; [lia|]. cbn [tokenize_from rest line_].
  destruct (gap_cases s) as [Ht|(g & t & -> & Hg & Ht)].
  { rewrite skip_trailing by (done || lia). simpl. by constructor. }
  rewrite length_app in Hf. rewrite skip_gap; [|done|by right|rewrite length_app; lia].
  cbn [rbind rest line_]. destruct t as [|c r]; [by apply token_start_nonempty in Ht|].
  pose proof (lex_token_returns d c r (bumps g n)) as Hret.
  destruct (lex_token d c r (bumps g n)) as [x| | |] eqn:Hlex; [|done..]. cbn [rbind].
  apply lex_token_reads in Hlex as (ty & v & src & post & Heq & Hl & ->). cbn [fst snd].
  rewrite Heq in *. rewrite length_app in Hf. pose proof (lexeme_nonempty _ _ _ _ _ Hl).
  destruct src as [|y src]; [done|]. simpl in Hf.
  specialize (IH post (bumps (y :: src) (bumps g n)) ltac:(lia)).
  destruct (tokenize_from f d _); [|done..].
  by apply (source_token _ d n g ty v (y :: src) post).
Qed.

(** C19: the lexer is exactly its grammar: it returns the tokens [ts] for a
    source text if and only if the text is a sequence of gaps and lexemes of
    the dialect that spells [ts], every token with the line it starts on; what
    follows a lexeme is never text that would have made it longer. *)
Theorem tokenize_reads_grammar d s ts : tokenize d s = Ok ts ↔ source d 1 s ts.
Proof.
  split; intros H.
  - pose proof (tokenize_from_cases (S (length s)) d s 1 ltac:(lia)) as Hc.
    unfold tokenize in H. by rewrite H in Hc.
  - apply (tokenize_from_source _ _ _ _ _ H). lia.
Qed.

(** C20: the lexer ends on every text: it returns tokens, the last of which and
    only the last is the end token, or throws an error. *)
Theorem tokenize_total d s :
  (∃ e, tokenize d s = Throw e) ∨
  ∃ ts n, tokenize d s = Ok (ts ++ [mkToken TEnd [] n]) ∧ Forall (λ t, type t ≠ TEnd) ts.
Proof.
  pose proof (tokenize_from_cases (S (length s)) d s 1 ltac:(lia)) as Hc.
  unfold tokenize. destruct (tokenize_from _ _ _) as [ts|e| |]; [|by left; exists e|done..].
  right. induction Hc as [n g|n g ty v src post ts _ _ Hl _ _ (us & m & [= ->] & Hus)].
  - by exists [], (bumps g n).
  - eexists (_ :: us), m. split; [done|]. constructor; [|done].
    by destruct Hl; try case_if.
Qed.

(** A symbol token is the longest operator of the language that the text
    starts with. *)
Theorem symbol_longest_match c s t r :
  c ∈ symbol_chars →
  symbol_text c s = (t, r) ↔
  c :: s = t ++ r ∧ t ∈ operators ∧
  ∀ op, op ∈ operators → op `prefix_of` (c :: s) → (length op ≤ length t)%nat.
Proof.
  intros Hc. rewrite symbol_text_spec by done. unfold longest_operator. split.
  - by intros (-> & ? & _ & ?).
  - intros (-> & ? & ?). split_and!; [done..| |done]. by exists r.
Qed.

Lemma symbol_longest_match_witness :
  "<"%char ∈ symbol_chars ∧ symbol_text "<" $"<=x" = ($"<<=", $"x") ∧
  ∀ op, op ∈ operators → op `prefix_of` $"<<=x" → (length op ≤ 3)%nat.
Proof.
  assert ("<"%char ∈ symbol_chars) as H by decided. split_and!; [done..|].
  exact (proj2 (proj2 (proj1 (symbol_longest_match "<" $"<=x" $"<<=" $"x" H) eq_refl))).
Defined.

(** A program with comments, a heredoc and operators without spaces. *)
Example tokenize_sample :
  tokenize FluffOS $"int x=a[0..5]; /* c */ y+=$1" =
  Ok (map (λ '(ty, v), mkToken ty v 1)
    [(TKeyword, $"int"); (TIdent, $"x"); (TSymbol, $"="); (TIdent, $"a"); (TSymbol, $"[");
     (TNumber, $"0"); (TSymbol, $".."); (TNumber, $"5"); (TSymbol, $"]"); (TSymbol, $";");
     (TIdent, $"y"); (TSymbol, $"+="); (TIdent, $"$1"); (TEnd, [])]).
Proof. vm_compute. reflexivity. Qed.
