(* ===== verification/Preprocess.v ===== *)
(** * The preprocessing of LPC sources: [src/object/ObjectManager.cpp], the
    functions before [ObjectManager::compile]

    A source is rewritten line by line (includes spliced, [efun_defined] and
    numeric [#ifdef] resolved), masked where the system preprocessor would
    misread LPC, given to [cc -E], and unmasked.  The code works on positions
    in a line; here a line is cut at them, so a position is the text before it
    and the text after.  The file system is a function [fs] from a path to the
    contents of the file, [None] when it cannot be opened.  The system
    preprocessor and the temporary files are outside: their results are
    arguments. *)

From S2P Require Import Prelude Config Lexer.

(** ** Shell quoting and the command line *)

Definition quote_byte (c : ascii) : bytes :=
  if Ascii.eqb c SQ then [SQ; BACKSLASH; SQ; SQ] else [c].

Definition shellQuote (s : bytes) : bytes := [SQ] ++ concat (map quote_byte s) ++ [SQ].

(** A value of the macro tables that is a string: backslash, quote, the text,
    backslash, quote. *)
Definition str_macro (s : bytes) : bytes := [BACKSLASH; QUOTE] ++ s ++ [BACKSLASH; QUOTE].

Definition kFluffosPredefinedMacros : list (bytes * bytes) := [
  ($"__STRIP_BEFORE_PROCESS_INPUT__", $""); ($"__NO_LIGHT__", $""); ($"__CUSTOM_CRYPT__", $"");
  ($"__RECEIVE_SNOOP__", $""); ($"__ARGUMENTS_IN_TRACEBACK__", $"");
  ($"__NEXT_MALLOC_DEBUG__", $""); ($"__ARRAY_STATS__", $""); ($"__LOCALS_IN_TRACEBACK__", $"");
  ($"__SYSMALLOC__", $""); ($"__CFG_MAX_CALL_DEPTH__", $"150");
  ($"__SAVE_EXTENSION__", str_macro $".o"); ($"__LOG_CATCHES__", $"");
  ($"__NONINTERACTIVE_STDERR_WRITE__", $""); ($"__SMALL_STRING_SIZE__", $"100");
  ($"__CALLOUT_CYCLE_SIZE__", $"32"); ($"__PACKAGE_MATH__", $""); ($"__PACKAGE_DEVELOP__", $"");
  ($"__SUPPRESS_ARGUMENT_WARNINGS__", $""); ($"__LARGEST_PRINTABLE_STRING__", $"8192");
  ($"__CFG_LIVING_HASH_SIZE__", $"256"); ($"__CACHE_STATS__", $"");
  ($"__CONFIG_FILE_DIR__", str_macro $"./"); ($"__PARSE_DEBUG__", $""); ($"__TRAP_CRASHES__", $"");
  ($"__RESTRICTED_ED__", $""); ($"__STRING_STATS__", $""); ($"__CALLOUT_HANDLES__", $"");
  ($"__FLUFFOS__", $""); ($"__CFG_COMPILER_STACK_SIZE__", $"600000");
  ($"__LARGE_STRING_SIZE__", $"1000"); ($"__HEARTBEAT_INTERVAL__", $"1");
  ($"__PACKAGE_MATRIX__", $""); ($"__PRIVS__", $""); ($"__COMMAND_BUF_SIZE__", $"2000");
  ($"__OLD_ED__", $""); ($"__PACKAGE_PARSER__", $""); ($"__THIS_PLAYER_IN_CALL_OUT__", $"");
  ($"__PACKAGE_CONTRIB__", $""); ($"__ALLOW_INHERIT_AFTER_GLOBAL_VARIABLES__", $"");
  ($"__CFG_MAX_LOCAL_VARIABLES__", $"50"); ($"__MESSAGE_BUFFER_SIZE__", $"4096");
  ($"__SAVE_GZ_EXTENSION__", str_macro $".o.gz"); ($"__PACKAGE_SOCKETS__", $"");
  ($"__NUM_EXTERNAL_CMDS__", $"100"); ($"__HEART_BEAT_CHUNK__", $"32");
  ($"__INTERACTIVE_CATCH_TELL__", $""); ($"__MAX_SAVE_SVALUE_DEPTH__", $"100");
  ($"__DEFAULT_PRAGMAS__", $"0"); ($"__NO_ANSI__", $""); ($"__HAS_STATUS_TYPE__", $"");
  ($"__CFG_EVALUATOR_STACK_SIZE__", $"3000"); ($"__PACKAGE_MUDLIB_STATS__", $"");
  ($"__WARN_TAB__", $""); ($"__ALLOW_INHERIT_AFTER_FUNCTION__", $"");
  ($"__APPLY_CACHE_BITS__", $"11"); ($"__MUDLIB_ERROR_HANDLER__", $"")].

Definition kFluffosRuntimePredefinedMacros : list (bytes * bytes) := [
  ($"MUDOS", $""); ($"__VERSION__", str_macro $"2.9-ds2.08"); ($"__ARCH__", str_macro $"Linux");
  ($"__COMPILER__", str_macro $"g++"); ($"__OPTIMIZATION__", str_macro $"-O2");
  ($"SIZEOFINT", $"8"); ($"MAX_INT", $"9223372036854775807")].

Definition kPcrePackagePredefinedMacros : list (bytes * bytes) := [
  ($"__PACKAGE_PCRE__", $""); ($"PCRE_DEFAULT", $"0"); ($"PCRE_I", $"65536");
  ($"PCRE_M", $"131072"); ($"PCRE_S", $"262144"); ($"PCRE_U", $"524288");
  ($"PCRE_X", $"1048576"); ($"PCRE_A", $"2097152")].

(** [s.substr(0, s.find_last_of('/'))]: the whole text without a slash. *)
Definition dirname (s : bytes) : bytes :=
  match index_of "/" (reverse s) with
  | Some i => take (length s - S i) s
  | None => s
  end.

(** [s.substr(0, s.find_last_of('/') + 1)]: [npos + 1] is zero. *)
Definition dir_slash (s : bytes) : bytes :=
  match index_of "/" (reverse s) with
  | Some i => take (length s - i) s
  | None => []
  end.

Definition macro_flag (m : bytes * bytes) : bytes := $" -D" ++ fst m ++ $"=" ++ snd m.

Definition buildPredefinedMacroFlags (config : Config) (compiledFilename : bytes) : bytes :=
  let lpcFile := compiledFilename ++ $".c" in
  let lpcDir := dir_slash lpcFile in
  concat (map macro_flag (kFluffosPredefinedMacros ++ kFluffosRuntimePredefinedMacros ++
                          kPcrePackagePredefinedMacros)) ++
  $" -D__PORT__=" ++ to_string (port_ config) ++
  $" " ++ shellQuote ($"-DMUD_NAME=" ++ [QUOTE] ++ mudName_ config ++ [QUOTE]) ++
  $" -D__FILE__=" ++ [BACKSLASH; QUOTE] ++ lpcFile ++ [BACKSLASH; QUOTE] ++
  $" -D__DIR__=" ++ [BACKSLASH; QUOTE] ++ lpcDir ++ [BACKSLASH; QUOTE].

(** ** Masking *)

Definition kHashQuoteMarker : bytes := $"__KJDMUD_HASHQUOTE_MARKER__".
Definition kDotDotMarker : bytes := $"__KJDMUD_DOTDOT__".

(** [prev] is [source[i - 1]], if there is one. *)
Fixpoint maskHashQuote_from (prev : option ascii) (s : bytes) : bytes :=
  match s with
  | [] => []
  | c :: r =>
      match r with
      | q :: r' =>
          if Ascii.eqb c "#" && Ascii.eqb q SQ && negb (bool_decide (prev = Some SQ))
          then kHashQuoteMarker ++ maskHashQuote_from (Some q) r'
          else c :: maskHashQuote_from (Some c) r
      | [] => [c]
      end
  end.

Definition maskHashQuote (source : bytes) : bytes := maskHashQuote_from None source.

Inductive Mode := Code | DQuote | SQuote | LineComment | BlockComment.

#[export] Instance Mode_eq_dec : EqDecision Mode.
Proof. solve_decision. Defined.

(** [dots] is what a [".."] of the code becomes. *)
Fixpoint maskDotDot_from (dots : bytes) (mode : Mode) (s : bytes) : bytes :=
  match s with
  | [] => []
  | c :: r =>
      match mode with
      | LineComment =>
          c :: maskDotDot_from dots (if Ascii.eqb c NL then Code else LineComment) r
      | BlockComment =>
          match r with
          | d :: r' =>
              if Ascii.eqb c "*" && Ascii.eqb d "/" then c :: d :: maskDotDot_from dots Code r'
              else c :: maskDotDot_from dots BlockComment r
          | [] => [c]
          end
      | DQuote =>
          match r with
          | d :: r' =>
              if Ascii.eqb c BACKSLASH then c :: d :: maskDotDot_from dots DQuote r'
              else c :: maskDotDot_from dots (if Ascii.eqb c QUOTE then Code else DQuote) r
          | [] => [c]
          end
      | SQuote =>
          match r with
          | d :: r' =>
              if Ascii.eqb c BACKSLASH then c :: d :: maskDotDot_from dots SQuote r'
              else c :: maskDotDot_from dots (if Ascii.eqb c SQ then Code else SQuote) r
          | [] => [c]
          end
      | Code =>
          match r with
          | d :: r' =>
              if Ascii.eqb c "/" && Ascii.eqb d "/" then c :: d :: maskDotDot_from dots LineComment r'
              else if Ascii.eqb c "/" && Ascii.eqb d "*" then c :: d :: maskDotDot_from dots BlockComment r'
              else if Ascii.eqb c QUOTE then c :: maskDotDot_from dots DQuote r
              else if Ascii.eqb c SQ then c :: maskDotDot_from dots SQuote r
              else if Ascii.eqb c "." && Ascii.eqb d "." then
                match r' with
                | e :: r'' =>
                    if Ascii.eqb e "." then $"..." ++ maskDotDot_from dots Code r''
                    else dots ++ maskDotDot_from dots Code r'
                | [] => dots
                end
              else c :: maskDotDot_from dots Code r
          | [] => [c]
          end
      end
  end.

Definition maskDotDot (source : bytes) : bytes :=
  maskDotDot_from ($" " ++ kDotDotMarker ++ $" ") Code source.

Definition maskForSystemCpp (source : bytes) : bytes := maskDotDot (maskHashQuote source).

(** The loop of both unmasking functions. *)
Fixpoint unmask_loop (marker by_ : bytes) (fuel : nat) (s : bytes) : bytes :=
  match fuel with
  | O => []
  | S f =>
      match s with
      | [] => []
      | c :: r =>
          match strip_prefix marker s with
          | Some r' => by_ ++ unmask_loop marker by_ f r'
          | None => c :: unmask_loop marker by_ f r
          end
      end
  end.

Definition unmaskHashQuote (t : bytes) : bytes :=
  unmask_loop kHashQuoteMarker $"#'" (length t) t.
Definition unmaskDotDot (t : bytes) : bytes := unmask_loop kDotDotMarker $".." (length t) t.
Definition unmaskAfterSystemCpp (t : bytes) : bytes := unmaskDotDot (unmaskHashQuote t).

(** ** Lines *)

(** [" \t"] *)
Definition blank (c : ascii) : bool := Ascii.eqb c " " || Ascii.eqb c TAB.
Definition skip_blanks (s : bytes) : bytes := snd (span blank s).

(** The text before the first [c], and after it. *)
Fixpoint break_at (c : ascii) (s : bytes) : option (bytes * bytes) :=
  match s with
  | [] => None
  | d :: r =>
      if Ascii.eqb d c then Some ([], r)
      else '(a, b) ← break_at c r; Some (d :: a, b)
  end.

(** The text before the first occurrence of [pat], and after it. *)
Fixpoint break_at_text (pat s : bytes) : option (bytes * bytes) :=
  match strip_prefix pat s with
  | Some r => Some ([], r)
  | None =>
      match s with
      | [] => None
      | d :: r => '(a, b) ← break_at_text pat r; Some (d :: a, b)
      end
  end.

(** A directive line: the text up to the keyword, the keyword, the rest. *)
Definition directive (line : bytes) : option (bytes * bytes * bytes) :=
  let '(indent, r) := span blank line in
  match r with
  | c :: r =>
      if Ascii.eqb c "#" then
        let '(g, r) := span blank r in
        let '(kw, rest) := span is_alpha r in
        Some (indent ++ [c] ++ g, kw, rest)
      else None
  | [] => None
  end.

(** [in] of [while (std::getline(in, line)) out << f(line) << "\n"]. *)
Definition map_lines (f : bytes → bytes) (source : bytes) : bytes :=
  unlines (map f (getlines source)).

Section EfunDefined.
Context (efunExists : bytes → bool).

(** The call after [efun_defined]: its argument and what follows. *)
Definition efun_call (s : bytes) : option (bytes * bytes) :=
  match skip_blanks s with
  | c :: r =>
      if Ascii.eqb c "(" then
        let '(name, r) := span ident_char (skip_blanks r) in
        match name, skip_blanks r with
        | _ :: _, d :: r => if Ascii.eqb d ")" then Some (name, r) else None
        | _, _ => None
        end
      else None
  | [] => None
  end.

(** The text of the line from [searchFrom] on. *)
Fixpoint efun_loop (fuel : nat) (s : bytes) : bytes :=
  match fuel with
  | O => s
  | S f =>
      match break_at_text $"efun_defined" s with
      | None => s
      | Some (a, b) =>
          match efun_call b with
          | None => a ++ $"efun_defined" ++ efun_loop f b
          | Some (name, r) => a ++ (if efunExists name then $"1" else $"0") ++ efun_loop f r
          end
      end
  end.

Definition efun_line (line : bytes) : bytes :=
  match directive line with
  | Some (pre, kw, rest) =>
      if bool_decide (kw = $"if") || bool_decide (kw = $"elif")
      then pre ++ kw ++ efun_loop (length rest) rest else line
  | None => line
  end.

Definition rewriteEfunDefined (source : bytes) : bytes := map_lines efun_line source.
End EfunDefined.

(** [std::stol] of the digits throws [std::out_of_range] beyond [long]. *)
Definition ifdef_line (line : bytes) : result bytes :=
  let '(indent, r) := span blank line in
  match directive line with
  | Some (pre, kw, rest) =>
      if bool_decide (kw = $"ifdef") || bool_decide (kw = $"ifndef") then
        let '(digits, r) := span is_digit (skip_blanks rest) in
        match digits with
        | [] => Ok line
        | _ =>
            let after := skip_blanks r in
            if bool_decide (after = []) || Ascii.eqb (peek after) "/" || Ascii.eqb (peek after) BACKSLASH then
              let* value := stoll digits in
              let takeTrue := if bool_decide (kw = $"ifdef") then negb (value =? 0) else value =? 0 in
              let suffix := match after with [] => [] | _ => $" " ++ after end in
              Ok (indent ++ $"#if " ++ (if takeTrue then $"1" else $"0") ++ suffix)
            else Ok line
        end
      else Ok line
  | None => Ok line
  end.

Definition rewriteNumericIfdef (source : bytes) : result bytes :=
  let* ls := rmap ifdef_line (getlines source) in Ok (unlines ls).

(** Drop the line markers of cpp. *)
Definition is_marker (line : bytes) : bool := Ascii.eqb (peek (skip_blanks line)) "#".
Definition stripLineMarkers (t : bytes) : bytes :=
  unlines (filter (λ l, is_marker l = false) (getlines t)).

(** ** Includes *)

(** The macros whose value is a string, for computed includes, and the files
    being spliced. *)
Record include_state := mkIncludes {
  activeIncludes : gset bytes;
  macroDefs : gmap bytes bytes;
}.

#[export] Instance include_state_eta : Eta include_state :=
  λ s, mkIncludes (activeIncludes s) (macroDefs s).

Record include_target := mkTarget {
  targetPath : bytes;
  quoted : bool;              (** the delimiter is a quote *)
  macroRest : option bytes;   (** the rest of [macroExpandedLine] after the keyword *)
}.

(** [#define NAME "value"] *)
Definition record_define (rest : bytes) (macros : gmap bytes bytes) : gmap bytes bytes :=
  let '(name, r) := span ident_char (skip_blanks rest) in
  match name with
  | [] => macros
  | _ =>
      if Ascii.eqb (peek r) "(" then macros
      else match break_at QUOTE r with
           | Some (_, r) =>
               match break_at QUOTE r with
               | Some (v, _) => <[name := v]> macros
               | None => macros
               end
           | None => macros
           end
  end.

Definition strip_trailing (p : ascii → bool) (s : bytes) : bytes := reverse (snd (span p (reverse s))).

Definition read_target (rest : bytes) (macros : gmap bytes bytes) : option include_target :=
  match break_at QUOTE rest with
  | Some (_, r) => '(t, _) ← break_at QUOTE r; Some (mkTarget t true None)
  | None =>
      match break_at "<" rest with
      | Some (_, r) => '(t, _) ← break_at ">" r; Some (mkTarget t false None)
      | None =>
          match strip_trailing (λ c, blank c || Ascii.eqb c CRB) (skip_blanks rest) with
          | [] => None
          | name => t ← macros !! name; Some (mkTarget t true (Some ($" " ++ [QUOTE] ++ t ++ [QUOTE])))
          end
      end
  end.

Definition is_absolute (t : bytes) : bool := Ascii.eqb (peek t) "/".

(** [line.insert(p + 1, mudlibRoot)] after the first quote, if a slash follows it. *)
Definition insert_root (root rest : bytes) : bytes :=
  match break_at QUOTE rest with
  | Some (a, b) => if Ascii.eqb (peek b) "/" then a ++ [QUOTE] ++ root ++ b else rest
  | None => rest
  end.

Section Includes.
Context (fs : bytes → option bytes) (mudlibRoot : bytes) (includeDirs : list bytes).

Definition search_dirs (currentDir : bytes) (t : include_target) : list bytes :=
  (if quoted t && negb (bool_decide (currentDir = [])) then [currentDir] else []) ++ includeDirs.

(** The first candidate that opens, with its contents. *)
Fixpoint search (path : bytes) (dirs : list bytes) : option (bytes * bytes) :=
  match dirs with
  | [] => None
  | d :: ds =>
      let candidate := d ++ $"/" ++ path in
      match fs candidate with
      | Some content => Some (candidate, content)
      | None => search path ds
      end
  end.

Definition find_include (currentDir : bytes) (t : include_target) : option (bytes * bytes) :=
  if is_absolute (targetPath t) then
    let realPath := mudlibRoot ++ targetPath t in
    content ← fs realPath; Some (realPath, content)
  else search (targetPath t) (search_dirs currentDir t).

(** The line left for cpp when nothing is spliced. *)
Definition unspliced (pre kw rest : bytes) (t : include_target) : bytes :=
  let rest := default rest (macroRest t) in
  pre ++ kw ++ (if is_absolute (targetPath t) then insert_root mudlibRoot rest else rest).

(** The lines of a file; [splice] rewrites an included file. *)
Definition include_line (splice : bytes → bytes → include_state → bytes * include_state)
    (currentDir line : bytes) (s : include_state) : bytes * include_state :=
  match directive line with
  | Some (pre, kw, rest) =>
      if bool_decide (kw = $"define") then (line ++ [NL], s <| macroDefs ::= record_define rest |>)
      else if bool_decide (kw = $"include") then
        match read_target rest (macroDefs s) with
        | None => (line ++ [NL], s)
        | Some t =>
            match find_include currentDir t with
            | Some (realPath, content) =>
                if bool_decide (realPath ∈ activeIncludes s) then (unspliced pre kw rest t ++ [NL], s)
                else
                  let '(out, s) := splice (maskForSystemCpp content) (dirname realPath)
                                     (s <| activeIncludes ::= union {[realPath]} |>) in
                  (out ++ [NL], s <| activeIncludes ::= λ a, a ∖ {[realPath]} |>)
            | None => (unspliced pre kw rest t ++ [NL], s)
            end
        end
      else (line ++ [NL], s)
  | None => (line ++ [NL], s)
  end.

Fixpoint include_lines (splice : bytes → bytes → include_state → bytes * include_state)
    (currentDir : bytes) (ls : list bytes) (s : include_state) : bytes * include_state :=
  match ls with
  | [] => ([], s)
  | l :: ls =>
      let '(a, s) := include_line splice currentDir l s in
      let '(b, s) := include_lines splice currentDir ls s in
      (a ++ b, s)
  end.

(** [levels] is [65 - depth]: at depth 65 the source is returned unchanged. *)
Fixpoint rewriteAbsoluteIncludesRecursive (levels : nat) (source currentDir : bytes)
    (s : include_state) : bytes * include_state :=
  match levels with
  | O => (source, s)
  | S l => include_lines (rewriteAbsoluteIncludesRecursive l) currentDir (getlines source) s
  end.

Definition rewrite_top : bytes → bytes → include_state → bytes * include_state :=
  rewriteAbsoluteIncludesRecursive 65.

(** ** Staging *)

Inductive StagedSource :=
  | Staged (tempPath : bytes) (content : bytes)
  | StageFailed (errorMessage : bytes).

(** [mkstemp] gives no file, or a file that takes all that is written or not. *)
Inductive temp_file := NoTemp | Temp (path : bytes) (written : bool).

(** The first include directory that has the header. *)
Fixpoint find_header (headerName : bytes) (dirs : list bytes) : option (bytes * bytes) :=
  match dirs with
  | [] => None
  | d :: ds =>
      match fs (d ++ $"/" ++ headerName) with
      | Some content => Some (d, content)
      | None => find_header headerName ds
      end
  end.

Definition angle_header (g : bytes) : option bytes :=
  if (2 <=? size g) && Ascii.eqb (peek g) "<" && bool_decide (last g = Some ">"%char)
  then Some (take (length g - 2) (tail g)) else None.

Definition global_prefix (globalIncludeFile : bytes) (s : include_state) : bytes * include_state :=
  match globalIncludeFile with
  | [] => ([], s)
  | _ =>
      match headerName ← angle_header globalIncludeFile; find_header headerName includeDirs with
      | Some (dir, content) => rewrite_top (maskForSystemCpp content) dir s
      | None => rewrite_top ($"#include " ++ globalIncludeFile ++ [NL]) mudlibRoot s
      end
  end.

Definition stageSourceForPreprocessing (originalPath globalIncludeFile : bytes)
    (efunExists : bytes → bool) (tmp : temp_file) : result StagedSource :=
  match fs originalPath with
  | None => Ok (StageFailed ($"source file not found: " ++ originalPath))
  | Some text =>
      let '(prefix, s) := global_prefix globalIncludeFile (mkIncludes ∅ ∅) in
      let '(body, _) := rewrite_top (maskForSystemCpp text) (dirname originalPath) s in
      let rewritten := prefix ++ $"# 1 " ++ [QUOTE] ++ originalPath ++ [QUOTE; NL] ++ body in
      let* rewritten := rewriteNumericIfdef (rewriteEfunDefined efunExists rewritten) in
      Ok match tmp with
         | NoTemp => StageFailed $"failed to create temp file for staged source"
         | Temp _ false => StageFailed $"failed to write staged source to temp file"
         | Temp path true => Staged path rewritten
         end
  end.
End Includes.

(** An entry may be empty; a relative one is below the mudlib. *)
Fixpoint split_on (c : ascii) (s : bytes) : list bytes :=
  match s with
  | [] => [[]]
  | d :: r =>
      if Ascii.eqb d c then [] :: split_on c r
      else match split_on c r with
           | l :: ls => (d :: l) :: ls
           | [] => [[d]]
           end
  end.

Definition include_entry (mudlibRoot entry : bytes) : option bytes :=
  match entry with
  | [] => None
  | c :: _ => Some (if Ascii.eqb c "/" then entry else mudlibRoot ++ $"/" ++ entry)
  end.

Definition splitIncludeDirs (raw mudlibRoot : bytes) : list bytes :=
  omap (include_entry mudlibRoot) (split_on ":" raw).

(** ** Running the preprocessor *)

Record PreprocessResult := mkPreprocessed {
  pp_ok : bool;
  pp_output : bytes;
  pp_errorOutput : bytes;
}.

Definition cpp_command (sourcePath : bytes) (includeDirs : list bytes)
    (originalSourceDir : bytes) (config : Config) (compiledFilename errPath : bytes) : bytes :=
  $"cc -E -I " ++ shellQuote $"." ++ $" -I " ++ shellQuote originalSourceDir ++
  concat (map (λ d, $" -I " ++ shellQuote d) includeDirs) ++
  buildPredefinedMacroFlags config compiledFilename ++
  $" -x c " ++ shellQuote sourcePath ++ $" 2>" ++ shellQuote errPath.

(** What the command printed, whether it exited with status zero, and what it
    wrote on its standard error. *)
Record cpp_run := mkRun { stdout_ : bytes; exitedOk : bool; stderr_ : bytes }.

(** [popen] answers [None] when it fails. *)
Definition runPreprocessor (popen : bytes → option cpp_run) (errFile : option bytes)
    (sourcePath : bytes) (includeDirs : list bytes) (originalSourceDir : bytes)
    (config : Config) (compiledFilename : bytes) : PreprocessResult :=
  match errFile with
  | None => mkPreprocessed false [] $"failed to create temp file for cpp stderr output"
  | Some errPath =>
      match popen (cpp_command sourcePath includeDirs originalSourceDir config compiledFilename errPath) with
      | None => mkPreprocessed false [] $"failed to launch cpp preprocessor"
      | Some r =>
          mkPreprocessed (exitedOk r) (unmaskAfterSystemCpp (stripLineMarkers (stdout_ r))) (stderr_ r)
      end
  end.
