(* ===== verification/PreprocessSpec.v ===== *)
(** * Properties of the preprocessing

    The command line as the shell reads it, and the files an include can
    open. *)

From S2P Require Import Prelude Config Lexer LexerSpec Preprocess.

(** ** The command line *)

(** How a POSIX shell splits a command, for the quoting the driver uses: words
    with single quotes and backslashes, and operators of one character.
    Expansions and double quotes are not read. *)
Inductive sh_token := Word (w : bytes) | Op (c : ascii).

#[export] Instance sh_token_eq_dec : EqDecision sh_token.
Proof. solve_decision. Defined.

Inductive sh_state := Between | InWord (w : bytes) | InQuotes (w : bytes) | Escaped (w : bytes).

Definition sh_operator (c : ascii) : bool := one_of c (NL :: $";&|<>()").
Definition sh_unread (c : ascii) : bool := one_of c [QUOTE; "$"; "`"; "*"; "?"; "["; "#"; "~"; "{"; "!"]%char.

Definition sh_word (st : sh_state) : bytes :=
  match st with Between => [] | InWord w | InQuotes w | Escaped w => w end.

Definition sh_flush (st : sh_state) : list sh_token :=
  match st with Between => [] | _ => [Word (sh_word st)] end.

(** The tokens that end in a text, and the state after it. *)
Fixpoint sh_run (st : sh_state) (s : bytes) : option (list sh_token * sh_state) :=
  match s with
  | [] => Some ([], st)
  | c :: r =>
      match st with
      | InQuotes w => sh_run (if Ascii.eqb c SQ then InWord w else InQuotes (w ++ [c])) r
      | Escaped w => if Ascii.eqb c NL then None else sh_run (InWord (w ++ [c])) r
      | Between | InWord _ =>
          if blank c then '(ts, x) ← sh_run Between r; Some (sh_flush st ++ ts, x)
          else if sh_operator c then '(ts, x) ← sh_run Between r; Some (sh_flush st ++ Op c :: ts, x)
          else if sh_unread c then None
          else if Ascii.eqb c SQ then sh_run (InQuotes (sh_word st)) r
          else if Ascii.eqb c BACKSLASH then sh_run (Escaped (sh_word st)) r
          else sh_run (InWord (sh_word st ++ [c])) r
      end
  end.

Definition sh_split (s : bytes) : option (list sh_token) :=
  '(ts, st) ← sh_run Between s;
  match st with
  | InQuotes _ | Escaped _ => None
  | Between | InWord _ => Some (ts ++ sh_flush st)
  end.

(** Reading a text with more to come. *)
Definition sh_then (ts : list sh_token) (m : option (list sh_token * sh_state)) :
    option (list sh_token * sh_state) :=
  '(ts', st) ← m; Some (ts ++ ts', st).

Lemma sh_then_nil m : sh_then [] m = m.
Proof. by destruct m as [[]|]. Qed.

Lemma sh_then_then a b m : sh_then a (sh_then b m) = sh_then (a ++ b) m.
Proof. destruct m as [[]|]; simpl; [by rewrite app_assoc|done]. Qed.

Lemma sh_run_app st s ts st' r :
  sh_run st s = Some (ts, st') → sh_run st (s ++ r) = sh_then ts (sh_run st' r).
Proof.
  induction s as [|c s IH] in st, ts |- *; simpl; [intros [= <- <-]; by rewrite sh_then_nil|].
  destruct st; repeat (case_match; try done); try apply IH;
    intros ((ts1 & x) & H1 & [= <- <-])%bind_Some; rewrite (IH _ _ H1);
    destruct (sh_run x r) as [[]|]; simpl; by rewrite <- ?app_assoc.
Qed.

(** A character that stands for itself in a word. *)
Definition sh_plain (c : ascii) : bool :=
  negb (blank c || sh_operator c || sh_unread c || Ascii.eqb c SQ || Ascii.eqb c BACKSLASH).

Lemma sh_run_plain w s r :
  forallb sh_plain s = true → sh_run (InWord w) (s ++ r) = sh_run (InWord (w ++ s)) r.
Proof.
  induction s as [|c s IH] in w |- *; simpl; [by rewrite app_nil_r|].
  intros [Hc Hs]%andb_true_iff. unfold sh_plain in Hc.
  destruct (blank c), (sh_operator c), (sh_unread c), (Ascii.eqb c SQ), (Ascii.eqb c BACKSLASH);
    try discriminate Hc.
  rewrite IH by done. by rewrite <- app_assoc.
Qed.

Lemma sh_run_quote_byte w c r :
  sh_run (InQuotes w) (quote_byte c ++ r) = sh_run (InQuotes (w ++ [c])) r.
Proof.
  unfold quote_byte. destruct (Ascii.eqb c SQ) eqn:Hc; simpl; [|by rewrite Hc].
  prop_tests. by subst.
Qed.

Lemma sh_run_quoted st s r :
  match st with Between | InWord _ => True | _ => False end →
  sh_run st (shellQuote s ++ r) = sh_run (InWord (sh_word st ++ s)) r.
Proof.
  intros Hst. unfold shellQuote. rewrite <- !app_assoc.
  assert (∀ w, sh_run (InQuotes w) (concat (map quote_byte s) ++ [SQ] ++ r) = sh_run (InWord (w ++ s)) r) as H.
  { induction s as [|c s IH]; intros w; simpl; [by rewrite app_nil_r|].
    rewrite <- app_assoc, sh_run_quote_byte, IH. by rewrite <- app_assoc. }
  rewrite <- H. by destruct st.
Qed.

(** Ending a word. *)
Lemma sh_run_blank w r : sh_run (InWord w) ($" " ++ r) = sh_then [Word w] (sh_run Between r).
Proof. simpl. by destruct (sh_run Between r) as [[]|]. Qed.

(** The value of a macro as the shell passes it on. *)
Definition macro_arg (m : bytes * bytes) : bytes :=
  $"-D" ++ fst m ++ $"=" ++ filter (λ c, c ≠ BACKSLASH) (snd m).

Definition macro_args : list bytes :=
  map macro_arg (kFluffosPredefinedMacros ++ kFluffosRuntimePredefinedMacros ++ kPcrePackagePredefinedMacros).

Definition in_quotes (s : bytes) : bytes := [QUOTE] ++ s ++ [QUOTE].

(** The arguments of the compiler. *)
Definition cpp_argv (sourcePath : bytes) (includeDirs : list bytes)
    (originalSourceDir : bytes) (config : Config) (compiledFilename : bytes) : list bytes :=
  [$"cc"; $"-E"; $"-I"; $"."; $"-I"; originalSourceDir] ++
  concat (map (λ d, [$"-I"; d]) includeDirs) ++ macro_args ++
  [$"-D__PORT__=" ++ to_string (port_ config);
   $"-DMUD_NAME=" ++ in_quotes (mudName_ config);
   $"-D__FILE__=" ++ in_quotes (compiledFilename ++ $".c");
   $"-D__DIR__=" ++ in_quotes (dir_slash (compiledFilename ++ $".c"));
   $"-x"; $"c"; sourcePath].

Lemma digit_plain c : is_digit c = true → sh_plain c = true.
Proof. by destruct c as [[] [] [] [] [] [] [] []]. Qed.

Lemma to_string_plain z : forallb sh_plain (to_string z) = true.
Proof.
  assert (∀ n, 0 ≤ n → forallb sh_plain (dec n) = true) as H.
  { intros n Hn. apply forallb_Forall. eapply Forall_impl; [|by apply digit_plain].
    by apply forallb_Forall, dec_spec. }
  unfold to_string. case_if; prop_tests; simpl; apply H; lia.
Qed.

Lemma forallb_take {A} (p : A → bool) n l : forallb p l = true → forallb p (take n l) = true.
Proof. rewrite !forallb_Forall. apply Forall_take. Qed.

Lemma dir_slash_plain s : forallb sh_plain s = true → forallb sh_plain (dir_slash s) = true.
Proof. intros H. unfold dir_slash. case_match; [by apply forallb_take|done]. Qed.

Lemma sh_run_dirs w dirs r :
  sh_run (InWord w) (concat (map (λ d, $" -I " ++ shellQuote d) dirs) ++ $" " ++ r) =
  sh_then (map Word (w :: concat (map (λ d, [$"-I"; d]) dirs))) (sh_run Between r).
Proof.
  induction dirs as [|d dirs IH] in w |- *; [apply sh_run_blank|].
  cbn [map concat]. rewrite <- !app_assoc.
  rewrite (sh_run_app _ _ [Word w; Word $"-I"] Between) by done.
  rewrite sh_run_quoted by done. simpl sh_word. rewrite app_nil_l, IH, sh_then_then. done.
Qed.

Definition macro_flags : bytes :=
  concat (map macro_flag (kFluffosPredefinedMacros ++ kFluffosRuntimePredefinedMacros ++
                          kPcrePackagePredefinedMacros)).

Lemma sh_run_macros r :
  sh_run Between (tail macro_flags ++ $" -D__PORT__=" ++ r) =
  sh_then (map Word macro_args) (sh_run (InWord $"-D__PORT__=") r).
Proof.
  rewrite app_assoc. apply sh_run_app. vm_compute. reflexivity.
Qed.

Lemma sh_run_string_macro w n s r :
  forallb sh_plain n = true → forallb sh_plain s = true →
  sh_run (InWord w) ($" " ++ n ++ [BACKSLASH; QUOTE] ++ s ++ [BACKSLASH; QUOTE] ++ r) =
  sh_then [Word w] (sh_run (InWord (n ++ in_quotes s)) r).
Proof.
  intros Hn Hs.
  assert (∀ w r, sh_run (InWord w) ([BACKSLASH; QUOTE] ++ r) = sh_run (InWord (w ++ [QUOTE])) r) as Hq
    by done.
  assert (sh_run Between (n ++ [BACKSLASH; QUOTE] ++ s ++ [BACKSLASH; QUOTE] ++ r) =
          sh_run (InWord []) (n ++ [BACKSLASH; QUOTE] ++ s ++ [BACKSLASH; QUOTE] ++ r)) as Hb.
  { destruct n as [|c n]; [done|]. simpl in Hn. apply andb_true_iff in Hn as [Hc _].
    unfold sh_plain in Hc. simpl.
    destruct (blank c), (sh_operator c), (sh_unread c), (Ascii.eqb c SQ), (Ascii.eqb c BACKSLASH); done. }
  rewrite sh_run_blank, Hb, sh_run_plain, Hq, sh_run_plain, Hq by done.
  unfold in_quotes. by rewrite <- !app_assoc.
Qed.

(** C25: the shell that runs the preprocessor gives [cc] exactly the intended
    arguments, whatever bytes the directories, the name of the mud and the
    paths contain, as long as the file name of the object has no character
    that is special to the shell. *)
Theorem cpp_command_argv sourcePath dirs dir config file err :
  forallb sh_plain file = true →
  sh_split (cpp_command sourcePath dirs dir config file err) =
  Some (map Word (cpp_argv sourcePath dirs dir config file) ++ [Word $"2"; Op ">"; Word err]).
Proof.
  intros Hf. assert (forallb sh_plain (file ++ $".c") = true) as Hc.
  { rewrite forallb_app. by rewrite Hf. }
  pose proof (dir_slash_plain _ Hc) as Hd.
  unfold sh_split, cpp_command, buildPredefinedMacroFlags, cpp_argv. fold macro_flags. cbv zeta.
  set (lpc := file ++ $".c") in *. rewrite <- !app_assoc.
  assert (macro_flags = $" " ++ tail macro_flags) as -> by (vm_compute; reflexivity).
  rewrite (sh_run_app _ $"cc -E -I " [Word $"cc"; Word $"-E"; Word $"-I"] Between) by done.
  rewrite sh_run_quoted by done. cbn [sh_word]. rewrite app_nil_l.
  rewrite (sh_run_app _ $" -I " [Word $"."; Word $"-I"] Between) by done.
  rewrite sh_run_quoted by done. cbn [sh_word]. rewrite app_nil_l.
  rewrite <- app_assoc, sh_run_dirs, sh_run_macros.
  rewrite sh_run_plain by apply to_string_plain. rewrite sh_run_blank.
  rewrite sh_run_quoted by done. cbn [sh_word]. rewrite app_nil_l.
  change ($" -D__FILE__=") with ($" " ++ $"-D__FILE__="). rewrite <- (app_assoc $" ").
  rewrite (sh_run_string_macro _ $"-D__FILE__=") by done.
  change ($" -D__DIR__=") with ($" " ++ $"-D__DIR__="). rewrite <- (app_assoc $" ").
  rewrite (sh_run_string_macro _ $"-D__DIR__=") by done.
  rewrite (sh_run_app (InWord _) $" -x c " [Word _; Word $"-x"; Word $"c"] Between) by done.
  rewrite sh_run_quoted by done. cbn [sh_word]. rewrite app_nil_l.
  rewrite (sh_run_app (InWord _) $" 2>" [Word _; Word $"2"; Op ">"] Between) by done.
  rewrite <- (app_nil_r (shellQuote err)), sh_run_quoted by done. cbn [sh_word sh_run sh_then].
  rewrite !sh_then_then. cbn [sh_then mbind option_bind sh_flush sh_word]. f_equal.
  rewrite !map_app. simpl. by rewrite <- !app_assoc.
Qed.

Lemma cpp_command_argv_witness :
  forallb sh_plain $"/std/room" = true ∧
  sh_split (cpp_command $"/tmp/s" [$"lib/it's"] $"lib" default_config $"/std/room" $"/tmp/e") =
  Some (map Word (cpp_argv $"/tmp/s" [$"lib/it's"] $"lib" default_config $"/std/room") ++
        [Word $"2"; Op ">"; Word $"/tmp/e"]).
Proof.
  assert (forallb sh_plain $"/std/room" = true) as H by reflexivity.
  split; [exact H|]. exact (cpp_command_argv $"/tmp/s" [$"lib/it's"] $"lib" default_config $"/std/room" $"/tmp/e" H).
Defined.

(** The file name itself is not quoted: a source called ["x;reboot.c"] makes
    the shell run a second command. *)
Example cpp_command_injection : ∃ ts,
  sh_split (cpp_command $"/tmp/s" [] $"lib" default_config $"/x;reboot" $"/tmp/e") = Some ts ∧
  Op ";" ∈ ts ∧ Word ($"reboot.c" ++ [QUOTE]) ∈ ts.
Proof. eexists. split; [vm_compute; reflexivity|]. split; decided. Qed.

(** ** The files an include opens *)

Definition below (roots : list bytes) (path : bytes) : Prop := ∃ r, r ∈ roots ∧ r `prefix_of` path.

Definition search_roots (mudlibRoot : bytes) (includeDirs : list bytes) (currentDir : bytes) : list bytes :=
  mudlibRoot :: (if bool_decide (currentDir = []) then [] else [currentDir]) ++ includeDirs.

Lemma index_of_le c u v : ∃ i, index_of c (u ++ c :: v) = Some i ∧ (i ≤ length u)%nat.
Proof.
  induction u as [|d u (i & Hi & Hle)]; simpl.
  - exists 0%nat. by rewrite Ascii.eqb_refl.
  - destruct (Ascii.eqb c d); [by exists 0%nat; split; [|lia]|].
    exists (S i). rewrite Hi. split; [done|lia].
Qed.

Lemma dirname_prefix a b : a `prefix_of` dirname (a ++ $"/" ++ b).
Proof.
  unfold dirname. rewrite !reverse_app. simpl. rewrite <- app_assoc.
  destruct (index_of_le "/" (reverse b) (reverse a)) as (i & Hi & Hle).
  change (reverse ["/"%char] ++ reverse a) with ("/"%char :: reverse a). rewrite Hi.
  rewrite length_reverse in Hle. rewrite length_app. simpl.
  rewrite take_app_ge by lia. by apply prefix_app_r.
Qed.

Lemma below_mono R p q : below R p → p `prefix_of` q → below R q.
Proof. intros (r & Hr & Hp) Hq. exists r. split; [done|]. by etrans. Qed.

Section Confined.
Context (fs1 fs2 : bytes → option bytes) (mudlibRoot : bytes) (includeDirs R : list bytes).
Context (Hroot : mudlibRoot ∈ R) (Hdirs : ∀ d, d ∈ includeDirs → d ∈ R).
Context (Hfs : ∀ p, below R p → fs1 p = fs2 p).

Definition current_ok (currentDir : bytes) : Prop := currentDir = [] ∨ below R currentDir.

Lemma search_same path ds : (∀ d, d ∈ ds → below R d) →
  search fs1 path ds = search fs2 path ds ∧
  ∀ q c, search fs1 path ds = Some (q, c) → below R (dirname q).
Proof.
  induction ds as [|d ds IH]; intros Hds; [done|]. cbn [search].
  destruct IH as [IH1 IH2]; [intros d' Hd'; apply Hds; by right|].
  assert (below R d) as Hd by (apply Hds; by left).
  rewrite <- Hfs by (apply (below_mono R d); [done|by apply prefix_app_r]).
  destruct (fs1 (d ++ $"/" ++ path)) as [content|]; [|exact (conj IH1 IH2)].
  split; [done|]. intros q c [= <- <-]. eapply (below_mono R d); [done|]. apply dirname_prefix.
Qed.

Lemma search_dirs_below currentDir t :
  current_ok currentDir → ∀ d, d ∈ search_dirs includeDirs currentDir t → below R d.
Proof.
  intros Hcur d Hd. unfold search_dirs in Hd. apply elem_of_app in Hd as [Hd|Hd].
  - destruct (quoted t && _) eqn:E; [|by apply not_elem_of_nil in Hd]. prop_tests.
    apply list_elem_of_singleton in Hd as ->. by destruct Hcur.
  - exists d. split; [by apply Hdirs|done].
Qed.

Lemma find_include_same currentDir t :
  current_ok currentDir →
  find_include fs1 mudlibRoot includeDirs currentDir t =
    find_include fs2 mudlibRoot includeDirs currentDir t ∧
  ∀ q c, find_include fs1 mudlibRoot includeDirs currentDir t = Some (q, c) → below R (dirname q).
Proof.
  intros Hcur. unfold find_include. case_if.
  - unfold is_absolute in Heqb. destruct (targetPath t) as [|c p]; [done|].
    change (peek (c :: p)) with c in Heqb. prop_tests. subst c.
    rewrite <- Hfs by (exists mudlibRoot; split; [done|by apply prefix_app_r]).
    destruct (fs1 _) as [content|]; [|done]. split; [done|]. intros q x [= <- <-].
    eapply (below_mono R mudlibRoot); [by exists mudlibRoot|]. apply dirname_prefix.
  - by apply search_same, search_dirs_below.
Qed.

Lemma include_lines_same splice1 splice2 currentDir ls s :
  current_ok currentDir →
  (∀ src dir s, current_ok dir → splice1 src dir s = splice2 src dir s) →
  include_lines fs1 mudlibRoot includeDirs splice1 currentDir ls s =
  include_lines fs2 mudlibRoot includeDirs splice2 currentDir ls s.
Proof.
  intros Hcur Hsplice. induction ls as [|l ls IH] in s |- *; [done|]. simpl.
  assert (include_line fs1 mudlibRoot includeDirs splice1 currentDir l s =
          include_line fs2 mudlibRoot includeDirs splice2 currentDir l s) as ->.
  { unfold include_line. destruct (directive l) as [[[pre kw] rest]|]; [|done].
    case_if; [done|]. case_if; [|done]. destruct (read_target _ _) as [t|]; [|done].
    destruct (find_include_same currentDir t Hcur) as [Heq Hbelow]. rewrite <- Heq.
    destruct (find_include fs1 _ _ _ _) as [[q c]|]; [|done].
    case_if; [done|]. rewrite Hsplice; [done|]. right. by eapply Hbelow. }
  destruct (include_line fs2 _ _ _ _ _ _) as [a s']. by rewrite IH.
Qed.

Lemma rewrite_includes_same levels source currentDir s :
  current_ok currentDir →
  rewriteAbsoluteIncludesRecursive fs1 mudlibRoot includeDirs levels source currentDir s =
  rewriteAbsoluteIncludesRecursive fs2 mudlibRoot includeDirs levels source currentDir s.
Proof.
  induction levels as [|l IH] in source, currentDir, s |- *; intros Hcur; [done|].
  simpl. by apply include_lines_same.
Qed.
End Confined.

(** C24: splicing includes reads no file outside the mudlib root, the include
    directories and the directory of the source: the result is the same in
    every file system that agrees on the paths that start with one of these
    (a path may still climb out of them with [..], which is not checked). *)
Theorem includes_confined fs1 fs2 mudlibRoot includeDirs levels source currentDir s :
  (∀ p, below (search_roots mudlibRoot includeDirs currentDir) p → fs1 p = fs2 p) →
  rewriteAbsoluteIncludesRecursive fs1 mudlibRoot includeDirs levels source currentDir s =
  rewriteAbsoluteIncludesRecursive fs2 mudlibRoot includeDirs levels source currentDir s.
Proof.
  intros Hfs. apply (rewrite_includes_same _ _ _ _ (search_roots mudlibRoot includeDirs currentDir));
    unfold search_roots.
  - by left.
  - intros d Hd. right. apply elem_of_app. by right.
  - done.
  - unfold current_ok. destruct (decide (currentDir = [])) as [|Hne]; [by left|right].
    exists currentDir. split; [|done]. right. apply elem_of_app. left.
    rewrite bool_decide_eq_false_2 by done. by left.
Qed.

(** A mudlib with one header; the other file system has a file elsewhere. *)
Definition sample_fs (secret : bytes) (p : bytes) : option bytes :=
  if bool_decide (p = $"lib/include/h.h") then Some ($"#define H " ++ [QUOTE] ++ $"/x.h" ++ [QUOTE; NL] ++ $"int h;")
  else if bool_decide (p = $"lib/x.h") then Some $"int x;"
  else if bool_decide (p = $"etc/passwd") then Some secret
  else None.

Definition sample_source : bytes :=
  unlines [$"#include <h.h>"; $"#include H"; $"#include <../passwd>"; $"y"].

Lemma includes_confined_witness :
  (∀ p, below (search_roots $"lib" [$"lib/include"] $"lib/obj") p → sample_fs $"a" p = sample_fs $"b" p) ∧
  fst (rewrite_top (sample_fs $"b") $"lib" [$"lib/include"] sample_source $"lib/obj" (mkIncludes ∅ ∅)) =
  unlines [$"#define H " ++ [QUOTE] ++ $"/x.h" ++ [QUOTE]; $"int h;"; []; $"int x;"; [];
           $"#include <../passwd>"; $"y"].
Proof.
  assert (∀ p, below (search_roots $"lib" [$"lib/include"] $"lib/obj") p →
               sample_fs $"a" p = sample_fs $"b" p) as H.
  { intros p (r & Hr & Hp). unfold sample_fs. repeat (case_bool_decide; [done|]).
    case_bool_decide; [|done]. subst p. cbn in Hr. exfalso. revert Hp.
    repeat (apply elem_of_cons in Hr as [->|Hr]; [intros [k Hk]; discriminate Hk|]).
    by apply not_elem_of_nil in Hr. }
  split; [exact H|]. unfold rewrite_top.
  rewrite <- (includes_confined (sample_fs $"a") (sample_fs $"b") _ _ _ _ _ _ H).
  vm_compute. reflexivity.
Defined.

(** A numeric condition that does not fit in [long] throws out of the
    compiler: [std::out_of_range] is no LPC error. *)
Example ifdef_overflow :
  rewriteNumericIfdef $"#ifdef 9223372036854775808" = Throw OutOfRange ∧
  rewriteNumericIfdef $"#ifdef 12 // x" = Ok ($"#if 1 // x" ++ [NL]).
Proof. vm_compute. done. Qed.
