(* ===== verification/Masking.v ===== *)
(** * Masking is transparent to the lexer

    [maskForSystemCpp] and [unmaskAfterSystemCpp] work on markers inside the
    text.  Here a text is a list of items, a character, a masked [#'] or a
    masked [..], so that the two passes and their inverses are functions of
    items, and the text that comes back has spaces around the [..] of the
    code.  The lexer reads the same tokens from it. *)

From S2P Require Import Prelude Config Lexer LexerSpec Preprocess.

Inductive item := Ch (c : ascii) | Hash | Dots.

#[export] Instance item_eq_dec : EqDecision item.
Proof. solve_decision. Defined.

(** The text of items, for a spelling of [#'] and of [..]. *)
Definition item_text (h d : bytes) (i : item) : bytes :=
  match i with Ch c => [c] | Hash => h | Dots => d end.
Definition render (h d : bytes) (l : list item) : bytes := concat (map (item_text h d) l).

Fixpoint hash_items (prev : option ascii) (s : bytes) : list item :=
  match s with
  | [] => []
  | c :: r =>
      match r with
      | q :: r' =>
          if Ascii.eqb c "#" && Ascii.eqb q SQ && negb (bool_decide (prev = Some SQ))
          then Hash :: hash_items (Some q) r'
          else Ch c :: hash_items (Some c) r
      | [] => [Ch c]
      end
  end.

(** [isch c i]: the item is the character [c]. *)
Definition isch (c : ascii) (i : option item) : bool := bool_decide (i = Some (Ch c)).

(** [maskDotDot] on items. *)
Fixpoint dot_items (mode : Mode) (l : list item) : list item :=
  match l with
  | [] => []
  | i :: r =>
      let next := head r in
      match mode, i with
      | LineComment, _ => i :: dot_items (if isch NL (Some i) then Code else LineComment) r
      | BlockComment, _ =>
          match r with
          | j :: r' => if isch "*" (Some i) && isch "/" next then i :: j :: dot_items Code r'
                       else i :: dot_items BlockComment r
          | [] => [i]
          end
      | DQuote, _ =>
          match r with
          | j :: r' => if isch BACKSLASH (Some i) then i :: j :: dot_items DQuote r'
                       else i :: dot_items (if isch QUOTE (Some i) then Code else DQuote) r
          | [] => [i]
          end
      | SQuote, _ =>
          match r with
          | j :: r' => if isch BACKSLASH (Some i) then i :: j :: dot_items SQuote r'
                       else i :: dot_items (if isch SQ (Some i) then Code else SQuote) r
          | [] => [i]
          end
      | Code, _ =>
          match r with
          | j :: r' =>
              if isch "/" (Some i) && isch "/" next then i :: j :: dot_items LineComment r'
              else if isch "/" (Some i) && isch "*" next then i :: j :: dot_items BlockComment r'
              else if isch QUOTE (Some i) then i :: dot_items DQuote r
              else if isch SQ (Some i) then i :: dot_items SQuote r
              else if isch "." (Some i) && isch "." next then
                match r' with
                | k :: r'' => if isch "." (Some k) then i :: j :: k :: dot_items Code r''
                              else Dots :: dot_items Code r'
                | [] => [Dots]
                end
              else i :: dot_items Code r
          | [] => [i]
          end
      end
  end.

Definition spaced_from (prev : option ascii) (mode : Mode) (s : bytes) : bytes :=
  render $"#'" $" .. " (dot_items mode (hash_items prev s)).

(** The source with spaces around the [..] of its code. *)
Definition spaced (s : bytes) : bytes := spaced_from None Code s.

Lemma is_Ch c d : isch c (Some (Ch d)) = Ascii.eqb d c.
Proof. unfold isch. case_bool_decide; simplify_eq; [by rewrite Ascii.eqb_refl|]. symmetry. apply ascii_eqb_neq. congruence. Qed.

Lemma is_Hash c : isch c (Some Hash) = false.
Proof. done. Qed.

Lemma render_cons h d i l : render h d (i :: l) = item_text h d i ++ render h d l.
Proof. done. Qed.

(** ** The passes on text are the passes on items *)

(** Two-step induction over a text. *)
Lemma bytes_ind2 (P : bytes → Prop) :
  P [] → (∀ c, P [c]) → (∀ c d s, P (d :: s) → P s → P (c :: d :: s)) → ∀ s, P s.
Proof.
  intros H0 H1 H2 s. assert (P s ∧ ∀ c, P (c :: s)) as [? _]; [|done].
  induction s as [|d s [IH1 IH2]]; [done|]. split; [done|]. intros c. by apply H2.
Qed.

Definition masked_hash (prev : option ascii) (c q : ascii) : bool :=
  Ascii.eqb c "#" && Ascii.eqb q SQ && negb (bool_decide (prev = Some SQ)).

Lemma hash_items_step prev c q s :
  hash_items prev (c :: q :: s) =
  if masked_hash prev c q then Hash :: hash_items (Some q) s
  else Ch c :: hash_items (Some c) (q :: s).
Proof. done. Qed.

Lemma mask_hash_step prev c q s :
  maskHashQuote_from prev (c :: q :: s) =
  if masked_hash prev c q then kHashQuoteMarker ++ maskHashQuote_from (Some q) s
  else c :: maskHashQuote_from (Some c) (q :: s).
Proof. done. Qed.

Lemma mask_hash_items d s prev :
  maskHashQuote_from prev s = render kHashQuoteMarker d (hash_items prev s).
Proof.
  revert prev. induction s as [|c|c q s IH1 IH2] using bytes_ind2; intros prev; [done|done|].
  rewrite mask_hash_step, hash_items_step. by case_if; rewrite render_cons, ?IH1, ?IH2.
Qed.

(** Characters without a meaning for [maskDotDot]. *)
Definition inert (c : ascii) : bool := negb (one_of c [NL; "/"; "*"; BACKSLASH; QUOTE; SQ; "."]%char).

Lemma inert_neq c d : inert c = true → inert d = false → Ascii.eqb c d = false.
Proof. intros Hc Hd. apply ascii_eqb_neq. intros ->. congruence. Qed.

Lemma mask_inert_char dots mode c s :
  inert c = true → maskDotDot_from dots mode (c :: s) = c :: maskDotDot_from dots mode s.
Proof.
  intros Hc. cbn [maskDotDot_from].
  rewrite !(inert_neq c _ Hc) by done. by destruct mode, s.
Qed.

Lemma mask_inert dots mode m s :
  forallb inert m = true → maskDotDot_from dots mode (m ++ s) = m ++ maskDotDot_from dots mode s.
Proof.
  induction m as [|c m IH]; [done|]. cbn [forallb app]. intros [Hc Hm]%andb_true_iff.
  by rewrite mask_inert_char, IH.
Qed.

Lemma hash_marker_inert : forallb inert kHashQuoteMarker = true.
Proof. reflexivity. Qed.

Definition no_dots (l : list item) : Prop := Dots ∉ l.

Lemma hash_items_no_dots s prev : no_dots (hash_items prev s).
Proof.
  unfold no_dots. revert prev. induction s as [|c|c q s IH1 IH2] using bytes_ind2; intros prev.
  - apply not_elem_of_nil.
  - by intros ?%list_elem_of_singleton.
  - rewrite hash_items_step. case_if; apply not_elem_of_cons; split; try done; apply IH1.
Qed.

(** The equations of the two functions, with the lookahead as tests. *)
Section Equations.
Context (dots : bytes).

Definition mask_eq (mode : Mode) (c : ascii) (s : bytes) : bytes :=
  let go := maskDotDot_from dots in
  match mode with
  | LineComment => c :: go (if Ascii.eqb c NL then Code else LineComment) s
  | BlockComment =>
      if Ascii.eqb c "*" && Ascii.eqb (peek s) "/" then c :: peek s :: go Code (tail s)
      else c :: go BlockComment s
  | DQuote =>
      if Ascii.eqb c BACKSLASH then c :: take 1 s ++ go DQuote (tail s)
      else c :: go (if Ascii.eqb c QUOTE then Code else DQuote) s
  | SQuote =>
      if Ascii.eqb c BACKSLASH then c :: take 1 s ++ go SQuote (tail s)
      else c :: go (if Ascii.eqb c SQ then Code else SQuote) s
  | Code =>
      if Ascii.eqb c "/" && Ascii.eqb (peek s) "/" then c :: peek s :: go LineComment (tail s)
      else if Ascii.eqb c "/" && Ascii.eqb (peek s) "*" then c :: peek s :: go BlockComment (tail s)
      else if Ascii.eqb c QUOTE then c :: go DQuote s
      else if Ascii.eqb c SQ then c :: go SQuote s
      else if Ascii.eqb c "." && Ascii.eqb (peek s) "." then
        if Ascii.eqb (peekNext s) "." then $"..." ++ go Code (tail (tail s))
        else dots ++ go Code (tail s)
      else c :: go Code s
  end.

Lemma mask_step mode c s : maskDotDot_from dots mode (c :: s) = mask_eq mode c s.
Proof.
  destruct mode, s as [|d [|e s]]; unfold mask_eq, peekNext, peek; cbn [maskDotDot_from head tail take default from_option id];
    change (Ascii.eqb NUL "/") with false; change (Ascii.eqb NUL "*") with false;
    change (Ascii.eqb NUL ".") with false; rewrite ?andb_false_r; try done;
    repeat (case_if; try done); by rewrite ?app_nil_r.
Qed.
End Equations.

Definition dots_eq (mode : Mode) (i : item) (r : list item) : list item :=
  match mode with
  | LineComment => i :: dot_items (if isch NL (Some i) then Code else LineComment) r
  | BlockComment =>
      if isch "*" (Some i) && isch "/" (head r) then i :: Ch "/" :: dot_items Code (tail r)
      else i :: dot_items BlockComment r
  | DQuote =>
      if isch BACKSLASH (Some i) then i :: take 1 r ++ dot_items DQuote (tail r)
      else i :: dot_items (if isch QUOTE (Some i) then Code else DQuote) r
  | SQuote =>
      if isch BACKSLASH (Some i) then i :: take 1 r ++ dot_items SQuote (tail r)
      else i :: dot_items (if isch SQ (Some i) then Code else SQuote) r
  | Code =>
      if isch "/" (Some i) && isch "/" (head r) then i :: Ch "/" :: dot_items LineComment (tail r)
      else if isch "/" (Some i) && isch "*" (head r) then i :: Ch "*" :: dot_items BlockComment (tail r)
      else if isch QUOTE (Some i) then i :: dot_items DQuote r
      else if isch SQ (Some i) then i :: dot_items SQuote r
      else if isch "." (Some i) && isch "." (head r) then
        if isch "." (head (tail r)) then i :: Ch "." :: Ch "." :: dot_items Code (tail (tail r))
        else Dots :: dot_items Code (tail r)
      else i :: dot_items Code r
  end.

Lemma isch_inv c i : isch c i = true → i = Some (Ch c).
Proof. apply bool_decide_eq_true_1. Qed.

Lemma dots_step mode i r : dot_items mode (i :: r) = dots_eq mode i r.
Proof.
  destruct mode, r as [|j [|k r]]; unfold dots_eq; cbn [dot_items head tail take];
    change (isch "/" None) with false; change (isch "*" None) with false;
    change (isch "." None) with false; rewrite ?andb_false_r; try done;
    repeat (case_if; try done); prop_tests;
    repeat match goal with H : isch _ (Some _) = true |- _ => apply isch_inv in H; simplify_eq end; done.
Qed.

(** The lookahead on the text of items is the lookahead on the items. *)
Definition meaningful (c : ascii) : bool := one_of c ["/"; "*"; "."]%char.

Lemma isch_peek h d c l :
  no_dots l → h = kHashQuoteMarker → meaningful c = true →
  isch c (head l) = Ascii.eqb (peek (render h d l)) c.
Proof.
  intros Hl -> Hc. assert (c ∈ ["/"; "*"; "."]%char) as Hin by by apply one_of_elem.
  destruct l as [|[x| |] l].
  - by split_in Hin.
  - apply is_Ch.
  - by split_in Hin.
  - destruct Hl. by left.
Qed.

Lemma isch_render h d c l : isch c (head l) = true → render h d l = c :: render h d (tail l).
Proof. intros H%isch_inv. destruct l as [|i l]; simplify_eq/=. done. Qed.

Lemma no_dots_cons i l : no_dots (i :: l) → no_dots l.
Proof. intros H ?. apply H. by right. Qed.

Lemma no_dots_tail l : no_dots l → no_dots (tail l).
Proof. destruct l; [done|apply no_dots_cons]. Qed.
#[local] Hint Resolve no_dots_cons no_dots_tail : core.

Lemma render_app h d l k : render h d (l ++ k) = render h d l ++ render h d k.
Proof. unfold render. by rewrite map_app, concat_app. Qed.

(** An escaped item. *)
Lemma mask_escaped d d' mode r :
  no_dots r →
  take 1 (render kHashQuoteMarker d r) ++ maskDotDot_from d' mode (tail (render kHashQuoteMarker d r)) =
  render kHashQuoteMarker d' (take 1 r) ++ maskDotDot_from d' mode (render kHashQuoteMarker d (tail r)).
Proof.
  intros Hr. destruct r as [|[c| |] r]; [done|done| |by destruct Hr; left].
  rewrite render_cons. cbn [item_text tail take].
  change (take 1 (kHashQuoteMarker ++ render kHashQuoteMarker d r)) with ["_"%char].
  change (tail (kHashQuoteMarker ++ render kHashQuoteMarker d r))
    with (tail kHashQuoteMarker ++ render kHashQuoteMarker d r).
  by rewrite mask_inert.
Qed.

Lemma dots_hash mode r : dots_eq mode Hash r = Hash :: dot_items mode r.
Proof. by destruct mode. Qed.

Lemma mask_dot_items l mode d d' :
  no_dots l →
  maskDotDot_from d' mode (render kHashQuoteMarker d l) = render kHashQuoteMarker d' (dot_items mode l).
Proof.
  revert mode. induction l as [l IH] using (induction_ltof1 _ (@length item)).
  unfold ltof in IH. intros mode Hl. destruct l as [|i r]; [by destruct mode|].
  assert (∀ l' mode, (length l' ≤ length r)%nat → no_dots l' →
    maskDotDot_from d' mode (render kHashQuoteMarker d l') = render kHashQuoteMarker d' (dot_items mode l')) as IH'.
  { intros l' m Hle. apply IH. simpl. lia. }
  clear IH. assert (no_dots r) as Hr by eauto.
  assert (length (tail r) ≤ length r ∧ length (tail (tail r)) ≤ length r)%nat as [Ht Htt]
    by (destruct r as [|? [|]]; simpl; lia).
  rewrite dots_step, render_cons. destruct i as [c| |]; [| |by destruct Hl; left].
  2:{ rewrite dots_hash, render_cons. cbn [item_text]. by rewrite mask_inert, IH' by done. }
  cbn [item_text app]. rewrite mask_step. unfold mask_eq, dots_eq. rewrite !is_Ch.
  rewrite <- !(isch_peek kHashQuoteMarker d _ r) by done.
  assert (isch "." (head r) = true → Ascii.eqb (peekNext (render kHashQuoteMarker d r)) "." =
          isch "." (head (tail r))) as Hnext.
  { intros H. rewrite (isch_render _ d _ _ H). symmetry. by apply isch_peek; eauto. }
  destruct (isch "." (head r)) eqn:Hd; [rewrite Hnext by done|rewrite andb_false_r]; clear Hnext;
    destruct mode; repeat (case_if; prop_tests); rewrite ?render_cons;
    try (cbn [item_text app]; rewrite ?mask_escaped, ?render_app, ?IH' by eauto; done);
    try match goal with H : isch _ (head r) = true |- _ => rewrite (isch_render _ d _ _ H) in * end;
    try match goal with H : isch _ (head (tail r)) = true |- _ => rewrite (isch_render _ d _ _ H) in * end;
    subst; rewrite ?render_cons; cbn [item_text app peek head default from_option id tail];
    rewrite ?IH' by eauto; done.
Qed.

(** ** Unmasking *)

(** The letters of the markers never stand together in the items. *)
Definition mark_letters : bytes := $"KJDMUD".
Definition marks : list item := map Ch mark_letters.

Fixpoint free (l : list item) : Prop :=
  match l with [] => True | _ :: r => ¬ marks `prefix_of` l ∧ free r end.

Definition mark_free (s : bytes) : Prop := ∀ a b, s ≠ a ++ mark_letters ++ b.

Lemma mark_free_cons c s : mark_free (c :: s) → mark_free s.
Proof. intros H a b ->. by apply (H (c :: a) b). Qed.

Lemma hash_items_prefix u s prev :
  "#"%char ∉ u → map Ch u `prefix_of` hash_items prev s → u `prefix_of` s.
Proof.
  induction u as [|c u IH] in s, prev |- *; intros Hu Hp; [apply prefix_nil|].
  apply not_elem_of_cons in Hu as [Hc Hu]. destruct s as [|d [|q s]].
  - by apply prefix_nil_inv in Hp.
  - apply prefix_cons_inv_1 in Hp as Heq. apply prefix_cons_inv_2 in Hp. simplify_eq.
    destruct u; [done|]. by apply prefix_nil_inv in Hp.
  - rewrite hash_items_step in Hp. destruct (masked_hash prev d q) eqn:E.
    + by apply prefix_cons_inv_1 in Hp.
    + apply prefix_cons_inv_1 in Hp as Heq. apply prefix_cons_inv_2 in Hp. simplify_eq.
      apply prefix_cons. by eapply IH.
Qed.

Lemma free_hash_items s prev : mark_free s → free (hash_items prev s).
Proof.
  assert (∀ s prev, mark_free s → ¬ marks `prefix_of` hash_items prev s) as Hn.
  { clear. intros s prev Hs Hp. apply hash_items_prefix in Hp as [k ->]; [|decided]. by apply (Hs [] k). }
  intros Hs. revert prev. induction s as [|c|c q s IH1 IH2] using bytes_ind2; intros prev.
  - done.
  - split; [|done]. by apply (Hn [c] prev).
  - pose proof (Hn _ prev Hs) as H. pose proof (mark_free_cons _ _ Hs) as Hs1.
    pose proof (mark_free_cons _ _ Hs1) as Hs2. rewrite hash_items_step in H |- *.
    case_if; (split; [done|]); auto.
Qed.

Lemma dots_inert mode c r : inert c = true → dots_eq mode (Ch c) r = Ch c :: dot_items mode r.
Proof.
  intros Hc. unfold dots_eq. rewrite !is_Ch, !(inert_neq c _ Hc) by done. by destruct mode.
Qed.

Lemma dots_head mode i r c l : dots_eq mode i r = Ch c :: l → i = Ch c.
Proof. unfold dots_eq. destruct mode; repeat case_if; by intros [= -> _]. Qed.

Lemma dot_items_prefix u l mode :
  forallb inert u = true → map Ch u `prefix_of` dot_items mode l → map Ch u `prefix_of` l.
Proof.
  induction u as [|c u IH] in l, mode |- *; intros Hu Hp; [apply prefix_nil|].
  simpl in Hu. apply andb_true_iff in Hu as [Hc Hu].
  destruct l as [|i r]; [by destruct mode; apply prefix_nil_inv in Hp|].
  rewrite dots_step in Hp. destruct (dots_eq mode i r) as [|j l'] eqn:E; [by apply prefix_nil_inv in Hp|].
  pose proof (prefix_cons_inv_1 _ _ _ _ Hp). subst j. pose proof (dots_head _ _ _ _ _ E). subst i.
  rewrite dots_inert in E by done. injection E as <-.
  apply prefix_cons, (IH _ mode); [done|]. by eapply prefix_cons_inv_2.
Qed.

Lemma free_tail l : free l → free (tail l).
Proof. destruct l; [done|by intros []]. Qed.

Lemma free_not_marks l : free l → ¬ marks `prefix_of` l.
Proof. destruct l; [by intros _ ?%prefix_nil_inv|by intros []]. Qed.

Lemma marks_inert : forallb inert mark_letters = true.
Proof. reflexivity. Qed.

Lemma marks_head i l : marks `prefix_of` (i :: l) → i = Ch "K".
Proof. intros H. by apply prefix_cons_inv_1 in H. Qed.

Lemma free_dot_items l mode : free l → free (dot_items mode l).
Proof.
  revert mode. induction l as [l IH] using (induction_ltof1 _ (@length item)).
  unfold ltof in IH. intros mode Hl.
  assert (¬ marks `prefix_of` dot_items mode l) as Hhead.
  { intros Hp%dot_items_prefix; [|done]. by eapply free_not_marks. }
  destruct l as [|i r]; [by destruct mode|].
  assert (∀ l' mode, (length l' ≤ length r)%nat → free l' → free (dot_items mode l')) as IH'.
  { intros l' m Hle. apply IH. simpl. lia. }
  assert (length (tail r) ≤ length r ∧ length (tail (tail r)) ≤ length r)%nat as [Ht Htt]
    by (destruct r as [|? [|]]; simpl; lia).
  assert (free r) as Hr by apply Hl. pose proof (free_tail _ Hr) as Hr1. pose proof (free_tail _ Hr1) as Hr2.
  assert (∀ m, free (take 1 r ++ dot_items m (tail r))) as Hesc.
  { intros m. destruct r as [|j r]; [by apply IH'|]. simpl. split; [|by apply IH'].
    intros Hp. pose proof (marks_head _ _ Hp). subst j. apply (free_not_marks _ Hr).
    apply prefix_cons. apply prefix_cons_inv_2 in Hp. by apply (dot_items_prefix $"JDMUD" _ m). }
  rewrite dots_step in *. unfold dots_eq in *.
  destruct mode; repeat case_if; simpl; repeat (split; [done || (by intros ?%marks_head)|]); auto.
Qed.

(** A run of letters at the head of a text of items. *)
Lemma strip_letters h d u m l r :
  (∀ c, c ∈ u → peek h ≠ c ∧ peek d ≠ c) → h ≠ [] → d ≠ [] →
  strip_prefix (u ++ m) (render h d l) = Some r → map Ch u `prefix_of` l.
Proof.
  induction u as [|c u IH] in l |- *; intros Hu Hh Hd Hs; [apply prefix_nil|].
  destruct (Hu c ltac:(by left)) as [Hch Hcd].
  destruct l as [|[x| |] l]; [done| | |].
  - simpl in Hs. case_if_in Hs; [|done]. prop_tests. subst. apply prefix_cons, IH; [|done..].
    intros y Hy. apply Hu. by right.
  - destruct h as [|y h]; [done|]. simpl in Hs. cbn in Hch.
    by rewrite ascii_eqb_neq in Hs by congruence.
  - destruct d as [|y d]; [done|]. simpl in Hs. cbn in Hcd.
    by rewrite ascii_eqb_neq in Hs by congruence.
Qed.

(** No marker starts at a character of the items. *)
Lemma no_marker h d m c l :
  h = kHashQuoteMarker ∨ h = $"#'" → peek d = " "%char → d ≠ [] → free l →
  strip_prefix ($"__" ++ mark_letters ++ m) (c :: render h d l) = None.
Proof.
  intros Hh Hd Hne Hl. change (strip_prefix ($"__" ++ mark_letters ++ m) (c :: render h d l))
    with (if Ascii.eqb "_" c then strip_prefix ($"_" ++ mark_letters ++ m) (render h d l) else None).
  destruct (Ascii.eqb "_" c); [|done]. destruct l as [|[x| |] l]; [done| | |].
  - change (strip_prefix ($"_" ++ mark_letters ++ m) (render h d (Ch x :: l)))
      with (if Ascii.eqb "_" x then strip_prefix (mark_letters ++ m) (render h d l) else None).
    destruct (Ascii.eqb "_" x); [|done].
    destruct (strip_prefix _ _) as [r|] eqn:Hs; [|done]. exfalso.
    apply (free_not_marks l); [by apply Hl|].
    apply (strip_letters h d mark_letters m l r); [|by destruct Hh as [-> | ->]|done|done].
    intros y Hy. rewrite Hd. unfold mark_letters in Hy. cbn in Hy.
    destruct Hh as [-> | ->]; split_in Hy; done.
  - by destruct Hh as [-> | ->].
  - destruct d as [|y d]; [done|]. cbn in Hd. by subst.
Qed.

Lemma unmask_step m b f c s :
  strip_prefix m (c :: s) = None → unmask_loop m b (S f) (c :: s) = c :: unmask_loop m b f s.
Proof. intros H. cbn [unmask_loop]. by rewrite H. Qed.

Lemma unmask_marker m b f s :
  m ≠ [] → unmask_loop m b (S f) (m ++ s) = b ++ unmask_loop m b f s.
Proof.
  intros Hm. destruct m as [|c m]; [done|]. cbn [unmask_loop].
  pose proof (strip_prefix_app (c :: m) s) as H. simpl app in *. by rewrite H.
Qed.

Definition dots_marker : bytes := $" " ++ kDotDotMarker ++ $" ".

Lemma unmask_hash_items l f :
  free l → (length (render kHashQuoteMarker dots_marker l) ≤ f)%nat →
  unmask_loop kHashQuoteMarker $"#'" f (render kHashQuoteMarker dots_marker l) =
  render $"#'" dots_marker l.
Proof.
  induction l as [|i l IH] in f |- *; intros Hl Hf; [by destruct f|].
  pose proof (proj2 Hl) as Hl'. rewrite !render_cons in *. rewrite length_app in Hf.
  destruct i as [c| |]; cbn [item_text] in *.
  - destruct f as [|f]; [simpl in Hf; lia|]. cbn [app].
    rewrite unmask_step by by apply (no_marker _ _ $"_HASHQUOTE_MARKER__"); [left| | |].
    cbn [length] in Hf. rewrite IH by (done || lia). done.
  - destruct f as [|f]; [simpl in Hf; lia|]. rewrite unmask_marker by done.
    change (length kHashQuoteMarker) with 27%nat in Hf. rewrite IH by (done || lia). done.
  - destruct (Nat.le_exists_sub (length dots_marker) f) as (f' & -> & _); [lia|].
    rewrite Nat.add_comm. rewrite <- (IH f') by (done || lia). reflexivity.
Qed.

Lemma unmask_dots_items l f :
  free l → (length (render $"#'" dots_marker l) ≤ f)%nat →
  unmask_loop kDotDotMarker $".." f (render $"#'" dots_marker l) = render $"#'" $" .. " l.
Proof.
  induction l as [|i l IH] in f |- *; intros Hl Hf; [by destruct f|].
  pose proof (proj2 Hl) as Hl'. rewrite !render_cons in *. rewrite length_app in Hf.
  destruct i as [c| |]; cbn [item_text] in *.
  - destruct f as [|f]; [simpl in Hf; lia|]. cbn [app].
    rewrite unmask_step by by apply (no_marker _ _ $"_DOTDOT__"); [right| | |].
    cbn [length] in Hf. rewrite IH by (done || lia). done.
  - change (length $"#'") with 2%nat in Hf. destruct f as [|[|f]]; [lia..|].
    rewrite <- (IH f) by (done || lia). reflexivity.
  - change (length dots_marker) with 19%nat in Hf. destruct f as [|[|[|f]]]; [lia..|].
    rewrite <- (IH f) by (done || lia). reflexivity.
Qed.

(** Masking and unmasking put spaces around the [..] of the code. *)
Lemma unmask_mask s : mark_free s → unmaskAfterSystemCpp (maskForSystemCpp s) = spaced s.
Proof.
  intros Hs. unfold unmaskAfterSystemCpp, maskForSystemCpp, maskDotDot, maskHashQuote.
  rewrite (mask_hash_items []), (mask_dot_items _ _ _ dots_marker) by apply hash_items_no_dots.
  pose proof (free_dot_items _ Code (free_hash_items s None Hs)) as Hl.
  unfold unmaskHashQuote, unmaskDotDot. by rewrite unmask_hash_items, unmask_dots_items.
Qed.

(** ** What changes in the text *)

Inductive dotted : bytes → bytes → Prop :=
  | dotted_nil : dotted [] []
  | dotted_char c s s' : dotted s s' → dotted (c :: s) (c :: s')
  | dotted_dots s s' : dotted s s' → peek s ≠ "."%char → dotted ("." :: "." :: s)%char ($" .. " ++ s').

Lemma dotted_app u s s' : dotted s s' → dotted (u ++ s) (u ++ s').
Proof. intros H. induction u; [done|by constructor]. Qed.

Lemma render_hash_items s prev d : render $"#'" d (hash_items prev s) = s.
Proof.
  revert prev. induction s as [|c|c q s IH1 IH2] using bytes_ind2; intros prev; [done|done|].
  rewrite hash_items_step. case_if; rewrite render_cons, ?IH1, ?IH2; [|done].
  unfold masked_hash in Heqb. prop_tests. by subst.
Qed.

Lemma isch_dot_peek l d : no_dots l → isch "." (head l) = false → peek (render $"#'" d l) ≠ "."%char.
Proof.
  intros Hl Hh. destruct l as [|[c| |] l]; [done| |done|by destruct Hl; left].
  cbn [head] in Hh. rewrite is_Ch in Hh. by prop_tests.
Qed.


Lemma dotted_items l mode :
  no_dots l → dotted (render $"#'" [] l) (render $"#'" $" .. " (dot_items mode l)).
Proof.
  revert mode. induction l as [l IH] using (induction_ltof1 _ (@length item)).
  unfold ltof in IH. intros mode Hl. destruct l as [|i r]; [by destruct mode; constructor|].
  assert (∀ l' mode, (length l' ≤ length r)%nat → no_dots l' →
    dotted (render $"#'" [] l') (render $"#'" $" .. " (dot_items mode l'))) as IH'.
  { intros l' m Hle. apply IH. simpl. lia. }
  clear IH. assert (no_dots r) as Hr by eauto.
  assert (length (tail r) ≤ length r ∧ length (tail (tail r)) ≤ length r)%nat as [Ht Htt]
    by (destruct r as [|? [|]]; simpl; lia).
  assert (∀ m, dotted (render $"#'" [] r) (render $"#'" $" .. " (take 1 r ++ dot_items m (tail r)))) as Hesc.
  { intros m. rewrite render_app. destruct r as [|[c| |] r]; [by apply IH'|..]; cbn [take tail].
    - rewrite render_cons. apply (dotted_app [c]). apply IH'; [simpl; lia|eauto].
    - rewrite render_cons. apply (dotted_app $"#'"). apply IH'; [simpl; lia|eauto].
    - destruct Hr. by left. }
  rewrite dots_step. destruct i as [c| |]; [| |by destruct Hl; left].
  2:{ rewrite dots_hash, !render_cons. apply (dotted_app $"#'"). by apply IH'. }
  unfold dots_eq. rewrite !is_Ch.
  destruct mode; repeat (case_if; prop_tests); rewrite !render_cons; cbn [item_text app];
    try (apply dotted_char; first [by apply IH' | by apply Hesc]);
    match goal with H : isch _ (head r) = true |- _ => rewrite (isch_render _ [] _ _ H) end;
    try (by do 2 apply dotted_char; apply IH'; eauto);
    try match goal with H : isch _ (head (tail r)) = true |- _ => rewrite (isch_render _ [] _ _ H) end;
    subst.
  - do 3 apply dotted_char. by apply IH'; eauto.
  - apply dotted_dots; [by apply IH'; eauto|]. apply isch_dot_peek; eauto.
Qed.

Lemma dotted_spaced s prev mode : dotted s (spaced_from prev mode s).
Proof.
  rewrite <- (render_hash_items s prev []) at 1. apply dotted_items, hash_items_no_dots.
Qed.

(** Text without blanks at the head of the new text was there before. *)
Lemma dotted_prefix e s s' : " "%char ∉ e → dotted s s' → e `prefix_of` s' → e `prefix_of` s.
Proof.
  induction e as [|x e IH] in s, s' |- *; intros He Hd Hp; [apply prefix_nil|].
  apply not_elem_of_cons in He as [Hx He]. destruct Hd as [|c s s' Hd|s s' Hd _].
  - done.
  - pose proof (prefix_cons_inv_1 _ _ _ _ Hp) as ->. apply prefix_cons, (IH _ s'); [done..|].
    by eapply prefix_cons_inv_2.
  - by apply prefix_cons_inv_1 in Hp.
Qed.

Lemma dotted_peek p s s' : dotted s s' → p " "%char = false → p (peek s) = false → p (peek s') = false.
Proof. by intros []. Qed.

Lemma dotted_peek_other s s' x : dotted s s' → x ≠ " "%char → peek s ≠ x → peek s' ≠ x.
Proof. by intros []. Qed.

Lemma dotted_peekNext p x s s' :
  dotted s s' → p " "%char = false → x ≠ " "%char →
  (peek s = x → p (peekNext s) = false) → peek s' = x → p (peekNext s') = false.
Proof.
  intros [|c t t' Ht|t t' Ht _] Hp Hx Hn Hs; [by apply Hn| |by cbn in Hs; subst].
  by apply (dotted_peek p t t'); [|done|apply Hn].
Qed.

Lemma longest_dotted t s s' :
  dotted s s' → longest_operator t (t ++ s) → longest_operator t (t ++ s').
Proof.
  intros Hd (Ht & _ & Hmax). split_and!; [done|by apply prefix_app_r|].
  intros op Hop [k Hk]. destruct (decide (length op ≤ length t)%nat) as [|Hlen]; [done|exfalso].
  assert (∃ e, op = t ++ e ∧ e `prefix_of` s') as (e & -> & He).
  { exists (drop (length t) op). pose proof (f_equal (take (length t)) Hk) as H1.
    pose proof (f_equal (drop (length t)) Hk) as H2.
    rewrite take_app_length in H1. rewrite drop_app_length in H2.
    rewrite take_app_le in H1 by lia. rewrite drop_app_le in H2 by lia.
    split; [rewrite H1 at 1; by rewrite take_drop|by exists k]. }
  assert (" "%char ∉ t ++ e) as Hb.
  { assert (Forall (λ t, " "%char ∉ t) operators) as Hall by decided.
    rewrite Forall_forall in Hall. auto. }
  apply dotted_prefix with (s := s) in He; [|intros Hx; apply Hb, elem_of_app; by right|done].
  specialize (Hmax _ Hop (prefix_app t _ _ He)). rewrite length_app in Hmax, Hlen. lia.
Qed.

(** A lexeme stays one before the new text. *)
Lemma lexeme_dotted d ty v src post post' :
  lexeme d ty v src post → dotted post post' → lexeme d ty v src post'.
Proof.
  intros Hl Hd. destruct Hl as [c t post Hc Ht Hp|t post Hne Ht Hp Hdot Hx|a b post Ha Hb Hne Hp
    |x h post Hx Hh Hne Hp|t post Hne Ht Hp|post Hp|v s post Hs|c post Hc|e post
    |t ls post Hne Ht Hat Hls|t post Hl Hp|c t post -> Hc Ht Hp Hq|post ->];
    try (apply (dotted_peek _ _ _ Hd) in Hp; [|done]).
  - by apply lexeme_word.
  - apply lexeme_decimal; [done|done|done| |].
    + by apply (dotted_peekNext _ _ _ _ Hd).
    + intros ->. intros [Hx'|Hx']; (eapply (dotted_peekNext _ _ _ _ Hd); [done| | |exact Hx']; [done|]); auto.
  - by apply lexeme_float.
  - by apply lexeme_hex.
  - by apply lexeme_param.
  - by apply lexeme_dollar.
  - by apply lexeme_string.
  - by apply lexeme_char.
  - by apply lexeme_char_escape.
  - by apply lexeme_heredoc.
  - apply lexeme_operator; [by apply (longest_dotted _ _ _ Hd)|].
    intros E. by apply (dotted_peek _ _ _ Hd), Hp.
  - apply lexeme_quoted; [done..|]. intros E. apply (dotted_peek_other _ _ _ Hd); auto.
  - by apply lexeme_hash_quote.
Qed.

(** ** Masking along the lexemes *)

Lemma hash_items_char prev c s :
  masked_hash prev c (peek s) = false → hash_items prev (c :: s) = Ch c :: hash_items (Some c) s.
Proof. destruct s as [|q s]; [done|]. intros H. change (peek (q :: s)) with q in H. rewrite hash_items_step. by rewrite H. Qed.

Lemma hash_items_head prev s x : meaningful x = true → isch x (head (hash_items prev s)) = Ascii.eqb (peek s) x.
Proof.
  intros Hx. rewrite (isch_peek kHashQuoteMarker [] x) by (done || apply hash_items_no_dots).
  assert (x ∈ ["/"; "*"; "."]%char) as Hin by by apply one_of_elem.
  rewrite <- mask_hash_items. destruct s as [|c [|q s]]; [done|done|].
  rewrite mask_hash_step. destruct (masked_hash prev c q) eqn:E; [|done].
  unfold masked_hash in E. prop_tests. subst. by split_in Hin.
Qed.

Lemma hash_items_tail prev c s : c ≠ "#"%char → tail (hash_items prev (c :: s)) = hash_items (Some c) s.
Proof.
  intros Hc. rewrite hash_items_char; [done|]. unfold masked_hash. by rewrite (ascii_eqb_neq c).
Qed.

(** A masked hash is two characters of text, in every mode. *)
Lemma spaced_hash prev mode q s :
  masked_hash prev "#" q = true →
  spaced_from prev mode ("#" :: q :: s)%char = "#"%char :: q :: spaced_from (Some SQ) mode s.
Proof.
  intros H. unfold spaced_from. rewrite hash_items_step, H, dots_step, dots_hash, render_cons.
  unfold masked_hash in H. prop_tests. by subst.
Qed.

Lemma masked_hash_inv prev c q : masked_hash prev c q = true → c = "#"%char ∧ q = SQ.
Proof. unfold masked_hash. intros. by prop_tests. Qed.

Lemma not_masked prev c q : c ≠ "#"%char → masked_hash prev c q = false.
Proof. intros H. unfold masked_hash. by rewrite (ascii_eqb_neq c). Qed.

Lemma not_masked_next prev c q : q ≠ SQ → masked_hash prev c q = false.
Proof. intros H. unfold masked_hash. by rewrite (ascii_eqb_neq q), andb_false_r. Qed.

Lemma spaced_step prev mode c s :
  masked_hash prev c (peek s) = false →
  spaced_from prev mode (c :: s) = render $"#'" $" .. " (dots_eq mode (Ch c) (hash_items (Some c) s)).
Proof. intros H. unfold spaced_from. by rewrite hash_items_char, dots_step. Qed.

(** A character that keeps the mode. *)
Lemma spaced_keep prev mode c s :
  masked_hash prev c (peek s) = false →
  match mode with
  | Code => one_of c [QUOTE; SQ]%char = false ∧ (c = "/"%char → peek s ≠ "/"%char ∧ peek s ≠ "*"%char) ∧
            (c = "."%char → peek s ≠ "."%char)
  | LineComment => c ≠ NL
  | BlockComment => c = "*"%char → peek s ≠ "/"%char
  | DQuote => c ≠ BACKSLASH ∧ c ≠ QUOTE
  | SQuote => c ≠ BACKSLASH ∧ c ≠ SQ
  end →
  spaced_from prev mode (c :: s) = c :: spaced_from (Some c) mode s.
Proof.
  intros Hm Hk. rewrite spaced_step by done. unfold dots_eq. rewrite !is_Ch.
  rewrite !hash_items_head by done.
  destruct mode.
  - destruct Hk as (Hq & Hsl & Hdot). unfold one_of in Hq. simpl in Hq. prop_tests.
    rewrite (ascii_eqb_neq c QUOTE), (ascii_eqb_neq c SQ) by done.
    destruct (Ascii.eqb c "/") eqn:Hc; prop_tests.
    { destruct (Hsl Hc). rewrite !ascii_eqb_neq by done. subst. done. }
    destruct (Ascii.eqb c ".") eqn:Hc'; prop_tests; [|done]. simpl. rewrite (ascii_eqb_neq (peek s)) by auto. by subst.
  - destruct Hk. by rewrite !ascii_eqb_neq.
  - destruct Hk. by rewrite !ascii_eqb_neq.
  - by rewrite !ascii_eqb_neq.
  - destruct (Ascii.eqb c "*") eqn:H1; [|done]. prop_tests. simpl. rewrite (ascii_eqb_neq (peek s)) by auto. done.
Qed.

(** A text that keeps the mode, possibly with masked hashes inside. *)
Lemma spaced_walk mode (ok : bytes → Prop) body s prev :
  mode ≠ Code → mode ≠ SQuote → peek s ≠ SQ →
  (∀ c b, ok (c :: b) → ok b) →
  (∀ c b, ok (c :: b) → match mode with
     | LineComment => c ≠ NL
     | BlockComment => c = "*"%char → peek (b ++ s) ≠ "/"%char
     | _ => c ≠ BACKSLASH ∧ c ≠ QUOTE end) →
  ok body → ∃ prev', spaced_from prev mode (body ++ s) = body ++ spaced_from prev' mode s.
Proof.
  intros Hm1 Hm2 Hs Htail Hok. revert prev.
  induction body as [|c|c q b IH1 IH2] using bytes_ind2; intros prev Hb; [by exists prev| |].
  - exists (Some c). apply spaced_keep; [by apply not_masked_next|].
    specialize (Hok c [] Hb). by destruct mode.
  - destruct (masked_hash prev c q) eqn:E.
    + destruct (masked_hash_inv _ _ _ E) as [-> ->].
      destruct (IH2 (Some SQ)) as (p & Hp); [by eapply Htail, Htail|].
      exists p. cbn [app]. by rewrite spaced_hash, Hp by done.
    + destruct (IH1 (Some c)) as (p & Hp); [by eapply Htail|].
      exists p. cbn [app] in *. rewrite spaced_keep; [by rewrite Hp|done|].
      specialize (Hok c (q :: b) Hb). by destruct mode.
Qed.

(** An escape inside a string keeps the mode. *)
Lemma spaced_escape prev mode e s :
  mode = DQuote ∨ mode = SQuote →
  (masked_hash (Some BACKSLASH) e (peek s) = false ∧
   spaced_from prev mode (BACKSLASH :: e :: s) = BACKSLASH :: e :: spaced_from (Some e) mode s) ∨
  (∃ t, s = SQ :: t ∧ e = "#"%char ∧
   spaced_from prev mode (BACKSLASH :: e :: s) = BACKSLASH :: e :: SQ :: spaced_from (Some SQ) mode t).
Proof.
  intros Hmode. rewrite spaced_step by by apply not_masked.
  destruct (masked_hash (Some BACKSLASH) e (peek s)) eqn:E; [right|left; split; [done|]].
  - destruct (masked_hash_inv _ _ _ E) as [-> Hq]. destruct s as [|q t]; [done|].
    change (q = SQ) in Hq. subst q. exists t. split_and!; [done..|].
    change (peek (SQ :: t)) with SQ in E. rewrite hash_items_step, E. unfold dots_eq. rewrite !is_Ch.
    destruct Hmode as [-> | ->]; done.
  - rewrite hash_items_char by done. unfold dots_eq. rewrite !is_Ch.
    destruct Hmode as [-> | ->]; done.
Qed.

(** *** Gaps *)

Lemma spaced_line_comment body s prev :
  NL ∉ body → s = [] ∨ peek s = NL →
  ∃ p, spaced_from prev Code ($"//" ++ body ++ s) = $"//" ++ body ++ spaced_from p LineComment s.
Proof.
  intros Hb Hs.
  destruct (spaced_walk LineComment (λ b, NL ∉ b) body s (Some "/"%char)) as (p & Hp); [done|done| | | |done|].
  - by destruct Hs as [-> | ->].
  - by intros c b [_ ?]%not_elem_of_cons.
  - intros c b [? _]%not_elem_of_cons. congruence.
  - exists p. rewrite <- Hp. change ($"//" ++ body ++ s) with ("/"%char :: "/"%char :: body ++ s).
    rewrite spaced_step by by apply not_masked. unfold dots_eq. rewrite !is_Ch, !hash_items_head by done.
    change (peek ("/"%char :: body ++ s)) with "/"%char. cbn [Ascii.eqb Bool.eqb andb].
    rewrite hash_items_tail by done. done.
Qed.

Lemma spaced_block_comment body s prev :
  no_close body → s = [] ∨ peek s = "*"%char →
  ∃ p, spaced_from prev Code ($"/*" ++ body ++ s) = $"/*" ++ body ++ spaced_from p BlockComment s.
Proof.
  intros Hb Hs.
  destruct (spaced_walk BlockComment no_close body s (Some "*"%char)) as (p & Hp); [done|done| | | |done|].
  - by destruct Hs as [-> | ->].
  - apply no_close_cons.
  - intros c b Hc -> Hp. destruct b as [|x b]; [by destruct Hs as [-> | Hs]; simpl in Hp; rewrite ?Hs in Hp|].
    change (x = "/"%char) in Hp. subst. by apply (Hc [] b).
  - exists p. rewrite <- Hp. change ($"/*" ++ body ++ s) with ("/"%char :: "*"%char :: body ++ s).
    rewrite spaced_step by by apply not_masked. unfold dots_eq. rewrite !is_Ch, !hash_items_head by done.
    change (peek ("*"%char :: body ++ s)) with "*"%char. cbn [Ascii.eqb Bool.eqb andb].
    rewrite hash_items_tail by done. done.
Qed.

Lemma blank_plain c :
  is_blank c = true → c ≠ "#"%char ∧ one_of c [QUOTE; SQ]%char = false ∧ c ≠ "/"%char ∧ c ≠ "."%char.
Proof. intros H. split_and!; [..|]; destruct c as [[] [] [] [] [] [] [] []]; done. Qed.

Lemma spaced_blank c s prev :
  is_blank c = true → spaced_from prev Code (c :: s) = c :: spaced_from (Some c) Code s.
Proof.
  intros H. destruct (blank_plain c H) as (? & ? & ? & ?).
  by apply spaced_keep; [apply not_masked|].
Qed.

Lemma spaced_line_end t p q : spaced_from p LineComment (NL :: t) = spaced_from q Code (NL :: t).
Proof.
  rewrite (spaced_blank NL t q) by done. rewrite spaced_step by by apply not_masked.
  unfold dots_eq. by rewrite !is_Ch.
Qed.

Lemma spaced_block_end t p :
  spaced_from p BlockComment ($"*/" ++ t) = $"*/" ++ spaced_from (Some "/"%char) Code t.
Proof.
  change ($"*/" ++ t) with ("*"%char :: "/"%char :: t).
  rewrite spaced_step by by apply not_masked. unfold dots_eq. rewrite !is_Ch, !hash_items_head by done.
  change (peek ("/"%char :: t)) with "/"%char. cbn [Ascii.eqb Bool.eqb andb].
  by rewrite hash_items_tail.
Qed.

Lemma spaced_gap g s prev : gap g → ∃ p, spaced_from prev Code (g ++ s) = g ++ spaced_from p Code s.
Proof.
  intros Hg. revert prev. induction Hg as [|c g Hc _ IH|body g Hb _ IH|body g Hb _ IH]; intros prev.
  - by exists prev.
  - destruct (IH (Some c)) as (p & Hp). exists p. simpl app. by rewrite spaced_blank, Hp.
  - destruct (spaced_line_comment body (NL :: g ++ s) prev Hb) as (p & Hp); [by right|].
    destruct (IH p) as (p' & Hp'). exists p'. rewrite <- !app_assoc.
    change ((NL :: g) ++ s) with (NL :: g ++ s) in *. rewrite Hp, (spaced_line_end _ p p), Hp'. done.
  - destruct (spaced_block_comment body ($"*/" ++ g ++ s) prev Hb) as (p & Hp); [by right|].
    destruct (IH (Some "/"%char)) as (p' & Hp'). exists p'. rewrite <- !app_assoc.
    by rewrite Hp, spaced_block_end, Hp'.
Qed.

Lemma spaced_trailing g prev : trailing g → spaced_from prev Code g = g.
Proof.
  assert (∀ p m, spaced_from p m [] = []) as Hnil by by intros p []. 
  intros [h Hh|h body Hh Hb|h body Hh Hb].
  - destruct (spaced_gap h [] prev Hh) as (p & Hp). rewrite app_nil_r, Hnil in Hp. by rewrite app_nil_r in Hp.
  - destruct (spaced_gap h ($"//" ++ body) prev Hh) as (p & ->). f_equal.
    destruct (spaced_line_comment body [] p Hb) as (q & Hq); [by left|].
    by rewrite Hnil, !app_nil_r in Hq.
  - destruct (spaced_gap h ($"/*" ++ body) prev Hh) as (p & ->). f_equal.
    destruct (spaced_block_comment body [] p Hb) as (q & Hq); [by left|].
    by rewrite Hnil, !app_nil_r in Hq.
Qed.

(** *** Lexemes *)

(** A character without meaning for the masking of code. *)
Definition code_plain (c : ascii) : bool := negb (one_of c ["#"; "/"; QUOTE; SQ; "."]%char).

Lemma spaced_plain u s prev :
  forallb code_plain u = true → ∃ p, spaced_from prev Code (u ++ s) = u ++ spaced_from p Code s.
Proof.
  induction u as [|c u IH] in prev |- *; intros Hu; [by exists prev|].
  simpl in Hu. apply andb_true_iff in Hu as [Hc Hu]. destruct (IH (Some c) Hu) as (p & Hp).
  exists p. cbn [app]. rewrite <- Hp. unfold code_plain, one_of in Hc. simpl in Hc. prop_tests.
  apply spaced_keep; [by apply not_masked|]. split_and!; [|done..].
  unfold one_of. simpl. by rewrite !ascii_eqb_neq.
Qed.

Lemma forallb_impl {A} (p q : A → bool) l : (∀ x, p x = true → q x = true) → forallb p l = true → forallb q l = true.
Proof. rewrite !forallb_Forall. intros H Hl. eapply Forall_impl; [exact Hl|exact H]. Qed.

Lemma ident_plain c : ident_char c = true → code_plain c = true.
Proof. by destruct c as [[] [] [] [] [] [] [] []]. Qed.
Lemma digit_code_plain c : is_digit c = true → code_plain c = true.
Proof. by destruct c as [[] [] [] [] [] [] [] []]. Qed.
Lemma xdigit_plain c : is_xdigit c = true → code_plain c = true.
Proof. by destruct c as [[] [] [] [] [] [] [] []]. Qed.

(** A dot that is not followed by another one. *)
Lemma spaced_dot s prev : peek s ≠ "."%char → spaced_from prev Code ("." :: s)%char = "."%char :: spaced_from (Some "."%char) Code s.
Proof. intros H. by apply spaced_keep; [apply not_masked|]. Qed.

Lemma spaced_string v body s prev :
  string_text v body →
  ∃ p, spaced_from prev DQuote (body ++ QUOTE :: s) = body ++ QUOTE :: spaced_from p Code s.
Proof.
  assert (∀ p, spaced_from p DQuote (QUOTE :: s) = QUOTE :: spaced_from (Some QUOTE) Code s) as Hend.
  { intros p. rewrite spaced_step by by apply not_masked. unfold dots_eq. by rewrite !is_Ch. }
  revert v prev. induction body as [body IH] using (induction_ltof1 _ (@length ascii)).
  unfold ltof in IH. intros v prev H. destruct H as [|c v b Hq Hb H|e v b H].
  - eexists. apply Hend.
  - destruct (masked_hash prev c (peek (b ++ QUOTE :: s))) eqn:E.
    + destruct (masked_hash_inv _ _ _ E) as [-> Hsq]. destruct H as [|q v b Hq' Hb' H|e v b H]; [done| |done].
      change (q = SQ) in Hsq. subst q. destruct (IH b ltac:(simpl; lia) v (Some SQ) H) as (p & Hp).
      exists p. cbn [app]. by rewrite spaced_hash, Hp.
    + destruct (IH b ltac:(simpl; lia) v (Some c) H) as (p & Hp).
      exists p. cbn [app]. by rewrite spaced_keep, Hp.
  - cbn [app]. destruct (spaced_escape prev DQuote e (b ++ QUOTE :: s)) as [[_ ->]|(t & Ht & -> & ->)]; [by left| |].
    + destruct (IH b ltac:(simpl; lia) v (Some e) H) as (p & Hp). exists p. by rewrite Hp.
    + destruct H as [|q v b Hq' Hb' H|e v b H]; [done| |done]. injection Ht as -> <-.
      destruct (IH b ltac:(simpl; lia) v (Some SQ) H) as (p & Hp). exists p. by rewrite Hp.
Qed.

(** A lexeme that masking leaves alone: not a heredoc, which has no quotes,
    nor one of two character literals that look like the start of others. *)
Definition maskable (src : bytes) : Prop :=
  peek src ≠ "@"%char ∧ src ≠ [SQ; SQ; SQ] ∧ src ≠ [SQ; BACKSLASH; "#"%char; SQ].

Definition respaced (src : bytes) : bytes := if bool_decide (src = $"..") then $" .. " else src.

Lemma odd_operators t :
  t ∈ operators → forallb code_plain t = false → t ∈ [$"/="; $"..."; $".."; $"/"; $"."].
Proof. intros Ht. unfold operators in Ht. cbn in Ht. split_in Ht; intros H; try discriminate H; decided. Qed.

Lemma spaced_operator t post prev :
  longest_operator t (t ++ post) → token_start (t ++ post) →
  ∃ p, spaced_from prev Code (t ++ post) = respaced t ++ spaced_from p Code post.
Proof.
  intros Hl Hst. pose proof (proj1 Hl) as Ht.
  destruct (forallb code_plain t) eqn:E.
  { unfold respaced. rewrite bool_decide_eq_false_2 by by intros ->. by apply spaced_plain. }
  assert (t ≠ $"." ∨ peek post ≠ "."%char) as Hdot.
  { destruct (decide (t = $".")) as [->|]; [right|by left]. intros Hp.
    destruct post as [|c post]; [done|]. change (c = "."%char) in Hp. subst c.
    destruct Hl as (_ & _ & Hmax). specialize (Hmax $".." ltac:(decided) ltac:(by exists post)). simpl in Hmax. lia. }
  assert (t ≠ $".." ∨ peek post ≠ "."%char) as Hdots.
  { destruct (decide (t = $"..")) as [->|]; [right|by left]. intros Hp.
    destruct post as [|c post]; [done|]. change (c = "."%char) in Hp. subst c.
    destruct Hl as (_ & _ & Hmax). specialize (Hmax $"..." ltac:(decided) ltac:(by exists post)). simpl in Hmax. lia. }
  apply odd_operators in E; [|done]. clear Hl Ht. unfold respaced. split_in E.
  - exists (Some "="%char). cbn [app list_ascii_of_string].
    rewrite !spaced_keep; [done|by apply not_masked|done|by apply not_masked|done].
  - exists (Some "."%char). rewrite bool_decide_eq_false_2 by done. cbn [app list_ascii_of_string].
    rewrite spaced_step by by apply not_masked. unfold dots_eq. rewrite !is_Ch, !hash_items_head by done.
    change (peek ("." :: "." :: post)%char) with "."%char. cbn [Ascii.eqb Bool.eqb andb].
    rewrite hash_items_tail by done. rewrite (hash_items_head _ _ ".") by done.
    change (peek ("." :: post)%char) with "."%char. cbn [Ascii.eqb Bool.eqb andb].
    by rewrite hash_items_tail.
  - destruct Hdots as [|Hp]; [done|]. exists (Some "."%char). rewrite bool_decide_eq_true_2 by done.
    cbn [app list_ascii_of_string].
    rewrite spaced_step by by apply not_masked. unfold dots_eq. rewrite !is_Ch, !hash_items_head by done.
    change (peek ("." :: post)%char) with "."%char. cbn [Ascii.eqb Bool.eqb andb].
    rewrite hash_items_tail by done. rewrite (hash_items_head _ _ ".") by done.
    by rewrite (ascii_eqb_neq (peek post)).
  - destruct Hst as (c & r & [= <- <-] & _ & Hc). exists (Some "/"%char). rewrite bool_decide_eq_false_2 by done.
    cbn [app list_ascii_of_string]. apply spaced_keep; [by apply not_masked|]. split_and!; [done|done|done].
  - destruct Hdot as [|Hp]; [done|]. exists (Some "."%char). rewrite bool_decide_eq_false_2 by done.
    by apply spaced_dot.
Qed.

Lemma spaced_open_string s prev :
  spaced_from prev Code (QUOTE :: s) = QUOTE :: spaced_from (Some QUOTE) DQuote s.
Proof. rewrite spaced_step by by apply not_masked. unfold dots_eq. by rewrite !is_Ch. Qed.

Lemma spaced_open_char s prev : spaced_from prev Code (SQ :: s) = SQ :: spaced_from (Some SQ) SQuote s.
Proof. rewrite spaced_step by by apply not_masked. unfold dots_eq. by rewrite !is_Ch. Qed.

Lemma spaced_close_char s prev : spaced_from prev SQuote (SQ :: s) = SQ :: spaced_from (Some SQ) Code s.
Proof. rewrite spaced_step by by apply not_masked. unfold dots_eq. by rewrite !is_Ch. Qed.

Lemma spaced_char prev c post :
  c ≠ BACKSLASH → c ≠ SQ →
  spaced_from prev Code (SQ :: c :: SQ :: post) = SQ :: c :: SQ :: spaced_from (Some SQ) Code post.
Proof.
  intros Hb Hq. rewrite spaced_open_char, spaced_keep, spaced_close_char; [done| |done].
  unfold masked_hash. by rewrite andb_false_r.
Qed.

Lemma spaced_char_escape prev e post :
  e ≠ "#"%char →
  spaced_from prev Code (SQ :: BACKSLASH :: e :: SQ :: post) =
  SQ :: BACKSLASH :: e :: SQ :: spaced_from (Some SQ) Code post.
Proof.
  intros He. rewrite spaced_open_char.
  destruct (spaced_escape (Some SQ) SQuote e (SQ :: post)) as [[_ ->]|(t & _ & -> & _)]; [by right| |done].
  by rewrite spaced_close_char.
Qed.

(** Masking changes a lexeme only if it is [..]. *)
Lemma spaced_lexeme d ty v src post prev :
  d ≠ LdMud → lexeme d ty v src post → maskable src → token_start (src ++ post) →
  ∃ p, spaced_from prev Code (src ++ post) = respaced src ++ spaced_from p Code post.
Proof.
  intros Hd Hl (Hat & Hq3 & Hq4) Hst.
  assert (∀ u, forallb code_plain u = true →
    ∃ p, spaced_from prev Code (u ++ post) = respaced u ++ spaced_from p Code post) as Hplain.
  { intros u Hu. unfold respaced. rewrite bool_decide_eq_false_2 by by intros ->. by apply spaced_plain. }
  destruct Hl as [c t post Hc Ht Hp|t post Hne Ht Hp Hdot Hx|a b post Ha Hb Hne Hp
    |x h post Hx Hh Hne Hp|t post Hne Ht Hp|post Hp|v s post Hs|c post Hc|e post
    |t ls post Hne Ht Hat' Hls|t post Hl Hp|c t post -> Hc Ht Hp Hq|post ->].
  - apply Hplain. apply (forallb_impl ident_char); [apply ident_plain|by apply word_chars].
  - apply Hplain. by apply (forallb_impl is_digit); [apply digit_code_plain|].
  - destruct b as [|c b]; [done|].
    assert (respaced (a ++ $"." ++ c :: b) = a ++ $"." ++ c :: b) as ->.
    { unfold respaced. apply bool_decide_eq_false_2 || rewrite bool_decide_eq_false_2; [done|].
      intros E. simpl in Hb. apply andb_true_iff in Hb as [Hc _].
      destruct a as [|x [|y a]]; simplify_eq/=. }
    destruct (spaced_plain a ($"." ++ (c :: b) ++ post) prev) as (p & Hp1).
    { by apply (forallb_impl is_digit); [apply digit_code_plain|]. }
    destruct (spaced_plain (c :: b) post (Some "."%char)) as (q & Hp2).
    { by apply (forallb_impl is_digit); [apply digit_code_plain|]. }
    exists q. rewrite <- !app_assoc, Hp1. f_equal.
    change ($"." ++ (c :: b) ++ post) with ("."%char :: (c :: b) ++ post).
    rewrite spaced_dot, Hp2; [done|]. simpl in Hb. apply andb_true_iff in Hb as [Hc _].
    intros E. change (c = "."%char) in E. by subst.
  - apply Hplain. simpl. rewrite (forallb_impl is_xdigit code_plain) by (done || apply xdigit_plain).
    by destruct Hx as [-> | ->].
  - apply Hplain. simpl. by apply (forallb_impl is_digit); [apply digit_code_plain|].
  - by apply Hplain.
  - destruct (spaced_string v s post (Some QUOTE) Hs) as (p & Hp). exists p.
    unfold respaced. rewrite bool_decide_eq_false_2 by done.
    rewrite <- !app_assoc. cbn [app]. by rewrite spaced_open_string, Hp.
  - exists (Some SQ). unfold respaced. rewrite bool_decide_eq_false_2 by done. cbn [app].
    apply spaced_char; [done|]. by intros ->.
  - exists (Some SQ). unfold respaced. rewrite bool_decide_eq_false_2 by done. cbn [app].
    apply spaced_char_escape. by intros ->.
  - done.
  - by apply spaced_operator.
  - done.
  - done.
Qed.

Lemma source_blank P d n s ts : source_where P d n s ts → source_where P d n (" "%char :: s) ts.
Proof.
  assert (∀ g n, bumps (" "%char :: g) n = bumps g n) as Hb by done.
  intros [m g Hg|m g ty v src post ts' Hg Hst Hl HP Hs].
  - rewrite <- Hb. apply source_end. destruct Hg as [h Hh|h body Hh Hb'|h body Hh Hb'].
    + by apply trailing_gap, gap_blank.
    + by apply (trailing_line (" "%char :: h)); [apply gap_blank|].
    + by apply (trailing_block (" "%char :: h)); [apply gap_blank|].
  - rewrite <- Hb. rewrite <- (Hb g m) in Hs.
    by apply (source_token P d m (" "%char :: g)); [apply gap_blank|..].
Qed.

Lemma dotted_token_start src post post' :
  src ≠ [] → dotted post post' → token_start (src ++ post) → token_start (src ++ post').
Proof.
  intros Hne Hd (c & r & Heq & Hb & Hc). destruct src as [|x src]; [done|].
  injection Heq as -> <-. exists c, (src ++ post'). split_and!; [done..|].
  intros Hs. destruct (Hc Hs) as [H1 H2]. destruct src as [|y src]; [|done].
  split; by apply (dotted_peek_other _ _ _ Hd).
Qed.

Lemma gap_app g h : gap g → gap h → gap (g ++ h).
Proof.
  intros Hg Hh. induction Hg as [|c g Hc Hg IH|body g Hb Hg IH|body g Hb Hg IH]; [done|..].
  - by apply (gap_blank c (g ++ h)).
  - rewrite <- !app_assoc. by apply (gap_line body (g ++ h)).
  - rewrite <- !app_assoc. by apply (gap_block body (g ++ h)).
Qed.

Lemma lexeme_dots d ty v post post' :
  lexeme d ty v $".." post → lexeme d ty v $".." ($" " ++ post').
Proof.
  intros H. assert (ty = TSymbol ∧ v = $"..") as [-> ->].
  { remember $".." as src eqn:E.
    destruct H as [c t post Hc _ _|t post Hne Ht _ _ _|a b post Ha Hb Hne _| | | | | | | | | |];
      simplify_eq/=; try done.
    exfalso. destruct b as [|x b]; [done|]. apply andb_true_iff in Hb as [Hx _].
    destruct a as [|y [|z a]]; simplify_eq/=. }
  apply lexeme_operator; [|done]. split_and!; [decided|by eexists|].
  intros op Hop [k Hk]. unfold operators in Hop. cbn in Hop. split_in Hop; simpl; try lia; done.
Qed.

Lemma source_spaced d n s ts prev :
  d ≠ LdMud → source_where maskable d n s ts → source d n (spaced_from prev Code s) ts.
Proof.
  intros Hd H. revert prev.
  induction H as [n g Hg|n g ty v src post ts Hg Hst Hl Hm Hs IH]; intros prev.
  - rewrite spaced_trailing by done. by apply source_end.
  - destruct (spaced_gap g (src ++ post) prev Hg) as (p & ->).
    destruct (spaced_lexeme d ty v src post p Hd Hl Hm Hst) as (q & ->).
    pose proof (dotted_spaced post q Code) as Hdot. specialize (IH q).
    unfold respaced. case_bool_decide as Hdots; [subst src|].
    + assert (bumps (g ++ $" ") n = bumps g n) as Hn by by rewrite bumps_app.
      change ($" .. ") with ($" " ++ $".." ++ $" "). rewrite <- !app_assoc, (app_assoc g).
      rewrite <- Hn in *. apply source_token; [|by eexists _, _|by eapply lexeme_dots|done|].
      * apply gap_app; [done|]. by apply gap_blank, gap_nil.
      * by apply source_blank.
    + apply source_token; [done| |by eapply lexeme_dotted|done|done].
      apply (dotted_token_start src post); [by eapply lexeme_nonempty|done|done].
Qed.

(** C23: masking the [#'] and [..] of a source for the system preprocessor and
    unmasking them after it does not change what the lexer reads: the tokens
    and their lines are those of the source itself, in the dialects without
    quoted symbols, for every source without the letters of the markers whose
    lexemes are maskable. *)
Theorem masking_transparent d s ts :
  d ≠ LdMud → mark_free s → source_where maskable d 1 s ts →
  tokenize d s = Ok ts ∧ tokenize d (unmaskAfterSystemCpp (maskForSystemCpp s)) = Ok ts.
Proof.
  intros Hd Hs H. split.
  - apply (tokenize_from_source _ _ _ _ _ H). lia.
  - rewrite unmask_mask by done. by apply tokenize_reads_grammar, source_spaced.
Qed.

Definition masking_sample : bytes := $"0..5".

Lemma masking_sample_source :
  source_where maskable FluffOS 1 masking_sample
    [mkToken TNumber $"0" 1; mkToken TSymbol $".." 1; mkToken TNumber $"5" 1; mkToken TEnd [] 1].
Proof.
  apply (source_token maskable FluffOS 1 [] TNumber $"0" $"0" $"..5"); [constructor| | |done|].
  { by eexists _, _. }
  { by apply lexeme_decimal. }
  apply (source_token maskable FluffOS 1 [] TSymbol $".." $".." $"5"); [constructor| | |done|].
  { by eexists _, _. }
  { apply lexeme_operator; [|done]. split_and!; [decided|by eexists|].
    intros op Hop [k Hk]. unfold operators in Hop. cbn in Hop. split_in Hop; simpl; try lia; done. }
  apply (source_token maskable FluffOS 1 [] TNumber $"5" $"5" []); [constructor| | |done|].
  { by eexists _, _. }
  { by apply lexeme_decimal. }
  apply (source_end maskable FluffOS 1 []), trailing_gap, gap_nil.
Qed.

Lemma mark_free_short s : (length s < 6)%nat → mark_free s.
Proof. intros H a b ->. rewrite !length_app in H. simpl in H. lia. Qed.

Lemma masking_transparent_witness :
  unmaskAfterSystemCpp (maskForSystemCpp masking_sample) = $"0 .. 5" ∧
  tokenize FluffOS (unmaskAfterSystemCpp (maskForSystemCpp masking_sample)) =
  Ok [mkToken TNumber $"0" 1; mkToken TSymbol $".." 1; mkToken TNumber $"5" 1; mkToken TEnd [] 1].
Proof.
  split; [vm_compute; reflexivity|].
  exact (proj2 (masking_transparent FluffOS masking_sample _ ltac:(discriminate)
                  (mark_free_short masking_sample ltac:(simpl; lia)) masking_sample_source)).
Defined.

(** The text of a heredoc is masked as if it were code: its [..] comes back
    with spaces, so the string the program sees is not the one written. *)
Example heredoc_dots_spaced :
  let src := $"@END" ++ [NL] ++ $"wait.." ++ [NL] ++ $"END" in
  tokenize FluffOS src =
    Ok [mkToken TString ($"wait.." ++ [NL]) 1; mkToken TEnd [] 3] ∧
  tokenize FluffOS (unmaskAfterSystemCpp (maskForSystemCpp src)) =
    Ok [mkToken TString ($"wait .. " ++ [NL]) 1; mkToken TEnd [] 3].
Proof. vm_compute. done. Qed.
