(* ===== verification/Ast.v ===== *)
(** * The syntax tree: [include/kjdmud/compiler/Ast.hpp]

    The nodes that a pointer to [AstNode] can point at are the constructors of
    one type, with the fields in the order of the source; a pointer that can
    be null is an option.  A [Block] member is a [Block] node.  The
    declarations of a program are records. *)

From S2P Require Import Prelude Doubles.

Inductive BinOp :=
  | Eq | Neq | Lt | Lte | Gt | Gte | Add | Or | And | Sub | Mul | Div | Mod
  | BitAnd | BitOr | BitXor | Shl | Shr.

Inductive UnaryOp := Not | Neg | BitNot.

Inductive IncDecOp := Inc | Dec.

#[export] Instance BinOp_eq_dec : EqDecision BinOp.
Proof. solve_decision. Defined.
#[export] Instance UnaryOp_eq_dec : EqDecision UnaryOp.
Proof. solve_decision. Defined.
#[export] Instance IncDecOp_eq_dec : EqDecision IncDecOp.
Proof. solve_decision. Defined.

Record Param := mkParam { param_type : bytes; param_name : bytes; param_isArray : bool }.

Inductive ast :=
  | StringLiteral (value : bytes)
  | IntLiteral (value : Z)
  | FloatLiteral (value : double)
  | NilLiteral
  | SymbolLiteralExpr (name : bytes)
  | VarRefExpr (name : bytes)
  | BinaryExpr (op : BinOp) (left right : ast)
  | CommaExpr (left right : ast)
  | UnaryExpr (op : UnaryOp) (operand : ast)
  | TernaryExpr (condition thenBranch elseBranch : ast)
  | CallExpr (callee : bytes) (args : list ast) (argIsSpread : list bool)
      (forceEfun parentCall : bool) (parentQualifier : bytes)
  | CallOtherExpr (target function : ast) (args : list ast) (argIsSpread : list bool)
  | SscanfExpr (target format : ast) (varNames : list bytes) (indexedTargets : list (option ast))
  | CatchExpr (guarded : ast)
  | ClosureLiteralExpr (functionName : bytes) (boundArgs : list ast) (forceEfun : bool)
  | InlineLambdaExpr (bodyExprs : list ast) (paramCount : Z) (boundValueExprs : list ast)
  | LambdaParamExpr (index : Z) (isBoundValue : bool)
  | ExprStmt (expr : ast)
  | ReturnStmt (expr : option ast)
  | VarDeclStmt (type : bytes) (isArray : bool) (name : bytes) (initializer : option ast)
  | AssignStmt (name : bytes) (value : ast)
  | AssignExpr (name : bytes) (value : ast) (isCompound : bool) (compoundOp : BinOp)
  | IncDecExpr (op : IncDecOp) (prefix : bool) (name : bytes)
      (indexTarget indexKey mapColumn : option ast)
  | ArrayLiteralExpr (elements : list ast) (elementIsSpread : list bool)
  | MappingLiteralExpr (entries : list (ast * list ast))
  | MemberNameMarker (name : bytes)
  | TypeCastExpr (className : bytes) (inner : ast)
  | NewClassExpr (className : bytes) (fieldInits : list (bytes * ast))
  | IndexExpr (target index : ast) (rangeEnd : option ast)
      (indexFromEnd rangeEndFromEnd : bool) (mapColumn : option ast)
  | IndexAssignStmt (target index value : ast) (isCompound : bool) (compoundOp : BinOp)
      (mapColumn : option ast)
  | IndexAssignExpr (target index value : ast) (isCompound : bool) (compoundOp : BinOp)
      (mapColumn : option ast)
  | Block (statements : list ast) (isRealScope : bool)
  | TimeExpressionExpr (body : ast)
  | IfStmt (condition thenBranch : ast) (elseBranch : option ast)
  | WhileStmt (condition body : ast)
  | DoWhileStmt (condition body : ast)
  | ForStmt (init condition update : option ast) (body : ast)
  | BreakStmt
  | ContinueStmt
  | CaseLabel (value rangeEnd : option ast)
  | SwitchStmt (subject : ast) (body : list ast)
  | ForeachStmt (varName : bytes) (declareVar hasValueVar : bool) (valueVarName : bytes)
      (declareValueVar : bool) (collection body : ast) (varClassType valueVarClassType : bytes)
  | AnonFunctionExpr (params : list Param) (isVarargs : bool) (body : ast).

Record FunctionDecl := mkFunctionDecl {
  returnType : bytes;
  returnTypeIsArray : bool;
  fn_name : bytes;
  fn_params : list Param;
  fn_isVarargs : bool;
  fn_body : option ast;
}.

Record ClassDeclStmt := mkClassDecl {
  class_name : bytes;
  memberNames : list bytes;
}.

Record ObjectVarDecl := mkObjectVarDecl {
  var_type : bytes;
  var_isArray : bool;
  var_name : bytes;
  var_isPrivate : bool;
  var_initializer : option ast;
}.

Record Program := mkProgram {
  functions : list FunctionDecl;
  objectVars : list ObjectVarDecl;
  inherits : list bytes;
  classes : list ClassDeclStmt;
}.

#[export] Instance eta_Program : Eta Program := λ p,
  mkProgram (functions p) (objectVars p) (inherits p) (classes p).
