(* ===== verification/Parser.v ===== *)
(** * The parser: [src/compiler/Parser.cpp], [include/kjdmud/compiler/Parser.hpp]

    The tokens and the position are kept as the tokens from the position on.
    The last token is the end token of the lexer, and [advance] never passes
    it, so there is always a token to look at.  A function that calls itself
    through an expression, an operand or a statement takes these three as
    arguments, where it has taken a token before; they are closed at the end by a depth that is one more than
    the number of tokens. *)

From S2P Require Import Prelude Doubles Config Lexer Ast.

(** ** State *)

Record pstate := mkPState {
  toks : list Token;
  lambdaParamMaxStack_ : list Z;           (** the innermost lambda first *)
  lambdaBoundValuesStack_ : list (list ast);
}.

#[export] Instance eta_pstate : Eta pstate := λ s,
  mkPState (toks s) (lambdaParamMaxStack_ s) (lambdaBoundValuesStack_ s).

Definition end_token : Token := mkToken TEnd [] 0.

Definition peekAt (offset : nat) (s : pstate) : Token :=
  match toks s !! offset with Some t => t | None => default end_token (last (toks s)) end.

Definition peek (s : pstate) : Token := peekAt 0 s.

Definition atEnd (s : pstate) : bool := bool_decide (type (peek s) = TEnd).

Definition advance : M pstate Token := λ s,
  (Ok (peek s), if atEnd s then s else s <| toks ::= tail |>).

Definition check (ty : TokenType) (s : pstate) : bool := negb (atEnd s) && bool_decide (type (peek s) = ty).

Definition checkText (t : bytes) (s : pstate) : bool :=
  negb (atEnd s) && bool_decide (type (peek s) ∈ [TSymbol; TKeyword]) && bool_decide (text (peek s) = t).

(** What a token at a distance says, whatever its type. *)
Definition textAt (offset : nat) (t : bytes) (s : pstate) : bool := bool_decide (text (peekAt offset s) = t).
Definition typeAt (offset : nat) (ty : TokenType) (s : pstate) : bool := bool_decide (type (peekAt offset s) = ty).

(** A test of the state. *)
Definition see (p : pstate → bool) : M pstate bool := λ s, (Ok (p s), s).

(** ** Errors *)

Definition quoted (t : bytes) : bytes := [QUOTE] ++ t ++ [QUOTE].

Definition at_token (s : pstate) : bytes :=
  $" at line " ++ to_string (line (peek s)) ++ $" (got " ++ quoted (text (peek s)) ++ $")".

Definition parse_error {A} (msg : bytes) : M pstate A := throw (LpcRuntimeError ($"parse error: " ++ msg)).

Definition expect (ty : TokenType) (context : bytes) : M pstate Token := λ s,
  if check ty s then advance s
  else parse_error ($"expected token type in " ++ context ++ at_token s) s.

Definition expectText (t context : bytes) : M pstate Token := λ s,
  if checkText t s then advance s
  else parse_error ($"expected " ++ quoted t ++ $" in " ++ context ++ at_token s) s.

(** [if (checkText(t)) { advance(); ... }]: whether it did. *)
Definition accept (t : bytes) : M pstate bool :=
  do* b := see (checkText t) in
  if b then do* _ := advance in ret true else ret false.

(** ** Loops

    A turn of a loop goes on with a new value or ends with a result.  Every
    turn that goes on takes a token, so the number of tokens is enough. *)

Fixpoint iterate {A B} (n : nat) (body : A → M pstate (A + B)) (a : A) : M pstate B :=
  match n with
  | O => lift OutOfFuel
  | S n =>
      do* r := body a in
      match r with inl a => iterate n body a | inr b => ret b end
  end.

Definition while {A B} (body : A → M pstate (A + B)) (a : A) : M pstate B := λ s,
  iterate (S (length (toks s))) body a s.

(** ** Types *)

Definition nonTypeKeywords : list bytes := [
  $"return"; $"if"; $"else"; $"while"; $"for"; $"do"; $"inherit"; $"break"; $"continue";
  $"foreach"; $"in"; $"switch"; $"case"; $"default";
  $"static"; $"private"; $"public"; $"protected"; $"nomask"; $"varargs";
  $"atomic"; $"nil"].

Definition isTypeKeyword (t : Token) : bool :=
  bool_decide (type t = TKeyword) && negb (bool_decide (text t ∈ nonTypeKeywords)).

Definition modifierKeywords : list bytes := [
  $"static"; $"private"; $"public"; $"protected"; $"nomask"; $"varargs"].

(** The type, and whether it is an array. *)
Definition TypeToken : Type := bytes * bool.

Record DeclPrefix := mkPrefix { dp_type : bytes; dp_isArray : bool; dp_name : bytes; dp_isPrivate : bool }.

Record ForeachVarSpec := mkForeachVar { fv_name : bytes; fv_isNewDecl : bool; fv_classType : bytes }.

(** The arguments, and the spread flags unless no argument is spread. *)
Definition ArgListResult : Type := list ast * list bool.

(** ** Operators *)

Definition kCompoundOps : list (bytes * BinOp) := [
  ($"+=", Add); ($"-=", Sub); ($"*=", Mul); ($"/=", Div); ($"%=", Mod);
  ($"|=", BitOr); ($"&=", BitAnd); ($"^=", BitXor); ($"<<=", Shl); ($">>=", Shr)].

(** The first of the operators that comes next. *)
Definition find_op (ops : list (bytes * BinOp)) (s : pstate) : option BinOp :=
  snd <$> List.find (λ o, checkText (fst o) s) ops.

(** The assignment operator that comes next: [isCompound], [compoundOp]. *)
Definition assign_op (s : pstate) : option (bool * BinOp) :=
  if checkText $"=" s then Some (false, Add) else (λ o, (true, o)) <$> find_op kCompoundOps s.

(** A level of left-associative operators. *)
Definition binary_loop (ops : list (bytes * BinOp)) (next : M pstate ast) : ast → M pstate ast :=
  while (λ lhs,
    do* s := get in
    match find_op ops s with
    | None => ret (inr lhs)
    | Some op =>
        do* _ := advance in
        do* rhs := next in
        ret (inl (BinaryExpr op lhs rhs))
    end).

Definition binary_level (ops : list (bytes * BinOp)) (next : M pstate ast) : M pstate ast :=
  do* lhs := next in binary_loop ops next lhs.

(** The target of an assignment or increment: a variable, or the target, key
    and column of an index without a range. *)
Inductive lvalue := LVar (name : bytes) | LIndex (target index : ast) (mapColumn : option ast).

Definition as_lvalue (e : ast) : option lvalue :=
  match e with
  | VarRefExpr name => Some (LVar name)
  | IndexExpr target index None _ _ mapColumn => Some (LIndex target index mapColumn)
  | _ => None
  end.

Definition inc_dec (op : IncDecOp) (prefix : bool) (l : lvalue) : ast :=
  match l with
  | LVar name => IncDecExpr op prefix name None None None
  | LIndex target index col => IncDecExpr op prefix [] (Some target) (Some index) col
  end.

Definition assign (l : lvalue) (value : ast) (op : bool * BinOp) : ast :=
  match l with
  | LVar name => AssignExpr name value (fst op) (snd op)
  | LIndex target index col => IndexAssignExpr target index value (fst op) (snd op) col
  end.

(** [s.rfind("class:", 0) == 0]: the name of the class. *)
Definition class_of (t : bytes) : bytes := default [] (strip_prefix $"class:" t).

(** ** Numbers *)

Definition hex_digit (c : ascii) : Z :=
  if is_digit c then code c - 48 else if code c <? 97 then code c - 55 else code c - 87.

(** [std::stoll(s, nullptr, 16)] of a text that starts with [0x]. *)
Definition stoll16 (s : bytes) : result Z :=
  let n := foldl (λ a c, 16 * a + hex_digit c) 0 (fst (span is_xdigit (drop 2 s))) in
  if in_i64 n then Ok n else Throw OutOfRange.

Definition isHex (raw : bytes) : bool :=
  match raw with
  | c :: x :: _ :: _ => Ascii.eqb c "0" && (Ascii.eqb x "x" || Ascii.eqb x "X")
  | _ => false
  end.

Definition number_literal (raw : bytes) : result ast :=
  if bool_decide ("."%char ∈ raw) then let* v := stod raw in Ok (FloatLiteral v)
  else let* n := if isHex raw then stoll16 raw else stoll raw in Ok (IntLiteral n).

Section Parser.
Context (dialect_ : LpcDialect).

Definition consumeArrayMarker : M pstate bool :=
  do* star := accept $"*" in
  if star then ret true
  else
    do* b := see (λ s, check TIdent s && textAt 0 $"array" s) in
    if b then do* _ := advance in ret true else ret false.

Definition isModifierKeyword (t : Token) : bool :=
  bool_decide (type t = TKeyword) &&
  (bool_decide (text t ∈ modifierKeywords) || (bool_decide (dialect_ = DGD) && bool_decide (text t = $"atomic"))).

Definition startsClassType (s : pstate) : bool :=
  bool_decide (dialect_ = FluffOS) && check TIdent s && textAt 0 $"class" s && typeAt 1 TIdent s.

Definition startsType (s : pstate) : bool :=
  if check TKeyword s && isTypeKeyword (peek s) && textAt 1 $"::" s then false
  else if check TKeyword s && isTypeKeyword (peek s) then true
  else if startsClassType s then true
  else if check TIdent s && textAt 0 $"array" s then
    typeAt 1 TIdent s || (typeAt 1 TSymbol s && textAt 1 $"*" s)
  else false.

Definition parseTypeToken (context : bytes) : M pstate TypeToken := λ s,
  (if startsClassType s then
     (do* _ := advance in
      do* t := advance in
      do* isArray := consumeArrayMarker in
      ret ($"class:" ++ text t, isArray))
   else if check TIdent s && textAt 0 $"array" s then
     (do* _ := advance in ret ($"mixed", true))
   else
     (do* t := expect TKeyword context in
      do* isArray := consumeArrayMarker in
      ret (text t, isArray))) s.

(** One parameter, and whether the list goes on. *)
Definition parse_param (params : list Param) : M pstate (list Param + list Param) :=
  do* ty := parseTypeToken $"function parameter type" in
  do* named := see (check TIdent) in
  do* name := if named then do* t := advance in ret (text t) else ret [] in
  let params := params ++ [mkParam (fst ty) name (snd ty)] in
  do* more := accept $"," in
  ret (if more then inl params else inr params).

(** The parameters, and whether the list ends in [...]. *)
Definition parseParamList : M pstate (list Param * bool) :=
  do* empty := see (checkText $")") in
  if empty then ret ([], false)
  else
    do* params := while parse_param [] in
    do* isVarargs := accept $"..." in
    ret (params, isVarargs).

(** ** Expressions *)

Section Recursion.
Context (parseExpr parseUnary' parseStatement' : M pstate ast).

(** An element of an argument list or array literal and its spread flag; the
    list goes on after a comma that is not the last thing before [close]. *)
Definition spread_element (close : bytes) (acc : list ast * list bool) :
    M pstate ((list ast * list bool) + (list ast * list bool)) :=
  do* e := parseExpr in
  do* spread := accept $"..." in
  let acc := (fst acc ++ [e], snd acc ++ [spread]) in
  do* comma := accept $"," in
  if (comma : bool) then
    do* last := see (checkText close) in
    ret (if last then inr acc else inl acc)
  else ret (inr acc).

Definition spread_flags (acc : list ast * list bool) : ArgListResult :=
  (fst acc, if existsb id (snd acc) then snd acc else []).

Definition spread_list (close : bytes) : M pstate ArgListResult :=
  do* empty := see (checkText close) in
  if empty then ret ([], [])
  else do* acc := while (spread_element close) ([], []) in ret (spread_flags acc).

Definition parseArgList : M pstate ArgListResult := spread_list $")".

(** Expressions separated by commas. *)
Definition expr_list : list ast → M pstate (list ast) :=
  while (λ es,
    do* e := parseExpr in
    do* more := accept $"," in
    ret (if more then inl (es ++ [e]) else inr (es ++ [e]))).

Definition comma_loop : ast → M pstate ast :=
  while (λ lhs,
    do* comma := accept $"," in
    if (comma : bool) then do* rhs := parseExpr in ret (inl (CommaExpr lhs rhs))
    else ret (inr lhs)).

Definition parseCommaExpr : M pstate ast := do* lhs := parseExpr in comma_loop lhs.

(** The parenthesised arguments of a call. *)
Definition call_args (context : bytes) : M pstate ArgListResult :=
  do* _ := expectText $"(" context in
  do* args := parseArgList in
  do* _ := expectText $")" context in
  ret args.

Definition parseQualifiedParentCall (qualifier : bytes) : M pstate ast :=
  do* _ := advance in
  do* fn := expect TIdent $"qualifier:: function name" in
  do* args := call_args $"qualifier:: call arguments" in
  ret (CallExpr (text fn) (fst args) (snd args) false true qualifier).

Definition string_loop : bytes → M pstate bytes :=
  while (λ v,
    do* more := see (check TString) in
    if (more : bool) then do* t := advance in ret (inl (v ++ text t)) else ret (inr v)).

Definition string_literal : M pstate ast :=
  do* t := advance in
  do* v := string_loop (text t) in
  ret (StringLiteral v).

(** [$(expr)] *)
Definition bound_value : M pstate ast := λ s,
  (match lambdaBoundValuesStack_ s with
   | [] => throw (LpcRuntimeError $"$(...) illegal outside of function pointer")
   | _ =>
       do* _ := advance in
       do* _ := advance in
       do* value := parseCommaExpr in
       do* _ := expectText $")" $"$(...) bound value" in
       do* s := get in
       match lambdaBoundValuesStack_ s with
       | [] => lift Undefined
       | vs :: stack =>
           do* _ := modify (λ s, s <| lambdaBoundValuesStack_ := (vs ++ [value]) :: stack |>) in
           ret (LambdaParamExpr (size vs) true)
       end
   end) s.

Definition inconsistent_width : exn :=
  LpcRuntimeError $"Inconsistent number of values in mapping literal".

(** The values of an entry after the first. *)
Definition value_loop : list ast → M pstate (list ast) :=
  while (λ vs,
    do* more := accept $";" in
    if (more : bool) then do* v := parseExpr in ret (inl (vs ++ [v])) else ret (inr vs)).

(** One entry of a mapping literal. *)
Definition mapping_entry (entries : list (ast * list ast)) :
    M pstate (list (ast * list ast) + list (ast * list ast)) :=
  do* key := parseExpr in
  do* _ := expectText $":" $"mapping literal entry" in
  do* v := parseExpr in
  do* values := if bool_decide (dialect_ = LdMud) then value_loop [v] else ret [v] in
  if match entries with
     | (_, vs) :: _ => negb (bool_decide (length vs = length values))
     | [] => false
     end then throw inconsistent_width
  else
    let entries := entries ++ [(key, values)] in
    do* comma := accept $"," in
    if (comma : bool) then
      do* last := see (checkText $"]") in
      ret (if last then inr entries else inl entries)
    else ret (inr entries).

Definition mapping_literal : M pstate ast :=
  do* _ := advance in
  do* _ := advance in
  do* empty := see (checkText $"]") in
  do* entries := if empty then ret [] else while mapping_entry [] in
  do* _ := expectText $"]" $"mapping literal" in
  do* _ := expectText $")" $"mapping literal" in
  ret (MappingLiteralExpr entries).

(** [#'name], [#'efun::name] *)
Definition hash_quote_closure : M pstate ast :=
  do* _ := advance in
  do* efun := see (λ s, check TIdent s && textAt 0 $"efun" s && textAt 1 $"::" s) in
  if (efun : bool) then
    do* _ := advance in
    do* _ := advance in
    do* t := expect TIdent $"closure literal function name after #'efun::" in
    ret (ClosureLiteralExpr (text t) [] true)
  else
    do* t := expect TIdent $"closure literal function name after #'" in
    ret (ClosureLiteralExpr (text t) [] false).

Definition isBareName (s : pstate) : bool :=
  typeAt 2 TIdent s &&
  match text (peekAt 2 s) with [] => false | c :: _ => negb (Ascii.eqb c "$") end &&
  typeAt 3 TSymbol s && (textAt 3 $"," s || textAt 3 $":" s).

Definition closure_end (e : ast) : M pstate ast :=
  do* _ := expectText $":" $"closure literal" in
  do* _ := expectText $")" $"closure literal" in
  ret e.

(** [(: name, args :)] *)
Definition bare_closure : M pstate ast :=
  do* _ := advance in
  do* _ := advance in
  do* t := expect TIdent $"closure literal function name" in
  do* comma := accept $"," in
  do* args := if comma then expr_list [] else ret [] in
  closure_end (ClosureLiteralExpr (text t) args false).

(** [(: exprs :)] *)
Definition inline_lambda : M pstate ast :=
  do* _ := advance in
  do* _ := advance in
  do* _ := modify (λ s, s <| lambdaParamMaxStack_ ::= cons 0 |> <| lambdaBoundValuesStack_ ::= cons [] |>) in
  do* body := expr_list [] in
  do* s := get in
  match lambdaParamMaxStack_ s, lambdaBoundValuesStack_ s with
  | m :: ms, vs :: vss =>
      do* _ := modify (λ s, s <| lambdaParamMaxStack_ := ms |> <| lambdaBoundValuesStack_ := vss |>) in
      closure_end (InlineLambdaExpr body m vs)
  | _, _ => lift Undefined
  end.

Definition closure_literal : M pstate ast := λ s,
  (if isBareName s then bare_closure else inline_lambda) s.

(** [{ statements }] *)
Definition block_loop : list ast → M pstate (list ast) :=
  while (λ stmts,
    do* s := get in
    if checkText $"}" s then ret (inr stmts)
    else if atEnd s then parse_error $"unterminated block"
    else do* st := parseStatement' in ret (inl (stmts ++ [st]))).

Definition parseBlock : M pstate ast :=
  do* _ := expectText $"{" $"function body" in
  do* stmts := block_loop [] in
  do* _ := expectText $"}" $"function body" in
  ret (Block stmts true).

(** [function(params) { body }] *)
Definition anon_function : M pstate ast :=
  do* _ := advance in
  do* _ := advance in
  do* params := parseParamList in
  do* _ := expectText $")" $"anonymous function parameters" in
  do* body := parseBlock in
  ret (AnonFunctionExpr (fst params) (snd params) body).

(** [( *fp)(args)] *)
Definition pointer_call : M pstate ast :=
  do* _ := advance in
  do* _ := advance in
  do* fp := parseExpr in
  do* _ := expectText $")" $"function pointer call" in
  do* _ := expectText $"(" $"function pointer call" in
  do* args := parseArgList in
  do* _ := expectText $")" $"function pointer call" in
  ret (CallExpr $"evaluate" (fp :: fst args)
         (match snd args with [] => [] | fs => false :: fs end) true false []).

Definition array_literal : M pstate ast :=
  do* _ := advance in
  do* _ := advance in
  do* es := spread_list $"}" in
  do* _ := expectText $"}" $"array literal" in
  do* _ := expectText $")" $"array literal" in
  ret (ArrayLiteralExpr (fst es) (snd es)).

Definition parenthesized : M pstate ast :=
  do* _ := advance in
  do* e := parseCommaExpr in
  do* _ := expectText $")" $"parenthesized expression" in
  ret e.

(** [::name(args)] *)
Definition parent_call : M pstate ast :=
  do* _ := advance in
  do* fn := expect TIdent $"::name function name" in
  do* args := call_args $"::name call arguments" in
  ret (CallExpr (text fn) (fst args) (snd args) false true []).

(** [$N] *)
Definition lambda_param (name : bytes) : M pstate ast := λ s,
  (match lambdaParamMaxStack_ s with
   | [] => throw (LpcRuntimeError ($"$var illegal outside of function pointer (" ++ quoted name ++
             $" used outside a " ++ quoted $"(: ... :)" ++ $" lambda body)"))
   | m :: ms =>
       do* oneIndexed := lift (stoi (tail name)) in
       if oneIndexed <? 1 then
         throw (LpcRuntimeError ($"In function parameter " ++ name ++ $", num must be >= 1"))
       else
         do* _ := modify (λ s, s <| lambdaParamMaxStack_ := Z.max m oneIndexed :: ms |>) in
         ret (LambdaParamExpr (oneIndexed - 1) false)
   end) s.

Definition field_loop : list (bytes * ast) → M pstate (list (bytes * ast)) :=
  while (λ fields,
    do* f := expect TIdent $"class field initializer name" in
    do* _ := expectText $":" $"class field initializer" in
    do* v := parseExpr in
    let fields := fields ++ [(text f, v)] in
    do* more := accept $"," in
    ret (if more then inl fields else inr fields)).

(** [new(class Name field: value, ...)], from the parenthesis on *)
Definition new_class : M pstate ast :=
  do* _ := advance in
  do* _ := advance in
  do* c := expect TIdent $"new(class ...) class name" in
  do* empty := see (checkText $")") in
  do* fields := if empty then ret [] else field_loop [] in
  do* _ := expectText $")" $"new(class ...) construction" in
  ret (NewClassExpr (text c) fields).

(** [efun::name(args)], from the double colon on *)
Definition efun_call : M pstate ast :=
  do* _ := advance in
  do* fn := expect TIdent $"efun:: function name" in
  do* args := call_args $"efun:: call arguments" in
  ret (CallExpr (text fn) (fst args) (snd args) true false []).

Definition catch_expr : M pstate ast :=
  do* _ := advance in
  do* guarded := parseCommaExpr in
  do* _ := expectText $")" $"catch expression" in
  ret (CatchExpr guarded).

(** The output arguments of [sscanf] from the [i]th on. *)
Fixpoint sscanf_targets (i : Z) (args : list ast) : result (list bytes * list (option ast)) :=
  match args with
  | [] => Ok ([], [])
  | a :: args =>
      let* x :=
        match a with
        | VarRefExpr name => Ok (name, None)
        | IndexExpr _ _ (Some _) _ _ _ =>
            Throw (LpcRuntimeError ($"sscanf: output argument " ++ to_string i ++ $" cannot be a range expression"))
        | IndexExpr _ _ None _ _ _ => Ok ([], Some a)
        | _ =>
            Throw (LpcRuntimeError ($"sscanf: output argument " ++ to_string i ++
              $" must be a plain variable name or an indexed lvalue like arr[i] " ++
              $"(sscanf's output arguments are implicit lvalues in real LPC, there " ++
              $"is no " ++ quoted $"&var" ++ $" reference syntax)"))
        end in
      let* (names, targets) := sscanf_targets (i + 1) args in
      Ok (fst x :: names, snd x :: targets)
  end.

Definition sscanf_expr (args : list ast) (isSpread : list bool) : result ast :=
  match args with
  | target :: format :: outputs =>
      if existsb id isSpread then
        Throw (LpcRuntimeError ($"sscanf: argument spread (" ++ quoted $"..." ++
          $") is not valid on an lvalue output list"))
      else
        let* (names, targets) := sscanf_targets 1 outputs in
        Ok (SscanfExpr target format names targets)
  | _ => Throw (LpcRuntimeError $"sscanf requires at least (string, format) arguments")
  end.

Definition call_other_expr (args : list ast) (isSpread : list bool) : result ast :=
  match args with
  | target :: function :: args =>
      match isSpread with
      | a :: b :: flags =>
          if (a : bool) || b then
            Throw (LpcRuntimeError ($"call_other: the target/function argument cannot be spread (" ++
              quoted $"..." ++ $")"))
          else Ok (CallOtherExpr target function args flags)
      | _ => Ok (CallOtherExpr target function args [])
      end
  | _ => Throw (LpcRuntimeError $"call_other requires at least (target, function) arguments")
  end.

(** [name(args)] *)
Definition named_call (name : bytes) : M pstate ast :=
  do* _ := advance in
  do* args := parseArgList in
  do* _ := expectText $")" $"call arguments" in
  if bool_decide (name = $"sscanf") then lift (sscanf_expr (fst args) (snd args))
  else if bool_decide (name = $"call_other") then lift (call_other_expr (fst args) (snd args))
  else ret (CallExpr name (fst args) (snd args) false false []).

Definition identifier : M pstate ast :=
  do* t := advance in
  let name := text t in
  do* s := get in
  if match name with c :: _ => Ascii.eqb c "$" | [] => false end then lambda_param name
  else if bool_decide (name = $"new") && bool_decide (dialect_ = FluffOS) && checkText $"(" s && textAt 1 $"class" s
  then new_class
  else if bool_decide (name = $"efun") && checkText $"::" s then efun_call
  else if bool_decide (name ≠ $"efun") && checkText $"::" s then parseQualifiedParentCall name
  else if bool_decide (name = $"catch") && checkText $"(" s then catch_expr
  else if bool_decide (name = $"time_expression") && checkText $"{" s then
    do* body := parseBlock in ret (TimeExpressionExpr body)
  else if negb (checkText $"(" s) then ret (VarRefExpr name)
  else named_call name.

Definition parsePrimary : M pstate ast := λ s,
  (if check TString s then string_literal
   else if check TNumber s then (do* t := advance in lift (number_literal (text t)))
   else if check TKeyword s && textAt 0 $"nil" s && bool_decide (dialect_ = DGD) then
     (do* _ := advance in ret NilLiteral)
   else if check TQuotedSymbol s then (do* t := advance in ret (SymbolLiteralExpr (text t)))
   else if checkText $"$" s && textAt 1 $"(" s then bound_value
   else if checkText $"(" s && textAt 1 $"[" s then mapping_literal
   else if checkText $"#'" s && bool_decide (dialect_ = LdMud) then hash_quote_closure
   else if checkText $"(" s && textAt 1 $":" s then closure_literal
   else if check TKeyword s && textAt 0 $"function" s && textAt 1 $"(" s then anon_function
   else if check TKeyword s && isTypeKeyword (peek s) && textAt 1 $"::" s then
     (do* t := advance in parseQualifiedParentCall (text t))
   else if checkText $"(" s && textAt 1 $"*" s then pointer_call
   else if checkText $"(" s && textAt 1 $"{" s then array_literal
   else if checkText $"(" s then parenthesized
   else if checkText $"::" s then parent_call
   else if check TIdent s then identifier
   else parse_error ($"expected expression" ++ at_token s)) s.

(** [expr->name], [expr->name(args)], after the arrow *)
Definition arrow (e : ast) : M pstate ast :=
  do* name := expect TIdent $"call_other operator function name" in
  do* s := get in
  if bool_decide (dialect_ = FluffOS) && negb (checkText $"(" s) then
    ret (IndexExpr e (MemberNameMarker (text name)) None false false None)
  else
    do* args := call_args $"call_other operator arguments" in
    ret (CallOtherExpr e (StringLiteral (text name)) (fst args) (snd args)).

(** What follows the key: the end of the range, whether it counts from the
    end, and the column. *)
Definition index_rest : M pstate (option ast * bool * option ast) :=
  do* s := get in
  if checkText $"," s && bool_decide (dialect_ = LdMud) then
    do* _ := advance in
    do* col := parseExpr in
    ret (None, false, Some col)
  else if checkText $".." s then
    do* _ := advance in
    do* open := see (checkText $"]") in
    if (open : bool) then ret (Some (IntLiteral 2000000000), false, None)
    else
      do* fromEnd := accept $"<" in
      do* e := parseExpr in
      ret (Some e, fromEnd, None)
  else ret (None, false, None).

(** [expr[...]], after the bracket *)
Definition subscript (e : ast) : M pstate ast :=
  do* fromEnd := accept $"<" in
  do* start := if bool_decide (dialect_ = LdMud) then parseExpr else parseCommaExpr in
  do* (rangeEnd, endFromEnd, col) := index_rest in
  do* _ := expectText $"]" $"index expression" in
  ret (IndexExpr e start rangeEnd fromEnd endFromEnd col).

(** The loop of [parsePostfix]. *)
Definition postfix_chain : ast → M pstate ast :=
  while (λ e,
    do* isArrow := accept $"->" in
    if (isArrow : bool) then do* e := arrow e in ret (inl e)
    else
      do* isIndex := accept $"[" in
      if (isIndex : bool) then do* e := subscript e in ret (inl e)
      else ret (inr e)).

(** The increment or decrement operator that comes next. *)
Definition inc_dec_op (s : pstate) : option IncDecOp :=
  if checkText $"++" s then Some Inc else if checkText $"--" s then Some Dec else None.

Definition parsePostfix : M pstate ast :=
  do* e := parsePrimary in
  do* e := postfix_chain e in
  do* s := get in
  match inc_dec_op s with
  | None => ret e
  | Some op =>
      match as_lvalue e with
      | Some l => do* _ := advance in ret (inc_dec op false l)
      | None =>
          parse_error ($"postfix " ++ text (peek s) ++
            $" target must be a simple variable name or indexed target at line " ++ to_string (line (peek s)))
      end
  end.

(** [(type)expr], [(type * )expr]: [None] when there is no cast. *)
Definition cast : M pstate (option ast) := λ s,
  (if checkText $"(" s && typeAt 1 TKeyword s && isTypeKeyword (peekAt 1 s) then
    (do* _ := advance in
     do* _ := advance in
     do* _ := accept $"*" in
     do* closed := accept $")" in
     if (closed : bool) then do* e := parseUnary' in ret (Some e)
     else do* _ := modify (λ s', s' <| toks := toks s |>) in ret None)
   else ret None) s.

(** [(class Name)expr], [(class Name * )expr] *)
Definition class_cast : M pstate (option ast) := λ s,
  (if bool_decide (dialect_ = FluffOS) && checkText $"(" s && typeAt 1 TIdent s && textAt 1 $"class" s && typeAt 2 TIdent s
   then
    (do* _ := advance in
     do* _ := advance in
     do* c := advance in
     do* star := accept $"*" in
     do* closed := accept $")" in
     if (closed : bool) then
       do* e := parseUnary' in
       ret (Some (if (star : bool) then e else TypeCastExpr (text c) e))
     else do* _ := modify (λ s', s' <| toks := toks s |>) in ret None)
   else ret None) s.

Definition unary_op (s : pstate) : option UnaryOp :=
  if checkText $"!" s then Some Not
  else if checkText $"-" s then Some Neg
  else if checkText $"~" s then Some BitNot
  else None.

(** [++expr], [--expr], after the operator *)
Definition prefix_inc_dec (op : IncDecOp) : M pstate ast :=
  do* e := parseUnary' in
  match as_lvalue e with
  | Some l => ret (inc_dec op true l)
  | None => λ s,
      parse_error ($"prefix " ++ (if bool_decide (op = Inc) then $"++" else $"--") ++
        $" target must be a simple variable name or indexed target at line " ++ to_string (line (peek s))) s
  end.

(** An operand and the assignment it may be the target of. *)
Definition assignment : M pstate ast :=
  do* operand := parsePostfix in
  do* s := get in
  match assign_op s with
  | None => ret operand
  | Some op =>
      match as_lvalue operand with
      | Some l =>
          do* _ := advance in
          do* value := parseExpr in
          ret (assign l value op)
      | None =>
          parse_error ($"assignment target must be a simple variable name or " ++
            $"indexed target at line " ++ to_string (line (peek s)))
      end
  end.

Definition parseUnary : M pstate ast :=
  do* c := cast in
  match c with Some e => ret e | None =>
  do* c := class_cast in
  match c with Some e => ret e | None =>
  do* s := get in
  match unary_op s with
  | Some op =>
      do* _ := advance in
      do* operand := parseUnary' in
      ret (UnaryExpr op operand)
  | None =>
      match inc_dec_op s with
      | Some op => do* _ := advance in prefix_inc_dec op
      | None => assignment
      end
  end
  end
  end.

Definition parseMultiplicative := binary_level [($"*", Mul); ($"/", Div); ($"%", Mod)] parseUnary.
Definition parseAdditive := binary_level [($"+", Add); ($"-", Sub)] parseMultiplicative.
Definition parseShift := binary_level [($"<<", Shl); ($">>", Shr)] parseAdditive.
Definition parseComparison :=
  binary_level [($"<", Lt); ($"<=", Lte); ($">", Gt); ($">=", Gte)] parseShift.
Definition parseEquality := binary_level [($"==", Eq); ($"!=", Neq)] parseComparison.
Definition parseBitAnd := binary_level [($"&", BitAnd)] parseEquality.
Definition parseBitXor := binary_level [($"^", BitXor)] parseBitAnd.
Definition parseBitOr := binary_level [($"|", BitOr)] parseBitXor.
Definition parseLogicalAnd := binary_level [($"&&", And)] parseBitOr.
Definition parseLogicalOr := binary_level [($"||", Or)] parseLogicalAnd.

Definition parseTernary : M pstate ast :=
  do* condition := parseLogicalOr in
  do* question := accept $"?" in
  if (question : bool) then
    do* thenBranch := parseExpr in
    do* _ := expectText $":" $"ternary expression" in
    do* elseBranch := parseExpr in
    ret (TernaryExpr condition thenBranch elseBranch)
  else ret condition.

(** ** Statements *)

(** The expressions after a comma, each as a statement. *)
Definition comma_statements : list ast → M pstate (list ast) :=
  while (λ stmts,
    do* more := accept $"," in
    if (more : bool) then do* e := parseExpr in ret (inl (stmts ++ [ExprStmt e]))
    else ret (inr stmts)).

Definition parseCommaExprChain : M pstate ast :=
  do* first := parseExpr in
  do* comma := see (checkText $",") in
  if (comma : bool) then do* stmts := comma_statements [ExprStmt first] in ret (Block stmts false)
  else ret first.

Definition continueStatementCommaChain (firstStmt : ast) : M pstate ast :=
  do* comma := see (checkText $",") in
  if (comma : bool) then do* stmts := comma_statements [firstStmt] in ret (Block stmts false)
  else ret firstStmt.

(** A clause that is empty when the closing text comes next. *)
Definition optional (close : bytes) (m : M pstate ast) : M pstate (option ast) :=
  do* empty := see (checkText close) in
  if (empty : bool) then ret None else do* e := m in ret (Some e).

Definition parseReturnStatement : M pstate ast :=
  do* _ := expectText $"return" $"return statement" in
  do* e := optional $";" parseCommaExpr in
  do* _ := expectText $";" $"return statement" in
  ret (ReturnStmt e).

(** [= expr] *)
Definition initializer : M pstate (option ast) :=
  do* eq := accept $"=" in
  if (eq : bool) then do* e := parseExpr in ret (Some e) else ret None.

Definition parseSingleVarDecl (typeText : bytes) (isArray : bool) : M pstate ast :=
  do* name := expect TIdent $"variable declaration name" in
  do* init := initializer in
  ret (VarDeclStmt typeText isArray (text name) init).

Definition decl_loop (typeText : bytes) : list ast → M pstate (list ast) :=
  while (λ stmts,
    do* more := accept $"," in
    if (more : bool) then
      do* isArray := consumeArrayMarker in
      do* decl := parseSingleVarDecl typeText isArray in
      ret (inl (stmts ++ [decl]))
    else ret (inr stmts)).

Definition parseVarDeclStatement : M pstate ast :=
  do* ty := parseTypeToken $"variable declaration type" in
  do* first := parseSingleVarDecl (fst ty) (snd ty) in
  do* comma := see (checkText $",") in
  if (comma : bool) then
    do* stmts := decl_loop (fst ty) [first] in
    do* _ := expectText $";" $"variable declaration" in
    ret (Block stmts false)
  else
    do* _ := expectText $";" $"variable declaration" in
    ret first.

Definition parseAssignStatement : M pstate ast :=
  do* name := expect TIdent $"assignment target" in
  do* _ := expectText $"=" $"assignment" in
  do* value := parseExpr in
  do* result := continueStatementCommaChain (AssignStmt (text name) value) in
  do* _ := expectText $";" $"assignment statement" in
  ret result.

Definition parseBranch : M pstate ast := λ s,
  (if checkText $"{" s then parseBlock
   else (do* st := parseStatement' in ret (Block [st] false))) s.

(** [( expr )] *)
Definition condition (context : bytes) : M pstate ast :=
  do* _ := expectText $"(" context in
  do* e := parseCommaExpr in
  do* _ := expectText $")" context in
  ret e.

Definition parseIfStatement : M pstate ast :=
  do* _ := expectText $"if" $"if statement" in
  do* c := condition $"if condition" in
  do* thenBranch := parseBranch in
  do* hasElse := accept $"else" in
  if (hasElse : bool) then do* elseBranch := parseBranch in ret (IfStmt c thenBranch (Some elseBranch))
  else ret (IfStmt c thenBranch None).

Definition parseWhileStatement : M pstate ast :=
  do* _ := expectText $"while" $"while statement" in
  do* c := condition $"while condition" in
  do* body := parseBranch in
  ret (WhileStmt c body).

Definition parseDoWhileStatement : M pstate ast :=
  do* _ := expectText $"do" $"do-while statement" in
  do* body := parseBranch in
  do* _ := expectText $"while" $"do-while statement" in
  do* c := condition $"do-while condition" in
  do* _ := expectText $";" $"do-while statement" in
  ret (DoWhileStmt c body).

(** The first clause of a [for]. *)
Definition for_init : M pstate ast :=
  do* decl := see startsType in
  if (decl : bool) then
    do* ty := parseTypeToken $"for statement init clause" in
    parseSingleVarDecl (fst ty) (snd ty)
  else parseCommaExprChain.

Definition parseForStatement : M pstate ast :=
  do* _ := expectText $"for" $"for statement" in
  do* _ := expectText $"(" $"for statement" in
  do* init := optional $";" for_init in
  do* _ := expectText $";" $"for statement init clause" in
  do* c := optional $";" parseCommaExpr in
  do* _ := expectText $";" $"for statement condition clause" in
  do* update := optional $")" parseCommaExprChain in
  do* _ := expectText $")" $"for statement update clause" in
  do* body := parseBranch in
  ret (ForStmt init c update body).

Definition parseBreakStatement : M pstate ast :=
  do* _ := expectText $"break" $"break statement" in
  do* _ := expectText $";" $"break statement" in
  ret BreakStmt.

Definition parseContinueStatement : M pstate ast :=
  do* _ := expectText $"continue" $"continue statement" in
  do* _ := expectText $";" $"continue statement" in
  ret ContinueStmt.

Definition parseForeachVar : M pstate ForeachVarSpec :=
  do* decl := see startsType in
  if (decl : bool) then
    do* ty := parseTypeToken $"foreach variable type" in
    do* name := expect TIdent $"foreach variable name" in
    ret (mkForeachVar (text name) true (class_of (fst ty)))
  else
    do* name := expect TIdent $"foreach variable name" in
    ret (mkForeachVar (text name) false []).

Definition parseForeachStatement : M pstate ast :=
  do* _ := expectText $"foreach" $"foreach statement" in
  do* _ := expectText $"(" $"foreach statement" in
  do* first := parseForeachVar in
  do* hasSecond := accept $"," in
  do* second := if (hasSecond : bool) then parseForeachVar else ret (mkForeachVar [] false []) in
  do* _ := expectText $"in" $"foreach statement" in
  do* collection := parseExpr in
  do* _ := expectText $")" $"foreach statement" in
  do* body := parseBranch in
  ret (ForeachStmt (fv_name first) (fv_isNewDecl first) hasSecond (fv_name second)
         (fv_isNewDecl second) collection body (fv_classType first) (fv_classType second)).

(** [case value:], [case value..end:], after [case] *)
Definition case_label : M pstate ast :=
  do* value := parseExpr in
  do* range := accept $".." in
  do* rangeEnd := if (range : bool) then do* e := parseExpr in ret (Some e) else ret None in
  do* _ := expectText $":" $"case label" in
  ret (CaseLabel (Some value) rangeEnd).

(** One item of the body of a [switch]. *)
Definition switch_item : M pstate ast :=
  do* isCase := accept $"case" in
  if (isCase : bool) then case_label
  else
    do* isDefault := accept $"default" in
    if (isDefault : bool) then
      do* _ := expectText $":" $"default label" in ret (CaseLabel None None)
    else parseStatement'.

Definition switch_loop : list ast → M pstate (list ast) :=
  while (λ body,
    do* s := get in
    if checkText $"}" s then ret (inr body)
    else if atEnd s then parse_error $"unterminated switch statement"
    else do* item := switch_item in ret (inl (body ++ [item]))).

Definition parseSwitchStatement : M pstate ast :=
  do* _ := expectText $"switch" $"switch statement" in
  do* subject := condition $"switch statement subject" in
  do* _ := expectText $"{" $"switch statement body" in
  do* body := switch_loop [] in
  do* _ := expectText $"}" $"switch statement body" in
  ret (SwitchStmt subject body).

Definition expression_statement : M pstate ast :=
  do* e := parseTernary in
  do* result := continueStatementCommaChain (ExprStmt e) in
  do* _ := expectText $";" $"expression statement" in
  ret result.

(** A statement that starts with a name and [\[] or [->]: an assignment to an
    index, or else the tokens are read again as an expression. *)
Definition index_statement : M pstate ast := λ s0,
  let again := do* _ := modify (λ s, s <| toks := toks s0 |>) in expression_statement in
  (do* target := parsePostfix in
   do* s := get in
   match target, assign_op s with
   | IndexExpr target index _ _ _ col, Some op =>
       do* _ := advance in
       do* value := parseExpr in
       do* result := continueStatementCommaChain (IndexAssignStmt target index value (fst op) (snd op) col) in
       do* _ := expectText $";" $"indexed assignment statement" in
       ret result
   | _, _ => again
   end) s0.

Definition parseStatement : M pstate ast := λ s,
  (if checkText $";" s then (do* _ := advance in ret (Block [] true))
   else if checkText $"{" s then parseBlock
   else if checkText $"if" s then parseIfStatement
   else if checkText $"while" s then parseWhileStatement
   else if checkText $"do" s then parseDoWhileStatement
   else if checkText $"for" s then parseForStatement
   else if checkText $"foreach" s then parseForeachStatement
   else if checkText $"switch" s then parseSwitchStatement
   else if checkText $"return" s then parseReturnStatement
   else if checkText $"break" s then parseBreakStatement
   else if checkText $"continue" s then parseContinueStatement
   else if startsType s then parseVarDeclStatement
   else if check TIdent s && typeAt 1 TSymbol s && textAt 1 $"=" s then parseAssignStatement
   else if check TIdent s && typeAt 1 TSymbol s && (textAt 1 $"[" s || textAt 1 $"->" s) then index_statement
   else expression_statement) s.
End Recursion.

(** ** The recursion *)

Record parsers := mkParsers {
  p_expr : M pstate ast;
  p_unary : M pstate ast;
  p_statement : M pstate ast;
}.

Fixpoint parsers_at (depth : nat) : parsers :=
  match depth with
  | O => mkParsers (lift OutOfFuel) (lift OutOfFuel) (lift OutOfFuel)
  | S n =>
      let p := parsers_at n in
      mkParsers (parseTernary (p_expr p) (p_unary p) (p_statement p))
        (parseUnary (p_expr p) (p_unary p) (p_statement p))
        (parseStatement (p_expr p) (p_unary p) (p_statement p))
  end.

(** ** Declarations *)

Section Program.
Context (p : parsers).

Definition skip_modifiers : M pstate bool :=
  while (λ isPrivate,
    do* s := get in
    if check TKeyword s && isModifierKeyword (peek s) then
      do* _ := advance in ret (inl (isPrivate || textAt 0 $"private" s))
    else ret (inr isPrivate)) false.

Definition decl_type : M pstate TypeToken := λ s,
  (if startsClassType s then
     (do* _ := advance in
      do* t := advance in
      do* isArray := consumeArrayMarker in
      ret ($"class:" ++ text t, isArray))
   else if check TIdent s && textAt 0 $"array" s then
     (do* _ := advance in ret ($"mixed", true))
   else if check TKeyword s then
     (do* t := advance in
      do* isArray := consumeArrayMarker in
      ret (text t, isArray))
   else ret ($"mixed", false)) s.

Definition parseDeclPrefix (context : bytes) : M pstate DeclPrefix :=
  do* isPrivate := skip_modifiers in
  do* ty := decl_type in
  do* name := expect TIdent (context ++ $" name") in
  ret (mkPrefix (fst ty) (snd ty) (text name) isPrivate).

Definition parseFunctionRest (prefix : DeclPrefix) : M pstate FunctionDecl :=
  do* _ := expectText $"(" $"function declaration parameters" in
  do* params := parseParamList in
  do* _ := expectText $")" $"function declaration parameters" in
  do* prototype := accept $";" in
  do* body := if (prototype : bool) then ret None
              else do* b := parseBlock (p_statement p) in ret (Some b) in
  ret (mkFunctionDecl (dp_type prefix) (dp_isArray prefix) (dp_name prefix) (fst params) (snd params) body).

Definition makeDecl (prefix : DeclPrefix) (isArray : bool) (name : bytes) (init : option ast) : ObjectVarDecl :=
  mkObjectVarDecl (dp_type prefix) isArray name (dp_isPrivate prefix) init.

Definition object_var_loop (prefix : DeclPrefix) : list ObjectVarDecl → M pstate (list ObjectVarDecl) :=
  while (λ decls,
    do* more := accept $"," in
    if (more : bool) then
      do* isArray := consumeArrayMarker in
      do* name := expect TIdent $"object variable declaration name" in
      do* init := initializer (p_expr p) in
      ret (inl (decls ++ [makeDecl prefix isArray (text name) init]))
    else ret (inr decls)).

Definition parseObjectVarDeclRest (prefix : DeclPrefix) : M pstate (list ObjectVarDecl) :=
  do* firstInit := initializer (p_expr p) in
  do* decls := object_var_loop prefix [makeDecl prefix (dp_isArray prefix) (dp_name prefix) firstInit] in
  do* _ := expectText $";" $"object variable declaration" in
  ret decls.

Definition path_loop : bytes → M pstate bytes :=
  while (λ result,
    do* isString := see (check TString) in
    if (isString : bool) then do* t := advance in ret (inl (result ++ text t))
    else
      do* plus := accept $"+" in
      if (plus : bool) then
        do* t := expect TString $"inherit statement path (string concatenation)" in
        ret (inl (result ++ text t))
      else ret (inr result)).

Definition parseInheritPathString : M pstate bytes :=
  do* t := expect TString $"inherit statement path" in path_loop (text t).

(** The names of one member declaration. *)
Definition member_names : list bytes → M pstate (list bytes) :=
  while (λ names,
    do* _ := consumeArrayMarker in
    do* t := expect TIdent $"class member name" in
    do* more := accept $"," in
    ret (if more then inl (names ++ [text t]) else inr (names ++ [text t]))).

Definition class_loop : list bytes → M pstate (list bytes) :=
  while (λ names,
    do* s := get in
    if checkText $"}" s then ret (inr names)
    else if atEnd s then parse_error $"unterminated class declaration"
    else
      do* _ := parseTypeToken $"class member type" in
      do* names := member_names names in
      do* _ := expectText $";" $"class member declaration" in
      ret (inl names)).

Definition parseClassDecl : M pstate ClassDeclStmt :=
  do* name := expect TIdent $"class declaration name" in
  do* _ := expectText $"{" $"class declaration body" in
  do* names := class_loop [] in
  do* _ := expectText $"}" $"class declaration body" in
  ret (mkClassDecl (text name) names).

Definition parseInheritStatement (program : Program) : M pstate Program :=
  do* _ := expectText $"inherit" $"inherit statement" in
  do* path := parseInheritPathString in
  do* _ := expectText $";" $"inherit statement" in
  ret (program <| inherits ::= λ l, l ++ [path] |>).

(** The number of modifiers that come next. *)
Fixpoint modifiers_from (ts : list Token) : nat :=
  match ts with
  | t :: ts => if isModifierKeyword t then S (modifiers_from ts) else O
  | [] => O
  end.

Definition lookahead (s : pstate) : nat := modifiers_from (toks s).

Fixpoint advances (n : nat) : M pstate unit :=
  match n with O => ret tt | S n => do* _ := advance in advances n end.

(** [class name {], after modifiers *)
Definition starts_class_decl (s : pstate) : bool :=
  let n := lookahead s in
  bool_decide (dialect_ = FluffOS) && typeAt n TIdent s && textAt n $"class" s &&
  typeAt (n + 1) TIdent s && textAt (n + 2) $"{" s.

(** One declaration of the file. *)
Definition declaration (program : Program) : M pstate Program := λ s,
  let n := lookahead s in
  (if checkText $"inherit" s then parseInheritStatement program
   else if negb (bool_decide (n = 0%nat)) && textAt n $"inherit" s then
     (do* _ := advances n in parseInheritStatement program)
   else if starts_class_decl s then
     (do* _ := advances n in
      do* _ := advance in
      do* c := parseClassDecl in
      ret (program <| classes ::= λ l, l ++ [c] |>))
   else
     (do* prefix := parseDeclPrefix $"top-level declaration" in
      do* isFunction := see (checkText $"(") in
      if (isFunction : bool) then
        do* f := parseFunctionRest prefix in
        ret (program <| functions ::= λ l, l ++ [f] |>)
      else
        do* decls := parseObjectVarDeclRest prefix in
        ret (program <| objectVars ::= λ l, l ++ decls |>))) s.

Definition program_loop : Program → M pstate Program :=
  while (λ program,
    do* s := get in
    if atEnd s then ret (inr program)
    else do* program := declaration program in ret (inl program)).
End Program.

Definition initial (tokens : list Token) : pstate := mkPState tokens [] [].

Definition parseProgram (tokens : list Token) : result Program :=
  fst (program_loop (parsers_at (S (length tokens))) (mkProgram [] [] [] []) (initial tokens)).
End Parser.
