(* ===== verification/ParserTotal.v ===== *)
(** * The parser ends

    Every call of a parsing function takes at least one token or throws, so
    the recursion is at most as deep as there are tokens, and the stacks of
    lambdas have the same height after a call as before it, so neither is
    read when it is empty. *)

From S2P Require Import Prelude Doubles Config Lexer Ast Parser.

#[local] Open Scope nat_scope.

Definition len (s : pstate) : nat := length (toks s).

Definition shape (s : pstate) : nat * nat :=
  (length (lambdaParamMaxStack_ s), length (lambdaBoundValuesStack_ s)).

(** [m] returns or throws; when it returns [a] it has taken at least [K a]
    tokens. *)
Definition runsK {A} (K : A → nat) (m : M pstate A) (s : pstate) : Prop :=
  match m s with
  | (Ok a, s') => (len s' + K a ≤ len s)%nat ∧ shape s' = shape s
  | (Throw _, _) => True
  | _ => False
  end.

Notation runs k := (runsK (λ _, k%nat)).

(** A turn of a loop takes a token when it goes on. *)
Definition turn {A B} (k : nat) (r : A + B) : nat := match r with inl _ => 1 | inr _ => k end.

(** ** Rules *)

Lemma runs_ret {A} (K : A → nat) a s : K a = 0%nat → runsK K (ret a) s.
Proof. unfold runsK. simpl. intros ->. split; [lia|done]. Qed.

Lemma runs_throw {A} (K : A → nat) e s : runsK K (throw e) s.
Proof. done. Qed.

Lemma runs_lift {A} (r : result A) s : r ≠ Undefined → r ≠ OutOfFuel → runs 0 (lift r) s.
Proof. unfold runsK, lift. destruct r; try done. split; [lia|done]. Qed.

Lemma runs_weaken {A} (J K : A → nat) (m : M pstate A) s : runsK J m s → (∀ a, (K a ≤ J a)%nat) → runsK K m s.
Proof. unfold runsK. destruct (m s) as [[a| | |] s']; try done. intros [? ?] HK. specialize (HK a). split; [lia|done]. Qed.

Lemma runs_bind {A B} i (K : B → nat) (m : M pstate A) (f : A → M pstate B) s :
  runs i m s →
  (∀ a s', (len s' + i ≤ len s)%nat → shape s' = shape s → runsK (λ b, K b - i) (f a) s') →
  runsK K (bind m f) s.
Proof.
  unfold runsK, bind. destruct (m s) as [[a|e| |] s']; try done. intros [Hl Hs] Hf.
  specialize (Hf a s' Hl Hs). destruct (f a s') as [[b|e| |] s'']; try done.
  destruct Hf as [? ->]. split; [lia|done].
Qed.

Lemma runs_see {A} (K : A → nat) p f s : runsK K (f (p s)) s → runsK K (bind (see p) f) s.
Proof. done. Qed.

Lemma runs_get {A} (K : A → nat) f s : runsK K (f s) s → runsK K (bind get f) s.
Proof. done. Qed.

Lemma runs_ret_bind {A B} (K : B → nat) (a : A) f s : runsK K (f a) s → runsK K (bind (ret a) f) s.
Proof. done. Qed.

Lemma runs_assoc {A B C} (K : C → nat) (m : M pstate A) (f : A → M pstate B) (g : B → M pstate C) s :
  runsK K (bind m (λ a, bind (f a) g)) s → runsK K (bind (bind m f) g) s.
Proof. unfold runsK, bind. by destruct (m s) as [[] s']. Qed.

Lemma iterate_runs {A B} k (body : A → M pstate (A + B)) n : (k ≤ 1)%nat → ∀ a s,
  (len s < n)%nat → (∀ a s', (len s' ≤ len s)%nat → shape s' = shape s → runsK (turn k) (body a) s') →
  runs k (iterate n body a) s.
Proof.
  intros Hk. induction n as [|n IH]; intros a s Hn Hb; [lia|].
  pose proof (Hb a s ltac:(lia) eq_refl) as Ht. unfold runsK in *. cbn [iterate]. unfold bind.
  destruct (body a s) as [[[a'|b]|e| |] s']; try done. simpl in Ht. destruct Ht as [Hl Hs].
  assert (runs k (iterate n body a') s') as Hr.
  { apply IH; [lia|]. intros ? ? ? ?. apply Hb; [lia|congruence]. }
  unfold runsK in Hr. destruct (iterate n body a' s') as [[|?| |] ?]; try done.
  destruct Hr as [? ->]. split; [lia|done].
Qed.

Lemma runs_while {A B} k (body : A → M pstate (A + B)) a s :
  (k ≤ 1)%nat → (∀ a s', (len s' ≤ len s)%nat → shape s' = shape s → runsK (turn k) (body a) s') →
  runs k (while body a) s.
Proof. intros Hk Hb. apply iterate_runs; [done|unfold len; lia|done]. Qed.

(** ** Tokens *)

Lemma atEnd_len s : atEnd s = false → (1 ≤ len s)%nat.
Proof. unfold atEnd, peek, peekAt, len. by destruct (toks s) as [|t ts]; simpl; [|lia]. Qed.

Lemma check_atEnd ty s : check ty s = true → atEnd s = false.
Proof. unfold check. intros ?. by prop_tests. Qed.

Lemma checkText_atEnd t s : checkText t s = true → atEnd s = false.
Proof. unfold checkText. intros ?. by prop_tests. Qed.

Lemma advance_runs s : atEnd s = false → runs 1 advance s.
Proof.
  intros H. pose proof (atEnd_len _ H) as Hl. unfold runsK, advance. rewrite H.
  unfold len in *. simpl. destruct (toks s); simpl in *; [lia|]. split; [lia|done].
Qed.

Lemma advance_runs0 s : runs 0 advance s.
Proof.
  destruct (atEnd s) eqn:E.
  - unfold runsK, advance. rewrite E. split; [lia|done].
  - eapply runs_weaken; [by apply advance_runs|]. simpl. lia.
Qed.

Lemma expect_runs ty c s : runs 1 (expect ty c) s.
Proof.
  unfold expect, runsK. destruct (check ty s) eqn:E; [|done].
  apply advance_runs. by eapply check_atEnd.
Qed.

Lemma expectText_runs t c s : runs 1 (expectText t c) s.
Proof.
  unfold expectText, runsK. destruct (checkText t s) eqn:E; [|done].
  apply advance_runs. by eapply checkText_atEnd.
Qed.

Lemma runs_accept {A} (K : A → nat) t (f : bool → M pstate A) s :
  (∀ s', (len s' + 1 ≤ len s)%nat → shape s' = shape s → runsK (λ a, K a - 1) (f true) s') →
  (checkText t s = false → runsK K (f false) s) →
  runsK K (bind (accept t) f) s.
Proof.
  intros Ht Hf. unfold accept. destruct (checkText t s) eqn:E.
  - pose proof (advance_runs s (checkText_atEnd _ _ E)) as Ha. unfold runsK, bind, see in *. rewrite E.
    unfold advance in *. rewrite (checkText_atEnd _ _ E) in *. destruct Ha as [Hl Hs].
    specialize (Ht _ Hl Hs). unfold ret. destruct (f true _) as [[b|e| |] s'']; try done.
    destruct Ht as [? ->]. split; [lia|done].
  - unfold runsK, bind, see. rewrite E. by apply Hf.
Qed.

Lemma startsClassType_atEnd d s : startsClassType d s = true → atEnd s = false.
Proof. unfold startsClassType. intros ?. prop_tests. by eapply check_atEnd. Qed.

(** Whether the state is past its end, from a test that succeeded. *)
Ltac not_end :=
  repeat match goal with
  | H : (_ && _)%bool = true |- _ => apply andb_true_iff in H as [? ?]
  end;
  first [eapply check_atEnd; eassumption | eapply checkText_atEnd; eassumption
        | eapply startsClassType_atEnd; eassumption].

(** One step of a run. *)
Ltac run1 :=
  match goal with
  | |- runsK ?K (fun s => @?G s) ?s0 =>
      let g := eval cbv beta in (G s0) in
      match g with ?m s0 => change (runsK K m s0) end
  | |- runsK _ (ret _) _ => apply runs_ret; (reflexivity || (cbn; lia) || (case_if; cbn; lia))
  | |- runsK _ (throw _) _ => apply runs_throw
  | |- runsK _ (parse_error _) _ => apply runs_throw
  | |- runsK _ (bind (see _) _) _ => apply runs_see; cbv beta zeta
  | |- runsK _ (bind get _) _ => apply runs_get; cbv beta zeta
  | |- runsK _ (bind (accept _) _) _ => apply runs_accept; [intros ? ? ?|intros ?]; cbv beta zeta
  | |- runsK _ (bind (expect _ _) _) _ =>
      eapply runs_bind; [apply expect_runs|intros ? ? ? ?]; cbv beta zeta
  | |- runsK _ (bind (expectText _ _) _) _ =>
      eapply runs_bind; [apply expectText_runs|intros ? ? ? ?]; cbv beta zeta
  | |- runsK _ (bind advance _) _ =>
      eapply runs_bind; [first [apply advance_runs; not_end | apply advance_runs0]|intros ? ? ? ?]; cbv beta zeta
  | |- runsK _ (bind (bind _ _) _) _ => apply runs_assoc
  | |- runsK _ (bind (ret _) _) _ => apply runs_ret_bind; cbv beta zeta
  | |- runsK _ (if ?b then _ else _) _ => destruct b eqn:?
  | |- runsK _ (bind (if ?b then _ else _) _) _ => destruct b eqn:?
  | |- runsK _ (let '(_, _) := ?p in _) _ => destruct p
  end.
Ltac run := repeat run1.

(** A call inside a run, by the lemma [L]. *)
Tactic Notation "call" uconstr(L) := eapply runs_bind; [apply L; try lia|intros ? ? ? ?; cbv beta zeta].
(** A last call. *)
Tactic Notation "last_call" uconstr(L) := eapply runs_weaken; [apply L; try lia|intros ?; cbn; lia].

Lemma sscanf_targets_fine args : ∀ i, sscanf_targets i args ≠ Undefined ∧ sscanf_targets i args ≠ OutOfFuel.
Proof.
  induction args as [|a args IH]; intros i; [done|]. simpl. destruct (IH (i + 1)%Z) as [H1 H2].
  repeat case_match; simpl; try done; destruct (sscanf_targets (i + 1)%Z args) as [[]| | |]; done.
Qed.

Lemma sscanf_expr_fine args fs : sscanf_expr args fs ≠ Undefined ∧ sscanf_expr args fs ≠ OutOfFuel.
Proof.
  unfold sscanf_expr. repeat case_match; try done.
  destruct (sscanf_targets_fine l0 1). destruct (sscanf_targets 1 l0) as [[]| | |]; done.
Qed.

Lemma call_other_expr_fine args fs : call_other_expr args fs ≠ Undefined ∧ call_other_expr args fs ≠ OutOfFuel.
Proof. unfold call_other_expr. by repeat case_match. Qed.

Lemma stoll_fine s : stoll s ≠ Undefined ∧ stoll s ≠ OutOfFuel.
Proof. unfold stoll. by repeat case_match. Qed.

Lemma stoi_fine s : stoi s ≠ Undefined ∧ stoi s ≠ OutOfFuel.
Proof. unfold stoi. by repeat case_match. Qed.

Lemma stod_fine s : stod s ≠ Undefined ∧ stod s ≠ OutOfFuel.
Proof. unfold stod, decimal_value, stod_result. by repeat case_match. Qed.

Lemma number_literal_fine raw : number_literal raw ≠ Undefined ∧ number_literal raw ≠ OutOfFuel.
Proof.
  unfold number_literal. case_if; [|case_if].
  - destruct (stod_fine raw). by destruct (stod raw).
  - unfold stoll16. by case_if.
  - destruct (stoll_fine raw). by destruct (stoll raw).
Qed.

Section Total.
Context (d : LpcDialect).

Lemma consumeArrayMarker_runs s : runs 0 consumeArrayMarker s.
Proof. unfold consumeArrayMarker. run. Qed.


Lemma parseTypeToken_runs c s : runs 1 (parseTypeToken d c) s.
Proof. unfold parseTypeToken. run; call consumeArrayMarker_runs; run. Qed.

Lemma parse_param_runs ps s : runsK (turn 1) (parse_param d ps) s.
Proof. unfold parse_param. call parseTypeToken_runs. run. Qed.

Lemma parseParamList_runs s : runs 0 (parseParamList d) s.
Proof.
  unfold parseParamList. run. call (runs_while 1); [|run].
  intros. apply parse_param_runs.
Qed.

Section Recursion.
Context (n : nat) (parseExpr parseUnary' parseStatement' : M pstate ast).
Context (Hexpr : ∀ s, len s < n → runs 1 parseExpr s).
Context (Hunary : ∀ s, len s < n → runs 1 parseUnary' s).
Context (Hstmt : ∀ s, len s < n → runs 1 parseStatement' s).

Lemma spread_list_runs close s : len s < n → runs 0 (spread_list parseExpr close) s.
Proof.
  intros Hn. unfold spread_list. run. call (runs_while 1); [|run].
  intros. unfold spread_element. call Hexpr. run.
Qed.

Lemma expr_list_runs es s : len s < n → runs 1 (expr_list parseExpr es) s.
Proof. intros Hn. apply runs_while; [lia|]. intros. call Hexpr. run. Qed.

(** A loop of commas and expressions. *)
Lemma parseCommaExpr_runs s : len s < n → runs 1 (parseCommaExpr parseExpr) s.
Proof.
  intros Hn. unfold parseCommaExpr. call Hexpr. last_call (runs_while 0).
  intros. run. call Hexpr. run.
Qed.

Lemma call_args_runs c s : len s < n → runs 1 (call_args parseExpr c) s.
Proof. intros Hn. unfold call_args. run. call spread_list_runs. run. Qed.

Lemma parseQualifiedParentCall_runs q s : len s < n → runs 1 (parseQualifiedParentCall parseExpr q) s.
Proof. intros Hn. unfold parseQualifiedParentCall. run. call call_args_runs. run. Qed.

Lemma string_literal_runs s : atEnd s = false → runs 1 string_literal s.
Proof.
  intros Hs. unfold string_literal. eapply runs_bind; [by apply advance_runs|intros; cbv beta zeta].
  call (runs_while 0); [|run]. intros. run.
Qed.

Lemma bound_value_runs s : len s < S n → atEnd s = false → runs 1 (bound_value parseExpr) s.
Proof.
  intros Hn Hs. unfold bound_value. run1. destruct (lambdaBoundValuesStack_ s) as [|v vs] eqn:Ev; [run|].
  eapply runs_bind; [by apply advance_runs|intros; cbv beta zeta]. run. call parseCommaExpr_runs. run.
  destruct (lambdaBoundValuesStack_ s'2) as [|v' vs'] eqn:Ev'.
  - exfalso. unfold shape in *. rewrite Ev' in *. simplify_eq. rewrite Ev in *. simpl in *. congruence.
  - eapply (runs_bind 0); [|intros; run].
    unfold runsK, modify, shape, len. simpl. rewrite Ev'. split; [lia|done].
Qed.

Lemma mapping_entry_runs es s : len s < n → runsK (turn 1) (mapping_entry d parseExpr es) s.
Proof.
  intros Hn. unfold mapping_entry. call Hexpr. run. call Hexpr. eapply (runs_bind 0).
  - case_if; [|run]. apply runs_while; [lia|]. intros. run. call Hexpr. run.
  - intros. run.
Qed.

Lemma mapping_literal_runs s : len s < S n → atEnd s = false → runs 1 (mapping_literal d parseExpr) s.
Proof.
  intros Hn Hs. unfold mapping_literal. eapply runs_bind; [by apply advance_runs|intros; cbv beta zeta].
  run. eapply (runs_bind 0); [|intros; run]. run. last_call (runs_while 0).
  intros. eapply runs_weaken; [apply mapping_entry_runs; lia|]. intros []; simpl; lia.
Qed.

Lemma hash_quote_closure_runs s : atEnd s = false → runs 1 hash_quote_closure s.
Proof.
  intros Hs. unfold hash_quote_closure. eapply runs_bind; [by apply advance_runs|intros; cbv beta zeta]. run.
Qed.

Lemma closure_end_runs e s : runs 1 (closure_end e) s.
Proof. unfold closure_end. run. Qed.

Lemma bare_closure_runs s : len s < S n → atEnd s = false → runs 1 (bare_closure parseExpr) s.
Proof.
  intros Hn Hs. unfold bare_closure. eapply runs_bind; [by apply advance_runs|intros; cbv beta zeta]. run.
  - eapply (runs_bind 1); [apply expr_list_runs; lia|intros; last_call closure_end_runs].
  - last_call closure_end_runs.
Qed.

(** A first token that is there. *)
Ltac first_token Hs := eapply runs_bind; [apply advance_runs; exact Hs|intros ? ? ? ?; cbv beta zeta].

Lemma inline_lambda_runs s : len s < S n → atEnd s = false → runs 1 (inline_lambda parseExpr) s.
Proof.
  intros Hn Hs. unfold inline_lambda. first_token Hs. run. destruct s'0 as [ts ms vs].
  pose proof (expr_list_runs [] (mkPState ts (0%Z :: ms) ([] :: vs)) ltac:(unfold len in *; simpl in *; lia)) as Hr.
  unfold runsK in Hr. unfold runsK, bind, modify, get, update. cbn -[expr_list closure_end].
  destruct (expr_list parseExpr [] _) as [[es|e| |] [ts' ms' vs']]; try done.
  destruct Hr as [Hl3 Hs3]. unfold shape in *. simpl in Hl3, Hs3.
  destruct ms' as [|m ms'], vs' as [|v vs']; try done. cbn.
  pose proof (closure_end_runs (InlineLambdaExpr es m v) (mkPState ts' ms' vs')) as Hc. unfold runsK in Hc.
  destruct (closure_end _ _) as [[e|e| |] s5]; try done. destruct Hc as [Hl5 Hs5].
  unfold len, shape in *. simpl in *. split; [lia|]. rewrite Hs5. congruence.
Qed.

Lemma closure_literal_runs s : len s < S n → atEnd s = false → runs 1 (closure_literal parseExpr) s.
Proof. intros. unfold closure_literal. run; [by apply bare_closure_runs|by apply inline_lambda_runs]. Qed.

Lemma parseBlock_runs s : len s < S n → runs 1 (parseBlock parseStatement') s.
Proof.
  intros Hn. unfold parseBlock. run. call (runs_while 0); [|run].
  intros. run. call Hstmt. run.
Qed.

Lemma anon_function_runs s : len s < S n → atEnd s = false → runs 1 (anon_function d parseStatement') s.
Proof.
  intros Hn Hs. unfold anon_function. first_token Hs. run. call parseParamList_runs. run.
  call parseBlock_runs. run.
Qed.

Lemma pointer_call_runs s : len s < S n → atEnd s = false → runs 1 (pointer_call parseExpr) s.
Proof.
  intros Hn Hs. unfold pointer_call. first_token Hs. run. call Hexpr. run. call spread_list_runs. run.
Qed.

Lemma array_literal_runs s : len s < S n → atEnd s = false → runs 1 (array_literal parseExpr) s.
Proof. intros Hn Hs. unfold array_literal. first_token Hs. run. call spread_list_runs. run. Qed.

Lemma parenthesized_runs s : len s < S n → atEnd s = false → runs 1 (parenthesized parseExpr) s.
Proof. intros Hn Hs. unfold parenthesized. first_token Hs. call parseCommaExpr_runs. run. Qed.

Lemma parent_call_runs s : len s < S n → atEnd s = false → runs 1 (parent_call parseExpr) s.
Proof. intros Hn Hs. unfold parent_call. first_token Hs. run. call call_args_runs. run. Qed.

Lemma lambda_param_runs name s : runs 0 (lambda_param name) s.
Proof.
  unfold lambda_param. run1. destruct (lambdaParamMaxStack_ s) as [|m ms] eqn:Em; [run|].
  destruct (stoi_fine (tail name)). eapply (runs_bind 0); [by apply runs_lift|intros z s' Hl Hsh; cbv beta]. run.
  eapply (runs_bind 0); [|intros; run].
  unfold runsK, modify, len, shape in *. simpl. split; [lia|]. rewrite Em in Hsh. simplify_eq. simpl in *. congruence.
Qed.

Lemma new_class_runs s : len s < n → runs 0 (new_class parseExpr) s.
Proof.
  intros Hn. unfold new_class. run. eapply (runs_bind 0); [|intros; run]. run. last_call (runs_while 1).
  intros. run. call Hexpr. run.
Qed.

Lemma efun_call_runs s : len s < n → runs 0 (efun_call parseExpr) s.
Proof. intros Hn. unfold efun_call. run. call call_args_runs. run. Qed.

Lemma catch_expr_runs s : len s < n → runs 0 (catch_expr parseExpr) s.
Proof. intros Hn. unfold catch_expr. run. call parseCommaExpr_runs. run. Qed.

Lemma named_call_runs name s : len s < n → runs 0 (named_call parseExpr name) s.
Proof.
  intros Hn. unfold named_call. run. call spread_list_runs. run.
  - destruct (sscanf_expr_fine (fst a0) (snd a0)). last_call runs_lift; done.
  - destruct (call_other_expr_fine (fst a0) (snd a0)). last_call runs_lift; done.
Qed.

Lemma identifier_runs s : len s < S n → atEnd s = false → runs 1 (identifier d parseExpr parseStatement') s.
Proof.
  intros Hn Hs. unfold identifier. first_token Hs. run.
  - last_call lambda_param_runs.
  - last_call new_class_runs.
  - last_call efun_call_runs.
  - last_call parseQualifiedParentCall_runs.
  - last_call catch_expr_runs.
  - call parseBlock_runs. run.
  - last_call named_call_runs.
Qed.

Lemma parsePrimary_runs s : len s < S n → runs 1 (parsePrimary d parseExpr parseStatement') s.
Proof.
  intros Hn. unfold parsePrimary. run1. run1; [apply string_literal_runs; not_end|].
  run1.
  { eapply (runs_bind 1); [apply advance_runs; not_end|intros t s' ? ?].
    destruct (number_literal_fine (text t)). last_call runs_lift; done. }
  run1; [run|]. run1; [run|]. run1; [apply bound_value_runs; [lia|not_end]|].
  run1; [apply mapping_literal_runs; [lia|not_end]|].
  run1; [apply hash_quote_closure_runs; not_end|].
  run1; [apply closure_literal_runs; [lia|not_end]|].
  run1; [apply anon_function_runs; [lia|not_end]|].
  run1; [run; last_call parseQualifiedParentCall_runs|].
  run1; [apply pointer_call_runs; [lia|not_end]|].
  run1; [apply array_literal_runs; [lia|not_end]|].
  run1; [apply parenthesized_runs; [lia|not_end]|].
  run1; [apply parent_call_runs; [lia|not_end]|].
  run1; [apply identifier_runs; [lia|not_end]|]. run.
Qed.

Lemma arrow_runs e s : len s < n → runs 1 (arrow d parseExpr e) s.
Proof. intros Hn. unfold arrow. run. call call_args_runs. run. Qed.

Lemma index_rest_runs s : len s < n → runs 0 (index_rest d parseExpr) s.
Proof. intros Hn. unfold index_rest. run; call Hexpr; run. Qed.

Lemma subscript_runs e s : len s < n → runs 1 (subscript d parseExpr e) s.
Proof.
  intros Hn. unfold subscript. run.
  all: first [call Hexpr | call parseCommaExpr_runs]; call index_rest_runs; run.
Qed.

Lemma postfix_chain_runs e s : len s < S n → runs 0 (postfix_chain d parseExpr e) s.
Proof.
  intros Hn. apply runs_while; [lia|]. intros. run.
  - call arrow_runs. run.
  - call subscript_runs. run.
Qed.

Lemma parsePostfix_runs s : len s < S n → runs 1 (parsePostfix d parseExpr parseStatement') s.
Proof.
  intros Hn. unfold parsePostfix. call parsePrimary_runs. call postfix_chain_runs. run.
  destruct (inc_dec_op s'0); [|run]. destruct (as_lvalue a0); run.
Qed.

(** A run measured against another state than its own, for code that goes
    back to read its tokens again. *)
Definition lands {A} (K : A → nat) (s0 : pstate) (m : M pstate A) (s : pstate) : Prop :=
  match m s with
  | (Ok a, s') => (len s' + K a ≤ len s0)%nat ∧ shape s' = shape s0
  | (Throw _, _) => True
  | _ => False
  end.

Lemma lands_bind {A B} (K : B → nat) s0 i (m : M pstate A) (f : A → M pstate B) s :
  runs i m s →
  (∀ a s', (len s' + i ≤ len s)%nat → shape s' = shape s → lands K s0 (f a) s') →
  lands K s0 (bind m f) s.
Proof.
  unfold runsK, lands, bind. destruct (m s) as [[a|e| |] s']; try done. intros [Hl Hs] Hf. by apply Hf.
Qed.

Lemma lands_ret {A} (K : A → nat) s0 a s :
  (len s + K a ≤ len s0)%nat → shape s = shape s0 → lands K s0 (ret a) s.
Proof. done. Qed.

Lemma lands_rewind {A} (K : A → nat) s0 (m : M pstate A) s :
  shape s = shape s0 → runsK K m (s <| toks := toks s0 |>) →
  lands K s0 (bind (modify (λ s, s <| toks := toks s0 |>)) (λ _, m)) s.
Proof.
  unfold runsK, lands, bind, modify. intros Hs Hm. simpl. destruct (m _) as [[a|e| |] s'']; try done.
  destruct Hm as [Hl ->]. unfold len, shape in *. simpl in *. by rewrite <- Hs.
Qed.

Lemma lands_runs {A} (K J : A → nat) s0 (m : M pstate A) s :
  runsK J m s → (∀ a, (len s + K a ≤ len s0 + J a)%nat) → shape s = shape s0 → lands K s0 m s.
Proof.
  unfold runsK, lands. destruct (m s) as [[a|e| |] s']; try done. intros [Hl ->] H Hs.
  specialize (H a). split; [lia|done].
Qed.

Lemma runs_lands {A} (K : A → nat) (m : M pstate A) s : lands K s m s → runsK K m s.
Proof. done. Qed.

Lemma accept_runs t s : runs 0 (accept t) s.
Proof. unfold accept. run. Qed.

Definition some_token (r : option ast) : nat := match r with Some _ => 1 | None => 0 end.

Lemma cast_runs s : len s < S n → runsK some_token (cast parseUnary') s.
Proof.
  intros Hn. unfold cast. run1. run1; [|run]. apply runs_lands.
  eapply lands_bind; [apply advance_runs; not_end|intros ? s1 ? ?].
  eapply lands_bind; [apply advance_runs0|intros ? s2 ? ?].
  eapply lands_bind; [apply accept_runs|intros ? s3 ? ?].
  eapply lands_bind; [apply accept_runs|intros [] s4 ? ?].
  - eapply lands_bind; [apply Hunary; lia|intros ? s5 ? ?]. apply lands_ret; [simpl; lia|congruence].
  - apply lands_rewind; [congruence|by apply runs_ret].
Qed.

Lemma class_cast_runs s : len s < S n → runsK some_token (class_cast d parseUnary') s.
Proof.
  intros Hn. unfold class_cast. run1. run1; [|run]. apply runs_lands.
  eapply lands_bind; [apply advance_runs; not_end|intros ? s1 ? ?].
  eapply lands_bind; [apply advance_runs0|intros ? s2 ? ?].
  eapply lands_bind; [apply advance_runs0|intros ? s2' ? ?].
  eapply lands_bind; [apply accept_runs|intros ? s3 ? ?].
  eapply lands_bind; [apply accept_runs|intros [] s4 ? ?].
  - eapply lands_bind; [apply Hunary; lia|intros ? s5 ? ?]. apply lands_ret; [simpl; lia|congruence].
  - apply lands_rewind; [congruence|by apply runs_ret].
Qed.

Lemma prefix_inc_dec_runs op s : len s < n → runs 1 (prefix_inc_dec parseUnary' op) s.
Proof. intros Hn. unfold prefix_inc_dec. call Hunary. destruct (as_lvalue a); run. Qed.

Lemma assignment_runs s : len s < S n → runs 1 (assignment d parseExpr parseStatement') s.
Proof.
  intros Hn. unfold assignment. call parsePostfix_runs. run. destruct (assign_op s'); [|run].
  destruct (as_lvalue a); [|run]. run. call Hexpr. run.
Qed.

Lemma find_op_atEnd ops s op : find_op ops s = Some op → atEnd s = false.
Proof.
  unfold find_op. destruct (List.find _ _) as [o|] eqn:E; [|done]. intros _.
  apply find_some in E as [_ ?]. by eapply checkText_atEnd.
Qed.

Lemma unary_op_atEnd s op : unary_op s = Some op → atEnd s = false.
Proof. unfold unary_op. repeat case_match; try done; intros _; by eapply checkText_atEnd. Qed.

Lemma inc_dec_op_atEnd s op : inc_dec_op s = Some op → atEnd s = false.
Proof. unfold inc_dec_op. repeat case_match; try done; intros _; by eapply checkText_atEnd. Qed.

Lemma binary_level_runs ops next s :
  (∀ s, len s < S n → runs 1 next s) → len s < S n → runs 1 (binary_level ops next) s.
Proof.
  intros Hnext Hn. unfold binary_level. call Hnext. last_call (runs_while 0).
  intros e s1 Hl Hs1. run. destruct (find_op ops s1) as [op|] eqn:E; [|run].
  first_token (find_op_atEnd _ _ _ E). call Hnext. run.
Qed.

Lemma parseUnary_runs s : len s < S n → runs 1 (parseUnary d parseExpr parseUnary' parseStatement') s.
Proof.
  intros Hn. unfold parseUnary. apply runs_lands.
  (* the casts may or may not have taken a token *)
  pose proof (cast_runs s Hn) as Hc. unfold runsK in Hc. unfold lands, bind at 1.
  destruct (cast parseUnary' s) as [[[e|]|e| |] s1]; try done. destruct Hc as [Hl1 Hs1]. simpl in Hl1.
  pose proof (class_cast_runs s1 ltac:(lia)) as Hc. unfold runsK in Hc. unfold bind at 1.
  destruct (class_cast d parseUnary' s1) as [[[e|]|e| |] s2]; try done.
  - destruct Hc as [Hl2 Hs2]. simpl in *. split; [lia|congruence].
  - destruct Hc as [Hl2 Hs2]. simpl in Hl2.
    assert (runs 1 (do* s := get in
      match unary_op s with
      | Some op => do* _ := advance in do* operand := parseUnary' in ret (UnaryExpr op operand)
      | None => match inc_dec_op s with
                | Some op => do* _ := advance in prefix_inc_dec parseUnary' op
                | None => assignment d parseExpr parseStatement'
                end
      end) s2) as Hr.
    { run. destruct (unary_op s2) eqn:E; [first_token (unary_op_atEnd _ _ E); call Hunary; run|].
      destruct (inc_dec_op s2) eqn:E2; [|apply assignment_runs; lia].
      first_token (inc_dec_op_atEnd _ _ E2). last_call prefix_inc_dec_runs. }
    unfold runsK in Hr. destruct ((do* s := get in _) s2) as [[e|e| |] s3]; try done.
    destruct Hr as [? ->]. split; [lia|congruence].
Qed.

Lemma parseLogicalOr_runs s : len s < S n → runs 1 (parseLogicalOr d parseExpr parseUnary' parseStatement') s.
Proof. revert s. repeat (intros ? ?; apply binary_level_runs; [|done]). apply parseUnary_runs. Qed.

Lemma parseTernary_runs s : len s < S n → runs 1 (parseTernary d parseExpr parseUnary' parseStatement') s.
Proof.
  intros Hn. unfold parseTernary. call parseLogicalOr_runs. run. call Hexpr. run. call Hexpr. run.
Qed.

(** ** Statements *)

Lemma comma_statements_runs sts s : len s < n → runs 0 (comma_statements parseExpr sts) s.
Proof. intros Hn. apply runs_while; [lia|]. intros. run. call Hexpr. run. Qed.

Lemma parseCommaExprChain_runs s : len s < n → runs 1 (parseCommaExprChain parseExpr) s.
Proof. intros Hn. unfold parseCommaExprChain. call Hexpr. run. call comma_statements_runs. run. Qed.

Lemma continue_chain_runs st s : len s < n → runs 0 (continueStatementCommaChain parseExpr st) s.
Proof. intros Hn. unfold continueStatementCommaChain. run. call comma_statements_runs. run. Qed.

Lemma optional_runs close m s : (len s < n → runs 1 m s) → len s < n → runs 0 (optional close m) s.
Proof. intros Hm Hn. unfold optional. run. call Hm. run. Qed.

Lemma initializer_runs s : len s < n → runs 0 (initializer parseExpr) s.
Proof. intros Hn. unfold initializer. run. call Hexpr. run. Qed.

Lemma parseSingleVarDecl_runs ty a s : len s < S n → runs 1 (parseSingleVarDecl parseExpr ty a) s.
Proof. intros Hn. unfold parseSingleVarDecl. run. call initializer_runs. run. Qed.

Lemma parseVarDeclStatement_runs s : len s < S n → runs 1 (parseVarDeclStatement d parseExpr) s.
Proof.
  intros Hn. unfold parseVarDeclStatement. call parseTypeToken_runs. call parseSingleVarDecl_runs. run.
  call (runs_while 0); [|run]. intros. run. call consumeArrayMarker_runs. call parseSingleVarDecl_runs. run.
Qed.

Lemma parseAssignStatement_runs s : len s < S n → runs 1 (parseAssignStatement parseExpr) s.
Proof. intros Hn. unfold parseAssignStatement. run. call Hexpr. call continue_chain_runs. run. Qed.

Lemma parseBranch_runs s : len s < n → runs 1 (parseBranch parseStatement') s.
Proof. intros Hn. unfold parseBranch. run; [apply parseBlock_runs; lia|]. call Hstmt. run. Qed.

Lemma condition_runs c s : len s < S n → runs 1 (condition parseExpr c) s.
Proof. intros Hn. unfold condition. run. call parseCommaExpr_runs. run. Qed.

Lemma parseIfStatement_runs s : len s < S n → runs 1 (parseIfStatement parseExpr parseStatement') s.
Proof.
  intros Hn. unfold parseIfStatement. run. call condition_runs. call parseBranch_runs. run.
  call parseBranch_runs. run.
Qed.

Lemma parseWhileStatement_runs s : len s < S n → runs 1 (parseWhileStatement parseExpr parseStatement') s.
Proof. intros Hn. unfold parseWhileStatement. run. call condition_runs. call parseBranch_runs. run. Qed.

Lemma parseDoWhileStatement_runs s : len s < S n → runs 1 (parseDoWhileStatement parseExpr parseStatement') s.
Proof. intros Hn. unfold parseDoWhileStatement. run. call parseBranch_runs. run. call condition_runs. run. Qed.

Lemma for_init_runs s : len s < n → runs 1 (for_init d parseExpr) s.
Proof.
  intros Hn. unfold for_init. run; [|last_call parseCommaExprChain_runs].
  call parseTypeToken_runs. last_call parseSingleVarDecl_runs.
Qed.

Lemma parseForStatement_runs s : len s < S n → runs 1 (parseForStatement d parseExpr parseStatement') s.
Proof.
  intros Hn. unfold parseForStatement. run.
  eapply runs_bind; [apply optional_runs; [apply for_init_runs|lia]|intros; cbv beta]. run.
  eapply runs_bind; [apply optional_runs; [apply parseCommaExpr_runs|lia]|intros; cbv beta]. run.
  eapply runs_bind; [apply optional_runs; [apply parseCommaExprChain_runs|lia]|intros; cbv beta]. run.
  call parseBranch_runs. run.
Qed.

Lemma parseForeachVar_runs s : runs 1 (parseForeachVar d) s.
Proof. unfold parseForeachVar. run. call parseTypeToken_runs. run. Qed.

Lemma parseForeachStatement_runs s : len s < S n → runs 1 (parseForeachStatement d parseExpr parseStatement') s.
Proof.
  intros Hn. unfold parseForeachStatement. run. call parseForeachVar_runs. run.
  - call parseForeachVar_runs. run. call Hexpr. run. call parseBranch_runs. run.
  - call Hexpr. run. call parseBranch_runs. run.
Qed.

Lemma case_label_runs s : len s < n → runs 1 (case_label parseExpr) s.
Proof. intros Hn. unfold case_label. call Hexpr. run. call Hexpr. run. Qed.

Lemma switch_item_runs s : len s < n → runs 1 (switch_item parseExpr parseStatement') s.
Proof. intros Hn. unfold switch_item. run; [last_call case_label_runs|last_call Hstmt]. Qed.

Lemma parseSwitchStatement_runs s : len s < S n → runs 1 (parseSwitchStatement parseExpr parseStatement') s.
Proof.
  intros Hn. unfold parseSwitchStatement. run. call condition_runs. run. call (runs_while 0); [|run].
  intros. run. call switch_item_runs. run.
Qed.

Lemma parseReturnStatement_runs s : len s < S n → runs 1 (parseReturnStatement parseExpr) s.
Proof.
  intros Hn. unfold parseReturnStatement. run.
  eapply runs_bind; [apply optional_runs; [apply parseCommaExpr_runs|lia]|intros; cbv beta]. run.
Qed.

Lemma expression_statement_runs s :
  len s < S n → runs 1 (expression_statement d parseExpr parseUnary' parseStatement') s.
Proof. intros Hn. unfold expression_statement. call parseTernary_runs. call continue_chain_runs. run. Qed.

Lemma index_statement_runs s :
  len s < S n → runs 1 (index_statement d parseExpr parseUnary' parseStatement') s.
Proof.
  intros Hn. unfold index_statement. run1. apply runs_lands.
  eapply lands_bind; [by apply parsePostfix_runs|intros e s1 Hl Hs1; cbv beta].
  assert (lands (λ _, 1) s (do* _ := modify (λ s', s' <| toks := toks s |>) in
            expression_statement d parseExpr parseUnary' parseStatement') s1) as Hagain.
  { apply lands_rewind; [done|]. by apply expression_statement_runs. }
  eapply (lands_bind _ _ 0); [unfold runsK; split; [lia|done]|intros s2 s3 Hl2 Hs2; cbv beta].
  assert (lands (λ _, 1) s (do* _ := modify (λ s', s' <| toks := toks s |>) in
            expression_statement d parseExpr parseUnary' parseStatement') s3) as Hagain3.
  { apply lands_rewind; [congruence|]. by apply expression_statement_runs. }
  clear Hagain. destruct e; try exact Hagain3.
  destruct (assign_op s2) as [op|]; [|exact Hagain3].
  eapply lands_bind; [apply advance_runs0|intros; cbv beta].
  eapply lands_bind; [apply Hexpr; lia|intros; cbv beta].
  eapply lands_bind; [apply continue_chain_runs; lia|intros; cbv beta].
  eapply lands_bind; [apply expectText_runs|intros; cbv beta]. apply lands_ret; [lia|congruence].
Qed.

Lemma parseStatement_runs s : len s < S n → runs 1 (parseStatement d parseExpr parseUnary' parseStatement') s.
Proof.
  intros Hn. unfold parseStatement. run1. run1; [run|].
  run1; [by apply parseBlock_runs|]. run1; [by apply parseIfStatement_runs|].
  run1; [by apply parseWhileStatement_runs|]. run1; [by apply parseDoWhileStatement_runs|].
  run1; [by apply parseForStatement_runs|]. run1; [by apply parseForeachStatement_runs|].
  run1; [by apply parseSwitchStatement_runs|]. run1; [by apply parseReturnStatement_runs|].
  run1; [unfold parseBreakStatement; run|]. run1; [unfold parseContinueStatement; run|].
  run1; [by apply parseVarDeclStatement_runs|]. run1; [by apply parseAssignStatement_runs|].
  run1; [by apply index_statement_runs|]. by apply expression_statement_runs.
Qed.
End Recursion.

(** ** Programs *)

Lemma parsers_run n :
  (∀ s, len s < n → runs 1 (p_expr (parsers_at d n)) s) ∧
  (∀ s, len s < n → runs 1 (p_unary (parsers_at d n)) s) ∧
  (∀ s, len s < n → runs 1 (p_statement (parsers_at d n)) s).
Proof.
  induction n as [|n (He & Hu & Hs)]; [split_and!; intros; lia|]. simpl.
  split_and!; intros s Hn; simpl;
    [apply (parseTernary_runs n)|apply (parseUnary_runs n)|apply (parseStatement_runs n)]; done.
Qed.

Section Program.
Context (n : nat) (p : parsers).
Context (Hexpr : ∀ s, len s < n → runs 1 (p_expr p) s).
Context (Hstmt : ∀ s, len s < n → runs 1 (p_statement p) s).

Lemma skip_modifiers_runs s : runs 0 (skip_modifiers d) s.
Proof. apply runs_while; [lia|]. intros. run. Qed.

Lemma decl_type_runs s : runs 0 (decl_type d) s.
Proof. unfold decl_type. run; call consumeArrayMarker_runs; run. Qed.

Lemma parseDeclPrefix_runs c s : runs 1 (parseDeclPrefix d c) s.
Proof. unfold parseDeclPrefix. call skip_modifiers_runs. call decl_type_runs. run. Qed.

Lemma parseFunctionRest_runs pre s : len s < n → runs 0 (parseFunctionRest d p pre) s.
Proof.
  intros Hn. unfold parseFunctionRest. run. call parseParamList_runs. run.
  eapply runs_bind; [apply (parseBlock_runs n); [done|lia]|intros; cbv beta]. run.
Qed.

Lemma parseObjectVarDeclRest_runs pre s : len s < n → runs 0 (parseObjectVarDeclRest p pre) s.
Proof.
  intros Hn. unfold parseObjectVarDeclRest.
  eapply runs_bind; [apply (initializer_runs n); done|intros; cbv beta].
  call (runs_while 0); [|run]. intros. run. call consumeArrayMarker_runs. run.
  eapply runs_bind; [apply (initializer_runs n); [done|lia]|intros; cbv beta]. run.
Qed.

Lemma parseInheritStatement_runs pr s : runs 1 (parseInheritStatement pr) s.
Proof.
  unfold parseInheritStatement, parseInheritPathString. run. call (runs_while 0); [|run]. intros. run.
Qed.

Lemma parseClassDecl_runs s : runs 1 (parseClassDecl d) s.
Proof.
  unfold parseClassDecl. run. call (runs_while 0); [|run]. intros. run.
  call parseTypeToken_runs. unfold member_names. call (runs_while 1); [|run].
  intros. call consumeArrayMarker_runs. run.
Qed.

Lemma advances_runs k s : runs 0 (advances k) s.
Proof. revert s. induction k; intros s; simpl; [run|]. run. last_call IHk. Qed.

Lemma declaration_runs pr s : len s < n → runs 1 (declaration d p pr) s.
Proof.
  intros Hn. unfold declaration. run1. cbv zeta. run1; [apply parseInheritStatement_runs|].
  run1; [call advances_runs; last_call parseInheritStatement_runs|].
  run1; [call advances_runs; run; call parseClassDecl_runs; run|].
  call parseDeclPrefix_runs. run.
  - call parseFunctionRest_runs. run.
  - call parseObjectVarDeclRest_runs. run.
Qed.

Lemma program_loop_runs pr s : len s < n → runs 0 (program_loop d p pr) s.
Proof. intros Hn. apply runs_while; [lia|]. intros. run. call declaration_runs. run. Qed.
End Program.

(** C22: The parser ends on every list of tokens, with a program or with an
    exception: its recursion and its loops are bounded by the number of
    tokens, and it never reads the stack of a lambda that is not there. *)
Theorem parse_total tokens :
  (∃ p, parseProgram d tokens = Ok p) ∨ (∃ e, parseProgram d tokens = Throw e).
Proof.
  unfold parseProgram. destruct (parsers_run (S (length tokens))) as (He & _ & Hs).
  pose proof (program_loop_runs (S (length tokens)) _ He Hs (mkProgram [] [] [] []) (initial tokens) ltac:(unfold len; simpl; lia)) as Hr.
  unfold runsK in Hr. destruct (program_loop d _ _ (initial tokens)) as [[p|e| |] s]; naive_solver.
Qed.
End Total.
