(* ===== verification/Grammar.v ===== *)
(** * The grammar of LPC

    What a list of tokens means, as an attribute grammar: a derivation gives
    the tree and the effect on the stacks of lambdas.  The levels of [expr]
    are the precedences of the language, loosest first: 1 the conditional, 2
    to 11 the binary operators, 12 the unary operators and casts, 13 the
    increments, 14 calls and subscripts, 15 the rest.  An assignment takes
    everything to its right as its value, so an expression that ends in one is
    [open]: no operator can follow it.

    The last token, of another type than the others, is not part of a text. *)

From S2P Require Import Prelude Doubles Config Lexer Ast Parser.

(** ** Tokens *)

Definition sym (t : bytes) (n : Z) : Token := mkToken TSymbol t n.
Definition kw (t : bytes) (n : Z) : Token := mkToken TKeyword t n.
Definition ident (t : bytes) (n : Z) : Token := mkToken TIdent t n.

(** The keywords of any dialect that stand for a type. *)
Definition type_word (t : bytes) : bool :=
  bool_decide (t ∈ kKeywords ++ kDgdOnlyKeywords) && negb (bool_decide (t ∈ nonTypeKeywords)).

(** A name that is not a lambda parameter. *)
Definition plain_name (name : bytes) : bool :=
  match name with c :: _ => negb (Ascii.eqb c "$") | [] => true end.

(** ** Contexts: the two stacks of lambdas *)

Definition ctx : Type := list Z * list (list ast).

(** ** Operators *)

Definition binary_ops (level : nat) : list (bytes * BinOp) :=
  match level with
  | 2 => [($"||", Or)]
  | 3 => [($"&&", And)]
  | 4 => [($"|", BitOr)]
  | 5 => [($"^", BitXor)]
  | 6 => [($"&", BitAnd)]
  | 7 => [($"==", Eq); ($"!=", Neq)]
  | 8 => [($"<", Lt); ($"<=", Lte); ($">", Gt); ($">=", Gte)]
  | 9 => [($"<<", Shl); ($">>", Shr)]
  | 10 => [($"+", Add); ($"-", Sub)]
  | 11 => [($"*", Mul); ($"/", Div); ($"%", Mod)]
  | _ => []
  end%nat.

Definition unary_ops : list (bytes * UnaryOp) := [($"!", Not); ($"-", Neg); ($"~", BitNot)].

Definition inc_dec_ops : list (bytes * IncDecOp) := [($"++", Inc); ($"--", Dec)].

(** The assignment operators, with [isCompound] and [compoundOp]. *)
Definition assign_ops : list (bytes * (bool * BinOp)) :=
  ($"=", (false, Add)) :: map (λ o, (fst o, (true, snd o))) kCompoundOps.

(** What may be assigned: a variable, or an element counted from the start.
    (The parser also takes an element counted from the end, and forgets that
    it is.) *)
Definition target_of (e : ast) : option lvalue :=
  match e with
  | VarRefExpr name => Some (LVar name)
  | IndexExpr target index None false false mapColumn => Some (LIndex target index mapColumn)
  | _ => None
  end.

(** An optional token. *)
Definition opt (b : bool) (t : Token) : list Token := if b then [t] else [].

Section Grammar.
Context (d : LpcDialect).

(** ** Types and parameters *)

(** [array] is taken for a part of the type; that a name is not [::] is
    tested by its text. *)
Definition declarable (name : bytes) : bool := negb (bool_decide (name ∈ [$"array"; $"::"])).

(** [*], [array] or nothing *)
Inductive marker : bool → list Token → Prop :=
  | marker_none : marker false []
  | marker_star n : marker true [sym $"*" n]
  | marker_array n : marker true [ident $"array" n].

Inductive type_tokens : TypeToken → list Token → Prop :=
  | type_keyword t n b ts :
      type_word t = true → marker b ts → type_tokens (t, b) (kw t n :: ts)
  | type_class name n m b ts :
      d = FluffOS → marker b ts → type_tokens ($"class:" ++ name, b) (ident $"class" n :: ident name m :: ts)
  | type_array n : type_tokens ($"mixed", true) [ident $"array" n].

(** The name of a parameter is optional. *)
Inductive param : Param → list Token → Prop :=
  | param_named ty ts name n :
      type_tokens ty ts → declarable name = true →
      param (mkParam (fst ty) name (snd ty)) (ts ++ [ident name n])
  | param_unnamed ty ts : type_tokens ty ts → param (mkParam (fst ty) [] (snd ty)) ts.

Inductive param_list : list Param → list Token → Prop :=
  | param_one p ts : param p ts → param_list [p] ts
  | param_more p ts n ps ts' :
      param p ts → param_list ps ts' → param_list (p :: ps) (ts ++ sym $"," n :: ts').

(** The parameters and whether they end in [...] *)
Inductive params : list Param → bool → list Token → Prop :=
  | params_none : params [] false []
  | params_some ps ts b n : param_list ps ts → params ps b (ts ++ opt b (sym $"..." n)).

(** The variable of a [foreach] *)
Inductive foreach_var : ForeachVarSpec → list Token → Prop :=
  | fv_decl ty ts name n :
      type_tokens ty ts → declarable name = true →
      foreach_var (mkForeachVar name true (class_of (fst ty))) (ts ++ [ident name n])
  | fv_plain name n : foreach_var (mkForeachVar name false []) [ident name n].

(** ** What may start a parenthesised expression *)

(** [)] or [* )] *)
Definition cast_closes (ts : list Token) : bool :=
  match ts with
  | a :: b :: _ => bool_decide (text a = $")") || (bool_decide (text a = $"*") && bool_decide (text b = $")"))
  | [a] => bool_decide (text a = $")")
  | [] => false
  end.

(** [( type )] or [( type * )] *)
Definition is_cast (ts : list Token) : bool :=
  match ts with
  | _ :: k :: ts =>
      isTypeKeyword k && cast_closes ts ||
      bool_decide (d = FluffOS) && bool_decide (type k = TIdent) && bool_decide (text k = $"class") &&
        match ts with c :: ts => bool_decide (type c = TIdent) && cast_closes ts | [] => false end
  | _ => false
  end.

(** The token after the parenthesis is not one that the parser takes, by its
    text alone, for the start of a literal or of a call through a pointer. *)
Definition opens_literal (ts : list Token) : bool :=
  match ts with
  | t :: _ => bool_decide (text t ∈ [$"["; $":"; $"*"; $"{"])
  | [] => false
  end.

(** A name alone, before a comma or the end, in [(: ... :)] *)
Definition bare_name (ts : list Token) : bool :=
  match ts with
  | a :: b :: _ =>
      bool_decide (type a = TIdent) && match text a with [] => false | _ => plain_name (text a) end &&
      bool_decide (type b = TSymbol) && bool_decide (text b ∈ [$","; $":"])
  | _ => false
  end.

(** The call is the [new(class ...)] form. *)
Definition new_class_call (name : bytes) (ts : list Token) : bool :=
  bool_decide (name = $"new") && bool_decide (d = FluffOS) &&
  match ts with t :: _ => bool_decide (text t = $"class") | [] => false end.

(** ** Statements, by how they start *)

(** A symbol or keyword comes first. *)
Definition begins (t : bytes) (ts : list Token) : bool :=
  match ts with
  | a :: _ => bool_decide (type a ∈ [TSymbol; TKeyword]) && bool_decide (text a = t)
  | [] => false
  end.

(** The tokens start a statement that is told by its first tokens. *)
Definition statement_keywords : list bytes := [
  $";"; $"{"; $"if"; $"while"; $"do"; $"for"; $"foreach"; $"switch"; $"return"; $"break"; $"continue"].

Definition starts_keyword (ts : list Token) : bool :=
  existsb (λ t, begins t ts) statement_keywords.

Definition starts_type (ts : list Token) : bool := startsType d (initial ts).

(** [name =] *)
Definition starts_assign (ts : list Token) : bool :=
  match ts with
  | a :: b :: _ => bool_decide (type a = TIdent) && bool_decide (type b = TSymbol) && bool_decide (text b = $"=")
  | _ => false
  end.

(** [name \[] or [name ->] *)
Definition starts_index (ts : list Token) : bool :=
  match ts with
  | a :: b :: _ =>
      bool_decide (type a = TIdent) && bool_decide (type b = TSymbol) && bool_decide (text b ∈ [$"["; $"->"])
  | _ => false
  end.

(** Several statements where one is expected. *)
Definition chained (first : ast) (rest : list ast) : ast :=
  match rest with [] => first | _ => Block (first :: rest) false end.

(** ** Expressions *)

Inductive expr : nat → ctx → ast → list Token → ctx → Prop :=
  | x_up l c e ts c' : (1 ≤ l < 15)%nat → expr (S l) c e ts c' → expr l c e ts c'
  | x_ternary c a ts1 c1 n b ts2 c2 m e ts3 c3 :
      expr 2 c a ts1 c1 → full c1 b ts2 c2 → full c2 e ts3 c3 →
      expr 1 c (TernaryExpr a b e) (ts1 ++ sym $"?" n :: ts2 ++ sym $":" m :: ts3) c3
  | x_binary l c a ts1 c1 t op n b ts2 c2 :
      (t, op) ∈ binary_ops l → expr l c a ts1 c1 → expr (S l) c1 b ts2 c2 →
      expr l c (BinaryExpr op a b) (ts1 ++ sym t n :: ts2) c2
  | x_unary c t op n e ts c' :
      (t, op) ∈ unary_ops → expr 12 c e ts c' → expr 12 c (UnaryExpr op e) (sym t n :: ts) c'
  | x_prefix c t op n e l ts c' :
      (t, op) ∈ inc_dec_ops → expr 12 c e ts c' → target_of e = Some l →
      expr 12 c (inc_dec op true l) (sym t n :: ts) c'
  | x_cast c n k n1 star n2 m e ts c' :
      type_word k = true → expr 12 c e ts c' →
      expr 12 c e (sym $"(" n :: kw k n1 :: opt star (sym $"*" n2) ++ sym $")" m :: ts) c'
  | x_class_cast c n n1 name n2 (star : bool) n3 m e ts c' :
      d = FluffOS → expr 12 c e ts c' →
      expr 12 c (if star then e else TypeCastExpr name e)
        (sym $"(" n :: ident $"class" n1 :: ident name n2 :: opt star (sym $"*" n3) ++ sym $")" m :: ts) c'
  | x_postfix c e l ts c' t op n :
      (t, op) ∈ inc_dec_ops → expr 14 c e ts c' → target_of e = Some l →
      expr 13 c (inc_dec op false l) (ts ++ [sym t n]) c'
  | x_member c e ts c' n name m :
      d = FluffOS → expr 14 c e ts c' →
      expr 14 c (IndexExpr e (MemberNameMarker name) None false false None)
        (ts ++ [sym $"->" n; ident name m]) c'
  | x_arrow c e ts c1 n name m k es fs ts2 c2 q :
      expr 14 c e ts c1 → elist c1 es fs ts2 c2 →
      expr 14 c (CallOtherExpr e (StringLiteral name) es fs)
        (ts ++ sym $"->" n :: ident name m :: sym $"(" k :: ts2 ++ [sym $")" q]) c2
  | x_index c e ts c1 n from m i ts1 c2 re fe col ts2 c3 q :
      expr 14 c e ts c1 → key c1 i ts1 c2 → range c2 re fe col ts2 c3 →
      expr 14 c (IndexExpr e i re from fe col)
        (ts ++ sym $"[" n :: opt from (sym $"<" m) ++ ts1 ++ ts2 ++ [sym $"]" q]) c3
  | x_string c t ts :
      Forall (λ t, type t = TString) (t :: ts) →
      expr 15 c (StringLiteral (concat (map text (t :: ts)))) (t :: ts) c
  | x_number c t n e : number_literal t = Ok e → expr 15 c e [mkToken TNumber t n] c
  | x_nil c n : d = DGD → expr 15 c NilLiteral [kw $"nil" n] c
  | x_symbol c t n : expr 15 c (SymbolLiteralExpr t) [mkToken TQuotedSymbol t n] c
  | x_bound ms vs bs n m e ts ms' vs' bs' q :
      comma (ms, vs :: bs) e ts (ms', vs' :: bs') →
      expr 15 (ms, vs :: bs) (LambdaParamExpr (size vs') true)
        (sym $"$" n :: sym $"(" m :: ts ++ [sym $")" q]) (ms', (vs' ++ [e]) :: bs')
  | x_mapping_empty c n m p q :
      expr 15 c (MappingLiteralExpr []) [sym $"(" n; sym $"[" m; sym $"]" p; sym $")" q] c
  | x_mapping w c es ts c' n m p q :
      entries w c es ts c' →
      expr 15 c (MappingLiteralExpr es) (sym $"(" n :: sym $"[" m :: ts ++ [sym $"]" p; sym $")" q]) c'
  | x_hash_efun c n m p name q :
      d = LdMud →
      expr 15 c (ClosureLiteralExpr name [] true)
        [sym $"#'" n; ident $"efun" m; sym $"::" p; ident name q] c
  | x_hash c n name m : d = LdMud → name ≠ $"efun" → expr 15 c (ClosureLiteralExpr name [] false) [sym $"#'" n; ident name m] c
  | x_closure c n m name k p q :
      name ≠ [] → plain_name name = true →
      expr 15 c (ClosureLiteralExpr name [] false)
        [sym $"(" n; sym $":" m; ident name k; sym $":" p; sym $")" q] c
  | x_closure_bound c n m name k r es ts c' p q :
      name ≠ [] → plain_name name = true → exprs c es ts c' →
      expr 15 c (ClosureLiteralExpr name es false)
        (sym $"(" n :: sym $":" m :: ident name k :: sym $"," r :: ts ++ [sym $":" p; sym $")" q]) c'
  | x_lambda ms bs n m es ts k ms' vs bs' p q :
      exprs (0 :: ms, [] :: bs) es ts (k :: ms', vs :: bs') → bare_name (ts ++ [sym $":" p]) = false →
      expr 15 (ms, bs) (InlineLambdaExpr es k vs)
        (sym $"(" n :: sym $":" m :: ts ++ [sym $":" p; sym $")" q]) (ms', bs')
  | x_function c n m ps va ts p k sts ts2 q :
      params ps va ts → stmts c sts ts2 →
      expr 15 c (AnonFunctionExpr ps va (Block sts true))
        (kw $"function" n :: sym $"(" m :: ts ++ sym $")" p :: sym $"{" k :: ts2 ++ [sym $"}" q]) c
  | x_type_parent c k n m name p q es fs ts c' r :
      type_word k = true → elist c es fs ts c' →
      expr 15 c (CallExpr name es fs false true k)
        (kw k n :: sym $"::" m :: ident name p :: sym $"(" q :: ts ++ [sym $")" r]) c'
  | x_pointer c n m e ts c1 p q es fs ts2 c2 r :
      full c e ts c1 → elist c1 es fs ts2 c2 →
      expr 15 c (CallExpr $"evaluate" (e :: es) (match fs with [] => [] | fs => false :: fs end) true false [])
        (sym $"(" n :: sym $"*" m :: ts ++ sym $")" p :: sym $"(" q :: ts2 ++ [sym $")" r]) c2
  | x_array c n m es fs ts c' p q :
      elist c es fs ts c' →
      expr 15 c (ArrayLiteralExpr es fs) (sym $"(" n :: sym $"{" m :: ts ++ [sym $"}" p; sym $")" q]) c'
  | x_paren c n e ts c' q :
      comma c e ts c' → opens_literal ts = false → is_cast (sym $"(" n :: ts ++ [sym $")" q]) = false →
      expr 15 c e (sym $"(" n :: ts ++ [sym $")" q]) c'
  | x_parent c m name p q es fs ts c' r :
      elist c es fs ts c' →
      expr 15 c (CallExpr name es fs false true [])
        (sym $"::" m :: ident name p :: sym $"(" q :: ts ++ [sym $")" r]) c'
  | x_param m ms bs name n k :
      stoi name = Ok k → 1 ≤ k →
      expr 15 (m :: ms, bs) (LambdaParamExpr (k - 1) false) [ident ("$"%char :: name) n] (Z.max m k :: ms, bs)
  | x_new_empty c n p q name r s :
      d = FluffOS →
      expr 15 c (NewClassExpr name [])
        [ident $"new" n; sym $"(" p; ident $"class" q; ident name r; sym $")" s] c
  | x_new c n p q name r fs ts c' s :
      d = FluffOS → fields c fs ts c' →
      expr 15 c (NewClassExpr name fs)
        (ident $"new" n :: sym $"(" p :: ident $"class" q :: ident name r :: ts ++ [sym $")" s]) c'
  | x_efun c n m name p q es fs ts c' r :
      elist c es fs ts c' →
      expr 15 c (CallExpr name es fs true false [])
        (ident $"efun" n :: sym $"::" m :: ident name p :: sym $"(" q :: ts ++ [sym $")" r]) c'
  | x_qualified c k n m name p q es fs ts c' r :
      plain_name k = true → k ≠ $"efun" → elist c es fs ts c' →
      expr 15 c (CallExpr name es fs false true k)
        (ident k n :: sym $"::" m :: ident name p :: sym $"(" q :: ts ++ [sym $")" r]) c'
  | x_catch c n m e ts c' q :
      comma c e ts c' → expr 15 c (CatchExpr e) (ident $"catch" n :: sym $"(" m :: ts ++ [sym $")" q]) c'
  | x_time c n m sts ts q :
      stmts c sts ts →
      expr 15 c (TimeExpressionExpr (Block sts true))
        (ident $"time_expression" n :: sym $"{" m :: ts ++ [sym $"}" q]) c
  | x_var c name n : plain_name name = true → expr 15 c (VarRefExpr name) [ident name n] c
  | x_call c name n m es fs ts c' q :
      plain_name name = true → name ∉ [$"catch"; $"sscanf"; $"call_other"] →
      new_class_call name ts = false → elist c es fs ts c' →
      expr 15 c (CallExpr name es fs false false []) (ident name n :: sym $"(" m :: ts ++ [sym $")" q]) c'
  | x_sscanf c n m es fs ts c' q e :
      elist c es fs ts c' → sscanf_expr es fs = Ok e →
      expr 15 c e (ident $"sscanf" n :: sym $"(" m :: ts ++ [sym $")" q]) c'
  | x_call_other c n m es fs ts c' q e :
      elist c es fs ts c' → call_other_expr es fs = Ok e →
      expr 15 c e (ident $"call_other" n :: sym $"(" m :: ts ++ [sym $")" q]) c'

(** Expressions that end in an assignment *)
with open : nat → ctx → ast → list Token → ctx → Prop :=
  | o_assign c e l ts c1 t op n v ts2 c2 :
      (t, op) ∈ assign_ops → expr 14 c e ts c1 → target_of e = Some l → full c1 v ts2 c2 →
      open 12 c (assign l v op) (ts ++ sym t n :: ts2) c2
  | o_unary c t op n e ts c' :
      (t, op) ∈ unary_ops → open 12 c e ts c' → open 12 c (UnaryExpr op e) (sym t n :: ts) c'
  | o_cast c n k n1 star n2 m e ts c' :
      type_word k = true → open 12 c e ts c' →
      open 12 c e (sym $"(" n :: kw k n1 :: opt star (sym $"*" n2) ++ sym $")" m :: ts) c'
  | o_class_cast c n n1 name n2 (star : bool) n3 m e ts c' :
      d = FluffOS → open 12 c e ts c' →
      open 12 c (if star then e else TypeCastExpr name e)
        (sym $"(" n :: ident $"class" n1 :: ident name n2 :: opt star (sym $"*" n3) ++ sym $")" m :: ts) c'
  | o_binary l c a ts1 c1 t op n l' b ts2 c2 :
      (t, op) ∈ binary_ops l → expr l c a ts1 c1 → (l < l')%nat → open l' c1 b ts2 c2 →
      open l c (BinaryExpr op a b) (ts1 ++ sym t n :: ts2) c2

(** Expressions *)
with full : ctx → ast → list Token → ctx → Prop :=
  | f_closed c e ts c' : expr 1 c e ts c' → full c e ts c'
  | f_open l c e ts c' : (1 ≤ l)%nat → open l c e ts c' → full c e ts c'

(** Expressions with the comma operator *)
with comma : ctx → ast → list Token → ctx → Prop :=
  | c_one c e ts c' : full c e ts c' → comma c e ts c'
  | c_more c a ts c1 n b ts2 c2 :
      comma c a ts c1 → full c1 b ts2 c2 → comma c (CommaExpr a b) (ts ++ sym $"," n :: ts2) c2

(** The key of a subscript *)
with key : ctx → ast → list Token → ctx → Prop :=
  | k_full c e ts c' : d = LdMud → full c e ts c' → key c e ts c'
  | k_comma c e ts c' : d ≠ LdMud → comma c e ts c' → key c e ts c'

(** What follows it: the end of a range, a column, or nothing *)
with range : ctx → option ast → bool → option ast → list Token → ctx → Prop :=
  | r_none c : range c None false None [] c
  | r_column c n e ts c' : d = LdMud → full c e ts c' → range c None false (Some e) (sym $"," n :: ts) c'
  | r_open c n : range c (Some (IntLiteral 2000000000)) false None [sym $".." n] c
  | r_end c n from m e ts c' :
      full c e ts c' → range c (Some e) from None (sym $".." n :: opt from (sym $"<" m) ++ ts) c'

(** Arguments and array elements; a last comma is allowed *)
with elems : ctx → list ast → list bool → list Token → ctx → Prop :=
  | e_last c e ts c' b n p m :
      full c e ts c' → elems c [e] [b] (ts ++ opt b (sym $"..." n) ++ opt p (sym $"," m)) c'
  | e_more c e ts c1 b n m es fs ts2 c2 :
      full c e ts c1 → elems c1 es fs ts2 c2 →
      elems c (e :: es) (b :: fs) (ts ++ opt b (sym $"..." n) ++ sym $"," m :: ts2) c2

with elist : ctx → list ast → list bool → list Token → ctx → Prop :=
  | l_none c : elist c [] [] [] c
  | l_some c es fs ts c' : elems c es fs ts c' → elist c es (snd (spread_flags (es, fs))) ts c'

with exprs : ctx → list ast → list Token → ctx → Prop :=
  | xs_one c e ts c' : full c e ts c' → exprs c [e] ts c'
  | xs_more c e ts c1 n es ts2 c2 :
      full c e ts c1 → exprs c1 es ts2 c2 → exprs c (e :: es) (ts ++ sym $"," n :: ts2) c2

(** The values of an entry after the first *)
with values : ctx → list ast → list Token → ctx → Prop :=
  | v_none c : values c [] [] c
  | v_more c n e ts c1 es ts2 c2 :
      d = LdMud → full c e ts c1 → values c1 es ts2 c2 → values c (e :: es) (sym $";" n :: ts ++ ts2) c2

(** The entries of a mapping literal, all of one width *)
with entries : nat → ctx → list (ast * list ast) → list Token → ctx → Prop :=
  | en_last c k ts1 c1 n v ts2 c2 vs ts3 c3 p m :
      full c k ts1 c1 → full c1 v ts2 c2 → values c2 vs ts3 c3 →
      entries (S (length vs)) c [(k, v :: vs)] (ts1 ++ sym $":" n :: ts2 ++ ts3 ++ opt p (sym $"," m)) c3
  | en_more c k ts1 c1 n v ts2 c2 vs ts3 c3 m es ts4 c4 :
      full c k ts1 c1 → full c1 v ts2 c2 → values c2 vs ts3 c3 → entries (S (length vs)) c3 es ts4 c4 →
      entries (S (length vs)) c ((k, v :: vs) :: es) (ts1 ++ sym $":" n :: ts2 ++ ts3 ++ sym $"," m :: ts4) c4

with fields : ctx → list (bytes * ast) → list Token → ctx → Prop :=
  | fi_one c name n m e ts c' :
      full c e ts c' → fields c [(name, e)] (ident name n :: sym $":" m :: ts) c'
  | fi_more c name n m e ts c1 p fs ts2 c2 :
      full c e ts c1 → fields c1 fs ts2 c2 →
      fields c ((name, e) :: fs) (ident name n :: sym $":" m :: ts ++ sym $"," p :: ts2) c2

(** ** Statements: they leave the context as it is.  The flag says that an
    [else] may follow. *)

with stmt : bool → ctx → ast → list Token → Prop :=
  | s_null b c n : stmt b c (Block [] true) [sym $";" n]
  | s_block b c n sts ts q : stmts c sts ts → stmt b c (Block sts true) (sym $"{" n :: ts ++ [sym $"}" q])
  | s_if b c n m e ts q th ts2 :
      comma c e ts c → branch b c th ts2 →
      stmt false c (IfStmt e th None) (kw $"if" n :: sym $"(" m :: ts ++ sym $")" q :: ts2)
  | s_if_else b c n m e ts q th ts2 p el ts3 :
      comma c e ts c → branch true c th ts2 → branch b c el ts3 →
      stmt b c (IfStmt e th (Some el)) (kw $"if" n :: sym $"(" m :: ts ++ sym $")" q :: ts2 ++ kw $"else" p :: ts3)
  | s_while b c n m e ts q body ts2 :
      comma c e ts c → branch b c body ts2 →
      stmt b c (WhileStmt e body) (kw $"while" n :: sym $"(" m :: ts ++ sym $")" q :: ts2)
  | s_do b b' c n body ts p m e ts2 q r :
      branch b' c body ts → comma c e ts2 c →
      stmt b c (DoWhileStmt e body)
        (kw $"do" n :: ts ++ kw $"while" p :: sym $"(" m :: ts2 ++ [sym $")" q; sym $";" r])
  | s_for b c n m init ts1 p cond ts2 q upd ts3 r body ts4 :
      for_clause c init ts1 → opt_comma c cond ts2 → opt_chain c upd ts3 → branch b c body ts4 →
      stmt b c (ForStmt init cond upd body)
        (kw $"for" n :: sym $"(" m :: ts1 ++ sym $";" p :: ts2 ++ sym $";" q :: ts3 ++ sym $")" r :: ts4)
  | s_foreach b c n m x ts1 p e ts2 q body ts3 :
      foreach_var x ts1 → full c e ts2 c → branch b c body ts3 →
      stmt b c (ForeachStmt (fv_name x) (fv_isNewDecl x) false [] false e body (fv_classType x) [])
        (kw $"foreach" n :: sym $"(" m :: ts1 ++ kw $"in" p :: ts2 ++ sym $")" q :: ts3)
  | s_foreach2 b c n m x ts1 r y ts1' p e ts2 q body ts3 :
      foreach_var x ts1 → foreach_var y ts1' → full c e ts2 c → branch b c body ts3 →
      stmt b c (ForeachStmt (fv_name x) (fv_isNewDecl x) true (fv_name y) (fv_isNewDecl y) e body
                  (fv_classType x) (fv_classType y))
        (kw $"foreach" n :: sym $"(" m :: ts1 ++ sym $"," r :: ts1' ++ kw $"in" p :: ts2 ++ sym $")" q :: ts3)
  | s_switch b c n m e ts p q its ts2 r :
      comma c e ts c → items c its ts2 →
      stmt b c (SwitchStmt e its)
        (kw $"switch" n :: sym $"(" m :: ts ++ sym $")" p :: sym $"{" q :: ts2 ++ [sym $"}" r])
  | s_return b c n e ts q :
      opt_comma c e ts → stmt b c (ReturnStmt e) (kw $"return" n :: ts ++ [sym $";" q])
  | s_break b c n q : stmt b c BreakStmt [kw $"break" n; sym $";" q]
  | s_continue b c n q : stmt b c ContinueStmt [kw $"continue" n; sym $";" q]
  | s_decl b c ty ts name n init ts2 rest ts3 q :
      type_tokens ty ts → declarable name = true → opt_init c init ts2 → decls (fst ty) c rest ts3 →
      stmt b c (chained (VarDeclStmt (fst ty) (snd ty) name init) rest)
        (ts ++ ident name n :: ts2 ++ ts3 ++ [sym $";" q])
  | s_assign b c name n m v ts rest ts2 q :
      full c v ts c → chain c rest ts2 →
      stmt b c (chained (AssignStmt name v) rest) (ident name n :: sym $"=" m :: ts ++ ts2 ++ [sym $";" q])
  | s_index b c e i col ts t op n v ts2 rest ts3 q :
      expr 14 c (IndexExpr e i None false false col) ts c → starts_index ts = true →
      (t, op) ∈ assign_ops → full c v ts2 c → chain c rest ts3 →
      stmt b c (chained (IndexAssignStmt e i v (fst op) (snd op) col) rest)
        (ts ++ sym t n :: ts2 ++ ts3 ++ [sym $";" q])
  | s_expr b c e ts rest ts2 q :
      full c e ts c → chain c rest ts2 →
      starts_keyword ts = false → starts_type (ts ++ ts2 ++ [sym $";" q]) = false →
      starts_assign (ts ++ ts2 ++ [sym $";" q]) = false → starts_index (ts ++ ts2 ++ [sym $";" q]) = false →
      stmt b c (chained (ExprStmt e) rest) (ts ++ ts2 ++ [sym $";" q])
  | s_postfix b c e ts rest ts2 q :
      expr 13 c e ts c → starts_index ts = true → chain c rest ts2 →
      stmt b c (chained (ExprStmt e) rest) (ts ++ ts2 ++ [sym $";" q])

with branch : bool → ctx → ast → list Token → Prop :=
  | b_block b c n sts ts q : stmts c sts ts → branch b c (Block sts true) (sym $"{" n :: ts ++ [sym $"}" q])
  | b_stmt b c st ts : stmt b c st ts → begins $"{" ts = false → branch b c (Block [st] false) ts

with stmts : ctx → list ast → list Token → Prop :=
  | ss_none c : stmts c [] []
  | ss_more b c st ts sts ts2 :
      stmt b c st ts → (b = false → begins $"else" ts2 = false) →
      stmts c sts ts2 → stmts c (st :: sts) (ts ++ ts2)

(** Further expressions after commas, as statements *)
with chain : ctx → list ast → list Token → Prop :=
  | ch_none c : chain c [] []
  | ch_more c n e ts es ts2 :
      full c e ts c → chain c es ts2 → chain c (ExprStmt e :: es) (sym $"," n :: ts ++ ts2)

(** Further declared names *)
with decls : bytes → ctx → list ast → list Token → Prop :=
  | d_none ty c : decls ty c [] []
  | d_more ty c n b ts name m init ts2 rest ts3 :
      marker b ts → declarable name = true → opt_init c init ts2 → decls ty c rest ts3 →
      decls ty c (VarDeclStmt ty b name init :: rest) (sym $"," n :: ts ++ ident name m :: ts2 ++ ts3)

with opt_init : ctx → option ast → list Token → Prop :=
  | i_none c : opt_init c None []
  | i_some c n e ts : full c e ts c → opt_init c (Some e) (sym $"=" n :: ts)

with opt_comma : ctx → option ast → list Token → Prop :=
  | oc_none c : opt_comma c None []
  | oc_some c e ts : comma c e ts c → opt_comma c (Some e) ts

(** An expression, or several as a block *)
with opt_chain : ctx → option ast → list Token → Prop :=
  | och_none c : opt_chain c None []
  | och_one c e ts : full c e ts c → opt_chain c (Some e) ts
  | och_more c e ts s es ts2 :
      full c e ts c → chain c (s :: es) ts2 → opt_chain c (Some (Block (ExprStmt e :: s :: es) false)) (ts ++ ts2)

with for_clause : ctx → option ast → list Token → Prop :=
  | fc_decl c ty ts name n init ts2 :
      type_tokens ty ts → declarable name = true → opt_init c init ts2 →
      for_clause c (Some (VarDeclStmt (fst ty) (snd ty) name init)) (ts ++ ident name n :: ts2)
  | fc_exprs c e ts n :
      opt_chain c e ts → starts_type (ts ++ [sym $";" n]) = false → for_clause c e ts

with items : ctx → list ast → list Token → Prop :=
  | it_none c : items c [] []
  | it_case c n e ts m its ts2 :
      full c e ts c → items c its ts2 →
      items c (CaseLabel (Some e) None :: its) (kw $"case" n :: ts ++ sym $":" m :: ts2)
  | it_range c n e ts p e' ts' m its ts2 :
      full c e ts c → full c e' ts' c → items c its ts2 →
      items c (CaseLabel (Some e) (Some e') :: its) (kw $"case" n :: ts ++ sym $".." p :: ts' ++ sym $":" m :: ts2)
  | it_default c n m its ts2 :
      items c its ts2 → items c (CaseLabel None None :: its) (kw $"default" n :: sym $":" m :: ts2)
  | it_stmt b c st ts its ts2 :
      stmt b c st ts → (b = false → begins $"else" ts2 = false) →
      items c its ts2 → items c (st :: its) (ts ++ ts2).


(** ** Declarations of a file *)

(** The top-level names and types that start no other declaration; the parser
    tells them apart by their text alone. *)
Definition top_name (name : bytes) : bool :=
  negb (bool_decide (name ∈ [$"array"; $"::"; $"inherit"; $"{"])).

Definition modifiers (mods : list Token) : bool := forallb (isModifierKeyword d) mods.

Definition is_private (mods : list Token) : bool := existsb (λ t, bool_decide (text t = $"private")) mods.

(** The type may be left out. *)
Inductive top_type : TypeToken → list Token → Prop :=
  | tt_type ty ts : type_tokens ty ts → top_type ty ts
  | tt_none : top_type ($"mixed", false) [].

(** The path of an [inherit]: strings, with or without [+] between them *)
Inductive path_rest : bytes → list Token → Prop :=
  | p_end : path_rest [] []
  | p_string s n r ts : path_rest r ts → path_rest (s ++ r) (mkToken TString s n :: ts)
  | p_plus m s n r ts : path_rest r ts → path_rest (s ++ r) (sym $"+" m :: mkToken TString s n :: ts).

(** Further names of one member declaration of a class *)
Inductive member_rest : list bytes → list Token → Prop :=
  | m_none : member_rest [] []
  | m_more n b ts name m names ts2 :
      marker b ts → declarable name = true → member_rest names ts2 →
      member_rest (name :: names) (sym $"," n :: ts ++ ident name m :: ts2).

Inductive members : list bytes → list Token → Prop :=
  | ms_none : members [] []
  | ms_more ty ts name n names ts2 m rest ts3 :
      type_tokens ty ts → declarable name = true → member_rest names ts2 → members rest ts3 →
      members ((name :: names) ++ rest) (ts ++ ident name n :: ts2 ++ sym $";" m :: ts3).

(** Further variables *)
Inductive more_vars (ty : bytes) (private : bool) : list ObjectVarDecl → list Token → Prop :=
  | mv_none : more_vars ty private [] []
  | mv_more n b ts name m init ts2 rest ts3 :
      marker b ts → declarable name = true → opt_init ([], []) init ts2 → more_vars ty private rest ts3 →
      more_vars ty private (mkObjectVarDecl ty b name private init :: rest)
        (sym $"," n :: ts ++ ident name m :: ts2 ++ ts3).

(** A file, and what it adds to a program *)
Inductive file : Program → list Token → Program → Prop :=
  | file_end p : file p [] p
  | file_inherit p mods n s m r ts q rest p' :
      modifiers mods = true → path_rest r ts →
      file (p <| inherits ::= λ l, l ++ [s ++ r] |>) rest p' →
      file p (mods ++ kw $"inherit" n :: mkToken TString s m :: ts ++ sym $";" q :: rest) p'
  | file_class p mods n name m k names ts q rest p' :
      d = FluffOS → modifiers mods = true → members names ts →
      file (p <| classes ::= λ l, l ++ [mkClassDecl name names] |>) rest p' →
      file p (mods ++ ident $"class" n :: ident name m :: sym $"{" k :: ts ++ sym $"}" q :: rest) p'
  | file_function p mods ty ts name n m ps va ts2 q k sts ts3 r rest p' :
      modifiers mods = true → top_type ty ts → top_name name = true → params ps va ts2 → stmts ([], []) sts ts3 →
      file (p <| functions ::= λ l, l ++ [mkFunctionDecl (fst ty) (snd ty) name ps va (Some (Block sts true))] |>) rest p' →
      file p (mods ++ ts ++ ident name n :: sym $"(" m :: ts2 ++ sym $")" q :: sym $"{" k :: ts3 ++ sym $"}" r :: rest) p'
  | file_prototype p mods ty ts name n m ps va ts2 q k rest p' :
      modifiers mods = true → top_type ty ts → top_name name = true → params ps va ts2 →
      file (p <| functions ::= λ l, l ++ [mkFunctionDecl (fst ty) (snd ty) name ps va None] |>) rest p' →
      file p (mods ++ ts ++ ident name n :: sym $"(" m :: ts2 ++ sym $")" q :: sym $";" k :: rest) p'
  | file_vars p mods ty ts name n init ts2 vars ts3 q rest p' :
      modifiers mods = true → top_type ty ts → top_name name = true → opt_init ([], []) init ts2 →
      more_vars (fst ty) (is_private mods) vars ts3 →
      file (p <| objectVars ::= λ l,
              l ++ mkObjectVarDecl (fst ty) (snd ty) name (is_private mods) init :: vars |>) rest p' →
      file p (mods ++ ts ++ ident name n :: ts2 ++ ts3 ++ sym $";" q :: rest) p'.

End Grammar.
