(* ===== verification/ParserReads.v ===== *)
(** * The parser reads expressions and statements

    Each rule of the grammar has a lemma: when the parts of the rule are read
    as they should be, so is the whole.  The induction on derivations puts
    them together. *)

From S2P Require Import Prelude Doubles Config Lexer Ast Parser Grammar.

#[local] Open Scope nat_scope.

(** ** Running the parser *)

Definition st (c : ctx) (ts : list Token) : pstate := mkPState ts (fst c) (snd c).

Lemma bind_Ok {S A B} (m : M S A) (f : A → M S B) s a s' : m s = (Ok a, s') → bind m f s = f a s'.
Proof. unfold bind. by intros ->. Qed.

Lemma bind_bind {S A B C} (m : M S A) (f : A → M S B) (g : B → M S C) s :
  bind (bind m f) g s = bind m (λ a, bind (f a) g) s.
Proof. unfold bind. by destruct (m s) as [[] s']. Qed.

Lemma advance_st c t ts : type t ≠ TEnd → advance (st c (t :: ts)) = (Ok t, st c ts).
Proof.
  intros Ht. unfold advance, atEnd, peek, peekAt. simpl. rewrite bool_decide_eq_false_2 by done. done.
Qed.

Lemma expectText_st x ctx c t ts :
  checkText x (st c (t :: ts)) = true → expectText x ctx (st c (t :: ts)) = (Ok t, st c ts).
Proof.
  intros H. unfold expectText. rewrite H. apply advance_st. unfold checkText, atEnd, peek, peekAt in H.
  simpl in H. by prop_tests.
Qed.

Lemma expect_st ty ctx c t ts :
  check ty (st c (t :: ts)) = true → expect ty ctx (st c (t :: ts)) = (Ok t, st c ts).
Proof.
  intros H. unfold expect. rewrite H. apply advance_st. unfold check, atEnd, peek, peekAt in H.
  simpl in H. by prop_tests.
Qed.

Lemma accept_true x c t ts :
  checkText x (st c (t :: ts)) = true → accept x (st c (t :: ts)) = (Ok true, st c ts).
Proof.
  intros H. unfold accept. unfold bind at 1. simpl. rewrite H. unfold bind.
  rewrite advance_st; [done|]. unfold checkText, atEnd, peek, peekAt in H. simpl in H. by prop_tests.
Qed.

Lemma accept_false x s : checkText x s = false → accept x s = (Ok false, s).
Proof. intros H. unfold accept, bind, see. by rewrite H. Qed.

(** A turn that goes on, and one that ends. *)
Lemma iterate_more {A B} (body : A → M pstate (A + B)) m n a s b s' :
  n ≤ m → iterate n body a s = (Ok b, s') → iterate m body a s = (Ok b, s').
Proof.
  intros Hnm. induction n as [|n IH] in m, a, s, Hnm |- *; [done|]. destruct m as [|m]; [lia|].
  cbn [iterate]. unfold bind. destruct (body a s) as [[[a'|b']|e| |] s1]; try done. apply IH. lia.
Qed.

Lemma while_next {A B} (body : A → M pstate (A + B)) a s a' s1 b s2 :
  body a s = (Ok (inl a'), s1) → length (toks s1) < length (toks s) →
  while body a' s1 = (Ok b, s2) → while body a s = (Ok b, s2).
Proof.
  unfold while. intros H Hl Hw. cbn [iterate]. rewrite (bind_Ok _ _ _ _ _ H).
  eapply iterate_more, Hw. lia.
Qed.

Lemma while_stop {A B} (body : A → M pstate (A + B)) a s b s' :
  body a s = (Ok (inr b), s') → while body a s = (Ok b, s').
Proof. unfold while. intros H. cbn [iterate]. by rewrite (bind_Ok _ _ _ _ _ H). Qed.

(** Evaluate a test of the first tokens. *)
Ltac known b k :=
  let v := eval vm_compute in b in
  lazymatch v with
  | true => k true
  | false => k false
  end.

(** One step of a run on known tokens. *)
Ltac step :=
  lazymatch goal with
  | |- bind (bind _ _) _ _ = _ => rewrite bind_bind
  | |- bind (ret ?a) ?f ?s = _ => change (bind (ret a) f s) with (f a s); cbv beta
  | |- bind get ?f ?s = _ => change (bind get f s) with (f s s); cbv beta
  | |- bind (see ?p) ?f ?s = _ =>
      known (p s) ltac:(fun v => change (bind (see p) f s) with (f v s)); cbv beta
  | |- bind advance ?f (st ?c (?t :: ?ts)) = _ =>
      rewrite (bind_Ok _ f _ _ _ (advance_st c t ts ltac:(done))); cbv beta
  | |- bind (expectText ?x ?ctx) ?f (st ?c (?t :: ?ts)) = _ =>
      rewrite (bind_Ok _ f _ _ _ (expectText_st x ctx c t ts ltac:(vm_compute; reflexivity))); cbv beta
  | |- bind (expect ?ty ?ctx) ?f (st ?c (?t :: ?ts)) = _ =>
      rewrite (bind_Ok _ f _ _ _ (expect_st ty ctx c t ts ltac:(vm_compute; reflexivity))); cbv beta
  | |- bind (accept ?x) ?f (st ?c (?t :: ?ts)) = _ =>
      known (checkText x (st c (t :: ts))) ltac:(fun v =>
        lazymatch v with
        | true => rewrite (bind_Ok _ f _ _ _ (accept_true x c t ts ltac:(vm_compute; reflexivity)))
        | false => rewrite (bind_Ok _ f _ _ _ (accept_false x (st c (t :: ts)) ltac:(vm_compute; reflexivity)))
        end); cbv beta
  | |- (if ?b then ?m1 else ?m2) ?s = _ =>
      known b ltac:(fun v =>
        lazymatch v with
        | true => change ((if b then m1 else m2) s) with (m1 s)
        | false => change ((if b then m1 else m2) s) with (m2 s)
        end); cbv beta
  | |- bind (if ?b then ?m1 else ?m2) ?f ?s = _ =>
      known b ltac:(fun v =>
        lazymatch v with
        | true => change (bind (if b then m1 else m2) f s) with (bind m1 f s)
        | false => change (bind (if b then m1 else m2) f s) with (bind m2 f s)
        end)
  | |- (let x := ?a in _) _ = _ => cbv zeta
  | |- bind (modify ?g) ?f ?s = _ => change (bind (modify g) f s) with (f tt (g s)); cbv beta
  | |- ret _ _ = _ => reflexivity
  end.
Ltac steps := repeat step.

(** A known result of a part. *)
Ltac by_part H := rewrite (bind_Ok _ _ _ _ _ H); cbv beta.

(** ** What ends an expression *)

(** One more than the level at which a text goes on with an expression. *)
Definition text_level (t : bytes) : nat :=
  if bool_decide (t = $",") then 1
  else if bool_decide (t = $"?") then 2
  else if bool_decide (t ∈ map fst (binary_ops 2)) then 3
  else if bool_decide (t ∈ map fst (binary_ops 3)) then 4
  else if bool_decide (t ∈ map fst (binary_ops 4)) then 5
  else if bool_decide (t ∈ map fst (binary_ops 5)) then 6
  else if bool_decide (t ∈ map fst (binary_ops 6)) then 7
  else if bool_decide (t ∈ map fst (binary_ops 7)) then 8
  else if bool_decide (t ∈ map fst (binary_ops 8)) then 9
  else if bool_decide (t ∈ map fst (binary_ops 9)) then 10
  else if bool_decide (t ∈ map fst (binary_ops 10)) then 11
  else if bool_decide (t ∈ map fst (binary_ops 11)) then 12
  else if bool_decide (t ∈ map fst assign_ops) then 13
  else if bool_decide (t ∈ map fst inc_dec_ops) then 14
  else if bool_decide (t ∈ [$"->"; $"["]) then 15
  else if bool_decide (t ∈ [$"("; $"::"; $"{"]) then 16
  else 0.

Definition token_level (t : Token) : nat :=
  if bool_decide (type t = TString) then 16
  else if bool_decide (type t ∈ [TSymbol; TKeyword]) then text_level (text t)
  else 0.

(** No token goes on with an expression of level [l] or above. *)
Definition stops (l : nat) (k : list Token) : bool :=
  match k with t :: _ => token_level t <=? l | [] => true end.

Lemma stops_le l l' k : stops l k = true → l ≤ l' → stops l' k = true.
Proof. unfold stops. destruct k; [done|]. rewrite !Nat.leb_le. lia. Qed.

Lemma stops_text l k t c : stops l k = true → l < text_level t → checkText t (st c k) = false.
Proof.
  unfold stops, checkText, peek, peekAt. destruct k as [|a k]; simpl; [done|].
  unfold token_level. intros H Hl. rewrite Nat.leb_le in H.
  destruct (bool_decide (type a = TString)) eqn:Es.
  - apply bool_decide_eq_true in Es. rewrite Es. simpl. by rewrite andb_false_r.
  - destruct (bool_decide (type a ∈ _)) eqn:Et; [|by rewrite andb_false_r].
    destruct (bool_decide (text a = t)) eqn:Ex; [|by rewrite andb_false_r].
    apply bool_decide_eq_true in Ex. subst t. lia.
Qed.

Lemma stops_string l k c : stops l k = true → l < 16 → check TString (st c k) = false.
Proof.
  unfold stops, check, peek, peekAt. destruct k as [|a k]; simpl; [done|].
  unfold token_level. intros H Hl. rewrite Nat.leb_le in H.
  destruct (bool_decide (type a = TString)) eqn:Es; [lia|]. by rewrite andb_false_r.
Qed.

(** A choice among a known list. *)
Ltac choices H :=
  repeat (apply elem_of_cons in H as [H|H]; [simplify_eq|]); try (by apply elem_of_nil in H).

Lemma binary_ops_level l t op : (t, op) ∈ binary_ops l → 2 ≤ l ≤ 11 ∧ text_level t = S l.
Proof.
  intros H. unfold binary_ops in H. repeat case_match; subst; try (by apply elem_of_nil in H).
  all: choices H; (split; [lia|vm_compute; reflexivity]).
Qed.

Lemma find_op_binary l t op c n ts : (t, op) ∈ binary_ops l → find_op (binary_ops l) (st c (sym t n :: ts)) = Some op.
Proof.
  intros H. unfold binary_ops in *. repeat case_match; subst; try (by apply elem_of_nil in H).
  all: choices H; vm_compute; reflexivity.
Qed.

Lemma find_op_stops l c k : stops l k = true → find_op (binary_ops l) (st c k) = None.
Proof.
  intros Hk. unfold find_op. destruct (List.find _ _) as [[t op]|] eqn:E; [|done].
  apply find_some in E as [Hin Hc]. apply list_elem_of_In in Hin. apply binary_ops_level in Hin as [_ Hl].
  rewrite (stops_text l k t) in Hc by (done || lia). done.
Qed.

Lemma assign_op_known t op c n ts : (t, op) ∈ assign_ops → assign_op (st c (sym t n :: ts)) = Some op.
Proof. intros H. unfold assign_ops in H. simpl in H. choices H; vm_compute; reflexivity. Qed.

Lemma assign_op_stops c k : stops 12 k = true → assign_op (st c k) = None.
Proof.
  intros Hk. unfold assign_op. rewrite (stops_text 12 k $"=") by (done || (vm_compute; lia)).
  unfold find_op. destruct (List.find _ _) as [[t op]|] eqn:E; [|done].
  apply find_some in E as [Hin Hc]. apply list_elem_of_In in Hin.
  rewrite (stops_text 12 k t) in Hc; [done|done|].
  unfold kCompoundOps in Hin. choices Hin; vm_compute; lia.
Qed.

Lemma assign_level t op : (t, op) ∈ assign_ops → text_level t = 13.
Proof. intros H. unfold assign_ops in H. simpl in H. choices H; vm_compute; reflexivity. Qed.

Lemma inc_dec_known t op c n ts : (t, op) ∈ inc_dec_ops → inc_dec_op (st c (sym t n :: ts)) = Some op.
Proof. intros H. unfold inc_dec_ops in H. choices H; vm_compute; reflexivity. Qed.

Lemma inc_dec_stops c k : stops 13 k = true → inc_dec_op (st c k) = None.
Proof.
  intros Hk. unfold inc_dec_op. by rewrite !(stops_text 13 k) by (done || (vm_compute; lia)).
Qed.

Lemma unary_known t op c n ts : (t, op) ∈ unary_ops → unary_op (st c (sym t n :: ts)) = Some op.
Proof. intros H. unfold unary_ops in H. choices H; vm_compute; reflexivity. Qed.

(** The level of a token of known text. *)
Lemma stops_sym l t n k : text_level t ≤ l → stops l (sym t n :: k) = true.
Proof. intros H. unfold stops, token_level. simpl. by apply Nat.leb_le. Qed.

(** ** How a text starts *)

(** A token that may start an expression. *)
Definition starter (t : Token) : bool :=
  match type t with
  | TString | TNumber | TQuotedSymbol | TIdent => true
  | TKeyword => type_word (text t) || bool_decide (text t = $"nil")
  | TSymbol => bool_decide (text t ∈ [$"$"; $"("; $"#'"; $"::"; $"!"; $"-"; $"~"; $"++"; $"--"])
  | TEnd => false
  end.

Definition starts (ts : list Token) : bool := match ts with t :: _ => starter t | [] => false end.

(** Texts that do not. *)
Definition closers : list bytes := [
  $")"; $"}"; $"]"; $";"; $":"; $","; $".."; $"..."; $"<"; $"=";
  $"else"; $"case"; $"default"; $"while"; $"in"].

Lemma starts_app ts k : starts ts = true → starts (ts ++ k) = true.
Proof. by destruct ts. Qed.

Lemma starts_text x c ts : starts ts = true → x ∈ closers → checkText x (st c ts) = false.
Proof.
  destruct ts as [|[ty t n] ts]; [done|]. intros Hs Hx.
  assert (checkText x (st c (mkToken ty t n :: ts))
          = bool_decide (ty ∈ [TSymbol; TKeyword]) && bool_decide (t = x)) as ->.
  { destruct ty; done. }
  destruct (bool_decide (t = x)) eqn:E; [|by rewrite andb_false_r]. apply bool_decide_eq_true in E. subst t.
  destruct ty; try done; exfalso; unfold closers in Hx; choices Hx; vm_compute in Hs; done.
Qed.


(** Membership in a known list. *)
Ltac member := lazymatch goal with |- ?P => refine (@bool_decide_unpack P _ _); vm_compute; exact I end.

Lemma see_is {A} p b (f : bool → M pstate A) s : p s = b → bind (see p) f s = f b s.
Proof. by intros <-. Qed.

Lemma accept_not {A} x (f : bool → M pstate A) s : checkText x s = false → bind (accept x) f s = f false s.
Proof. intros H. apply bind_Ok, accept_false, H. Qed.

(** A test for a text that comes later: an expression starts first. *)
Ltac not_yet Hs :=
  lazymatch goal with
  | |- bind (see (checkText ?x)) ?f (st ?c ?ts) = _ =>
      rewrite (see_is _ _ f _ (starts_text x c ts Hs ltac:(member)))
  | |- bind (accept ?x) ?f (st ?c ?ts) = _ =>
      rewrite (accept_not x f _ (starts_text x c ts Hs ltac:(member)))
  end; cbv beta iota.
(** A text is not one that the list does not have. *)
Ltac not_among :=
  let E := fresh in
  intros E; lazymatch type of E with ?x = _ =>
    lazymatch goal with H : x ∈ _ |- _ => rewrite E in H; choices H end end.
(** Lengths *)
Ltac sizes := repeat (progress (simpl in *; rewrite ?length_app in * )); lia.
(** A list of tokens without parentheses *)
Ltac flat := repeat (rewrite <- app_assoc || rewrite <- app_comm_cons); cbn [app].

(** ** Levels *)

Section Spec.
Context (d : LpcDialect).

Definition P (n : nat) : parsers := parsers_at d n.

(** The parsing function of a level, and what it does after the operand of
    the next level. *)
Definition lev (n l : nat) : M pstate ast :=
  let pe := p_expr (P n) in let pu := p_unary (P n) in let ps := p_statement (P n) in
  match l with
  | 0 | 1 => parseTernary d pe pu ps
  | 2 => parseLogicalOr d pe pu ps
  | 3 => parseLogicalAnd d pe pu ps
  | 4 => parseBitOr d pe pu ps
  | 5 => parseBitXor d pe pu ps
  | 6 => parseBitAnd d pe pu ps
  | 7 => parseEquality d pe pu ps
  | 8 => parseComparison d pe pu ps
  | 9 => parseShift d pe pu ps
  | 10 => parseAdditive d pe pu ps
  | 11 => parseMultiplicative d pe pu ps
  | 12 => parseUnary d pe pu ps
  | 13 => parsePostfix d pe ps
  | 14 => do* e := parsePrimary d pe ps in postfix_chain d pe e
  | _ => parsePrimary d pe ps
  end.

(** The levels that are loops. *)
Definition loopy (l : nat) : bool := (2 <=? l) && (l <=? 11) || (l =? 14).

(** What a level does after an operand. *)
Definition cont (n l : nat) (e : ast) : M pstate ast :=
  if l =? 14 then postfix_chain d (p_expr (P n)) e
  else if loopy l then binary_loop (binary_ops l) (lev n (S l)) e
  else ret e.

(** The tokens that a text of the level must not be followed by start here. *)
Definition edge (l : nat) : nat := if loopy l then S l else l.

Lemma lev_loop n l : loopy l = true → lev n l = do* e := lev n (S l) in cont n l e.
Proof. intros Hl. do 15 (destruct l as [|l]; [first [done|reflexivity]|]). done. Qed.

Lemma lev_expr n : p_expr (P (S n)) = lev n 1.
Proof. done. Qed.
Lemma lev_unary n : p_unary (P (S n)) = lev n 12.
Proof. done. Qed.

Lemma cont_stops n l e c k : stops l k = true → cont n l e (st c k) = (Ok e, st c k).
Proof.
  intros Hk. unfold cont. destruct (l =? 14) eqn:E; [|destruct (loopy l) eqn:E'].
  - apply Nat.eqb_eq in E. subst. apply while_stop. unfold bind at 1.
    rewrite (accept_false $"->" (st c k)) by (eapply stops_text; [exact Hk|vm_compute; lia]).
    unfold bind at 1. by rewrite (accept_false $"[" (st c k)) by (eapply stops_text; [exact Hk|vm_compute; lia]).
  - apply while_stop. step. by rewrite find_op_stops.
  - done.
Qed.

(** No cast, unary operator or increment comes first. *)
Definition operand (ts : list Token) : Prop := ∀ pu c,
  cast pu (st c ts) = (Ok None, st c ts) ∧ class_cast d pu (st c ts) = (Ok None, st c ts) ∧
  unary_op (st c ts) = None ∧ inc_dec_op (st c ts) = None.

(** ** What is proved of each part of the grammar *)

Definition P_expr (l : nat) (c : ctx) (e : ast) (ts : list Token) (c' : ctx) : Prop :=
  starts ts = true ∧ (13 ≤ l → ∀ k, operand (ts ++ k)) ∧
  ∀ n k x s', length (ts ++ k) ≤ n → stops (edge l) k = true →
    cont n l e (st c' k) = (Ok x, s') → lev n l (st c (ts ++ k)) = (Ok x, s').

Definition P_open (l : nat) (c : ctx) (e : ast) (ts : list Token) (c' : ctx) : Prop :=
  starts ts = true ∧
  ∀ n k l', length (ts ++ k) ≤ n → 1 ≤ l' ≤ l → stops 1 k = true → lev n l' (st c (ts ++ k)) = (Ok e, st c' k).

Definition P_full (c : ctx) (e : ast) (ts : list Token) (c' : ctx) : Prop :=
  starts ts = true ∧
  ∀ n k, length (ts ++ k) < n → stops 1 k = true → p_expr (P n) (st c (ts ++ k)) = (Ok e, st c' k).

Lemma edge_le l : l ≤ edge l.
Proof. unfold edge. destruct (loopy l); lia. Qed.

Lemma P_expr_reads l c e ts c' n k :
  P_expr l c e ts c' → length (ts ++ k) ≤ n → stops l k = true → lev n l (st c (ts ++ k)) = (Ok e, st c' k).
Proof.
  intros (_ & _ & H) Hn Hk. apply H; [done| |by apply cont_stops].
  eapply stops_le; [exact Hk|apply edge_le].
Qed.

Lemma lev_down n l s e c k :
  lev n (S l) s = (Ok e, st c k) → 1 ≤ l → S l ≤ 12 → stops 1 k = true → lev n l s = (Ok e, st c k).
Proof.
  intros H Hl Hl' Hk. destruct (decide (l = 1)) as [->|].
  - change (lev n 1) with (parseTernary d (p_expr (P n)) (p_unary (P n)) (p_statement (P n))).
    unfold parseTernary. by_part H. unfold bind at 1. 
    by rewrite (accept_false $"?") by (eapply stops_text; [exact Hk|vm_compute; lia]).
  - rewrite lev_loop.
    + by_part H. apply cont_stops. eapply stops_le; [exact Hk|lia].
    + unfold loopy. apply orb_true_iff. left. apply andb_true_iff. rewrite !Nat.leb_le. lia.
Qed.

Lemma lev_descend n l l' s e c k :
  lev n l s = (Ok e, st c k) → 1 ≤ l' ≤ l → l ≤ 12 → stops 1 k = true → lev n l' s = (Ok e, st c k).
Proof.
  induction l as [|l IH] in l' |- *; intros H Hl Hl' Hk; [lia|].
  destruct (decide (l' = S l)) as [->|]; [done|]. apply IH; [|lia..|done].
  eapply lev_down; eauto; lia.
Qed.

Lemma case_up l c e ts c' : 1 ≤ l < 15 → P_expr (S l) c e ts c' → P_expr l c e ts c'.
Proof.
  intros Hl H. pose proof H as (Hs & Ho & _). split_and!; [done|intros; apply Ho; lia|].
  intros n k x s' Hn Hk Hc.
  destruct (loopy l) eqn:El.
  - rewrite lev_loop by done. unfold edge in Hk. rewrite El in Hk.
    by rewrite (bind_Ok _ _ _ _ _ (P_expr_reads _ _ _ _ _ _ _ H Hn Hk)).
  - unfold edge in Hk. rewrite El in Hk. rewrite cont_stops in Hc by done. rewrite <- Hc. clear x s' Hc.
    assert (lev n (S l) (st c (ts ++ k)) = (Ok e, st c' k)) as Hr.
    { eapply P_expr_reads; eauto. eapply stops_le; [exact Hk|lia]. }
    assert (l = 1 ∨ l = 12 ∨ l = 13) as [->|[->| ->]].
    { unfold loopy in El. prop_tests. destruct (2 <=? l) eqn:E1, (l <=? 11) eqn:E2; try done.
      all: rewrite ?Nat.leb_le, ?Nat.leb_gt, ?Nat.eqb_neq in *; lia. }
    + eapply lev_down; eauto; lia.
    + destruct (Ho ltac:(lia) k (p_unary (P n)) c) as (H1 & H2 & H3 & H4).
      change (lev n 12) with (parseUnary d (p_expr (P n)) (p_unary (P n)) (p_statement (P n))).
      unfold parseUnary. by_part H1. by_part H2. step. rewrite H3, H4. unfold assignment.
      by_part Hr. step. by rewrite assign_op_stops.
    + change (lev n 13) with (parsePostfix d (p_expr (P n)) (p_statement (P n))).
      change (lev n 14) with (do* e := parsePrimary d (p_expr (P n)) (p_statement (P n)) in
                              postfix_chain d (p_expr (P n)) e) in Hr.
      unfold parsePostfix. rewrite <- bind_bind. by_part Hr. step. by rewrite inc_dec_stops.
Qed.

Lemma P_full_reads c e ts c' n k :
  P_full c e ts c' → length (ts ++ k) < n → stops 1 k = true → p_expr (P n) (st c (ts ++ k)) = (Ok e, st c' k).
Proof. intros [_ H]. apply H. Qed.

Lemma binary_loopy l t op : (t, op) ∈ binary_ops l → loopy l = true.
Proof.
  intros H. apply binary_ops_level in H as [H _]. unfold loopy. apply orb_true_iff. left.
  apply andb_true_iff. rewrite !Nat.leb_le. lia.
Qed.

(** A tail that is a known symbol does not go on. *)
Ltac stopped := first [assumption|apply stops_sym; vm_compute; lia|eapply stops_le; [eassumption|lia]].

(** The part of the derivation at a level that is not a loop. *)
Lemma P_expr_intro l c e ts c' :
  loopy l = false → starts ts = true → (13 ≤ l → ∀ k, operand (ts ++ k)) →
  (∀ n k, length (ts ++ k) ≤ n → stops l k = true → lev n l (st c (ts ++ k)) = (Ok e, st c' k)) →
  P_expr l c e ts c'.
Proof.
  intros Hl Hs Ho H. split_and!; [done..|]. unfold edge. rewrite Hl. intros n k x s' Hn Hk Hc.
  rewrite cont_stops in Hc by done. rewrite <- Hc. by apply H.
Qed.

(** Read a part: [by_expr H k] where [H : P_expr ..] and [k] is what follows. *)
Ltac by_expr N H k :=
  rewrite (bind_Ok _ _ _ _ _ (P_expr_reads _ _ _ _ _ N k H ltac:(sizes) ltac:(stopped))); cbv beta.
Ltac by_full N H k :=
  rewrite (bind_Ok _ _ _ _ _ (P_full_reads _ _ _ _ N k H ltac:(sizes) ltac:(stopped))); cbv beta.

Lemma case_ternary c a ts1 c1 n b ts2 c2 m e ts3 c3 :
  P_expr 2 c a ts1 c1 → P_full c1 b ts2 c2 → P_full c2 e ts3 c3 →
  P_expr 1 c (TernaryExpr a b e) (ts1 ++ sym $"?" n :: ts2 ++ sym $":" m :: ts3) c3.
Proof.
  intros Ha Hb He. apply P_expr_intro; [done|apply starts_app, Ha|lia|].
  intros N k Hn Hk. flat.
  change (lev N 1) with (do* condition := lev N 2 in
    do* question := accept $"?" in
    if (question : bool) then
      do* thenBranch := p_expr (P N) in
      do* _ := expectText $":" $"ternary expression" in
      do* elseBranch := p_expr (P N) in
      ret (TernaryExpr condition thenBranch elseBranch)
    else ret condition).
  by_expr N Ha (sym $"?" n :: ts2 ++ sym $":" m :: ts3 ++ k). steps.
  by_full N Hb (sym $":" m :: ts3 ++ k). steps.
  by_full N He k. done.
Qed.

Lemma binary_loop_next ops next a t op n b x c ts c' k s' :
  find_op ops (st c (sym t n :: ts)) = Some op → next (st c ts) = (Ok b, st c' k) → length k ≤ length ts →
  binary_loop ops next (BinaryExpr op a b) (st c' k) = (Ok x, s') →
  binary_loop ops next a (st c (sym t n :: ts)) = (Ok x, s').
Proof.
  intros Hop Hb Hk Hx. eapply while_next; [| |exact Hx]; [|simpl; lia].
  step. rewrite Hop. steps. by_part Hb. done.
Qed.

Lemma case_binary l c a ts1 c1 t op n b ts2 c2 :
  (t, op) ∈ binary_ops l → P_expr l c a ts1 c1 → P_expr (S l) c1 b ts2 c2 →
  P_expr l c (BinaryExpr op a b) (ts1 ++ sym t n :: ts2) c2.
Proof.
  intros Hop Ha Hb. pose proof (binary_loopy _ _ _ Hop) as Hl. pose proof (binary_ops_level _ _ _ Hop) as [Hr Ht].
  split_and!; [apply starts_app, Ha|lia|].
  intros N k x s' Hn Hk Hc. flat. unfold edge in Hk. rewrite Hl in Hk.
  destruct Ha as (_ & _ & Ha). eapply Ha; [sizes|by (unfold edge; rewrite Hl; apply stops_sym; lia)|].
  unfold cont in *. rewrite Hl in *. destruct (l =? 14) eqn:E; [apply Nat.eqb_eq in E; lia|].
  eapply binary_loop_next; [by apply find_op_binary|eapply P_expr_reads; [exact Hb|sizes|done]|sizes|done].
Qed.

Lemma no_cast pu c ts :
  checkText $"(" (st c ts) = false →
  cast pu (st c ts) = (Ok None, st c ts) ∧ class_cast d pu (st c ts) = (Ok None, st c ts).
Proof. intros H. unfold cast, class_cast. rewrite H. simpl. rewrite andb_false_r. done. Qed.

(** The operand of an operator that comes first, at a lower depth. *)
Definition reads_unary (c : ctx) (e : ast) (ts : list Token) (c' : ctx) (k : list Token) : Prop :=
  ∀ n, length (ts ++ k) < n → p_unary (P n) (st c (ts ++ k)) = (Ok e, st c' k).

Lemma expr_reads_unary c e ts c' k : P_expr 12 c e ts c' → stops 12 k = true → reads_unary c e ts c' k.
Proof.
  intros H Hk n Hn. destruct n as [|n]; [lia|]. rewrite lev_unary. apply P_expr_reads; [done|lia|done].
Qed.

Lemma open_reads_unary c e ts c' k : P_open 12 c e ts c' → stops 1 k = true → reads_unary c e ts c' k.
Proof. intros [_ H] Hk n Hn. destruct n as [|n]; [lia|]. rewrite lev_unary. apply H; [lia..|done]. Qed.

(** What the parser does with the texts that start with an operator or cast. *)
Lemma run_unary c t op n e ts c' k N :
  (t, op) ∈ unary_ops → reads_unary c e ts c' k → length (sym t n :: ts ++ k) ≤ N →
  lev N 12 (st c (sym t n :: ts ++ k)) = (Ok (UnaryExpr op e), st c' k).
Proof.
  intros Ho H Hn. change (lev N 12) with (parseUnary d (p_expr (P N)) (p_unary (P N)) (p_statement (P N))).
  unfold parseUnary. destruct (no_cast (p_unary (P N)) c (sym t n :: ts ++ k)) as [H1 H2].
  { unfold unary_ops in Ho. choices Ho; vm_compute; reflexivity. }
  by_part H1. by_part H2. step. rewrite (unary_known _ _ _ _ _ Ho). steps.
  rewrite (bind_Ok _ _ _ _ _ (H N ltac:(simpl in *; lia))). done.
Qed.

Lemma target_lvalue e l : target_of e = Some l → as_lvalue e = Some l.
Proof. destruct e; try done. simpl. repeat case_match; congruence. Qed.

Lemma run_prefix c t op n e l ts c' k N :
  (t, op) ∈ inc_dec_ops → target_of e = Some l → reads_unary c e ts c' k → length (sym t n :: ts ++ k) ≤ N →
  lev N 12 (st c (sym t n :: ts ++ k)) = (Ok (inc_dec op true l), st c' k).
Proof.
  intros Ho Hl H Hn. change (lev N 12) with (parseUnary d (p_expr (P N)) (p_unary (P N)) (p_statement (P N))).
  unfold parseUnary. destruct (no_cast (p_unary (P N)) c (sym t n :: ts ++ k)) as [H1 H2].
  { unfold inc_dec_ops in Ho. choices Ho; vm_compute; reflexivity. }
  by_part H1. by_part H2. step. assert (unary_op (st c (sym t n :: ts ++ k)) = None) as ->.
  { unfold inc_dec_ops in Ho. choices Ho; vm_compute; reflexivity. }
  rewrite (inc_dec_known _ _ _ _ _ Ho). steps. unfold prefix_inc_dec.
  rewrite (bind_Ok _ _ _ _ _ (H N ltac:(simpl in *; lia))). by rewrite (target_lvalue _ _ Hl).
Qed.

Lemma type_word_keyword k n : type_word k = true → isTypeKeyword (kw k n) = true.
Proof. unfold type_word, isTypeKeyword. intros H. prop_tests. simpl. by rewrite bool_decide_eq_false_2. Qed.

Lemma cast_st pu c n k n1 star n2 m ts e s' :
  type_word k = true → pu (st c ts) = (Ok e, s') →
  cast pu (st c (sym $"(" n :: kw k n1 :: opt star (sym $"*" n2) ++ sym $")" m :: ts)) = (Ok (Some e), s').
Proof.
  intros Hk H. set (s := st c _). assert (isTypeKeyword (peekAt 1 s) = true) as Hp by by apply type_word_keyword.
  unfold cast. rewrite Hp. change (checkText $"(" s && typeAt 1 TKeyword s && true) with true. cbv iota.
  unfold s. destruct star; cbn [opt app]; steps; by rewrite (bind_Ok _ _ _ _ _ H).
Qed.

Lemma run_cast c n k n1 star n2 m e ts c' r N :
  type_word k = true → reads_unary c e ts c' r →
  length (sym $"(" n :: kw k n1 :: opt star (sym $"*" n2) ++ sym $")" m :: ts ++ r) ≤ N →
  lev N 12 (st c (sym $"(" n :: kw k n1 :: opt star (sym $"*" n2) ++ sym $")" m :: ts ++ r)) = (Ok e, st c' r).
Proof.
  intros Hk H Hn. change (lev N 12) with (parseUnary d (p_expr (P N)) (p_unary (P N)) (p_statement (P N))).
  unfold parseUnary.
  rewrite (bind_Ok _ _ _ _ _ (cast_st _ c n k n1 star n2 m _ _ _ Hk (H N ltac:(destruct star; simpl in *; lia)))).
  done.
Qed.

Lemma class_cast_st pu c n n1 name n2 (star : bool) n3 m ts e s' :
  d = FluffOS → pu (st c ts) = (Ok e, s') →
  class_cast d pu (st c (sym $"(" n :: ident $"class" n1 :: ident name n2 :: opt star (sym $"*" n3) ++ sym $")" m :: ts))
  = (Ok (Some (if star then e else TypeCastExpr name e)), s').
Proof.
  intros -> H. set (s := st c _). unfold class_cast.
  change (bool_decide (FluffOS = FluffOS) && checkText $"(" s && typeAt 1 TIdent s && textAt 1 $"class" s && typeAt 2 TIdent s)
    with true. cbv iota.
  unfold s. destruct star; cbn [opt app]; steps; by rewrite (bind_Ok _ _ _ _ _ H).
Qed.

Lemma run_class_cast c n n1 name n2 (star : bool) n3 m e ts c' r N :
  d = FluffOS → reads_unary c e ts c' r →
  length (sym $"(" n :: ident $"class" n1 :: ident name n2 :: opt star (sym $"*" n3) ++ sym $")" m :: ts ++ r) ≤ N →
  lev N 12 (st c (sym $"(" n :: ident $"class" n1 :: ident name n2 :: opt star (sym $"*" n3) ++ sym $")" m :: ts ++ r))
  = (Ok (if star then e else TypeCastExpr name e), st c' r).
Proof.
  intros Hd H Hn. change (lev N 12) with (parseUnary d (p_expr (P N)) (p_unary (P N)) (p_statement (P N))).
  unfold parseUnary.
  assert (∀ pu ts, cast pu (st c (sym $"(" n :: ident $"class" n1 :: ts))
                = (Ok None, st c (sym $"(" n :: ident $"class" n1 :: ts))) as Hc by done.
  rewrite (bind_Ok _ _ _ _ _ (Hc _ _)).
  rewrite (bind_Ok _ _ _ _ _ (class_cast_st _ c n n1 name n2 star n3 m _ _ _ Hd (H N ltac:(destruct star; simpl in *; lia)))).
  done.
Qed.

Lemma case_unary c t op n e ts c' :
  (t, op) ∈ unary_ops → P_expr 12 c e ts c' → P_expr 12 c (UnaryExpr op e) (sym t n :: ts) c'.
Proof.
  intros Ho H. apply P_expr_intro; [done|by (unfold unary_ops in Ho; choices Ho)|lia|].
  intros N k Hn Hk. by apply run_unary; [|apply expr_reads_unary|].
Qed.

Lemma case_prefix c t op n e l ts c' :
  (t, op) ∈ inc_dec_ops → P_expr 12 c e ts c' → target_of e = Some l →
  P_expr 12 c (inc_dec op true l) (sym t n :: ts) c'.
Proof.
  intros Ho H Hl. apply P_expr_intro; [done|by (unfold inc_dec_ops in Ho; choices Ho)|lia|].
  intros N k Hn Hk. by eapply run_prefix; [| |apply expr_reads_unary|].
Qed.

Lemma case_cast c n k n1 star n2 m e ts c' :
  type_word k = true → P_expr 12 c e ts c' →
  P_expr 12 c e (sym $"(" n :: kw k n1 :: opt star (sym $"*" n2) ++ sym $")" m :: ts) c'.
Proof.
  intros Hw H. apply P_expr_intro; [done..|lia|].
  intros N r Hn Hk. flat. apply run_cast; [done|by apply expr_reads_unary|by (revert Hn; flat)].
Qed.

Lemma case_class_cast c n n1 name n2 (star : bool) n3 m e ts c' :
  d = FluffOS → P_expr 12 c e ts c' →
  P_expr 12 c (if star then e else TypeCastExpr name e)
    (sym $"(" n :: ident $"class" n1 :: ident name n2 :: opt star (sym $"*" n3) ++ sym $")" m :: ts) c'.
Proof.
  intros Hw H. apply P_expr_intro; [done..|lia|].
  intros N r Hn Hk. flat. apply run_class_cast; [done|by apply expr_reads_unary|by (revert Hn; flat)].
Qed.

Lemma case_postfix c e l ts c' t op n :
  (t, op) ∈ inc_dec_ops → P_expr 14 c e ts c' → target_of e = Some l →
  P_expr 13 c (inc_dec op false l) (ts ++ [sym t n]) c'.
Proof.
  intros Ho H Hl. pose proof H as (Hs & Hop & _).
  apply P_expr_intro; [done|by apply starts_app|intros _ k; flat; apply Hop; lia|].
  intros N k Hn Hk. flat.
  assert (stops 14 (sym t n :: k) = true) as Ht by (unfold inc_dec_ops in Ho; choices Ho; done).
  pose proof (P_expr_reads _ _ _ _ _ N (sym t n :: k) H ltac:(sizes) Ht) as Hr.
  change (lev N 14) with (do* e := parsePrimary d (p_expr (P N)) (p_statement (P N)) in
                          postfix_chain d (p_expr (P N)) e) in Hr.
  change (lev N 13) with (parsePostfix d (p_expr (P N)) (p_statement (P N))).
  unfold parsePostfix. rewrite <- bind_bind. by_part Hr. step.
  rewrite (inc_dec_known _ _ _ _ _ Ho), (target_lvalue _ _ Hl). by steps.
Qed.

(** ** Assignments and whole expressions *)

(** An expression that is read at a level is read at the levels below, when
    nothing goes on with it. *)
Lemma case_open_12 c e ts c' :
  starts ts = true →
  (∀ N k, length (ts ++ k) ≤ N → stops 1 k = true → lev N 12 (st c (ts ++ k)) = (Ok e, st c' k)) →
  P_open 12 c e ts c'.
Proof.
  intros Hs H. split; [done|]. intros N k l' Hn Hl Hk. eapply lev_descend; [by apply H|done..].
Qed.

Lemma case_o_unary c t op n e ts c' :
  (t, op) ∈ unary_ops → P_open 12 c e ts c' → P_open 12 c (UnaryExpr op e) (sym t n :: ts) c'.
Proof.
  intros Ho H. apply case_open_12; [by (unfold unary_ops in Ho; choices Ho)|].
  intros N k Hn Hk. by apply run_unary; [|apply open_reads_unary|].
Qed.

Lemma case_o_cast c n k n1 star n2 m e ts c' :
  type_word k = true → P_open 12 c e ts c' →
  P_open 12 c e (sym $"(" n :: kw k n1 :: opt star (sym $"*" n2) ++ sym $")" m :: ts) c'.
Proof.
  intros Hw H. apply case_open_12; [done|].
  intros N r Hn Hk. flat. apply run_cast; [done|by apply open_reads_unary|by (revert Hn; flat)].
Qed.

Lemma case_o_class_cast c n n1 name n2 (star : bool) n3 m e ts c' :
  d = FluffOS → P_open 12 c e ts c' →
  P_open 12 c (if star then e else TypeCastExpr name e)
    (sym $"(" n :: ident $"class" n1 :: ident name n2 :: opt star (sym $"*" n3) ++ sym $")" m :: ts) c'.
Proof.
  intros Hw H. apply case_open_12; [done|].
  intros N r Hn Hk. flat. apply run_class_cast; [done|by apply open_reads_unary|by (revert Hn; flat)].
Qed.

Lemma case_o_assign c e l ts c1 t op n v ts2 c2 :
  (t, op) ∈ assign_ops → P_expr 14 c e ts c1 → target_of e = Some l → P_full c1 v ts2 c2 →
  P_open 12 c (assign l v op) (ts ++ sym t n :: ts2) c2.
Proof.
  intros Ho H Hl Hv. apply case_open_12; [apply starts_app, H|].
  intros N k Hn Hk. flat.
  apply (case_up 13) in H; [|lia]. pose proof H as (_ & Hop & _).
  assert (stops 13 (sym t n :: ts2 ++ k) = true) as Ht.
  { apply stops_sym. by rewrite (assign_level _ _ Ho). }
  change (lev N 12) with (parseUnary d (p_expr (P N)) (p_unary (P N)) (p_statement (P N))).
  destruct (Hop ltac:(lia) (sym t n :: ts2 ++ k) (p_unary (P N)) c) as (H1 & H2 & H3 & H4).
  unfold parseUnary. by_part H1. by_part H2. step. rewrite H3, H4. unfold assignment.
  pose proof (P_expr_reads _ _ _ _ _ N (sym t n :: ts2 ++ k) H ltac:(sizes) Ht) as Hr. by_part Hr.
  step. rewrite (assign_op_known _ _ _ _ _ Ho), (target_lvalue _ _ Hl). steps. by_full N Hv k. done.
Qed.

Lemma case_o_binary l c a ts1 c1 t op n l' b ts2 c2 :
  (t, op) ∈ binary_ops l → P_expr l c a ts1 c1 → l < l' → P_open l' c1 b ts2 c2 →
  P_open l c (BinaryExpr op a b) (ts1 ++ sym t n :: ts2) c2.
Proof.
  intros Hop Ha Hl Hb. split; [apply starts_app, Ha|]. intros N k l1 Hn Hl1 Hk.
  pose proof (binary_loopy _ _ _ Hop) as Hp. pose proof (binary_ops_level _ _ _ Hop) as [Hr Ht].
  apply (lev_descend _ l); [|lia..|done]. flat.
  destruct Ha as (_ & _ & Ha). eapply Ha; [sizes|by (unfold edge; rewrite Hp; apply stops_sym; lia)|].
  unfold cont. rewrite Hp. destruct (l =? 14) eqn:E; [apply Nat.eqb_eq in E; lia|].
  eapply binary_loop_next; [by apply find_op_binary|apply Hb; [sizes|lia|done]|sizes|].
  pose proof (cont_stops N l (BinaryExpr op a b) c2 k) as Hc. unfold cont in Hc. rewrite E, Hp in Hc.
  apply Hc. eapply stops_le; [exact Hk|lia].
Qed.

Lemma case_f_closed c e ts c' : P_expr 1 c e ts c' → P_full c e ts c'.
Proof.
  intros H. split; [apply H|]. intros n k Hn Hk. destruct n as [|n]; [lia|]. rewrite lev_expr.
  apply P_expr_reads; [done|lia|done].
Qed.

Lemma case_f_open l c e ts c' : 1 ≤ l → P_open l c e ts c' → P_full c e ts c'.
Proof.
  intros Hl [Hs H]. split; [done|]. intros n k Hn Hk. destruct n as [|n]; [lia|]. rewrite lev_expr.
  apply H; [lia..|done].
Qed.

(** ** Lists of expressions *)

Definition P_comma (c : ctx) (e : ast) (ts : list Token) (c' : ctx) : Prop :=
  starts ts = true ∧
  ∀ n k x s', length (ts ++ k) < n → stops 1 k = true → comma_loop (p_expr (P n)) e (st c' k) = (Ok x, s') →
    parseCommaExpr (p_expr (P n)) (st c (ts ++ k)) = (Ok x, s').

Lemma comma_loop_stops n e c k : stops 0 k = true → comma_loop (p_expr (P n)) e (st c k) = (Ok e, st c k).
Proof.
  intros Hk. apply while_stop. unfold bind at 1.
  by rewrite (accept_false $",") by (eapply stops_text; [exact Hk|vm_compute; lia]).
Qed.

Lemma P_comma_reads c e ts c' n k :
  P_comma c e ts c' → length (ts ++ k) < n → stops 0 k = true →
  parseCommaExpr (p_expr (P n)) (st c (ts ++ k)) = (Ok e, st c' k).
Proof. intros [_ H] Hn Hk. apply H; [done|by apply (stops_le 0); [|lia]|by apply comma_loop_stops]. Qed.

Ltac by_comma N H k :=
  rewrite (bind_Ok _ _ _ _ _ (P_comma_reads _ _ _ _ N k H ltac:(sizes) ltac:(stopped))); cbv beta.

Lemma case_c_one c e ts c' : P_full c e ts c' → P_comma c e ts c'.
Proof. intros H. split; [apply H|]. intros n k x s' Hn Hk Hx. unfold parseCommaExpr. by by_full n H k. Qed.

Lemma case_c_more c a ts c1 n b ts2 c2 :
  P_comma c a ts c1 → P_full c1 b ts2 c2 → P_comma c (CommaExpr a b) (ts ++ sym $"," n :: ts2) c2.
Proof.
  intros [Hs Ha] Hb. split; [by apply starts_app|]. intros N k x s' Hn Hk Hx. flat.
  eapply Ha; [sizes|stopped|]. eapply while_next; [| |exact Hx]; [|sizes]. steps. by_full N Hb k. done.
Qed.

(** The keys of subscripts *)
Definition P_key (c : ctx) (e : ast) (ts : list Token) (c' : ctx) : Prop :=
  starts ts = true ∧
  ∀ n k, length (ts ++ k) < n → stops 1 k = true → (d ≠ LdMud → stops 0 k = true) →
    (if bool_decide (d = LdMud) then p_expr (P n) else parseCommaExpr (p_expr (P n))) (st c (ts ++ k))
    = (Ok e, st c' k).

Lemma case_k_full c e ts c' : d = LdMud → P_full c e ts c' → P_key c e ts c'.
Proof. intros Hd [Hs H]. split; [done|]. intros. rewrite bool_decide_eq_true_2 by done. by apply H. Qed.

Lemma case_k_comma c e ts c' : d ≠ LdMud → P_comma c e ts c' → P_key c e ts c'.
Proof.
  intros Hd H. split; [apply H|]. intros. rewrite bool_decide_eq_false_2 by done. apply P_comma_reads; auto.
Qed.

Definition P_range (c : ctx) (re : option ast) (fe : bool) (col : option ast) (ts : list Token) (c' : ctx) : Prop :=
  ∀ q k, let r := ts ++ sym $"]" q :: k in
  stops 1 r = true ∧ (d ≠ LdMud → stops 0 r = true) ∧
  ∀ n, length r < n → index_rest d (p_expr (P n)) (st c r) = (Ok (re, fe, col), st c' (sym $"]" q :: k)).

Lemma case_r_none c : P_range c None false None [] c.
Proof. intros q k. done. Qed.

Lemma case_r_column c n e ts c' : d = LdMud → P_full c e ts c' → P_range c None false (Some e) (sym $"," n :: ts) c'.
Proof.
  intros Hd H q k. split_and!; [done|done|]. intros N Hn. flat. unfold index_rest. step.
  rewrite bool_decide_eq_true_2 by done. steps. by_full N H (sym $"]" q :: k). done.
Qed.

Lemma case_r_open c n : P_range c (Some (IntLiteral 2000000000)) false None [sym $".." n] c.
Proof. intros q k. done. Qed.

Lemma case_r_end c n from m e ts c' :
  P_full c e ts c' → P_range c (Some e) from None (sym $".." n :: opt from (sym $"<" m) ++ ts) c'.
Proof.
  intros H q k. split_and!; [done|done|]. intros N Hn. flat. unfold index_rest. step.
  change (checkText $"," _ && bool_decide (d = LdMud)) with false. cbv iota. steps.
  destruct from; cbn [opt app].
  - steps. by_full N H (sym $"]" q :: k). done.
  - pose proof (starts_app _ (sym $"]" q :: k) (proj1 H)) as Hs. not_yet Hs. not_yet Hs.
    by_full N H (sym $"]" q :: k). done.
Qed.

Definition list_close (close : bytes) : Prop := close ∈ [$")"; $"}"].

Definition P_elems (c : ctx) (es : list ast) (fs : list bool) (ts : list Token) (c' : ctx) : Prop :=
  starts ts = true ∧
  ∀ n close q k acc, let r := sym close q :: k in
    list_close close → length (ts ++ r) < n →
    while (spread_element (p_expr (P n)) close) acc (st c (ts ++ r)) = (Ok (fst acc ++ es, snd acc ++ fs), st c' r).

Lemma case_e_last c e ts c' b n p m :
  P_full c e ts c' → P_elems c [e] [b] (ts ++ opt b (sym $"..." n) ++ opt p (sym $"," m)) c'.
Proof.
  intros H. split; [apply starts_app, H|]. intros N close q k acc r Hc Hn. unfold r in *. flat.
  apply while_stop. unfold spread_element.
  unfold list_close in Hc. choices Hc.
  all: destruct b, p; cbn [opt app] in *.
  all: lazymatch goal with |- bind _ _ (st _ (_ ++ ?k)) = _ => by_full N H k end.
  all: steps.
Qed.

Lemma case_e_more c e ts c1 b n m es fs ts2 c2 :
  P_full c e ts c1 → P_elems c1 es fs ts2 c2 →
  P_elems c (e :: es) (b :: fs) (ts ++ opt b (sym $"..." n) ++ sym $"," m :: ts2) c2.
Proof.
  intros H [Hs H2]. split; [apply starts_app, H|]. intros N close q k acc r Hc Hn. unfold r in *. flat.
  assert (∀ A (f : bool → M pstate A), bind (see (checkText close)) f (st c1 (ts2 ++ r)) = f false (st c1 (ts2 ++ r))) as Hclose.
  { intros A f. apply see_is, starts_text; [by apply starts_app|]. unfold list_close in Hc. choices Hc; member. }
  eapply while_next.
  - unfold spread_element. destruct b; cbn [opt app] in *.
    all: lazymatch goal with |- bind _ _ (st _ (_ ++ ?k)) = _ => by_full N H k end.
    all: steps; rewrite Hclose; reflexivity.
  - destruct b; sizes.
  - unfold r. rewrite H2; [|done|destruct b; sizes]. cbn [fst snd]. by rewrite <- !app_assoc.
Qed.

Definition P_elist (c : ctx) (es : list ast) (fs : list bool) (ts : list Token) (c' : ctx) : Prop :=
  ∀ n close q k, let r := sym close q :: k in
    list_close close → length (ts ++ r) < n →
    spread_list (p_expr (P n)) close (st c (ts ++ r)) = (Ok (es, fs), st c' r).

Lemma case_l_none c : P_elist c [] [] [] c.
Proof. intros N close q k r Hc Hn. unfold list_close in Hc. choices Hc; done. Qed.

Lemma case_l_some c es fs ts c' : P_elems c es fs ts c' → P_elist c es (snd (spread_flags (es, fs))) ts c'.
Proof.
  intros [Hs H] N close q k r Hc Hn. unfold spread_list.
  rewrite (see_is _ false).
  - unfold r. rewrite (bind_Ok _ _ _ _ _ (H N close q k ([], []) Hc Hn)). done.
  - apply starts_text; [by apply starts_app|]. unfold list_close in Hc. choices Hc; member.
Qed.

Lemma elist_args c es fs ts c' n q k :
  P_elist c es fs ts c' → length (ts ++ sym $")" q :: k) < n →
  parseArgList (p_expr (P n)) (st c (ts ++ sym $")" q :: k)) = (Ok (es, fs), st c' (sym $")" q :: k)).
Proof. intros H Hn. apply H; [unfold list_close; member|done]. Qed.

Definition P_exprs (c : ctx) (es : list ast) (ts : list Token) (c' : ctx) : Prop :=
  starts ts = true ∧
  ∀ n k acc, length (ts ++ k) < n → stops 0 k = true →
    expr_list (p_expr (P n)) acc (st c (ts ++ k)) = (Ok (acc ++ es), st c' k).

Lemma case_xs_one c e ts c' : P_full c e ts c' → P_exprs c [e] ts c'.
Proof.
  intros H. split; [apply H|]. intros N k acc Hn Hk. apply while_stop. by_full N H k.
  by rewrite (accept_not $",") by (eapply stops_text; [exact Hk|vm_compute; lia]).
Qed.

Lemma case_xs_more c e ts c1 n es ts2 c2 :
  P_full c e ts c1 → P_exprs c1 es ts2 c2 → P_exprs c (e :: es) (ts ++ sym $"," n :: ts2) c2.
Proof.
  intros H [Hs H2]. split; [apply starts_app, H|]. intros N k acc Hn Hk. flat. eapply while_next.
  - by_full N H (sym $"," n :: ts2 ++ k). steps.
  - sizes.
  - change (while _ ?a ?s) with (expr_list (p_expr (P N)) a s). rewrite H2; [|sizes|done]. by rewrite <- app_assoc.
Qed.

(** Mapping literals *)
Definition P_values (c : ctx) (vs : list ast) (ts : list Token) (c' : ctx) : Prop :=
  (∀ k, stops 1 k = true → stops 1 (ts ++ k) = true) ∧
  ∀ n k acc, length (ts ++ k) < n → stops 1 k = true → checkText $";" (st c' k) = false →
    (if bool_decide (d = LdMud) then value_loop (p_expr (P n)) acc else ret acc) (st c (ts ++ k))
    = (Ok (acc ++ vs), st c' k).

Lemma case_v_none c : P_values c [] [] c.
Proof.
  split; [done|]. intros N k acc Hn Hk Hc. rewrite app_nil_r. case_bool_decide; [|done].
  apply while_stop. by rewrite accept_not.
Qed.

Lemma case_v_more c n e ts c1 es ts2 c2 :
  d = LdMud → P_full c e ts c1 → P_values c1 es ts2 c2 → P_values c (e :: es) (sym $";" n :: ts ++ ts2) c2.
Proof.
  intros Hd H [Hs H2]. split; [done|]. intros N k acc Hn Hk Hc. flat.
  assert (bool_decide (d = LdMud) = true) as Hb by by apply bool_decide_eq_true. rewrite Hb in *.
  eapply while_next.
  - steps. rewrite (bind_Ok _ _ _ _ _ (P_full_reads _ _ _ _ N (ts2 ++ k) H ltac:(sizes) (Hs _ Hk))). done.
  - sizes.
  - change (while _ ?a ?s) with (value_loop (p_expr (P N)) a s). rewrite H2; [|sizes|done..]. by rewrite <- app_assoc.
Qed.

Definition width_is (w : nat) (acc : list (ast * list ast)) : Prop :=
  match acc with (_, vs) :: _ => length vs = w | [] => True end.

Lemma width_is_app w acc k vs : width_is w acc → length vs = w → width_is w (acc ++ [(k, vs)]).
Proof. by destruct acc. Qed.

Definition P_entries (w : nat) (c : ctx) (es : list (ast * list ast)) (ts : list Token) (c' : ctx) : Prop :=
  starts ts = true ∧
  ∀ n q k acc, let r := sym $"]" q :: k in
    length (ts ++ r) < n → width_is w acc →
    while (mapping_entry d (p_expr (P n))) acc (st c (ts ++ r)) = (Ok (acc ++ es), st c' r).

(** A turn of the loop over the entries, up to the comma. *)
Lemma entry_turn c k ts1 c1 n v ts2 c2 vs ts3 c3 N acc r :
  P_full c k ts1 c1 → P_full c1 v ts2 c2 → P_values c2 vs ts3 c3 →
  length (ts1 ++ sym $":" n :: ts2 ++ ts3 ++ r) < N → stops 1 r = true → checkText $";" (st c3 r) = false →
  width_is (S (length vs)) acc →
  mapping_entry d (p_expr (P N)) acc (st c (ts1 ++ sym $":" n :: ts2 ++ ts3 ++ r))
  = (do* comma := accept $"," in
     if (comma : bool) then
       do* last := see (checkText $"]") in
       ret (if last then inr (acc ++ [(k, v :: vs)]) else inl (acc ++ [(k, v :: vs)]))
     else ret (inr (acc ++ [(k, v :: vs)]))) (st c3 r).
Proof.
  intros Hk Hv [Hst Hvs] Hn Hr Hsemi Hw. unfold mapping_entry.
  by_full N Hk (sym $":" n :: ts2 ++ ts3 ++ r). steps.
  rewrite (bind_Ok _ _ _ _ _ (P_full_reads _ _ _ _ N (ts3 ++ r) Hv ltac:(sizes) (Hst _ Hr))).
  rewrite (bind_Ok _ _ _ _ _ (Hvs N r [v] ltac:(sizes) Hr Hsemi)). cbn [app].
  destruct acc as [|[k0 vs0] acc]; [done|]. simpl in Hw. rewrite Hw.
  by rewrite bool_decide_eq_true_2 by done.
Qed.

Lemma case_en_last c k ts1 c1 n v ts2 c2 vs ts3 c3 p m :
  P_full c k ts1 c1 → P_full c1 v ts2 c2 → P_values c2 vs ts3 c3 →
  P_entries (S (length vs)) c [(k, v :: vs)] (ts1 ++ sym $":" n :: ts2 ++ ts3 ++ opt p (sym $"," m)) c3.
Proof.
  intros Hk Hv Hvs. split; [apply starts_app, Hk|]. intros N q r acc r' Hn Hw. unfold r' in *. revert Hn. flat.
  intros Hn. apply while_stop. destruct p; cbn [opt app] in *.
  all: rewrite (entry_turn _ _ _ _ _ _ _ _ _ _ _ _ _ _ Hk Hv Hvs) by done; steps.
Qed.

Lemma case_en_more c k ts1 c1 n v ts2 c2 vs ts3 c3 m es ts4 c4 :
  P_full c k ts1 c1 → P_full c1 v ts2 c2 → P_values c2 vs ts3 c3 → P_entries (S (length vs)) c3 es ts4 c4 →
  P_entries (S (length vs)) c ((k, v :: vs) :: es) (ts1 ++ sym $":" n :: ts2 ++ ts3 ++ sym $"," m :: ts4) c4.
Proof.
  intros Hk Hv Hvs [Hs H]. split; [apply starts_app, Hk|]. intros N q r acc r' Hn Hw. revert Hn. flat. intros Hn.
  eapply while_next.
  - rewrite (entry_turn _ _ _ _ _ _ _ _ _ _ _ _ _ _ Hk Hv Hvs) by done. steps.
    pose proof (starts_app _ r' Hs) as Hs'. not_yet Hs'. reflexivity.
  - unfold r' in *. sizes.
  - unfold r' in *. rewrite H; [by rewrite <- app_assoc|sizes|by apply width_is_app].
Qed.

(** The fields of [new] *)
Definition P_fields (c : ctx) (fs : list (bytes * ast)) (ts : list Token) (c' : ctx) : Prop :=
  (∃ name n ts', ts = ident name n :: ts') ∧
  ∀ n q k acc, let r := sym $")" q :: k in
    length (ts ++ r) < n → field_loop (p_expr (P n)) acc (st c (ts ++ r)) = (Ok (acc ++ fs), st c' r).

Lemma case_fi_one c name n m e ts c' :
  P_full c e ts c' → P_fields c [(name, e)] (ident name n :: sym $":" m :: ts) c'.
Proof.
  intros H. split; [by eauto|]. intros N q k acc r Hn. unfold r in *. flat. apply while_stop. steps.
  by_full N H (sym $")" q :: k). steps.
Qed.

Lemma case_fi_more c name n m e ts c1 p fs ts2 c2 :
  P_full c e ts c1 → P_fields c1 fs ts2 c2 →
  P_fields c ((name, e) :: fs) (ident name n :: sym $":" m :: ts ++ sym $"," p :: ts2) c2.
Proof.
  intros H [_ H2]. split; [by eauto|]. intros N q k acc r Hn. unfold r in *. flat. eapply while_next.
  - steps. by_full N H (sym $"," p :: ts2 ++ sym $")" q :: k). steps.
  - sizes.
  - change (while _ ?a ?s) with (field_loop (p_expr (P N)) a s). rewrite H2; [|sizes]. by rewrite <- app_assoc.
Qed.

(** ** Calls through an arrow and subscripts *)

Lemma case_chain c e ts c1 t n r e' c2 :
  t ∈ [$"->"; $"["] → P_expr 14 c e ts c1 →
  (∀ N k, length ((sym t n :: r) ++ k) < N → stops 15 k = true →
     (if bool_decide (t = $"->") then arrow d (p_expr (P N)) e else subscript d (p_expr (P N)) e) (st c1 (r ++ k))
     = (Ok e', st c2 k)) →
  P_expr 14 c e' (ts ++ sym t n :: r) c2.
Proof.
  intros Ht (Hs & Ho & H) Hr. split_and!; [by apply starts_app|intros; flat; by apply Ho|].
  intros N k x s' Hn Hk Hx. flat. eapply H; [sizes|choices Ht; done|].
  change (cont N 14) with (postfix_chain d (p_expr (P N))) in *.
  assert (N ≠ 0) by (intros ->; destruct ts; sizes).
  assert (length ((sym t n :: r) ++ k) < N).
  { destruct ts; [done|]. sizes. }
  specialize (Hr N k ltac:(done) Hk). choices Ht; simpl bool_decide in Hr.
  all: eapply while_next; [steps; by_part Hr; reflexivity|sizes|exact Hx].
Qed.

Lemma case_member c e ts c' n name m :
  d = FluffOS → P_expr 14 c e ts c' →
  P_expr 14 c (IndexExpr e (MemberNameMarker name) None false false None) (ts ++ [sym $"->" n; ident name m]) c'.
Proof.
  intros Hd H. eapply case_chain; [member|exact H|]. intros N k Hn Hk.
  change (bool_decide ($"->" = $"->")) with true. cbv iota. flat. unfold arrow. steps.
  rewrite (stops_text 15 k) by (done || (vm_compute; lia)). rewrite bool_decide_eq_true_2 by done. done.
Qed.

Lemma call_args_st ctx c es fs ts c' n m q k :
  P_elist c es fs ts c' → length (ts ++ sym $")" q :: k) < n →
  call_args (p_expr (P n)) ctx (st c (sym $"(" m :: ts ++ sym $")" q :: k)) = (Ok (es, fs), st c' k).
Proof.
  intros H Hn. unfold call_args. steps. rewrite (bind_Ok _ _ _ _ _ (elist_args _ _ _ _ _ _ _ _ H Hn)). by steps.
Qed.

Lemma case_arrow c e ts c1 n name m k es fs ts2 c2 q :
  P_expr 14 c e ts c1 → P_elist c1 es fs ts2 c2 →
  P_expr 14 c (CallOtherExpr e (StringLiteral name) es fs)
    (ts ++ sym $"->" n :: ident name m :: sym $"(" k :: ts2 ++ [sym $")" q]) c2.
Proof.
  intros H Ha. eapply case_chain; [member|exact H|]. intros N r Hn Hk.
  change (bool_decide ($"->" = $"->")) with true. cbv iota. flat. unfold arrow. steps.
  change (negb (checkText $"(" _)) with false. rewrite andb_false_r.
  rewrite (bind_Ok _ _ _ _ _ (call_args_st _ _ _ _ ts2 _ N k q r Ha ltac:(sizes))). done.
Qed.

Lemma case_index c e ts c1 n from m i ts1 c2 re fe col ts2 c3 q :
  P_expr 14 c e ts c1 → P_key c1 i ts1 c2 → P_range c2 re fe col ts2 c3 →
  P_expr 14 c (IndexExpr e i re from fe col)
    (ts ++ sym $"[" n :: opt from (sym $"<" m) ++ ts1 ++ ts2 ++ [sym $"]" q]) c3.
Proof.
  intros H [Hs Hi] Hr. eapply case_chain; [member|exact H|]. intros N r Hn Hk.
  change (bool_decide ($"[" = $"->")) with false. cbv iota. revert Hn. flat. intros Hn. unfold subscript.
  destruct (Hr q r) as (Hr1 & Hr0 & Hr2).
  assert (∀ f : bool → M pstate ast, bind (accept $"<") f (st c1 (opt from (sym $"<" m) ++ ts1 ++ ts2 ++ sym $"]" q :: r))
                    = f from (st c1 (ts1 ++ ts2 ++ sym $"]" q :: r))) as Hfrom.
  { intros f. pose proof (starts_app _ (ts2 ++ sym $"]" q :: r) Hs) as Hs'.
    destruct from; cbn [opt app]; [steps|not_yet Hs']; done. }
  rewrite Hfrom. assert (length (ts1 ++ ts2 ++ sym $"]" q :: r) < N) by (destruct from; sizes).
  rewrite (bind_Ok _ _ _ _ _ (Hi N _ ltac:(done) Hr1 Hr0)).
  rewrite (bind_Ok _ _ _ _ _ (Hr2 N ltac:(sizes))). cbn [fst snd]. by steps.
Qed.

(** ** Primary expressions *)

Lemma case_primary c e ts c' :
  starts ts = true → (∀ k, operand (ts ++ k)) →
  (∀ N k, length (ts ++ k) ≤ N → stops 15 k = true →
     parsePrimary d (p_expr (P N)) (p_statement (P N)) (st c (ts ++ k)) = (Ok e, st c' k)) →
  P_expr 15 c e ts c'.
Proof. intros Hs Ho H. apply P_expr_intro; auto. Qed.

Lemma operand_other ts :
  (∀ c, checkText $"(" (st c ts) = false ∧ unary_op (st c ts) = None ∧ inc_dec_op (st c ts) = None) → operand ts.
Proof.
  intros H pu c. destruct (H c) as (H1 & H2 & H3). destruct (no_cast pu c ts H1). by split_and!.
Qed.

Lemma operand_paren t n u ts :
  t = $"(" → type u ≠ TKeyword → type u ≠ TIdent → operand (sym t n :: u :: ts).
Proof.
  intros -> H1 H2 pu c. unfold cast, class_cast.
  assert (typeAt 1 TKeyword (st c (sym $"(" n :: u :: ts)) = false) as -> by (apply bool_decide_eq_false; done).
  assert (typeAt 1 TIdent (st c (sym $"(" n :: u :: ts)) = false) as -> by (apply bool_decide_eq_false; done).
  by rewrite !andb_false_r, !andb_false_l.
Qed.

(** A primary expression that its first tokens tell. *)
Ltac primary :=
  apply case_primary;
    [done|intros; first [apply operand_paren; done|apply operand_other; intros; split_and!; reflexivity]|];
  let N := fresh "N" in let k := fresh "k" in let Hn := fresh "Hn" in let Hk := fresh "Hk" in
  intros N k Hn Hk; revert Hn; flat; intros Hn; unfold parsePrimary; steps.

(** Tests of the dialect *)
Ltac dialect :=
  lazymatch goal with H : d = ?x |- _ => rewrite !(bool_decide_eq_true_2 (d = x)) by exact H end; steps.

Lemma string_loop_st ts : ∀ c k v,
  Forall (λ t, type t = TString) ts → stops 15 k = true →
  string_loop v (st c (ts ++ k)) = (Ok (v ++ concat (map text ts)), st c k).
Proof.
  induction ts as [|t ts IH]; intros c k v Hts Hk; cbn [app map concat].
  - rewrite app_nil_r. apply while_stop. rewrite (see_is _ false); [done|]. eapply stops_string; [exact Hk|lia].
  - apply Forall_cons in Hts as [Ht Hts]. destruct t as [ty x n]. simpl in Ht. subst ty.
    eapply while_next; [steps; reflexivity|simpl; lia|].
    change (while _ ?a ?s) with (string_loop a s). rewrite IH by done. by rewrite <- app_assoc.
Qed.

Lemma case_string c t ts :
  Forall (λ t, type t = TString) (t :: ts) →
  P_expr 15 c (StringLiteral (concat (map text (t :: ts)))) (t :: ts) c.
Proof.
  intros Hts. apply Forall_cons in Hts as [Ht Hts]. destruct t as [ty x n]. simpl in Ht. subst ty. primary.
  unfold string_literal. steps. by rewrite (bind_Ok _ _ _ _ _ (string_loop_st _ _ _ _ Hts Hk)).
Qed.

Lemma case_number c t n e : number_literal t = Ok e → P_expr 15 c e [mkToken TNumber t n] c.
Proof. intros H. primary. unfold lift. simpl text. by rewrite H. Qed.

Lemma case_nil c n : d = DGD → P_expr 15 c NilLiteral [kw $"nil" n] c.
Proof. intros Hd. primary. dialect. Qed.

Lemma case_symbol c t n : P_expr 15 c (SymbolLiteralExpr t) [mkToken TQuotedSymbol t n] c.
Proof. primary. Qed.

Lemma case_bound ms vs bs n m e ts ms' vs' bs' q :
  P_comma (ms, vs :: bs) e ts (ms', vs' :: bs') →
  P_expr 15 (ms, vs :: bs) (LambdaParamExpr (size vs') true)
    (sym $"$" n :: sym $"(" m :: ts ++ [sym $")" q]) (ms', (vs' ++ [e]) :: bs').
Proof.
  intros H. primary. unfold bound_value. cbn [st lambdaBoundValuesStack_ snd]. steps.
  by_comma N H (sym $")" q :: k). by steps.
Qed.

Lemma case_mapping_empty c n m p q :
  P_expr 15 c (MappingLiteralExpr []) [sym $"(" n; sym $"[" m; sym $"]" p; sym $")" q] c.
Proof. primary. unfold mapping_literal. by steps. Qed.

Lemma case_mapping w c es ts c' n m p q :
  P_entries w c es ts c' →
  P_expr 15 c (MappingLiteralExpr es) (sym $"(" n :: sym $"[" m :: ts ++ [sym $"]" p; sym $")" q]) c'.
Proof.
  intros [Hs H]. primary. unfold mapping_literal. steps.
  pose proof (starts_app _ (sym $"]" p :: sym $")" q :: k) Hs) as Hs'. not_yet Hs'.
  rewrite (bind_Ok _ _ _ _ _ (H N p (sym $")" q :: k) [] ltac:(sizes) I)). by steps.
Qed.

Lemma case_hash_efun c n m p name q :
  d = LdMud →
  P_expr 15 c (ClosureLiteralExpr name [] true) [sym $"#'" n; ident $"efun" m; sym $"::" p; ident name q] c.
Proof. intros Hd. primary. dialect. unfold hash_quote_closure. by steps. Qed.

Lemma case_hash c n name m :
  d = LdMud → name ≠ $"efun" → P_expr 15 c (ClosureLiteralExpr name [] false) [sym $"#'" n; ident name m] c.
Proof.
  intros Hd Hname. primary. dialect. unfold hash_quote_closure. steps. rewrite (see_is _ false); [by steps|].
  unfold textAt. simpl text. by rewrite bool_decide_eq_false_2, andb_false_r.
Qed.

(** *** Closures *)

Lemma closure_end_st e c p q k :
  closure_end e (st c (sym $":" p :: sym $")" q :: k)) = (Ok e, st c k).
Proof. unfold closure_end. by steps. Qed.

(** The test of a bare name sees two tokens. *)
Lemma isBareName_st c n m a b ts :
  isBareName (st c (sym $"(" n :: sym $":" m :: a :: b :: ts)) = bare_name (a :: b :: ts).
Proof.
  unfold bare_name.
  assert (∀ t : bytes, bool_decide (t = $",") || bool_decide (t = $":") = bool_decide (t ∈ [$","; $":"])) as Ht.
  { intros t. apply eq_true_iff_eq. rewrite orb_true_iff, !bool_decide_eq_true. set_solver. }
  rewrite <- Ht. unfold isBareName, typeAt, textAt.
  change (peekAt 2 _) with a. change (peekAt 3 _) with b. by destruct (text a).
Qed.

Lemma bare_name_ident name k x r ts :
  name ≠ [] → plain_name name = true → x ∈ [$","; $":"] → bare_name (ident name k :: sym x r :: ts) = true.
Proof.
  intros Hn Hp Hx. unfold bare_name. cbn [text ident sym type].
  rewrite Hp, (bool_decide_eq_true_2 (x ∈ _)) by done. by destruct name.
Qed.

Lemma case_closure c n m name k p q :
  name ≠ [] → plain_name name = true →
  P_expr 15 c (ClosureLiteralExpr name [] false)
    [sym $"(" n; sym $":" m; ident name k; sym $":" p; sym $")" q] c.
Proof.
  intros Hname Hp. primary. unfold closure_literal. rewrite isBareName_st, bare_name_ident by (done || member).
  unfold bare_closure. steps. by rewrite closure_end_st.
Qed.

Lemma case_closure_bound c n m name k r es ts c' p q :
  name ≠ [] → plain_name name = true → P_exprs c es ts c' →
  P_expr 15 c (ClosureLiteralExpr name es false)
    (sym $"(" n :: sym $":" m :: ident name k :: sym $"," r :: ts ++ [sym $":" p; sym $")" q]) c'.
Proof.
  intros Hname Hp [Hs H]. primary. unfold closure_literal.
  rewrite isBareName_st, bare_name_ident by (done || member). unfold bare_closure. steps.
  rewrite (bind_Ok _ _ _ _ _ (H N (sym $":" p :: sym $")" q :: k0) [] ltac:(sizes) ltac:(stopped))).
  by rewrite closure_end_st.
Qed.

Lemma not_bare_name_st c n m ts p k :
  bare_name (ts ++ [sym $":" p]) = false → starts ts = true →
  isBareName (st c (sym $"(" n :: sym $":" m :: ts ++ sym $":" p :: k)) = false.
Proof.
  intros Hb Hs. destruct ts as [|a [|b ts]]; [done|..]; cbn [app] in *; by rewrite isBareName_st.
Qed.

Lemma case_lambda ms bs n m es ts k ms' vs bs' p q :
  P_exprs (0%Z :: ms, [] :: bs) es ts (k :: ms', vs :: bs') → bare_name (ts ++ [sym $":" p]) = false →
  P_expr 15 (ms, bs) (InlineLambdaExpr es k vs)
    (sym $"(" n :: sym $":" m :: ts ++ [sym $":" p; sym $")" q]) (ms', bs').
Proof.
  intros [Hs H] Hb. primary. unfold closure_literal. rewrite not_bare_name_st by done.
  unfold inline_lambda. steps.
  match goal with |- bind _ _ ?s = _ => change s with (st (0%Z :: ms, [] :: bs) (ts ++ sym $":" p :: sym $")" q :: k0)) end.
  rewrite (bind_Ok _ _ _ _ _ (H N (sym $":" p :: sym $")" q :: k0) [] ltac:(sizes) ltac:(stopped))). steps.
  cbn [st lambdaParamMaxStack_ lambdaBoundValuesStack_ fst snd]. steps.
  match goal with |- _ ?s = _ => change s with (st (ms', bs') (sym $":" p :: sym $")" q :: k0)) end.
  by rewrite closure_end_st.
Qed.

(** *** Parentheses *)

Lemma case_pointer c n m e ts c1 p q es fs ts2 c2 r :
  P_full c e ts c1 → P_elist c1 es fs ts2 c2 →
  P_expr 15 c (CallExpr $"evaluate" (e :: es) (match fs with [] => [] | fs => false :: fs end) true false [])
    (sym $"(" n :: sym $"*" m :: ts ++ sym $")" p :: sym $"(" q :: ts2 ++ [sym $")" r]) c2.
Proof.
  intros H Ha. primary. unfold pointer_call. steps.
  by_full N H (sym $")" p :: sym $"(" q :: ts2 ++ sym $")" r :: k). steps.
  rewrite (bind_Ok _ _ _ _ _ (elist_args _ _ _ _ _ N r k Ha ltac:(sizes))). destruct fs; by steps.
Qed.

Lemma case_array c n m es fs ts c' p q :
  P_elist c es fs ts c' →
  P_expr 15 c (ArrayLiteralExpr es fs) (sym $"(" n :: sym $"{" m :: ts ++ [sym $"}" p; sym $")" q]) c'.
Proof.
  intros H. primary. unfold array_literal. steps.
  rewrite (bind_Ok _ _ _ _ _ (H N $"}" p (sym $")" q :: k) ltac:(unfold list_close; member) ltac:(sizes))). by steps.
Qed.

(** When no cast is closed the tokens are read again. *)
Lemma cast_open c ts q k :
  cast_closes (ts ++ [sym $")" q]) = false →
  ∃ star ts', accept $"*" (st c (ts ++ sym $")" q :: k)) = (Ok star, st c ts') ∧ checkText $")" (st c ts') = false.
Proof.
  assert (∀ x t ts, text t ≠ x → checkText x (st c (t :: ts)) = false) as Hne.
  { intros x t l Ht. unfold checkText. change (peek _) with t. rewrite (bool_decide_eq_false_2 (text t = x)) by done. apply andb_false_r. }
  intros H.
  assert (∃ a b r, ts ++ sym $")" q :: k = a :: b :: r ∧ text a ≠ $")" ∧ (text a = $"*" → text b ≠ $")"))
    as (a & b & r & -> & Ha & Hb).
  { destruct ts as [|a [|b ts]]; cbn [app cast_closes] in *; [done|..]; do 3 eexists; (split; [done|]);
      rewrite orb_false_iff, andb_false_iff, !bool_decide_eq_false in H; naive_solver. }
  destruct (checkText $"*" (st c (a :: b :: r))) eqn:E.
  - exists true, (b :: r). split; [by apply accept_true|]. apply Hne, Hb. unfold checkText in E. by prop_tests.
  - exists false, (a :: b :: r). split; [by apply accept_false|]. by apply Hne.
Qed.

Lemma operand_not_cast n ts q k :
  starts ts = true → is_cast d (sym $"(" n :: ts ++ [sym $")" q]) = false →
  operand (sym $"(" n :: ts ++ sym $")" q :: k).
Proof.
  destruct ts as [|u ts]; [done|]. intros Hs Hc pu c. cbn [app is_cast] in *. prop_tests.
  set (s := st c _). assert (peekAt 1 s = u) as Hu by done.
  assert (∀ t, typeAt 1 t s = bool_decide (type u = t)) as Ht by (intros; unfold typeAt; by rewrite Hu).
  split_and!; [| |done..].
  - unfold cast. rewrite Hu, Ht. change (checkText $"(" s) with true.
    destruct (isTypeKeyword u) eqn:E; [|by rewrite andb_false_r].
    rewrite bool_decide_eq_true_2 by (unfold isTypeKeyword in E; by prop_tests). cbn [andb] in *.
    destruct (cast_open c ts q k H) as (star & ts' & Hs1 & Hs2).
    unfold s. step. unfold isTypeKeyword in E. prop_tests.
    rewrite (bind_Ok _ _ _ _ _ (advance_st c u _ ltac:(congruence))). by_part Hs1.
    by rewrite (accept_not _ _ _ Hs2).
  - unfold class_cast. rewrite !Ht. unfold textAt. rewrite Hu. change (checkText $"(" s) with true.
    destruct (bool_decide (d = FluffOS)), (bool_decide (type u = TIdent)) eqn:Eu, (bool_decide (text u = $"class"));
      try done; cbn [andb] in *.
    destruct ts as [|v ts]; [done|]. cbn [app] in *.
    change (typeAt 2 TIdent s) with (bool_decide (type v = TIdent)).
    destruct (bool_decide (type v = TIdent)) eqn:Ev; [|done]. cbn [andb] in *.
    match goal with Hc : cast_closes _ = false |- _ => destruct (cast_open c ts q k Hc) as (star & ts' & Hs1 & Hs2) end.
    prop_tests. unfold s. step.
    rewrite (bind_Ok _ _ _ _ _ (advance_st c u _ ltac:(congruence))).
    rewrite (bind_Ok _ _ _ _ _ (advance_st c v _ ltac:(congruence))). by_part Hs1.
    by rewrite (accept_not _ _ _ Hs2).
Qed.

Lemma case_paren c n e ts c' q :
  P_comma c e ts c' → opens_literal ts = false → is_cast d (sym $"(" n :: ts ++ [sym $")" q]) = false →
  P_expr 15 c e (sym $"(" n :: ts ++ [sym $")" q]) c'.
Proof.
  intros H Ho Hc. apply case_primary; [done| |].
  - intros k. flat. apply operand_not_cast; [apply H|done].
  - intros N k Hn Hk. revert Hn. flat. intros Hn. unfold parsePrimary. steps.
    assert (∀ t, t ∈ [$"["; $":"; $"*"; $"{"] → textAt 1 t (st c (sym $"(" n :: ts ++ sym $")" q :: k)) = false) as Hl.
    { intros t Ht. destruct ts as [|a ts]; [by destruct H|]. apply bool_decide_eq_false.
      change (text (peekAt 1 _)) with (text a). unfold opens_literal in Ho. apply bool_decide_eq_false in Ho.
      intros E. apply Ho. by rewrite E. }
    rewrite (Hl $"["), (Hl $":"), (Hl $"*"), (Hl $"{") by member. rewrite !andb_false_r. steps. unfold parenthesized. steps.
    by_comma N H (sym $")" q :: k). by steps.
Qed.

(** *** Calls *)

Lemma case_parent c m name p q es fs ts c' r :
  P_elist c es fs ts c' →
  P_expr 15 c (CallExpr name es fs false true [])
    (sym $"::" m :: ident name p :: sym $"(" q :: ts ++ [sym $")" r]) c'.
Proof.
  intros H. primary. unfold parent_call. steps.
  by rewrite (bind_Ok _ _ _ _ _ (call_args_st _ _ _ _ ts _ N q r k H ltac:(sizes))).
Qed.

Lemma type_word_nil t : type_word t = true → t ≠ $"nil".
Proof. by intros H ->. Qed.

Lemma type_word_text x c t n ts :
  type_word t = true → x ∈ [$"("; $"$"; $"#'"; $"!"; $"-"; $"~"; $"++"; $"--"] →
  checkText x (st c (kw t n :: ts)) = false.
Proof.
  intros Hw Hx. unfold checkText. change (peek _) with (kw t n). cbn [text kw].
  rewrite (bool_decide_eq_false_2 (t = x)); [apply andb_false_r|]. intros ->. choices Hx; done.
Qed.

Lemma case_type_parent c t n m name p q es fs ts c' r :
  type_word t = true → P_elist c es fs ts c' →
  P_expr 15 c (CallExpr name es fs false true t)
    (kw t n :: sym $"::" m :: ident name p :: sym $"(" q :: ts ++ [sym $")" r]) c'.
Proof.
  intros Hw H. apply case_primary.
  - unfold starts, starter. cbn [type kw text]. by rewrite Hw.
  - intros. apply operand_other. intros. flat. unfold unary_op, inc_dec_op.
    rewrite !(type_word_text _ _ _ _ _ Hw) by member. done.
  - intros N k Hn Hk. revert Hn. flat. intros Hn. unfold parsePrimary. steps.
    rewrite !(type_word_text _ _ _ _ _ Hw) by member. set (s := st c _).
    assert (textAt 0 $"nil" s = false) as -> by (apply bool_decide_eq_false, type_word_nil, Hw).
    assert (isTypeKeyword (peek s) = true) as -> by by apply type_word_keyword.
    change (check TKeyword s && false && bool_decide (d = DGD)) with false. unfold s. steps.
    change (textAt 1 $"(" _) with false. rewrite andb_false_r. steps.
    unfold parseQualifiedParentCall. steps.
    by rewrite (bind_Ok _ _ _ _ _ (call_args_st _ _ _ _ ts _ N q r k H ltac:(sizes))).
Qed.

(** *** Identifiers *)

Lemma case_param m ms bs name n k :
  stoi name = Ok k → (1 ≤ k)%Z →
  P_expr 15 (m :: ms, bs) (LambdaParamExpr (k - 1) false) [ident ("$"%char :: name) n] (Z.max m k :: ms, bs).
Proof.
  intros Hs Hk. primary. unfold identifier. steps. unfold lambda_param. cbn [st lambdaParamMaxStack_ fst].
  unfold bind at 1, lift. simpl tail. rewrite Hs. destruct (Z.ltb_spec k 1); [lia|]. by steps.
Qed.

(** An identifier that is not a parameter of a lambda, after its token. *)
Ltac name_of H :=
  unfold identifier; steps; cbn [text ident];
  lazymatch type of H with plain_name ?name = true =>
    let E := fresh in
    assert (match name with c :: _ => Ascii.eqb c "$" | [] => false end = false) as E
      by (destruct name; [done|]; by apply negb_true_iff in H);
    rewrite E; clear E; cbv iota
  end.

Lemma case_new_empty c n p q name r s :
  d = FluffOS →
  P_expr 15 c (NewClassExpr name [])
    [ident $"new" n; sym $"(" p; ident $"class" q; ident name r; sym $")" s] c.
Proof. intros Hd. primary. unfold identifier. steps. dialect. unfold new_class. by steps. Qed.

Lemma case_new c n p q name r fs ts c' s :
  d = FluffOS → P_fields c fs ts c' →
  P_expr 15 c (NewClassExpr name fs)
    (ident $"new" n :: sym $"(" p :: ident $"class" q :: ident name r :: ts ++ [sym $")" s]) c'.
Proof.
  intros Hd [(x & a & ts' & Hts) H]. primary. unfold identifier. steps. dialect. unfold new_class. steps.
  rewrite (see_is _ false) by (by rewrite Hts).
  rewrite (bind_Ok _ _ _ _ _ (H N s k [] ltac:(sizes))). by steps.
Qed.

Lemma case_efun c n m name p q es fs ts c' r :
  P_elist c es fs ts c' →
  P_expr 15 c (CallExpr name es fs true false [])
    (ident $"efun" n :: sym $"::" m :: ident name p :: sym $"(" q :: ts ++ [sym $")" r]) c'.
Proof.
  intros H. primary. unfold identifier. steps. unfold efun_call. steps.
  by rewrite (bind_Ok _ _ _ _ _ (call_args_st _ _ _ _ ts _ N q r k H ltac:(sizes))).
Qed.

Lemma case_qualified c k n m name p q es fs ts c' r :
  plain_name k = true → k ≠ $"efun" → P_elist c es fs ts c' →
  P_expr 15 c (CallExpr name es fs false true k)
    (ident k n :: sym $"::" m :: ident name p :: sym $"(" q :: ts ++ [sym $")" r]) c'.
Proof.
  intros Hp Hk H. primary. name_of Hp.
  change (checkText $"(" _) with false. change (checkText $"::" _) with true.
  rewrite !andb_false_r, (bool_decide_eq_false_2 (k = $"efun")), (bool_decide_eq_true_2 (k ≠ $"efun")) by done.
  cbn [andb]. steps. unfold parseQualifiedParentCall. steps.
  by rewrite (bind_Ok _ _ _ _ _ (call_args_st _ _ _ _ ts _ N q r k0 H ltac:(sizes))).
Qed.

Lemma case_catch c n m e ts c' q :
  P_comma c e ts c' → P_expr 15 c (CatchExpr e) (ident $"catch" n :: sym $"(" m :: ts ++ [sym $")" q]) c'.
Proof.
  intros H. primary. unfold identifier. steps. unfold catch_expr. steps. by_comma N H (sym $")" q :: k). by steps.
Qed.

Lemma case_var c name n : plain_name name = true → P_expr 15 c (VarRefExpr name) [ident name n] c.
Proof.
  intros Hp. primary. name_of Hp.
  rewrite !(stops_text 15 k) by (done || (vm_compute; lia)). rewrite !andb_false_r. done.
Qed.

Lemma case_call c name n m es fs ts c' q :
  plain_name name = true → name ∉ [$"catch"; $"sscanf"; $"call_other"] →
  new_class_call d name ts = false → P_elist c es fs ts c' →
  P_expr 15 c (CallExpr name es fs false false []) (ident name n :: sym $"(" m :: ts ++ [sym $")" q]) c'.
Proof.
  intros Hp Hn Hnew H. primary. name_of Hp.
  assert (∀ x, x ∈ [$"catch"; $"sscanf"; $"call_other"] → bool_decide (name = x) = false) as Hne.
  { intros x Hx. apply bool_decide_eq_false. by intros ->. }
  set (s := st c _).
  assert (bool_decide (name = $"new") && bool_decide (d = FluffOS) && checkText $"(" s && textAt 1 $"class" s = false) as ->.
  { destruct ts as [|t ts]; [apply andb_false_r|]. change (textAt 1 _ s) with (bool_decide (text t = $"class")).
    change (checkText $"(" s) with true. rewrite andb_true_r. exact Hnew. }
  change (checkText $"(" s) with true. change (checkText $"::" s) with false. change (checkText $"{" s) with false.
  rewrite !andb_false_r, (Hne $"catch") by member. cbn [andb negb]. unfold named_call, s. steps.
  rewrite (bind_Ok _ _ _ _ _ (elist_args _ _ _ _ _ N q k H ltac:(sizes))). steps.
  rewrite (Hne $"sscanf"), (Hne $"call_other") by member. done.
Qed.

Lemma case_sscanf c n m es fs ts c' q e :
  P_elist c es fs ts c' → sscanf_expr es fs = Ok e →
  P_expr 15 c e (ident $"sscanf" n :: sym $"(" m :: ts ++ [sym $")" q]) c'.
Proof.
  intros H He. primary. unfold identifier. steps. unfold named_call. steps.
  rewrite (bind_Ok _ _ _ _ _ (elist_args _ _ _ _ _ N q k H ltac:(sizes))). steps.
  cbn [fst snd]. unfold lift. by rewrite He.
Qed.

Lemma case_call_other c n m es fs ts c' q e :
  P_elist c es fs ts c' → call_other_expr es fs = Ok e →
  P_expr 15 c e (ident $"call_other" n :: sym $"(" m :: ts ++ [sym $")" q]) c'.
Proof.
  intros H He. primary. unfold identifier. steps. unfold named_call. steps.
  rewrite (bind_Ok _ _ _ _ _ (elist_args _ _ _ _ _ N q k H ltac:(sizes))). steps.
  cbn [fst snd]. unfold lift. by rewrite He.
Qed.

(** ** Types and parameters *)

(** The next token is not a part of the type. *)
Definition not_marker (ts : list Token) : Prop :=
  checkText $"*" (st ([], []) ts) = false ∧
  (check TIdent (st ([], []) ts) && textAt 0 $"array" (st ([], []) ts)) = false.

Lemma not_marker_sym x n ts : x ≠ $"*" → not_marker (sym x n :: ts).
Proof.
  intros H. split; [|done]. unfold checkText. change (peek _) with (sym x n). cbn [text sym].
  rewrite (bool_decide_eq_false_2 (x = _)) by done. apply andb_false_r.
Qed.

Lemma not_marker_ident x n ts : declarable x = true → not_marker (ident x n :: ts).
Proof.
  unfold declarable. intros H. prop_tests. split; [done|]. apply bool_decide_eq_false. cbn. intros ->. apply H. member.
Qed.

Lemma marker_st b ts c k :
  marker b ts → not_marker k → consumeArrayMarker (st c (ts ++ k)) = (Ok b, st c k).
Proof.
  intros Hm [H1 H2]. unfold consumeArrayMarker. destruct Hm; cbn [app]; [|by steps..].
  rewrite (accept_not $"*") by exact H1. cbv iota. by rewrite (see_is _ false).
Qed.

Lemma type_st ty ts c k x :
  type_tokens d ty ts → not_marker k → parseTypeToken d x (st c (ts ++ k)) = (Ok ty, st c k).
Proof.
  intros Ht Hk. unfold parseTypeToken. destruct Ht as [t n b ts Ht Hm|name n m b ts Hd Hm|n]; cbn [app].
  - set (s := st c _). assert (startsClassType d s = false) as ->.
    { unfold startsClassType. change (check TIdent s) with false. by rewrite andb_false_r. }
    change (check TIdent s && textAt 0 $"array" s) with false. cbv iota. unfold s. steps.
    by rewrite (bind_Ok _ _ _ _ _ (marker_st _ _ _ _ Hm Hk)).
  - set (s := st c _). assert (startsClassType d s = true) as ->.
    { unfold startsClassType. by rewrite bool_decide_eq_true_2. }
    unfold s. steps. by rewrite (bind_Ok _ _ _ _ _ (marker_st _ _ _ _ Hm Hk)).
  - set (s := st c _). assert (startsClassType d s = false) as ->.
    { unfold startsClassType. change (textAt 0 $"class" s) with false. by rewrite andb_false_r. }
    unfold s. by steps.
Qed.

(** What may follow a parameter *)
Definition after_param (ts : list Token) : Prop :=
  match ts with t :: _ => ∃ x n, t = sym x n ∧ x ∈ [$","; $"..."; $")"] | [] => False end.

Lemma after_param_sym x n ts : x ∈ [$","; $"..."; $")"] → after_param (sym x n :: ts).
Proof. intros Hx. by exists x, n. Qed.

Lemma param_turn p ts c k ps :
  param d p ts → after_param k →
  parse_param d ps (st c (ts ++ k)) =
  (do* more := accept $"," in ret (if more then inl (ps ++ [p]) else inr (ps ++ [p]))) (st c k).
Proof.
  intros Hp Hk. destruct k as [|t k]; [done|]. destruct Hk as (x & n & -> & Hx).
  unfold parse_param. destruct Hp as [ty ts name m Ht Hn|ty ts Ht].
  - flat. rewrite (bind_Ok _ _ _ _ _ (type_st _ _ _ _ _ Ht (not_marker_ident _ _ _ Hn))). by steps.
  - rewrite (bind_Ok _ _ _ _ _ (type_st _ _ c (sym x n :: k) _ Ht ltac:(apply not_marker_sym; intros ->; choices Hx))). by steps.
Qed.

Lemma param_list_st ps ts :
  param_list d ps ts → ∀ c k acc, after_param k → checkText $"," (st c k) = false →
  while (parse_param d) acc (st c (ts ++ k)) = (Ok (acc ++ ps), st c k).
Proof.
  induction 1 as [p ts Hp|p ts n ps ts' Hp Hps IH]; intros c k acc Hk Hc; flat.
  - apply while_stop. rewrite (param_turn _ _ _ _ _ Hp Hk). by rewrite accept_not.
  - eapply while_next.
    + rewrite (param_turn _ _ _ _ _ Hp) by (apply after_param_sym; member). by steps.
    + sizes.
    + rewrite IH by done. by rewrite <- app_assoc.
Qed.

Lemma type_starts ty ts r c : type_tokens d ty ts → checkText $")" (st c (ts ++ r)) = false.
Proof.
  intros [t n b ts' Ht Hm|name n m b ts' Hd Hm|n]; [|done..]. cbn [app]. unfold checkText.
  change (peek _) with (kw t n). cbn [text kw]. rewrite (bool_decide_eq_false_2 (t = _)); [apply andb_false_r|].
  by intros ->.
Qed.

Lemma params_st ps va ts c n k :
  params d ps va ts →
  parseParamList d (st c (ts ++ sym $")" n :: k)) = (Ok (ps, va), st c (sym $")" n :: k)).
Proof.
  intros [|ps' ts' b m Hps]; [done|]. unfold parseParamList. flat.
  assert (∀ r, checkText $")" (st c (ts' ++ r)) = false) as Hs.
  { intros r. destruct Hps as [p t [] |p t ? ? ? []]; flat; by eapply type_starts. }
  rewrite (see_is _ false) by done. destruct b; cbn [opt app].
  - rewrite (bind_Ok _ _ _ _ _ (param_list_st _ _ Hps c (sym $"..." m :: sym $")" n :: k) []
      ltac:(apply after_param_sym; member) ltac:(done))). by steps.
  - rewrite (bind_Ok _ _ _ _ _ (param_list_st _ _ Hps c (sym $")" n :: k) []
      ltac:(apply after_param_sym; member) ltac:(done))). by steps.
Qed.

(** ** Statements *)

(** Not the end of a block, nor a label *)
Definition stmt_start (ts : list Token) : Prop := ∀ c k,
  atEnd (st c (ts ++ k)) = false ∧
  ∀ x, x ∈ [$"}"; $"case"; $"default"] → checkText x (st c (ts ++ k)) = false.

Lemma starts_stmt_start ts : starts ts = true → stmt_start ts.
Proof.
  intros Hs c k. split.
  - destruct ts as [|[[] t n] ts]; done.
  - intros x Hx. apply starts_text; [by apply starts_app|]. choices Hx; member.
Qed.

(** The first token of a keyword statement *)
Ltac known_start :=
  let c := fresh in let k := fresh in let x := fresh in let Hx := fresh in
  intros c k; split; [done|]; intros x Hx; choices Hx; reflexivity.

Definition no_else (b : bool) (k : list Token) : Prop := b = false → ∀ c, checkText $"else" (st c k) = false.

Definition P_stmt (b : bool) (c : ctx) (s : ast) (ts : list Token) : Prop :=
  stmt_start ts ∧
  ∀ n k, length (ts ++ k) < n → no_else b k → p_statement (P n) (st c (ts ++ k)) = (Ok s, st c k).

Definition P_branch (b : bool) (c : ctx) (s : ast) (ts : list Token) : Prop :=
  ∀ n k, length (ts ++ k) < n → no_else b k → parseBranch (p_statement (P n)) (st c (ts ++ k)) = (Ok s, st c k).

Definition P_stmts (c : ctx) (sts : list ast) (ts : list Token) : Prop :=
  ∀ n q k acc, let r := sym $"}" q :: k in
    length (ts ++ r) < n → block_loop (p_statement (P n)) acc (st c (ts ++ r)) = (Ok (acc ++ sts), st c r).

Lemma case_stmt b c s ts :
  stmt_start ts →
  (∀ N k, length (ts ++ k) ≤ N → no_else b k →
     parseStatement d (p_expr (P N)) (p_unary (P N)) (p_statement (P N)) (st c (ts ++ k)) = (Ok s, st c k)) →
  P_stmt b c s ts.
Proof.
  intros Hs H. split; [done|]. intros n k Hn Hk. destruct n as [|n]; [lia|].
  change (p_statement (P (S n))) with (parseStatement d (p_expr (P n)) (p_unary (P n)) (p_statement (P n))).
  apply H; [lia|done].
Qed.

(** A statement that its first token tells. *)
Ltac statement :=
  apply case_stmt; [known_start|];
  let N := fresh "N" in let k := fresh "k" in let Hn := fresh "Hn" in let Hk := fresh "Hk" in
  intros N k Hn Hk; revert Hn; flat; intros Hn; unfold parseStatement; steps.

Lemma case_s_null b c n : P_stmt b c (Block [] true) [sym $";" n].
Proof. statement. Qed.

Lemma block_st c n sts ts q N k :
  P_stmts c sts ts → length (sym $"{" n :: ts ++ sym $"}" q :: k) ≤ N →
  parseBlock (p_statement (P N)) (st c (sym $"{" n :: ts ++ sym $"}" q :: k)) = (Ok (Block sts true), st c k).
Proof.
  intros H Hn. unfold parseBlock. steps. rewrite (bind_Ok _ _ _ _ _ (H N q k [] ltac:(sizes))). by steps.
Qed.

Lemma case_s_block b c n sts ts q :
  P_stmts c sts ts → P_stmt b c (Block sts true) (sym $"{" n :: ts ++ [sym $"}" q]).
Proof. intros H. statement. by apply block_st. Qed.

Lemma begins_st x c a ts : checkText x (st c (a :: ts)) = begins x (a :: ts).
Proof. unfold checkText, atEnd, begins. change (peek _) with a. by destruct (type a). Qed.

Lemma begins_app x c ts k : ts ≠ [] → checkText x (st c (ts ++ k)) = begins x ts.
Proof. destruct ts; [done|]. intros _. cbn [app]. by rewrite begins_st. Qed.

Lemma stmt_start_ne ts : stmt_start ts → ts ≠ [].
Proof.
  intros H ->. destruct (H ([], []) [sym $"}" 0]) as [_ H']. specialize (H' $"}" ltac:(member)). done.
Qed.

Lemma case_b_block b c n sts ts q :
  P_stmts c sts ts → P_branch b c (Block sts true) (sym $"{" n :: ts ++ [sym $"}" q]).
Proof.
  intros H N k. flat. intros Hn _. unfold parseBranch. steps. apply block_st; [done|lia].
Qed.

Lemma case_b_stmt b c s ts : P_stmt b c s ts → begins $"{" ts = false → P_branch b c (Block [s] false) ts.
Proof.
  intros [Hs H] Hb N k Hn Hk. unfold parseBranch. rewrite begins_app by by apply stmt_start_ne. rewrite Hb.
  by rewrite (bind_Ok _ _ _ _ _ (H N k Hn Hk)).
Qed.

Lemma case_ss_none c : P_stmts c [] [].
Proof. intros N q k acc r Hn. apply while_stop. rewrite app_nil_r. by steps. Qed.

(** What follows a statement in a block *)
Lemma no_else_next b ts q k :
  (b = false → begins $"else" ts = false) → no_else b (ts ++ sym $"}" q :: k).
Proof.
  intros H Hb c. specialize (H Hb). destruct ts; [done|]. by rewrite begins_app.
Qed.

Lemma case_ss_more b c s ts sts ts2 :
  P_stmt b c s ts → (b = false → begins $"else" ts2 = false) → P_stmts c sts ts2 →
  P_stmts c (s :: sts) (ts ++ ts2).
Proof.
  intros [Hs H] Hb H2 N q k acc r Hn. revert Hn. flat. intros Hn.
  destruct (Hs c (ts2 ++ r)) as [He Hx]. pose proof (stmt_start_ne _ Hs).
  eapply while_next.
  - step. rewrite (Hx $"}") by member. rewrite He. cbv iota.
    rewrite (bind_Ok _ _ _ _ _ (H N _ Hn (no_else_next _ _ _ _ Hb))). steps.
  - destruct ts; [done|]. sizes.
  - change (while _ ?a ?s) with (block_loop (p_statement (P N)) a s). unfold r in *.
    rewrite H2 by sizes. by rewrite <- app_assoc.
Qed.

(** [if], [while], [do] *)

Lemma condition_st c x e ts c' n q k N :
  P_comma c e ts c' → length (sym $"(" n :: ts ++ sym $")" q :: k) ≤ N →
  condition (p_expr (P N)) x (st c (sym $"(" n :: ts ++ sym $")" q :: k)) = (Ok e, st c' k).
Proof. intros H Hn. unfold condition. steps. by_comma N H (sym $")" q :: k). by steps. Qed.

Lemma case_s_if b c n m e ts q th ts2 :
  P_comma c e ts c → P_branch b c th ts2 →
  P_stmt false c (IfStmt e th None) (kw $"if" n :: sym $"(" m :: ts ++ sym $")" q :: ts2).
Proof.
  intros H Hb. statement. unfold parseIfStatement. steps.
  rewrite (bind_Ok _ _ _ _ _ (condition_st _ _ _ _ _ _ _ (ts2 ++ k) N H ltac:(sizes))).
  rewrite (bind_Ok _ _ _ _ _ (Hb N k ltac:(sizes) ltac:(intros _; by apply Hk))).
  by rewrite (accept_not $"else") by (by apply Hk).
Qed.

Lemma case_s_if_else b c n m e ts q th ts2 p el ts3 :
  P_comma c e ts c → P_branch true c th ts2 → P_branch b c el ts3 →
  P_stmt b c (IfStmt e th (Some el)) (kw $"if" n :: sym $"(" m :: ts ++ sym $")" q :: ts2 ++ kw $"else" p :: ts3).
Proof.
  intros H Hb He. statement. unfold parseIfStatement. steps.
  rewrite (bind_Ok _ _ _ _ _ (condition_st _ _ _ _ _ _ _ (ts2 ++ kw $"else" p :: ts3 ++ k) N H ltac:(sizes))).
  rewrite (bind_Ok _ _ _ _ _ (Hb N (kw $"else" p :: ts3 ++ k) ltac:(sizes) ltac:(done))). steps.
  by rewrite (bind_Ok _ _ _ _ _ (He N k ltac:(sizes) Hk)).
Qed.

Lemma case_s_while b c n m e ts q body ts2 :
  P_comma c e ts c → P_branch b c body ts2 →
  P_stmt b c (WhileStmt e body) (kw $"while" n :: sym $"(" m :: ts ++ sym $")" q :: ts2).
Proof.
  intros H Hb. statement. unfold parseWhileStatement. steps.
  rewrite (bind_Ok _ _ _ _ _ (condition_st _ _ _ _ _ _ _ (ts2 ++ k) N H ltac:(sizes))).
  by rewrite (bind_Ok _ _ _ _ _ (Hb N k ltac:(sizes) Hk)).
Qed.

Lemma case_s_do b b' c n body ts p m e ts2 q r :
  P_branch b' c body ts → P_comma c e ts2 c →
  P_stmt b c (DoWhileStmt e body)
    (kw $"do" n :: ts ++ kw $"while" p :: sym $"(" m :: ts2 ++ [sym $")" q; sym $";" r]).
Proof.
  intros Hb H. statement. unfold parseDoWhileStatement. steps.
  rewrite (bind_Ok _ _ _ _ _ (Hb N (kw $"while" p :: sym $"(" m :: ts2 ++ sym $")" q :: sym $";" r :: k)
    ltac:(sizes) ltac:(done))). steps.
  rewrite (bind_Ok _ _ _ _ _ (condition_st _ _ _ _ _ _ _ (sym $";" r :: k) N H ltac:(sizes))). by steps.
Qed.

Lemma case_s_break b c n q : P_stmt b c BreakStmt [kw $"break" n; sym $";" q].
Proof. statement. unfold parseBreakStatement. by steps. Qed.

Lemma case_s_continue b c n q : P_stmt b c ContinueStmt [kw $"continue" n; sym $";" q].
Proof. statement. unfold parseContinueStatement. by steps. Qed.

(** Blocks in expressions *)

Lemma case_time c n m sts ts q :
  P_stmts c sts ts →
  P_expr 15 c (TimeExpressionExpr (Block sts true))
    (ident $"time_expression" n :: sym $"{" m :: ts ++ [sym $"}" q]) c.
Proof.
  intros H. primary. unfold identifier. steps.
  by rewrite (bind_Ok _ _ _ _ _ (block_st _ _ _ _ _ N k H ltac:(sizes))).
Qed.

Lemma case_function c n m ps va ts p k sts ts2 q :
  params d ps va ts → P_stmts c sts ts2 →
  P_expr 15 c (AnonFunctionExpr ps va (Block sts true))
    (kw $"function" n :: sym $"(" m :: ts ++ sym $")" p :: sym $"{" k :: ts2 ++ [sym $"}" q]) c.
Proof.
  intros Hp H. primary. unfold anon_function. steps.
  rewrite (bind_Ok _ _ _ _ _ (params_st _ _ _ _ _ _ Hp)). steps.
  by rewrite (bind_Ok _ _ _ _ _ (block_st _ _ _ _ _ N k0 H ltac:(sizes))).
Qed.

(** ** Clauses *)

Definition clause_close (x : bytes) : Prop := x ∈ [$";"; $")"].

Lemma clause_stops l x q k : clause_close x → stops l (sym x q :: k) = true.
Proof. intros Hx. unfold clause_close in Hx. choices Hx; apply stops_sym; vm_compute; lia. Qed.

(** A clause: empty, or read by [m]. *)
Definition P_clause (m : nat → M pstate ast) (c : ctx) (e : option ast) (ts : list Token) : Prop :=
  ∀ n x q k, let r := sym x q :: k in
    clause_close x → length (ts ++ r) < n → optional x (m n) (st c (ts ++ r)) = (Ok e, st c r).

Definition P_opt_comma := P_clause (λ n, parseCommaExpr (p_expr (P n))).
Definition P_opt_chain := P_clause (λ n, parseCommaExprChain (p_expr (P n))).

(** The first clause of a [for] *)
Definition P_for (c : ctx) (e : option ast) (ts : list Token) : Prop :=
  ∀ n q k, let r := sym $";" q :: k in
    length (ts ++ r) < n → optional $";" (for_init d (p_expr (P n))) (st c (ts ++ r)) = (Ok e, st c r).

Lemma clause_none m c : P_clause m c None [].
Proof.
  intros n x q k r Hx _. unfold optional, r. rewrite (see_is _ true); [done|].
  unfold clause_close in Hx. choices Hx; done.
Qed.

Lemma clause_some m c e ts :
  stmt_start ts → (∀ x k, clause_close x → checkText x (st c (ts ++ k)) = false) →
  (∀ n x q k, clause_close x → length (ts ++ sym x q :: k) < n →
     m n (st c (ts ++ sym x q :: k)) = (Ok e, st c (sym x q :: k))) →
  P_clause m c (Some e) ts.
Proof.
  intros Hs Hx H n x q k r Hc Hn. unfold optional. rewrite (see_is _ false) by by apply Hx.
  by rewrite (bind_Ok _ _ _ _ _ (H n x q k Hc Hn)).
Qed.

Lemma starts_clause ts c x k : starts ts = true → clause_close x → checkText x (st c (ts ++ k)) = false.
Proof.
  intros Hs Hx. apply starts_text; [by apply starts_app|]. unfold clause_close in Hx. choices Hx; member.
Qed.

Lemma case_oc_none c : P_opt_comma c None [].
Proof. apply clause_none. Qed.

Lemma case_och_none c : P_opt_chain c None [].
Proof. apply clause_none. Qed.

Lemma case_oc_some c e ts : P_comma c e ts c → P_opt_comma c (Some e) ts.
Proof.
  intros H. apply clause_some; [apply starts_stmt_start, H|intros; apply starts_clause; [apply H|done]|].
  intros n x q k Hx Hn. apply P_comma_reads; [done..|]. by apply clause_stops.
Qed.

Lemma case_s_return b c n e ts q :
  P_opt_comma c e ts → P_stmt b c (ReturnStmt e) (kw $"return" n :: ts ++ [sym $";" q]).
Proof.
  intros H. statement. unfold parseReturnStatement. steps.
  rewrite (bind_Ok _ _ _ _ _ (H N $";" q k ltac:(unfold clause_close; member) ltac:(sizes))). by steps.
Qed.

(** Further expressions after commas *)
Definition P_chain (c : ctx) (rest : list ast) (ts : list Token) : Prop :=
  (rest = [] ∧ ts = [] ∨ rest ≠ [] ∧ ∃ n r, ts = sym $"," n :: r) ∧
  ∀ n k acc, length (ts ++ k) < n → stops 0 k = true →
    comma_statements (p_expr (P n)) acc (st c (ts ++ k)) = (Ok (acc ++ rest), st c k).

Lemma case_ch_none c : P_chain c [] [].
Proof.
  split; [by left|]. intros n k acc _ Hk. rewrite app_nil_r. apply while_stop.
  by rewrite (accept_not $",") by (eapply stops_text; [exact Hk|vm_compute; lia]).
Qed.

Lemma chain_stops c rest ts k : P_chain c rest ts → stops 0 k = true → stops 1 (ts ++ k) = true.
Proof. intros [[[_ ->]|[_ (n & r & ->)]] _] Hk; [|done]. apply (stops_le 0); [done|lia]. Qed.

Lemma case_ch_more c n e ts es ts2 :
  P_full c e ts c → P_chain c es ts2 → P_chain c (ExprStmt e :: es) (sym $"," n :: ts ++ ts2).
Proof.
  intros H Hc. split; [right; eauto|]. intros N k acc Hn Hk. flat.
  pose proof (chain_stops _ _ _ _ Hc Hk) as Hst. eapply while_next.
  - steps. rewrite (bind_Ok _ _ _ _ _ (P_full_reads _ _ _ _ N (ts2 ++ k) H ltac:(sizes) Hst)). steps.
  - sizes.
  - change (while _ ?a ?s) with (comma_statements (p_expr (P N)) a s). destruct Hc as [_ ->]; [|sizes|done].
    by rewrite <- app_assoc.
Qed.

(** A statement and what follows its first expression *)
Lemma chain_st c first rest ts n k :
  P_chain c rest ts → length (ts ++ k) < n → stops 0 k = true →
  continueStatementCommaChain (p_expr (P n)) first (st c (ts ++ k)) = (Ok (chained first rest), st c k).
Proof.
  intros [Hs H] Hn Hk. unfold continueStatementCommaChain. destruct Hs as [[-> ->]|[Hr (m & r & ->)]].
  - cbn [app]. rewrite (see_is _ false); [done|]. eapply stops_text; [exact Hk|vm_compute; lia].
  - rewrite (see_is _ true) by done. rewrite (bind_Ok _ _ _ _ _ (H n k [first] Hn Hk)).
    by destruct rest.
Qed.

Lemma case_och_one c e ts : P_full c e ts c → P_opt_chain c (Some e) ts.
Proof.
  intros H. apply clause_some; [apply starts_stmt_start, H|intros; apply starts_clause; [apply H|done]|].
  intros n x q k Hx Hn. unfold parseCommaExprChain.
  rewrite (bind_Ok _ _ _ _ _ (P_full_reads _ _ _ _ n (sym x q :: k) H Hn (clause_stops _ _ _ _ Hx))).
  rewrite (see_is _ false); [done|]. unfold clause_close in Hx. choices Hx; done.
Qed.

Lemma case_och_more c e ts s es ts2 :
  P_full c e ts c → P_chain c (s :: es) ts2 → P_opt_chain c (Some (Block (ExprStmt e :: s :: es) false)) (ts ++ ts2).
Proof.
  intros H Hc. apply clause_some; [apply starts_stmt_start, starts_app, H|intros; apply starts_clause; [apply starts_app, H|done]|].
  intros n x q k Hx Hn. revert Hn. flat. intros Hn. unfold parseCommaExprChain.
  pose proof (chain_stops _ _ _ _ Hc (clause_stops 0 x q k Hx)) as Hst.
  rewrite (bind_Ok _ _ _ _ _ (P_full_reads _ _ _ _ n _ H Hn Hst)).
  destruct Hc as [[[? _]|[_ (m & r & ->)]] Hc]; [done|]. rewrite (see_is _ true) by done.
  rewrite (bind_Ok _ _ _ _ _ (Hc n (sym x q :: k) [ExprStmt e] ltac:(sizes) (clause_stops 0 x q k Hx))). done.
Qed.

(** Initialisers and further declared names *)
Definition P_init (c : ctx) (e : option ast) (ts : list Token) : Prop :=
  ∀ n k, length (ts ++ k) < n → stops 1 k = true → initializer (p_expr (P n)) (st c (ts ++ k)) = (Ok e, st c k).

Lemma case_i_none c : P_init c None [].
Proof.
  intros n k _ Hk. unfold initializer. cbn [app].
  by rewrite (accept_not $"=") by (eapply stops_text; [exact Hk|vm_compute; lia]).
Qed.

Lemma case_i_some c n e ts : P_full c e ts c → P_init c (Some e) (sym $"=" n :: ts).
Proof. intros H N k Hn Hk. unfold initializer. flat. steps. by by_full N H k. Qed.

Definition P_decls (ty : bytes) (c : ctx) (rest : list ast) (ts : list Token) : Prop :=
  (rest = [] ∧ ts = [] ∨ rest ≠ [] ∧ ∃ n r, ts = sym $"," n :: r) ∧
  ∀ n k acc, length (ts ++ k) < n → stops 0 k = true →
    decl_loop (p_expr (P n)) ty acc (st c (ts ++ k)) = (Ok (acc ++ rest), st c k).

Lemma case_d_none ty c : P_decls ty c [] [].
Proof.
  split; [by left|]. intros n k acc _ Hk. rewrite app_nil_r. apply while_stop.
  by rewrite (accept_not $",") by (eapply stops_text; [exact Hk|vm_compute; lia]).
Qed.

Lemma decls_stops ty c rest ts k : P_decls ty c rest ts → stops 0 k = true → stops 1 (ts ++ k) = true.
Proof. intros [[[_ ->]|[_ (n & r & ->)]] _] Hk; [|done]. apply (stops_le 0); [done|lia]. Qed.

(** One declared name *)
Lemma decl_st ty b c name m init ts k N :
  P_init c init ts → length (ts ++ k) < N → stops 1 k = true →
  parseSingleVarDecl (p_expr (P N)) ty b (st c (ident name m :: ts ++ k)) = (Ok (VarDeclStmt ty b name init), st c k).
Proof.
  intros H Hn Hk. unfold parseSingleVarDecl. steps. by rewrite (bind_Ok _ _ _ _ _ (H N k Hn Hk)).
Qed.

Lemma case_d_more ty c n b ts name m init ts2 rest ts3 :
  marker b ts → declarable name = true → P_init c init ts2 → P_decls ty c rest ts3 →
  P_decls ty c (VarDeclStmt ty b name init :: rest) (sym $"," n :: ts ++ ident name m :: ts2 ++ ts3).
Proof.
  intros Hm Hd Hi Hr. split; [right; eauto|]. intros N k acc Hn Hk. flat.
  pose proof (decls_stops _ _ _ _ _ Hr Hk) as Hst. eapply while_next.
  - steps. rewrite (bind_Ok _ _ _ _ _ (marker_st _ _ _ _ Hm (not_marker_ident _ _ _ Hd))).
    rewrite (bind_Ok _ _ _ _ _ (decl_st ty b _ _ _ _ _ (ts3 ++ k) N Hi ltac:(sizes) Hst)). steps.
  - sizes.
  - change (while _ ?a ?s) with (decl_loop (p_expr (P N)) ty a s). destruct Hr as [_ ->]; [|sizes|done].
    by rewrite <- app_assoc.
Qed.

(** ** Declarations and loops *)

(** A type and a name start a declaration. *)
Lemma startsType_decl ty ts name m c k :
  type_tokens d ty ts → declarable name = true → startsType d (st c (ts ++ ident name m :: k)) = true.
Proof.
  intros Ht Hn. unfold declarable in Hn. prop_tests. unfold startsType.
  destruct Ht as [t n b ts Ht Hm|x n r b ts Hd Hm|n]; cbn [app].
  - set (s := st c _). change (peek s) with (kw t n). rewrite (type_word_keyword t n Ht).
    change (check TKeyword s) with true. cbn [andb].
    assert (textAt 1 $"::" s = false) as ->; [|done].
    apply bool_decide_eq_false. destruct Hm; cbn; [|done..]. intros ->. set_solver.
  - set (s := st c _). change (check TKeyword s) with false. cbn [andb].
    assert (startsClassType d s = true) as ->; [|done].
    unfold startsClassType. by rewrite bool_decide_eq_true_2.
  - set (s := st c _). change (check TKeyword s) with false. cbn [andb].
    assert (startsClassType d s = false) as ->; [|done].
    unfold startsClassType. change (textAt 0 $"class" s) with false. by rewrite andb_false_r.
Qed.

(** What a declaration does not start with *)
Lemma decl_text ty ts c k x :
  type_tokens d ty ts → x ∈ [$"}"; $"case"; $"default"; $";"; $"{"; $"if"; $"while"; $"do"; $"for"; $"foreach"; $"switch";
                   $"return"; $"break"; $"continue"] →
  checkText x (st c (ts ++ k)) = false.
Proof.
  intros Ht Hx. destruct Ht as [t n b ts Ht Hm|y n r b ts Hd Hm|n]; [|done..].
  cbn [app]. unfold checkText. change (peek _) with (kw t n). cbn [text kw].
  rewrite (bool_decide_eq_false_2 (t = x)); [apply andb_false_r|]. intros ->. choices Hx; done.
Qed.

Lemma decl_start ty ts : type_tokens d ty ts → stmt_start ts.
Proof.
  intros Ht c k. split; [by destruct Ht|]. intros x Hx. eapply decl_text; [exact Ht|]. set_solver.
Qed.

Lemma stmt_start_app ts r : stmt_start ts → stmt_start (ts ++ r).
Proof. intros H c k. rewrite <- app_assoc. apply H. Qed.

Lemma case_s_decl b c ty ts name n init ts2 rest ts3 q :
  type_tokens d ty ts → declarable name = true → P_init c init ts2 → P_decls (fst ty) c rest ts3 →
  P_stmt b c (chained (VarDeclStmt (fst ty) (snd ty) name init) rest)
    (ts ++ ident name n :: ts2 ++ ts3 ++ [sym $";" q]).
Proof.
  intros Ht Hd Hi Hr. apply case_stmt; [by eapply stmt_start_app, decl_start|].
  intros N k Hn Hk. revert Hn. flat. intros Hn. unfold parseStatement.
  rewrite !(decl_text _ _ _ _ _ Ht) by member. rewrite (startsType_decl _ _ _ _ _ _ Ht Hd).
  unfold parseVarDeclStatement. rewrite (bind_Ok _ _ _ _ _ (type_st _ _ _ _ _ Ht (not_marker_ident _ _ _ Hd))).
  pose proof (decls_stops _ _ _ _ (sym $";" q :: k) Hr eq_refl) as Hst.
  rewrite (bind_Ok _ _ _ _ _ (decl_st _ _ _ _ _ _ _ (ts3 ++ sym $";" q :: k) N Hi ltac:(sizes) Hst)).
  destruct Hr as [[[-> ->]|[Hne (m & r & ->)]] Hr].
  - rewrite (see_is _ false) by done. by steps.
  - rewrite (see_is _ true) by done. rewrite (bind_Ok _ _ _ _ _ (Hr N (sym $";" q :: k) _ ltac:(sizes) eq_refl)).
    steps. by destruct rest.
Qed.

Lemma case_fc_decl c ty ts name n init ts2 :
  type_tokens d ty ts → declarable name = true → P_init c init ts2 →
  P_for c (Some (VarDeclStmt (fst ty) (snd ty) name init)) (ts ++ ident name n :: ts2).
Proof.
  intros Ht Hd Hi N q k r Hn. revert Hn. flat. intros Hn. unfold optional.
  rewrite (see_is _ false) by (eapply decl_text; [exact Ht|member]). unfold for_init.
  rewrite bind_bind, (see_is _ true) by by eapply startsType_decl.
  rewrite bind_bind, (bind_Ok _ _ _ _ _ (type_st _ _ _ _ _ Ht (not_marker_ident _ _ _ Hd))).
  by rewrite (bind_Ok _ _ _ _ _ (decl_st _ _ _ _ _ _ _ r N Hi ltac:(sizes) eq_refl)).
Qed.

Lemma peekAt_app i c l k : i < length l → peekAt i (st c (l ++ k)) = peekAt i (initial l).
Proof.
  intros Hi. unfold peekAt. cbn [st initial toks]. rewrite lookup_app_l by done.
  by destruct (lookup_lt_is_Some_2 l i Hi) as [t ->].
Qed.

(** The tests of the first two tokens *)
Lemma startsType_app c l k : 2 ≤ length l → startsType d (st c (l ++ k)) = starts_type d l.
Proof.
  intros Hl. unfold starts_type, startsType, startsClassType, check, atEnd, textAt, typeAt, peek.
  by rewrite !(peekAt_app 0), !(peekAt_app 1) by lia.
Qed.

Lemma case_fc_exprs c e ts n :
  P_opt_chain c e ts → starts_type d (ts ++ [sym $";" n]) = false → P_for c e ts.
Proof.
  intros H Hs N q k r Hn. unfold r in *. rewrite <- (H N $";" q k); [|unfold clause_close; member|exact Hn].
  unfold optional. unfold bind at 1 3, see. destruct (checkText $";" _); [done|].
  unfold for_init. rewrite bind_bind, (see_is _ false); [done|].
  destruct ts as [|a [|b ts]].
  - unfold startsType, startsClassType. by destruct (bool_decide (d = FluffOS)).
  - rewrite <- Hs. by rewrite <- (startsType_app c ([a] ++ [sym $";" n]) k) by (simpl; lia).
  - rewrite <- Hs. rewrite <- (startsType_app c ((a :: b :: ts) ++ [sym $";" n]) k) by sizes. done.
Qed.

(** A name that is not followed by another is not a type. *)
Lemma startsType_name c a r k :
  type a = TIdent → type r ≠ TIdent → text r ≠ $"*" → startsType d (st c (a :: r :: k)) = false.
Proof.
  intros Ha Hr Hx. unfold startsType, startsClassType, check, typeAt, textAt. set (s := st c _).
  change (peekAt 1 s) with r. change (peek s) with a. rewrite Ha.
  rewrite (bool_decide_eq_false_2 (type r = TIdent)), (bool_decide_eq_false_2 (text r = $"*")) by done.
  change (bool_decide (TIdent = TKeyword)) with false. rewrite !andb_false_r, !andb_false_l.
  by destruct (_ && _).
Qed.

Lemma foreach_var_st x ts c r k :
  foreach_var d x ts → text r ≠ $"*" → type r = TSymbol ∨ type r = TKeyword →
  parseForeachVar d (st c (ts ++ r :: k)) = (Ok x, st c (r :: k)).
Proof.
  intros Hx Hr Hr'. unfold parseForeachVar. destruct Hx as [ty ts name n Ht Hn|name n]; flat.
  - rewrite (see_is _ true) by by eapply startsType_decl.
    rewrite (bind_Ok _ _ _ _ _ (type_st _ _ _ _ _ Ht (not_marker_ident _ _ _ Hn))). by steps.
  - rewrite (see_is _ false); [by steps|]. apply startsType_name; [done|destruct Hr'; congruence|done].
Qed.

Lemma case_s_for b c n m init ts1 p cond ts2 q upd ts3 r body ts4 :
  P_for c init ts1 → P_opt_comma c cond ts2 → P_opt_chain c upd ts3 → P_branch b c body ts4 →
  P_stmt b c (ForStmt init cond upd body)
    (kw $"for" n :: sym $"(" m :: ts1 ++ sym $";" p :: ts2 ++ sym $";" q :: ts3 ++ sym $")" r :: ts4).
Proof.
  intros Hi Hc Hu Hb. statement. unfold parseForStatement. steps.
  rewrite (bind_Ok _ _ _ _ _ (Hi N p (ts2 ++ sym $";" q :: ts3 ++ sym $")" r :: ts4 ++ k) ltac:(sizes))). steps.
  rewrite (bind_Ok _ _ _ _ _ (Hc N $";" q (ts3 ++ sym $")" r :: ts4 ++ k)
    ltac:(unfold clause_close; member) ltac:(sizes))). steps.
  rewrite (bind_Ok _ _ _ _ _ (Hu N $")" r (ts4 ++ k) ltac:(unfold clause_close; member) ltac:(sizes))). steps.
  by rewrite (bind_Ok _ _ _ _ _ (Hb N k ltac:(sizes) Hk)).
Qed.

Lemma case_s_foreach b c n m x ts1 p e ts2 q body ts3 :
  foreach_var d x ts1 → P_full c e ts2 c → P_branch b c body ts3 →
  P_stmt b c (ForeachStmt (fv_name x) (fv_isNewDecl x) false [] false e body (fv_classType x) [])
    (kw $"foreach" n :: sym $"(" m :: ts1 ++ kw $"in" p :: ts2 ++ sym $")" q :: ts3).
Proof.
  intros Hx H Hb. statement. unfold parseForeachStatement. steps.
  rewrite (bind_Ok _ _ _ _ _ (foreach_var_st _ _ _ (kw $"in" p) (ts2 ++ sym $")" q :: ts3 ++ k)
    Hx ltac:(done) ltac:(by right))). steps.
  by_full N H (sym $")" q :: ts3 ++ k). steps. by rewrite (bind_Ok _ _ _ _ _ (Hb N k ltac:(sizes) Hk)).
Qed.

Lemma case_s_foreach2 b c n m x ts1 r y ts1' p e ts2 q body ts3 :
  foreach_var d x ts1 → foreach_var d y ts1' → P_full c e ts2 c → P_branch b c body ts3 →
  P_stmt b c (ForeachStmt (fv_name x) (fv_isNewDecl x) true (fv_name y) (fv_isNewDecl y) e body
                (fv_classType x) (fv_classType y))
    (kw $"foreach" n :: sym $"(" m :: ts1 ++ sym $"," r :: ts1' ++ kw $"in" p :: ts2 ++ sym $")" q :: ts3).
Proof.
  intros Hx Hy H Hb. statement. unfold parseForeachStatement. steps.
  rewrite (bind_Ok _ _ _ _ _ (foreach_var_st _ _ _ (sym $"," r) (ts1' ++ kw $"in" p :: ts2 ++ sym $")" q :: ts3 ++ k)
    Hx ltac:(done) ltac:(by left))). steps.
  rewrite (bind_Ok _ _ _ _ _ (foreach_var_st _ _ _ (kw $"in" p) (ts2 ++ sym $")" q :: ts3 ++ k)
    Hy ltac:(done) ltac:(by right))). steps.
  by_full N H (sym $")" q :: ts3 ++ k). steps. by rewrite (bind_Ok _ _ _ _ _ (Hb N k ltac:(sizes) Hk)).
Qed.

(** ** Switch *)

Definition P_items (c : ctx) (its : list ast) (ts : list Token) : Prop :=
  ∀ n q k acc, let r := sym $"}" q :: k in
    length (ts ++ r) < n →
    switch_loop (p_expr (P n)) (p_statement (P n)) acc (st c (ts ++ r)) = (Ok (acc ++ its), st c r).

Lemma case_it_none c : P_items c [] [].
Proof. intros N q k acc r Hn. apply while_stop. rewrite app_nil_r. by steps. Qed.

(** One more item, from what its turn does *)
Lemma items_next c it ts its ts2 :
  P_items c its ts2 → ts ≠ [] →
  (∀ N q k, length (ts ++ ts2 ++ sym $"}" q :: k) < N →
     (do* s := get in
      if checkText $"}" s then ret None
      else if atEnd s then parse_error $"unterminated switch statement"
      else do* item := switch_item (p_expr (P N)) (p_statement (P N)) in ret (Some item))
       (st c (ts ++ ts2 ++ sym $"}" q :: k)) = (Ok (Some it), st c (ts2 ++ sym $"}" q :: k))) →
  P_items c (it :: its) (ts ++ ts2).
Proof.
  intros H2 Hne H N q k acc r Hn. revert Hn. flat. intros Hn. unfold r in *. specialize (H N q k Hn).
  eapply while_next.
  - unfold bind, get, see in *. destruct (checkText _ _); [done|]. destruct (atEnd _); [done|].
    destruct (switch_item _ _ _) as [[x| | |] s']; try done. unfold ret in *. simplify_eq. reflexivity.
  - destruct ts; [done|]. sizes.
  - change (while _ ?a ?s) with (switch_loop (p_expr (P N)) (p_statement (P N)) a s).
    rewrite H2 by sizes. by rewrite <- app_assoc.
Qed.

Lemma case_it_case c n e ts m its ts2 :
  P_full c e ts c → P_items c its ts2 →
  P_items c (CaseLabel (Some e) None :: its) (kw $"case" n :: ts ++ sym $":" m :: ts2).
Proof.
  intros H H2.
  replace (kw $"case" n :: ts ++ sym $":" m :: ts2) with ((kw $"case" n :: ts ++ [sym $":" m]) ++ ts2) by by flat.
  apply items_next; [done..|]. intros N q k. flat. intros Hn. steps. unfold switch_item. steps. unfold case_label.
  rewrite bind_bind. by_full N H (sym $":" m :: ts2 ++ sym $"}" q :: k). by steps.
Qed.

Lemma case_it_range c n e ts p e' ts' m its ts2 :
  P_full c e ts c → P_full c e' ts' c → P_items c its ts2 →
  P_items c (CaseLabel (Some e) (Some e') :: its) (kw $"case" n :: ts ++ sym $".." p :: ts' ++ sym $":" m :: ts2).
Proof.
  intros H H' H2.
  replace (kw $"case" n :: ts ++ sym $".." p :: ts' ++ sym $":" m :: ts2)
    with ((kw $"case" n :: ts ++ sym $".." p :: ts' ++ [sym $":" m]) ++ ts2) by by flat.
  apply items_next; [done..|]. intros N q k. flat. intros Hn. steps. unfold switch_item. steps. unfold case_label.
  rewrite bind_bind. by_full N H (sym $".." p :: ts' ++ sym $":" m :: ts2 ++ sym $"}" q :: k). steps.
  by_full N H' (sym $":" m :: ts2 ++ sym $"}" q :: k). by steps.
Qed.

Lemma case_it_default c n m its ts2 :
  P_items c its ts2 → P_items c (CaseLabel None None :: its) (kw $"default" n :: sym $":" m :: ts2).
Proof.
  intros H2. apply (items_next _ _ [kw $"default" n; sym $":" m]); [done..|]. intros N q k Hn. flat.
  steps. unfold switch_item. by steps.
Qed.

Lemma case_it_stmt b c s ts its ts2 :
  P_stmt b c s ts → (b = false → begins $"else" ts2 = false) → P_items c its ts2 → P_items c (s :: its) (ts ++ ts2).
Proof.
  intros [Hs H] Hb H2. apply items_next; [done|by apply stmt_start_ne|]. intros N q k Hn.
  destruct (Hs c (ts2 ++ sym $"}" q :: k)) as [He Hx].
  step. rewrite (Hx $"}"), He by member. unfold switch_item.
  rewrite bind_bind, (accept_not $"case") by (apply Hx; member). cbv iota.
  rewrite bind_bind, (accept_not $"default") by (apply Hx; member). cbv iota.
  by rewrite (bind_Ok _ _ _ _ _ (H N _ Hn (no_else_next _ _ _ _ Hb))).
Qed.

Lemma case_s_switch b c n m e ts p q its ts2 r :
  P_comma c e ts c → P_items c its ts2 →
  P_stmt b c (SwitchStmt e its)
    (kw $"switch" n :: sym $"(" m :: ts ++ sym $")" p :: sym $"{" q :: ts2 ++ [sym $"}" r]).
Proof.
  intros H Hi. statement. unfold parseSwitchStatement. steps.
  rewrite (bind_Ok _ _ _ _ _ (condition_st _ _ _ _ _ _ _ (sym $"{" q :: ts2 ++ sym $"}" r :: k) N H ltac:(sizes))).
  steps. rewrite (bind_Ok _ _ _ _ _ (Hi N r k [] ltac:(sizes))). by steps.
Qed.

(** ** Expressions as statements *)

(** The end of an expression statement *)
Lemma tail_stops c rest ts q k : P_chain c rest ts → stops 1 (ts ++ sym $";" q :: k) = true.
Proof. intros H. by eapply chain_stops. Qed.

Lemma case_s_assign b c name n m v ts rest ts2 q :
  P_full c v ts c → P_chain c rest ts2 →
  P_stmt b c (chained (AssignStmt name v) rest) (ident name n :: sym $"=" m :: ts ++ ts2 ++ [sym $";" q]).
Proof.
  intros H Hc. statement.
  rewrite startsType_name by done. steps. unfold parseAssignStatement. steps.
  rewrite (bind_Ok _ _ _ _ _ (P_full_reads _ _ _ _ N (ts2 ++ sym $";" q :: k) H ltac:(sizes) (tail_stops _ _ _ _ _ Hc))).
  rewrite (bind_Ok _ _ _ _ _ (chain_st _ _ _ _ N (sym $";" q :: k) Hc ltac:(sizes) eq_refl)). by steps.
Qed.

Lemma expression_statement_st c e ts rest ts2 q k N :
  P_full c e ts c → P_chain c rest ts2 → length (ts ++ ts2 ++ sym $";" q :: k) ≤ N →
  expression_statement d (p_expr (P N)) (p_unary (P N)) (p_statement (P N)) (st c (ts ++ ts2 ++ sym $";" q :: k))
  = (Ok (chained (ExprStmt e) rest), st c k).
Proof.
  intros H Hc Hn. unfold expression_statement.
  change (parseTernary d (p_expr (P N)) (p_unary (P N)) (p_statement (P N))) with (p_expr (P (S N))).
  rewrite (bind_Ok _ _ _ _ _ (P_full_reads _ _ _ _ (S N) (ts2 ++ sym $";" q :: k) H ltac:(lia) (tail_stops _ _ _ _ _ Hc))).
  pose proof (starts_app ts [] (proj1 H)). destruct ts; [done|].
  rewrite (bind_Ok _ _ _ _ _ (chain_st _ _ _ _ N (sym $";" q :: k) Hc ltac:(sizes) eq_refl)). by steps.
Qed.

(** The tests of the statement's first tokens, on a statement that is longer *)
Lemma starts_keyword_st c ts k x :
  starts_keyword ts = false → ts ≠ [] → x ∈ statement_keywords → checkText x (st c (ts ++ k)) = false.
Proof.
  intros H Hne Hx. rewrite begins_app by done. unfold starts_keyword in H.
  destruct (begins x ts) eqn:E; [|done]. rewrite <- H. symmetry. apply existsb_exists. exists x.
  split; [by apply list_elem_of_In|done].
Qed.

Lemma starts_assign_st c l k :
  2 ≤ length l →
  check TIdent (st c (l ++ k)) && typeAt 1 TSymbol (st c (l ++ k)) && textAt 1 $"=" (st c (l ++ k)) = starts_assign l.
Proof.
  intros Hl. destruct l as [|a [|b l]]; [simpl in Hl; lia..|].
  unfold check, atEnd, typeAt, textAt, starts_assign. cbn [app].
  change (peek _) with a. change (peekAt 1 _) with b. by destruct (type a).
Qed.

Lemma starts_index_st c l k :
  2 ≤ length l →
  check TIdent (st c (l ++ k)) && typeAt 1 TSymbol (st c (l ++ k)) &&
    (textAt 1 $"[" (st c (l ++ k)) || textAt 1 $"->" (st c (l ++ k))) = starts_index l.
Proof.
  intros Hl. destruct l as [|a [|b l]]; [simpl in Hl; lia..|].
  assert (∀ t : bytes, bool_decide (t = $"[") || bool_decide (t = $"->") = bool_decide (t ∈ [$"["; $"->"])) as Ht.
  { intros t. apply eq_true_iff_eq. rewrite orb_true_iff, !bool_decide_eq_true. set_solver. }
  unfold check, atEnd, typeAt, textAt, starts_index. rewrite <- Ht. cbn [app].
  change (peek _) with a. change (peekAt 1 _) with b. by destruct (type a).
Qed.

Lemma case_s_expr b c e ts rest ts2 q :
  P_full c e ts c → P_chain c rest ts2 →
  starts_keyword ts = false → starts_type d (ts ++ ts2 ++ [sym $";" q]) = false →
  starts_assign (ts ++ ts2 ++ [sym $";" q]) = false → starts_index (ts ++ ts2 ++ [sym $";" q]) = false →
  P_stmt b c (chained (ExprStmt e) rest) (ts ++ ts2 ++ [sym $";" q]).
Proof.
  intros H Hc Hk Ht Ha Hi. pose proof H as [Hs _].
  assert (ts ≠ []) as Hne by by intros ->.
  assert (2 ≤ length (ts ++ ts2 ++ [sym $";" q])) as Hl by (destruct ts; [done|]; sizes).
  apply case_stmt; [by apply stmt_start_app, starts_stmt_start|].
  intros N k Hn Hk'. unfold parseStatement.
  rewrite (startsType_app _ _ _ Hl), Ht, (starts_assign_st _ _ _ Hl), Ha, (starts_index_st _ _ _ Hl), Hi.
  revert Hn. flat. intros Hn. rewrite !(starts_keyword_st _ _ _ _ Hk Hne) by member.
  by apply expression_statement_st.
Qed.

(** A statement that starts with a subscript or an arrow *)
Lemma starts_index_tests pe pu ps c ts k :
  starts_index ts = true →
  parseStatement d pe pu ps (st c (ts ++ k)) = index_statement d pe pu ps (st c (ts ++ k)).
Proof.
  intros Hi. destruct ts as [|a [|b' ts]]; [done..|].
  assert (2 ≤ length (a :: b' :: ts)) as Hl by (simpl; lia).
  pose proof Hi as Hi'. unfold starts_index in Hi'. prop_tests. unfold parseStatement.
  assert (∀ x, checkText x (st c ((a :: b' :: ts) ++ k)) = false) as Hx.
  { intros x. cbn [app]. rewrite begins_st. unfold begins. rewrite (bool_decide_eq_false_2 (type a ∈ _)); [done|].
    intros Hin. destruct (type a); try done; choices Hin. }
  rewrite !Hx.
  assert (startsType d (st c ((a :: b' :: ts) ++ k)) = false) as ->.
  { cbn [app]. apply startsType_name; [done|congruence|]. not_among. }
  rewrite starts_assign_st, starts_index_st, Hi by done. unfold starts_assign.
  rewrite (bool_decide_eq_false_2 (text b' = $"=")) by not_among. by rewrite andb_false_r.
Qed.

Lemma starts_index_app ts r : starts_index ts = true → starts_index (ts ++ r) = true.
Proof. by destruct ts as [|a [|b ts]]. Qed.

(** The run of the operand, with what follows it *)
Lemma postfix_st c e ts c' k N :
  P_expr 13 c e ts c' → length (ts ++ k) ≤ N → stops 13 k = true →
  parsePostfix d (p_expr (P N)) (p_statement (P N)) (st c (ts ++ k)) = (Ok e, st c' k).
Proof. apply P_expr_reads. Qed.

Lemma case_s_index b c e i col ts t op n v ts2 rest ts3 q :
  P_expr 14 c (IndexExpr e i None false false col) ts c → starts_index ts = true →
  (t, op) ∈ assign_ops → P_full c v ts2 c → P_chain c rest ts3 →
  P_stmt b c (chained (IndexAssignStmt e i v (fst op) (snd op) col) rest)
    (ts ++ sym t n :: ts2 ++ ts3 ++ [sym $";" q]).
Proof.
  intros H Hi Ho Hv Hc. apply (case_up 13) in H; [|lia].
  apply case_stmt; [apply stmt_start_app, starts_stmt_start, H|].
  intros N k Hn Hk. revert Hn. flat. intros Hn.
  rewrite starts_index_tests by done.
  assert (stops 13 (sym t n :: ts2 ++ ts3 ++ sym $";" q :: k) = true) as Ht.
  { apply stops_sym. by rewrite (assign_level _ _ Ho). }
  unfold index_statement. rewrite (bind_Ok _ _ _ _ _ (postfix_st _ _ _ _ _ _ H Hn Ht)). step.
  rewrite (assign_op_known _ _ _ _ _ Ho). steps.
  rewrite (bind_Ok _ _ _ _ _ (P_full_reads _ _ _ _ N (ts3 ++ sym $";" q :: k) Hv ltac:(sizes) (tail_stops _ _ _ _ _ Hc))).
  rewrite (bind_Ok _ _ _ _ _ (chain_st _ _ _ _ N (sym $";" q :: k) Hc ltac:(sizes) eq_refl)). by steps.
Qed.

Lemma P_expr_full l c e ts c' : 1 ≤ l ≤ 15 → P_expr l c e ts c' → P_full c e ts c'.
Proof.
  intros Hl H. apply case_f_closed. induction l as [|l IH]; [lia|].
  destruct (decide (l = 0)) as [->|]; [done|]. apply IH; [lia|]. apply case_up; [lia|done].
Qed.

Lemma case_s_postfix b c e ts rest ts2 q :
  P_expr 13 c e ts c → starts_index ts = true → P_chain c rest ts2 →
  P_stmt b c (chained (ExprStmt e) rest) (ts ++ ts2 ++ [sym $";" q]).
Proof.
  intros H Hi Hc. apply case_stmt; [apply stmt_start_app, starts_stmt_start, H|].
  intros N k Hn Hk. revert Hn. flat. intros Hn.
  rewrite starts_index_tests by done.
  pose proof (tail_stops c rest ts2 q k Hc) as Ht.
  unfold index_statement.
  rewrite (bind_Ok _ _ _ _ _ (postfix_st _ _ _ _ _ _ H Hn ltac:(eapply stops_le; [exact Ht|lia]))). step.
  rewrite assign_op_stops by (eapply stops_le; [exact Ht|lia]).
  replace (match e with IndexExpr _ _ _ _ _ _ => _ | _ => _ end)
    with (do* _ := modify (λ s, s <| toks := ts ++ ts2 ++ sym $";" q :: k |>) in
          expression_statement d (p_expr (P N)) (p_unary (P N)) (p_statement (P N))) by by destruct e.
  steps. apply expression_statement_st; [by eapply (P_expr_full 13); [lia|]|done..].
Qed.

(** ** The grammar *)

Scheme expr_min := Minimality for expr Sort Prop
  with open_min := Minimality for open Sort Prop
  with full_min := Minimality for full Sort Prop
  with comma_min := Minimality for comma Sort Prop
  with key_min := Minimality for key Sort Prop
  with range_min := Minimality for range Sort Prop
  with elems_min := Minimality for elems Sort Prop
  with elist_min := Minimality for elist Sort Prop
  with exprs_min := Minimality for exprs Sort Prop
  with values_min := Minimality for values Sort Prop
  with entries_min := Minimality for entries Sort Prop
  with fields_min := Minimality for fields Sort Prop
  with stmt_min := Minimality for stmt Sort Prop
  with branch_min := Minimality for branch Sort Prop
  with stmts_min := Minimality for stmts Sort Prop
  with chain_min := Minimality for chain Sort Prop
  with decls_min := Minimality for decls Sort Prop
  with init_min := Minimality for opt_init Sort Prop
  with opt_comma_min := Minimality for opt_comma Sort Prop
  with opt_chain_min := Minimality for opt_chain Sort Prop
  with for_min := Minimality for for_clause Sort Prop
  with items_min := Minimality for items Sort Prop.

Combined Scheme grammar_ind from expr_min, open_min, full_min, comma_min, key_min, range_min, elems_min,
  elist_min, exprs_min, values_min, entries_min, fields_min, stmt_min, branch_min, stmts_min, chain_min,
  decls_min, init_min, opt_comma_min, opt_chain_min, for_min, items_min.

Create HintDb cases.
#[local] Hint Resolve
  case_up case_ternary case_binary case_unary case_prefix case_cast case_class_cast case_postfix case_o_unary
  case_o_cast case_o_class_cast case_o_assign case_o_binary case_f_closed case_f_open case_c_one case_c_more
  case_k_full case_k_comma case_r_none case_r_column case_r_open case_r_end case_e_last case_e_more case_l_none
  case_l_some case_xs_one case_xs_more case_v_none case_v_more case_en_last case_en_more case_fi_one
  case_fi_more case_member case_arrow case_index case_string case_number case_nil case_symbol case_bound
  case_mapping_empty case_mapping case_hash_efun case_hash case_closure case_closure_bound case_lambda
  case_pointer case_array case_paren case_parent case_type_parent case_param case_new_empty case_new case_efun
  case_qualified case_catch case_var case_call case_sscanf case_call_other case_s_null case_s_block case_b_block
  case_b_stmt case_ss_none case_ss_more case_s_if case_s_if_else case_s_while case_s_do case_s_break
  case_s_continue case_time case_function case_oc_some case_s_return case_ch_none case_ch_more case_och_one
  case_och_more case_i_none case_i_some case_d_none case_d_more case_s_decl case_fc_decl case_fc_exprs
  case_s_for case_s_foreach case_s_foreach2 case_it_none case_it_case case_it_range case_it_default case_it_stmt
  case_s_switch case_s_assign case_s_expr case_s_index case_s_postfix case_oc_none case_och_none : cases.

(** Every part of the grammar is read. *)
Lemma grammar_read :
  (∀ l c e ts c', expr d l c e ts c' → P_expr l c e ts c') ∧
  (∀ l c e ts c', open d l c e ts c' → P_open l c e ts c') ∧
  (∀ c e ts c', full d c e ts c' → P_full c e ts c') ∧
  (∀ c e ts c', comma d c e ts c' → P_comma c e ts c') ∧
  (∀ c e ts c', key d c e ts c' → P_key c e ts c') ∧
  (∀ c re fe col ts c', range d c re fe col ts c' → P_range c re fe col ts c') ∧
  (∀ c es fs ts c', elems d c es fs ts c' → P_elems c es fs ts c') ∧
  (∀ c es fs ts c', elist d c es fs ts c' → P_elist c es fs ts c') ∧
  (∀ c es ts c', exprs d c es ts c' → P_exprs c es ts c') ∧
  (∀ c vs ts c', values d c vs ts c' → P_values c vs ts c') ∧
  (∀ w c es ts c', entries d w c es ts c' → P_entries w c es ts c') ∧
  (∀ c fs ts c', fields d c fs ts c' → P_fields c fs ts c') ∧
  (∀ b c s ts, stmt d b c s ts → P_stmt b c s ts) ∧
  (∀ b c s ts, branch d b c s ts → P_branch b c s ts) ∧
  (∀ c sts ts, stmts d c sts ts → P_stmts c sts ts) ∧
  (∀ c rest ts, chain d c rest ts → P_chain c rest ts) ∧
  (∀ ty c rest ts, decls d ty c rest ts → P_decls ty c rest ts) ∧
  (∀ c e ts, opt_init d c e ts → P_init c e ts) ∧
  (∀ c e ts, opt_comma d c e ts → P_opt_comma c e ts) ∧
  (∀ c e ts, opt_chain d c e ts → P_opt_chain c e ts) ∧
  (∀ c e ts, for_clause d c e ts → P_for c e ts) ∧
  (∀ c its ts, items d c its ts → P_items c its ts).
Proof.
  apply grammar_ind; intros; eauto 2 with cases.
Qed.
End Spec.
