(* ===== verification/ParserSpec.v ===== *)
(** * The parser reads the grammar

    Every file of the grammar is parsed to the program it declares. *)

From S2P Require Import Prelude Doubles Config Lexer Ast Parser Grammar ParserReads.

#[local] Open Scope nat_scope.

Section Spec.
Context (d : LpcDialect).

Definition outer : ctx := ([], []).

(** ** Parts of declarations *)

Lemma path_loop_st r ts : path_rest r ts → ∀ acc c k,
  check TString (st c k) = false → checkText $"+" (st c k) = false →
  path_loop acc (st c (ts ++ k)) = (Ok (acc ++ r), st c k).
Proof.
  induction 1 as [|s n r ts H IH|m s n r ts H IH]; intros acc c k Hs Hp; flat.
  - apply while_stop. rewrite (see_is _ false) by done. by rewrite app_nil_r, (accept_not $"+").
  - eapply while_next; [steps; reflexivity|simpl; lia|]. cbn [text].
    change (while _ ?a ?s) with (path_loop a s). by rewrite IH, <- app_assoc.
  - eapply while_next; [steps; reflexivity|simpl; lia|]. cbn [text].
    change (while _ ?a ?s) with (path_loop a s). by rewrite IH, <- app_assoc.
Qed.

Lemma inherit_st p n s m r ts q c k :
  path_rest r ts →
  parseInheritStatement p (st c (kw $"inherit" n :: mkToken TString s m :: ts ++ sym $";" q :: k))
  = (Ok (p <| inherits ::= λ l, l ++ [s ++ r] |>), st c k).
Proof.
  intros H. unfold parseInheritStatement. steps. unfold parseInheritPathString. steps. cbn [text].
  rewrite (bind_Ok _ _ _ _ _ (path_loop_st _ _ H s c (sym $";" q :: k) eq_refl eq_refl)). by steps.
Qed.

Lemma member_rest_st names ts : member_rest names ts → ∀ acc b mk name n c q k,
  marker b mk → declarable name = true →
  member_names acc (st c (mk ++ ident name n :: ts ++ sym $";" q :: k))
  = (Ok (acc ++ name :: names), st c (sym $";" q :: k)).
Proof.
  induction 1 as [|n b ts name m names ts2 Hb Hd H IH]; intros acc b0 mk name0 n0 c q k Hmk Hn; flat.
  - apply while_stop. rewrite (bind_Ok _ _ _ _ _ (marker_st _ _ _ _ Hmk (not_marker_ident _ _ _ Hn))). by steps.
  - eapply while_next.
    + rewrite (bind_Ok _ _ _ _ _ (marker_st _ _ _ _ Hmk (not_marker_ident _ _ _ Hn))). steps.
    + sizes.
    + change (while _ ?a ?s) with (member_names a s). rewrite (IH _ _ _ _ _ _ _ _ Hb Hd). by rewrite <- app_assoc.
Qed.

Lemma members_st names ts : members d names ts → ∀ acc c q k,
  class_loop d acc (st c (ts ++ sym $"}" q :: k)) = (Ok (acc ++ names), st c (sym $"}" q :: k)).
Proof.
  induction 1 as [|ty ts name n names ts2 m rest ts3 Ht Hn Hm H IH]; intros acc c q k; flat.
  - apply while_stop. steps. by rewrite app_nil_r.
  - eapply while_next.
    + step. assert (stmt_start ts) as Hs by by eapply decl_start.
      destruct (Hs c (ident name n :: ts2 ++ sym $";" m :: ts3 ++ sym $"}" q :: k)) as [He Hx].
      rewrite (Hx $"}"), He by member. cbv iota.
      rewrite (bind_Ok _ _ _ _ _ (type_st _ _ _ _ _ _ Ht (not_marker_ident _ _ _ Hn))).
      rewrite (bind_Ok _ _ _ _ _ (member_rest_st _ _ Hm acc _ _ name n c m (ts3 ++ sym $"}" q :: k) marker_none Hn)).
      steps.
    + sizes.
    + change (while _ ?a ?s) with (class_loop d a s). rewrite IH. by rewrite <- app_assoc.
Qed.

(** ** Modifiers *)

Lemma modifier_type t : isModifierKeyword d t = true → type t = TKeyword.
Proof. unfold isModifierKeyword. intros H. by prop_tests. Qed.

Lemma modifiers_cons t mods : modifiers d (t :: mods) = true ↔ isModifierKeyword d t = true ∧ modifiers d mods = true.
Proof. apply andb_true_iff. Qed.

Lemma lookahead_st mods t c k :
  modifiers d mods = true → isModifierKeyword d t = false → lookahead d (st c (mods ++ t :: k)) = length mods.
Proof.
  intros Hm Ht. unfold lookahead. cbn [st toks]. induction mods as [|m mods IH]; cbn [app modifiers_from].
  - by rewrite Ht.
  - apply modifiers_cons in Hm as [-> Hm]. cbn [length]. by rewrite IH.
Qed.

Lemma advances_st mods c k : modifiers d mods = true → advances (length mods) (st c (mods ++ k)) = (Ok tt, st c k).
Proof.
  induction mods as [|m mods IH]; [done|]. intros Hm. apply modifiers_cons in Hm as [Ht Hm]. cbn [length advances app].
  rewrite (bind_Ok _ _ _ _ _ (advance_st c m _ ltac:(by rewrite (modifier_type _ Ht)))). by apply IH.
Qed.

Lemma skip_modifiers_st mods t c k :
  modifiers d mods = true → isModifierKeyword d t = false →
  skip_modifiers d (st c (mods ++ t :: k)) = (Ok (is_private mods), st c (t :: k)).
Proof.
  intros Hm Ht. unfold skip_modifiers. enough (∀ b, while (λ isPrivate,
    do* s := get in
    if check TKeyword s && isModifierKeyword d (peek s) then
      do* _ := advance in ret (inl (isPrivate || textAt 0 $"private" s))
    else ret (inr isPrivate)) b (st c (mods ++ t :: k)) = (Ok (b || is_private mods), st c (t :: k))) as H by apply H.
  induction mods as [|m mods IH]; intros b; cbn [app].
  - apply while_stop. step. change (peek _) with t. by rewrite Ht, andb_false_r, orb_false_r.
  - apply modifiers_cons in Hm as [Hmod Hm]. pose proof (modifier_type _ Hmod) as Hty.
    eapply while_next.
    + step. change (peek (st c (m :: mods ++ t :: k))) with m. rewrite Hmod.
      assert (check TKeyword (st c (m :: mods ++ t :: k)) = true) as ->.
      { unfold check, atEnd. change (peek _) with m. by rewrite Hty. }
      cbn [andb]. rewrite (bind_Ok _ _ _ _ _ (advance_st c m _ ltac:(by rewrite Hty))). reflexivity.
    + simpl. lia.
    + cbn [is_private existsb]. rewrite (IH Hm). by rewrite <- orb_assoc.
Qed.

Lemma peekAt_mods mods c l i : i < length l → peekAt (length mods + i) (st c (mods ++ l)) = peekAt i (st c l).
Proof.
  intros Hi. unfold peekAt. cbn [st toks]. rewrite lookup_app_r by lia.
  replace (length mods + i - length mods) with i by lia. by destruct (lookup_lt_is_Some_2 l i Hi) as [t ->].
Qed.

(** ** How a declaration starts *)

(** It is no [inherit] and no class. *)
Lemma declaration_st p0 p mods t l c :
  modifiers d mods = true → isModifierKeyword d t = false → text t ≠ $"inherit" →
  starts_class_decl d (st c (mods ++ t :: l)) = false →
  declaration d p0 p (st c (mods ++ t :: l)) =
  (do* prefix := parseDeclPrefix d $"top-level declaration" in
   do* isFunction := see (checkText $"(") in
   if (isFunction : bool) then
     do* f := parseFunctionRest d p0 prefix in
     ret (p <| functions ::= λ l, l ++ [f] |>)
   else
     do* decls := parseObjectVarDeclRest p0 prefix in
     ret (p <| objectVars ::= λ l, l ++ decls |>)) (st c (mods ++ t :: l)).
Proof.
  intros Hm Ht Hi Hc. unfold declaration. rewrite (lookahead_st _ _ _ _ Hm Ht).
  assert (checkText $"inherit" (st c (mods ++ t :: l)) = false) as ->.
  { destruct mods as [|m mods]; cbn [app]; rewrite begins_st; unfold begins.
    - by rewrite (bool_decide_eq_false_2 (text t = _)), andb_false_r.
    - apply modifiers_cons in Hm as [Hm _]. unfold isModifierKeyword in Hm.
      rewrite (bool_decide_eq_false_2 (text m = _)); [apply andb_false_r|]. intros E. rewrite E in Hm.
      by rewrite !andb_false_r in Hm. }
  assert (textAt (length mods) $"inherit" (st c (mods ++ t :: l)) = false) as ->.
  { unfold textAt. rewrite <- (Nat.add_0_r (length mods)), peekAt_mods by (simpl; lia). by apply bool_decide_eq_false. }
  by rewrite andb_false_r, Hc.
Qed.

Lemma not_modifier_type t n : type_word t = true → isModifierKeyword d (kw t n) = false.
Proof.
  intros Hw. unfold type_word in Hw. prop_tests. unfold isModifierKeyword. cbn [type text kw].
  rewrite (bool_decide_eq_false_2 (t ∈ modifierKeywords)).
  - rewrite (bool_decide_eq_false_2 (t = $"atomic")); [by rewrite andb_false_r|]. intros ->. by apply H0; member.
  - intros Hin. unfold modifierKeywords in Hin. choices Hin; by apply H0; member.
Qed.

(** The class declaration is told by four tokens. *)
Lemma not_class_decl mods a b e l c :
  modifiers d mods = true → isModifierKeyword d a = false →
  (type a = TIdent → text a = $"class" → type b = TIdent → text e ≠ $"{") →
  starts_class_decl d (st c (mods ++ a :: b :: e :: l)) = false.
Proof.
  intros Hm Ha H. unfold starts_class_decl. rewrite (lookahead_st _ _ _ _ Hm Ha). unfold typeAt, textAt.
  pose proof (peekAt_mods mods c (a :: b :: e :: l) 0 ltac:(simpl; lia)) as H0. rewrite Nat.add_0_r in H0.
  rewrite H0, !peekAt_mods by (simpl; lia).
  change (peekAt 0 _) with a. change (peekAt 1 _) with b. change (peekAt 2 _) with e.
  destruct (decide (type a = TIdent)); [|by rewrite (bool_decide_eq_false_2 (type a = _)), andb_false_r].
  destruct (decide (text a = $"class")); [|by rewrite (bool_decide_eq_false_2 (text a = _)), andb_false_r].
  destruct (decide (type b = TIdent)); [|by rewrite (bool_decide_eq_false_2 (type b = _)), andb_false_r].
  rewrite (bool_decide_eq_false_2 (text e = _)) by auto. by rewrite andb_false_r.
Qed.

Lemma top_declarable name : top_name name = true → declarable name = true.
Proof. unfold top_name, declarable. rewrite !negb_true_iff, !bool_decide_eq_false. set_solver. Qed.

Lemma top_text name x : top_name name = true → x ∈ [$"array"; $"::"; $"inherit"; $"{"] → name ≠ x.
Proof. unfold top_name. rewrite negb_true_iff, bool_decide_eq_false. intros H Hx ->. by apply H. Qed.

(** The start of a declaration: a type that may be left out, a name and a
    symbol *)
Lemma top_start mods ty ts name n x m e l c :
  modifiers d mods = true → top_type d ty ts → top_name name = true →
  ∃ a r, ts ++ ident name n :: sym x m :: e :: l = a :: r ∧ isModifierKeyword d a = false ∧ text a ≠ $"inherit" ∧
    starts_class_decl d (st c (mods ++ a :: r)) = false.
Proof.
  intros Hm Ht Hn. pose proof (top_text _ $"{" Hn ltac:(member)). pose proof (top_text _ $"inherit" Hn ltac:(member)).
  destruct Ht as [ty ts [t k b ts' Hw Hb|y k k' b ts' Hd Hb|k]|].
  - cbn [app]. do 2 eexists. split_and!; [done|by apply not_modifier_type| |].
    + cbn. intros ->. done.
    + destruct Hb; cbn [app]; apply not_class_decl; by auto using not_modifier_type.
  - cbn [app]. do 2 eexists. split_and!; [done..|].
    destruct Hb; cbn [app]; by apply not_class_decl.
  - cbn [app]. do 2 eexists. split_and!; [done..|]. by apply not_class_decl.
  - cbn [app]. do 2 eexists. split_and!; [done..|]. by apply not_class_decl.
Qed.

Lemma decl_type_st ty ts name n x m c k :
  top_type d ty ts → top_name name = true →
  decl_type d (st c (ts ++ ident name n :: sym x m :: k)) = (Ok ty, st c (ident name n :: sym x m :: k)).
Proof.
  intros Ht Hn. pose proof (top_declarable _ Hn) as Hd. destruct Ht as [ty ts Ht|].
  - rewrite <- (type_st d ty ts c (ident name n :: sym x m :: k) [] Ht (not_marker_ident _ _ _ Hd)).
    unfold decl_type, parseTypeToken. destruct Ht as [t r b ts Hw Hb|y r r' b ts Hf Hb|r]; cbn [app].
    all: set (s := st c _); destruct (startsClassType d s) eqn:E; [done|].
    2: { unfold startsClassType in E. by rewrite bool_decide_eq_true_2 in E. }
    2: done.
    change (check TIdent s && textAt 0 $"array" s) with false. change (check TKeyword s) with true. cbv iota.
    unfold s. rewrite (bind_Ok _ _ _ _ _ (expect_st TKeyword _ c (kw t r) _ eq_refl)). by steps.
  - cbn [app]. unfold decl_type, startsClassType. set (s := st c _).
    change (typeAt 1 TIdent s) with false. rewrite andb_false_r.
    assert (textAt 0 $"array" s = false) as ->; [|done].
    apply bool_decide_eq_false, (top_text name); [done|member].
Qed.

(** The prefix of a declaration *)
Definition prefix_of (ty : TypeToken) (name : bytes) (mods : list Token) : DeclPrefix :=
  mkPrefix (fst ty) (snd ty) name (is_private mods).

Lemma prefix_st p0 p mods ty ts name n x m l c :
  modifiers d mods = true → top_type d ty ts → top_name name = true → l ≠ [] →
  declaration d p0 p (st c (mods ++ ts ++ ident name n :: sym x m :: l)) =
  (if bool_decide (x = $"(") then
     do* f := parseFunctionRest d p0 (prefix_of ty name mods) in
     ret (p <| functions ::= λ l, l ++ [f] |>)
   else
     do* decls := parseObjectVarDeclRest p0 (prefix_of ty name mods) in
     ret (p <| objectVars ::= λ l, l ++ decls |>)) (st c (sym x m :: l)).
Proof.
  intros Hm Ht Hn Hl. destruct l as [|e l]; [done|]. destruct (top_start mods ty ts name n x m e l c Hm Ht Hn) as (a & r & Har & Ha & Hi & Hc).
  rewrite Har, declaration_st by done. unfold parseDeclPrefix.
  rewrite bind_bind, (bind_Ok _ _ _ _ _ (skip_modifiers_st _ _ _ _ Hm Ha)), <- Har.
  rewrite bind_bind, (bind_Ok _ _ _ _ _ (decl_type_st _ _ _ _ _ _ _ _ Ht Hn)). steps.
  rewrite (see_is _ (bool_decide (x = $"("))); [by case_bool_decide|]. rewrite begins_st. unfold begins. by rewrite andb_true_l.
Qed.

(** ** Declarations *)


Lemma vars_st ty private vars ts p :
  more_vars d ty private vars ts → dp_type p = ty → dp_isPrivate p = private →
  (vars = [] ∧ ts = [] ∨ ∃ n r, ts = sym $"," n :: r) ∧
  ∀ n k acc, length (ts ++ k) < n → stops 0 k = true →
    object_var_loop (P d n) p acc (st outer (ts ++ k)) = (Ok (acc ++ vars), st outer k).
Proof.
  intros H <- <-.
  assert (∀ init ts, opt_init d ([], []) init ts → P_init d outer init ts) as Hinit.
  { intros. apply (grammar_read d). done. }
  induction H as [|n b ts name m init ts2 rest ts3 Hb Hd Hi H IH].
  - split; [by left|]. intros n k acc Hn Hk. rewrite app_nil_r. apply while_stop.
    by rewrite (accept_not $",") by (eapply stops_text; [exact Hk|vm_compute; lia]).
  - split; [right; eauto|]. intros N k acc Hn Hk. flat. destruct IH as [Hs IH].
    assert (stops 1 (ts3 ++ k) = true) as Hst.
    { destruct Hs as [[_ ->]|(q & r & ->)]; [|done]. cbn [app]. eapply stops_le; [exact Hk|lia]. }
    eapply while_next.
    + steps. rewrite (bind_Ok _ _ _ _ _ (marker_st _ _ _ _ Hb (not_marker_ident _ _ _ Hd))). steps.
      rewrite (bind_Ok _ _ _ _ _ (Hinit _ _ Hi N (ts3 ++ k) ltac:(sizes) Hst)). steps.
    + sizes.
    + change (while _ ?a ?s) with (object_var_loop (P d N) p a s). rewrite IH; [|sizes|done]. by rewrite <- app_assoc.
Qed.

(** The rest of a function *)
Lemma function_st pr m ps va ts q k sts ts2 r l n :
  params d ps va ts → stmts d outer sts ts2 →
  length (sym $"(" m :: ts ++ sym $")" q :: sym $"{" k :: ts2 ++ sym $"}" r :: l) ≤ n →
  parseFunctionRest d (P d n) pr (st outer (sym $"(" m :: ts ++ sym $")" q :: sym $"{" k :: ts2 ++ sym $"}" r :: l))
  = (Ok (mkFunctionDecl (dp_type pr) (dp_isArray pr) (dp_name pr) ps va (Some (Block sts true))), st outer l).
Proof.
  intros Hp Hs Hn. unfold parseFunctionRest. steps.
  rewrite (bind_Ok _ _ _ _ _ (params_st d _ _ _ outer q (sym $"{" k :: ts2 ++ sym $"}" r :: l) Hp)). steps.
  assert (P_stmts d outer sts ts2) as H by (apply (grammar_read d); done).
  by rewrite (bind_Ok _ _ _ _ _ (block_st d outer k sts ts2 r n l H ltac:(sizes))).
Qed.

Lemma prototype_st pr m ps va ts q k l n :
  params d ps va ts →
  parseFunctionRest d (P d n) pr (st outer (sym $"(" m :: ts ++ sym $")" q :: sym $";" k :: l))
  = (Ok (mkFunctionDecl (dp_type pr) (dp_isArray pr) (dp_name pr) ps va None), st outer l).
Proof.
  intros Hp. unfold parseFunctionRest. steps.
  rewrite (bind_Ok _ _ _ _ _ (params_st d _ _ _ outer q (sym $";" k :: l) Hp)). by steps.
Qed.

(** What comes after the name of a variable *)
Lemma vars_next init ts ty private vars ts2 q l :
  opt_init d outer init ts → more_vars d ty private vars ts2 → l ≠ [] →
  ∃ x m r, ts ++ ts2 ++ sym $";" q :: l = sym x m :: r ∧ x ≠ $"(" ∧ r ≠ [].
Proof.
  intros Hi Hv Hl.
  destruct Hi as [|c n e ts H]; [destruct Hv as [|n b ts name]|]; cbn [app]; do 3 eexists; (split_and!; [done..|]).
  - done.
  - by destruct ts.
  - by destruct ts, ts2.
Qed.

(** ** Whole declarations *)

Lemma mods_atEnd mods t l c :
  modifiers d mods = true → type t ≠ TEnd → atEnd (st c (mods ++ t :: l)) = false.
Proof.
  intros Hm Ht. apply bool_decide_eq_false. destruct mods as [|a mods]; [done|].
  apply modifiers_cons in Hm as [Ha _]. change (peek _) with a. by rewrite (modifier_type _ Ha).
Qed.

Lemma top_atEnd mods ty ts name n l c :
  modifiers d mods = true → top_type d ty ts → atEnd (st c (mods ++ ts ++ ident name n :: l)) = false.
Proof. intros Hm [ty' ts' []|]; cbn [app]; by apply mods_atEnd. Qed.

Lemma inherit_declaration p0 p mods n s m r ts q c l :
  modifiers d mods = true → path_rest r ts →
  declaration d p0 p (st c (mods ++ kw $"inherit" n :: mkToken TString s m :: ts ++ sym $";" q :: l))
  = (Ok (p <| inherits ::= λ l, l ++ [s ++ r] |>), st c l).
Proof.
  intros Hm Hr. assert (isModifierKeyword d (kw $"inherit" n) = false) as Hi by (destruct d; done).
  unfold declaration. rewrite (lookahead_st _ _ _ _ Hm Hi).
  destruct mods as [|a mods]; [by apply inherit_st|].
  pose proof (advances_st (a :: mods) c (kw $"inherit" n :: mkToken TString s m :: ts ++ sym $";" q :: l) Hm) as Ha.
  set (X := kw $"inherit" n :: _) in *.
  assert (textAt (length (a :: mods)) $"inherit" (st c ((a :: mods) ++ X)) = true) as ->.
  { unfold textAt. rewrite <- (Nat.add_0_r (length _)), peekAt_mods by (unfold X; simpl; lia). done. }
  change (negb (bool_decide (length (a :: mods) = 0)) && true) with true.
  destruct (checkText $"inherit" (st c ((a :: mods) ++ X))) eqn:E.
  - apply modifiers_cons in Hm as [Hm _]. cbn [app] in E. rewrite begins_st in E. unfold begins in E. prop_tests.
    unfold isModifierKeyword in Hm. match goal with H : text a = _ |- _ => rewrite H in Hm end.
    by rewrite !andb_false_r in Hm.
  - rewrite (bind_Ok _ _ _ _ _ Ha). by apply inherit_st.
Qed.

Lemma class_declaration p0 p mods n name m k names ts q c l :
  d = FluffOS → modifiers d mods = true → members d names ts →
  declaration d p0 p (st c (mods ++ ident $"class" n :: ident name m :: sym $"{" k :: ts ++ sym $"}" q :: l))
  = (Ok (p <| classes ::= λ l, l ++ [mkClassDecl name names] |>), st c l).
Proof.
  intros Hd Hm Hn. set (X := ident $"class" n :: _).
  assert (isModifierKeyword d (ident $"class" n) = false) as Hi by done.
  pose proof (lookahead_st _ _ c (tail X) Hm Hi) as Hl. change (ident $"class" n :: tail X) with X in Hl.
  pose proof (peekAt_mods mods c X 0 ltac:(unfold X; simpl; lia)) as H0. rewrite Nat.add_0_r in H0.
  unfold declaration. rewrite Hl.
  assert (checkText $"inherit" (st c (mods ++ X)) = false) as ->.
  { destruct mods as [|a mods]; [done|]. apply modifiers_cons in Hm as [Ha _]. cbn [app]. rewrite begins_st.
    apply andb_false_iff. right. apply bool_decide_eq_false. intros E. unfold isModifierKeyword in Ha.
    rewrite E in Ha. by rewrite !andb_false_r in Ha. }
  assert (textAt (length mods) $"inherit" (st c (mods ++ X)) = false) as -> by (unfold textAt; by rewrite H0).
  rewrite andb_false_r. assert (starts_class_decl d (st c (mods ++ X)) = true) as ->.
  { unfold starts_class_decl, typeAt, textAt. rewrite Hl, H0, !peekAt_mods by (unfold X; simpl; lia).
    by rewrite bool_decide_eq_true_2. }
  rewrite (bind_Ok _ _ _ _ _ (advances_st _ _ _ Hm)). unfold X. steps. unfold parseClassDecl. steps.
  rewrite (bind_Ok _ _ _ _ _ (members_st _ _ Hn [] c q l)). by steps.
Qed.

Lemma vars_declaration p mods ty ts name n init ts2 vars ts3 q l N :
  modifiers d mods = true → top_type d ty ts → top_name name = true → opt_init d outer init ts2 →
  more_vars d (fst ty) (is_private mods) vars ts3 → l ≠ [] →
  length (mods ++ ts ++ ident name n :: ts2 ++ ts3 ++ sym $";" q :: l) ≤ N →
  declaration d (P d N) p (st outer (mods ++ ts ++ ident name n :: ts2 ++ ts3 ++ sym $";" q :: l))
  = (Ok (p <| objectVars ::= λ l, l ++ mkObjectVarDecl (fst ty) (snd ty) name (is_private mods) init :: vars |>),
     st outer l).
Proof.
  intros Hm Ht Hn Hi Hv Hl HN.
  destruct (vars_next _ _ _ _ _ _ q l Hi Hv Hl) as (x & m & r & Heq & Hx & Hr).
  rewrite Heq, (prefix_st _ _ mods ty ts), <- Heq by done. rewrite bool_decide_eq_false_2 by done.
  assert (P_init d outer init ts2) as Hinit by (apply (grammar_read d); done).
  destruct (vars_st _ _ _ _ (prefix_of ty name mods) Hv eq_refl eq_refl) as [Hs Hloop].
  assert (stops 1 (ts3 ++ sym $";" q :: l) = true) as Hst by by destruct Hs as [[_ ->]|(a & r' & ->)].
  unfold parseObjectVarDeclRest.
  rewrite bind_bind, (bind_Ok _ _ _ _ _ (Hinit N (ts3 ++ sym $";" q :: l) ltac:(sizes) Hst)).
  rewrite bind_bind, (bind_Ok _ _ _ _ _ (Hloop N (sym $";" q :: l) _ ltac:(sizes) eq_refl)). by steps.
Qed.

(** One turn of the loop over the declarations *)
Lemma next_declaration p0 p s p1 l res s' :
  declaration d p0 p (st outer s) = (Ok p1, st outer l) →
  length l < length s → atEnd (st outer s) = false →
  program_loop d p0 p1 (st outer l) = (Ok res, s') →
  program_loop d p0 p (st outer s) = (Ok res, s').
Proof.
  intros Hd Hlen He Hl. eapply while_next; [| |exact Hl]; [|done].
  step. rewrite He. by rewrite (bind_Ok _ _ _ _ _ Hd).
Qed.

Lemma file_read p ts p' : file d p ts p' → ∀ n e,
  length (ts ++ [e]) < n → type e = TEnd →
  program_loop d (P d n) p (st outer (ts ++ [e])) = (Ok p', st outer [e]).
Proof.
  induction 1 as [p|p mods n s m r ts q rest p' Hm Hr Hf IH|p mods n name m k names ts q rest p' Hd Hm Hn Hf IH
    |p mods ty ts name n m ps va ts2 q k sts ts3 r rest p' Hm Ht Hn Hp Hs Hf IH
    |p mods ty ts name n m ps va ts2 q k rest p' Hm Ht Hn Hp Hf IH
    |p mods ty ts name n init ts2 vars ts3 q rest p' Hm Ht Hn Hi Hv Hf IH];
    intros N e HN He; revert HN; flat; intros HN.
  - apply while_stop. step. unfold atEnd. change (peek _) with e. by rewrite bool_decide_eq_true_2.
  - eapply next_declaration; [by apply inherit_declaration|sizes|by apply mods_atEnd|apply IH; [sizes|done]].
  - eapply next_declaration; [by apply class_declaration|sizes|by apply mods_atEnd|apply IH; [sizes|done]].
  - eapply next_declaration; [| | |apply IH; [sizes|done]]; [|sizes|by eapply top_atEnd].
    etransitivity; [apply (prefix_st _ _ mods ty ts); [done..|by destruct ts2]|].
    change (bool_decide ($"(" = $"(")) with true. cbv iota.
    by rewrite (bind_Ok _ _ _ _ _ (function_st _ _ _ _ _ _ _ _ _ _ (rest ++ [e]) N Hp Hs ltac:(sizes))).
  - eapply next_declaration; [| | |apply IH; [sizes|done]]; [|sizes|by eapply top_atEnd].
    etransitivity; [apply (prefix_st _ _ mods ty ts); [done..|by destruct ts2]|].
    change (bool_decide ($"(" = $"(")) with true. cbv iota.
    by rewrite (bind_Ok _ _ _ _ _ (prototype_st _ _ _ _ _ _ _ (rest ++ [e]) N Hp)).
  - eapply next_declaration; [| | |apply IH; [sizes|done]]; [|sizes|by eapply top_atEnd].
    apply vars_declaration; try done; [by destruct rest|sizes].
Qed.
End Spec.

(** C21: The parser implements the grammar: a list of tokens that the grammar
    derives from declarations, closed by the end token, is parsed to the
    program that the derivation gives.  Operators bind and associate by the
    levels of the grammar, an assignment takes everything to its right, an
    [else] belongs to the nearest [if], and the numbers of lambda parameters
    and bound values are those of the innermost lambda. *)
Theorem parse_grammar d ts p e :
  file d (mkProgram [] [] [] []) ts p → type e = TEnd → parseProgram d (ts ++ [e]) = Ok p.
Proof.
  intros H He. pose proof (file_read d _ _ _ H (S (length (ts ++ [e]))) e ltac:(lia) He) as Hr.
  change (fst (program_loop d (P d (S (length (ts ++ [e])))) (mkProgram [] [] [] []) (st outer (ts ++ [e]))) = Ok p).
  by rewrite Hr.
Qed.

(** An expression of the last level is one of every level. *)
Lemma climb d l c e ts c' : expr d 15 c e ts c' → 1 ≤ l ≤ 15 → expr d l c e ts c'.
Proof.
  intros H Hl. remember (15 - l) as k eqn:Hk. induction k as [|k IH] in l, Hl, Hk |- *.
  - by replace l with 15 by lia.
  - apply x_up; [lia|]. apply IH; lia.
Qed.

(** [inherit "/std"; int f(int n) { if (n) return n - 1 - 2; else return n = 3; }] *)
Lemma parse_grammar_witness :
  parseProgram DGD
    ([kw $"inherit" 1; mkToken TString $"/std" 1; sym $";" 1;
      kw $"int" 2; ident $"f" 2; sym $"(" 2; kw $"int" 2; ident $"n" 2; sym $")" 2; sym $"{" 2;
      kw $"if" 2; sym $"(" 2; ident $"n" 2; sym $")" 2;
      kw $"return" 2; ident $"n" 2; sym $"-" 2; mkToken TNumber $"1" 2; sym $"-" 2; mkToken TNumber $"2" 2; sym $";" 2;
      kw $"else" 2; kw $"return" 2; ident $"n" 2; sym $"=" 2; mkToken TNumber $"3" 2; sym $";" 2;
      sym $"}" 2] ++ [mkToken TEnd [] 2]) =
  Ok (mkProgram
        [mkFunctionDecl $"int" false $"f" [mkParam $"int" $"n" false] false
           (Some (Block [IfStmt (VarRefExpr $"n")
              (Block [ReturnStmt (Some (BinaryExpr Sub (BinaryExpr Sub (VarRefExpr $"n") (IntLiteral 1)) (IntLiteral 2)))] false)
              (Some (Block [ReturnStmt (Some (AssignExpr $"n" (IntLiteral 3) false Add))] false))] true))]
        [] [$"/std"] []).
Proof.
  apply parse_grammar; [|reflexivity].
  pose proof (λ l c, climb DGD l _ _ _ _ (x_var DGD c $"n" 2 eq_refl)) as Hn.
  pose proof (λ l c t n H, climb DGD l _ _ _ _ (x_number DGD c t 2 n H)) as Hnum.
  refine (file_inherit DGD _ [] 1 $"/std" 1 [] [] 1 _ _ eq_refl p_end _).
  refine (file_function DGD _ [] ($"int", false) [kw $"int" 2] $"f" 2 2 _ _ [kw $"int" 2; ident $"n" 2] 2 2 _
    [kw $"if" 2; sym $"(" 2; ident $"n" 2; sym $")" 2;
      kw $"return" 2; ident $"n" 2; sym $"-" 2; mkToken TNumber $"1" 2; sym $"-" 2; mkToken TNumber $"2" 2; sym $";" 2;
      kw $"else" 2; kw $"return" 2; ident $"n" 2; sym $"=" 2; mkToken TNumber $"3" 2; sym $";" 2] 2 [] _
    eq_refl (tt_type _ _ _ (type_keyword _ $"int" 2 false [] eq_refl marker_none)) eq_refl _ _ (file_end _ _)).
  - refine (params_some _ [mkParam $"int" $"n" false] [kw $"int" 2; ident $"n" 2] false 0 (param_one _ _ _ _)).
    exact (param_named _ ($"int", false) [kw $"int" 2] $"n" 2 (type_keyword _ $"int" 2 false [] eq_refl marker_none) eq_refl).
  - refine (ss_more DGD true _ _ [kw $"if" 2; sym $"(" 2; ident $"n" 2; sym $")" 2;
      kw $"return" 2; ident $"n" 2; sym $"-" 2; mkToken TNumber $"1" 2; sym $"-" 2; mkToken TNumber $"2" 2; sym $";" 2;
      kw $"else" 2; kw $"return" 2; ident $"n" 2; sym $"=" 2; mkToken TNumber $"3" 2; sym $";" 2] [] [] _ _ (ss_none _ _));
      [|done].
    refine (s_if_else DGD true _ 2 2 _ [ident $"n" 2] 2 _
      [kw $"return" 2; ident $"n" 2; sym $"-" 2; mkToken TNumber $"1" 2; sym $"-" 2; mkToken TNumber $"2" 2; sym $";" 2]
      2 _ [kw $"return" 2; ident $"n" 2; sym $"=" 2; mkToken TNumber $"3" 2; sym $";" 2] _ _ _).
    + apply c_one, f_closed, Hn. lia.
    + apply b_stmt; [|reflexivity].
      refine (s_return DGD true _ 2 _ [ident $"n" 2; sym $"-" 2; mkToken TNumber $"1" 2; sym $"-" 2; mkToken TNumber $"2" 2] 2
        (oc_some _ _ _ _ (c_one _ _ _ _ _ (f_closed _ _ _ _ _ _)))).
      do 9 (apply x_up; [lia|]).
      refine (x_binary DGD 10 _ _ [ident $"n" 2; sym $"-" 2; mkToken TNumber $"1" 2] _ $"-" Sub 2 _ [mkToken TNumber $"2" 2] _ _ _ _);
        [by do 2 constructor| |apply Hnum; [reflexivity|lia]].
      refine (x_binary DGD 10 _ _ [ident $"n" 2] _ $"-" Sub 2 _ [mkToken TNumber $"1" 2] _ _ _ _);
        [by do 2 constructor|apply Hn; lia|apply Hnum; [reflexivity|lia]].
    + apply b_stmt; [|reflexivity].
      refine (s_return DGD true _ 2 _ [ident $"n" 2; sym $"=" 2; mkToken TNumber $"3" 2] 2
        (oc_some _ _ _ _ (c_one _ _ _ _ _ (f_open _ 12 _ _ _ _ _ _)))); [lia|].
      refine (o_assign DGD _ _ (LVar $"n") [ident $"n" 2] _ $"=" (false, Add) 2 _ [mkToken TNumber $"3" 2] _ _ _ _
        (f_closed _ _ _ _ _ _)); [by constructor|apply Hn; lia|reflexivity|apply Hnum; [reflexivity|lia]].
Defined.

(** ** Where the parser departs from the language *)

(** The token after a parenthesis is tested by its text alone, so a string
    literal is taken for a bracket: in [x = ("[" + "a");] the parenthesis is
    read as the start of a mapping literal. *)
Example bracket_string_misread :
  parseProgram FluffOS
    [kw $"string" 1; ident $"x" 1; sym $"=" 1; sym $"(" 1; mkToken TString $"[" 1; sym $"+" 1;
     mkToken TString $"a" 1; sym $")" 1; sym $";" 1; mkToken TEnd [] 1]
  = Throw (LpcRuntimeError ($"parse error: expected expression at line 1 (got " ++ quoted $"+" ++ $")")).
Proof. vm_compute. reflexivity. Qed.

(** [a\[<1\] = 2] is parsed as [a\[1\] = 2]. *)
Example from_end_forgotten :
  fst (parseStatement FluffOS (p_expr (P FluffOS 20)) (p_unary (P FluffOS 20)) (p_statement (P FluffOS 20))
    (st outer [ident $"a" 1; sym $"[" 1; sym $"<" 1; mkToken TNumber $"1" 1; sym $"]" 1; sym $"=" 1;
      mkToken TNumber $"2" 1; sym $";" 1; mkToken TEnd [] 1]))
  = Ok (IndexAssignStmt (VarRefExpr $"a") (IntLiteral 1) (IntLiteral 2) false Add None).
Proof. vm_compute. reflexivity. Qed.
