(* ===== verification/Bytecode.v ===== *)
(** * Bytecode: [include/kjdmud/vm/Bytecode.hpp]

    The instructions of the virtual machine and the programs made of them.
    An operand is an [int32_t], an entry point a [uint32_t], the counts of a
    function are [uint8_t]: the casts to them are written where the code
    generator makes them. *)

From S2P Require Import Prelude Doubles.

Inductive OpCode :=
  | PushConst | PushInt | PushFloat | PushNil | PushSymbol
  | PushLocal | StoreLocal | PushObjectVar | StoreObjectVar
  | OpAdd | OpSub | OpMul | OpDiv | OpMod
  | OpBitAnd | OpBitOr | OpBitXor | OpShl | OpShr | OpBitNot
  | OpEq | OpNeq | OpLt | OpLte | OpGt | OpGte
  | OpNot
  | Jump | JumpIfFalse
  | Call | CallEfun | CallParent | CallParentQualifierSlot
  | PushClosure | PushEfunClosure | CallApply
  | ExpandVarargs | MakeArray | MakeMapping
  | Index | IndexAssign | RangeIndex
  | Sscanf | SscanfVarSlot
  | ForeachKeys
  | PushCatchFrame | PopCatchFrame
  | TimeExpressionStart | TimeExpressionEnd
  | Return | Pop | Dup | Halt | Suspend.

#[export] Instance OpCode_eq_dec : EqDecision OpCode.
Proof. solve_decision. Defined.

Record Instruction := mkInstr { op : OpCode; operand : Z; argCount : Z }.

#[export] Instance eta_Instruction : Eta Instruction := λ i,
  mkInstr (op i) (operand i) (argCount i).

Record FunctionEntry := mkEntry {
  entry_name : bytes;
  entryPoint : Z;
  numArgs : Z;
  numLocals : Z;
  isAsync : bool;
  isVarargs : bool;
}.

(** A program as [CodeGen] leaves it: [inheritedPrograms] and
    [ancestorBaseOffsets] are filled in by the object manager. *)
Record CompiledProgram := mkCompiled {
  prog_code : list Instruction;
  prog_functions : list FunctionEntry;
  stringPool : list bytes;
  floatPool : list double;
  objectVarNames : list bytes;
  prog_inherits : list bytes;
}.

#[export] Instance eta_CompiledProgram : Eta CompiledProgram := λ p,
  mkCompiled (prog_code p) (prog_functions p) (stringPool p) (floatPool p) (objectVarNames p) (prog_inherits p).

Definition empty_program : CompiledProgram := mkCompiled [] [] [] [] [] [].

(** The casts to [uint8_t] and [uint32_t]. *)
Definition to_u8 (z : Z) : Z := z mod 2 ^ 8.
Definition to_u32 (z : Z) : Z := z mod 2 ^ 32.
