(* ===== verification/CodeGen.v ===== *)
(** * The code generator: [src/compiler/CodeGen.cpp], [include/kjdmud/compiler/CodeGen.hpp]

    One member function of the class is one definition, over a state that holds
    its fields and the program under construction.  The functions that call
    [emitExpr] or [emitStatement] take them as arguments and are closed at the
    end by a recursion on the tree.  Positions in the code are numbers, cast to
    [int32_t] when they become operands. *)

From S2P Require Import Prelude Doubles Ast Bytecode.
From Stdlib Require Import SpecFloat.

(** ** State *)

Inductive VarKind := Local | ObjectVar.
Record ResolvedVar := mkResolved { kind : VarKind; slot : Z }.

Record LoopContext := mkLoop {
  breakJumps : list nat;
  continueJumps : list nat;
  isSwitch : bool;
}.

#[export] Instance eta_LoopContext : Eta LoopContext := λ l,
  mkLoop (breakJumps l) (continueJumps l) (isSwitch l).

(** [PendingLambda] and [PendingAnonFunc]: the fields of the expression they
    point at. *)
Record PendingLambda := mkPendingLambda {
  lambda_name : bytes;
  lambda_body : list ast;
  lambda_paramCount : Z;
  lambda_boundValues : nat;
}.

Record PendingAnonFunc := mkPendingAnonFunc {
  anon_name : bytes;
  anon_params : list Param;
  anon_isVarargs : bool;
  anon_body : ast;
}.

(** Stacks have their top at the head, the queues their oldest entry. *)
Record cg := mkCG {
  out : CompiledProgram;
  locals_ : gmap bytes Z;
  nextLocalSlot_ : Z;
  localScopeStack_ : list (list bytes);
  loopStack_ : list LoopContext;
  foreachCounter_ : Z;
  switchCounter_ : Z;
  indexAssignCounter_ : Z;
  objectVars_ : gmap bytes Z;
  classDefs_ : gmap bytes (list bytes);
  localClassTypes_ : gmap bytes bytes;
  objectVarClassTypes_ : gmap bytes bytes;
  pendingLambdas_ : list PendingLambda;
  nextLambdaId_ : Z;
  pendingAnonFuncs_ : list PendingAnonFunc;
  nextAnonFuncId_ : Z;
  currentLambdaBoundValueCount_ : nat;
}.

#[export] Instance eta_cg : Eta cg := λ s,
  mkCG (out s) (locals_ s) (nextLocalSlot_ s) (localScopeStack_ s) (loopStack_ s)
    (foreachCounter_ s) (switchCounter_ s) (indexAssignCounter_ s) (objectVars_ s) (classDefs_ s)
    (localClassTypes_ s) (objectVarClassTypes_ s) (pendingLambdas_ s) (nextLambdaId_ s)
    (pendingAnonFuncs_ s) (nextAnonFuncId_ s) (currentLambdaBoundValueCount_ s).

Definition here (s : cg) : nat := length (prog_code (out s)).

Definition codegen_error {A} (msg : bytes) : M cg A := throw (LpcRuntimeError ($"codegen: " ++ msg)).

(** A pure function of the state. *)
Definition gets {A} (f : cg → A) : M cg A := λ s, (Ok (f s), s).

Definition quoted (t : bytes) : bytes := [QUOTE] ++ t ++ [QUOTE].

(** ** Pools *)

Fixpoint position {A} (p : A → bool) (l : list A) : option nat :=
  match l with
  | [] => None
  | x :: l => if p x then Some 0%nat else S <$> position p l
  end.

(** The index of the first element equal to [x], which is appended when there
    is none. *)
Definition intern {A} (same : A → A → bool) (x : A) (pool : list A) : Z * list A :=
  match position (same x) pool with
  | Some i => (to_i32 (Z.of_nat i), pool)
  | None => (to_i32 (size pool), pool ++ [x])
  end.

Definition internString (x : bytes) : M cg Z := λ s,
  let '(i, pool) := intern (λ a b, bool_decide (a = b)) x (stringPool (out s)) in
  (Ok i, s <| out := (out s) <| stringPool := pool |> |>).

Definition internFloat (d : double) : M cg Z := λ s,
  let '(i, pool) := intern (λ a b, deq b a) d (floatPool (out s)) in
  (Ok i, s <| out := (out s) <| floatPool := pool |> |>).

(** ** Instructions *)

Definition emit (o : OpCode) (operand argCount : Z) : M cg unit :=
  modify (λ s, s <| out := (out s) <| prog_code ::= (.++ [mkInstr o operand argCount]) |> |>).

Definition emitJumpPlaceholder (o : OpCode) : M cg nat :=
  do* idx := gets here in do* _ := emit o (-1) 0 in ret idx.

Definition patchJumpTo (jumpInstrIndex target : nat) : M cg unit := λ s,
  match prog_code (out s) !! jumpInstrIndex with
  | None => (Undefined, s)
  | Some i =>
      let i' := i <| operand := to_i32 (Z.of_nat target) |> in
      (Ok tt, s <| out := (out s) <| prog_code := <[jumpInstrIndex := i']> (prog_code (out s)) |> |>)
  end.

Definition patchJumpToHere (jumpInstrIndex : nat) : M cg unit :=
  do* target := gets here in patchJumpTo jumpInstrIndex target.

(** A loop over a container. *)
Definition for_each {A} (body : A → M cg unit) : list A → M cg unit :=
  fix go l := match l with [] => ret tt | x :: l => do* _ := body x in go l end.

Definition when (b : bool) (m : M cg unit) : M cg unit := if b then m else ret tt.

(** [if (node) emitExpr( *node)]. *)
Definition if_some {A} (f : A → M cg unit) (o : option A) : M cg unit :=
  match o with Some x => f x | None => ret tt end.
Definition is_some {A} (o : option A) : bool := match o with Some _ => true | None => false end.

(** Addition of [int]s. *)
Definition add_int (a b : Z) : result Z := if in_i32 (a + b) then Ok (a + b) else Undefined.

(** ** Variables *)

Definition resolveVariable (name : bytes) : M cg ResolvedVar := λ s,
  match locals_ s !! name with
  | Some i => (Ok (mkResolved Local i), s)
  | None =>
      match objectVars_ s !! name with
      | Some i => (Ok (mkResolved ObjectVar i), s)
      | None => codegen_error ($"undeclared variable " ++ quoted name) s
      end
  end.

Definition pushOp (v : ResolvedVar) : OpCode :=
  match kind v with Local => PushLocal | ObjectVar => PushObjectVar end.
Definition storeOp (v : ResolvedVar) : OpCode :=
  match kind v with Local => StoreLocal | ObjectVar => StoreObjectVar end.

Definition undefined_class {A} (className : bytes) : M cg A :=
  codegen_error ($"undefined class " ++ quoted className).
Definition no_member {A} (className memberName : bytes) : M cg A :=
  codegen_error ($"class " ++ quoted className ++ $" has no member " ++ quoted memberName).

Definition resolveClassMemberIndex (className memberName : bytes) : M cg Z := λ s,
  match classDefs_ s !! className with
  | None => undefined_class className s
  | Some members =>
      match position (λ m, bool_decide (m = memberName)) members with
      | Some i => (Ok (to_i32 (Z.of_nat i)), s)
      | None => no_member className memberName s
      end
  end.

Fixpoint staticClassTypeOf (expr : ast) (s : cg) : bytes :=
  match expr with
  | TypeCastExpr className _ => className
  | IndexExpr target index rangeEnd _ _ _ =>
      match rangeEnd, index with
      | Some _, _ => []
      | None, MemberNameMarker _ => []
      | None, _ => staticClassTypeOf target s
      end
  | VarRefExpr name =>
      match localClassTypes_ s !! name with
      | Some c => c
      | None => default [] (objectVarClassTypes_ s !! name)
      end
  | _ => []
  end.

(** [typeText.rfind("class:", 0) == 0], and the rest. *)
Definition class_of_type (typeText : bytes) : option bytes := strip_prefix $"class:" typeText.

(** [nextLocalSlot_++]. *)
Definition next_slot : M cg Z := λ s,
  match add_int (nextLocalSlot_ s) 1 with
  | Ok next => (Ok (nextLocalSlot_ s), s <| nextLocalSlot_ := next |>)
  | _ => (Undefined, s)
  end.

Definition bind_local (name typeText : bytes) (slot : Z) (s : cg) : cg :=
  let s := s <| locals_ ::= <[name := slot]> |> in
  let s :=
    match class_of_type typeText with
    | Some c => s <| localClassTypes_ ::= <[name := c]> |>
    | None => s
    end in
  match localScopeStack_ s with
  | [] => s
  | scope :: scopes => s <| localScopeStack_ := (scope ++ [name]) :: scopes |>
  end.

Definition declareLocal (name typeText : bytes) : M cg Z :=
  if bool_decide (name = []) then next_slot
  else
    do* locals := gets locals_ in
    if is_some (locals !! name) then
      codegen_error ($"variable " ++ quoted name ++ $" already declared in this scope")
    else
      do* slot := next_slot in
      do* _ := modify (bind_local name typeText slot) in
      ret slot.

Definition openScope : M cg unit := modify (λ s, s <| localScopeStack_ ::= cons [] |>).

Definition closeScope : M cg unit := λ s,
  match localScopeStack_ s with
  | [] => (Undefined, s)
  | names :: scopes =>
      (Ok tt, s <| locals_ ::= λ m, foldl (λ m x, delete x m) m names |>
                <| localClassTypes_ ::= λ m, foldl (λ m x, delete x m) m names |>
                <| localScopeStack_ := scopes |>)
  end.

(** ** Loops *)

Definition openLoop (isSwitch : bool) : M cg unit :=
  modify (λ s, s <| loopStack_ ::= cons (mkLoop [] [] isSwitch) |>).

Definition closeLoop : M cg LoopContext := λ s,
  match loopStack_ s with
  | [] => (Undefined, s)
  | l :: ls => (Ok l, s <| loopStack_ := ls |>)
  end.

Definition emitBreakStmt : M cg unit := λ s,
  match loopStack_ s with
  | [] => codegen_error $"break statement outside of a loop" s
  | l :: ls =>
      (do* idx := emitJumpPlaceholder Jump in
       modify (λ s, s <| loopStack_ := (l <| breakJumps ::= (.++ [idx]) |>) :: ls |>)) s
  end.

(** Record a continue in the innermost frame that is not a switch. *)
Fixpoint add_continue (idx : nat) (ls : list LoopContext) : option (list LoopContext) :=
  match ls with
  | [] => None
  | l :: ls =>
      if isSwitch l then cons l <$> add_continue idx ls
      else Some (l <| continueJumps ::= (.++ [idx]) |> :: ls)
  end.

Definition emitContinueStmt : M cg unit := λ s,
  match add_continue (here s) (loopStack_ s) with
  | None => codegen_error $"continue statement outside of a loop" s
  | Some ls => (do* _ := emitJumpPlaceholder Jump in modify (λ s, s <| loopStack_ := ls |>)) s
  end.

Definition patchAll (target : nat) (idxs : list nat) : M cg unit :=
  for_each (λ idx, patchJumpTo idx target) idxs.
Definition patchAllHere (idxs : list nat) : M cg unit := for_each patchJumpToHere idxs.

(** ** Operators *)

Definition binary_opcode (o : BinOp) : option OpCode :=
  match o with
  | Eq => Some OpEq | Neq => Some OpNeq | Lt => Some OpLt | Lte => Some OpLte
  | Gt => Some OpGt | Gte => Some OpGte | Add => Some OpAdd | Sub => Some OpSub
  | Mul => Some OpMul | Div => Some OpDiv | Mod => Some OpMod | BitAnd => Some OpBitAnd
  | BitOr => Some OpBitOr | BitXor => Some OpBitXor | Shl => Some OpShl | Shr => Some OpShr
  | Or | And => None
  end.

(** The [combineOp] of a compound assignment. *)
Definition compound_opcode (o : BinOp) : option OpCode :=
  match o with
  | Add => Some OpAdd | Sub => Some OpSub | Mul => Some OpMul | Div => Some OpDiv
  | Mod => Some OpMod | BitOr => Some OpBitOr | BitAnd => Some OpBitAnd
  | BitXor => Some OpBitXor | Shl => Some OpShl | Shr => Some OpShr
  | _ => None
  end.

Definition emit_combine (o : BinOp) : M cg unit :=
  match compound_opcode o with
  | Some op => emit op 0 0
  | None => codegen_error $"unsupported compound assignment operator"
  end.

(** A name the compiler makes: [prefix + std::to_string(n)]. *)
Definition hidden (prefix : bytes) (n : Z) : bytes := prefix ++ to_string n.

(** [counter++]. *)
Definition next_indexAssign : M cg Z := λ s,
  (Ok (indexAssignCounter_ s), s <| indexAssignCounter_ ::= Z.add 1 |>).

Definition hidden_local (prefix : bytes) : M cg Z :=
  do* n := next_indexAssign in declareLocal (hidden prefix n) [].

(** ** Expressions and statements *)

Section Emit.
Context (emitExpr emitStatement : ast → M cg unit).

Definition emitBlock (block : ast) : M cg unit :=
  match block with
  | Block statements _ =>
      do* _ := openScope in
      do* _ := for_each emitStatement statements in
      closeScope
  | _ => lift Undefined
  end.

Definition emitIndexValue (targetExpr indexNode : ast) : M cg unit :=
  match indexNode with
  | MemberNameMarker name =>
      do* className := gets (staticClassTypeOf targetExpr) in
      if bool_decide (className = []) then
        codegen_error ($"cannot resolve " ++ quoted ($"->" ++ name) ++
          $": the target's static class type is not known here (only a variable declared with a real " ++
          quoted $"class <Name>" ++ $" type resolves)")
      else
        do* memberIndex := resolveClassMemberIndex className name in
        emit PushInt memberIndex 0
  | _ => emitExpr indexNode
  end.

(** A target, an index and the column of a mapping. *)
Definition emit_lvalue (target index : ast) (mapColumn : option ast) : M cg unit :=
  do* _ := emitExpr target in
  do* _ := emitIndexValue target index in
  if_some emitExpr mapColumn.

Definition column_flag (mapColumn : option ast) : Z := if is_some mapColumn then 4 else 0.

Definition emitBinaryExpr (o : BinOp) (left right : ast) : M cg unit :=
  do* _ := emitExpr left in
  do* _ := emitExpr right in
  match binary_opcode o with
  | Some op => emit op 0 0
  | None => codegen_error $"unknown BinOp"
  end.

Definition emitLogicalExpr (o : BinOp) (left right : ast) : M cg unit :=
  do* _ := emitExpr left in
  do* _ := emit Dup 0 0 in
  do* jumpIfFalseIdx := emitJumpPlaceholder JumpIfFalse in
  if bool_decide (o = Or) then
    do* jumpToEndIdx := emitJumpPlaceholder Jump in
    do* _ := patchJumpToHere jumpIfFalseIdx in
    do* _ := emit Pop 0 0 in
    do* _ := emitExpr right in
    patchJumpToHere jumpToEndIdx
  else
    do* _ := emit Pop 0 0 in
    do* _ := emitExpr right in
    patchJumpToHere jumpIfFalseIdx.

Definition emitTernaryExpr (condition thenBranch elseBranch : ast) : M cg unit :=
  do* _ := emitExpr condition in
  do* jumpIfFalseIdx := emitJumpPlaceholder JumpIfFalse in
  do* _ := emitExpr thenBranch in
  do* jumpToEndIdx := emitJumpPlaceholder Jump in
  do* _ := patchJumpToHere jumpIfFalseIdx in
  do* _ := emitExpr elseBranch in
  patchJumpToHere jumpToEndIdx.

Definition emitCatchExpr (guarded : ast) : M cg unit :=
  do* catchFrameIdx := emitJumpPlaceholder PushCatchFrame in
  do* _ := emitExpr guarded in
  do* _ := emit Pop 0 0 in
  do* _ := emit PopCatchFrame 0 0 in
  patchJumpToHere catchFrameIdx.

Definition emitTimeExpressionExpr (body : ast) : M cg unit :=
  do* _ := emit TimeExpressionStart 0 0 in
  do* _ := emitBlock body in
  emit TimeExpressionEnd 0 0.

Definition emitAssignExpr (name : bytes) (value : ast) (isCompound : bool) (compoundOp : BinOp) : M cg unit :=
  do* var := resolveVariable name in
  do* _ :=
    (if isCompound then
       do* _ := emit (pushOp var) (slot var) 0 in
       do* _ := emitExpr value in
       emit_combine compoundOp
     else emitExpr value) in
  do* _ := emit Dup 0 0 in
  emit (storeOp var) (slot var) 0.

Definition delta_opcode (o : IncDecOp) : OpCode := match o with Inc => OpAdd | Dec => OpSub end.

(** [++] and [--] of an indexed target. *)
Definition emitIncDecIndexed (o : IncDecOp) (prefix : bool) (target key : ast) (mapColumn : option ast)
    : M cg unit :=
  do* oldSlot := hidden_local $"$idxassign#" in
  do* newSlot := hidden_local $"$idxassign#" in
  do* _ := emit_lvalue target key mapColumn in
  do* _ := emit Index 0 (column_flag mapColumn) in
  do* _ := emit StoreLocal oldSlot 0 in
  do* _ := emit PushLocal oldSlot 0 in
  do* _ := emit PushInt 1 0 in
  do* _ := emit (delta_opcode o) 0 0 in
  do* _ := emit StoreLocal newSlot 0 in
  do* _ := emit_lvalue target key mapColumn in
  do* _ := emit PushLocal newSlot 0 in
  do* _ := emit IndexAssign 0 (column_flag mapColumn) in
  emit PushLocal (if prefix then newSlot else oldSlot) 0.

Definition emitIncDecExpr (o : IncDecOp) (prefix : bool) (name : bytes)
    (indexTarget indexKey mapColumn : option ast) : M cg unit :=
  match indexTarget, indexKey with
  | Some target, Some key => emitIncDecIndexed o prefix target key mapColumn
  | Some _, None => lift Undefined
  | None, _ =>
      do* var := resolveVariable name in
      do* _ := emit (pushOp var) (slot var) 0 in
      if prefix then
        do* _ := emit PushInt 1 0 in
        do* _ := emit (delta_opcode o) 0 0 in
        do* _ := emit Dup 0 0 in
        emit (storeOp var) (slot var) 0
      else
        do* _ := emit Dup 0 0 in
        do* _ := emit PushInt 1 0 in
        do* _ := emit (delta_opcode o) 0 0 in
        emit (storeOp var) (slot var) 0
  end.

Definition emitUnaryExpr (o : UnaryOp) (operand : ast) : M cg unit :=
  match o with
  | Not => do* _ := emitExpr operand in emit OpNot 0 0
  | BitNot => do* _ := emitExpr operand in emit OpBitNot 0 0
  | Neg =>
      do* _ := emit PushInt 0 0 in
      do* _ := emitExpr operand in
      emit OpSub 0 0
  end.

(** [n] is the number of elements from here to the end. *)
Fixpoint spread_expansions (isSpread : list bool) : M cg unit :=
  match isSpread with
  | [] => ret tt
  | b :: rest =>
      do* _ := when b (emit ExpandVarargs (to_i32 (size rest)) 0) in
      spread_expansions rest
  end.
Definition emitSpreadExpansions : list bool → M cg unit := spread_expansions.

Definition emitCallExpr (callee : bytes) (args : list ast) (argIsSpread : list bool)
    (forceEfun parentCall : bool) (parentQualifier : bytes) : M cg unit :=
  do* _ := for_each emitExpr args in
  do* _ := emitSpreadExpansions argIsSpread in
  do* calleeIdx := internString callee in
  if parentCall then
    do* qualifierIdx :=
      (if bool_decide (parentQualifier = []) then ret (-1) else internString parentQualifier) in
    do* _ := emit CallParent calleeIdx (to_i32 (size args)) in
    emit CallParentQualifierSlot qualifierIdx 0
  else emit (if forceEfun then CallEfun else Call) calleeIdx (to_i32 (size args)).

Definition emitCallOtherExpr (target function : ast) (args : list ast) (argIsSpread : list bool) : M cg unit :=
  do* _ := emitExpr target in
  do* _ := emitExpr function in
  do* _ := for_each emitExpr args in
  do* _ := emitSpreadExpansions argIsSpread in
  do* calleeIdx := internString $"call_other" in
  emit CallEfun calleeIdx (to_i32 (2 + size args)).

(** The slots of the outputs; the result is the first half of
    [pendingIndexedWrites]. *)
Fixpoint sscanf_slots (varNames : list bytes) (indexedTargets : list (option ast)) : M cg (list Z) :=
  match varNames, indexedTargets with
  | [], _ => ret []
  | _ :: _, [] => lift Undefined
  | _ :: names, Some _ :: targets =>
      do* s := hidden_local $"$sscanf_out#" in
      do* _ := emit SscanfVarSlot s 0 in
      do* pending := sscanf_slots names targets in
      ret (s :: pending)
  | name :: names, None :: targets =>
      do* var := resolveVariable name in
      do* _ := emit SscanfVarSlot (slot var) (match kind var with Local => 0 | ObjectVar => 1 end) in
      sscanf_slots names targets
  end.

Definition sscanf_writes : list (option ast) → list Z → M cg unit :=
  fix go targets pending :=
    match targets, pending with
    | [], _ | _, [] => ret tt
    | None :: targets, _ => go targets pending
    | Some (IndexExpr target index _ _ _ mapColumn) :: targets, tempSlot :: pending =>
        do* _ := emitExpr target in
        do* _ := emitExpr index in
        do* _ := if_some emitExpr mapColumn in
        do* _ := emit PushLocal tempSlot 0 in
        do* _ := emit IndexAssign 0 (column_flag mapColumn) in
        go targets pending
    | Some _ :: _, _ => lift Undefined
    end.

Definition emitSscanfExpr (target format : ast) (varNames : list bytes) (indexedTargets : list (option ast))
    : M cg unit :=
  do* _ := emitExpr target in
  do* _ := emitExpr format in
  do* _ := emit Sscanf (to_i32 (size varNames)) 0 in
  do* pending := sscanf_slots varNames indexedTargets in
  sscanf_writes indexedTargets pending.

(** The first initialiser of a member, or zero. *)
Definition emit_member (fieldInits : list (bytes * ast)) (memberName : bytes) : M cg unit :=
  (fix go l := match l with
               | [] => emit PushInt 0 0
               | (fname, fexpr) :: l => if bool_decide (fname = memberName) then emitExpr fexpr else go l
               end) fieldInits.

Definition emitNewClassExpr (className : bytes) (fieldInits : list (bytes * ast)) : M cg unit :=
  do* defs := gets classDefs_ in
  match defs !! className with
  | None => undefined_class className
  | Some members =>
      do* _ := for_each (emit_member fieldInits) members in
      do* _ :=
        for_each (λ '(fname, _), if bool_decide (fname ∈ members) then ret tt else no_member className fname)
          fieldInits in
      emit MakeArray 1 (to_i32 (size members))
  end.

Definition mapping_width (entries : list (ast * list ast)) : Z :=
  match entries with
  | [] => 1
  | (_, vals) :: _ => let w := to_i32 (size vals) in if w <? 1 then 1 else w
  end.

Definition emitMappingLiteral (entries : list (ast * list ast)) : M cg unit :=
  do* _ := for_each (λ '(k, vals), do* _ := emitExpr k in for_each emitExpr vals) entries in
  emit MakeMapping (mapping_width entries) (to_i32 (size entries)).

Definition emitIndexExpr (target index : ast) (rangeEnd : option ast) (indexFromEnd rangeEndFromEnd : bool)
    (mapColumn : option ast) : M cg unit :=
  do* _ := emitExpr target in
  do* _ := emitIndexValue target index in
  let flags := if indexFromEnd then 1 else 0 in
  match rangeEnd with
  | Some e =>
      do* _ := emitExpr e in
      emit RangeIndex 0 (Z.lor flags (if rangeEndFromEnd then 2 else 0))
  | None =>
      do* _ := if_some emitExpr mapColumn in
      emit Index 0 (Z.lor flags (column_flag mapColumn))
  end.

Definition emitClosureLiteral (functionName : bytes) (boundArgs : list ast) (forceEfun : bool) : M cg unit :=
  do* _ := for_each emitExpr boundArgs in
  do* nameIdx := internString functionName in
  emit (if forceEfun then PushEfunClosure else PushClosure) nameIdx (to_i32 (size boundArgs)).

Definition emitLambdaParam (index : Z) (isBoundValue : bool) : M cg unit :=
  do* count := gets currentLambdaBoundValueCount_ in
  do* slot := lift (if isBoundValue then Ok index else add_int index (to_i32 (Z.of_nat count))) in
  emit PushLocal slot 0.

Definition emitInlineLambda (bodyExprs : list ast) (paramCount : Z) (boundValueExprs : list ast) : M cg unit :=
  do* _ := for_each emitExpr boundValueExprs in
  do* id := gets nextLambdaId_ in
  let name := hidden $"$lambda#" id in
  do* _ := modify (λ s, s <| nextLambdaId_ := id + 1 |>
             <| pendingLambdas_ ::= (.++ [mkPendingLambda name bodyExprs paramCount (length boundValueExprs)]) |>) in
  do* nameIdx := internString name in
  emit PushClosure nameIdx (to_i32 (size boundValueExprs)).

Definition emitAnonFunction (params : list Param) (isVarargs : bool) (body : ast) : M cg unit :=
  do* id := gets nextAnonFuncId_ in
  let name := hidden $"$anonfunc#" id in
  do* _ := modify (λ s, s <| nextAnonFuncId_ := id + 1 |>
             <| pendingAnonFuncs_ ::= (.++ [mkPendingAnonFunc name params isVarargs body]) |>) in
  do* nameIdx := internString name in
  emit PushClosure nameIdx 0.

(** The new value of an indexed assignment, after its target for the
    compound form. *)
Definition emit_new_value (target index value : ast) (isCompound : bool) (compoundOp : BinOp)
    (mapColumn : option ast) : M cg unit :=
  if isCompound then
    do* _ := emit_lvalue target index mapColumn in
    do* _ := emit Index 0 (column_flag mapColumn) in
    do* _ := emitExpr value in
    emit_combine compoundOp
  else emitExpr value.

Definition emitIndexAssignStmt (target index value : ast) (isCompound : bool) (compoundOp : BinOp)
    (mapColumn : option ast) : M cg unit :=
  do* _ := emit_lvalue target index mapColumn in
  do* _ := emit_new_value target index value isCompound compoundOp mapColumn in
  emit IndexAssign 0 (column_flag mapColumn).

Definition emitIndexAssignExpr (target index value : ast) (isCompound : bool) (compoundOp : BinOp)
    (mapColumn : option ast) : M cg unit :=
  do* tempSlot := hidden_local $"$idxassign#" in
  do* _ := emit_new_value target index value isCompound compoundOp mapColumn in
  do* _ := emit StoreLocal tempSlot 0 in
  do* _ := emit_lvalue target index mapColumn in
  do* _ := emit PushLocal tempSlot 0 in
  do* _ := emit IndexAssign 0 (column_flag mapColumn) in
  emit PushLocal tempSlot 0.

Definition emitReturnStmt (expr : option ast) : M cg unit :=
  do* _ := if_some emitExpr expr in
  emit Return 0 0.

Definition emitVarDeclStmt (type name : bytes) (initializer : option ast) : M cg unit :=
  do* slot := declareLocal name type in
  match initializer with
  | Some e => do* _ := emitExpr e in emit StoreLocal slot 0
  | None => ret tt
  end.

Definition emitAssignStmt (name : bytes) (value : ast) : M cg unit :=
  do* var := resolveVariable name in
  do* _ := emitExpr value in
  emit (storeOp var) (slot var) 0.

Definition emitIfStmt (condition thenBranch : ast) (elseBranch : option ast) : M cg unit :=
  do* _ := emitExpr condition in
  do* jumpIfFalseIdx := emitJumpPlaceholder JumpIfFalse in
  do* _ := emitBlock thenBranch in
  match elseBranch with
  | Some e =>
      do* jumpToEndIdx := emitJumpPlaceholder Jump in
      do* _ := patchJumpToHere jumpIfFalseIdx in
      do* _ := emitBlock e in
      patchJumpToHere jumpToEndIdx
  | None => patchJumpToHere jumpIfFalseIdx
  end.

Definition emit_jump_back (target : nat) : M cg unit := emit Jump (to_i32 (Z.of_nat target)) 0.

Definition emitWhileStmt (condition body : ast) : M cg unit :=
  do* loopTop := gets here in
  do* _ := emitExpr condition in
  do* jumpIfFalseIdx := emitJumpPlaceholder JumpIfFalse in
  do* _ := openLoop false in
  do* _ := emitBlock body in
  do* ctx := closeLoop in
  do* _ := patchAll loopTop (continueJumps ctx) in
  do* _ := emit_jump_back loopTop in
  do* _ := patchJumpToHere jumpIfFalseIdx in
  patchAllHere (breakJumps ctx).

Definition emitDoWhileStmt (condition body : ast) : M cg unit :=
  do* bodyStart := gets here in
  do* _ := openLoop false in
  do* _ := emitBlock body in
  do* ctx := closeLoop in
  do* continueTarget := gets here in
  do* _ := patchAll continueTarget (continueJumps ctx) in
  do* _ := emitExpr condition in
  do* jumpIfFalseIdx := emitJumpPlaceholder JumpIfFalse in
  do* _ := emit_jump_back bodyStart in
  do* _ := patchJumpToHere jumpIfFalseIdx in
  patchAllHere (breakJumps ctx).

(** The update clause of a [for], and its init clause but for a declaration. *)
Definition emit_clause (e : ast) : M cg unit :=
  match e with
  | Block _ _ => emitBlock e
  | _ => do* _ := emitExpr e in emit Pop 0 0
  end.

Definition emit_init (e : ast) : M cg unit :=
  match e with
  | VarDeclStmt type _ name initializer => emitVarDeclStmt type name initializer
  | _ => emit_clause e
  end.

Definition emitForStmt (init condition update : option ast) (body : ast) : M cg unit :=
  do* _ := openScope in
  do* _ := if_some emit_init init in
  do* loopTop := gets here in
  do* jumpIfFalseIdx :=
    (match condition with
     | Some c => do* _ := emitExpr c in do* idx := emitJumpPlaceholder JumpIfFalse in ret (Some idx)
     | None => ret None
     end) in
  do* _ := openLoop false in
  do* _ := emitBlock body in
  do* ctx := closeLoop in
  do* continueTarget := gets here in
  do* _ := patchAll continueTarget (continueJumps ctx) in
  do* _ := if_some emit_clause update in
  do* _ := emit_jump_back loopTop in
  do* _ := if_some patchJumpToHere jumpIfFalseIdx in
  do* _ := patchAllHere (breakJumps ctx) in
  closeScope.

(** The variable of a [foreach]: a new one, or one in scope. *)
Definition foreach_var (declare : bool) (varName classType : bytes) : M cg ResolvedVar :=
  if declare then
    do* s := declareLocal varName (if bool_decide (classType = []) then [] else $"class:" ++ classType) in
    ret (mkResolved Local s)
  else resolveVariable varName.

Definition next_foreach : M cg Z := λ s, (Ok (foreachCounter_ s), s <| foreachCounter_ ::= Z.add 1 |>).

(** [orig], [iter] and [idx] set up, and the test of the loop. *)
Definition foreach_head (collection : ast) : M cg (Z * Z * Z * nat * nat) :=
  do* id := next_foreach in
  do* origSlot := declareLocal (hidden $"$foreach_orig_" id) [] in
  do* _ := emitExpr collection in
  do* _ := emit StoreLocal origSlot 0 in
  do* iterSlot := declareLocal (hidden $"$foreach_iter_" id) [] in
  do* _ := emit PushLocal origSlot 0 in
  do* _ := emit ForeachKeys 0 0 in
  do* _ := emit StoreLocal iterSlot 0 in
  do* idxSlot := declareLocal (hidden $"$foreach_idx_" id) [] in
  do* _ := emit PushInt 0 0 in
  do* _ := emit StoreLocal idxSlot 0 in
  do* loopTop := gets here in
  do* _ := emit PushLocal idxSlot 0 in
  do* _ := emit PushLocal iterSlot 0 in
  do* sizeofIdx := internString $"sizeof" in
  do* _ := emit Call sizeofIdx 1 in
  do* _ := emit OpLt 0 0 in
  do* jumpIfFalseIdx := emitJumpPlaceholder JumpIfFalse in
  ret (origSlot, iterSlot, idxSlot, loopTop, jumpIfFalseIdx).

Definition emitForeachStmt (varName : bytes) (declareVar hasValueVar : bool) (valueVarName : bytes)
    (declareValueVar : bool) (collection body : ast) (varClassType valueVarClassType : bytes) : M cg unit :=
  do* _ := openScope in
  do* (origSlot, iterSlot, idxSlot, loopTop, jumpIfFalseIdx) := foreach_head collection in
  do* keyVar := foreach_var declareVar varName varClassType in
  do* _ := emit PushLocal iterSlot 0 in
  do* _ := emit PushLocal idxSlot 0 in
  do* _ := emit Index 0 0 in
  do* _ := emit (storeOp keyVar) (slot keyVar) 0 in
  do* _ := when hasValueVar
    (do* valVar := foreach_var declareValueVar valueVarName valueVarClassType in
     do* _ := emit PushLocal origSlot 0 in
     do* _ := emit (pushOp keyVar) (slot keyVar) 0 in
     do* _ := emit Index 0 0 in
     emit (storeOp valVar) (slot valVar) 0) in
  do* _ := openLoop false in
  do* _ := emitBlock body in
  do* ctx := closeLoop in
  do* continueTarget := gets here in
  do* _ := patchAll continueTarget (continueJumps ctx) in
  do* _ := emit PushLocal idxSlot 0 in
  do* _ := emit PushInt 1 0 in
  do* _ := emit OpAdd 0 0 in
  do* _ := emit StoreLocal idxSlot 0 in
  do* _ := emit_jump_back loopTop in
  do* _ := patchJumpToHere jumpIfFalseIdx in
  do* _ := patchAllHere (breakJumps ctx) in
  closeScope.

(** *** Switches

    The first pass gives, for each statement of the body, the jump to patch
    when it is reached: [jumpsToIndex] holds at most one for each index. *)

Definition emit_case (subjSlot : Z) (value : ast) (rangeEnd : option ast) : M cg nat :=
  do* _ := emit PushLocal subjSlot 0 in
  do* _ := emitExpr value in
  do* _ :=
    (match rangeEnd with
     | Some e =>
         do* _ := emit OpGte 0 0 in
         do* _ := emit Dup 0 0 in
         do* lowFailedJumpIdx := emitJumpPlaceholder JumpIfFalse in
         do* _ := emit Pop 0 0 in
         do* _ := emit PushLocal subjSlot 0 in
         do* _ := emitExpr e in
         do* _ := emit OpLte 0 0 in
         patchJumpToHere lowFailedJumpIdx
     | None => emit OpEq 0 0
     end) in
  do* _ := emit OpNot 0 0 in
  emitJumpPlaceholder JumpIfFalse.

(** The jumps, and the index of the last default label. *)
Definition emit_dispatch (subjSlot : Z) : nat → list ast → M cg (gmap nat nat * option nat) :=
  fix go i body :=
    match body with
    | [] => ret (∅, None)
    | CaseLabel (Some value) rangeEnd :: body =>
        do* jumpIdx := emit_case subjSlot value rangeEnd in
        do* (jumps, d) := go (S i) body in
        ret (<[i := jumpIdx]> jumps, d)
    | CaseLabel None _ :: body =>
        do* (jumps, d) := go (S i) body in
        ret (jumps, match d with Some j => Some j | None => Some i end)
    | _ :: body => go (S i) body
    end.

Definition is_label (e : ast) : bool := match e with CaseLabel _ _ => true | _ => false end.

Definition emit_cases (jumps : gmap nat nat) (defaultBodyIndex : option nat) (noMatchJumpIdx : nat)
    : nat → list ast → M cg unit :=
  fix go i body :=
    match body with
    | [] => ret tt
    | stmt :: body =>
        do* _ := if_some patchJumpToHere (jumps !! i) in
        do* _ :=
          (if bool_decide (defaultBodyIndex = Some i) then patchJumpToHere noMatchJumpIdx
           else if is_label stmt then ret tt
           else emitStatement stmt) in
        go (S i) body
    end.

Definition next_switch : M cg Z := λ s, (Ok (switchCounter_ s), s <| switchCounter_ ::= Z.add 1 |>).

Definition emitSwitchStmt (subject : ast) (body : list ast) : M cg unit :=
  do* n := next_switch in
  do* subjSlot := declareLocal (hidden $"$switch_subj_" n) [] in
  do* _ := emitExpr subject in
  do* _ := emit StoreLocal subjSlot 0 in
  do* (jumps, defaultBodyIndex) := emit_dispatch subjSlot 0 body in
  do* noMatchJumpIdx := emitJumpPlaceholder Jump in
  do* _ := openLoop true in
  do* _ := emit_cases jumps defaultBodyIndex noMatchJumpIdx 0 body in
  do* _ := when (negb (is_some defaultBodyIndex)) (patchJumpToHere noMatchJumpIdx) in
  do* ctx := closeLoop in
  patchAllHere (breakJumps ctx).

End Emit.

(** ** The recursion *)

Fixpoint emitExpr (expr : ast) {struct expr} : M cg unit :=
  match expr with
  | StringLiteral value => do* idx := internString value in emit PushConst idx 0
  | IntLiteral value => emit PushInt (to_i32 value) 0
  | FloatLiteral value => do* idx := internFloat value in emit PushFloat idx 0
  | NilLiteral => emit PushNil 0 0
  | SymbolLiteralExpr name => do* idx := internString name in emit PushSymbol idx 0
  | VarRefExpr name => do* var := resolveVariable name in emit (pushOp var) (slot var) 0
  | BinaryExpr o l r =>
      if bool_decide (o = Or ∨ o = And) then emitLogicalExpr emitExpr o l r
      else emitBinaryExpr emitExpr o l r
  | UnaryExpr o operand => emitUnaryExpr emitExpr o operand
  | CallExpr callee args argIsSpread forceEfun parentCall parentQualifier =>
      emitCallExpr emitExpr callee args argIsSpread forceEfun parentCall parentQualifier
  | CallOtherExpr target function args argIsSpread =>
      emitCallOtherExpr emitExpr target function args argIsSpread
  | SscanfExpr target format varNames indexedTargets =>
      emitSscanfExpr emitExpr target format varNames indexedTargets
  | AssignExpr name value isCompound compoundOp =>
      emitAssignExpr emitExpr name value isCompound compoundOp
  | IndexAssignExpr target index value isCompound compoundOp mapColumn =>
      emitIndexAssignExpr emitExpr target index value isCompound compoundOp mapColumn
  | IncDecExpr o prefix name indexTarget indexKey mapColumn =>
      emitIncDecExpr emitExpr o prefix name indexTarget indexKey mapColumn
  | ArrayLiteralExpr elements elementIsSpread =>
      do* _ := for_each emitExpr elements in
      do* _ := emitSpreadExpansions elementIsSpread in
      emit MakeArray 0 (to_i32 (size elements))
  | TypeCastExpr _ inner => emitExpr inner
  | CommaExpr l r =>
      do* _ := emitExpr l in
      do* _ := emit Pop 0 0 in
      emitExpr r
  | NewClassExpr className fieldInits => emitNewClassExpr emitExpr className fieldInits
  | MappingLiteralExpr entries => emitMappingLiteral emitExpr entries
  | TernaryExpr condition thenBranch elseBranch =>
      emitTernaryExpr emitExpr condition thenBranch elseBranch
  | CatchExpr guarded => emitCatchExpr emitExpr guarded
  | TimeExpressionExpr body => emitTimeExpressionExpr emitStatement body
  | IndexExpr target index rangeEnd indexFromEnd rangeEndFromEnd mapColumn =>
      emitIndexExpr emitExpr target index rangeEnd indexFromEnd rangeEndFromEnd mapColumn
  | ClosureLiteralExpr functionName boundArgs forceEfun =>
      emitClosureLiteral emitExpr functionName boundArgs forceEfun
  | LambdaParamExpr index isBoundValue => emitLambdaParam index isBoundValue
  | InlineLambdaExpr bodyExprs paramCount boundValueExprs =>
      emitInlineLambda emitExpr bodyExprs paramCount boundValueExprs
  | AnonFunctionExpr params isVarargs body => emitAnonFunction params isVarargs body
  | _ => codegen_error $"unsupported expression kind this slice"
  end

with emitStatement (stmt : ast) {struct stmt} : M cg unit :=
  match stmt with
  | Block statements isRealScope =>
      if isRealScope then emitBlock emitStatement stmt else for_each emitStatement statements
  | ExprStmt expr => do* _ := emitExpr expr in emit Pop 0 0
  | ReturnStmt expr => emitReturnStmt emitExpr expr
  | VarDeclStmt type _ name initializer => emitVarDeclStmt emitExpr type name initializer
  | AssignStmt name value => emitAssignStmt emitExpr name value
  | IndexAssignStmt target index value isCompound compoundOp mapColumn =>
      emitIndexAssignStmt emitExpr target index value isCompound compoundOp mapColumn
  | IfStmt condition thenBranch elseBranch =>
      emitIfStmt emitExpr emitStatement condition thenBranch elseBranch
  | WhileStmt condition body => emitWhileStmt emitExpr emitStatement condition body
  | DoWhileStmt condition body => emitDoWhileStmt emitExpr emitStatement condition body
  | ForStmt init condition update body =>
      emitForStmt emitExpr emitStatement init condition update body
  | ForeachStmt varName declareVar hasValueVar valueVarName declareValueVar collection body
      varClassType valueVarClassType =>
      emitForeachStmt emitExpr emitStatement varName declareVar hasValueVar valueVarName
        declareValueVar collection body varClassType valueVarClassType
  | SwitchStmt subject body => emitSwitchStmt emitExpr emitStatement subject body
  | BreakStmt => emitBreakStmt
  | ContinueStmt => emitContinueStmt
  | _ => codegen_error $"unsupported statement kind this slice"
  end.

(** ** Functions *)

(** How the numbers of arguments and locals of a function are cut to the bytes
    that hold them: [static_cast<uint8_t>]. *)
Class CountCast := count_cast : Z → Z.
#[export] Instance to_byte : CountCast := to_u8.

Section Counts.
Context {N : CountCast}.

(** The fields that each function starts with. *)
Definition reset_function (nextLocalSlot : Z) : M cg unit :=
  modify (λ s, s <| locals_ := ∅ |> <| nextLocalSlot_ := nextLocalSlot |> <| localScopeStack_ := [] |>
    <| loopStack_ := [] |> <| foreachCounter_ := 0 |> <| switchCounter_ := 0 |> <| indexAssignCounter_ := 0 |>).

Definition add_function (name : bytes) (entry : nat) (numArgs : Z) (isVarargs : bool) : M cg unit :=
  modify (λ s, s <| out := (out s) <| prog_functions ::=
    (.++ [mkEntry name (to_u32 (Z.of_nat entry)) (count_cast numArgs) (count_cast (nextLocalSlot_ s)) false isVarargs]) |> |>).

(** A function with a body in statements: a declared one or an anonymous one. *)
Definition emit_function (name : bytes) (params : list Param) (isVarargs : bool) (body : ast) : M cg unit :=
  do* _ := reset_function 0 in
  do* _ := for_each (λ p, do* _ := declareLocal (param_name p) (param_type p) in ret tt) params in
  do* entry := gets here in
  do* _ := emitBlock emitStatement body in
  do* _ := emit Return 0 0 in
  add_function name entry (size params) isVarargs.

(** The expressions of a lambda: all but the last are popped. *)
Fixpoint emit_body (bodyExprs : list ast) : M cg unit :=
  match bodyExprs with
  | [] => ret tt
  | [e] => emitExpr e
  | e :: rest =>
      do* _ := emitExpr e in
      do* _ := emit Pop 0 0 in
      emit_body rest
  end.

Definition emit_lambda (pending : PendingLambda) : M cg unit :=
  let bound := lambda_boundValues pending in
  do* slots := lift (add_int (to_i32 (Z.of_nat bound)) (lambda_paramCount pending)) in
  do* _ := reset_function slots in
  do* _ := modify (λ s, s <| currentLambdaBoundValueCount_ := bound |>) in
  do* entry := gets here in
  do* _ := emit_body (lambda_body pending) in
  do* _ := emit Return 0 0 in
  add_function (lambda_name pending) entry (lambda_paramCount pending) false.

Definition emit_anon (pending : PendingAnonFunc) : M cg unit :=
  emit_function (anon_name pending) (anon_params pending) (anon_isVarargs pending) (anon_body pending).

(** [while (i < queue.size()) { ... queue[i++] ... } queue.clear()]: the queue
    grows while it is worked through. *)
Section Drain.
Context {A : Type} (queue : cg → list A) (clear : cg → cg) (work : A → M cg unit).

Fixpoint drain (n i : nat) : M cg unit :=
  match n with
  | O => lift OutOfFuel
  | S n =>
      do* q := gets queue in
      match q !! i with
      | None => modify clear
      | Some p => do* _ := work p in drain n (S i)
      end
  end.
End Drain.

Definition emitPendingLambdas (n : nat) : M cg unit :=
  drain pendingLambdas_ (λ s, s <| pendingLambdas_ := [] |>) emit_lambda n 0.

Definition emitPendingAnonFuncs (n : nat) : M cg unit :=
  drain pendingAnonFuncs_ (λ s, s <| pendingAnonFuncs_ := [] |>) emit_anon n 0.

Definition nothing_pending (s : cg) : bool :=
  match pendingLambdas_ s, pendingAnonFuncs_ s with [], [] => true | _, _ => false end.

(** The alternation after a function. *)
Fixpoint emitPending (n : nat) (rounds : nat) : M cg unit :=
  do* finished := gets nothing_pending in
  if finished then ret tt
  else
    match rounds with
    | O => lift OutOfFuel
    | S rounds =>
        do* _ := emitPendingLambdas n in
        do* _ := emitPendingAnonFuncs n in
        emitPending n rounds
    end.

(** ** Programs *)

Definition class_defs (classes : list ClassDeclStmt) : gmap bytes (list bytes) :=
  foldl (λ m c, <[class_name c := memberNames c]> m) ∅ classes.

(** Slots from [i] on, later names winning. *)
Fixpoint var_slots (i : nat) (names : list bytes) (m : gmap bytes Z) : gmap bytes Z :=
  match names with
  | [] => m
  | x :: names => var_slots (S i) names (<[x := to_i32 (Z.of_nat i)]> m)
  end.

Definition declare_objectVar (v : ObjectVarDecl) : M cg (Z * option ast) := λ s,
  let slot := to_i32 (size (objectVarNames (out s))) in
  let shown := if var_isPrivate v then $"$private#" ++ to_string slot else var_name v in
  let s := s <| objectVars_ ::= <[var_name v := slot]> |>
             <| out := (out s) <| objectVarNames ::= (.++ [shown]) |> |> in
  (Ok (slot, var_initializer v),
   match class_of_type (var_type v) with
   | Some c => s <| objectVarClassTypes_ ::= <[var_name v := c]> |>
   | None => s
   end).

(** The result is [pendingVarInitializers]. *)
Fixpoint declare_objectVars (vs : list ObjectVarDecl) : M cg (list (Z * ast)) :=
  match vs with
  | [] => ret []
  | v :: vs =>
      do* (slot, init) := declare_objectVar v in
      do* rest := declare_objectVars vs in
      ret (match init with Some e => (slot, e) :: rest | None => rest end)
  end.

Definition emit_initializers (pending : list (Z * ast)) : M cg unit :=
  do* _ := reset_function 0 in
  do* entry := gets here in
  do* _ := for_each (λ '(slot, e), do* _ := emitExpr e in emit StoreObjectVar slot 0) pending in
  do* _ := emit Return 0 0 in
  add_function $"$objvarinit" entry 0 false.

Definition emit_objvarinit (n : nat) (pending : list (Z * ast)) : M cg unit :=
  match pending with
  | [] => ret tt
  | _ => do* _ := emit_initializers pending in emitPendingLambdas n
  end.

Definition emit_declared (n : nat) (fn : FunctionDecl) : M cg unit :=
  match fn_body fn with
  | None => ret tt
  | Some body =>
      do* _ := emit_function (fn_name fn) (fn_params fn) (fn_isVarargs fn) body in
      emitPending n n
  end.

(** [generate], from the fields that the generator has: [objectVars_],
    [classDefs_] and [objectVarClassTypes_] are cleared, the rest is kept.
    The next slot of an object variable is the number of names so far. *)
Definition begin_program (program : Program) (inheritedObjectVarNames : list bytes) (s : cg) : cg :=
  s <| out := mkCompiled [] [] [] [] inheritedObjectVarNames (Ast.inherits program) |>
    <| objectVars_ := var_slots 0 inheritedObjectVarNames ∅ |>
    <| classDefs_ := class_defs (classes program) |>
    <| objectVarClassTypes_ := ∅ |>.

Definition generate (n : nat) (program : Program) (inheritedObjectVarNames : list bytes) : M cg CompiledProgram :=
  do* _ := modify (begin_program program inheritedObjectVarNames) in
  do* pending := declare_objectVars (objectVars program) in
  do* _ := emit_objvarinit n pending in
  do* _ := for_each (emit_declared n) (Ast.functions program) in
  gets out.
End Counts.

(** A generator as it is constructed. *)
Definition new_cg : cg :=
  mkCG empty_program ∅ 0 [] [] 0 0 0 ∅ ∅ ∅ ∅ [] 0 [] 0 0.
