(* ===== verification/Verified.v ===== *)
(** * Verified bytecode: what the virtual machine relies on

    The generator promises the machine that every instruction finds its
    operands: the values it pops, the slot, the constant, the place to jump to.
    A function of a program is verified when each of its positions can be given
    a shape of the run time stacks such that every instruction leads to
    positions that have the shape it leaves.  The effects below are those of
    [VM::run] in [src/vm/VM.cpp]; a list that is spread by [ExpandVarargs]
    counts as one value here, and the machine adds what it spreads to both
    sides. *)

From S2P Require Import Prelude Bytecode.
Open Scope nat_scope.

(** What the instructions before have announced: nothing; the qualifier of a
    [CallParent]; [S n] slots of a [Sscanf]; the list that [ExpandVarargs] has
    begun to spread, with the first and the last distance from the top. *)
Inductive mode :=
  | Ready
  | Qualifier
  | Slots (n : nat)
  | Spread (first last : Z).

(** The values on the stack; the open [catch] frames, each with the timers
    opened before it since the one around it; the timers opened since the
    innermost frame. *)
Record shape := Shape { stack : nat; catches : list nat; timers : nat; awaits : mode }.
Notation mkShape s c t := (Shape s c t Ready).

Definition no_shape : shape := mkShape 0 [] 0.

Definition push (sh : shape) : shape := mkShape (S (stack sh)) (catches sh) (timers sh).

Fixpoint pops (n d : nat) : option nat :=
  match n, d with
  | O, _ => Some d
  | S n, S d => pops n d
  | S _, O => None
  end.

(** How many values an instruction takes and leaves. *)
Definition effect (i : Instruction) : option (nat * nat) :=
  match op i with
  | PushConst | PushInt | PushFloat | PushNil | PushSymbol | PushLocal | PushObjectVar => Some (0, 1)
  | StoreLocal | StoreObjectVar | Pop | JumpIfFalse => Some (1, 0)
  | OpAdd | OpSub | OpMul | OpDiv | OpMod | OpBitAnd | OpBitOr | OpBitXor | OpShl | OpShr
  | OpEq | OpNeq | OpLt | OpLte | OpGt | OpGte => Some (2, 1)
  | OpNot | OpBitNot | ForeachKeys => Some (1, 1)
  | Call | CallEfun | CallParent | PushClosure | PushEfunClosure | MakeArray => Some (Z.to_nat (argCount i), 1)
  | MakeMapping => Some (Z.to_nat (argCount i) * S (Z.to_nat (operand i)), 1)
  | ExpandVarargs => Some (S (Z.to_nat (operand i)), S (Z.to_nat (operand i)))
  | Index => Some (if Z.testbit (argCount i) 2 then 3 else 2, 1)
  | IndexAssign => Some (if Z.testbit (argCount i) 2 then 4 else 3, 0)
  | RangeIndex => Some (3, 1)
  | Sscanf => Some (2, 1)
  | Dup => Some (1, 2)
  | CallParentQualifierSlot | SscanfVarSlot | PushCatchFrame | TimeExpressionStart => Some (0, 0)
  | PopCatchFrame | TimeExpressionEnd => Some (0, 1)
  | Jump | Return | CallApply | Halt | Suspend => None
  end.

(** Closing what is open. *)
Definition frames_after (o : OpCode) (sh : shape) : option (list nat * nat) :=
  match o, catches sh, timers sh with
  | PushCatchFrame, c, t => Some (t :: c, 0)
  | PopCatchFrame, t :: c, O => Some (c, t)
  | TimeExpressionStart, c, t => Some (c, S t)
  | TimeExpressionEnd, c, S t => Some (c, t)
  | PopCatchFrame, _, _ | TimeExpressionEnd, _, O => None
  | _, c, t => Some (c, t)
  end.

(** Counts are not negative. *)
Definition counts_ok (i : Instruction) : bool :=
  match op i with
  | Call | CallEfun | CallParent | PushClosure | PushEfunClosure | MakeArray => (0 <=? argCount i)%Z
  | MakeMapping => (0 <=? argCount i)%Z && (1 <=? operand i)%Z
  | ExpandVarargs | Sscanf => (0 <=? operand i)%Z
  | _ => true
  end.

Definition slots_left (n : nat) : mode := match n with O => Ready | S n => Slots n end.

(** The instructions that count what was spread. *)
Definition takes_spread (o : OpCode) : bool :=
  match o with MakeArray | Call | CallEfun | CallParent => true | _ => false end.

Definition after (i : Instruction) : mode :=
  match op i with
  | CallParent => Qualifier
  | Sscanf => slots_left (Z.to_nat (operand i))
  | ExpandVarargs => Spread (operand i) (operand i)
  | _ => Ready
  end.

(** Data follows its instruction, and the values of a list are spread from the
    first to the last, right before the list is taken. *)
Definition mode_after (i : Instruction) (m : mode) : option mode :=
  match m with
  | Ready => match op i with CallParentQualifierSlot | SscanfVarSlot => None | _ => Some (after i) end
  | Qualifier => match op i with CallParentQualifierSlot => Some Ready | _ => None end
  | Slots n => match op i with SscanfVarSlot => Some (slots_left n) | _ => None end
  | Spread f l =>
      match op i with
      | ExpandVarargs => if (operand i <? l)%Z then Some (Spread f (operand i)) else None
      | o => if takes_spread o && (f <? argCount i)%Z then Some (after i) else None
      end
  end.

(** The shape at the next instruction. *)
Definition next (i : Instruction) (sh : shape) : option shape :=
  '(n, m) ← effect i;
  d ← pops n (stack sh);
  '(c, t) ← frames_after (op i) sh;
  w ← mode_after i (awaits sh);
  if counts_ok i then Some (Shape (m + d) c t w) else None.

(** The shape where it jumps; where an error lands for a [catch]. *)
Definition jump_shape (i : Instruction) (sh : shape) : option shape :=
  match op i with
  | Jump => Some (mkShape (stack sh) (catches sh) (timers sh))
  | JumpIfFalse => d ← pops 1 (stack sh); Some (mkShape d (catches sh) (timers sh))
  | PushCatchFrame => Some (push sh)
  | _ => None
  end.

(** A function returns its value or nothing, and leaves nothing open. *)
Definition may_return (sh : shape) : Prop :=
  stack sh ≤ 1 ∧ catches sh = [] ∧ timers sh = 0 ∧ awaits sh = Ready.

Definition flows (D : nat → shape) (k : nat) (i : Instruction) : Prop :=
  match op i with
  | Jump => awaits (D k) = Ready
  | Return => may_return (D k)
  | _ => next i (D k) = Some (D (S k))
  end.

Definition falls_through (o : OpCode) : bool :=
  match o with Jump | Return => false | _ => true end.

(** What there is to refer to. *)
Record limits := mkLimits { strings : nat; floats : nat; variables : nat; slots : Z }.

Definition limits_of (c : CompiledProgram) (slots : Z) : limits :=
  mkLimits (length (stringPool c)) (length (floatPool c)) (length (objectVarNames c)) slots.

Section Cast.
(** How an index becomes an operand: by a cast in the generator; in a program
    of less than 2^31 instructions, strings, doubles and variables it is the
    operand ([verified_exact]). *)
Context (cast : Z → Z).
(** How the number of slots becomes the number of locals: by a cast to eight
    bits in the generator; in a program whose counts are not cut it is that
    number. *)
Context (count_cast : Z → Z).

(** The operand [z] denotes one of [n] things. *)
Definition denotes (z : Z) (n : nat) : Prop := ∃ i, i < n ∧ z = cast (Z.of_nat i).

Definition operand_ok (L : limits) (i : Instruction) : Prop :=
  match op i with
  | PushConst | PushSymbol | Call | CallEfun | CallParent | PushClosure | PushEfunClosure =>
      denotes (operand i) (strings L)
  | CallParentQualifierSlot => operand i = (-1)%Z ∨ denotes (operand i) (strings L)
  | PushFloat => denotes (operand i) (floats L)
  | PushLocal | StoreLocal => (0 ≤ operand i < slots L)%Z
  | PushObjectVar | StoreObjectVar => denotes (operand i) (variables L)
  | SscanfVarSlot =>
      if bool_decide (argCount i = 0%Z) then (0 ≤ operand i < slots L)%Z else denotes (operand i) (variables L)
  | _ => True
  end.

(** The instructions from [lo] to before [hi] are sound for the shapes [D]. *)
Definition sound (c : CompiledProgram) (slots : Z) (lo hi : nat) (D : nat → shape) : Prop :=
  ∀ k i, lo ≤ k < hi → prog_code c !! k = Some i →
    operand_ok (limits_of c slots) i ∧
    flows D k i ∧
    (falls_through (op i) = true → S k < hi) ∧
    ∀ sh, jump_shape i (D k) = Some sh → ∃ t, lo ≤ t < hi ∧ operand i = cast (Z.of_nat t) ∧ D t = sh.

(** A function: its code is that of an interval that it does not leave. *)
Definition verified (c : CompiledProgram) (f : FunctionEntry) : Prop :=
  ∃ lo hi slots D,
    entryPoint f = to_u32 (Z.of_nat lo) ∧ lo < hi ≤ length (prog_code c) ∧
    (0 ≤ slots < 2 ^ 31)%Z ∧ numLocals f = count_cast slots ∧
    D lo = no_shape ∧ sound c slots lo hi D.
End Cast.

Definition small_program (c : CompiledProgram) : Prop :=
  Forall (λ n, (Z.of_nat n < 2 ^ 31)%Z)
    [length (prog_code c); length (stringPool c); length (floatPool c); length (objectVarNames c)].

Lemma denotes_exact z n : (Z.of_nat n < 2 ^ 31)%Z → denotes to_i32 z n → denotes id z n.
Proof. intros Hn (i & Hi & ->). exists i. split; [done|]. apply to_i32_small; unfold id; lia. Qed.

Lemma denotes_range z n : denotes id z n ↔ (0 ≤ z < Z.of_nat n)%Z.
Proof. unfold denotes, id. split; [intros (i & Hi & ->); lia|]. intros H. exists (Z.to_nat z). split; lia. Qed.

Lemma verified_exact count_cast c f : small_program c → verified to_i32 count_cast c f → verified id count_cast c f.
Proof.
  intros Hc (lo & hi & slots & D & He & Hhi & Hs & Hn & HD & Hsound).
  unfold small_program in Hc. rewrite !Forall_cons in Hc. destruct Hc as (Hc & Hst & Hf & Hv & _).
  exists lo, hi, slots, D. split_and!; try done; try lia.
  intros k i Hk Hi. destruct (Hsound k i Hk Hi) as (Ho & Hfl & Hft & Hj). split_and!; try done.
  - unfold operand_ok in *. cbn [limits_of strings floats variables Verified.slots] in *.
    destruct (op i); try case_if; eauto using denotes_exact; try done.
    destruct Ho; eauto using denotes_exact.
  - intros sh Hsh. destruct (Hj sh Hsh) as (t & Ht & -> & HDt). exists t. split_and!; try done; try lia.
    apply to_i32_small; unfold id; lia.
Qed.

(** A program that grows keeps its functions verified. *)
Definition grows (c c' : CompiledProgram) : Prop :=
  prog_code c `prefix_of` prog_code c' ∧ length (stringPool c) ≤ length (stringPool c') ∧
  length (floatPool c) ≤ length (floatPool c') ∧ length (objectVarNames c) ≤ length (objectVarNames c').

Lemma denotes_more cast z n n' : n ≤ n' → denotes cast z n → denotes cast z n'.
Proof. intros Hn (i & Hi & ->). exists i. split; [lia|done]. Qed.
#[export] Hint Resolve denotes_more : kj.

Definition limits_le (L L' : limits) : Prop :=
  strings L ≤ strings L' ∧ floats L ≤ floats L' ∧ variables L ≤ variables L' ∧ (slots L ≤ slots L')%Z.

Lemma operand_ok_mono cast L L' i : limits_le L L' → operand_ok cast L i → operand_ok cast L' i.
Proof.
  intros (Hs & Hf & Hv & Hl). unfold operand_ok. destruct (op i); try case_if; try done; eauto with kj; try lia.
  intros [?|?]; eauto with kj.
Qed.

Lemma verified_mono cast count_cast c c' f : grows c c' → verified cast count_cast c f → verified cast count_cast c' f.
Proof.
  intros ((new & Hcode) & Hs & Hf & Hv) (lo & hi & slots & D & He & Hhi & Hsl & Hn & HD & Hsound).
  exists lo, hi, slots, D. rewrite Hcode, length_app. split_and!; try done; try lia.
  intros k i Hk Hi. rewrite Hcode, lookup_app_l in Hi by lia.
  destruct (Hsound k i Hk Hi) as (Ho & Hrest). split; [|done].
  revert Ho. apply operand_ok_mono. unfold limits_le, limits_of. simpl. lia.
Qed.
