(* ===== verification/CodeGenLogic.v ===== *)
(** * A logic for the code generator

    While a function is compiled, its code is sound for shapes that grow with
    it, but for the jumps whose place is not known yet.  [inv] says so; a
    [triple] says how a member function of the generator changes what is
    known.  Each member function has one rule, and the rules of the compound
    ones follow from those of their parts. *)

From S2P Require Import Prelude Doubles Ast Bytecode CodeGen Verified.
Open Scope nat_scope.

(** ** Syntax trees the parser makes *)

Definition small {A} (l : list A) : bool := (size l <? 2 ^ 31 - 2)%Z.
Definition opt_all {A} (p : A → bool) (o : option A) : bool := match o with Some x => p x | None => true end.
Definition is_block (e : ast) : bool := match e with Block _ _ => true | _ => false end.
Definition is_index (e : ast) : bool := match e with IndexExpr _ _ _ _ _ _ => true | _ => false end.

Definition spreads {A} (isSpread : list bool) (l : list A) : bool :=
  bool_decide (isSpread = [] ∨ length isSpread = length l).

(** Every entry has as many values as the first, and at least one. *)
Definition same_width (entries : list (ast * list ast)) : bool :=
  match entries with
  | [] => true
  | (_, vs) :: _ =>
      negb (bool_decide (vs = [])) && small vs &&
      forallb (λ '(_, ws), bool_decide (length ws = length vs)) entries
  end.

(** [n] parameters [$N] and [m] bound values are in scope; a [break], a
    [continue], a [return] may occur.  None may leave a [time_expression]. *)
Fixpoint wf (n m : Z) (b c r : bool) (e : ast) {struct e} : bool :=
  let ex := wf n m false false false in
  match e with
  | StringLiteral _ | IntLiteral _ | FloatLiteral _ | NilLiteral | SymbolLiteralExpr _ | VarRefExpr _
  | MemberNameMarker _ => true
  | BinaryExpr _ l r | CommaExpr l r => ex l && ex r
  | UnaryExpr _ e | CatchExpr e | TypeCastExpr _ e | AssignExpr _ e _ _ | ExprStmt e | AssignStmt _ e => ex e
  | TernaryExpr x y z => ex x && ex y && ex z
  | CallExpr _ args spread _ _ _ => forallb ex args && spreads spread args && small args
  | CallOtherExpr x f args spread => ex x && ex f && forallb ex args && spreads spread args && small args
  | SscanfExpr x f names targets =>
      ex x && ex f && small names && bool_decide (length names = length targets) &&
      forallb (opt_all (λ t, is_index t && ex t)) targets
  | ClosureLiteralExpr _ args _ => forallb ex args && small args
  | InlineLambdaExpr body k vs =>
      forallb ex vs && forallb (wf k (size vs) false false false) body && small vs &&
      (0 <=? k)%Z && (k + size vs <? 2 ^ 31)%Z
  | LambdaParamExpr i isBound => (0 <=? i)%Z && (i <? (if isBound then m else n))%Z
  | IncDecExpr _ _ _ x k col =>
      opt_all ex x && opt_all ex k && opt_all ex col && (negb (is_some x) || is_some k)
  | ArrayLiteralExpr es spread => forallb ex es && spreads spread es && small es
  | MappingLiteralExpr es =>
      forallb (λ '(k, vs), ex k && forallb ex vs) es && same_width es && small es
  | NewClassExpr _ fs => forallb (λ '(_, e), ex e) fs
  | IndexExpr x i e _ _ col => ex x && ex i && opt_all ex e && opt_all ex col
  | IndexAssignStmt x i v _ _ col | IndexAssignExpr x i v _ _ col => ex x && ex i && ex v && opt_all ex col
  | TimeExpressionExpr body => is_block body && ex body
  | AnonFunctionExpr ps _ body => is_block body && wf 0 0 false false true body && small ps
  | Block ss _ => forallb (wf n m b c r) ss
  | ReturnStmt e => r && opt_all ex e
  | VarDeclStmt _ _ _ e => opt_all ex e
  | IfStmt x y z => ex x && is_block y && wf n m b c r y && opt_all (λ z, is_block z && wf n m b c r z) z
  | WhileStmt x y | DoWhileStmt x y => ex x && is_block y && wf n m true true r y
  | ForStmt i x u y =>
      opt_all (wf n m b c r) i && opt_all ex x && opt_all (wf n m b c r) u && is_block y && wf n m true true r y
  | BreakStmt => b
  | ContinueStmt => c
  | CaseLabel v e => opt_all ex v && opt_all ex e
  | SwitchStmt x ss => ex x && forallb (wf n m true c r) ss
  | ForeachStmt _ _ _ _ _ x y _ _ => ex x && is_block y && wf n m true true r y
  end.

Notation wf_expr n m := (wf n m false false false).

(** ** What is known *)

Inductive fact :=
  | At (t : nat) (sh : shape)        (** the shape at a position *)
  | IsVar (v : ResolvedVar)          (** a variable that exists *)
  | IsString (z : Z)                 (** an index of the string pool *)
  | IsFloat (z : Z).

(** Jumps without a target, the loops around, the number of scopes, the shape
    here. *)
Record ctx := mkCtx {
  facts : list fact;
  opens : list (nat * shape);
  loops : list (bool * shape);
  scopes : nat;
  here_shape : shape;
}.

(** An operand made of an index. *)
Notation cast_of := (denotes to_i32).

Definition limits_at (s : cg) : limits := limits_of (out s) (nextLocalSlot_ s).

Definition var_ok (L : limits) (v : ResolvedVar) : Prop :=
  match kind v with
  | Local => (0 ≤ slot v < slots L)%Z
  | ObjectVar => cast_of (slot v) (variables L)
  end.

Definition lambda_ok (p : PendingLambda) : Prop :=
  let n := lambda_paramCount p in
  let m := Z.of_nat (lambda_boundValues p) in
  forallb (wf_expr n m) (lambda_body p) = true ∧ (0 ≤ n ∧ n + m < 2 ^ 31)%Z.

Definition anon_ok (p : PendingAnonFunc) : Prop :=
  is_block (anon_body p) = true ∧ wf 0 0 false false true (anon_body p) = true ∧ small (anon_params p) = true.

Definition loop_pending (l : LoopContext) : list nat := continueJumps l ++ breakJumps l.

Section Logic.
Context {N : CountCast}.
(** The code before the function, and the parameters and bound values of a
    lambda. *)
Context (pre : list Instruction) (n m : Z) (n_pos : (0 ≤ n)%Z) (m_pos : (0 ≤ m)%Z).

Definition lo : nat := length pre.

Definition fact_ok (D : nat → shape) (s : cg) (f : fact) : Prop :=
  match f with
  | At t sh => lo ≤ t ≤ here s ∧ D t = sh
  | IsVar v => var_ok (limits_at s) v
  | IsString z => cast_of z (strings (limits_at s))
  | IsFloat z => cast_of z (floats (limits_at s))
  end.

Definition jump_at (D : nat → shape) (s : cg) (j : nat) (sh : shape) : Prop :=
  lo ≤ j ∧ ∃ i, prog_code (out s) !! j = Some i ∧ jump_shape i (D j) = Some sh.

Definition loop_ok (D : nat → shape) (s : cg) (l : LoopContext) (f : bool * shape) : Prop :=
  isSwitch l = fst f ∧ (isSwitch l = true → continueJumps l = []) ∧
  Forall (λ j, jump_at D s j (snd f)) (loop_pending l).

Definition pending (Γ : ctx) (s : cg) : list nat :=
  (opens Γ).*1 ++ concat (map loop_pending (loopStack_ s)).

Definition resolved (D : nat → shape) (s : cg) (i : Instruction) (sh : shape) : Prop :=
  ∃ t, lo ≤ t ≤ here s ∧ operand i = to_i32 (Z.of_nat t) ∧ D t = sh.

Definition instr_ok (D : nat → shape) (s : cg) (open : list nat) (k : nat) (i : Instruction) : Prop :=
  operand_ok to_i32 (limits_at s) i ∧ flows D k i ∧
  ∀ sh, jump_shape i (D k) = Some sh → k ∈ open ∨ resolved D s i sh.

(** The part that the text of the program decides. *)
Record names_ok (s : cg) : Prop := {
  locals_ok : map_Forall (λ _ z, (0 ≤ z < nextLocalSlot_ s)%Z) (locals_ s);
  slots_ok : (n + m ≤ nextLocalSlot_ s < 2 ^ 31)%Z;
  count_ok : (0 < n)%Z → Z.of_nat (currentLambdaBoundValueCount_ s) = m;
  objectVars_ok : map_Forall (λ _ z, cast_of z (length (objectVarNames (out s)))) (objectVars_ s);
  classes_ok : map_Forall (λ _ ms, small ms = true) (classDefs_ s);
  lambdas_ok : Forall lambda_ok (pendingLambdas_ s);
  anons_ok : Forall anon_ok (pendingAnonFuncs_ s);
}.

Record inv (Γ : ctx) (D : nat → shape) (s : cg) : Prop := {
  inv_pre : pre `prefix_of` prog_code (out s);
  inv_here : D (here s) = here_shape Γ;
  inv_code : ∀ k i, lo ≤ k → prog_code (out s) !! k = Some i → instr_ok D s (pending Γ s) k i;
  inv_opens : Forall (λ '(j, sh), jump_at D s j sh) (opens Γ);
  inv_loops : Forall2 (loop_ok D s) (loopStack_ s) (loops Γ);
  inv_facts : Forall (fact_ok D s) (facts Γ);
  inv_scopes : length (localScopeStack_ s) = scopes Γ;
  inv_names : names_ok s;
  inv_done : Forall (verified to_i32 count_cast ((out s) <| prog_code := pre |>)) (prog_functions (out s));
}.

(** A run that keeps to the rules: it throws nothing but the errors of the
    driver, and the only undefined behaviour is a counter of slots that
    overflows. *)
Definition kept {A} (post : A → cg → Prop) (r : result A * cg) : Prop :=
  match r with
  | (Ok a, s) => post a s
  | (Throw (LpcRuntimeError _), _) => True
  | (Undefined, s) => nextLocalSlot_ s = (2 ^ 31 - 1)%Z
  | _ => False
  end.

Definition triple {A} (Γ : ctx) (f : M cg A) (Γ' : A → ctx) : Prop :=
  ∀ D s, inv Γ D s → kept (λ a s', ∃ D', inv (Γ' a) D' s') (f s).

Lemma triple_ret {A} Γ (a : A) (Γ' : A → ctx) : Γ = Γ' a → triple Γ (ret a) Γ'.
Proof. intros -> D s H. simpl. eauto. Qed.

Lemma triple_bind {A B} Γ (f : M cg A) (k : A → M cg B) Γ1 Γ2 :
  triple Γ f Γ1 → (∀ a, triple (Γ1 a) (k a) Γ2) → triple Γ (bind f k) Γ2.
Proof.
  intros Hf Hk D s H. specialize (Hf D s H). unfold bind.
  destruct (f s) as [[a|e| |] s']; simpl in *; try done. destruct Hf as [D' H']. by apply (Hk a D' s').
Qed.

Lemma triple_error {A} Γ msg (Γ' : A → ctx) : triple Γ (codegen_error msg) Γ'.
Proof. by intros D s H. Qed.

Lemma triple_conseq {A} Γ (f : M cg A) Γ' Γ'' :
  triple Γ f Γ' → (∀ a D s, inv (Γ' a) D s → inv (Γ'' a) D s) → triple Γ f Γ''.
Proof.
  intros Hf Hc D s H. specialize (Hf D s H). destruct (f s) as [[a|e| |] s']; simpl in *; try done.
  destruct Hf as [D' H']. eauto.
Qed.

(** *** What is known stays known *)

Definition same_ops (c c' : list Instruction) : Prop :=
  ∀ k i, c !! k = Some i → ∃ i', c' !! k = Some i' ∧ op i' = op i.

(** A state that follows: the shapes and the instructions so far, but for
    operands, are kept. *)
Record follows (D : nat → shape) (s : cg) (D' : nat → shape) (s' : cg) : Prop := {
  fo_shapes : ∀ t, t ≤ here s → D' t = D t;
  fo_here : here s ≤ here s';
  fo_ops : same_ops (prog_code (out s)) (prog_code (out s'));
  fo_limits : limits_le (limits_at s) (limits_at s');
}.

Lemma jump_shape_op i i' sh : op i' = op i → jump_shape i' sh = jump_shape i sh.
Proof. unfold jump_shape. by intros ->. Qed.

Lemma lookup_here s k i : prog_code (out s) !! k = Some i → k < here s.
Proof. apply lookup_lt_Some. Qed.

Section Follows.
Context D s D' s' (Hf : follows D s D' s').

Lemma jump_at_follows j sh : jump_at D s j sh → jump_at D' s' j sh.
Proof.
  intros (Hj & i & Hi & Hsh). split; [done|]. destruct (fo_ops _ _ _ _ Hf j i Hi) as (i' & Hi' & Ho).
  exists i'. split; [done|]. apply lookup_here in Hi. rewrite (fo_shapes _ _ _ _ Hf) by lia.
  by rewrite (jump_shape_op i i').
Qed.

Lemma fact_ok_follows f : fact_ok D s f → fact_ok D' s' f.
Proof.
  destruct (fo_limits _ _ _ _ Hf) as (Hs & Hfl & Hv & Hl). pose proof (fo_here _ _ _ _ Hf).
  destruct f as [t sh|[[] z]|z|z]; unfold fact_ok, var_ok; cbn [kind slot]; eauto with kj; [|lia].
  intros [? Hsh]. rewrite (fo_shapes _ _ _ _ Hf) by lia. split; [lia|done].
Qed.

Lemma loop_ok_follows l f : loop_ok D s l f → loop_ok D' s' l f.
Proof.
  intros (Hsw & Hc & Hl). split_and!; try done. eapply Forall_impl; [done|]. intros j. apply jump_at_follows.
Qed.

Lemma resolved_follows i sh : resolved D s i sh → resolved D' s' i sh.
Proof.
  intros (t & Ht & Ho & HD). pose proof (fo_here _ _ _ _ Hf). exists t.
  rewrite (fo_shapes _ _ _ _ Hf) by lia. split_and!; [lia..|done|done].
Qed.

Lemma flows_follows k i : k < here s → flows D k i → flows D' k i.
Proof.
  intros Hk. unfold flows. rewrite !(fo_shapes _ _ _ _ Hf) by lia. done.
Qed.

Lemma instr_ok_follows open open' k i :
  k < here s → (k ∈ open → k ∈ open') → instr_ok D s open k i → instr_ok D' s' open' k i.
Proof.
  intros Hk Hopen (Ho & Hfl & Hj). split_and!.
  - revert Ho. apply operand_ok_mono, Hf.
  - by apply flows_follows.
  - intros sh. rewrite (fo_shapes _ _ _ _ Hf) by lia. intros Hsh.
    destruct (Hj sh Hsh); [left; auto|right; by apply resolved_follows].
Qed.
End Follows.

Lemma inv_lo Γ D s : inv Γ D s → lo ≤ here s.
Proof. intros H. apply prefix_length, (inv_pre _ _ _ H). Qed.

(** *** Steps that leave the code alone *)

Record quiet (s s' : cg) : Prop := {
  q_code : prog_code (out s') = prog_code (out s);
  q_functions : prog_functions (out s') = prog_functions (out s);
  q_loops : loopStack_ s' = loopStack_ s;
  q_limits : limits_le (limits_at s) (limits_at s');
}.

Lemma quiet_follows D s s' : quiet s s' → follows D s D s'.
Proof.
  intros [Hc Hl Hlim]. split; try done; unfold here; rewrite Hc; [lia|]. intros k i Hi. eauto.
Qed.

Lemma inv_quiet Γ D s s' F q :
  inv Γ D s → quiet s s' → names_ok s' → length (localScopeStack_ s') = q → Forall (fact_ok D s') F →
  inv (mkCtx F (opens Γ) (loops Γ) q (here_shape Γ)) D s'.
Proof.
  intros H Hq Hn Hsc HF. pose proof (quiet_follows D _ _ Hq) as Hf. destruct Hq as [Hc Hfn Hl Hlim].
  destruct H as [Hpre Hhere Hcode Hopens Hloops Hfacts _ _ Hdone]. split; cbn [opens loops here_shape facts scopes]; try done.
  - by rewrite Hc.
  - unfold here. by rewrite Hc.
  - intros k i Hk. rewrite Hc. intros Hi. eapply instr_ok_follows; [done|by eapply lookup_here| |by apply Hcode].
    unfold pending. by rewrite Hl.
  - eapply Forall_impl; [done|]. intros [j sh]. by apply jump_at_follows.
  - rewrite Hl. eapply Forall2_impl; [done|]. intros l f. by apply loop_ok_follows.
  - rewrite Hfn. eapply Forall_impl; [done|]. intros f. apply verified_mono.
    destruct Hlim as (? & ? & ? & ?). split_and!; [done|..]; assumption.
Qed.

(** *** Emission *)

Definition emitted (i : Instruction) (s : cg) : cg :=
  s <| out := (out s) <| prog_code ::= (.++ [i]) |> |>.

Definition upd (D : nat → shape) (t : nat) (sh : shape) : nat → shape :=
  λ k, if bool_decide (k = t) then sh else D k.

Lemma here_emitted i s : here (emitted i s) = S (here s).
Proof. unfold here, emitted. simpl. rewrite length_app. simpl. lia. Qed.

Lemma emitted_follows D s i sh : follows D s (upd D (S (here s)) sh) (emitted i s).
Proof.
  split.
  - intros t Ht. unfold upd. by rewrite bool_decide_eq_false_2 by lia.
  - rewrite here_emitted. lia.
  - intros k j Hj. exists j. split; [|done]. simpl. by apply lookup_app_l_Some.
  - unfold limits_le. simpl. lia.
Qed.

Lemma emit_inv Γ D s i sh P :
  inv Γ D s → operand_ok to_i32 (limits_at s) i →
  match op i with
  | Jump => awaits (here_shape Γ) = Ready
  | Return => may_return (here_shape Γ)
  | _ => next i (here_shape Γ) = Some sh
  end →
  (P = opens Γ ∧ (∀ sh', jump_shape i (here_shape Γ) = Some sh' → resolved D s i sh') ∨
   ∃ sh', jump_shape i (here_shape Γ) = Some sh' ∧ P = (here s, sh') :: opens Γ) →
  inv (mkCtx (facts Γ) P (loops Γ) (scopes Γ) sh) (upd D (S (here s)) sh) (emitted i s).
Proof.
  intros H Ho Hnext HP. pose proof (emitted_follows D s i sh) as Hf. pose proof (inv_lo _ _ _ H) as Hlo.
  destruct H as [Hpre Hhere Hcode Hopens Hloops Hfacts Hsc Hn Hdone].
  assert (upd D (S (here s)) sh (here s) = here_shape Γ) as HD.
  { unfold upd. by rewrite bool_decide_eq_false_2 by lia. }
  assert (upd D (S (here s)) sh (S (here s)) = sh) as HD'.
  { unfold upd. by rewrite bool_decide_eq_true_2. }
  assert (Forall (λ '(j, sh0), jump_at (upd D (S (here s)) sh) (emitted i s) j sh0) (opens Γ)) as Hopens'.
  { eapply Forall_impl; [done|]. intros [j sh0]. by apply jump_at_follows. }
  split; cbn [opens loops here_shape facts scopes]; try done.
  - eapply prefix_app_r. done.
  - by rewrite here_emitted.
  - intros k j Hk Hj. cbn in Hj. apply lookup_snoc_Some in Hj as [[Hlt Hj]|[-> <-]].
    + eapply instr_ok_follows; [done..| |by apply Hcode]. unfold pending. cbn.
      destruct HP as [[-> _]|(sh' & _ & ->)]; [done|]. cbn. intros Hin. by apply list_elem_of_further.
    + fold (here s). split_and!; [done| |].
      * unfold flows. rewrite HD, HD'. destruct (op i); done.
      * rewrite HD. intros sh' Hsh'. destruct HP as [[_ Hres]|(sh'' & Hsh'' & ->)].
        -- right. eapply resolved_follows; [done|]. by apply Hres.
        -- left. unfold pending. cbn. apply list_elem_of_here.
  - destruct HP as [[-> _]|(sh' & Hsh' & ->)]; [done|]. constructor; [|done].
    split; [done|]. exists i. rewrite HD. split; [|done]. cbn. apply list_lookup_middle. done.
  - eapply Forall2_impl; [done|]. intros l f. by apply loop_ok_follows.
  - eapply Forall_impl; [done|]. intros f. by apply fact_ok_follows.
  - destruct Hn. by split.
Qed.

(** An operand that refers to something known. *)
Definition operand_known (F : list fact) (i : Instruction) : Prop :=
  match op i with
  | PushConst | PushSymbol | Call | CallEfun | CallParent | PushClosure | PushEfunClosure => IsString (operand i) ∈ F
  | CallParentQualifierSlot => operand i = (-1)%Z ∨ IsString (operand i) ∈ F
  | PushFloat => IsFloat (operand i) ∈ F
  | PushLocal | StoreLocal => IsVar (mkResolved Local (operand i)) ∈ F
  | PushObjectVar | StoreObjectVar => IsVar (mkResolved ObjectVar (operand i)) ∈ F
  | SscanfVarSlot =>
      IsVar (mkResolved (if bool_decide (argCount i = 0%Z) then Local else ObjectVar) (operand i)) ∈ F
  | _ => True
  end.

Lemma inv_fact Γ D s f : inv Γ D s → f ∈ facts Γ → fact_ok D s f.
Proof. intros H Hf. pose proof (inv_facts _ _ _ H) as HF. rewrite Forall_forall in HF. by apply HF. Qed.

Lemma operand_known_ok Γ D s i : inv Γ D s → operand_known (facts Γ) i → operand_ok to_i32 (limits_at s) i.
Proof.
  intros H. unfold operand_known, operand_ok.
  destruct (op i); try case_if; try done; try (intros Hin; exact (inv_fact _ _ _ _ H Hin)).
  intros [?|Hin]; [by left|right; exact (inv_fact _ _ _ _ H Hin)].
Qed.

Definition straight (o : OpCode) : bool :=
  match o with Jump | JumpIfFalse | PushCatchFrame | Return => false | _ => true end.

Lemma triple_emit F P ds q sh sh' o x y :
  straight o = true → operand_known F (mkInstr o x y) → next (mkInstr o x y) sh = Some sh' →
  triple (mkCtx F P ds q sh) (emit o x y) (λ _, mkCtx F P ds q sh').
Proof.
  intros Ho Hk Hn D s H. exists (upd D (S (here s)) sh').
  eapply (emit_inv _ _ _ (mkInstr o x y) sh' P H); [by eapply operand_known_ok| |left]; cbn.
  - by destruct o.
  - split; [done|]. by destruct o.
Qed.

(** After a return nothing is known of the shape. *)
Lemma triple_return F P ds q sh sh' :
  may_return sh → triple (mkCtx F P ds q sh) (emit Return 0 0) (λ _, mkCtx F P ds q sh').
Proof.
  intros Hr D s H. exists (upd D (S (here s)) sh').
  eapply (emit_inv _ _ _ (mkInstr Return 0 0) sh' P H); [done..|left; done].
Qed.

Definition jumping (o : OpCode) : bool :=
  match o with Jump | JumpIfFalse | PushCatchFrame => true | _ => false end.

Lemma triple_placeholder F P ds q sh sh' t o :
  jump_shape (mkInstr o (-1) 0) sh = Some t →
  (o = Jump ∧ awaits sh = Ready ∨ next (mkInstr o (-1) 0) sh = Some sh') →
  triple (mkCtx F P ds q sh) (emitJumpPlaceholder o) (λ j, mkCtx F ((j, t) :: P) ds q sh').
Proof.
  intros Ht Hn D s H. exists (upd D (S (here s)) sh').
  eapply (emit_inv _ _ _ (mkInstr o (-1) 0) sh' ((here s, t) :: P) H); cbn.
  - by destruct o.
  - destruct Hn as [[-> Hw]|Hn]; [done|by destruct o].
  - right. eauto.
Qed.

Lemma triple_jump_back F P ds q sh sh' t :
  At t sh ∈ F → awaits sh = Ready → triple (mkCtx F P ds q sh) (emit_jump_back t) (λ _, mkCtx F P ds q sh').
Proof.
  intros Ht Hw D s H. exists (upd D (S (here s)) sh').
  eapply (emit_inv _ _ _ (mkInstr Jump (to_i32 (Z.of_nat t)) 0) sh' P H); cbn; [done..|left].
  split; [done|]. intros ? [= <-]. destruct (inv_fact _ _ _ _ H Ht) as [Hlt HD]. exists t.
  split_and!; try done; try apply Hlt. rewrite HD. destruct sh as [a c d w]. cbn in Hw. by rewrite Hw.
Qed.

(** *** Patches *)

Definition patched (j : nat) (i : Instruction) (t : nat) (s : cg) : cg :=
  s <| out := (out s) <| prog_code :=
    <[j := i <| operand := to_i32 (Z.of_nat t) |>]> (prog_code (out s)) |> |>.

Lemma here_patched j i t s : here (patched j i t s) = here s.
Proof. apply length_insert. Qed.

Lemma patched_follows D s j i t : prog_code (out s) !! j = Some i → follows D s D (patched j i t s).
Proof.
  intros Hj. split; [done|by rewrite here_patched| |unfold limits_le; simpl; lia].
  intros k x Hx. cbn. destruct (decide (k = j)) as [->|Hne].
  - rewrite list_lookup_insert_eq by (by eapply lookup_lt_Some). rewrite Hj in Hx. injection Hx as <-. by eexists.
  - rewrite list_lookup_insert_ne by done. eauto.
Qed.

Lemma jump_shape_cases i sh sh' :
  jump_shape i sh = Some sh' →
  ∀ z, let i' := i <| operand := z |> in
  (∀ L, operand_ok to_i32 L i') ∧ next i' sh = next i sh ∧ op i' = op i.
Proof.
  unfold jump_shape, operand_ok, next, effect, mode_after, after, counts_ok. intros H z. cbn.
  by destruct (op i), (awaits sh).
Qed.

Lemma patch_inv Γ D s P1 j sh P2 t :
  inv Γ D s → opens Γ = P1 ++ (j, sh) :: P2 → lo ≤ t ≤ here s → D t = sh →
  ∃ i, prog_code (out s) !! j = Some i ∧
       inv (mkCtx (facts Γ) (P1 ++ P2) (loops Γ) (scopes Γ) (here_shape Γ)) D (patched j i t s).
Proof.
  intros [Hpre Hhere Hcode Hopens Hloops Hfacts Hsc Hn Hdone] HP Ht HD. rewrite HP in Hopens.
  assert (jump_at D s j sh) as (Hj & i & Hi & Hsh).
  { rewrite Forall_app, Forall_cons in Hopens. apply Hopens. }
  pose proof (patched_follows D s j i t Hi) as Hf. exists i. split; [done|].
  assert (Forall (λ '(k, sh0), jump_at D (patched j i t s) k sh0) (P1 ++ P2)) as Hopens'.
  { rewrite Forall_app, Forall_cons in Hopens. destruct Hopens as (H1 & _ & H2).
    apply Forall_app. split; (eapply Forall_impl; [eassumption|]); intros [k sh0]; by apply jump_at_follows. }
  split; cbn [opens loops here_shape facts scopes]; try done.
  - cbn. destruct Hpre as [seg ->]. rewrite insert_app_r_alt by exact Hj. by eexists.
  - by rewrite here_patched.
  - intros k x Hk Hx. cbn in Hx. destruct (decide (k = j)) as [->|Hne].
    + rewrite list_lookup_insert_eq in Hx by (by eapply lookup_lt_Some). injection Hx as <-.
      destruct (Hcode j i Hj Hi) as (Ho & Hfl & Hjmp).
      destruct (jump_shape_cases i _ _ Hsh (to_i32 (Z.of_nat t))) as (Ho' & Hn' & Hop).
      split_and!; [apply Ho'| |].
      * unfold flows in *. cbn in *. by rewrite Hn'.
      * intros sh0. rewrite (jump_shape_op i) by done. rewrite Hsh. intros [= <-]. right. exists t.
        by rewrite here_patched.
    + rewrite list_lookup_insert_ne in Hx by done.
      eapply instr_ok_follows; [done|by eapply lookup_here| |by apply Hcode].
      unfold pending. cbn. rewrite HP, !fmap_app, !elem_of_app, fmap_cons, elem_of_cons. naive_solver.
  - eapply Forall2_impl; [done|]. intros l f. by apply loop_ok_follows.
  - eapply Forall_impl; [done|]. intros f. by apply fact_ok_follows.
  - destruct Hn. by split.
Qed.

Lemma patchJumpTo_inv Γ D s P1 j sh P2 t :
  inv Γ D s → opens Γ = P1 ++ (j, sh) :: P2 → lo ≤ t ≤ here s → D t = sh →
  kept (λ _ s', ∃ D', inv (mkCtx (facts Γ) (P1 ++ P2) (loops Γ) (scopes Γ) (here_shape Γ)) D' s')
    (patchJumpTo j t s).
Proof.
  intros H HP Ht HD. destruct (patch_inv _ _ _ _ _ _ _ _ H HP Ht HD) as (i & Hi & H').
  unfold patchJumpTo. rewrite Hi. cbn. by exists D.
Qed.

Lemma triple_patch P1 F P2 ds q sh j :
  triple (mkCtx F (P1 ++ (j, sh) :: P2) ds q sh) (patchJumpToHere j) (λ _, mkCtx F (P1 ++ P2) ds q sh).
Proof.
  intros D s H. eapply (patchJumpTo_inv _ D s P1 j sh P2 (here s) H); [done| |apply (inv_here _ _ _ H)].
  pose proof (inv_lo _ _ _ H). lia.
Qed.

Definition pairs (sh : shape) (js : list nat) : list (nat * shape) := map (λ j, (j, sh)) js.

Lemma triple_patchAll F js P ds q sh sh0 t :
  At t sh ∈ F → triple (mkCtx F (pairs sh js ++ P) ds q sh0) (patchAll t js) (λ _, mkCtx F P ds q sh0).
Proof.
  intros Ht. induction js as [|j js IH]; [by apply triple_ret|].
  apply triple_bind with (λ _, mkCtx F (pairs sh js ++ P) ds q sh0); [|done].
  intros D s H. destruct (inv_fact _ _ _ _ H Ht) as [Hlt HD].
  by eapply (patchJumpTo_inv _ D s [] j sh _ t H).
Qed.

Lemma triple_patchAllHere F js P ds q sh :
  triple (mkCtx F (pairs sh js ++ P) ds q sh) (patchAllHere js) (λ _, mkCtx F P ds q sh).
Proof.
  induction js as [|j js IH]; [by apply triple_ret|].
  apply triple_bind with (λ _, mkCtx F (pairs sh js ++ P) ds q sh); [|done].
  apply (triple_patch []).
Qed.

(** *** Names and scopes *)

Lemma triple_here F P ds q sh :
  triple (mkCtx F P ds q sh) (gets here) (λ t, mkCtx (At t sh :: F) P ds q sh).
Proof.
  intros D s H. exists D. pose proof (inv_lo _ _ _ H) as Hlo.
  destruct H. split; try done. cbn [facts] in *. constructor; [|done].
  split; [lia|]. done.
Qed.

(** A step that changes neither the code nor what is known but for [F']. *)
Lemma triple_quiet {A} (f : M cg A) F P ds q sh (F' : A → list fact) q' :
  (∀ s, names_ok s → length (localScopeStack_ s) = q →
     kept (λ a s', quiet s s' ∧ names_ok s' ∧ length (localScopeStack_ s') = q' ∧
                   ∀ D, Forall (fact_ok D s') (F' a)) (f s)) →
  triple (mkCtx F P ds q sh) f (λ a, mkCtx (F' a ++ F) P ds q' sh).
Proof.
  intros Hq D s H. specialize (Hq s (inv_names _ _ _ H) (inv_scopes _ _ _ H)).
  destruct (f s) as [[a|e| |] s']; cbn in *; try done. destruct Hq as (Hq & Hn & Hsc & HF).
  exists D. eapply (inv_quiet (mkCtx F P ds q sh)); try done. apply Forall_app. split; [done|].
  eapply Forall_impl; [apply (inv_facts _ _ _ H)|]. intros fa. eapply fact_ok_follows. by apply quiet_follows.
Qed.

Lemma quiet_refl s : quiet s s.
Proof. by split. Qed.

Lemma triple_gets {A} (f : cg → A) F P ds q sh :
  triple (mkCtx F P ds q sh) (gets f) (λ _, mkCtx F P ds q sh).
Proof. apply (triple_quiet _ _ _ _ _ _ (λ _, [])). intros s Hn Hq. split_and!; eauto using quiet_refl. Qed.

(** What is read of the state can be used where it is known. *)
Lemma triple_gets_bind {A B} (f : cg → A) (k : A → M cg B) Γ Γ' :
  (∀ s, names_ok s → triple Γ (k (f s)) Γ') → triple Γ (bind (gets f) k) Γ'.
Proof. intros H D s Hs. exact (H s (inv_names _ _ _ Hs) D s Hs). Qed.

Lemma position_lt {A} (p : A → bool) l i : position p l = Some i → i < length l.
Proof.
  revert i. induction l as [|x l IH]; intros i; [done|]. simpl. destruct (p x); [intros [= <-]; lia|].
  destruct (position p l) as [j|]; intros [= <-]. specialize (IH j eq_refl). lia.
Qed.

Lemma intern_spec {A} same (x : A) pool i pool' :
  intern same x pool = (i, pool') → cast_of i (length pool') ∧ length pool ≤ length pool'.
Proof.
  unfold intern. destruct (position _ _) as [j|] eqn:E; intros [= <- <-].
  - split; [|done]. exists j. split; [by eapply position_lt|done].
  - rewrite length_app. split; [|lia]. exists (length pool). split; [simpl; lia|done].
Qed.

Lemma triple_internString x F P ds q sh :
  triple (mkCtx F P ds q sh) (internString x) (λ z, mkCtx (IsString z :: F) P ds q sh).
Proof.
  apply (triple_quiet _ _ _ _ _ _ (λ z, [IsString z])). intros s Hn Hq. unfold internString.
  destruct (intern _ _ _) as [i pool] eqn:E. apply intern_spec in E as [Hi Hl]. cbn.
  split_and!; [|destruct Hn; by split|done|intros D; by apply Forall_singleton].
  split; try done; unfold limits_le; simpl; lia.
Qed.

Lemma triple_internFloat x F P ds q sh :
  triple (mkCtx F P ds q sh) (internFloat x) (λ z, mkCtx (IsFloat z :: F) P ds q sh).
Proof.
  apply (triple_quiet _ _ _ _ _ _ (λ z, [IsFloat z])). intros s Hn Hq. unfold internFloat.
  destruct (intern _ _ _) as [i pool] eqn:E. apply intern_spec in E as [Hi Hl]. cbn.
  split_and!; [|destruct Hn; by split|done|intros D; by apply Forall_singleton].
  split; try done; unfold limits_le; simpl; lia.
Qed.

Lemma triple_resolveVariable x F P ds q sh :
  triple (mkCtx F P ds q sh) (resolveVariable x) (λ v, mkCtx (IsVar v :: F) P ds q sh).
Proof.
  apply (triple_quiet _ _ _ _ _ _ (λ v, [IsVar v])). intros s Hn Hq. unfold resolveVariable.
  destruct (locals_ s !! x) as [z|] eqn:E; [|destruct (objectVars_ s !! x) as [z|] eqn:E2; [|done]];
    (split_and!; [apply quiet_refl|done..|]); intros D; apply Forall_singleton.
  - exact (locals_ok _ Hn x z E).
  - exact (objectVars_ok _ Hn x z E2).
Qed.

Lemma triple_resolveClassMemberIndex c x F P ds q sh :
  triple (mkCtx F P ds q sh) (resolveClassMemberIndex c x) (λ _, mkCtx F P ds q sh).
Proof.
  apply (triple_quiet _ _ _ _ _ _ (λ _, [])). intros s Hn Hq. unfold resolveClassMemberIndex.
  destruct (classDefs_ s !! c); [|done]. destruct (position _ _); [|done]. split_and!; eauto using quiet_refl.
Qed.

(** Only the fields that [names_ok] does not speak of. *)
Lemma triple_counter (f : M cg Z) (g : cg → Z) (h : cg → cg) F P ds q sh :
  (∀ s, f s = (Ok (g s), h s)) →
  (∀ s, quiet s (h s) ∧ (names_ok s → names_ok (h s)) ∧ localScopeStack_ (h s) = localScopeStack_ s) →
  triple (mkCtx F P ds q sh) f (λ _, mkCtx F P ds q sh).
Proof.
  intros Hf Hh. apply (triple_quiet _ _ _ _ _ _ (λ _, [])). intros s Hn Hq. rewrite Hf.
  destruct (Hh s) as (? & ? & Hl). cbn. rewrite Hl. split_and!; [done|auto|done|constructor].
Qed.

Ltac counter :=
  eapply triple_counter; [done|]; intros s; split_and!;
  [split; try done; unfold limits_le; simpl; lia|intros []; by split|done].

Lemma triple_next_indexAssign F P ds q sh :
  triple (mkCtx F P ds q sh) next_indexAssign (λ _, mkCtx F P ds q sh).
Proof. counter. Qed.
Lemma triple_next_foreach F P ds q sh :
  triple (mkCtx F P ds q sh) next_foreach (λ _, mkCtx F P ds q sh).
Proof. counter. Qed.
Lemma triple_next_switch F P ds q sh :
  triple (mkCtx F P ds q sh) next_switch (λ _, mkCtx F P ds q sh).
Proof. counter. Qed.

(** *** Local variables *)

Lemma names_ok_slots s z : (nextLocalSlot_ s ≤ z < 2 ^ 31)%Z → names_ok s → names_ok (s <| nextLocalSlot_ := z |>).
Proof.
  intros Hz []. split; try done; cbn in *; [|lia].
  eapply map_Forall_impl; [done|]. intros x y. cbn. lia.
Qed.

Lemma triple_next_slot F P ds q sh :
  triple (mkCtx F P ds q sh) next_slot (λ z, mkCtx (IsVar (mkResolved Local z) :: F) P ds q sh).
Proof.
  apply (triple_quiet _ _ _ _ _ _ (λ z, [IsVar (mkResolved Local z)])). intros s Hn Hq.
  pose proof (slots_ok _ Hn) as Hs. unfold next_slot, add_int, in_i32.
  destruct (_ && _)%bool eqn:E.
  - prop_tests. cbn. split_and!; [|apply names_ok_slots; [lia|done]|done|intros D; apply Forall_singleton; cbn; lia].
    split; try done; unfold limits_le; simpl; lia.
  - cbn. apply andb_false_iff in E as [E|E]; [apply Z.leb_gt in E|apply Z.ltb_ge in E]; lia.
Qed.

Lemma names_ok_bind_local x t z s : (0 ≤ z < nextLocalSlot_ s)%Z → names_ok s → names_ok (bind_local x t z s).
Proof.
  intros Hz []. unfold bind_local. destruct (class_of_type t); cbn; destruct (localScopeStack_ s);
    (split; try done; cbn; by apply map_Forall_insert_2).
Qed.

Lemma triple_bind_local x t z F P ds q sh :
  IsVar (mkResolved Local z) ∈ F →
  triple (mkCtx F P ds q sh) (modify (bind_local x t z)) (λ _, mkCtx F P ds q sh).
Proof.
  intros Hin D s H. pose proof (inv_fact _ _ _ _ H Hin) as Hz. exists D.
  assert (quiet s (bind_local x t z s) ∧
          length (localScopeStack_ (bind_local x t z s)) = length (localScopeStack_ s)) as [Hq Hl].
  { unfold bind_local. destruct (class_of_type t); cbn; destruct (localScopeStack_ s); (split; [|done]);
      (split; try done; unfold limits_le; simpl; lia). }
  eapply (inv_quiet (mkCtx F P ds q sh)); try done.
  - apply names_ok_bind_local; [done|apply H].
  - rewrite Hl. apply (inv_scopes _ _ _ H).
  - eapply Forall_impl; [apply (inv_facts _ _ _ H)|]. intros f. eapply fact_ok_follows. by apply quiet_follows.
Qed.

Lemma triple_declareLocal x t F P ds q sh :
  triple (mkCtx F P ds q sh) (declareLocal x t) (λ z, mkCtx (IsVar (mkResolved Local z) :: F) P ds q sh).
Proof.
  unfold declareLocal. case_if; [apply triple_next_slot|].
  eapply triple_bind; [apply triple_gets|]. intros ls. cbn beta. case_if; [apply triple_error|].
  eapply triple_bind; [apply triple_next_slot|]. intros z.
  eapply triple_bind; [apply triple_bind_local, list_elem_of_here|]. intros []. by apply triple_ret.
Qed.

Lemma triple_hidden_local x F P ds q sh :
  triple (mkCtx F P ds q sh) (hidden_local x) (λ z, mkCtx (IsVar (mkResolved Local z) :: F) P ds q sh).
Proof. eapply triple_bind; [apply triple_next_indexAssign|]. intros z. apply triple_declareLocal. Qed.

Lemma triple_openScope F P ds q sh :
  triple (mkCtx F P ds q sh) openScope (λ _, mkCtx F P ds (S q) sh).
Proof.
  apply (triple_quiet _ _ _ _ _ _ (λ _, [])). intros s Hn Hq. cbn.
  split_and!; [split; try done; unfold limits_le; simpl; lia|destruct Hn; by split|by rewrite Hq|constructor].
Qed.

Lemma map_Forall_deletes {A} (p : bytes → A → Prop) (names : list bytes) (mp : gmap bytes A) :
  map_Forall p mp → map_Forall p (foldl (λ mp x, delete x mp) mp names).
Proof.
  revert mp. induction names as [|x names IH]; intros mp H; [done|]. apply IH. by apply map_Forall_delete.
Qed.

Lemma triple_closeScope F P ds q sh :
  triple (mkCtx F P ds (S q) sh) closeScope (λ _, mkCtx F P ds q sh).
Proof.
  apply (triple_quiet _ _ _ _ _ _ (λ _, [])). intros s Hn Hq. unfold closeScope.
  destruct (localScopeStack_ s) as [|names scopes] eqn:E; [done|]. cbn.
  split_and!; [split; try done; unfold limits_le; simpl; lia| |by injection Hq|constructor].
  destruct Hn. split; try done. cbn. by apply map_Forall_deletes.
Qed.

(** *** Loops *)

(** Open jumps change hands between [opens] and the loops. *)
Lemma inv_reopen Γ D s ls P ds :
  inv Γ D s → let s' := s <| loopStack_ := ls |> in
  (∀ k, k ∈ pending Γ s → k ∈ P.*1 ++ concat (map loop_pending ls)) →
  Forall (λ '(j, sh), jump_at D s j sh) P → Forall2 (loop_ok D s) ls ds →
  inv (mkCtx (facts Γ) P ds (scopes Γ) (here_shape Γ)) D s'.
Proof.
  intros [Hpre Hhere Hcode Hopens Hloops Hfacts Hsc Hn Hdone] s' Hpend HP Hds.
  split; cbn [opens loops here_shape facts scopes]; try done.
  - intros k i Hk Hi. destruct (Hcode k i Hk Hi) as (Ho & Hf & Hj). split_and!; [done..|].
    intros sh Hsh. destruct (Hj sh Hsh); [left; by apply Hpend|by right].
  - destruct Hn. by split.
Qed.

Lemma triple_openLoop sw F P ds q sh :
  triple (mkCtx F P ds q sh) (openLoop sw) (λ _, mkCtx F P ((sw, sh) :: ds) q sh).
Proof.
  intros D s H. exists D. eapply (inv_reopen _ D s (mkLoop [] [] sw :: loopStack_ s) P ((sw, sh) :: ds) H).
  - done.
  - apply (inv_opens _ _ _ H).
  - constructor; [|apply (inv_loops _ _ _ H)]. by split_and!.
Qed.

Lemma pairs_fst sh js : (pairs sh js).*1 = js.
Proof. unfold pairs. induction js; cbn; congruence. Qed.

Lemma pairs_jump_at D s sh js :
  Forall (λ j, jump_at D s j sh) js → Forall (λ '(j, sh0), jump_at D s j sh0) (pairs sh js).
Proof. induction 1; by constructor. Qed.

Lemma closeLoop_inv F P sw sh0 ds q sh D s :
  inv (mkCtx F P ((sw, sh0) :: ds) q sh) D s →
  ∃ l ls, loopStack_ s = l :: ls ∧ isSwitch l = sw ∧ (sw = true → continueJumps l = []) ∧
    inv (mkCtx F (pairs sh0 (continueJumps l) ++ pairs sh0 (breakJumps l) ++ P) ds q sh) D (s <| loopStack_ := ls |>).
Proof.
  intros H. pose proof (inv_loops _ _ _ H) as Hl. cbn [loops] in Hl.
  inversion Hl as [|l ? ls ? Hok Hls Hs]; subst. destruct Hok as (Hsw & Hc & Hp). cbn in Hsw. rewrite Hsw in Hc. exists l, ls.
  split_and!; [done|done|done|].
  eapply (inv_reopen _ D s _ _ _ H); cbn [opens loops]; [|rewrite !Forall_app; split_and!|done].
  - intros k. unfold pending. rewrite <- Hs. cbn. unfold loop_pending.
    rewrite !fmap_app, !pairs_fst, !elem_of_app. tauto.
  - apply pairs_jump_at. by apply Forall_app in Hp as [? ?].
  - apply pairs_jump_at. by apply Forall_app in Hp as [? ?].
  - apply (inv_opens _ _ _ H).
Qed.

Lemma triple_closeLoop F P sh0 ds q sh sw :
  triple (mkCtx F P ((sw, sh0) :: ds) q sh) closeLoop
    (λ l, mkCtx F (pairs sh0 (continueJumps l) ++ pairs sh0 (breakJumps l) ++ P) ds q sh).
Proof.
  intros D s H. destruct (closeLoop_inv _ _ _ _ _ _ _ _ _ H) as (l & ls & Hs & _ & _ & H').
  unfold closeLoop. rewrite Hs. by exists D.
Qed.

Lemma triple_closeSwitch F P sh0 ds q sh :
  triple (mkCtx F P ((true, sh0) :: ds) q sh) closeLoop (λ l, mkCtx F (pairs sh0 (breakJumps l) ++ P) ds q sh).
Proof.
  intros D s H. destruct (closeLoop_inv _ _ _ _ _ _ _ _ _ H) as (l & ls & Hs & _ & Hc & H').
  unfold closeLoop. rewrite Hs. rewrite Hc in H' by done. by exists D.
Qed.

Lemma jump_ready x y sh : awaits sh = Ready → jump_shape (mkInstr Jump x y) sh = Some sh.
Proof. destruct sh as [a c t w]. cbn. by intros ->. Qed.

Lemma triple_break F P sw ds q sh sh' :
  awaits sh = Ready → triple (mkCtx F P ((sw, sh) :: ds) q sh) emitBreakStmt (λ _, mkCtx F P ((sw, sh) :: ds) q sh').
Proof.
  intros Hw D s H. destruct (closeLoop_inv _ _ _ _ _ _ _ _ _ H) as (l & ls & Hs & Hsw & Hc & _).
  destruct (triple_placeholder F P ((sw, sh) :: ds) q sh sh' sh Jump (jump_ready _ _ _ Hw)
    (or_introl (conj eq_refl Hw)) D s H) as [D' H'].
  unfold emitBreakStmt. rewrite Hs. cbn. exists D'. cbn in H'.
  eapply (inv_reopen _ D' _ _ P ((sw, sh) :: ds) H').
  - intros k. unfold pending. cbn. rewrite Hs. cbn. unfold loop_pending. cbn.
    rewrite !elem_of_app, elem_of_cons, !elem_of_app. set_solver.
  - pose proof (inv_opens _ _ _ H') as Ho. by inversion Ho.
  - pose proof (inv_loops _ _ _ H') as Hl. cbn in Hl. rewrite Hs in Hl.
    inversion Hl as [|? ? ? ? (Hsw' & Hc' & Hp) Hls]; subst. constructor; [|done]. split_and!; [done|done|].
    unfold loop_pending. cbn. rewrite app_assoc, Forall_app, Forall_singleton. split; [done|].
    pose proof (inv_opens _ _ _ H') as Ho. by inversion Ho.
Qed.

(** The shape around the innermost loop that is not a switch. *)
Fixpoint loop_shape (ds : list (bool * shape)) : option shape :=
  match ds with
  | [] => None
  | (true, _) :: ds => loop_shape ds
  | (false, sh) :: _ => Some sh
  end.

Lemma add_continue_ok D s j sh ls ds ls' :
  Forall2 (loop_ok D s) ls ds → loop_shape ds = Some sh → add_continue j ls = Some ls' → jump_at D s j sh →
  Forall2 (loop_ok D s) ls' ds ∧ ∀ k, k ∈ j :: concat (map loop_pending ls) ↔ k ∈ concat (map loop_pending ls').
Proof.
  intros Hls. revert ls'. induction Hls as [|l [sw sh0] ls ds (Hsw & Hc & Hp) Hls IH]; intros ls' Hsh Hadd Hj; [done|].
  cbn in *. rewrite Hsw in Hadd. destruct sw.
  - destruct (add_continue j ls) as [ls2|]; [|done]. injection Hadd as <-.
    destruct (IH ls2 Hsh eq_refl Hj) as [IH1 IH2]. split; [by constructor|].
    intros k. specialize (IH2 k). cbn. rewrite elem_of_cons, !elem_of_app in *. tauto.
  - injection Hadd as <-. injection Hsh as ->. split.
    + constructor; [|done]. split_and!; [done|cbn in *; congruence|]. unfold loop_pending in *. cbn in *.
      rewrite !Forall_app, Forall_singleton in *. tauto.
    + intros k. unfold loop_pending. cbn. rewrite elem_of_cons, !elem_of_app, list_elem_of_singleton. tauto.
Qed.

Lemma triple_continue F P ds q sh sh' :
  awaits sh = Ready → loop_shape ds = Some sh → triple (mkCtx F P ds q sh) emitContinueStmt (λ _, mkCtx F P ds q sh').
Proof.
  intros Hw Hsh D s H.
  destruct (triple_placeholder F P ds q sh sh' sh Jump (jump_ready _ _ _ Hw)
    (or_introl (conj eq_refl Hw)) D s H) as [D' H'].
  unfold emitContinueStmt. destruct (add_continue (here s) (loopStack_ s)) as [ls'|] eqn:E; [|done].
  cbn. exists D'. cbn in H'. pose proof (inv_opens _ _ _ H') as Ho. inversion Ho as [|? ? Hj Ho']; subst.
  destruct (add_continue_ok D' _ _ _ _ _ _ (inv_loops _ _ _ H') Hsh E Hj) as [Hls Hk].
  eapply (inv_reopen _ D' _ _ P ds H'); [|done|done].
  intros k. specialize (Hk k). unfold pending. cbn in *. rewrite elem_of_app, elem_of_cons, !elem_of_app in *.
  tauto.
Qed.

(** *** Lambdas *)

Lemma triple_queue (f : cg → cg) F P ds q sh :
  (∀ s, quiet s (f s) ∧ (names_ok s → names_ok (f s)) ∧ localScopeStack_ (f s) = localScopeStack_ s) →
  triple (mkCtx F P ds q sh) (modify f) (λ _, mkCtx F P ds q sh).
Proof.
  intros Hf. apply (triple_quiet _ _ _ _ _ _ (λ _, [])). intros s Hn Hq.
  destruct (Hf s) as (? & ? & Hl). cbn. rewrite Hl. split_and!; [done|auto|done|constructor].
Qed.

Lemma triple_queue_lambda p i F P ds q sh :
  lambda_ok p →
  triple (mkCtx F P ds q sh) (modify (λ s, s <| nextLambdaId_ := i |> <| pendingLambdas_ ::= (.++ [p]) |>))
    (λ _, mkCtx F P ds q sh).
Proof.
  intros Hp. apply triple_queue. intros s. split_and!; [split; try done; unfold limits_le; simpl; lia| |done].
  intros []. split; try done. cbn. apply Forall_app. split; [done|by constructor].
Qed.

Lemma triple_queue_anon p i F P ds q sh :
  anon_ok p →
  triple (mkCtx F P ds q sh) (modify (λ s, s <| nextAnonFuncId_ := i |> <| pendingAnonFuncs_ ::= (.++ [p]) |>))
    (λ _, mkCtx F P ds q sh).
Proof.
  intros Hp. apply triple_queue. intros s. split_and!; [split; try done; unfold limits_le; simpl; lia| |done].
  intros []. split; try done. cbn. apply Forall_app. split; [done|by constructor].
Qed.

(** *** Consequence *)

Lemma inv_forget F F' P ds q sh D s : F ⊆ F' → inv (mkCtx F' P ds q sh) D s → inv (mkCtx F P ds q sh) D s.
Proof.
  intros HF []. split; try done. cbn in *. rewrite Forall_forall in *. intros f Hf. by apply inv_facts0, HF.
Qed.

Lemma triple_forget {A} Γ (f : M cg A) F F' P ds q sh :
  triple Γ f (λ _, mkCtx F' P ds q sh) → F ⊆ F' → triple Γ f (λ _, mkCtx F P ds q sh).
Proof. intros Hf HF. eapply triple_conseq; [done|]. intros a D s. by apply inv_forget. Qed.

Lemma triple_done {A} (a : A) F F' P ds q sh :
  F ⊆ F' → triple (mkCtx F' P ds q sh) (ret a) (λ _, mkCtx F P ds q sh).
Proof. intros HF. eapply triple_forget; [by apply triple_ret|done]. Qed.

(** A parameter is one of the slots kept for the lambda. *)
Lemma triple_lambda_param i isBound F P ds q a c t :
  (0 ≤ i < (if isBound : bool then m else n))%Z →
  triple (mkCtx F P ds q (mkShape a c t)) (emitLambdaParam i isBound) (λ _, mkCtx F P ds q (mkShape (S a) c t)).
Proof.
  intros Hi D s H. pose proof (inv_names _ _ _ H) as Hn. pose proof (slots_ok _ Hn) as Hs.
  set (z := if isBound then i else (i + m)%Z).
  assert ((if isBound then Ok i else add_int i (to_i32 (Z.of_nat (currentLambdaBoundValueCount_ s)))) = Ok z) as Hz.
  { destruct isBound; [done|]. rewrite (count_ok _ Hn) by lia. rewrite to_i32_small by lia.
    unfold add_int, in_i32. unfold z. rewrite (proj2 (Z.leb_le _ _)), (proj2 (Z.ltb_lt _ _)) by lia. done. }
  assert (fact_ok D s (IsVar (mkResolved Local z))) as Hok by (cbn; unfold z; destruct isBound; lia).
  assert (inv (mkCtx (IsVar (mkResolved Local z) :: F) P ds q (mkShape a c t)) D s) as H'.
  { destruct H. split; try done. by constructor. }
  unfold emitLambdaParam, bind, gets, lift. rewrite Hz.
  assert (triple (mkCtx (IsVar (mkResolved Local z) :: F) P ds q (mkShape a c t)) (emit PushLocal z 0)
            (λ _, mkCtx F P ds q (mkShape (S a) c t))) as Ht.
  { eapply triple_forget; [apply triple_emit; [done|apply list_elem_of_here|done]|]. intros f. by constructor. }
  exact (Ht D s H').
Qed.

Lemma inv_perm F P P' ds q sh D s :
  P ≡ₚ P' → inv (mkCtx F P' ds q sh) D s → inv (mkCtx F P ds q sh) D s.
Proof.
  intros HP []. split; try done.
  - intros k i Hk Hi. destruct (inv_code0 k i Hk Hi) as (Ho & Hfl & Hj). split_and!; [done..|].
    intros sh' Hsh'. destruct (Hj sh' Hsh') as [Hin|]; [left|by right]. unfold pending in *. cbn in *.
    by rewrite HP.
  - cbn in *. by rewrite HP.
Qed.
End Logic.
