(* ===== verification/CodeGenRules.v ===== *)
(** * The rules of the code generator

    One rule for each member function that emits an expression, which pushes
    one value, or a statement, which leaves the stacks as they are. *)

From S2P Require Import Prelude Doubles Ast Bytecode CodeGen Verified CodeGenLogic.
Open Scope nat_scope.

(** ** Induction on trees *)

Definition opt_list {A} (o : option A) : list A := match o with Some x => [x] | None => [] end.

(** The parts of an output of [sscanf], of a statement of a switch. *)
Definition target_parts (o : option ast) : list ast :=
  match o with Some (IndexExpr x y _ _ _ u) => x :: y :: opt_list u | _ => [] end.
Definition case_parts (e : ast) : list ast :=
  e :: match e with CaseLabel x y => opt_list x ++ opt_list y | _ => [] end.

(** The trees that are compiled as a part of a tree. *)
Definition children (e : ast) : list ast :=
  match e with
  | BinaryExpr _ x y | CommaExpr x y | WhileStmt x y | DoWhileStmt x y => [x; y]
  | UnaryExpr _ x | CatchExpr x | TypeCastExpr _ x | AssignExpr _ x _ _ | ExprStmt x | AssignStmt _ x
  | TimeExpressionExpr x | AnonFunctionExpr _ _ x => [x]
  | TernaryExpr x y z => [x; y; z]
  | CallExpr _ xs _ _ _ _ | ClosureLiteralExpr _ xs _ | ArrayLiteralExpr xs _ | Block xs _ => xs
  | CallOtherExpr x y xs _ => x :: y :: xs
  | SscanfExpr x y _ xs => x :: y :: concat (map target_parts xs)
  | InlineLambdaExpr xs _ ys => ys
  | ReturnStmt x | VarDeclStmt _ _ _ x => opt_list x
  | IncDecExpr _ _ _ x y z => opt_list x ++ opt_list y ++ opt_list z
  | MappingLiteralExpr xs => concat (map (λ '(k, vs), k :: vs) xs)
  | NewClassExpr _ xs => map snd xs
  | IndexExpr x y z _ _ u => x :: y :: opt_list z ++ opt_list u
  | IndexAssignStmt x y z _ _ u | IndexAssignExpr x y z _ _ u => x :: y :: z :: opt_list u
  | IfStmt x y z => x :: y :: opt_list z
  | ForStmt x y z u => u :: opt_list x ++ opt_list y ++ opt_list z
  | CaseLabel x y => opt_list x ++ opt_list y
  | SwitchStmt x xs => x :: concat (map case_parts xs)
  | ForeachStmt _ _ _ _ _ x y _ _ => [x; y]
  | _ => []
  end.

Section AstInd.
Context (Q : ast → Prop) (step : ∀ e, Forall Q (children e) → Q e).

Definition all_list (f : ∀ e, Q e) : ∀ l, Forall Q l :=
  fix go l := match l with [] => Forall_nil_2 Q | e :: l => Forall_cons_2 Q e l (f e) (go l) end.

Definition all_opt (f : ∀ e, Q e) (o : option ast) : Forall Q (opt_list o) :=
  match o with Some e => Forall_cons_2 Q e [] (f e) (Forall_nil_2 Q) | None => Forall_nil_2 Q end.

Lemma Forall_app_2' (l k : list ast) : Forall Q l → Forall Q k → Forall Q (l ++ k).
Proof. intros. by apply Forall_app. Qed.

Definition all_targets (f : ∀ e, Q e) : ∀ l, Forall Q (concat (map target_parts l)) :=
  fix go l := match l with
              | [] => Forall_nil_2 Q
              | o :: l =>
                  Forall_app_2' (target_parts o) _
                    (match o with
                     | Some (IndexExpr x y _ _ _ u) => Forall_cons_2 Q x _ (f x) (Forall_cons_2 Q y _ (f y) (all_opt f u))
                     | _ => Forall_nil_2 Q
                     end) (go l)
              end.

Definition all_cases (f : ∀ e, Q e) : ∀ l, Forall Q (concat (map case_parts l)) :=
  fix go l := match l with
              | [] => Forall_nil_2 Q
              | e :: l =>
                  Forall_app_2' (case_parts e) (concat (map case_parts l))
                    (Forall_cons_2 Q e _ (f e)
                       (match e return Forall Q (match e with CaseLabel x y => opt_list x ++ opt_list y | _ => [] end) with
                        | CaseLabel x y => Forall_app_2' _ _ (all_opt f x) (all_opt f y)
                        | _ => Forall_nil_2 Q
                        end)) (go l)
              end.

Definition all_entries (f : ∀ e, Q e) : ∀ l : list (ast * list ast), Forall Q (concat (map (λ '(k, vs), k :: vs) l)) :=
  fix go l := match l with
              | [] => Forall_nil_2 Q
              | (k, vs) :: l => Forall_app_2' (k :: vs) _ (Forall_cons_2 Q k vs (f k) (all_list f vs)) (go l)
              end.

Definition all_snd (f : ∀ e, Q e) : ∀ l : list (bytes * ast), Forall Q (map snd l) :=
  fix go l := match l with
              | [] => Forall_nil_2 Q
              | (k, e) :: l => Forall_cons_2 Q e _ (f e) (go l)
              end.

Lemma ast_children_ind : ∀ e, Q e.
Proof.
  fix IH 1. intros e. apply step. destruct e; cbn [children];
    repeat first [ apply Forall_nil_2 | apply Forall_cons_2; [apply IH|] | apply (all_targets IH) | apply (all_cases IH)
                 | apply (all_entries IH) | apply (all_snd IH) | apply (all_opt IH) | apply Forall_app_2'
                 | apply (all_list IH) ].
Qed.
End AstInd.

(** ** Effects *)

Lemma pops_app k d : pops k (k + d) = Some d.
Proof. induction k; [by destruct d|done]. Qed.

Lemma small_lt {A} (l : list A) : small l = true → (size l < 2 ^ 31 - 2)%Z.
Proof. unfold small. intros H. by prop_tests. Qed.

Lemma small_to_nat {A} (l : list A) : small l = true → Z.to_nat (to_i32 (size l)) = length l.
Proof. intros H%small_lt. rewrite to_i32_small by (pose proof (size_nonneg l); lia). unfold size. lia. Qed.

(** An instruction that takes a list of values. *)
Definition takes_args (o : OpCode) : bool :=
  match o with Call | CallEfun | CallParent | PushClosure | PushEfunClosure | MakeArray => true | _ => false end.

(** The list, of [k] values, may have been spread. *)
Definition spread_of (k : nat) (w : mode) : Prop :=
  w = Ready ∨ ∃ f l, w = Spread f l ∧ (f < Z.of_nat k)%Z.

Lemma mode_after_args i k w :
  takes_spread (op i) = true → argCount i = Z.of_nat k → spread_of k w → mode_after i w = Some (after i).
Proof.
  unfold mode_after. intros Ho Hk [->|(f & l & -> & Hf)]; [by destruct (op i)|].
  apply Z.ltb_lt in Hf. rewrite Hk, Hf. by destruct (op i).
Qed.

Lemma next_args o x k a c t w :
  takes_args o = true → (Z.of_nat k < 2 ^ 31)%Z → (w = Ready ∨ takes_spread o = true ∧ spread_of k w) →
  next (mkInstr o x (to_i32 (Z.of_nat k))) (Shape (k + a) c t w) =
  Some (Shape (S a) c t (match o with CallParent => Qualifier | _ => Ready end)).
Proof.
  intros Ho Hk Hw. rewrite to_i32_small by lia. set (i := mkInstr o x (Z.of_nat k)).
  assert (mode_after i w = Some (after i)) as Hm.
  { destruct Hw as [->|[Ht Hw]]; [by destruct o|]. by eapply mode_after_args. }
  unfold next, frames_after. cbn [awaits stack catches timers]. rewrite Hm.
  assert (counts_ok i = true) as -> by (unfold counts_ok, i; cbn; destruct o; try done; lia).
  unfold effect, i. cbn. destruct o; try done; cbn; rewrite Nat2Z.id, pops_app; done.
Qed.

Ltac known := repeat first [apply list_elem_of_here | apply list_elem_of_further].

Section Rules.
Context {N : CountCast}.
Context (pre : list Instruction) (n m : Z) (n_pos : (0 ≤ n)%Z) (m_pos : (0 ≤ m)%Z).
Notation triple := (triple pre n m).

Definition expr_ok (e : ast) : Prop := ∀ F P ds q a c t,
  triple (mkCtx F P ds q (mkShape a c t)) (emitExpr e) (λ _, mkCtx F P ds q (mkShape (S a) c t)).

(** What a statement may do to leave. *)
Record exits (b c r : bool) (ds : list (bool * shape)) (sh : shape) : Prop := {
  break_ok : b = true → ∃ sw ds', ds = (sw, sh) :: ds';
  continue_ok : c = true → loop_shape ds = Some sh;
  return_ok : r = true → sh = no_shape;
  ready : awaits sh = Ready;
}.

Definition stmt_ok (b c r : bool) (e : ast) : Prop := ∀ F P ds q sh, exits b c r ds sh →
  triple (mkCtx F P ds q sh) (emitStatement e) (λ _, mkCtx F P ds q sh).

Definition block_ok (b c r : bool) (e : ast) : Prop := ∀ F P ds q sh, exits b c r ds sh →
  triple (mkCtx F P ds q sh) (emitBlock emitStatement e) (λ _, mkCtx F P ds q sh).

Lemma exits_none ds a c t : exits false false false ds (mkShape a c t).
Proof. by split. Qed.

Lemma exits_loop r ds sh : (r = true → sh = no_shape) → awaits sh = Ready → exits true true r ((false, sh) :: ds) sh.
Proof. intros Hr Hw. split; [eauto|done..]. Qed.

Lemma exits_switch c r ds sh b : exits b c r ds sh → exits true c r ((true, sh) :: ds) sh.
Proof. intros [Hb Hc Hr Hw]. split; [eauto|done..]. Qed.

Lemma triple_push_var v F P ds q a c t :
  IsVar v ∈ F → triple (mkCtx F P ds q (mkShape a c t)) (emit (pushOp v) (slot v) 0) (λ _, mkCtx F P ds q (mkShape (S a) c t)).
Proof. intros Hv. destruct v as [[] z]; eapply triple_emit; done. Qed.

Lemma triple_store_var v F P ds q a c t :
  IsVar v ∈ F → triple (mkCtx F P ds q (mkShape (S a) c t)) (emit (storeOp v) (slot v) 0) (λ _, mkCtx F P ds q (mkShape a c t)).
Proof. intros Hv. destruct v as [[] z]; eapply triple_emit; done. Qed.

(** The rule of a step. *)
Ltac rule :=
  cbv beta iota;
  lazymatch goal with
  | |- CodeGenLogic.triple _ _ _ _ ?f _ =>
      lazymatch f with
      | gets here => apply triple_here
      | gets _ => apply triple_gets
      | emit (pushOp _) _ _ => apply triple_push_var; solve [known]
      | emit (storeOp _) _ _ => apply triple_store_var; solve [known]
      | emit _ _ _ => eapply triple_emit; [reflexivity | cbn; first [exact I | solve [known]] | reflexivity]
      | internString _ => apply triple_internString
      | internFloat _ => apply triple_internFloat
      | resolveVariable _ => apply triple_resolveVariable
      | resolveClassMemberIndex _ _ => apply triple_resolveClassMemberIndex
      | next_indexAssign => apply triple_next_indexAssign
      | next_foreach => apply triple_next_foreach
      | next_switch => apply triple_next_switch
      | hidden_local _ => apply triple_hidden_local; done
      | declareLocal _ _ => apply triple_declareLocal; done
      | openScope => apply triple_openScope
      | closeScope => apply triple_closeScope
      | openLoop _ => apply triple_openLoop
      | closeLoop => apply triple_closeLoop
      | emitExpr ?e => match goal with H : expr_ok e |- _ => apply H end
      | emitJumpPlaceholder _ =>
          eapply triple_placeholder; [reflexivity | first [left; split; reflexivity | right; reflexivity]]
      | patchJumpToHere _ => first [apply (triple_patch _ _ _ []) | apply (triple_patch _ _ _ [_]) | apply triple_patch]
      | patchAll _ _ => eapply triple_patchAll; solve [known]
      | patchAllHere _ => apply triple_patchAllHere
      | emit_jump_back _ => eapply triple_jump_back; [solve [known]|reflexivity]
      end
  end.

(** Everything known before is known. *)
Ltac subset := intros ? ?; repeat first [assumption | apply list_elem_of_further].

Ltac step :=
  lazymatch goal with
  | |- CodeGenLogic.triple _ _ _ _ (bind _ _) _ =>
      eapply triple_bind; [solve [rule] | cbn beta; intros ?; cbn [app push stack catches timers Nat.add]]
  end.
Ltac steps := repeat step.
(** A shape with nothing announced. *)
Tactic Notation "open_shape" ident(sh) "as" ident(a) ident(c) ident(t) "by" hyp(H) :=
  destruct sh as [a c t ?w]; cbn [awaits] in H; subst w.

Ltac last_step := first [eapply triple_forget; [rule | subset] | apply triple_done; subset].
Ltac run := steps; last_step.

(** *** Lists *)

Lemma for_each_keep {A} (f : A → M cg unit) l Γ :
  Forall (λ x, triple Γ (f x) (λ _, Γ)) l → triple Γ (for_each f l) (λ _, Γ).
Proof.
  induction 1 as [|x l Hx _ IH]; [by apply triple_ret|]. eapply triple_bind; [exact Hx|]. by intros [].
Qed.

Lemma for_each_push {A} (f : A → M cg unit) l :
  Forall (λ x, ∀ F P ds q a c t,
    triple (mkCtx F P ds q (mkShape a c t)) (f x) (λ _, mkCtx F P ds q (mkShape (S a) c t))) l →
  ∀ F P ds q a c t,
    triple (mkCtx F P ds q (mkShape a c t)) (for_each f l) (λ _, mkCtx F P ds q (mkShape (length l + a) c t)).
Proof.
  induction 1 as [|x l Hx _ IH]; intros F P ds q a c t; [by apply triple_ret|].
  eapply triple_bind; [apply Hx|]. intros []. cbn [length]. rewrite Nat.add_succ_comm. apply IH.
Qed.

Lemma args_push args F P ds q a c t :
  Forall expr_ok args →
  triple (mkCtx F P ds q (mkShape a c t)) (for_each emitExpr args)
    (λ _, mkCtx F P ds q (mkShape (length args + a) c t)).
Proof. intros H. by apply for_each_push. Qed.

Lemma if_some_keep {A} (f : A → M cg unit) o Γ :
  (∀ x, o = Some x → triple Γ (f x) (λ _, Γ)) → triple Γ (if_some f o) (λ _, Γ).
Proof. intros H. destruct o; [by apply H|by apply triple_ret]. Qed.

(** The mode after the spread elements of a list, of which [length spread] are
    left. *)
Fixpoint spread_mode (spread : list bool) (w : mode) : mode :=
  match spread with
  | [] => w
  | b :: spread =>
      let n := Z.of_nat (length spread) in
      spread_mode spread (if b then match w with Spread f _ => Spread f n | _ => Spread n n end else w)
  end.

Definition spread_left (j k : nat) (w : mode) : Prop :=
  w = Ready ∨ ∃ f l, w = Spread f l ∧ (Z.of_nat j ≤ l)%Z ∧ (f < Z.of_nat k)%Z.

Lemma spread_left_mode spread k w :
  length spread ≤ k → spread_left (length spread) k w → spread_of k (spread_mode spread w).
Proof.
  revert w. induction spread as [|b spread IH]; intros w Hk Hw; cbn [spread_mode length] in *.
  - destruct Hw as [->|(f & l & -> & _ & Hf)]; [by left|right; eauto].
  - apply IH; [lia|]. destruct b, Hw as [->|(f & l & -> & Hl & Hf)]; try by left.
    + right. eexists _, _. split; [done|]. lia.
    + right. eexists _, _. split; [done|]. lia.
    + right. eexists _, _. split; [done|]. lia.
Qed.

Lemma next_spread j a c t w k :
  (Z.of_nat j < 2 ^ 31)%Z → spread_left (S j) k w →
  next (mkInstr ExpandVarargs (to_i32 (Z.of_nat j)) 0) (Shape (S j + a) c t w) =
  Some (Shape (S j + a) c t (match w with Spread f _ => Spread f (Z.of_nat j) | _ => Spread (Z.of_nat j) (Z.of_nat j) end)).
Proof.
  intros Hn Hw. rewrite to_i32_small by lia. unfold next, effect, frames_after, counts_ok. cbn [op operand awaits stack catches timers].
  rewrite Nat2Z.id. cbn [mbind option_bind]. rewrite (pops_app (S j) a). cbn [mbind option_bind]. replace (0 <=? Z.of_nat j)%Z with true by lia.
  destruct Hw as [->|(f & l & -> & Hl & Hf)]; [done|].
  unfold mode_after. cbn. replace (Z.of_nat j <? l)%Z with true by lia. done.
Qed.

Lemma spread_expansions_push spread F P ds q k a c t w :
  length spread ≤ k → (Z.of_nat k < 2 ^ 31)%Z → spread_left (length spread) k w →
  triple (mkCtx F P ds q (Shape (k + a) c t w)) (spread_expansions spread)
    (λ _, mkCtx F P ds q (Shape (k + a) c t (spread_mode spread w))).
Proof.
  intros Hk Hs. revert w. induction spread as [|b spread IH]; intros w Hw; [by apply triple_ret|].
  cbn [spread_expansions length spread_mode] in *.
  apply (triple_bind _ _ _ _ _ _ (λ _, mkCtx F P ds q (Shape (k + a) c t
    (if b then match w with Spread f _ => Spread f (Z.of_nat (length spread))
               | _ => Spread (Z.of_nat (length spread)) (Z.of_nat (length spread)) end else w)))).
  - destruct b; [|by apply triple_ret]. eapply triple_emit; [done..|].
    pose proof (next_spread (length spread) (k - S (length spread) + a) c t w k ltac:(lia) Hw) as E.
    replace (S (length spread) + (k - S (length spread) + a)) with (k + a) in E by lia. exact E.
  - intros []. apply IH; [lia|]. destruct b, Hw as [->|(f & l & -> & Hl & Hf)]; try by left.
    + right. eexists _, _. split; [done|]. lia.
    + right. eexists _, _. split; [done|]. lia.
    + right. eexists _, _. split; [done|]. lia.
Qed.

Lemma spreads_of {A} spread (l : list A) :
  spreads spread l = true → spread_of (length l) (spread_mode spread Ready).
Proof.
  intros Hsp. apply spread_left_mode; [|by left]. unfold spreads in Hsp. prop_tests. destruct Hsp as [->| ->]; simpl; lia.
Qed.

Lemma spreads_push {A} spread (l : list A) F P ds q a c t :
  spreads spread l = true → small l = true →
  triple (mkCtx F P ds q (mkShape (length l + a) c t)) (emitSpreadExpansions spread)
    (λ _, mkCtx F P ds q (Shape (length l + a) c t (spread_mode spread Ready))).
Proof.
  intros Hsp Hl%small_lt. unfold size in Hl. apply spread_expansions_push; [|lia|by left].
  unfold spreads in Hsp. prop_tests. destruct Hsp as [->| ->]; simpl; lia.
Qed.

(** *** Expressions *)

Lemma index_value_push x i F P ds q a c t :
  expr_ok i → triple (mkCtx F P ds q (mkShape a c t)) (emitIndexValue emitExpr x i)
                (λ _, mkCtx F P ds q (mkShape (S a) c t)).
Proof.
  intros Hi. destruct i; try exact (Hi F P ds q a c t). unfold emitIndexValue.
  eapply triple_bind; [apply triple_gets|]. intros cls. case_if; [apply triple_error|]. run.
Qed.

(** The values of a target, an index and a column. *)
Definition column {A} (col : option A) : nat := match col with Some _ => 1 | None => 0 end.

Lemma column_push col F P ds q a c t :
  (∀ e, col = Some e → expr_ok e) →
  triple (mkCtx F P ds q (mkShape a c t)) (if_some emitExpr col) (λ _, mkCtx F P ds q (mkShape (column col + a) c t)).
Proof. intros H. destruct col; [by apply H|by apply triple_ret]. Qed.

Definition col_ok (col : option ast) : Prop := ∀ e, col = Some e → expr_ok e.

Lemma lvalue_push x i col F P ds q a c t :
  expr_ok x → expr_ok i → col_ok col →
  triple (mkCtx F P ds q (mkShape a c t)) (emit_lvalue emitExpr x i col)
    (λ _, mkCtx F P ds q (mkShape (column col + S (S a)) c t)).
Proof.
  intros Hx Hi Hcol. eapply triple_bind; [apply Hx|]. intros [].
  eapply triple_bind; [by apply index_value_push|]. intros []. by apply column_push.
Qed.

Lemma index_emit col F P ds q a c t :
  triple (mkCtx F P ds q (mkShape (column col + S (S a)) c t)) (emit Index 0 (column_flag col))
    (λ _, mkCtx F P ds q (mkShape (S a) c t)).
Proof. destruct col; eapply triple_emit; done. Qed.

Lemma index_assign_emit col F P ds q a c t :
  triple (mkCtx F P ds q (mkShape (S (column col + S (S a))) c t)) (emit IndexAssign 0 (column_flag col))
    (λ _, mkCtx F P ds q (mkShape a c t)).
Proof. destruct col; eapply triple_emit; done. Qed.

Lemma combine_emit o F P ds q a c t :
  triple (mkCtx F P ds q (mkShape (S (S a)) c t)) (emit_combine o) (λ _, mkCtx F P ds q (mkShape (S a) c t)).
Proof. unfold emit_combine. destruct o; first [apply triple_error | eapply triple_emit; done]. Qed.

Lemma delta_emit o F P ds q a c t :
  triple (mkCtx F P ds q (mkShape (S (S a)) c t)) (emit (delta_opcode o) 0 0) (λ _, mkCtx F P ds q (mkShape (S a) c t)).
Proof. destruct o; eapply triple_emit; done. Qed.

Lemma new_value_push x i v isCompound o col F P ds q a c t :
  expr_ok x → expr_ok i → expr_ok v → col_ok col →
  triple (mkCtx F P ds q (mkShape a c t)) (emit_new_value emitExpr x i v isCompound o col)
    (λ _, mkCtx F P ds q (mkShape (S a) c t)).
Proof.
  intros Hx Hi Hv Hcol. unfold emit_new_value. destruct isCompound; [|apply Hv].
  eapply triple_bind; [by apply lvalue_push|]. intros [].
  eapply triple_bind; [apply index_emit|]. intros [].
  eapply triple_bind; [apply Hv|]. intros []. apply combine_emit.
Qed.

Lemma binary_push o x y : expr_ok x → expr_ok y → ∀ F P ds q a c t,
  triple (mkCtx F P ds q (mkShape a c t)) (emitBinaryExpr emitExpr o x y) (λ _, mkCtx F P ds q (mkShape (S a) c t)).
Proof.
  intros Hx Hy F P ds q a c t. unfold emitBinaryExpr. steps.
  destruct o; cbv beta iota delta [binary_opcode]; first [apply triple_error | last_step].
Qed.

Lemma logical_push o x y : expr_ok x → expr_ok y → ∀ F P ds q a c t,
  triple (mkCtx F P ds q (mkShape a c t)) (emitLogicalExpr emitExpr o x y) (λ _, mkCtx F P ds q (mkShape (S a) c t)).
Proof. intros Hx Hy F P ds q a c t. unfold emitLogicalExpr. steps. case_if; run. Qed.

Lemma ternary_push x y z : expr_ok x → expr_ok y → expr_ok z → ∀ F P ds q a c t,
  triple (mkCtx F P ds q (mkShape a c t)) (emitTernaryExpr emitExpr x y z) (λ _, mkCtx F P ds q (mkShape (S a) c t)).
Proof. intros Hx Hy Hz F P ds q a c t. unfold emitTernaryExpr. run. Qed.

Lemma catch_push x : expr_ok x → ∀ F P ds q a c t,
  triple (mkCtx F P ds q (mkShape a c t)) (emitCatchExpr emitExpr x) (λ _, mkCtx F P ds q (mkShape (S a) c t)).
Proof. intros Hx F P ds q a c t. unfold emitCatchExpr. run. Qed.

Lemma time_push x : block_ok false false false x → ∀ F P ds q a c t,
  triple (mkCtx F P ds q (mkShape a c t)) (emitTimeExpressionExpr emitStatement x)
    (λ _, mkCtx F P ds q (mkShape (S a) c t)).
Proof.
  intros Hx F P ds q a c t. unfold emitTimeExpressionExpr. steps.
  eapply triple_bind; [apply Hx, exits_none|]. intros []. run.
Qed.

Lemma assign_push x v isCompound o : expr_ok v → ∀ F P ds q a c t,
  triple (mkCtx F P ds q (mkShape a c t)) (emitAssignExpr emitExpr x v isCompound o)
    (λ _, mkCtx F P ds q (mkShape (S a) c t)).
Proof.
  intros Hv F P ds q a c t. unfold emitAssignExpr. steps.
  apply (triple_bind _ _ _ _ _ _ (λ _, mkCtx (IsVar a0 :: F) P ds q (mkShape (S a) c t))).
  - destruct isCompound; [|apply Hv]. steps. apply combine_emit.
  - intros []. run.
Qed.

Lemma unary_push o x : expr_ok x → ∀ F P ds q a c t,
  triple (mkCtx F P ds q (mkShape a c t)) (emitUnaryExpr emitExpr o x) (λ _, mkCtx F P ds q (mkShape (S a) c t)).
Proof. intros Hx F P ds q a c t. unfold emitUnaryExpr. destruct o; run. Qed.

Ltac by_rule r := eapply triple_bind; [apply r; first [assumption | solve [known] | idtac]|cbn beta; intros ?; cbn [app push stack catches timers Nat.add]].
Ltac last r := first [eapply r | eapply triple_forget; [eapply r | subset]].

Lemma triple_ret_bind {A B} (x : A) (k : A → M cg B) Γ Γ' : triple Γ (k x) Γ' → triple Γ (bind (ret x) k) Γ'.
Proof. intros H D s. apply H. Qed.

Lemma index_assign_expr_push x i v isCompound o col :
  expr_ok x → expr_ok i → expr_ok v → col_ok col → ∀ F P ds q a c t,
  triple (mkCtx F P ds q (mkShape a c t)) (emitIndexAssignExpr emitExpr x i v isCompound o col)
    (λ _, mkCtx F P ds q (mkShape (S a) c t)).
Proof.
  intros Hx Hi Hv Hcol F P ds q a c t. unfold emitIndexAssignExpr. steps.
  by_rule new_value_push. steps. by_rule lvalue_push. steps. by_rule index_assign_emit. run.
Qed.

Lemma index_assign_stmt_keep x i v isCompound o col :
  expr_ok x → expr_ok i → expr_ok v → col_ok col → ∀ F P ds q sh, awaits sh = Ready →
  triple (mkCtx F P ds q sh) (emitIndexAssignStmt emitExpr x i v isCompound o col) (λ _, mkCtx F P ds q sh).
Proof.
  intros Hx Hi Hv Hcol F P ds q sh Hw. open_shape sh as a c t by Hw. unfold emitIndexAssignStmt.
  by_rule lvalue_push. by_rule new_value_push. apply index_assign_emit.
Qed.

Lemma inc_dec_indexed_push o prefix x k col :
  expr_ok x → expr_ok k → col_ok col → ∀ F P ds q a c t,
  triple (mkCtx F P ds q (mkShape a c t)) (emitIncDecIndexed emitExpr o prefix x k col)
    (λ _, mkCtx F P ds q (mkShape (S a) c t)).
Proof.
  intros Hx Hk Hcol F P ds q a c t. unfold emitIncDecIndexed. steps.
  by_rule lvalue_push. by_rule index_emit. steps. by_rule delta_emit. steps.
  by_rule lvalue_push. steps. by_rule index_assign_emit. destruct prefix; run.
Qed.

Lemma inc_dec_push o prefix x target key col :
  (∀ e, target = Some e → expr_ok e) → (∀ e, key = Some e → expr_ok e) → col_ok col →
  (is_some target = true → is_some key = true) → ∀ F P ds q a c t,
  triple (mkCtx F P ds q (mkShape a c t)) (emitIncDecExpr emitExpr o prefix x target key col)
    (λ _, mkCtx F P ds q (mkShape (S a) c t)).
Proof.
  intros Hx Hk Hcol Hkey F P ds q a c t. unfold emitIncDecExpr.
  destruct target as [e|]; [destruct key as [k|]; [apply inc_dec_indexed_push; auto|by specialize (Hkey eq_refl)]|].
  steps. destruct prefix; steps; by_rule delta_emit; run.
Qed.

Lemma emit_args {A} o x (l : list A) F P ds q a c t w :
  takes_args o = true → small l = true → operand_known F (mkInstr o x (to_i32 (size l))) →
  (w = Ready ∨ takes_spread o = true ∧ spread_of (length l) w) →
  triple (mkCtx F P ds q (Shape (length l + a) c t w)) (emit o x (to_i32 (size l)))
    (λ _, mkCtx F P ds q (Shape (S a) c t (match o with CallParent => Qualifier | _ => Ready end))).
Proof.
  intros Ho Hl Hk Hw. apply triple_emit; [by destruct o|done|].
  apply next_args; [done|apply small_lt in Hl; unfold size in Hl; lia|done].
Qed.

(** Right after the spread elements. *)
Ltac spread_list spread l Hsp Hs Hw :=
  pose proof (spreads_of spread l Hsp) as Hw;
  (eapply triple_bind; [apply (spreads_push spread l); [exact Hsp|exact Hs]|]); intros [];
  revert Hw; generalize (spread_mode spread Ready); intros ?w Hw.

Lemma call_push callee args spread efun parent qualifier :
  Forall expr_ok args → spreads spread args = true → small args = true → ∀ F P ds q a c t,
  triple (mkCtx F P ds q (mkShape a c t)) (emitCallExpr emitExpr callee args spread efun parent qualifier)
    (λ _, mkCtx F P ds q (mkShape (S a) c t)).
Proof.
  intros Hargs Hsp Hs F P ds q a c t. unfold emitCallExpr. by_rule args_push. spread_list spread args Hsp Hs Hw.
  steps. destruct parent.
  - case_if; [apply triple_ret_bind|step]; (eapply triple_bind; [apply emit_args; [done|done|known|by right]|]); intros [];
      (eapply triple_forget; [eapply triple_emit; [done| |done]|subset]); cbn; [by left|right; known].
  - destruct efun;
      (eapply triple_forget; [eapply triple_emit; [done|known|apply next_args; [done| |by right]]|subset]);
      apply small_lt in Hs; unfold size in Hs; lia.
Qed.

Lemma call_other_push x f args spread :
  expr_ok x → expr_ok f → Forall expr_ok args → spreads spread args = true → small args = true →
  ∀ F P ds q a c t,
  triple (mkCtx F P ds q (mkShape a c t)) (emitCallOtherExpr emitExpr x f args spread)
    (λ _, mkCtx F P ds q (mkShape (S a) c t)).
Proof.
  intros Hx Hf Hargs Hsp Hs F P ds q a c t. unfold emitCallOtherExpr. steps. by_rule args_push.
  spread_list spread args Hsp Hs Hw. steps. apply small_lt in Hs. unfold size in Hs.
  eapply triple_forget; [eapply triple_emit; [done|known|]|subset].
  replace (2 + size args)%Z with (Z.of_nat (2 + length args)) by (unfold size; lia).
  replace (length args + S (S a)) with (2 + length args + a) by lia. apply (next_args CallEfun); [done|lia|].
  right. split; [done|]. destruct Hw as [->|(f0 & l & -> & Hf0)]; [by left|]. right. eexists _, _. split; [done|lia].
Qed.

Lemma array_push es spread :
  Forall expr_ok es → spreads spread es = true → small es = true → ∀ F P ds q a c t,
  triple (mkCtx F P ds q (mkShape a c t)) (emitExpr (ArrayLiteralExpr es spread))
    (λ _, mkCtx F P ds q (mkShape (S a) c t)).
Proof.
  intros Hes Hsp Hs F P ds q a c t. cbn [emitExpr]. by_rule args_push. spread_list spread es Hsp Hs Hw.
  apply (emit_args MakeArray); [done..|by right].
Qed.

Lemma closure_push x args efun :
  Forall expr_ok args → small args = true → ∀ F P ds q a c t,
  triple (mkCtx F P ds q (mkShape a c t)) (emitClosureLiteral emitExpr x args efun)
    (λ _, mkCtx F P ds q (mkShape (S a) c t)).
Proof.
  intros Hes Hs F P ds q a c t. unfold emitClosureLiteral. by_rule args_push. steps.
  destruct efun; (eapply triple_forget; [apply emit_args; [done|done|known|by left]|subset]).
Qed.

Lemma lambda_push body k vs :
  Forall expr_ok vs → small vs = true → forallb (wf_expr k (size vs)) body = true →
  (0 ≤ k ∧ k + size vs < 2 ^ 31)%Z → ∀ F P ds q a c t,
  triple (mkCtx F P ds q (mkShape a c t)) (emitInlineLambda emitExpr body k vs)
    (λ _, mkCtx F P ds q (mkShape (S a) c t)).
Proof.
  intros Hvs Hs Hbody Hk F P ds q a c t. unfold emitInlineLambda. by_rule args_push. steps.
  eapply triple_bind; [by apply triple_queue_lambda|]. intros []. steps.
  eapply triple_forget; [apply emit_args; [done|done|known|by left]|subset].
Qed.

Lemma anon_push params isVarargs body :
  anon_ok (mkPendingAnonFunc [] params isVarargs body) → ∀ F P ds q a c t,
  triple (mkCtx F P ds q (mkShape a c t)) (emitAnonFunction params isVarargs body)
    (λ _, mkCtx F P ds q (mkShape (S a) c t)).
Proof.
  intros Ha F P ds q a c t. unfold emitAnonFunction. steps.
  eapply triple_bind; [by apply triple_queue_anon|]. intros []. run.
Qed.

Lemma index_push x i e fromEnd endFromEnd col :
  expr_ok x → expr_ok i → (∀ e', e = Some e' → expr_ok e') → col_ok col → ∀ F P ds q a c t,
  triple (mkCtx F P ds q (mkShape a c t)) (emitIndexExpr emitExpr x i e fromEnd endFromEnd col)
    (λ _, mkCtx F P ds q (mkShape (S a) c t)).
Proof.
  intros Hx Hi He Hcol F P ds q a c t. unfold emitIndexExpr. steps. by_rule index_value_push.
  destruct e as [e|].
  - eapply triple_bind; [by apply He|]. intros []. run.
  - by_rule column_push. destruct fromEnd, col; eapply triple_emit; done.
Qed.

(** *** Class instances and mappings *)

Lemma member_push fields x :
  Forall (λ '(_, e), expr_ok e) fields → ∀ F P ds q a c t,
  triple (mkCtx F P ds q (mkShape a c t)) (emit_member emitExpr fields x) (λ _, mkCtx F P ds q (mkShape (S a) c t)).
Proof.
  intros Hf F P ds q a c t. induction Hf as [|[y e] fields He _ IH]; cbn; [run|]. case_if; [apply He|apply IH].
Qed.

Lemma new_class_push x fields :
  Forall (λ '(_, e), expr_ok e) fields → ∀ F P ds q a c t,
  triple (mkCtx F P ds q (mkShape a c t)) (emitNewClassExpr emitExpr x fields)
    (λ _, mkCtx F P ds q (mkShape (S a) c t)).
Proof.
  intros Hf F P ds q a c t. unfold emitNewClassExpr. apply triple_gets_bind. intros s Hs.
  destruct (classDefs_ s !! x) as [members|] eqn:E; [|apply triple_error].
  apply (classes_ok _ _ _ Hs) in E.
  eapply triple_bind; [apply for_each_push, Forall_forall; intros; by apply member_push|]. intros [].
  eapply triple_bind; [apply for_each_keep, Forall_forall; intros [] _; cbn; case_if;
    [by apply triple_ret|apply triple_error]|]. intros [].
  apply (emit_args MakeArray); [done..|by left].
Qed.

Lemma entries_push es w :
  Forall (λ '(k, vs), expr_ok k ∧ Forall expr_ok vs ∧ length vs = w) es → ∀ F P ds q a c t,
  triple (mkCtx F P ds q (mkShape a c t)) (for_each (λ '(k, vals), do* _ := emitExpr k in for_each emitExpr vals) es)
    (λ _, mkCtx F P ds q (mkShape (length es * S w + a) c t)).
Proof.
  induction 1 as [|[k vs] es (Hk & Hvs & Hw) _ IH]; intros F P ds q a c t; [by apply triple_ret|].
  eapply (triple_bind _ _ _ _ _ _ (λ _, mkCtx F P ds q (mkShape (S w + a) c t))).
  - steps. rewrite <- Hw. cbn [Nat.add]. rewrite plus_n_Sm. by apply args_push.
  - intros []. cbn [length]. replace (S (length es) * S w + a) with (length es * S w + (S w + a)) by lia. apply IH.
Qed.

Lemma same_width_spec es :
  same_width es = true →
  ∃ w, mapping_width es = Z.of_nat w ∧ Forall (λ '(_, vs), length vs = w) es ∧ (1 ≤ Z.of_nat w < 2 ^ 31)%Z.
Proof.
  destruct es as [|[k vs] es]; [exists 1; split_and!; done|]. unfold same_width, mapping_width. intros H. prop_tests.
  apply small_lt in H1. exists (length vs). rewrite to_i32_small by (pose proof (size_nonneg vs); lia).
  split_and!.
  - destruct vs; [done|]. rewrite size_cons. pose proof (size_nonneg vs). case_if; prop_tests; [lia|].
    unfold size. simpl. lia.
  - apply forallb_Forall in H0. eapply Forall_impl; [exact H0|]. intros [k' ws] Hws. by prop_tests.
  - destruct vs; [done|]. cbn [length]. lia.
  - unfold size in *. lia.
Qed.

Lemma mapping_push es :
  Forall (λ '(k, vs), expr_ok k ∧ Forall expr_ok vs) es → same_width es = true → small es = true → ∀ F P ds q a c t,
  triple (mkCtx F P ds q (mkShape a c t)) (emitMappingLiteral emitExpr es) (λ _, mkCtx F P ds q (mkShape (S a) c t)).
Proof.
  intros Hes (w & Hw & Hall & Hlt)%same_width_spec Hs F P ds q a c t. unfold emitMappingLiteral.
  eapply triple_bind; [apply (entries_push es w)|intros []].
  - apply Forall_forall. intros [k vs] Hin. rewrite Forall_forall in Hes, Hall.
    specialize (Hes _ Hin) as [? ?]. specialize (Hall _ Hin). done.
  - apply triple_emit; [done..|]. unfold next, effect, frames_after. cbn. rewrite Hw, small_to_nat by done.
    rewrite Nat2Z.id. replace (length es * S w) with (length es + length es * w) by lia.
    replace (length es + length es * w) with (length es * S w) by lia. rewrite pops_app. cbn.
    apply small_lt in Hs. pose proof (size_nonneg es). rewrite to_i32_small by lia.
    replace (0 <=? size es)%Z with true by lia. replace (1 <=? Z.of_nat w)%Z with true by lia. done.
Qed.

(** *** [sscanf] *)

Definition temps (zs : list Z) : list fact := map (λ z, IsVar (mkResolved Local z)) zs.

Lemma triple_forget_result {A} (f : M cg A) Γ (F F' : A → list fact) P ds q sh :
  triple Γ f (λ a, mkCtx (F' a) P ds q sh) → (∀ a, F a ⊆ F' a) → triple Γ f (λ a, mkCtx (F a) P ds q sh).
Proof. intros Hf HF. eapply triple_conseq; [done|]. intros a D s. by apply inv_forget. Qed.

Lemma sscanf_slots_rule names targets F P ds q a c t :
  length names = length targets →
  triple (mkCtx F P ds q (Shape a c t (slots_left (length names)))) (sscanf_slots names targets)
    (λ zs, mkCtx (temps zs ++ F) P ds q (mkShape a c t)).
Proof.
  revert targets F. induction names as [|x names IH]; intros [|[e|] targets] F Hl; try done;
    try injection Hl as Hl; cbn [sscanf_slots length slots_left].
  - by apply triple_ret.
  - steps. eapply triple_bind; [by apply IH|]. intros zs.
    intros D s H. exists D. cbn. eapply inv_forget; [|exact H].
    intros f. rewrite !elem_of_cons, !elem_of_app, elem_of_cons. tauto.
  - step. eapply triple_bind; [eapply triple_emit; [done| |done]; destruct a0 as [[] z]; cbn; known|]. intros [].
    intros D s H. specialize (IH targets _ Hl D s H).
    destruct (sscanf_slots names targets s) as [[zs|?| |] s']; try done. destruct IH as [D' H']. exists D'.
    eapply inv_forget; [|exact H']. intros f. rewrite !elem_of_app, elem_of_cons. tauto.
Qed.

Definition target_ok (o : option ast) : Prop :=
  match o with
  | None => True
  | Some (IndexExpr x i _ _ _ col) => expr_ok x ∧ expr_ok i ∧ col_ok col
  | Some _ => False
  end.

Lemma sscanf_writes_keep targets zs F P ds q a c t :
  Forall target_ok targets → temps zs ⊆ F →
  triple (mkCtx F P ds q (mkShape a c t)) (sscanf_writes emitExpr targets zs) (λ _, mkCtx F P ds q (mkShape a c t)).
Proof.
  intros Ht. revert zs. induction Ht as [|[e|] targets He _ IH]; intros zs Hzs; [by apply triple_ret| |].
  - destruct zs as [|z zs]; [destruct e; try done; by apply triple_ret|].
    destruct e; try done. destruct He as (Hx & Hi & Hcol).
    assert (IsVar (mkResolved Local z) ∈ F) as Hz by (apply Hzs; apply list_elem_of_here).
    cbn [sscanf_writes]. steps. by_rule column_push.
    eapply triple_bind; [eapply triple_emit; [done|exact Hz|done]|]. intros [].
    by_rule index_assign_emit. apply IH. intros f Hf. apply Hzs. by apply list_elem_of_further.
  - destruct zs as [|z zs]; [by apply triple_ret|]. by apply IH.
Qed.

Lemma sscanf_push x f names targets :
  expr_ok x → expr_ok f → small names = true → length names = length targets → Forall target_ok targets →
  ∀ F P ds q a c t,
  triple (mkCtx F P ds q (mkShape a c t)) (emitSscanfExpr emitExpr x f names targets)
    (λ _, mkCtx F P ds q (mkShape (S a) c t)).
Proof.
  intros Hx Hf Hs%small_lt Hl Ht F P ds q a c t. unfold emitSscanfExpr. pose proof (size_nonneg names). do 2 step.
  eapply triple_bind.
  { eapply (triple_emit _ _ _ _ _ _ _ _ (Shape (S a) c t (slots_left (length names)))); [done|done|].
    rewrite to_i32_small by lia. unfold next, effect, frames_after, counts_ok, mode_after, after. cbn.
    replace (0 <=? size names)%Z with true by lia. by replace (Z.to_nat (size names)) with (length names) by (unfold size; lia). }
  intros [].
  eapply triple_bind; [by apply sscanf_slots_rule|]. intros zs. cbn.
  eapply triple_forget; [apply sscanf_writes_keep; [done|]|]; intros ?; rewrite elem_of_app; tauto.
Qed.

(** *** Statements *)

Lemma return_keep e F P ds q :
  (∀ x, e = Some x → expr_ok x) → ∀ sh',
  triple (mkCtx F P ds q no_shape) (emitReturnStmt emitExpr e) (λ _, mkCtx F P ds q sh').
Proof.
  intros He sh'. unfold emitReturnStmt, no_shape. destruct e as [e|].
  - eapply triple_bind; [by apply (He e)|]. intros []. apply triple_return. by split_and!.
  - eapply triple_bind; [by apply (triple_ret _ _ _ _ _ (λ _, mkCtx F P ds q no_shape))|]. intros []. apply triple_return. split_and!; simpl; first [done|lia].
Qed.

Lemma var_decl_keep type name e F P ds q sh :
  (∀ x, e = Some x → expr_ok x) → awaits sh = Ready →
  triple (mkCtx F P ds q sh) (emitVarDeclStmt emitExpr type name e) (λ _, mkCtx F P ds q sh).
Proof.
  intros He Hw. unfold emitVarDeclStmt. open_shape sh as a c t by Hw. steps.
  destruct e as [e|]; [|apply triple_done; subset]. eapply triple_bind; [by apply He|]. intros []. run.
Qed.

Lemma assign_keep x v F P ds q sh :
  expr_ok v → awaits sh = Ready → triple (mkCtx F P ds q sh) (emitAssignStmt emitExpr x v) (λ _, mkCtx F P ds q sh).
Proof. intros Hv Hw. unfold emitAssignStmt. open_shape sh as a c t by Hw. run. Qed.

Lemma if_keep b c r x y z F P ds q sh :
  expr_ok x → block_ok b c r y → (∀ e, z = Some e → block_ok b c r e) → exits b c r ds sh →
  triple (mkCtx F P ds q sh) (emitIfStmt emitExpr emitStatement x y z) (λ _, mkCtx F P ds q sh).
Proof.
  intros Hx Hy Hz He. unfold emitIfStmt. pose proof (ready _ _ _ _ _ He) as Hw. open_shape sh as a k t by Hw. steps.
  eapply triple_bind; [by apply Hy|]. intros []. destruct z as [z|]; [|run].
  steps. eapply triple_bind; [by apply (Hz z)|]. intros []. run.
Qed.

Lemma while_keep r x y F P ds q sh :
  expr_ok x → block_ok true true r y → (r = true → sh = no_shape) → awaits sh = Ready →
  triple (mkCtx F P ds q sh) (emitWhileStmt emitExpr emitStatement x y) (λ _, mkCtx F P ds q sh).
Proof.
  intros Hx Hy Hr Hw. unfold emitWhileStmt. open_shape sh as a k t by Hw. steps.
  eapply triple_bind; [apply Hy; by apply exits_loop|]. intros []. run.
Qed.

Lemma do_while_keep r x y F P ds q sh :
  expr_ok x → block_ok true true r y → (r = true → sh = no_shape) → awaits sh = Ready →
  triple (mkCtx F P ds q sh) (emitDoWhileStmt emitExpr emitStatement x y) (λ _, mkCtx F P ds q sh).
Proof.
  intros Hx Hy Hr Hw. unfold emitDoWhileStmt. open_shape sh as a k t by Hw. steps.
  eapply triple_bind; [apply Hy; by apply exits_loop|]. intros []. run.
Qed.

Lemma clause_keep b c r e F P ds q sh :
  expr_ok e → (is_block e = true → block_ok b c r e) → exits b c r ds sh →
  triple (mkCtx F P ds q sh) (emit_clause emitExpr emitStatement e) (λ _, mkCtx F P ds q sh).
Proof.
  intros He Hb Hex. pose proof (ready _ _ _ _ _ Hex) as Hw. open_shape sh as a k t by Hw.
  destruct e; try (by apply Hb); unfold emit_clause; (eapply triple_bind; [apply He|]); intros []; run.
Qed.

Lemma init_keep b c r e F P ds q sh :
  expr_ok e → stmt_ok b c r e → (is_block e = true → block_ok b c r e) → exits b c r ds sh →
  triple (mkCtx F P ds q sh) (emit_init emitExpr emitStatement e) (λ _, mkCtx F P ds q sh).
Proof.
  intros He Hs Hb Hex. destruct e; try by (eapply clause_keep). by apply Hs.
Qed.

Lemma for_keep b c r i x u y F P ds q sh :
  (∀ e, i = Some e → expr_ok e ∧ stmt_ok b c r e ∧ (is_block e = true → block_ok b c r e)) →
  (∀ e, x = Some e → expr_ok e) →
  (∀ e, u = Some e → expr_ok e ∧ (is_block e = true → block_ok b c r e)) →
  block_ok true true r y → exits b c r ds sh →
  triple (mkCtx F P ds q sh) (emitForStmt emitExpr emitStatement i x u y) (λ _, mkCtx F P ds q sh).
Proof.
  intros Hi Hx Hu Hy He. unfold emitForStmt. pose proof (ready _ _ _ _ _ He) as Hw. step.
  eapply triple_bind; [apply if_some_keep; intros e [? []]%Hi; by eapply init_keep|]. intros []. step.
  match goal with |- context [At ?top] => set (loopTop := top) in * end.
  assert (∀ F0 P0, triple (mkCtx F0 P0 ds (S q) sh)
            (if_some (emit_clause emitExpr emitStatement) u) (λ _, mkCtx F0 P0 ds (S q) sh)) as Hu'.
  { intros F0 P0. apply if_some_keep. intros e [? ?]%Hu. by eapply clause_keep. }
  destruct x as [e|].
  - specialize (Hx e eq_refl). open_shape sh as d k t by Hw.
    eapply (triple_bind _ _ _ _ _ _ (λ j, mkCtx (At loopTop (mkShape d k t) :: F)
      (match j with Some j => (j, mkShape d k t) :: P | None => P end) ds (S q) (mkShape d k t))).
    { steps. intros D s H. by exists D. }
    intros [j|].
    + steps. eapply triple_bind; [apply Hy, exits_loop; [apply He|reflexivity]|]. intros []. steps.
      eapply triple_bind; [apply Hu'|]. intros []. step.
      eapply triple_bind; [apply triple_patch|]. intros []. run.
    + steps. eapply triple_bind; [apply Hy, exits_loop; [apply He|reflexivity]|]. intros []. steps.
      eapply triple_bind; [apply Hu'|]. intros []. step. apply triple_ret_bind. run.
  - open_shape sh as d k t by Hw. apply triple_ret_bind. steps. eapply triple_bind; [apply Hy, exits_loop; [apply He|reflexivity]|]. intros []. steps.
    eapply triple_bind; [apply Hu'|]. intros []. step. apply triple_ret_bind. run.
Qed.

Lemma foreach_var_rule declare x cls F P ds q sh :
  triple (mkCtx F P ds q sh) (foreach_var declare x cls) (λ v, mkCtx (IsVar v :: F) P ds q sh).
Proof.
  unfold foreach_var. destruct declare; [|apply triple_resolveVariable]. steps.
  intros D s H. by exists D.
Qed.

(** The facts and the jump after the head. *)
Definition head_facts (r : Z * Z * Z * nat * nat) (sh : shape) : list fact :=
  let '(o, i, x, top, _) := r in
  [At top sh; IsVar (mkResolved Local o); IsVar (mkResolved Local i); IsVar (mkResolved Local x)].

Lemma foreach_head_rule x F P ds q d k t :
  expr_ok x →
  triple (mkCtx F P ds q (mkShape d k t)) (foreach_head emitExpr x)
    (λ r, mkCtx (head_facts r (mkShape d k t) ++ F) ((snd r, mkShape d k t) :: P) ds q (mkShape d k t)).
Proof.
  intros Hx. unfold foreach_head. steps. intros D s H. exists D. cbn.
  eapply inv_forget; [|exact H]. intros f. rewrite !elem_of_cons. tauto.
Qed.

Lemma foreach_keep r x declare hasValue y declareValue coll body cls vcls F P ds q sh :
  expr_ok coll → block_ok true true r body → (r = true → sh = no_shape) → awaits sh = Ready →
  triple (mkCtx F P ds q sh)
    (emitForeachStmt emitExpr emitStatement x declare hasValue y declareValue coll body cls vcls)
    (λ _, mkCtx F P ds q sh).
Proof.
  intros Hc Hb Hr Hw. unfold emitForeachStmt. open_shape sh as d k t by Hw. step.
  eapply triple_bind; [by apply foreach_head_rule|]. intros [[[[o i] x'] top] jf]. cbn [head_facts snd app].
  eapply triple_bind; [apply foreach_var_rule|]. intros v. steps.
  match goal with |- CodeGenLogic.triple _ _ _ (mkCtx ?F0 ?P0 _ _ _) _ _ =>
    apply (triple_bind _ _ _ _ _ _ (λ _, mkCtx F0 P0 ds (S q) (mkShape d k t))) end.
  - destruct hasValue; [|by apply triple_ret]. cbn [when].
    eapply triple_bind; [apply foreach_var_rule|]. intros w. run.
  - intros []. steps. eapply triple_bind; [apply Hb; by apply exits_loop|]. intros []. run.
Qed.

(** *** Switches *)

Lemma case_rule z v e F P ds q d k t :
  IsVar (mkResolved Local z) ∈ F → expr_ok v → (∀ x, e = Some x → expr_ok x) →
  triple (mkCtx F P ds q (mkShape d k t)) (emit_case emitExpr z v e)
    (λ j, mkCtx F ((j, mkShape d k t) :: P) ds q (mkShape d k t)).
Proof.
  intros Hz Hv He. unfold emit_case.
  assert (∀ P0 d0, triple (mkCtx F P0 ds q (mkShape d0 k t)) (emit PushLocal z 0)
                     (λ _, mkCtx F P0 ds q (mkShape (S d0) k t))) as Hpush by (intros; by apply triple_emit).
  eapply triple_bind; [apply Hpush|]. intros []. step.
  eapply (triple_bind _ _ _ _ _ _ (λ _, mkCtx F P ds q (mkShape (S d) k t))).
  - destruct e as [e|]; [|run]. specialize (He e eq_refl). steps.
    eapply triple_bind; [apply Hpush|]. intros []. run.
  - intros []. steps. eapply triple_placeholder; [done|by right].
Qed.

(** The jumps to the statements from [i] on, in their order. *)
Fixpoint case_jumps (jumps : gmap nat nat) (i len : nat) : list nat :=
  match len with
  | O => []
  | S len => opt_list (jumps !! i) ++ case_jumps jumps (S i) len
  end.

Lemma case_jumps_insert jumps i j i' len : i < i' → case_jumps (<[i := j]> jumps) i' len = case_jumps jumps i' len.
Proof.
  revert i'. induction len as [|len IH]; intros i' Hi; [done|]. cbn. rewrite lookup_insert_ne by lia.
  by rewrite IH by lia.
Qed.

Definition case_ok (e : ast) : Prop :=
  match e with
  | CaseLabel v x => (∀ y, v = Some y → expr_ok y) ∧ (∀ y, x = Some y → expr_ok y)
  | _ => True
  end.

Lemma triple_bind_pure {A B} Γ (f : M cg A) (k : A → M cg B) Γ1 Γ2 (φ : A → Prop) :
  triple Γ f Γ1 → (∀ s a s', f s = (Ok a, s') → φ a) → (∀ a, φ a → triple (Γ1 a) (k a) Γ2) →
  triple Γ (bind f k) Γ2.
Proof.
  intros Hf Hφ Hk D s H. specialize (Hf D s H). specialize (Hφ s). unfold bind.
  destruct (f s) as [[a|e| |] s']; simpl in *; try done. destruct Hf as [D' H'].
  exact (Hk a (Hφ a s' eq_refl) D' s' H').
Qed.

(** The indices that the first pass records are those of the body. *)
Definition dispatched (i len : nat) (r : gmap nat nat * option nat) : Prop :=
  (∀ k, k < i → fst r !! k = None) ∧ ∀ j, snd r = Some j → i ≤ j < i + len.

Lemma emit_dispatch_range E z body i s r s' :
  emit_dispatch E z i body s = (Ok r, s') → dispatched i (length body) r.
Proof.
  revert i s r s'. induction body as [|e body IH]; intros i s r s' H; [by injection H as <- _|].
  assert (∀ s0 r0 s0', emit_dispatch E z (S i) body s0 = (Ok r0, s0') → dispatched i (S (length body)) r0) as IH'.
  { intros s0 r0 s0' H0. destruct (IH _ _ _ _ H0) as [Hk Hj]. split; [intros k ?; apply Hk; lia|].
    intros j Hj'. specialize (Hj j Hj'). lia. }
  destruct e; try exact (IH' _ _ _ H). destruct value as [v|].
  - apply bind_Ok_inv in H as (j & s1 & _ & H). apply bind_Ok_inv in H as ([jumps dd] & s2 & H & [= <- _]).
    destruct (IH' _ _ _ H) as [Hk Hj]. split; [|done]. intros k Hlt. cbn. rewrite lookup_insert_ne by lia. by apply Hk.
  - apply bind_Ok_inv in H as ([jumps dd] & s2 & H & [= <- _]). destruct (IH' _ _ _ H) as [Hk Hj].
    split; [done|]. intros j Hj'. cbn [snd length] in *. destruct dd as [j'|]; injection Hj' as <-; [by apply Hj|lia].
Qed.

Lemma pairs_app sh js ks : pairs sh (js ++ ks) = pairs sh js ++ pairs sh ks.
Proof. apply map_app. Qed.

Lemma emit_dispatch_rule z body i F P ds q d k t :
  IsVar (mkResolved Local z) ∈ F → Forall case_ok body →
  triple (mkCtx F P ds q (mkShape d k t)) (emit_dispatch emitExpr z i body)
    (λ r, mkCtx F (pairs (mkShape d k t) (case_jumps (fst r) i (length body)) ++ P) ds q (mkShape d k t)).
Proof.
  intros Hz Hb. revert i P. induction Hb as [|e body He _ IH]; intros i P.
  { intros D s H. by exists D. }
  set (sh := mkShape d k t) in *.
  assert (∀ r, dispatched (S i) (length body) r → case_jumps (fst r) i (length (e :: body)) =
            case_jumps (fst r) (S i) (length body)) as Hskip.
  { intros r [Hr _]. cbn. by rewrite Hr by lia. }
  assert (triple (mkCtx F P ds q sh) (emit_dispatch emitExpr z (S i) body)
    (λ r, mkCtx F (pairs sh (case_jumps (fst r) i (length (e :: body))) ++ P) ds q sh)) as Hplain.
  { intros D s H. specialize (IH (S i) P D s H).
    destruct (emit_dispatch emitExpr z (S i) body s) as [[r|?| |] s'] eqn:E; try done.
    apply emit_dispatch_range, Hskip in E. cbn [kept] in *. cbv beta in *. by rewrite E. }
  destruct e; try exact Hplain. destruct He as [Hv He]. destruct value as [v|]; cbn [emit_dispatch].
  - eapply triple_bind; [by apply case_rule; [|apply Hv|]|]. intros j.
    eapply triple_bind; [apply IH|]. intros [jumps dd] D s H. exists D. cbn [fst case_jumps length] in *.
    rewrite lookup_insert_eq, case_jumps_insert by lia. eapply inv_perm; [|exact H].
    exact (Permutation_middle (pairs sh (case_jumps jumps (S i) (length body))) P (j, sh)).
  - eapply triple_bind_pure; [exact Hplain|intros s r s'; apply emit_dispatch_range|].
    intros [jumps dd] _ D s H. by exists D.
Qed.

(** The jump taken when no case matches, until the default label. *)
Definition default_open (dd : option nat) (i : nat) (jsh : nat * shape) : list (nat * shape) :=
  match dd with Some j => if bool_decide (i ≤ j) then [jsh] else [] | None => [jsh] end.

Lemma default_open_next dd i jsh : dd ≠ Some i → default_open dd i jsh = default_open dd (S i) jsh.
Proof.
  intros Hne. unfold default_open. destruct dd as [j|]; [|done].
  rewrite (bool_decide_ext (i ≤ j) (S i ≤ j)); [done|]. assert (i ≠ j) by congruence. lia.
Qed.

Lemma emit_cases_keep b c r jumps dd nm i body F P ds q sh :
  Forall (λ e, stmt_ok b c r e) body → exits b c r ds sh →
  triple (mkCtx F (pairs sh (case_jumps jumps i (length body)) ++ default_open dd i (nm, sh) ++ P) ds q sh)
    (emit_cases emitStatement jumps dd nm i body)
    (λ _, mkCtx F (default_open dd (i + length body) (nm, sh) ++ P) ds q sh).
Proof.
  intros Hb He. revert i. induction Hb as [|e body Hs _ IH]; intros i.
  { cbn. rewrite Nat.add_0_r. by apply triple_ret. }
  cbn [emit_cases case_jumps length]. rewrite <- Nat.add_succ_comm, pairs_app, <- app_assoc.
  set (P' := pairs sh (case_jumps jumps (S i) (length body))).
  eapply (triple_bind _ _ _ _ _ _ (λ _, mkCtx F (P' ++ default_open dd i (nm, sh) ++ P) ds q sh)).
  { destruct (jumps !! i); [apply (triple_patch _ _ _ [])|by apply triple_ret]. }
  intros [].
  apply (triple_bind _ _ _ _ _ _ (λ _, mkCtx F (P' ++ default_open dd (S i) (nm, sh) ++ P) ds q sh)); [|intros []; apply IH].
  case_if; prop_tests.
  - subst dd. unfold default_open. rewrite (bool_decide_eq_true_2 (i ≤ i)), (bool_decide_eq_false_2 (S i ≤ i)) by lia.
    apply triple_patch.
  - rewrite (default_open_next dd i) by done. case_if; [by apply triple_ret|by apply Hs].
Qed.

Lemma switch_keep b c r x body F P ds q sh :
  expr_ok x → Forall case_ok body → Forall (λ e, stmt_ok true c r e) body → exits b c r ds sh →
  triple (mkCtx F P ds q sh) (emitSwitchStmt emitExpr emitStatement x body) (λ _, mkCtx F P ds q sh).
Proof.
  intros Hx Hc Hb He. unfold emitSwitchStmt. pose proof (ready _ _ _ _ _ He) as Hw. open_shape sh as d k t by Hw. steps.
  eapply triple_bind_pure; [apply emit_dispatch_rule; [known|done]|intros s r0 s'; apply emit_dispatch_range|].
  intros [jumps dd] [_ Hdd]. cbn [fst snd] in *. set (sh := mkShape d k t) in *.
  eapply triple_bind; [eapply (triple_placeholder _ _ _ _ _ _ _ _ sh); [done|by left]|]. intros nm.
  step. match goal with |- CodeGenLogic.triple _ _ _ (mkCtx ?F0 _ _ _ _) _ _ => set (F' := F0) end.
  assert (default_open dd 0 (nm, sh) = [(nm, sh)]) as Hd by (by destruct dd).
  eapply triple_bind.
  { intros D s H. eapply (emit_cases_keep true c r jumps dd nm 0 body F' P);
      [done|by eapply exits_switch|]. rewrite Hd. eapply inv_perm; [|exact H].
    symmetry. apply Permutation_middle. }
  intros []. rewrite Nat.add_0_l.
  eapply (triple_bind _ _ _ _ _ _ (λ _, mkCtx F' P ((true, sh) :: ds) q sh)).
  - destruct dd as [j|]; cbn [is_some negb when default_open].
    + specialize (Hdd j eq_refl). rewrite bool_decide_eq_false_2 by lia. by apply triple_ret.
    + apply (triple_patch _ _ _ []).
  - intros []. eapply triple_bind; [apply triple_closeSwitch|]. intros l. cbv beta.
    eapply triple_forget; [apply triple_patchAllHere|subset].
Qed.

(** ** Every tree *)

Definition tree_ok (e : ast) : Prop := ∀ b c r, wf n m b c r e = true →
  expr_ok e ∧ stmt_ok b c r e ∧ (is_block e = true → block_ok b c r e).

(** What is known of a part. *)
Ltac kid :=
  match goal with
  | T : tree_ok ?e, W : wf n m ?b ?c ?r ?e = true |- expr_ok ?e => exact (proj1 (T b c r W))
  | T : tree_ok ?e, W : wf n m ?b ?c ?r ?e = true |- stmt_ok ?b ?c ?r ?e => exact (proj1 (proj2 (T b c r W)))
  | T : tree_ok ?e, W : wf n m ?b ?c ?r ?e = true, B : is_block ?e = true |- block_ok ?b ?c ?r ?e =>
      exact (proj2 (proj2 (T b c r W)) B)
  end.

Lemma trees_exprs l : Forall tree_ok l → forallb (wf_expr n m) l = true → Forall expr_ok l.
Proof.
  intros Hl Hw. apply forallb_Forall in Hw. rewrite Forall_forall in *. intros e He. by apply (Hl e He _ _ _ (Hw e He)).
Qed.

Lemma trees_opt o : Forall tree_ok (opt_list o) → opt_all (wf_expr n m) o = true → ∀ e, o = Some e → expr_ok e.
Proof. intros Hl Hw e ->. apply Forall_cons in Hl as [He _]. by apply (He _ _ _ Hw). Qed.

Lemma trees_targets l :
  Forall tree_ok (concat (map target_parts l)) →
  forallb (opt_all (λ t, is_index t && wf_expr n m t)) l = true → Forall target_ok l.
Proof.
  intros Hl Hw. induction l as [|o l IH]; [constructor|]. cbn [map concat forallb] in *. prop_tests.
  apply Forall_app in Hl as [Ho Hl]. constructor; [|by apply IH]. destruct o as [[]|]; try done.
  cbn in *. prop_tests. rewrite !Forall_cons in Ho. destruct Ho as (Hx & Hi & Hc).
  split_and!; [kid..|exact (trees_opt _ Hc H1)].
Qed.

Lemma trees_entries (l : list (ast * list ast)) :
  Forall tree_ok (concat (map (λ '(k, vs), k :: vs) l)) →
  forallb (λ '(k, vs), wf_expr n m k && forallb (wf_expr n m) vs) l = true →
  Forall (λ '(k, vs), expr_ok k ∧ Forall expr_ok vs) l.
Proof.
  intros Hl Hw. induction l as [|[k vs] l IH]; [constructor|]. cbn [map concat forallb] in *. prop_tests.
  apply Forall_app in Hl as [Ho Hl]. apply Forall_cons in Ho as [Hk Hvs].
  constructor; [|by apply IH]. split; [kid|by apply trees_exprs].
Qed.

Lemma trees_fields (l : list (bytes * ast)) :
  Forall tree_ok (map snd l) → forallb (λ '(_, e), wf_expr n m e) l = true → Forall (λ '(_, e), expr_ok e) l.
Proof.
  intros Hl Hw. induction l as [|[k e] l IH]; [constructor|]. cbn [map forallb] in *. prop_tests.
  apply Forall_cons in Hl as [He Hl]. constructor; [kid|by apply IH].
Qed.

Lemma trees_stmts b c r l : Forall tree_ok l → forallb (wf n m b c r) l = true → Forall (stmt_ok b c r) l.
Proof.
  intros Hl Hw. apply forallb_Forall in Hw. rewrite Forall_forall in *. intros e He. by apply (Hl e He _ _ _ (Hw e He)).
Qed.

Lemma trees_cases b c r l :
  Forall tree_ok (concat (map case_parts l)) → forallb (wf n m b c r) l = true →
  Forall case_ok l ∧ Forall (stmt_ok b c r) l.
Proof.
  intros Hl Hw. induction l as [|e l IH]; [done|]. cbn [map concat forallb] in *. prop_tests.
  apply Forall_app in Hl as [Ho Hl]. destruct (IH Hl H0) as [IH1 IH2].
  apply Forall_cons in Ho as [He Hparts]. split; (constructor; [|done]); [|by apply He].
  destruct e; try done. cbn in *. prop_tests. apply Forall_app in Hparts as [H1' H2']. split; eapply trees_opt; eassumption.
Qed.

Ltac parts :=
  first
  [ kid
  | match goal with
    | T : Forall tree_ok (opt_list ?o), W : opt_all _ ?o = true |- _ => exact (trees_opt o T W)
    | T : Forall tree_ok ?l, W : forallb _ ?l = true |- _ => exact (trees_exprs l T W)
    | T : Forall tree_ok _, W : forallb _ ?l = true |- _ =>
        first [exact (trees_targets l T W) | exact (trees_entries l T W) | exact (trees_fields l T W)]
    end
  | assumption ].

(** A node and its parts. *)
Ltac node Hc Hw :=
  cbn [wf children] in Hc, Hw; prop_tests; rewrite ?Forall_cons, ?Forall_app in Hc; destruct_and?.

Lemma exprs_node e b c r : Forall tree_ok (children e) → wf n m b c r e = true → expr_ok e.
Proof.
  intros Hc Hw F P ds q a k t. destruct e; node Hc Hw; cbn [emitExpr]; try apply triple_error; try run;
    try (case_if; [apply logical_push|apply binary_push]; parts);
    try (first
    [ apply unary_push | apply ternary_push | apply call_push | apply call_other_push | apply sscanf_push
    | apply catch_push | apply time_push | apply closure_push | apply assign_push | apply array_push
    | apply mapping_push | apply new_class_push | apply index_push | apply index_assign_expr_push ]; parts).
  - assert (expr_ok e1) by parts. assert (expr_ok e2) by parts. run.
  - apply lambda_push; try parts. lia.
  - apply triple_lambda_param; [done..|]. lia.
  - apply inc_dec_push; try parts. destruct indexTarget; [done|discriminate].
  - assert (expr_ok e) as He by parts. apply He.
  - by apply anon_push.
Qed.

Lemma block_node ss real b c r :
  Forall (stmt_ok b c r) ss → block_ok b c r (Block ss real).
Proof.
  intros Hs F P ds q sh He. cbn [emitBlock]. step.
  apply (triple_bind _ _ _ _ _ _ (λ _, mkCtx F P ds (S q) sh)); [|intros _; apply triple_closeScope].
  apply for_each_keep. eapply Forall_impl; [exact Hs|]. intros e Hss. by apply Hss.
Qed.

Lemma optional_block b c r z :
  Forall tree_ok (opt_list (Some z)) → opt_all (λ z, is_block z && wf n m b c r z) (Some z) = true → block_ok b c r z.
Proof. intros [Hz _]%Forall_cons Hw. cbn in Hw. prop_tests. parts. Qed.

Lemma stmts_node e b c r : Forall tree_ok (children e) → wf n m b c r e = true → stmt_ok b c r e.
Proof.
  intros Hc Hw F P ds q sh He. pose proof (ready _ _ _ _ _ He) as Hready.
  destruct e; node Hc Hw; cbn [emitStatement]; try apply triple_error.
  - assert (expr_ok e) by parts. open_shape sh as a k t by Hready. run.
  - rewrite (return_ok _ _ _ _ _ He) by done. apply return_keep. parts.
  - apply var_decl_keep; [parts|done].
  - apply assign_keep; [parts|done].
  - apply index_assign_stmt_keep; first [done|parts].
  - destruct isRealScope; [apply (block_node _ true b c r); [by apply trees_stmts|done]|].
    apply for_each_keep. eapply Forall_impl; [by apply (trees_stmts b c r)|]. intros e Hss. by apply Hss.
  - apply (if_keep b c r); [parts|parts| |done]. intros z ->. by apply optional_block.
  - apply (while_keep r); [parts|parts|apply He|done].
  - apply (do_while_keep r); [parts|parts|apply He|done].
  - apply (for_keep b c r); [|parts| |parts|done]; intros z ->.
    + match goal with T : Forall tree_ok (opt_list (Some z)) |- _ => apply Forall_cons in T as [Hz _] end.
      by destruct (Hz b c r) as (? & ? & ?).
    + match goal with T : Forall tree_ok (opt_list (Some z)) |- _ => apply Forall_cons in T as [Hz _] end.
      by destruct (Hz b c r) as (? & ? & ?).
  - destruct (break_ok _ _ _ _ _ He Hw) as (sw & ds' & ->). by apply triple_break.
  - apply triple_continue; [done..|]. apply (continue_ok _ _ _ _ _ He Hw).
  - destruct (trees_cases true c r body) as [? ?]; [done..|]. apply (switch_keep b c r); [parts|done..].
  - apply (foreach_keep r); [parts|parts|apply He|done].
Qed.

(** Every well formed tree is compiled to code that keeps the rules. *)
Lemma every_tree e : tree_ok e.
Proof.
  revert e. apply ast_children_ind. intros e Hc b c r Hw. split_and!.
  - by eapply exprs_node.
  - by apply stmts_node.
  - intros Hb. destruct e; try done. apply block_node. by apply trees_stmts.
Qed.
End Rules.
