(* ===== verification/CodeGenSpec.v ===== *)
(** * What the code generator promises

    Every function of a generated program is verified: [generate_verified].
    The generator ends, and has no undefined behaviour but a function with
    2^31 slots. *)

From S2P Require Import Prelude Doubles Config Lexer Ast Parser Bytecode CodeGen Verified CodeGenLogic CodeGenRules.
Open Scope nat_scope.

(** ** Between two functions *)

Section Counts.
Context {N : CountCast}.

Record generated (s : cg) : Prop := {
  g_objectVars : map_Forall (λ _ z, cast_of z (length (objectVarNames (out s)))) (objectVars_ s);
  g_classes : map_Forall (λ _ ms, small ms = true) (classDefs_ s);
  g_lambdas : Forall lambda_ok (pendingLambdas_ s);
  g_anons : Forall anon_ok (pendingAnonFuncs_ s);
  g_functions : Forall (verified to_i32 count_cast (out s)) (prog_functions (out s));
}.

(** [kept], for a run that may also lack fuel. *)
Definition kept_fuel {A} (post : A → cg → Prop) (r : result A * cg) : Prop :=
  match r with (OutOfFuel, _) => True | _ => kept post r end.

Lemma kept_fuel_weaken {A} (post : A → cg → Prop) r : kept post r → kept_fuel post r.
Proof. destruct r as [[] ?]; done. Qed.

Definition preserves {A} (P : cg → Prop) (f : M cg A) (Q : A → cg → Prop) : Prop :=
  ∀ s, P s → kept_fuel Q (f s).

Lemma preserves_bind {A B} P (f : M cg A) Q (k : A → M cg B) R :
  preserves P f Q → (∀ a, preserves (Q a) (k a) R) → preserves P (bind f k) R.
Proof.
  intros Hf Hk s H. specialize (Hf s H). unfold bind. destruct (f s) as [[a|[]| |] s']; simpl in *; try done.
  by apply (Hk a s').
Qed.

Lemma preserves_ret {A} (a : A) P : preserves P (ret a) (λ _, P).
Proof. by intros s H. Qed.

Lemma preserves_for_each {A} (f : A → M cg unit) l P :
  Forall (λ x, preserves P (f x) (λ _, P)) l → preserves P (for_each f l) (λ _, P).
Proof.
  induction 1 as [|x l Hx _ IH]; [apply preserves_ret|]. eapply preserves_bind; [exact Hx|]. by intros [].
Qed.

(** ** One function *)

Section Function.
Context (pre : list Instruction) (n m : Z) (n_pos : (0 ≤ n)%Z) (m_pos : (0 ≤ m)%Z).
Let at_start : fact := At (length pre) no_shape.

(** The state in which a body starts. *)
Lemma inv_start s F :
  generated s → prog_code (out s) = pre → loopStack_ s = [] → localScopeStack_ s = [] → locals_ s = ∅ →
  (n + m ≤ nextLocalSlot_ s < 2 ^ 31)%Z → ((0 < n)%Z → Z.of_nat (currentLambdaBoundValueCount_ s) = m) →
  Forall (fact_ok pre (λ _, no_shape) s) F →
  inv pre n m (mkCtx (at_start :: F) [] [] 0 no_shape) (λ _, no_shape) s.
Proof.
  intros [] Hpre Hl Hsc Hlocals Hslots Hcount HF. split; cbn; try done.
  - by rewrite Hpre.
  - intros k i Hk Hi. apply lookup_lt_Some in Hi. rewrite Hpre in Hi. unfold lo in Hk. lia.
  - rewrite Hl. constructor.
  - constructor; [|done]. split; [|done]. unfold lo, here. rewrite Hpre. lia.
  - by rewrite Hsc.
  - split; try done. by rewrite Hlocals.
  - eapply Forall_impl; [done|]. intros f. apply verified_mono. split_and!; cbn; [by rewrite Hpre|lia..].
Qed.

(** A body is closed by a return. *)
Lemma finish name numArgs isVarargs q sh F D s :
  inv pre n m (mkCtx (at_start :: F) [] [] q sh) D s → may_return sh →
  kept (λ _ s', generated s')
    ((do* _ := emit Return 0 0 in add_function name (length pre) numArgs isVarargs) s).
Proof.
  intros [Hpre Hhere Hcode _ Hloops Hfacts _ Hn Hdone] Hr. cbn in Hhere, Hloops, Hfacts.
  destruct Hn as [Hlocals Hslots Hcount Hobj Hcls Hlam Hanon]. inversion Hloops as [Hls|]; subst.
  apply Forall_cons in Hfacts as [[_ Hstart] _]. fold lo in Hstart. unfold lo in *.
  cbn. split; cbn; try done. apply Forall_app. split.
  - eapply Forall_impl; [exact Hdone|]. intros f. apply verified_mono. split_and!; cbn; try done.
    by apply prefix_app_r.
  - apply Forall_singleton.
    exists (length pre), (S (here s)), (nextLocalSlot_ s), D. cbn.
    pose proof (prefix_length _ _ Hpre) as Hlen. fold (here s) in Hlen.
    split_and!; try done; try lia; [rewrite length_app; cbn; fold (here s); lia|].
    intros k i Hk Hi. cbn in Hi. apply lookup_snoc_Some in Hi as [[Hlt Hi]|[-> <-]].
    + destruct (Hcode k i) as (Ho & Hf & Hj); [lia|done|]. fold (here s) in Hlt. split_and!; [done|done|lia|].
      intros sh' Hsh'. destruct (Hj sh' Hsh') as [Hin|(t & Ht & Ho' & HD)].
      * unfold pending in Hin. cbn in Hin. rewrite <- Hls in Hin. by apply elem_of_nil in Hin.
      * unfold lo in Ht. exists t. split_and!; [lia..|done|done].
    + fold (here s). split_and!; [done| |done|done]. exact Hr.
Qed.
End Function.

(** The declarations of the parameters leave the code alone. *)
Lemma declareLocal_out x t s z s' : declareLocal x t s = (Ok z, s') → out s' = out s.
Proof.
  unfold declareLocal, next_slot, bind_local. case_if; [|unfold bind, gets, modify, ret; case_if; [done|]];
    destruct (add_int (nextLocalSlot_ s) 1); try done; intros [= <- <-]; [done|].
  destruct (class_of_type t); cbn; by destruct (localScopeStack_ s).
Qed.

Definition declare_params (params : list Param) : M cg unit :=
  for_each (λ p, do* _ := declareLocal (param_name p) (param_type p) in ret tt) params.

Lemma declare_params_out params s u s' : declare_params params s = (Ok u, s') → out s' = out s.
Proof.
  revert s. induction params as [|p params IH]; intros s H; [by injection H as _ <-|].
  apply bind_Ok_inv in H as (u1 & s1 & H1 & H). apply bind_Ok_inv in H1 as (z & s2 & H1 & [= _ <-]).
  rewrite (IH _ H). by eapply declareLocal_out.
Qed.

Lemma declare_params_rule pre n m (n_pos : (0 ≤ n)%Z) (m_pos : (0 ≤ m)%Z) params F P ds q sh :
  triple pre n m (mkCtx F P ds q sh) (declare_params params) (λ _, mkCtx F P ds q sh).
Proof.
  apply for_each_keep. apply Forall_forall. intros p _.
  eapply triple_bind; [by apply triple_declareLocal|]. intros z. apply triple_done. set_solver.
Qed.

Lemma kept_bind {A B} (f : M cg A) (k : A → M cg B) s φ ψ :
  kept φ (f s) → (∀ a s', f s = (Ok a, s') → φ a s' → kept ψ (k a s')) → kept ψ (bind f k s).
Proof.
  intros Hf Hk. unfold bind. destruct (f s) as [[a|[]| |] s'] eqn:E; cbn in *; try done. by apply Hk.
Qed.

Lemma generated_reset s z : generated s → ∀ s', reset_function z s = (Ok tt, s') → generated s'.
Proof. intros [] s' [= <-]. by split. Qed.

(** A body without parameters of a lambda in scope. *)
Lemma emit_function_ok name params isVarargs body s :
  generated s → is_block body = true → wf 0 0 false false true body = true →
  kept (λ _ s', generated s') (emit_function name params isVarargs body s).
Proof.
  intros Hg Hb Hw. unfold emit_function. set (pre := prog_code (out s)).
  apply (kept_bind _ _ _ (λ _ _, True)); [exact I|]. intros [] s0 Hr _.
  pose proof (generated_reset _ _ Hg _ Hr) as Hg0.
  assert (inv pre 0 0 (mkCtx [At (length pre) no_shape] [] [] 0 no_shape) (λ _, no_shape) s0) as H0.
  { injection Hr as <-. apply inv_start; cbn; done || lia. }
  eapply kept_bind; [by eapply (declare_params_rule pre 0 0)|]. intros [] s1 Hd [D1 H1]. cbv beta in H1.
  apply declare_params_out in Hd.
  assert (here s1 = length pre) as Hhere by (unfold here; rewrite Hd; by injection Hr as <-).
  apply (kept_bind _ _ _ (λ _ _, True)); [exact I|]. intros t s2 [= <- <-] _. rewrite Hhere.
  destruct (every_tree pre 0 0 ltac:(done) ltac:(done) body _ _ _ Hw) as (_ & _ & Hbody).
  eapply kept_bind; [eapply (Hbody Hb _ _ _ _ _); [by split|exact H1]|].
  intros [] s3 _ [D3 H3]. eapply (finish pre 0 0); [done..|exact H3|]. split_and!; cbn; first [done|lia].
Qed.

(** A lambda's body is a list of expressions. *)
Lemma emit_body_rule pre n m (n_pos : (0 ≤ n)%Z) (m_pos : (0 ≤ m)%Z) body F P ds q :
  forallb (wf_expr n m) body = true →
  ∃ sh, may_return sh ∧ triple pre n m (mkCtx F P ds q no_shape) (emit_body body) (λ _, mkCtx F P ds q sh).
Proof.
  intros Hw. induction body as [|e body IH].
  { exists no_shape. split; [split_and!; cbn; first [done|lia]|]. by apply triple_ret. }
  cbn [forallb] in Hw. apply andb_true_iff in Hw as [He Hw].
  assert (expr_ok pre n m e) as Hex by (by apply (every_tree pre n m n_pos m_pos e _ _ _ He)).
  destruct body as [|e2 body].
  - exists (push no_shape). split; [split_and!; cbn; first [done|lia]|]. apply Hex.
  - destruct (IH Hw) as (sh & Hr & Hbody). exists sh. split; [done|].
    change (emit_body (e :: e2 :: body)) with (do* _ := emitExpr e in do* _ := emit Pop 0 0 in emit_body (e2 :: body)).
    eapply triple_bind; [apply Hex|]. intros []. eapply triple_bind; [by eapply triple_emit|]. intros []. exact Hbody.
Qed.

Lemma emit_lambda_ok p s : generated s → lambda_ok p → kept (λ _ s', generated s') (emit_lambda p s).
Proof.
  intros Hg [Hw Hn]. unfold emit_lambda. set (n := lambda_paramCount p) in *.
  set (m := Z.of_nat (lambda_boundValues p)) in *. set (pre := prog_code (out s)).
  assert (add_int (to_i32 m) n = Ok (n + m)%Z) as ->.
  { rewrite to_i32_small by lia. unfold add_int, in_i32. rewrite Z.add_comm.
    by rewrite (proj2 (Z.leb_le _ _)), (proj2 (Z.ltb_lt _ _)) by lia. }
  apply (kept_bind _ _ _ (λ _ _, True)); [exact I|]. intros slots s0 [= <- <-] _.
  apply (kept_bind _ _ _ (λ _ _, True)); [exact I|]. intros [] s1 Hr _.
  pose proof (generated_reset _ _ Hg _ Hr) as Hg1.
  apply (kept_bind _ _ _ (λ _ _, True)); [exact I|]. intros [] s2 [= <-] _.
  assert (inv pre n m (mkCtx [At (length pre) no_shape] [] [] 0 no_shape) (λ _, no_shape)
            (s1 <| currentLambdaBoundValueCount_ := lambda_boundValues p |>)) as H0.
  { injection Hr as <-. apply inv_start; cbn; try done; try lia. destruct Hg. by split. }
  apply (kept_bind _ _ _ (λ _ _, True)); [exact I|]. intros t s2 [= <- <-] _.
  replace (here _) with (length pre) by (by injection Hr as <-).
  destruct (emit_body_rule pre n m ltac:(lia) ltac:(lia) (lambda_body p) [At (length pre) no_shape] [] [] 0 Hw)
    as (sh & Hsh & Hbody).
  eapply kept_bind; [exact (Hbody _ _ H0)|]. intros [] s3 _ [D3 H3].
  eapply (finish pre n m); [lia..|exact H3|done].
Qed.

(** ** The queues *)

Lemma drain_ok {A} (queue : cg → list A) clear work (good : A → Prop) k i :
  (∀ s, generated s → Forall good (queue s)) → (∀ s, generated s → generated (clear s)) →
  (∀ p s, generated s → good p → kept (λ _ s', generated s') (work p s)) →
  preserves generated (drain queue clear work k i) (λ _ s, generated s).
Proof.
  intros Hq Hc Hw. revert i. induction k as [|k IH]; intros i s Hg; [done|]. cbn.
  unfold bind, gets. destruct (queue s !! i) as [p|] eqn:E; [|by apply Hc].
  specialize (Hw p s Hg). destruct (work p s) as [[[]|[]| |] s'];
    pose proof (Forall_lookup_1 _ _ _ _ (Hq s Hg) E) as Hp; specialize (Hw Hp); try done. by apply IH.
Qed.

Lemma pending_lambdas_ok k : preserves generated (emitPendingLambdas k) (λ _ s, generated s).
Proof.
  apply drain_ok with lambda_ok; [by intros s []|intros s []; split; try done; constructor|].
  intros p s. apply emit_lambda_ok.
Qed.

Lemma pending_anons_ok k : preserves generated (emitPendingAnonFuncs k) (λ _ s, generated s).
Proof.
  apply drain_ok with anon_ok; [by intros s []|intros s []; split; try done; constructor|].
  intros p s Hg (Hb & Hw & _). by apply emit_function_ok.
Qed.

Lemma emit_pending_ok k rounds : preserves generated (emitPending k rounds) (λ _ s, generated s).
Proof.
  induction rounds as [|rounds IH]; cbn; intros s Hg; unfold bind at 1, gets; destruct (nothing_pending s); try done.
  revert s Hg. eapply preserves_bind; [apply pending_lambdas_ok|]. intros [].
  eapply preserves_bind; [apply pending_anons_ok|]. by intros [].
Qed.

(** ** Programs *)

Definition wf_function (f : FunctionDecl) : bool :=
  opt_all (λ b, is_block b && wf 0 0 false false true b) (fn_body f).

(** What the parser makes: [break], [continue], [return] and [$N] are where
    they mean something. *)
Definition wf_program (p : Program) : bool :=
  forallb wf_function (Ast.functions p) &&
  forallb (λ v, opt_all (wf_expr 0 0) (var_initializer v)) (objectVars p) &&
  forallb (λ c, small (memberNames c)) (classes p).

Lemma var_slots_ok names i mp :
  map_Forall (λ _ z, cast_of z i) mp → map_Forall (λ _ z, cast_of z (i + length names)) (var_slots i names mp).
Proof.
  revert i mp. induction names as [|x names IH]; intros i mp H; [by rewrite Nat.add_0_r|].
  cbn [var_slots length]. rewrite <- Nat.add_succ_comm. apply IH, map_Forall_insert_2.
  - exists i. split; [lia|done].
  - eapply map_Forall_impl; [done|]. intros y z. apply denotes_more. lia.
Qed.

Lemma class_defs_ok cs :
  forallb (λ c, small (memberNames c)) cs = true → map_Forall (λ _ ms, small ms = true) (class_defs cs).
Proof.
  unfold class_defs. assert (map_Forall (λ _ ms, small ms = true) (∅ : gmap bytes (list bytes))) as H by done.
  revert H. generalize (∅ : gmap bytes (list bytes)). induction cs as [|c cs IH]; intros mp H Hw; [done|].
  cbn [forallb] in Hw. apply andb_true_iff in Hw as [Hc Hw]. apply IH; [|done]. by apply map_Forall_insert_2.
Qed.

(** Before the first function there is no code. *)
Definition no_code (s : cg) : Prop := prog_code (out s) = [] ∧ prog_functions (out s) = [].

Lemma begin_ok p names :
  wf_program p = true →
  generated (begin_program p names new_cg) ∧ no_code (begin_program p names new_cg).
Proof.
  intros Hw. unfold wf_program in Hw. prop_tests. split; [|done]. split; cbn; try constructor.
  - intros x z. by apply (var_slots_ok names 0 ∅).
  - by apply class_defs_ok.
Qed.

Definition initializers_ok (s : cg) (pending : list (Z * ast)) : Prop :=
  Forall (λ '(z, e), cast_of z (length (objectVarNames (out s))) ∧ wf_expr 0 0 e = true) pending.

Lemma declare_objectVar_ok v s :
  generated s → no_code s → opt_all (wf_expr 0 0) (var_initializer v) = true →
  let n := length (objectVarNames (out s)) in
  match declare_objectVar v s with
  | (Ok (z, e), s') =>
      generated s' ∧ no_code s' ∧ z = to_i32 (Z.of_nat n) ∧ e = var_initializer v ∧
      length (objectVarNames (out s')) = S n
  | _ => False
  end.
Proof.
  intros [] [Hc Hf] Hw n. unfold declare_objectVar.
  set (s1 := s <| objectVars_ ::= _ |> <| out := _ |>).
  assert (generated s1) as Hg.
  { split; cbn; try done.
    - apply map_Forall_insert_2.
      + exists n. rewrite length_app. simpl. split; [lia|done].
      + eapply map_Forall_impl; [done|]. intros y z. apply denotes_more. rewrite length_app. lia.
    - by rewrite Hf. }
  assert (length (objectVarNames (out s1)) = S n) as Hn by (cbn; rewrite length_app; simpl; lia).
  destruct (class_of_type (var_type v)); (split_and!; try done). by destruct Hg; split.
Qed.

Lemma declare_objectVars_ok vs s :
  generated s → no_code s → forallb (λ v, opt_all (wf_expr 0 0) (var_initializer v)) vs = true →
  match declare_objectVars vs s with
  | (Ok pending, s') => generated s' ∧ no_code s' ∧ initializers_ok s' pending ∧
      length (objectVarNames (out s)) ≤ length (objectVarNames (out s'))
  | _ => False
  end.
Proof.
  revert s. induction vs as [|v vs IH]; intros s Hg Hc Hw; [by split_and!; [..|constructor|]|].
  cbn [forallb declare_objectVars] in *. apply andb_true_iff in Hw as [Hv Hw]. unfold bind.
  pose proof (declare_objectVar_ok v s Hg Hc Hv) as H1.
  destruct (declare_objectVar v s) as [[[z e]| | |] s1]; try done. destruct H1 as (Hg1 & Hc1 & -> & -> & Hn1).
  specialize (IH s1 Hg1 Hc1 Hw). destruct (declare_objectVars vs s1) as [[rest| | |] s2]; try done.
  destruct IH as (Hg2 & Hc2 & Hp & Hn2). cbn. split_and!; try done; [|lia].
  unfold initializers_ok. destruct (var_initializer v) as [e|]; [|done]. constructor; [|done].
  split; [|done]. exists (length (objectVarNames (out s))). split; [lia|done].
Qed.

Definition init_facts (pending : list (Z * ast)) : list fact :=
  map (λ '(z, _), IsVar (mkResolved ObjectVar z)) pending.

Lemma initializers_rule pre pending F P ds q :
  Forall (λ '(_, e), wf_expr 0 0 e = true) pending → init_facts pending ⊆ F →
  triple pre 0 0 (mkCtx F P ds q no_shape)
    (for_each (λ '(z, e), do* _ := emitExpr e in emit StoreObjectVar z 0) pending) (λ _, mkCtx F P ds q no_shape).
Proof.
  intros Hw HF. apply for_each_keep. apply Forall_forall. intros [z e] Hin. rewrite Forall_forall in Hw.
  eapply triple_bind; [by apply (every_tree pre 0 0 ltac:(done) ltac:(done) e _ _ _ (Hw _ Hin))|]. intros [].
  eapply triple_emit; [done| |done]. cbn. apply HF, list_elem_of_fmap. by exists (z, e).
Qed.

Lemma init_facts_ok pre D s pending : initializers_ok s pending → Forall (fact_ok pre D s) (init_facts pending).
Proof.
  intros Hp. apply Forall_map. eapply Forall_impl; [exact Hp|]. intros [z e] [Hz _]. exact Hz.
Qed.

(** The body of [$objvarinit]. *)
Lemma emit_initializers_ok pending s :
  generated s → initializers_ok s pending →
  kept (λ _ s', generated s') (emit_initializers pending s).
Proof.
  intros Hg Hp. unfold emit_initializers. set (pre := prog_code (out s)).
  apply (kept_bind _ _ _ (λ _ _, True)); [exact I|]. intros [] s1 Hr _.
  pose proof (generated_reset _ _ Hg _ Hr) as Hg1.
  assert (inv pre 0 0 (mkCtx (At (length pre) no_shape :: init_facts pending) [] [] 0 no_shape)
            (λ _, no_shape) s1) as H0.
  { injection Hr as <-. apply inv_start; cbn; try done; try lia. by apply init_facts_ok. }
  apply (kept_bind _ _ _ (λ _ _, True)); [exact I|]. intros t s2 [= <- <-] _.
  replace (here s1) with (length pre) by (by injection Hr as <-).
  eapply kept_bind; [eapply (initializers_rule pre pending); [| |exact H0]|].
  - eapply Forall_impl; [exact Hp|]. by intros [z e] [_ He].
  - set_solver.
  - intros [] s3 _ [D3 H3]. eapply (finish pre 0 0); [done..|exact H3|]. split_and!; cbn; first [done|lia].
Qed.

Lemma kept_fuel_bind {A B} (f : M cg A) (k : A → M cg B) s φ ψ :
  kept_fuel φ (f s) → (∀ a s', φ a s' → kept_fuel ψ (k a s')) → kept_fuel ψ (bind f k s).
Proof. intros Hf Hk. unfold bind. destruct (f s) as [[a|[]| |] s'] eqn:E; cbn in *; try done. by apply Hk. Qed.

Lemma emit_objvarinit_ok k pending s :
  generated s → initializers_ok s pending → kept_fuel (λ _ s', generated s') (emit_objvarinit k pending s).
Proof.
  intros Hg Hp. destruct pending as [|p0 pending]; [done|].
  eapply kept_fuel_bind with (φ := λ _ s', generated s');
    [apply kept_fuel_weaken; by apply emit_initializers_ok|]. intros []. apply pending_lambdas_ok.
Qed.

Lemma emit_declared_ok k f : wf_function f = true → preserves generated (emit_declared k f) (λ _ s, generated s).
Proof.
  intros Hw s Hg. unfold emit_declared, wf_function in *. destruct (fn_body f) as [body|]; [|done].
  cbn in Hw. prop_tests. eapply kept_fuel_bind with (φ := λ _ s', generated s');
    [apply kept_fuel_weaken; by apply emit_function_ok|].
  intros []. apply emit_pending_ok.
Qed.

(** [generate] keeps the rules. *)
Lemma generate_kept k p names :
  wf_program p = true →
  kept_fuel (λ c s, c = out s ∧ generated s) (generate k p names new_cg).
Proof.
  intros Hw. destruct (begin_ok p names Hw) as [Hg Hc]. unfold wf_program in Hw. prop_tests.
  unfold generate. set (s0 := begin_program p names new_cg) in *.
  eapply kept_fuel_bind with (φ := λ _ s, s = s0); [done|]. intros [] ? ->.
  pose proof (declare_objectVars_ok (objectVars p) s0 Hg Hc H1) as Hd.
  eapply kept_fuel_bind with (φ := λ pending s, generated s ∧ initializers_ok s pending).
  { destruct (declare_objectVars (objectVars p) s0) as [[pending| | |] s1]; try done. by destruct Hd as (? & _ & ? & _). }
  intros pending s1 [Hg1 Hp]. eapply kept_fuel_bind; [by apply emit_objvarinit_ok|]. intros [] s2 Hg2.
  eapply kept_fuel_bind with (φ := λ _ s', generated s'); [|by intros [] s3 Hg3].
  revert s2 Hg2. apply preserves_for_each. apply forallb_Forall in H.
  eapply Forall_impl; [exact H|]. intros f. apply emit_declared_ok.
Qed.

End Counts.

(** C29: every function of a generated program is verified: each instruction
    finds the values it pops, its slot, its constant and its target, no function
    runs into another, a [return] leaves at most its value on the stack, and no
    [catch] frame or timer is left open.  The program is one in which [break],
    [continue], [return] and [$N] are where they mean something (no jump out of
    a [time_expression], no [$N] in an anonymous function with names, which the
    parser accepts), of less than 2^31 instructions, strings, doubles and
    variables; the number of locals is the number of slots cut to eight bits.  Otherwise the generator
    throws an error for the driver; its only undefined behaviour is a function
    with 2^31 slots. *)
Theorem generate_verified k p names :
  wf_program p = true →
  match generate k p names new_cg with
  | (Ok c, _) => small_program c → Forall (verified id to_u8 c) (prog_functions c)
  | (Throw (LpcRuntimeError _), _) | (OutOfFuel, _) => True
  | (Undefined, s) => nextLocalSlot_ s = (2 ^ 31 - 1)%Z
  | (Throw _, _) => False
  end.
Proof.
  intros Hw. pose proof (generate_kept k p names Hw) as H.
  destruct (generate k p names new_cg) as [[c|[]| |] s]; try exact H; try done.
  destruct H as [-> [_ _ _ _ Hf]]. intros Hc. eapply Forall_impl; [exact Hf|]. intros f. by apply verified_exact.
Qed.

(** A program with loops, a switch, a lambda and an anonymous function,
    through the lexer, the parser and the generator. *)
Definition sample_source : bytes :=
  $"int total = 3; int f(int a, int b) { int i; for (i = 0; i < a; i++) { if (i == b) continue; total += i * 2; if (total > 10) break; } switch (i) { case 1: return b; case 2..5: total = 0; default: return (: $1 + $2 :); } return function(int x) { return x ? catch(f(x, 1)) : ({ x, total }); }; }".

Definition sample : Program :=
  match tokenize FluffOS sample_source with
  | Ok ts => match parseProgram FluffOS ts with Ok p => p | _ => mkProgram [] [] [] [] end
  | _ => mkProgram [] [] [] []
  end.

Definition sample_code : CompiledProgram := Eval vm_compute in out (snd (generate 10 sample [] new_cg)).

Lemma sample_compiles : generate 10 sample [] new_cg = (Ok sample_code, snd (generate 10 sample [] new_cg)).
Proof. vm_compute. reflexivity. Qed.

Lemma generate_verified_witness :
  length (prog_functions sample_code) = 4 ∧ Forall (verified id to_u8 sample_code) (prog_functions sample_code).
Proof.
  split; [reflexivity|]. assert (wf_program sample = true) as Hw by (by vm_compute).
  pose proof (generate_verified 10 sample [] Hw) as H. rewrite sample_compiles in H. apply H. repeat constructor.
Defined.
