(* ===== verification/CodeGenTotal.v ===== *)
(** * The code generator ends

    The bodies of lambdas and anonymous functions wait in queues that grow
    while they are worked through: compiling a body adds the literals in it.
    A literal weighs one more than its body, so that a turn of a loop makes the
    queues lighter.  Some trees are emitted twice, and count twice. *)

From S2P Require Import Prelude Doubles Ast Bytecode CodeGen CodeGenRules CodeGenSpec.
Open Scope nat_scope.

Definition sum (l : list nat) : nat := foldr Nat.add 0 l.
Arguments sum : simpl never.

Lemma sum_cons x l : sum (x :: l) = x + sum l.
Proof. done. Qed.
Lemma sum_nil : sum [] = 0.
Proof. done. Qed.

(** [k] bounds the members of a class: a member that is declared twice is
    initialised twice. *)
Fixpoint weight (k : nat) (e : ast) {struct e} : nat :=
  let w := weight k in
  let opt o := match o with Some x => w x | None => 0 end in
  match e with
  | BinaryExpr _ x y | CommaExpr x y | WhileStmt x y | DoWhileStmt x y | ForeachStmt _ _ _ _ _ x y _ _ => w x + w y
  | UnaryExpr _ x | CatchExpr x | TypeCastExpr _ x | AssignExpr _ x _ _ | ExprStmt x | AssignStmt _ x
  | TimeExpressionExpr x => w x
  | TernaryExpr x y z => w x + w y + w z
  | CallExpr _ xs _ _ _ _ | ClosureLiteralExpr _ xs _ | ArrayLiteralExpr xs _ | Block xs _ => sum (map w xs)
  | CallOtherExpr x y xs _ => w x + w y + sum (map w xs)
  | SscanfExpr x y _ xs => w x + w y + sum (map opt xs)
  | InlineLambdaExpr xs _ ys => S (sum (map w xs)) + sum (map w ys)
  | AnonFunctionExpr _ _ x => S (w x)
  | ReturnStmt x | VarDeclStmt _ _ _ x => opt x
  | IncDecExpr _ _ _ x y z => 2 * (opt x + opt y + opt z)
  | MappingLiteralExpr xs => sum (map (λ '(x, vs), w x + sum (map w vs)) xs)
  | NewClassExpr _ xs => k * sum (map (λ '(_, x), w x) xs)
  | IndexExpr x y z _ _ u => w x + w y + opt z + opt u
  | IndexAssignStmt x y z _ _ u | IndexAssignExpr x y z _ _ u => 2 * (w x + w y + opt u) + w z
  | IfStmt x y z => w x + w y + opt z
  | ForStmt x y z u => opt x + opt y + opt z + w u
  | CaseLabel x y => opt x + opt y
  | SwitchStmt x xs => w x + sum (map w xs)
  | _ => 0
  end.

Definition opt_weight (k : nat) (o : option ast) : nat := match o with Some x => weight k x | None => 0 end.

Section Weight.
Context (k : nat).

Definition lambda_weight (p : PendingLambda) : nat := S (sum (map (weight k) (lambda_body p))).
Definition anon_weight (p : PendingAnonFunc) : nat := S (weight k (anon_body p)).
Definition queued (ls : list PendingLambda) (fs : list PendingAnonFunc) : nat :=
  sum (map lambda_weight ls) + sum (map anon_weight fs).

Definition small_classes (s : cg) : Prop := map_Forall (λ _ ms, length ms ≤ k) (classDefs_ s).

(** A run that returns or throws, and queues at most [j]. *)
Definition adds {A} (j : nat) (f : M cg A) : Prop := ∀ s, small_classes s →
  match f s with
  | (OutOfFuel, _) => False
  | (_, s') => small_classes s' ∧ ∃ ls fs, pendingLambdas_ s' = pendingLambdas_ s ++ ls ∧
                 pendingAnonFuncs_ s' = pendingAnonFuncs_ s ++ fs ∧ queued ls fs ≤ j
  end.

Lemma sum_app l l' : sum (l ++ l') = sum l + sum l'.
Proof. induction l; simpl; rewrite ?sum_cons, ?sum_nil; lia. Qed.

Lemma queued_app ls ls' fs fs' : queued (ls ++ ls') (fs ++ fs') = queued ls fs + queued ls' fs'.
Proof. unfold queued. rewrite !map_app, !sum_app. lia. Qed.

Lemma adds_le {A} i j (f : M cg A) : adds i f → i ≤ j → adds j f.
Proof.
  intros Hf Hle s Hs. specialize (Hf s Hs). destruct (f s) as [[] s']; try done;
    destruct Hf as (? & ls & fs & ? & ? & ?); (split; [done|]); exists ls, fs; split_and!; try done; lia.
Qed.

Lemma adds_bind {A B} i j (f : M cg A) (g : A → M cg B) :
  adds i f → (∀ a, adds j (g a)) → adds (i + j) (bind f g).
Proof.
  intros Hf Hg s Hs. specialize (Hf s Hs). unfold bind.
  destruct (f s) as [[a|e| |] s1]; try done; destruct Hf as (Hs1 & ls & fs & Hl & Ha & Hq);
    try (split; [done|]; exists ls, fs; split_and!; [done..|lia]).
  specialize (Hg a s1 Hs1). destruct (g a s1) as [[] s2]; try done;
    destruct Hg as (Hs2 & ls2 & fs2 & Hl2 & Ha2 & Hq2); (split; [done|]); exists (ls ++ ls2), (fs ++ fs2);
    rewrite Hl2, Hl, Ha2, Ha, queued_app, !app_assoc; split_and!; try done; lia.
Qed.

(** A step that leaves the queues and the classes alone. *)
Lemma adds_still {A} (f : M cg A) :
  (∀ s, let '(r, s') := f s in r ≠ OutOfFuel ∧ classDefs_ s' = classDefs_ s ∧
         pendingLambdas_ s' = pendingLambdas_ s ∧ pendingAnonFuncs_ s' = pendingAnonFuncs_ s) → adds 0 f.
Proof.
  intros H s Hs. specialize (H s). destruct (f s) as [r s']. destruct H as (Hr & Hc & Hl & Ha).
  assert (small_classes s') by (unfold small_classes; by rewrite Hc).
  destruct r; try done; (split; [done|]); exists [], []; by rewrite !app_nil_r.
Qed.

Ltac still :=
  apply adds_still; intros s; unfold undefined_class, no_member, codegen_error, throw; cbn;
  repeat case_match; cbn; simplify_eq/=; done.

Lemma adds_ret {A} (a : A) : adds 0 (ret a). Proof. still. Qed.
Lemma adds_undefined {A} : adds 0 (@lift cg A Undefined). Proof. still. Qed.
Lemma adds_error {A} msg : adds 0 (@codegen_error A msg). Proof. still. Qed.
Lemma adds_gets {A} (f : cg → A) : adds 0 (gets f). Proof. still. Qed.
Lemma adds_emit o x y : adds 0 (emit o x y). Proof. still. Qed.
Lemma adds_patchJumpTo j t : adds 0 (patchJumpTo j t). Proof. unfold patchJumpTo. still. Qed.
Lemma adds_internString x : adds 0 (internString x). Proof. unfold internString. still. Qed.
Lemma adds_internFloat x : adds 0 (internFloat x). Proof. unfold internFloat. still. Qed.
Lemma adds_resolveVariable x : adds 0 (resolveVariable x). Proof. unfold resolveVariable. still. Qed.
Lemma adds_resolveClassMemberIndex c x : adds 0 (resolveClassMemberIndex c x).
Proof. unfold resolveClassMemberIndex. still. Qed.
Lemma adds_next_slot : adds 0 next_slot. Proof. unfold next_slot. still. Qed.
Lemma adds_bind_local x t z : adds 0 (modify (bind_local x t z)).
Proof.
  apply adds_still. intros s. unfold modify, bind_local.
  destruct (class_of_type t); cbn; by destruct (localScopeStack_ s).
Qed.
Lemma adds_openScope : adds 0 openScope. Proof. still. Qed.
Lemma adds_closeScope : adds 0 closeScope. Proof. unfold closeScope. still. Qed.
Lemma adds_openLoop b : adds 0 (openLoop b). Proof. still. Qed.
Lemma adds_closeLoop : adds 0 closeLoop. Proof. unfold closeLoop. still. Qed.
Lemma adds_break : adds 0 emitBreakStmt.
Proof. apply adds_still. intros s. unfold emitBreakStmt. by destruct (loopStack_ s). Qed.
Lemma adds_continue : adds 0 emitContinueStmt.
Proof. apply adds_still. intros s. unfold emitContinueStmt. by destruct (add_continue _ _). Qed.
Lemma adds_next_indexAssign : adds 0 next_indexAssign. Proof. still. Qed.
Lemma adds_next_foreach : adds 0 next_foreach. Proof. still. Qed.
Lemma adds_next_switch : adds 0 next_switch. Proof. still. Qed.
Lemma adds_lambda_param i b : adds 0 (emitLambdaParam i b).
Proof. apply adds_still. intros s. unfold emitLambdaParam, bind, gets, lift. cbn. destruct b; [done|].
  unfold add_int. by destruct (in_i32 _). Qed.

Lemma adds_if {A} i j (b : bool) (f g : M cg A) :
  adds i f → adds j g → adds (Nat.max i j) (if b then f else g).
Proof. intros Hf Hg. destruct b; eapply adds_le; eauto; lia. Qed.

Lemma adds_for_each {A} (f : A → M cg unit) (w : A → nat) l :
  Forall (λ x, adds (w x) (f x)) l → adds (sum (map w l)) (for_each f l).
Proof. induction 1; [apply adds_ret|]. cbn [map]. rewrite sum_cons. apply adds_bind; [done|]. by intros []. Qed.

Lemma adds_for_each_still {A} (f : A → M cg unit) l : (∀ x, adds 0 (f x)) → adds 0 (for_each f l).
Proof.
  intros Hf. induction l as [|x l IH]; [apply adds_ret|]. eapply (adds_bind 0 0); [apply Hf|]. by intros [].
Qed.

Lemma adds_if_some {A} (f : A → M cg unit) (w : A → nat) o :
  (∀ x, o = Some x → adds (w x) (f x)) → adds (match o with Some x => w x | None => 0 end) (if_some f o).
Proof. intros H. destruct o; [by apply H|apply adds_ret]. Qed.

Lemma adds_spreads l : adds 0 (emitSpreadExpansions l).
Proof.
  unfold emitSpreadExpansions. induction l as [|b l IH]; [apply adds_ret|].
  apply (adds_bind 0 0); [|by intros []]. destruct b; [apply adds_emit|apply adds_ret].
Qed.

Lemma adds_declareLocal x t : adds 0 (declareLocal x t).
Proof.
  unfold declareLocal. case_if; [apply adds_next_slot|].
  apply (adds_bind 0 0); [apply adds_gets|]. intros ls. case_if; [apply adds_error|].
  apply (adds_bind 0 0); [apply adds_next_slot|]. intros z.
  apply (adds_bind 0 0); [apply adds_bind_local|]. intros []. apply adds_ret.
Qed.

Lemma adds_hidden_local x : adds 0 (hidden_local x).
Proof. apply (adds_bind 0 0); [apply adds_next_indexAssign|]. intros z. apply adds_declareLocal. Qed.

Lemma adds_patchAll t js : adds 0 (patchAll t js).
Proof. apply adds_for_each_still. intros j. apply adds_patchJumpTo. Qed.
Lemma adds_patchJumpToHere j : adds 0 (patchJumpToHere j).
Proof. apply (adds_bind 0 0); [apply adds_gets|]. intros t. apply adds_patchJumpTo. Qed.
Lemma adds_patchAllHere js : adds 0 (patchAllHere js).
Proof. apply adds_for_each_still. intros j. apply adds_patchJumpToHere. Qed.
Lemma adds_placeholder o : adds 0 (emitJumpPlaceholder o).
Proof.
  apply (adds_bind 0 0); [apply adds_gets|]. intros j. apply (adds_bind 0 0); [apply adds_emit|]. intros [].
  apply adds_ret.
Qed.
Lemma adds_combine o : adds 0 (emit_combine o).
Proof. unfold emit_combine. destruct (compound_opcode o); [apply adds_emit|apply adds_error]. Qed.

Definition expr_adds (e : ast) : Prop := adds (weight k e) (emitExpr e).
Definition stmt_adds (e : ast) : Prop := adds (weight k e) (emitStatement e).
Definition block_adds (e : ast) : Prop := adds (weight k e) (emitBlock emitStatement e).

Lemma adds_exprs l : Forall expr_adds l → adds (sum (map (weight k) l)) (for_each emitExpr l).
Proof. apply adds_for_each. Qed.

Lemma adds_opt o : (∀ e, o = Some e → expr_adds e) → adds (opt_weight k o) (if_some emitExpr o).
Proof. apply adds_if_some. Qed.

(** The steps of a member function. *)
Ltac prim :=
  first
  [ match goal with
    | H : expr_adds ?e |- adds _ (emitExpr ?e) => exact H
    | H : stmt_adds ?e |- adds _ (emitStatement ?e) => exact H
    | H : block_adds ?e |- adds _ (emitBlock emitStatement ?e) => exact H
    | H : Forall expr_adds ?l |- adds _ (for_each emitExpr ?l) => exact (adds_exprs l H)
    | H : ∀ e, ?o = Some e → expr_adds e |- adds _ (if_some emitExpr ?o) => exact (adds_opt o H)
    end
  | apply adds_emit | apply adds_ret | apply adds_gets | apply adds_error | apply adds_undefined
  | apply adds_patchJumpToHere | apply adds_patchAllHere | apply adds_patchAll | apply adds_placeholder
  | apply adds_internString | apply adds_internFloat | apply adds_resolveVariable
  | apply adds_resolveClassMemberIndex | apply adds_declareLocal | apply adds_hidden_local
  | apply adds_openScope | apply adds_closeScope | apply adds_openLoop | apply adds_closeLoop
  | apply adds_next_indexAssign | apply adds_next_foreach | apply adds_next_switch
  | apply adds_break | apply adds_continue | apply adds_lambda_param | apply adds_spreads | apply adds_combine ].

Ltac adds_go :=
  cbv beta iota zeta;
  lazymatch goal with
  | |- adds _ (bind _ _) => eapply adds_bind; [adds_go | intros ?; adds_go]
  | |- adds _ (if ?b then _ else _) => apply adds_if; adds_go
  | _ => prim
  end.
Ltac adds_run := eapply adds_le; [adds_go | cbn [weight opt_weight] in *; unfold opt_weight; lia].

Lemma adds_index_value x i : expr_adds i → adds (weight k i) (emitIndexValue emitExpr x i).
Proof.
  intros Hi. destruct i; try exact Hi. unfold emitIndexValue. adds_run.
Qed.

Lemma adds_lvalue x i col :
  expr_adds x → expr_adds i → (∀ e, col = Some e → expr_adds e) →
  adds (weight k x + (weight k i + opt_weight k col)) (emit_lvalue emitExpr x i col).
Proof.
  intros Hx Hi Hcol. apply adds_bind; [done|]. intros []. apply adds_bind; [by apply adds_index_value|].
  intros []. by apply adds_opt.
Qed.

Lemma adds_new_value x i v c o col :
  expr_adds x → expr_adds i → expr_adds v → (∀ e, col = Some e → expr_adds e) →
  adds (weight k x + (weight k i + opt_weight k col) + weight k v) (emit_new_value emitExpr x i v c o col).
Proof.
  intros Hx Hi Hv Hcol. unfold emit_new_value. destruct c; [|eapply adds_le; [exact Hv|lia]].
  apply adds_bind; [by apply adds_lvalue|]. intros []. adds_run.
Qed.

Ltac adds_with L := lazymatch goal with |- adds _ (bind _ _) => eapply adds_bind; [by apply L|intros ?; cbv beta] end.

Lemma adds_mapping es :
  Forall (λ '(x, vs), expr_adds x ∧ Forall expr_adds vs) es →
  adds (sum (map (λ '(x, vs), weight k x + sum (map (weight k) vs)) es)) (emitMappingLiteral emitExpr es).
Proof.
  intros H. eapply adds_le; [eapply adds_bind|].
  - apply (adds_for_each _ (λ '(x, vs), weight k x + sum (map (weight k) vs))).
    eapply Forall_impl; [exact H|]. intros [x vs] [Hx Hvs]. adds_go.
  - intros []. apply adds_emit.
  - lia.
Qed.

Lemma adds_member fs x :
  Forall (λ '(_, e), expr_adds e) fs → adds (sum (map (λ '(_, e), weight k e) fs)) (emit_member emitExpr fs x).
Proof.
  induction 1 as [|[y e] fs He _ IH]; [apply adds_emit|]. cbn [emit_member map]. rewrite sum_cons. case_if; [eapply adds_le; [exact He|lia]|].
  eapply adds_le; [exact IH|lia].
Qed.

Lemma adds_classes {A} (j : nat) (f : gmap bytes (list bytes) → M cg A) :
  (∀ defs : gmap bytes (list bytes), map_Forall (λ _ ms, length ms ≤ k) defs → adds j (f defs)) → adds j (bind (gets classDefs_) f).
Proof. intros H s Hs. exact (H _ Hs s Hs). Qed.

Lemma sum_const {A} (l : list A) w : sum (map (λ _, w) l) = length l * w.
Proof. induction l; simpl; rewrite ?sum_cons, ?sum_nil; lia. Qed.

Lemma adds_new_class x fs :
  Forall (λ '(_, e), expr_adds e) fs →
  adds (k * sum (map (λ '(_, e), weight k e) fs)) (emitNewClassExpr emitExpr x fs).
Proof.
  intros H. apply adds_classes. intros defs Hdefs.
  destruct (defs !! x) as [members|] eqn:E; [|eapply adds_le; [apply adds_error|lia]]. specialize (Hdefs _ _ E).
  eapply adds_le; [eapply adds_bind; [eapply adds_for_each|]|].
  - apply Forall_forall. intros y _. exact (adds_member fs y H).
  - intros []. eapply (adds_bind 0); [|intros []; apply adds_emit].
    apply adds_for_each_still. intros [y e]. case_if; [apply adds_ret|apply adds_error].
  - rewrite sum_const. cbv beta in Hdefs. pose proof (Nat.mul_le_mono_r _ _ (sum (map (λ '(_, e), weight k e) fs)) Hdefs). lia.
Qed.

Lemma adds_sscanf_slots names ts : adds 0 (sscanf_slots names ts).
Proof.
  revert ts. induction names as [|x names IH]; intros [|[e|] ts]; try (apply adds_ret); try (apply adds_undefined).
  - apply (adds_bind 0 0); [apply adds_hidden_local|]. intros z. apply (adds_bind 0 0); [apply adds_emit|]. intros [].
    apply (adds_bind 0 0); [apply IH|]. intros zs. apply adds_ret.
  - apply (adds_bind 0 0); [apply adds_resolveVariable|]. intros v. apply (adds_bind 0 0); [apply adds_emit|]. intros [].
    apply IH.
Qed.

Lemma adds_sscanf_writes ts zs :
  Forall expr_adds (concat (map target_parts ts)) →
  adds (sum (map (opt_weight k) ts)) (sscanf_writes emitExpr ts zs).
Proof.
  revert zs. induction ts as [|[e|] ts IH]; intros zs H; [apply adds_ret| |].
  - cbn [map concat] in H. apply Forall_app in H as [He H]. destruct zs as [|z zs].
    { eapply adds_le; [destruct e; apply adds_ret|lia]. }
    destruct e; try (eapply adds_le; [apply adds_undefined|lia]). cbn [target_parts] in He.
    rewrite !Forall_cons in He. destruct He as (Hx & Hi & Hc).
    assert (∀ u, mapColumn = Some u → expr_adds u) by (by intros u ->; apply Forall_cons in Hc as [? _]).
    specialize (IH zs H). eapply adds_le.
    + apply adds_bind; [exact Hx|]. intros []. apply adds_bind; [exact Hi|]. intros [].
      apply adds_bind; [by apply adds_opt|]. intros []. apply (adds_bind 0); [apply adds_emit|]. intros [].
      apply (adds_bind 0); [apply adds_emit|]. intros []. apply IH.
    + cbn [map]. rewrite sum_cons. cbn. unfold opt_weight. lia.
  - cbn. destruct zs; [eapply adds_le; [apply adds_ret|lia]|by apply IH].
Qed.

Lemma adds_queue_lambda i x body c b : adds (S (sum (map (weight k) body)))
  (modify (λ s, s <| nextLambdaId_ := i |> <| pendingLambdas_ ::= (.++ [mkPendingLambda x body c b]) |>)).
Proof.
  intros s Hs. cbn. split; [done|]. exists [mkPendingLambda x body c b], []. rewrite app_nil_r. split_and!; [done..|].
  unfold queued, lambda_weight, anon_weight. cbn. rewrite ?sum_cons, ?sum_nil. lia.
Qed.
Lemma adds_queue_anon i x ps v body : adds (S (weight k body))
  (modify (λ s, s <| nextAnonFuncId_ := i |> <| pendingAnonFuncs_ ::= (.++ [mkPendingAnonFunc x ps v body]) |>)).
Proof.
  intros s Hs. cbn. split; [done|]. exists [], [mkPendingAnonFunc x ps v body]. rewrite app_nil_r. split_and!; [done..|].
  unfold queued, lambda_weight, anon_weight. cbn. rewrite ?sum_cons, ?sum_nil. lia.
Qed.

Definition tree_adds (e : ast) : Prop := expr_adds e ∧ stmt_adds e ∧ block_adds e.

Lemma tree_exprs l : Forall tree_adds l → Forall expr_adds l.
Proof. intros H. eapply Forall_impl; [exact H|]. by intros e []. Qed.

Lemma tree_opt o : Forall tree_adds (opt_list o) → ∀ e, o = Some e → expr_adds e.
Proof. intros H e ->. by apply Forall_cons in H as [[? _] _]. Qed.

Lemma tree_entries (l : list (ast * list ast)) :
  Forall tree_adds (concat (map (λ '(x, vs), x :: vs) l)) → Forall (λ '(x, vs), expr_adds x ∧ Forall expr_adds vs) l.
Proof.
  induction l as [|[x vs] l IH]; [constructor|]. cbn [map concat]. intros [H Hl]%Forall_app.
  apply Forall_cons in H as [[Hx _] Hvs]. constructor; [|by apply IH]. split; [done|by apply tree_exprs].
Qed.

Lemma tree_fields (l : list (bytes * ast)) :
  Forall tree_adds (map snd l) → Forall (λ '(_, e), expr_adds e) l.
Proof.
  induction l as [|[x e] l IH]; [constructor|]. cbn [map snd]. intros [[He _] Hl]%Forall_cons.
  constructor; [done|by apply IH].
Qed.

Ltac open_parts H :=
  cbn [children] in H; rewrite ?Forall_cons, ?Forall_app in H; destruct_and?;
  repeat match goal with
  | T : Forall tree_adds (opt_list ?o) |- _ => pose proof (tree_opt o T); clear T
  | T : tree_adds _ |- _ => destruct T as (? & ? & ?)
  end.

Ltac prim ::=
  first
  [ match goal with
    | H : expr_adds ?e |- adds _ (emitExpr ?e) => exact H
    | H : stmt_adds ?e |- adds _ (emitStatement ?e) => exact H
    | H : block_adds ?e |- adds _ (emitBlock emitStatement ?e) => exact H
    | H : Forall expr_adds ?l |- adds _ (for_each emitExpr ?l) => exact (adds_exprs l H)
    | H : Forall tree_adds ?l |- adds _ (for_each emitExpr ?l) => exact (adds_exprs l (tree_exprs l H))
    | H : ∀ e, ?o = Some e → expr_adds e |- adds _ (if_some emitExpr ?o) => exact (adds_opt o H)
    | H1 : expr_adds ?x, H2 : expr_adds ?i, H3 : ∀ e, ?col = Some e → expr_adds e |-
        adds _ (emit_lvalue emitExpr ?x ?i ?col) => exact (adds_lvalue x i col H1 H2 H3)
    | H1 : expr_adds ?x, H2 : expr_adds ?i, H3 : ∀ e, ?col = Some e → expr_adds e, H4 : expr_adds ?v |-
        adds _ (emit_new_value emitExpr ?x ?i ?v ?c ?o ?col) => exact (adds_new_value x i v c o col H1 H2 H4 H3)
    | H : expr_adds ?i |- adds _ (emitIndexValue emitExpr ?x ?i) => exact (adds_index_value x i H)
    end
  | apply adds_emit | apply adds_ret | apply adds_gets | apply adds_error | apply adds_undefined
  | apply adds_patchJumpToHere | apply adds_patchAllHere | apply adds_patchAll | apply adds_placeholder
  | apply adds_internString | apply adds_internFloat | apply adds_resolveVariable
  | apply adds_resolveClassMemberIndex | apply adds_declareLocal | apply adds_hidden_local
  | apply adds_openScope | apply adds_closeScope | apply adds_openLoop | apply adds_closeLoop
  | apply adds_next_indexAssign | apply adds_next_foreach | apply adds_next_switch
  | apply adds_break | apply adds_continue | apply adds_lambda_param | apply adds_spreads | apply adds_combine
  | apply adds_sscanf_slots | apply adds_sscanf_writes, tree_exprs; assumption
  | apply adds_queue_lambda | apply adds_queue_anon ].

Ltac part x := assert (expr_adds x) by (match goal with H : ∀ e, Some x = Some e → _ |- _ => exact (H x eq_refl) end).

Lemma expr_node e : Forall tree_adds (children e) → expr_adds e.
Proof.
  intros H. unfold expr_adds. destruct e; open_parts H; cbn [emitExpr]; try adds_run.
  - case_if; [unfold emitLogicalExpr; adds_run|]. unfold emitBinaryExpr. destruct (binary_opcode op); adds_run.
  - unfold emitUnaryExpr. destruct op; adds_run.
  - unfold emitTernaryExpr. adds_run.
  - unfold emitCallExpr. adds_run.
  - unfold emitCallOtherExpr. adds_run.
  - unfold emitSscanfExpr. adds_run.
  - unfold emitCatchExpr. adds_run.
  - unfold emitClosureLiteral. adds_run.
  - unfold emitInlineLambda. adds_run.
  - unfold emitAssignExpr. adds_run.
  - unfold emitIncDecExpr. destruct indexTarget as [x|]; [destruct indexKey as [i|]|]; try adds_run.
    part x. part i. unfold emitIncDecIndexed. adds_run.
  - eapply adds_le; [by apply adds_mapping, tree_entries|done].
  - eapply adds_le; [by apply adds_new_class, tree_fields|done].
  - unfold emitIndexExpr. destruct rangeEnd as [y|]; [part y|]; adds_run.
  - unfold emitIndexAssignExpr. adds_run.
  - unfold emitTimeExpressionExpr. adds_run.
  - unfold emitAnonFunction. adds_run.
Qed.

Lemma tree_stmts l : Forall tree_adds l → adds (sum (map (weight k) l)) (for_each emitStatement l).
Proof. intros H. apply adds_for_each. eapply Forall_impl; [exact H|]. by intros e (_ & ? & _). Qed.

Lemma adds_block_node e : Forall tree_adds (children e) → block_adds e.
Proof.
  intros H. unfold block_adds. destruct e; try (eapply adds_le; [apply adds_undefined|lia]).
  unfold emitBlock. eapply adds_le; [eapply adds_bind; [apply adds_openScope|]|].
  - intros []. eapply adds_bind; [by apply tree_stmts|]. intros []. apply adds_closeScope.
  - cbn [weight]. lia.
Qed.

Lemma adds_clause e : expr_adds e → block_adds e → adds (weight k e) (emit_clause emitExpr emitStatement e).
Proof.
  intros He Hb. destruct e; try exact Hb; unfold emit_clause;
    (eapply adds_le; [eapply adds_bind; [exact He|intros []; apply adds_emit]|lia]).
Qed.

Lemma adds_init e : tree_adds e → adds (weight k e) (emit_init emitExpr emitStatement e).
Proof. intros (He & Hs & Hb). destruct e; try (by apply adds_clause). exact Hs. Qed.

Lemma adds_case z v x :
  expr_adds v → (∀ e, x = Some e → expr_adds e) →
  adds (weight k v + opt_weight k x) (emit_case emitExpr z v x).
Proof.
  intros Hv Hx. unfold emit_case. destruct x as [e|]; [part e|]; adds_run.
Qed.

Lemma adds_dispatch z i body :
  Forall tree_adds (concat (map case_parts body)) →
  adds (sum (map (λ e, if is_label e then weight k e else 0) body)) (emit_dispatch emitExpr z i body).
Proof.
  revert i. induction body as [|e body IH]; intros i H; [apply adds_ret|].
  cbn [map concat] in H. apply Forall_app in H as [He H]. apply Forall_cons in He as [_ He].
  specialize (IH (S i) H). cbn [map]. rewrite sum_cons.
  destruct e; try exact IH. cbn [is_label weight]. apply Forall_app in He as [Hv Hx].
  pose proof (tree_opt _ Hx) as Hx'. destruct value as [v|].
  - apply Forall_cons in Hv as [[Hv _] _]. cbn [emit_dispatch]. eapply adds_le.
    + eapply adds_bind; [by apply adds_case|]. intros j. eapply adds_bind; [apply IH|]. intros [jumps d]. apply adds_ret.
    + unfold opt_weight. lia.
  - cbn [emit_dispatch]. eapply adds_le.
    + eapply adds_bind; [apply IH|]. intros [jumps d]. apply adds_ret.
    + lia.
Qed.

Lemma adds_cases jumps d nm i body :
  Forall tree_adds (concat (map case_parts body)) →
  adds (sum (map (λ e, if is_label e then 0 else weight k e) body)) (emit_cases emitStatement jumps d nm i body).
Proof.
  revert i. induction body as [|e body IH]; intros i H; [apply adds_ret|].
  cbn [map concat] in H. apply Forall_app in H as [He H]. apply Forall_cons in He as [(_ & He & _) _].
  specialize (IH (S i) H). cbn [map emit_cases]. rewrite sum_cons. eapply adds_le.
  - eapply (adds_bind 0); [destruct (jumps !! i); [apply adds_patchJumpToHere|apply adds_ret]|]. intros [].
    apply (adds_bind (if is_label e then 0 else weight k e)); [|intros []; apply IH].
    destruct (bool_decide (d = Some i)); [eapply adds_le; [apply adds_patchJumpToHere|lia]|].
    destruct (is_label e); [apply adds_ret|exact He].
  - lia.
Qed.

Lemma adds_switch x body :
  expr_adds x → Forall tree_adds (concat (map case_parts body)) →
  adds (weight k x + sum (map (weight k) body)) (emitSwitchStmt emitExpr emitStatement x body).
Proof.
  intros Hx Hb. unfold emitSwitchStmt. eapply adds_le.
  - apply (adds_bind 0); [apply adds_next_switch|]. intros j. apply (adds_bind 0); [apply adds_declareLocal|]. intros z.
    apply adds_bind; [exact Hx|]. intros []. apply (adds_bind 0); [apply adds_emit|]. intros [].
    eapply adds_bind; [by apply adds_dispatch|]. intros [jumps d].
    apply (adds_bind 0); [apply adds_placeholder|]. intros nm. apply (adds_bind 0); [apply adds_openLoop|]. intros [].
    eapply adds_bind; [by apply adds_cases|]. intros [].
    apply (adds_bind 0); [destruct d; [apply adds_ret|apply adds_patchJumpToHere]|]. intros [].
    apply (adds_bind 0); [apply adds_closeLoop|]. intros l. apply adds_patchAllHere.
  - clear Hb. induction body as [|e body IH]; cbn [map]; [rewrite sum_nil; lia|]. rewrite !sum_cons. destruct (is_label e); lia.
Qed.

Lemma adds_foreach_var b x c : adds 0 (foreach_var b x c).
Proof.
  unfold foreach_var. destruct b; [|apply adds_resolveVariable].
  apply (adds_bind 0 0); [apply adds_declareLocal|]. intros z. apply adds_ret.
Qed.

Lemma adds_foreach_head x : expr_adds x → adds (weight k x) (foreach_head emitExpr x).
Proof. intros Hx. unfold foreach_head. adds_run. Qed.

Lemma adds_for init x u y :
  (∀ e, init = Some e → tree_adds e) → (∀ e, x = Some e → expr_adds e) → (∀ e, u = Some e → tree_adds e) →
  block_adds y →
  adds (opt_weight k init + opt_weight k x + opt_weight k u + weight k y)
    (emitForStmt emitExpr emitStatement init x u y).
Proof.
  intros Hi Hx Hu Hy. unfold emitForStmt. eapply adds_le.
  - apply (adds_bind 0); [apply adds_openScope|]. intros [].
    apply (adds_bind (opt_weight k init)); [apply adds_if_some; intros e He; apply adds_init; auto|]. intros [].
    apply (adds_bind 0); [apply adds_gets|]. intros top.
    apply (adds_bind (opt_weight k x)).
    { destruct x as [e|]; [part e; adds_run|adds_run]. }
    intros jf. apply (adds_bind 0); [apply adds_openLoop|]. intros []. apply adds_bind; [exact Hy|]. intros [].
    apply (adds_bind 0); [apply adds_closeLoop|]. intros l. apply (adds_bind 0); [apply adds_gets|]. intros t.
    apply (adds_bind 0); [apply adds_patchAll|]. intros [].
    apply (adds_bind (opt_weight k u)); [apply adds_if_some; intros e He; destruct (Hu e He) as (? & _ & ?);
      by apply adds_clause|]. intros [].
    apply (adds_bind 0); [apply adds_emit|]. intros [].
    apply (adds_bind 0); [destruct jf; [apply adds_patchJumpToHere|apply adds_ret]|]. intros [].
    apply (adds_bind 0); [apply adds_patchAllHere|]. intros []. apply adds_closeScope.
  - lia.
Qed.

Lemma tree_opt' o : Forall tree_adds (opt_list o) → ∀ e, o = Some e → tree_adds e.
Proof. intros H e ->. by apply Forall_cons in H as [? _]. Qed.

Lemma stmt_node e : Forall tree_adds (children e) → stmt_adds e.
Proof.
  intros H. pose proof (adds_block_node e H) as Hb. unfold stmt_adds. destruct e; cbn [emitStatement];
    try (eapply adds_le; [apply adds_error|lia]); cbn [children] in H.
  - open_parts H. adds_run.
  - open_parts H. unfold emitReturnStmt. adds_run.
  - open_parts H. unfold emitVarDeclStmt. destruct initializer as [e|]; [part e|]; adds_run.
  - open_parts H. unfold emitAssignStmt. adds_run.
  - open_parts H. unfold emitIndexAssignStmt. adds_run.
  - destruct isRealScope; [exact Hb|by apply tree_stmts].
  - rewrite !Forall_cons in H. destruct H as ((H & _) & (_ & _ & H1) & H2). unfold emitIfStmt.
    destruct elseBranch as [z|]; [apply Forall_cons in H2 as [(_ & _ & H2) _]|]; adds_run.
  - open_parts H. unfold emitWhileStmt, emit_jump_back. adds_run.
  - open_parts H. unfold emitDoWhileStmt, emit_jump_back. adds_run.
  - rewrite Forall_cons, !Forall_app in H. destruct H as ((_ & _ & Hy) & Hi & Hx & Hu).
    apply adds_for; [by apply tree_opt'|by apply tree_opt|by apply tree_opt'|done].
  - adds_run.
  - adds_run.
  - apply Forall_cons in H as [[Hx _] H]. by apply adds_switch.
  - open_parts H. unfold emitForeachStmt. eapply adds_le.
    + apply (adds_bind 0); [apply adds_openScope|]. intros []. apply adds_bind; [by apply adds_foreach_head|].
      intros [[[[o i] x] top] jf]. apply (adds_bind 0); [apply adds_foreach_var|]. intros v.
      do 4 (apply (adds_bind 0); [apply adds_emit|]; intros []).
      apply (adds_bind 0).
      { destruct hasValueVar; [|apply adds_ret]. apply (adds_bind 0 0); [apply adds_foreach_var|]. intros w.
        do 3 (apply (adds_bind 0 0); [apply adds_emit|]; intros []). apply adds_emit. }
      intros []. unfold emit_jump_back. adds_go.
    + cbn [weight]. lia.
Qed.

Lemma every_tree_adds e : tree_adds e.
Proof.
  revert e. apply ast_children_ind. intros e H. split_and!; [by apply expr_node|by apply stmt_node|by apply adds_block_node].
Qed.

(** ** Functions *)

Lemma adds_reset z : adds 0 (reset_function z). Proof. still. Qed.
Lemma adds_add_function x entry j v : adds 0 (add_function x entry j v). Proof. still. Qed.

Lemma adds_function x ps v body : adds (weight k body) (emit_function x ps v body).
Proof.
  destruct (every_tree_adds body) as (_ & _ & Hb). unfold emit_function. eapply adds_le.
  - apply (adds_bind 0); [apply adds_reset|]. intros []. apply (adds_bind 0).
    { apply adds_for_each_still. intros p. apply (adds_bind 0 0); [apply adds_declareLocal|]. intros z. apply adds_ret. }
    intros []. apply (adds_bind 0); [apply adds_gets|]. intros t. apply adds_bind; [exact Hb|]. intros [].
    apply (adds_bind 0); [apply adds_emit|]. intros []. apply adds_add_function.
  - lia.
Qed.

Lemma adds_body body : adds (sum (map (weight k) body)) (emit_body body).
Proof.
  induction body as [|e body IH]; [apply adds_ret|]. destruct (every_tree_adds e) as (He & _).
  cbn [map]. rewrite sum_cons. destruct body as [|e2 body]; [eapply adds_le; [exact He|lia]|].
  apply adds_bind; [exact He|]. intros []. apply (adds_bind 0); [apply adds_emit|]. intros []. exact IH.
Qed.

Lemma adds_lambda p : adds (sum (map (weight k) (lambda_body p))) (emit_lambda p).
Proof.
  unfold emit_lambda. eapply adds_le.
  - apply (adds_bind 0).
    { apply adds_still. intros s. unfold lift, add_int. by destruct (in_i32 _). }
    intros z. apply (adds_bind 0); [apply adds_reset|]. intros []. apply (adds_bind 0); [still|]. intros [].
    apply (adds_bind 0); [apply adds_gets|]. intros t. apply adds_bind; [apply adds_body|]. intros [].
    apply (adds_bind 0); [apply adds_emit|]. intros []. apply adds_add_function.
  - lia.
Qed.

(** ** The queues *)

(** A run that returns with [Q], throws, or stops; it does not lack fuel. *)
Definition ends_with {A} (Q : cg → Prop) (r : result A * cg) : Prop :=
  match r with (Ok _, s) => Q s | (OutOfFuel, _) => False | _ => True end.

Lemma ends_with_bind {A B} (f : M cg A) (g : A → M cg B) s Q R :
  ends_with Q (f s) → (∀ a s', Q s' → ends_with R (g a s')) → ends_with R (bind f g s).
Proof. intros Hf Hg. unfold bind. destruct (f s) as [[a|e| |] s']; cbn in *; try done. by apply Hg. Qed.

Lemma adds_ends {A} j (f : M cg A) s :
  adds j f → small_classes s →
  ends_with (λ s', small_classes s' ∧ ∃ ls fs, pendingLambdas_ s' = pendingLambdas_ s ++ ls ∧
    pendingAnonFuncs_ s' = pendingAnonFuncs_ s ++ fs ∧ queued ls fs ≤ j) (f s).
Proof. intros Hf Hs. specialize (Hf s Hs). by destruct (f s) as [[] ?]. Qed.

(** The rest of a queue gets lighter at each turn. *)
Lemma drain_ends {A} (queue : cg → list A) clear work (w : nat → cg → nat) :
  (∀ i p s, small_classes s → queue s !! i = Some p →
     ends_with (λ s', small_classes s' ∧ w (S i) s' < w i s) (work p s)) →
  ∀ n i s, small_classes s → w i s < n →
  ends_with (λ s', ∃ s1 j, s' = clear s1 ∧ small_classes s1 ∧ queue s1 !! j = None ∧ w j s1 ≤ w i s ∧
    (queue s !! i = None → s1 = s) ∧ (is_Some (queue s !! i) → w j s1 < w i s))
    (drain queue clear work n i s).
Proof.
  intros Hwork n. induction n as [|n IH]; intros i s Hs Hn; [lia|]. cbn.
  unfold bind at 1, gets. destruct (queue s !! i) as [p|] eqn:E.
  - eapply ends_with_bind; [by apply Hwork|]. intros [] s' [Hs' Hlt].
    specialize (IH (S i) s' Hs' ltac:(lia)). destruct (drain _ _ _ n (S i) s') as [[] s2]; try done.
    destruct IH as (s1 & j & -> & Hs1 & Hj & Hle & _). exists s1, j. split_and!; try done; intros; lia.
  - exists s, i. split_and!; try done.
Qed.

Definition load (s : cg) : nat := queued (pendingLambdas_ s) (pendingAnonFuncs_ s).

Lemma drop_app_lt {A} (l l' : list A) i : i ≤ length l → drop i (l ++ l') = drop i l ++ l'.
Proof. intros H. by rewrite drop_app_le. Qed.

Lemma drain_lambdas_ends n s :
  small_classes s → load s < n →
  ends_with (λ s', small_classes s' ∧ load s' ≤ load s ∧ pendingLambdas_ s' = [] ∧
    (pendingLambdas_ s = [] → pendingAnonFuncs_ s' = pendingAnonFuncs_ s) ∧
    (pendingLambdas_ s ≠ [] → load s' < load s)) (emitPendingLambdas n s).
Proof.
  intros Hs Hn. unfold emitPendingLambdas.
  set (w := λ i s, queued (drop i (pendingLambdas_ s)) (pendingAnonFuncs_ s)).
  assert (∀ i p s0, small_classes s0 → pendingLambdas_ s0 !! i = Some p →
     ends_with (λ s', small_classes s' ∧ w (S i) s' < w i s0) (emit_lambda p s0)) as Hwork.
  { intros i p s0 Hs0 Hp. pose proof (adds_ends _ _ s0 (adds_lambda p) Hs0) as He.
    destruct (emit_lambda p s0) as [[] s']; try done. destruct He as (Hs' & ls & fs & Hl & Ha & Hq).
    split; [done|]. unfold w. rewrite Hl, Ha, (drop_S _ _ _ Hp), drop_app_lt by (by apply lookup_lt_Some in Hp).
    change (p :: ?x) with ([p] ++ x). rewrite queued_app.
    replace (queued ([p] ++ drop (S i) (pendingLambdas_ s0)) (pendingAnonFuncs_ s0)) with
      (lambda_weight p + queued (drop (S i) (pendingLambdas_ s0)) (pendingAnonFuncs_ s0))
      by (unfold queued; cbn [app map]; rewrite sum_cons; lia).
    unfold lambda_weight. lia. }
  pose proof (drain_ends pendingLambdas_ (λ s, s <| pendingLambdas_ := [] |>) emit_lambda w Hwork n 0 s Hs Hn) as H.
  destruct (drain _ _ _ n 0 s) as [[] s']; try done. destruct H as (s1 & j & -> & Hs1 & Hj & Hle & Hnone & Hsome).
  apply lookup_ge_None in Hj. cbn [ends_with].
  assert (load (s1 <| pendingLambdas_ := [] |>) = w j s1) as -> by (unfold load, w; cbn; by rewrite drop_ge).
  split_and!; try done.
  - intros E. rewrite Hnone; [done|by rewrite E].
  - intros E. apply Hsome. destruct (pendingLambdas_ s); [done|by eexists].
Qed.

Lemma drain_anons_ends n s :
  small_classes s → load s < n →
  ends_with (λ s', small_classes s' ∧ load s' ≤ load s ∧ (pendingAnonFuncs_ s ≠ [] → load s' < load s))
    (emitPendingAnonFuncs n s).
Proof.
  intros Hs Hn. unfold emitPendingAnonFuncs.
  set (w := λ i s, queued (pendingLambdas_ s) (drop i (pendingAnonFuncs_ s))).
  assert (∀ i p s0, small_classes s0 → pendingAnonFuncs_ s0 !! i = Some p →
     ends_with (λ s', small_classes s' ∧ w (S i) s' < w i s0) (emit_anon p s0)) as Hwork.
  { intros i p s0 Hs0 Hp.
    pose proof (adds_ends _ _ s0 (adds_function (anon_name p) (anon_params p) (anon_isVarargs p) (anon_body p)) Hs0) as He.
    fold (emit_anon p) in He. destruct (emit_anon p s0) as [[] s']; try done.
    destruct He as (Hs' & ls & fs & Hl & Ha & Hq).
    split; [done|]. unfold w. rewrite Hl, Ha, (drop_S _ _ _ Hp), drop_app_lt by (by apply lookup_lt_Some in Hp).
    rewrite queued_app.
    replace (queued (pendingLambdas_ s0) (p :: drop (S i) (pendingAnonFuncs_ s0))) with
      (anon_weight p + queued (pendingLambdas_ s0) (drop (S i) (pendingAnonFuncs_ s0)))
      by (unfold queued; cbn [app map]; rewrite sum_cons; lia).
    unfold anon_weight. lia. }
  pose proof (drain_ends pendingAnonFuncs_ (λ s, s <| pendingAnonFuncs_ := [] |>) emit_anon w Hwork n 0 s Hs Hn) as H.
  destruct (drain _ _ _ n 0 s) as [[] s']; try done. destruct H as (s1 & j & -> & Hs1 & Hj & Hle & Hnone & Hsome).
  apply lookup_ge_None in Hj. cbn [ends_with].
  assert (load (s1 <| pendingAnonFuncs_ := [] |>) = w j s1) as -> by (unfold load, w; cbn; by rewrite drop_ge).
  split_and!; try done. intros E. apply Hsome. destruct (pendingAnonFuncs_ s); [done|by eexists].
Qed.

Lemma emitPending_step n rounds s :
  emitPending n rounds s =
  if nothing_pending s then (Ok tt, s)
  else match rounds with
       | O => (OutOfFuel, s)
       | S r => (do* _ := emitPendingLambdas n in do* _ := emitPendingAnonFuncs n in emitPending n r) s
       end.
Proof. destruct rounds; cbn [emitPending]; unfold bind at 1, gets; by destruct (nothing_pending s). Qed.

Lemma nothing_pending_load s : nothing_pending s = bool_decide (load s = 0).
Proof.
  unfold nothing_pending, load, queued.
  destruct (pendingLambdas_ s), (pendingAnonFuncs_ s); cbn [map]; rewrite ?sum_cons; by rewrite ?bool_decide_false by
    (unfold lambda_weight, anon_weight; lia).
Qed.

Lemma nothing_pending_nil s : nothing_pending s = false → pendingLambdas_ s = [] → pendingAnonFuncs_ s ≠ [].
Proof. unfold nothing_pending. by destruct (pendingLambdas_ s), (pendingAnonFuncs_ s). Qed.

Lemma round_ends n s :
  small_classes s → load s < n → nothing_pending s = false →
  ends_with (λ s', small_classes s' ∧ load s' < load s)
    ((do* _ := emitPendingLambdas n in emitPendingAnonFuncs n) s).
Proof.
  intros Hs Hn Hp.
  eapply ends_with_bind; [by apply drain_lambdas_ends|]. intros [] s1 (Hs1 & Hle1 & _ & Hsame & Hlt1).
  pose proof (drain_anons_ends n s1 Hs1 ltac:(lia)) as H. destruct (emitPendingAnonFuncs n s1) as [[] s2]; try done.
  destruct H as (Hs2 & Hle2 & Hlt2). split; [done|].
  destruct (decide (pendingLambdas_ s = [])) as [El|El]; [|specialize (Hlt1 El); lia].
  rewrite Hsame in Hlt2 by done. specialize (Hlt2 (nothing_pending_nil s Hp El)). lia.
Qed.

Lemma emitPending_ends n rounds s :
  small_classes s → load s < n → load s ≤ rounds →
  ends_with (λ s', small_classes s' ∧ load s' = 0) (emitPending n rounds s).
Proof.
  revert s. induction rounds as [|rounds IH]; intros s Hs Hn Hr; rewrite emitPending_step.
  - rewrite nothing_pending_load, bool_decide_true by lia. split; [done|lia].
  - destruct (nothing_pending s) eqn:E.
    + rewrite nothing_pending_load in E. by apply bool_decide_eq_true in E.
    + pose proof (round_ends n s Hs Hn E) as H. revert H. unfold bind.
      destruct (emitPendingLambdas n s) as [[[]| | |] s1]; try done.
      destruct (emitPendingAnonFuncs n s1) as [[[]| | |] s2]; try done. intros [Hs2 Hlt]. apply IH; [done|lia|lia].
Qed.
End Weight.

(** ** Programs *)

(** The longest list of members of a class of the program. *)
Definition members_bound (p : Program) : nat := sum (map (λ c, length (memberNames c)) (classes p)).

Definition init_weight (k : nat) (vs : list ObjectVarDecl) : nat :=
  sum (map (λ v, opt_weight k (var_initializer v)) vs).
Definition body_weight (k : nat) (fs : list FunctionDecl) : nat :=
  sum (map (λ f, opt_weight k (fn_body f)) fs).
Definition program_weight (p : Program) : nat :=
  init_weight (members_bound p) (objectVars p) + body_weight (members_bound p) (Ast.functions p).

Lemma sum_elem x l : x ∈ l → x ≤ sum l.
Proof.
  induction 1 as [x l|x y l H IH]; rewrite sum_cons; lia.
Qed.

Lemma class_defs_members (cs : list ClassDeclStmt) (m : gmap bytes (list bytes)) x ms :
  foldl (λ m c, <[class_name c := memberNames c]> m) m cs !! x = Some ms →
  m !! x = Some ms ∨ length ms ∈ map (λ c, length (memberNames c)) cs.
Proof.
  revert m. induction cs as [|c cs IH]; intros m H; [by left|]. cbn [foldl map] in *.
  destruct (IH _ H) as [Hm|Hm]; [|right; by apply list_elem_of_further].
  destruct (decide (class_name c = x)) as [<-|Hne].
  - rewrite lookup_insert_eq in Hm. injection Hm as ->. right. apply list_elem_of_here.
  - rewrite lookup_insert_ne in Hm by done. by left.
Qed.

Lemma begin_small p names s : small_classes (members_bound p) (begin_program p names s).
Proof.
  intros x ms H. cbn in H. apply class_defs_members in H as [H|H]; [by rewrite lookup_empty in H|].
  by apply sum_elem.
Qed.

Section Program.
Context (k : nat).

Lemma declare_ends vs s :
  small_classes k s → ends_with (λ s', small_classes k s' ∧ load k s' = load k s) (declare_objectVars vs s).
Proof.
  revert s. induction vs as [|v vs IH]; intros s Hs; [done|]. cbn [declare_objectVars].
  eapply (ends_with_bind _ _ _ (λ s', small_classes k s' ∧ load k s' = load k s)).
  { unfold declare_objectVar. cbn [ends_with]. by destruct (class_of_type _). }
  intros [slot init] s1 [Hs1 <-]. eapply ends_with_bind; [by apply IH|]. by intros rest s2.
Qed.

Lemma declare_weight vs s pending s' :
  declare_objectVars vs s = (Ok pending, s') → sum (map (λ '(_, e), weight k e) pending) = init_weight k vs.
Proof.
  revert s pending s'. induction vs as [|v vs IH]; intros s pending s'; cbn [declare_objectVars].
  - by intros [= <- <-].
  - unfold bind, declare_objectVar. destruct (declare_objectVars vs _) as [[rest| | |] s1] eqn:E; try done.
    cbn. intros [= <- <-]. apply IH in E. unfold init_weight in *. cbn [map]. rewrite sum_cons.
    destruct (var_initializer v); cbn [map opt_weight]; rewrite ?sum_cons; lia.
Qed.

Lemma adds_initializers pending : adds k (sum (map (λ '(_, e), weight k e) pending)) (emit_initializers pending).
Proof.
  unfold emit_initializers. eapply adds_le.
  - apply (adds_bind k 0); [apply adds_reset|]. intros []. apply (adds_bind k 0); [apply adds_gets|]. intros entry.
    apply (adds_bind k); [apply (adds_for_each k _ (λ '(_, e), weight k e))|].
    { apply Forall_true. intros [slot e]. rewrite <- (Nat.add_0_r (weight k e)).
      apply adds_bind; [apply every_tree_adds|]. intros []. apply adds_emit. }
    intros []. apply (adds_bind k 0); [apply adds_emit|]. intros []. apply adds_add_function.
  - lia.
Qed.

(** A run of [f] makes the queues heavier by at most [j]. *)
Lemma adds_load {A} j (f : M cg A) s :
  adds k j f → small_classes k s → ends_with (λ s', small_classes k s' ∧ load k s' ≤ load k s + j) (f s).
Proof.
  intros Hf Hs. pose proof (adds_ends k j f s Hf Hs) as H. destruct (f s) as [[] s']; try done.
  destruct H as (Hs' & ls & fs & El & Ea & Hq). split; [done|]. unfold load. rewrite El, Ea, queued_app. lia.
Qed.

Lemma objvarinit_ends n pending s :
  small_classes k s → load k s + sum (map (λ '(_, e), weight k e) pending) < n →
  ends_with (λ s', small_classes k s' ∧ load k s' ≤ load k s + sum (map (λ '(_, e), weight k e) pending))
    (emit_objvarinit n pending s).
Proof.
  intros Hs Hn. unfold emit_objvarinit. destruct pending as [|e pending]; [split; [done|lia]|].
  eapply ends_with_bind; [apply adds_load; [apply adds_initializers|done]|]. intros [] s1 [Hs1 Hle].
  pose proof (drain_lambdas_ends k n s1 Hs1 ltac:(lia)) as H. destruct (emitPendingLambdas n s1) as [[] s2]; try done.
  destruct H as (Hs2 & Hle2 & _). split; [done|lia].
Qed.

Lemma declared_ends n fn s :
  small_classes k s → load k s + opt_weight k (fn_body fn) < n →
  ends_with (λ s', small_classes k s' ∧ load k s' ≤ load k s) (emit_declared n fn s).
Proof.
  intros Hs Hn. unfold emit_declared. destruct (fn_body fn) as [body|]; [|split; [done|lia]]. cbn [opt_weight] in Hn.
  eapply ends_with_bind; [apply adds_load; [apply adds_function|done]|]. intros [] s1 [Hs1 Hle].
  pose proof (emitPending_ends k n n s1 Hs1 ltac:(lia) ltac:(lia)) as H.
  destruct (emitPending n n s1) as [[] s2]; try done. destruct H as [Hs2 H0]. split; [done|lia].
Qed.

Lemma functions_end n fs j s :
  small_classes k s → load k s ≤ j → j + body_weight k fs < n →
  ends_with (λ _, True) (for_each (emit_declared n) fs s).
Proof.
  revert s. induction fs as [|fn fs IH]; intros s Hs Hj Hn; [done|].
  unfold body_weight in Hn. cbn [map] in Hn. rewrite sum_cons in Hn. cbn [for_each].
  eapply ends_with_bind; [apply declared_ends; [done|lia]|]. intros [] s1 [Hs1 Hle].
  apply IH; [done|lia|unfold body_weight; lia].
Qed.
End Program.

(** C30: The code generator ends on every syntax tree, and with fuel above the
    weight of the tree's literals: neither the queue of lambdas nor that of
    anonymous functions, which grow while they are drained, nor the
    alternation between the two goes on for ever. *)
Theorem generate_ends n p names s :
  pendingLambdas_ s = [] → pendingAnonFuncs_ s = [] → program_weight p < n →
  fst (generate n p names s) ≠ OutOfFuel.
Proof.
  intros Hl Ha Hn. set (k := members_bound p) in *. unfold program_weight in Hn. fold k in Hn.
  enough (ends_with (λ _, True) (generate n p names s)) as H by (by destruct (generate n p names s) as [[] ?]).
  unfold generate. pose proof (begin_small p names s) as Hs. fold k in Hs.
  assert (load k (begin_program p names s) = 0) as H0 by (unfold load; cbn; by rewrite Hl, Ha).
  unfold bind at 1, modify. set (s0 := begin_program p names s) in *. clearbody s0.
  pose proof (declare_ends k (objectVars p) s0 Hs) as Hd. unfold bind at 1.
  destruct (declare_objectVars (objectVars p) s0) as [[pending| | |] s1] eqn:E; try done.
  destruct Hd as [Hs1 Hl1]. apply declare_weight with (k := k) in E.
  eapply ends_with_bind; [apply objvarinit_ends; [done|lia]|]. intros [] s2 [Hs2 Hl2].
  eapply ends_with_bind; [by apply (functions_end k n _ (init_weight k (objectVars p))); [| |lia]; [|lia]|]. done.
Qed.

Lemma generate_ends_witness : fst (generate 10 sample [] new_cg) ≠ OutOfFuel.
Proof. apply (generate_ends 10 sample []); [done|done|]. vm_compute. lia. Defined.
