(* ===== verification/Operators.v ===== *)
(** * Operators: what the arithmetic instructions compute

    Models the operators of [VM::run] in [src/vm/VM.cpp] once their operands
    are off the stack: numbers, strings, arrays and mappings.  Two integers are
    converted to doubles, combined and converted back, as the code does; a
    conversion of a double that no [int64_t] holds is undefined. *)

From S2P Require Import Prelude Doubles Values Objects Bytecode.

(** ** Conversions *)

(** [static_cast<double>(int64_t)]. *)
Definition of_int (i : Z) : double := binary_normalize 53 1024 i 0 false.

(** A double without its fraction. *)
Definition trunc (d : double) : option Z :=
  match d with
  | S754_zero _ => Some 0
  | S754_finite s m e =>
      let n := if 0 <=? e then Z.pos m * 2 ^ e else Z.pos m / 2 ^ (- e) in
      Some (if s then - n else n)
  | _ => None
  end.

(** [static_cast<int64_t>(double)]. *)
Definition to_int (d : double) : result Z :=
  match trunc d with
  | Some n => if in_i64 n then Ok n else Undefined
  | None => Undefined
  end.

Definition dadd : double → double → double := SFadd 53 1024.
Definition dsub : double → double → double := SFsub 53 1024.
Definition dmul : double → double → double := SFmul 53 1024.
Definition ddiv : double → double → double := SFdiv 53 1024.

(** [std::fmod]: exact, with the sign of the dividend. *)
Definition fmod (a b : double) : double :=
  match a, b with
  | S754_nan, _ | _, S754_nan | S754_infinity _, _ | _, S754_zero _ => S754_nan
  | _, S754_infinity _ | S754_zero _, _ => a
  | S754_finite s m e, S754_finite _ n f =>
      let g := Z.min e f in
      let r := (Z.pos m * 2 ^ (e - g)) mod (Z.pos n * 2 ^ (f - g)) in
      binary_normalize 53 1024 (if s then - r else r) g s
  end.

(** [asArithmeticOperand]. *)
Definition asArithmeticOperand (v : value) : option double :=
  match vdata v with
  | VInt i => Some (of_int i)
  | VFloat d => Some d
  | VVoid => Some (S754_zero false)
  | _ => None
  end.

(** [formatNumberForConcat]; the buffer has 64 bytes. *)
Definition formatNumberForConcat (v : value) : option bytes :=
  match vdata v with
  | VInt i => Some (to_string i)
  | VVoid => Some $"0"
  | VFloat d => Some (take 63 (print_f d))
  | _ => None
  end.

Definition is_float (v : value) : bool := match vdata v with VFloat _ => true | _ => false end.

Definition op_error {A} (msg : bytes) : M heap A := throw (LpcRuntimeError msg).

(** Both operands as doubles. *)
Definition operands {A} (what : bytes) (lhs rhs : value) (k : double → double → M heap A) : M heap A :=
  match asArithmeticOperand lhs, asArithmeticOperand rhs with
  | None, _ => op_error (what ++ $": left operand is not numeric")
  | _, None => op_error (what ++ $": right operand is not numeric")
  | Some lv, Some rv => k lv rv
  end.

(** The result of an operation on [lhs] and [rhs]. *)
Definition number (lhs rhs : value) (d : double) : M heap value :=
  if is_float lhs || is_float rhs then ret (mk (VFloat d))
  else do* i := lift (to_int d) in ret (mk (VInt i)).

Definition bool_value (b : bool) : value := mk (VInt (if b then 1 else 0)).

(** ** Comparison *)

Definition compare_op (o : OpCode) (lv rv : double) : bool :=
  match o with
  | OpLt => SFltb lv rv
  | OpLte => SFleb lv rv
  | OpGt => SFltb rv lv
  | OpGte => SFleb rv lv
  | _ => false
  end.

Definition comparison (o : OpCode) (lhs rhs : value) : M heap value :=
  operands $"comparison" lhs rhs (λ lv rv, ret (bool_value (compare_op o lv rv))).

Definition equality (o : OpCode) (lhs rhs : value) : M heap value :=
  let eq := valuesEqual lhs rhs in
  ret (bool_value (if bool_decide (o = OpEq) then eq else negb eq)).

(** ** Arrays *)

(** The elements behind a pointer; none when it is null. *)
Definition items (p : option addr) : M heap Array := λ h,
  match p with
  | None => (Ok [], h)
  | Some a => (deref (arrays h !! a), h)
  end.

Definition new_array (l : Array) : M heap value := λ h,
  let '(a, h) := alloc_array l h in (Ok (mk (VArr (Some a))), h).
Definition new_mapping (m : Mapping) : M heap value := λ h,
  let '(a, h) := alloc_mapping m h in (Ok (mk (VMap (Some a))), h).

Definition occurs (l : Array) (x : value) : bool := existsb (valuesEqual x) l.

(** ** [-], [*], [/], [%] *)

Definition arith_op (o : OpCode) : double → double → double :=
  match o with
  | OpSub => dsub
  | OpMul => dmul
  | OpDiv => ddiv
  | OpMod => fmod
  | _ => λ _ _, S754_zero false
  end.

Definition arithmetic_numbers (o : OpCode) (lhs rhs : value) : M heap value :=
  operands $"arithmetic" lhs rhs (λ lv rv,
    if (bool_decide (o = OpDiv) || bool_decide (o = OpMod)) && deq rv double_zero
    then op_error (if bool_decide (o = OpDiv) then $"Div: division by zero" else $"Mod: modulo by zero")
    else number lhs rhs (arith_op o lv rv)).

Definition arithmetic (o : OpCode) (lhs rhs : value) : M heap value :=
  match o, vdata lhs, vdata rhs with
  | OpSub, VArr l, VArr r =>
      do* ls := items l in
      do* rs := items r in
      new_array (filter (λ x, occurs rs x = false) ls)
  | _, _, _ => arithmetic_numbers o lhs rhs
  end.

(** ** Bits *)

(** An [int64_t] read as 64 bits, and back. *)
Definition to_i64 (z : Z) : Z := (z + 2 ^ 63) mod 2 ^ 64 - 2 ^ 63.

Definition bit_and (lhs rhs : value) : M heap value :=
  match vdata lhs, vdata rhs with
  | VArr l, VArr r =>
      do* ls := items l in
      do* rs := items r in
      new_array (if non_null l && non_null r then filter (λ x, occurs rs x = true) ls else [])
  | VInt x, VInt y => ret (mk (VInt (Z.land x y)))
  | _, _ => op_error $"BitAnd: operands must both be ints or both be arrays"
  end.

Definition bit_or (lhs rhs : value) : M heap value :=
  match vdata lhs, vdata rhs with
  | VArr l, VArr r =>
      do* ls := items l in
      do* rs := items r in
      new_array (ls ++ filter (λ x, occurs ls x = false) rs)
  | VInt x, VInt y => ret (mk (VInt (Z.lor x y)))
  | _, _ => op_error $"BitOr: operands must both be ints or both be arrays"
  end.

Definition bit_xor (lhs rhs : value) : M heap value :=
  match vdata lhs, vdata rhs with
  | VInt x, VInt y => ret (mk (VInt (Z.lxor x y)))
  | _, _ => op_error $"BitXor: operands must both be ints"
  end.

(** A shift by a count that is not in [0, 63] is undefined; to the left the
    bits that leave the word are lost (C++20). *)
Definition shift (o : OpCode) (lhs rhs : value) : M heap value :=
  match vdata lhs, vdata rhs with
  | VInt x, VInt y =>
      if (0 <=? y) && (y <? 64)
      then ret (mk (VInt (if bool_decide (o = OpShl) then to_i64 (Z.shiftl x y) else Z.shiftr x y)))
      else lift Undefined
  | _, _ =>
      op_error ((if bool_decide (o = OpShl) then $"Shl" else $"Shr") ++ $": operands must both be ints")
  end.

Definition bit_not (v : value) : M heap value :=
  match vdata v with
  | VInt x => ret (mk (VInt (Z.lnot x)))
  | _ => op_error $"Bad argument to ~"
  end.

(** ** [+] *)

(** The columns of a row of [right] in a mapping of width [w]. *)
Definition row_of (right : Mapping) (w : Z) (ri : nat) : result (list value) :=
  match extraColumns right with
  | [] => Ok (replicate (Z.to_nat (w - 1)) (mk VVoid))
  | rows => deref (rows !! ri)
  end.

Fixpoint key_index (key : value) (es : list (value * value)) : option nat :=
  match es with
  | [] => None
  | (k, _) :: es => if valuesEqual k key then Some O else S <$> key_index key es
  end.

Definition merge_entry (right : Mapping) (ri : nat) (entry : value * value) (m : Mapping) : result Mapping :=
  match key_index (fst entry) (entries m) with
  | Some li =>
      let es := alter (λ e, (fst e, snd entry)) li (entries m) in
      match extraColumns m with
      | [] => Ok (mkMapping es (width m) [])
      | rows =>
          let* row := row_of right (width m) ri in
          let* _ := deref (rows !! li) in
          Ok (mkMapping es (width m) (<[li := row]> rows))
      end
  | None =>
      let es := entries m ++ [entry] in
      if 1 <? width m then
        let* row := row_of right (width m) ri in
        Ok (mkMapping es (width m) (extraColumns m ++ [row]))
      else Ok (mkMapping es (width m) (extraColumns m))
  end.

Fixpoint merge_entries (right : Mapping) (ri : nat) (es : list (value * value)) (m : Mapping) : result Mapping :=
  match es with
  | [] => Ok m
  | e :: es => let* m := merge_entry right ri e m in merge_entries right (S ri) es m
  end.

(** The mapping behind a pointer, if any. *)
Definition mapping_at (p : option addr) : M heap (option Mapping) := λ h,
  match p with
  | None => (Ok None, h)
  | Some a => (let* m := deref (mappings h !! a) in Ok (Some m), h)
  end.

Definition width_of (m : option Mapping) : Z := match m with Some m => width m | None => 1 end.

Definition add_mappings (l r : option addr) : M heap value :=
  do* ls := mapping_at l in
  do* rs := mapping_at r in
  if bool_decide (is_Some ls) && bool_decide (is_Some rs) && negb (width_of ls =? width_of rs)
  then op_error $"Add: mappings of different width"
  else
    let start := match ls with Some m => m | None => mkMapping [] (width_of rs) [] end in
    match rs with
    | None => new_mapping start
    | Some m => do* merged := lift (merge_entries m 0 (entries m) start) in new_mapping merged
    end.

(** [filename_of] names the object behind a pointer; a null one has no name. *)
Definition add (filename_of : addr → result bytes) (lhs rhs : value) : M heap value :=
  let name (p : option addr) := match p with Some a => lift (filename_of a) | None => ret [] end in
  match vdata lhs, vdata rhs, formatNumberForConcat lhs, formatNumberForConcat rhs with
  | VStr x, VStr y, _, _ => ret (mk (VStr (x ++ y)))
  | VStr x, _, _, Some y => ret (mk (VStr (x ++ y)))
  | _, VStr y, Some x, _ => ret (mk (VStr (x ++ y)))
  | VObj p, VStr y, _, _ => do* x := name p in ret (mk (VStr (x ++ y)))
  | VStr x, VObj p, _, _ => do* y := name p in ret (mk (VStr (x ++ y)))
  | VArr l, VArr r, _, _ => do* ls := items l in do* rs := items r in new_array (ls ++ rs)
  | VMap l, VMap r, _, _ => add_mappings l r
  | _, _, _, _ =>
      match asArithmeticOperand lhs, asArithmeticOperand rhs with
      | Some lv, Some rv => number lhs rhs (dadd lv rv)
      | _, _ =>
          op_error ($"Add: unsupported operand types (lhs kind " ++ to_string (Z.of_nat (index (vdata lhs))) ++
                    $", rhs kind " ++ to_string (Z.of_nat (index (vdata rhs))) ++ $")")
      end
  end.

(** ** Choice of the operator *)

Definition binary_operator (filename_of : addr → result bytes) (o : OpCode) (lhs rhs : value) : M heap value :=
  match o with
  | OpEq | OpNeq => equality o lhs rhs
  | OpLt | OpLte | OpGt | OpGte => comparison o lhs rhs
  | OpSub | OpMul | OpDiv | OpMod => arithmetic o lhs rhs
  | OpBitAnd => bit_and lhs rhs
  | OpBitOr => bit_or lhs rhs
  | OpBitXor => bit_xor lhs rhs
  | OpShl | OpShr => shift o lhs rhs
  | _ => add filename_of lhs rhs
  end.

(** [foreach] walks an array, or the keys of a mapping. *)
Definition foreach_keys (v : value) : M heap value :=
  match vdata v with
  | VArr _ => ret v
  | VMap p =>
      do* m := mapping_at p in
      new_array (match m with Some m => map fst (entries m) | None => [] end)
  | _ => op_error $"foreach: collection must be an array or mapping"
  end.

(** ** Checks *)

Example add_big : fst (arithmetic OpSub (mk (VInt 9007199254740993)) (mk (VInt 0)) empty_heap) =
  Ok (mk (VInt 9007199254740992)).
Proof. vm_compute. reflexivity. Qed.
Example add_overflow : fst (add (λ _, Undefined) (mk (VInt (2 ^ 63 - 1))) (mk (VInt 1)) empty_heap) = Undefined.
Proof. vm_compute. reflexivity. Qed.
Example mod_example : fst (arithmetic OpMod (mk (VInt (-7))) (mk (VInt 3)) empty_heap) = Ok (mk (VInt (-1))).
Proof. vm_compute. reflexivity. Qed.
Example div_example : fst (arithmetic OpDiv (mk (VInt (-7))) (mk (VInt 2)) empty_heap) = Ok (mk (VInt (-3))).
Proof. vm_compute. reflexivity. Qed.
