(* ===== verification/IntArith.v ===== *)
(** * IntArith: integers that fit in a double

    The machine adds, subtracts, multiplies and divides integers as doubles
    ([Operators]).  On integers of at most 2^53 in magnitude the result is that
    of the integers, if it has at most that magnitude too. *)

From S2P Require Import Prelude Doubles Values Objects Bytecode Operators.
Open Scope Z_scope.

(** ** Magnitudes *)

(** [m * 2^e] is the integer [v]. *)
Definition denotes_int (m e v : Z) : Prop := if 0 <=? e then m * 2 ^ e = v else m = v * 2 ^ (- e).

Lemma pow2_pos k : 0 ≤ k → 0 < 2 ^ k.
Proof. intros. apply Z.pow_pos_nonneg; lia. Qed.

Lemma pow2_split a b : 0 ≤ a → a ≤ b → 2 ^ b = 2 ^ a * 2 ^ (b - a).
Proof. intros. rewrite <- Z.pow_add_r by lia. f_equal. lia. Qed.

Lemma denotes_scaled K m e v : 0 ≤ K → 0 ≤ K + e → denotes_int m e v ↔ m * 2 ^ (K + e) = v * 2 ^ K.
Proof.
  intros HK He. unfold denotes_int. destruct (Z.leb_spec 0 e).
  - rewrite (Z.pow_add_r 2 K e) by lia. pose proof (pow2_pos K HK). nia.
  - rewrite (pow2_split (K + e) K) by lia. replace (K - (K + e)) with (- e) by lia.
    pose proof (pow2_pos (K + e) He). nia.
Qed.

Lemma denotes_shift m e v k : 0 ≤ k → denotes_int (m * 2 ^ k) e v ↔ denotes_int m (e + k) v.
Proof.
  intros Hk. rewrite (denotes_scaled (Z.abs e + k) _ e), (denotes_scaled (Z.abs e + k) _ (e + k)) by lia.
  rewrite <- Z.mul_assoc, <- Z.pow_add_r by lia. replace (k + (Z.abs e + k + e)) with (Z.abs e + k + (e + k)) by lia.
  done.
Qed.

Lemma denotes_mul m e v n f w : denotes_int m e v → denotes_int n f w → denotes_int (m * n) (e + f) (v * w).
Proof.
  rewrite (denotes_scaled (Z.abs e) m e v), (denotes_scaled (Z.abs f) n f w), (denotes_scaled (Z.abs e + Z.abs f)) by lia.
  intros Hm Hn.
  replace (Z.abs e + Z.abs f + (e + f)) with ((Z.abs e + e) + (Z.abs f + f)) by lia.
  rewrite (Z.pow_add_r _ (Z.abs e + e) (Z.abs f + f)), (Z.pow_add_r _ (Z.abs e) (Z.abs f)) by lia.
  transitivity ((m * 2 ^ (Z.abs e + e)) * (n * 2 ^ (Z.abs f + f))); [ring|]. rewrite Hm, Hn. ring.
Qed.

Lemma digits_spec m : 2 ^ (Z.pos (digits2_pos m) - 1) ≤ Z.pos m < 2 ^ Z.pos (digits2_pos m).
Proof.
  induction m as [m IH|m IH|]; cbn [digits2_pos]; rewrite ?Pos2Z.inj_succ; [| |done].
  all: pose proof (pow2_split 1 (Z.pos (digits2_pos m)) ltac:(lia) ltac:(lia)) as E; rewrite Z.pow_1_r in E.
  all: rewrite <- Z.add_1_r, Z.add_simpl_r, Z.add_1_r, Z.pow_succ_r by lia; lia.
Qed.

Lemma digits_unique m d : 2 ^ (d - 1) ≤ Z.pos m < 2 ^ d → Z.pos (digits2_pos m) = d.
Proof.
  intros [Hl Hu]. pose proof (digits_spec m) as [Hl' Hu'].
  assert (d - 1 < Z.pos (digits2_pos m)) by (apply (Z.pow_lt_mono_r_iff 2); lia).
  assert (Z.pos (digits2_pos m) - 1 < d); [|lia].
  destruct (Z.le_gt_cases 0 d) as [?|?]; [apply (Z.pow_lt_mono_r_iff 2); lia|].
  rewrite (Z.pow_neg_r 2 d) in Hu by lia. lia.
Qed.

(** ** Shifts *)

Lemma iter_pos_nat {A} (f : A → A) n x : iter_pos f n x = Nat.iter (Pos.to_nat n) f x.
Proof.
  revert x. induction n as [n IH|n IH|]; intros x; cbn [iter_pos]; [| |done].
  - rewrite !IH, Pos2Nat.inj_xI, <- Nat.iter_add, Nat.iter_succ_r. f_equal. lia.
  - rewrite !IH, Pos2Nat.inj_xO, <- Nat.iter_add. f_equal. lia.
Qed.

Lemma shr_iter_exact k m : 0 < m →
  Nat.iter k shr_1 (Build_shr_record (m * 2 ^ Z.of_nat k) false false) = Build_shr_record m false false.
Proof.
  intros Hm. induction k as [|k IH]; [by rewrite Z.mul_1_r|].
  rewrite Nat.iter_succ_r. rewrite <- IH. f_equal.
  rewrite Nat2Z.inj_succ, Z.pow_succ_r by lia.
  assert (0 < m * 2 ^ Z.of_nat k) by (pose proof (pow2_pos (Z.of_nat k)); nia).
  replace (m * (2 * 2 ^ Z.of_nat k)) with (2 * (m * 2 ^ Z.of_nat k)) by lia.
  destruct (m * 2 ^ Z.of_nat k); [lia|done|lia].
Qed.

Lemma shr_exact k m e : 0 ≤ k → 0 < m →
  shr (Build_shr_record (m * 2 ^ k) false false) e k = (Build_shr_record m false false, e + k).
Proof.
  intros Hk Hm. destruct k as [|k|k]; [by rewrite Z.mul_1_r, Z.add_0_r| |lia].
  unfold shr. rewrite iter_pos_nat, <- (positive_nat_Z k). by rewrite shr_iter_exact.
Qed.

Lemma shl_spec m d : Z.pos (Pos.iter xO m d) = Z.pos m * 2 ^ Z.pos d.
Proof.
  induction d as [|d IH] using Pos.peano_ind; [simpl; lia|].
  rewrite Pos.iter_succ, Pos2Z.inj_succ, Z.pow_succ_r, Pos2Z.inj_xO, IH by lia. lia.
Qed.

(** ** Rounding *)

Definition bound : Z := 2 ^ 53.

(** The double is the integer [v], without loss. *)
Definition exactly (d : double) (v : Z) : Prop :=
  match d with
  | S754_zero _ => v = 0
  | S754_finite s m e =>
      2 ^ 52 ≤ Z.pos m < 2 ^ 53 ∧ -52 ≤ e ≤ 1 ∧ denotes_int (Z.pos m) e (if s then - v else v)
  | _ => False
  end.

Lemma denotes_bounds m e v : 0 < v → v ≤ bound → 2 ^ 52 ≤ m → denotes_int m e v → -1022 ≤ e →
  e ≤ 1 ∧ (2 ^ 53 ≤ m → e ≤ 0).
Proof.
  intros Hv Hb Hm Hd He. rewrite (denotes_scaled 1100) in Hd by lia. unfold bound in Hb.
  assert (∀ a, 0 ≤ a → 2 ^ a ≤ m → e ≤ 53 - a) as Hle; [|split; [|intros]; eapply Z.le_trans; [by apply (Hle 52)|done|by apply (Hle 53)|done]].
  intros a Ha Hma.
  assert (2 ^ (a + (1100 + e)) ≤ 2 ^ (53 + 1100)) as H.
  { rewrite !Z.pow_add_r by lia. pose proof (pow2_pos (1100 + e)). pose proof (pow2_pos 1100). nia. }
  apply Z.pow_le_mono_r_iff in H; lia.
Qed.

Lemma denotes_divides m e v d : 0 < v → v ≤ bound → 53 ≤ d → 2 ^ (d - 1) ≤ m → -600 ≤ e → denotes_int m e v →
  ∃ q, m = q * 2 ^ (d - 53).
Proof.
  intros Hv Hb Hd Hm He H. rewrite (denotes_scaled 600) in H by lia. unfold bound in Hb.
  pose proof (pow2_pos (600 + e) ltac:(lia)) as Hp.
  destruct (Z.le_gt_cases (e + (d - 53)) 0) as [Hle|Hgt].
  - exists (v * 2 ^ (- e - (d - 53))). rewrite <- Z.mul_assoc, <- Z.pow_add_r by lia.
    replace (- e - (d - 53) + (d - 53)) with (- e) by lia.
    rewrite (pow2_split (600 + e) 600) in H by lia. replace (600 - (600 + e)) with (- e) in H by lia. nia.
  - assert (2 ^ (600 + e) * 2 ^ (d - 1) ≤ 2 ^ 53 * 2 ^ 600) as Hle by nia.
    rewrite <- !Z.pow_add_r in Hle by lia. apply Z.pow_le_mono_r_iff in Hle; [|lia|lia].
    exists (2 ^ 52). rewrite <- Z.pow_add_r by lia.
    assert (2 ^ (600 + e) * 2 ^ (d - 1) = 2 ^ 53 * 2 ^ 600) by (rewrite <- !Z.pow_add_r by lia; f_equal; lia).
    replace (52 + (d - 53)) with (d - 1) by lia. nia.
Qed.

(** A magnitude with a mantissa that is too long loses only zeros. *)
Lemma denotes_short m e v : 0 < v → v ≤ bound → 2 ^ 52 ≤ Z.pos m → -600 ≤ e → denotes_int (Z.pos m) e v →
  ∃ m', Z.pos m = Z.pos m' * 2 ^ (Z.pos (digits2_pos m) - 53) ∧ 2 ^ 52 ≤ Z.pos m' < 2 ^ 53 ∧
    let e' := e + (Z.pos (digits2_pos m) - 53) in -52 ≤ e' ≤ 1 ∧ denotes_int (Z.pos m') e' v.
Proof.
  intros Hv Hb Hm He Hd. pose proof (digits_spec m) as Hds. set (d := Z.pos (digits2_pos m)) in *.
  assert (53 ≤ d) as Hd53.
  { destruct (Z.le_gt_cases 53 d); [done|]. pose proof (Z.pow_le_mono_r 2 d 52). lia. }
  assert (∃ q, Z.pos m = q * 2 ^ (d - 53)) as [q Hq] by (eapply denotes_divides; eauto; lia).
  assert (Z.pos m = q * 2 ^ (d - 53)) as Hq' by done. rewrite Hq in Hds.
  rewrite (pow2_split (d - 53) d), (pow2_split (d - 53) (d - 1)) in Hds by lia.
  replace (d - (d - 53)) with 53 in Hds by lia. replace (d - 1 - (d - 53)) with 52 in Hds by lia.
  pose proof (pow2_pos (d - 53) ltac:(lia)).
  assert (2 ^ 52 ≤ q < 2 ^ 53) as Hqb by nia.
  rewrite Hq, denotes_shift in Hd by lia.
  destruct q as [|m'|]; [lia| |lia]. exists m'. cbv zeta. split_and!; try lia; try done.
  - rewrite (denotes_scaled (Z.abs (e + (d - 53)) + 60)) in Hd by lia.
    apply Z.nlt_ge. intros Hlt. remember (Z.abs (e + (d - 53)) + 60) as K eqn:HK.
    assert (2 ^ (K + (e + (d - 53))) * 2 ^ 53 ≤ 2 ^ K); [|pose proof (pow2_pos (K + (e + (d - 53))) ltac:(lia)); nia].
    rewrite <- Z.pow_add_r by lia. apply Z.pow_le_mono_r; lia.
  - assert (-1022 ≤ e + (d - 53)) as Hlow by (clear - He Hd53; lia). eapply (proj1 (denotes_bounds (Z.pos m') _ v Hv Hb (proj1 Hqb) Hd Hlow)).
Qed.

Lemma round_exact (s : bool) m e v : 0 < v → v ≤ bound → 2 ^ 52 ≤ Z.pos m → -600 ≤ e → denotes_int (Z.pos m) e v →
  exactly (binary_round_aux 53 1024 s (Z.pos m) e loc_Exact) (if s then - v else v).
Proof.
  intros Hv Hb Hm He Hd. destruct (denotes_short m e v Hv Hb Hm He Hd) as (m' & Hq & Hm' & He' & Hd').
  cbv zeta in He', Hd'. pose proof (digits_spec m) as Hds. set (d := Z.pos (digits2_pos m)) in *.
  assert (53 ≤ d) as Hd53.
  { destruct (Z.le_gt_cases 53 d); [done|]. pose proof (Z.pow_le_mono_r 2 d 52). lia. }
  unfold binary_round_aux, shr_fexp. cbn [shr_record_of_loc Zdigits2]. fold d.
  replace (fexp 53 1024 (d + e) - e) with (d - 53) by (unfold fexp, emin; lia).
  rewrite Hq, shr_exact by lia. cbn [shr_m loc_of_shr_record round_nearest_even Zdigits2].
  rewrite (digits_unique m' 53) by done.
  replace (fexp 53 1024 (53 + (e + (d - 53))) - (e + (d - 53))) with 0 by (unfold fexp, emin; lia).
  cbn [shr shr_m shr_record_of_loc]. rewrite (proj2 (Z.leb_le _ _)) by lia.
  split_and!; try lia. by destruct s; rewrite ?Z.opp_involutive.
Qed.

Lemma normalize_exact m e v s : Z.abs v ≤ bound → -500 ≤ e → denotes_int m e v →
  exactly (binary_normalize 53 1024 m e s) v.
Proof.
  intros Hv He Hd.
  assert (∀ t p w, 0 < w → w ≤ bound → denotes_int (Z.pos p) e w →
    exactly (binary_round 53 1024 t p e) (if t then - w else w)) as Hpos.
  { clear v s m Hv Hd. intros t p w Hw Hb Hd. unfold binary_round. pose proof (digits_spec p) as Hds.
    set (d := Z.pos (digits2_pos p)) in *.
    assert (fexp 53 1024 (d + e) = e + (d - 53)) as -> by (unfold fexp, emin; lia).
    unfold shl_align. replace (e + (d - 53) - e) with (d - 53) by lia.
    destruct (d - 53) as [|k|k] eqn:Ek; try (apply round_exact; try done; try lia).
    - replace d with 53 in Hds by lia. change (53 - 1) with 52 in Hds. lia.
    - pose proof (Z.pow_le_mono_r 2 52 (d - 1)). lia.
    - rewrite shl_spec. rewrite (pow2_split (d - 1) 52) by lia.
      replace (52 - (d - 1)) with (Z.pos k) by lia. pose proof (pow2_pos (Z.pos k) ltac:(lia)). nia.
    - rewrite shl_spec, denotes_shift by lia. by replace (e + Z.neg k + Z.pos k) with e by lia. }
  destruct m as [|p|p]; unfold binary_normalize.
  - simpl. rewrite (denotes_scaled (Z.abs e)) in Hd by lia. pose proof (pow2_pos (Z.abs e) ltac:(lia)). nia.
  - assert (0 < v); [|apply (Hpos false p v); [lia|lia|done]].
    rewrite (denotes_scaled (Z.abs e)) in Hd by lia. pose proof (pow2_pos (Z.abs e) ltac:(lia)). pose proof (pow2_pos (Z.abs e + e) ltac:(lia)). nia.
  - assert (v < 0).
    { rewrite (denotes_scaled (Z.abs e)) in Hd by lia. pose proof (pow2_pos (Z.abs e) ltac:(lia)). pose proof (pow2_pos (Z.abs e + e) ltac:(lia)). nia. }
    rewrite <- (Z.opp_involutive v). apply (Hpos true p (- v)); [lia|lia|].
    rewrite (denotes_scaled (Z.abs e)) in Hd |- * by lia. lia.
Qed.

(** ** Operations that are exact *)

Lemma of_int_exact i : Z.abs i ≤ bound → exactly (of_int i) i.
Proof. intros Hi. apply normalize_exact; [done|lia|]. unfold denotes_int. simpl. lia. Qed.

Lemma trunc_exact d v : exactly d v → trunc d = Some v.
Proof.
  destruct d as [s|s| |s m e]; simpl; [by intros ->|done|done|]. intros (Hm & He & Hd). unfold denotes_int in Hd.
  f_equal. destruct (0 <=? e) eqn:E; [rewrite Hd; by destruct s; rewrite ?Z.opp_involutive|].
  rewrite Hd, Z.div_mul; [by destruct s; rewrite ?Z.opp_involutive|]. pose proof (pow2_pos (- e) ltac:(lia)). lia.
Qed.

Lemma to_int_exact d v : exactly d v → Z.abs v ≤ bound → to_int d = Ok v.
Proof.
  intros Hd Hv. unfold to_int. rewrite (trunc_exact d v Hd). unfold in_i64, bound in *.
  rewrite (proj2 (Z.leb_le _ _)), (proj2 (Z.ltb_lt _ _)) by lia. done.
Qed.

Lemma denotes_add m n e v w : denotes_int m e v → denotes_int n e w → denotes_int (m + n) e (v + w).
Proof. unfold denotes_int. case_match; lia. Qed.
Lemma denotes_opp m e v : denotes_int m e v → denotes_int (- m) e (- v).
Proof. unfold denotes_int. case_match; lia. Qed.

Lemma align_denotes (s : bool) m e g v : g ≤ e → denotes_int (Z.pos m) e (if s then - v else v) →
  denotes_int (cond_Zopp s (Z.pos (fst (shl_align m e g)))) g v.
Proof.
  intros Hg Hd. assert (denotes_int (Z.pos (fst (shl_align m e g))) g (if s then - v else v)) as H.
  { unfold shl_align. destruct (g - e) as [|k|k] eqn:E; simpl; [by replace g with e by lia|lia|].
    rewrite shl_spec, denotes_shift by lia. by replace (g + Z.pos k) with e by lia. }
  destruct s; simpl; [|done]. rewrite <- (Z.opp_involutive v). by apply denotes_opp.
Qed.

Lemma add_exact a b x y : exactly a x → exactly b y → Z.abs (x + y) ≤ bound → exactly (dadd a b) (x + y).
Proof.
  intros Ha Hb Hxy. unfold dadd.
  destruct a as [s|?| |s m e], b as [t|?| |t n f]; try done; cbn [exactly] in Ha, Hb.
  - subst. by destruct s, t.
  - subst x. by rewrite Z.add_0_l.
  - subst y. by rewrite Z.add_0_r.
  - destruct Ha as (_ & He & Ha), Hb as (_ & Hf & Hb). apply normalize_exact; [done|lia|].
    apply denotes_add; apply align_denotes; done || lia.
Qed.

Lemma exactly_opp s m e v : exactly (S754_finite s m e) v → exactly (S754_finite (negb s) m e) (- v).
Proof. intros (Hm & He & Hd). split_and!; try done; try lia. by destruct s; simpl in *; rewrite ?Z.opp_involutive. Qed.

Lemma sub_exact a b x y : exactly a x → exactly b y → Z.abs (x - y) ≤ bound → exactly (dsub a b) (x - y).
Proof.
  intros Ha Hb Hxy. unfold dsub.
  destruct a as [s|?| |s m e], b as [t|?| |t n f]; try done; cbn [exactly] in Ha, Hb.
  - subst. by destruct s, t.
  - subst x. by apply exactly_opp.
  - subst y. by rewrite Z.sub_0_r.
  - destruct Ha as (_ & He & Ha), Hb as (_ & Hf & Hb). apply normalize_exact; [done|lia|].
    rewrite <- !Z.add_opp_r. apply denotes_add; [|apply denotes_opp]; apply align_denotes; done || lia.
Qed.

Lemma mul_exact a b x y : exactly a x → exactly b y → Z.abs (x * y) ≤ bound → exactly (dmul a b) (x * y).
Proof.
  intros Ha Hb Hxy. unfold dmul.
  destruct a as [s|?| |s m e], b as [t|?| |t n f]; try done; cbn [exactly] in Ha, Hb; try (simpl; subst; lia).
  destruct Ha as (Hm & He & Ha), Hb as (Hn & Hf & Hb). pose proof (denotes_mul _ _ _ _ _ _ Ha Hb) as Hd.
  set (v := (if s then - x else x) * (if t then - y else y)) in *.
  assert (x * y = if xorb s t then - v else v) as Hv by (unfold v; destruct s, t; simpl; lia).
  assert (0 < v) as Hpos.
  { rewrite (denotes_scaled (Z.abs (e + f))) in Hd by lia. pose proof (pow2_pos (Z.abs (e + f)) ltac:(lia)).
    pose proof (pow2_pos (Z.abs (e + f) + (e + f)) ltac:(lia)). nia. }
  rewrite Hv. unfold SFmul. apply round_exact; [done|destruct (xorb s t); lia| |lia|done].
  rewrite Pos2Z.inj_mul. nia.
Qed.

Lemma denotes_mod m n g v w : 0 < n → 0 < w → denotes_int m g v → denotes_int n g w → denotes_int (m mod n) g (v mod w).
Proof.
  intros Hn Hw. unfold denotes_int. case_match eqn:E; intros Hm Hn'.
  - rewrite <- Hm, <- Hn', Z.mul_mod_distr_r; [done|lia|]. pose proof (pow2_pos g ltac:(lia)). lia.
  - rewrite Hm, Hn', Z.mul_mod_distr_r; [done|lia|]. pose proof (pow2_pos (- g) ltac:(lia)). lia.
Qed.

Lemma denotes_sign m e v : 0 < m → denotes_int m e v → 0 < v.
Proof.
  intros Hm Hd. rewrite (denotes_scaled (Z.abs e)) in Hd by lia. pose proof (pow2_pos (Z.abs e) ltac:(lia)).
  pose proof (pow2_pos (Z.abs e + e) ltac:(lia)). nia.
Qed.

Lemma fmod_exact a b x y : exactly a x → exactly b y → y ≠ 0 → Z.abs x ≤ bound → exactly (fmod a b) (Z.rem x y).
Proof.
  intros Ha Hb Hy Hx.
  destruct a as [s|?| |s m e], b as [t|?| |t n f]; try done; cbn [exactly] in Ha, Hb.
  - by subst x.
  - destruct Ha as (Hm & He & Ha), Hb as (Hn & Hf & Hb). unfold fmod. set (g := Z.min e f).
    assert (∀ p k v, g ≤ k → denotes_int (Z.pos p) k v → denotes_int (Z.pos p * 2 ^ (k - g)) g v) as Hal.
    { intros p k v Hk Hd. rewrite denotes_shift by lia. by replace (g + (k - g)) with k by lia. }
    pose proof (denotes_sign _ _ _ (Pos2Z.is_pos m) Ha) as Hsx. pose proof (denotes_sign _ _ _ (Pos2Z.is_pos n) Hb) as Hsy.
    apply Hal in Ha; [|lia]. apply Hal in Hb; [|lia].
    assert (0 < Z.pos n * 2 ^ (f - g)) as Hpos by (pose proof (pow2_pos (f - g) ltac:(lia)); lia).
    pose proof (denotes_mod _ _ _ _ _ Hpos Hsy Ha Hb) as Hmod.
    assert (Z.rem x y = if s then - ((if s then - x else x) mod (if t then - y else y))
                        else (if s then - x else x) mod (if t then - y else y)) as Hrem.
    { rewrite Z.rem_mod by done. replace (Z.abs x) with (if s then - x else x) by (destruct s; lia).
      replace (Z.abs y) with (if t then - y else y) by (destruct t; lia). destruct s; [rewrite Z.sgn_neg by lia|rewrite Z.sgn_pos by lia]; lia. }
    apply normalize_exact; [|lia|].
    + pose proof (Z.rem_bound_abs x y Hy). pose proof (Z.rem_abs_l x y Hy).
      assert (Z.abs (Z.rem x y) ≤ Z.abs x); [|lia].
      rewrite <- (Z.rem_abs x y Hy). apply Z.rem_le; lia.
    + rewrite Hrem. destruct s; [by apply denotes_opp|done].
Qed.

(** ** Division *)

(** Where the remainder [r] lies between 0 and [n]. *)
Definition location_is (n r : Z) (l : location) : Prop :=
  match l with
  | loc_Exact => r = 0
  | loc_Inexact Lt => 0 < r ∧ 2 * r ≤ n
  | loc_Inexact Eq => 2 * r = n
  | loc_Inexact Gt => n ≤ 2 * r
  end.

Lemma new_location_is n r : 0 ≤ r → location_is n r (new_location n r).
Proof.
  intros Hr. unfold new_location, new_location_even, new_location_odd.
  destruct (Z.even n); destruct (Z.eqb_spec r 0) as [?|?]; try done.
  - destruct (Z.compare_spec (2 * r) n); simpl; lia.
  - destruct (Z.compare_spec (2 * r + 1) n); simpl; lia.
Qed.

(** The result is one of the two integers around [num / den] in units of
    2^j, whichever is nearest. *)
Definition near (num den P j : Z) : Prop := 2 * Z.abs (P * den - num) ≤ 2 ^ j * den.

Lemma finish_round s M e : 2 ^ 52 ≤ M ≤ 2 ^ 53 → -500 ≤ e ≤ 500 →
  ∃ m k, (let '(mrs, e') := shr_fexp 53 1024 M e loc_Exact in
          match shr_m mrs with
          | Z0 => S754_zero s
          | Zpos m => if Z.leb e' (1024 - 53) then S754_finite s m e' else S754_infinity s
          | _ => S754_nan
          end) = S754_finite s m (e + k) ∧ 0 ≤ k ≤ 1 ∧ Z.pos m * 2 ^ k = M.
Proof.
  intros HM He. destruct M as [|m|m]; [lia| |lia]. unfold shr_fexp. cbn [shr_record_of_loc Zdigits2].
  destruct (decide (m = (2 ^ 53)%positive)) as [->|Hne].
  - change (Z.pos (digits2_pos _)) with 54. replace (fexp 53 1024 (54 + e) - e) with 1 by (unfold fexp, emin; lia).
    change (Z.pos (2 ^ 53)) with (2 ^ 52 * 2 ^ 1). rewrite shr_exact by lia. cbn [shr_m]. rewrite (proj2 (Z.leb_le _ _)) by lia.
    exists (2 ^ 52)%positive, 1. split_and!; try done; lia.
  - rewrite (digits_unique m 53) by (change (53 - 1) with 52; change (2 ^ 53) with (Z.pos (2 ^ 53)) in *; lia).
    replace (fexp 53 1024 (53 + e) - e) with 0 by (unfold fexp, emin; lia). cbn [shr shr_m].
    rewrite (proj2 (Z.leb_le _ _)) by lia. exists m, 0. rewrite Z.add_0_r. split_and!; try done; lia.
Qed.

(** One rounding step at 53 bits. *)
Lemma round_step p r den e : 2 ^ 52 ≤ Z.pos p < 2 ^ 54 → 0 ≤ r < den → -400 ≤ e ≤ 400 →
  ∃ mrs j, shr_fexp 53 1024 (Z.pos p) e (new_location den r) = (mrs, e + j) ∧ 0 ≤ j ≤ 1 ∧ 2 ^ (52 + j) ≤ Z.pos p ∧
    let M := round_nearest_even (shr_m mrs) (loc_of_shr_record mrs) in
    2 ^ 52 ≤ M ≤ 2 ^ 53 ∧ near (Z.pos p * den + r) den (M * 2 ^ j) j.
Proof.
  intros Hp Hr He. pose proof (new_location_is den r ltac:(lia)) as Hloc. unfold shr_fexp. cbn [Zdigits2].
  destruct (Z.lt_ge_cases (Z.pos p) (2 ^ 53)) as [Hlt|Hge].
  - rewrite (digits_unique p 53) by (change (53 - 1) with 52; lia).
    replace (fexp 53 1024 (53 + e) - e) with 0 by (unfold fexp, emin; lia). cbn [shr].
    eexists _, 0. rewrite Z.add_0_r. split; [done|]. split; [lia|]. split; [change (52 + 0) with 52; lia|]. cbv zeta. unfold near. rewrite Z.mul_1_r. change (2 ^ 0) with 1.
    destruct (new_location den r) as [|[]]; cbn [shr_record_of_loc shr_m loc_of_shr_record round_nearest_even location_is] in *.
    all: try (destruct (Z.even _)); split; nia.
  - rewrite (digits_unique p 54) by (change (54 - 1) with 53; lia).
    replace (fexp 53 1024 (54 + e) - e) with 1 by (unfold fexp, emin; lia). cbn [shr iter_pos].
    eexists _, 1. split; [done|]. split; [lia|]. split; [change (52 + 1) with 53; lia|]. cbv zeta. unfold near. change (2 ^ 1) with 2.
    destruct (new_location den r) as [|[]], p as [p|p|]; cbn [location_is] in Hloc; try lia;
      cbn [shr_record_of_loc shr_1 shr_m loc_of_shr_record round_nearest_even orb].
    all: try (destruct (Z.even _)); split; nia.
Qed.

Lemma round_near s q r den e : 2 ^ 52 ≤ q < 2 ^ 54 → 0 ≤ r < den → -400 ≤ e ≤ 400 →
  ∃ m k j, binary_round_aux 53 1024 s q e (new_location den r) = S754_finite s m (e + k) ∧
    0 ≤ j ≤ k ∧ k ≤ 2 ∧ j ≤ 1 ∧ 2 ^ (52 + j) ≤ q ∧ near (q * den + r) den (Z.pos m * 2 ^ k) j.
Proof.
  intros Hq Hr He. destruct q as [|p|p]; [lia| |lia].
  destruct (round_step p r den e Hq Hr He) as (mrs & j & Hsh & Hj & Hp & HM & Hnear).
  unfold binary_round_aux. rewrite Hsh.
  destruct (finish_round s _ (e + j) HM ltac:(lia)) as (m & k & -> & Hk & Hmk).
  exists m, (j + k), j. rewrite Z.add_assoc. split_and!; try done; try lia.
  rewrite Z.pow_add_r by lia. rewrite <- Hmk in Hnear. by rewrite (Z.mul_comm (2 ^ j)), Z.mul_assoc.
Qed.

(** The nearest number of a grid that is fine enough has the same integer part. *)
Lemma grid_floor x y g a b : 0 < x ≤ bound → 0 < y ≤ bound → 0 ≤ a → 0 ≤ b →
  2 * Z.abs (g * 2 ^ a * y - x * 2 ^ b) ≤ 2 ^ a * y → 2 ^ 52 * (2 ^ a * y) ≤ x * 2 ^ b →
  (g * 2 ^ a) / 2 ^ b = x / y.
Proof.
  unfold bound. intros Hx Hy Ha Hb Hn Hl. pose proof (pow2_pos a Ha). pose proof (pow2_pos b Hb).
  pose proof (Z.div_mod x y ltac:(lia)) as Hdiv. pose proof (Z.mod_pos_bound x y ltac:(lia)) as Hmod.
  set (N := x / y) in *. set (rho := x mod y) in *.
  destruct (Z.le_gt_cases a b) as [Hab|Hab].
  - rewrite (pow2_split a b) in Hn, Hl |- * by lia. set (w := 2 ^ (b - a)) in *.
    assert (0 < w) as Hw by (apply pow2_pos; lia).
    rewrite (Z.mul_comm g), Z.div_mul_cancel_l by lia.
    assert (2 * Z.abs (g * y - x * w) ≤ y) as Hn' by nia. assert (2 ^ 52 * y ≤ x * w) as Hl' by nia. clear Hn Hl.
    assert (N * w ≤ g) by nia.
    assert (g < (N + 1) * w); [|symmetry; apply (Z.div_unique _ _ _ (g - N * w)); lia].
    apply Z.nle_gt. intros Hg.
    assert (2 * w ≤ y) as H2w by nia.
    assert (x = 2 ^ 53 ∧ y = 2 * w) as [Ex Ey] by nia.
    assert (rho = 0) as Hrho; [|nia].
    unfold rho. rewrite Ex, Ey. unfold w. replace (2 * 2 ^ (b - a)) with (2 ^ (b - a + 1)) by (rewrite Z.pow_add_r by lia; lia).
    assert (b - a + 1 ≤ 53) as Hle.
    { apply (Z.pow_le_mono_r_iff 2); [lia|lia|]. rewrite Z.pow_add_r by lia. fold w. lia. }
    rewrite (pow2_split (b - a + 1) 53) by lia. rewrite Z.mul_comm. apply Z.mod_mul. pose proof (pow2_pos (b - a + 1)). lia.
  - rewrite (pow2_split b a) in Hn, Hl |- * by lia. rewrite (pow2_split 1 (a - b)) in Hn, Hl |- * by lia.
    set (w := 2 ^ (a - b - 1)) in *. assert (0 < w) as Hw by (apply pow2_pos; lia). change (2 ^ 1) with 2 in *.
    assert (2 ^ 52 * (2 * w * y) ≤ x) as Hl' by nia.
    assert (w = 1 ∧ y = 1 ∧ x = 2 ^ 53) as (Ew & Ey & Ex) by nia.
    rewrite Ew, Ey, Ex in Hn. assert (g = 2 ^ 52) by nia. unfold N. rewrite Ex, Ey, Z.div_1_r. subst g. rewrite Ew.
    replace (2 ^ 52 * (2 ^ b * (2 * 1))) with (2 ^ 53 * 2 ^ b) by lia. apply Z.div_mul. lia.
Qed.

Lemma trunc_scaled s m e K : 0 ≤ K → 0 ≤ K + e →
  trunc (S754_finite s m e) = Some (let n := Z.pos m * 2 ^ (K + e) / 2 ^ K in if s then - n else n).
Proof.
  intros HK He. unfold trunc. pose proof (pow2_pos K HK). cbv zeta. f_equal.
  destruct (Z.leb_spec 0 e).
  - rewrite (Z.add_comm K), Z.pow_add_r, Z.mul_assoc, Z.div_mul by lia. done.
  - rewrite (pow2_split (K + e) K) by lia. replace (K - (K + e)) with (- e) by lia.
    rewrite (Z.mul_comm (Z.pos m)), Z.div_mul_cancel_l; [done| |]; apply Z.pow_nonzero; lia.
Qed.

Lemma div_mantissa m n : 2 ^ 52 ≤ Z.pos m < 2 ^ 53 → 2 ^ 52 ≤ Z.pos n < 2 ^ 53 → 
  2 ^ 52 ≤ Z.pos m * 2 ^ 53 / Z.pos n < 2 ^ 54.
Proof. intros Hm Hn. split; [apply Z.div_le_lower_bound|apply Z.div_lt_upper_bound]; lia. Qed.

Lemma div_core m e n f : 2 ^ 52 ≤ Z.pos m < 2 ^ 53 → 2 ^ 52 ≤ Z.pos n < 2 ^ 53 → -60 ≤ e ≤ 60 → -60 ≤ f ≤ 60 →
  SFdiv_core_binary 53 1024 (Z.pos m) e (Z.pos n) f =
  (Z.pos m * 2 ^ 53 / Z.pos n, e - f - 53, new_location (Z.pos n) (Z.pos m * 2 ^ 53 mod Z.pos n)).
Proof.
  intros Hm Hn He Hf. unfold SFdiv_core_binary. cbn [Zdigits2].
  rewrite (digits_unique m 53), (digits_unique n 53) by (change (53 - 1) with 52; lia).
  replace (Z.min (fexp 53 1024 (53 + e - (53 + f))) (e - f)) with (e - f - 53) by (unfold fexp, emin; lia).
  replace (e - f - (e - f - 53)) with 53 by lia. cbv iota. rewrite Z.shiftl_mul_pow2 by lia.
  unfold Z.div, Z.modulo. by destruct (Z.div_eucl _ _).
Qed.

Lemma div_exact a b x y : exactly a x → exactly b y → y ≠ 0 → Z.abs x ≤ bound → Z.abs y ≤ bound →
  trunc (ddiv a b) = Some (Z.quot x y).
Proof.
  intros Ha Hb Hy Hx Hyb.
  destruct a as [s|?| |s m e], b as [t|?| |t n f]; try done; cbn [exactly] in Ha, Hb; [by subst x|].
  destruct Ha as (Hm & He & Ha), Hb as (Hn & Hf & Hb).
  pose proof (denotes_sign _ _ _ (Pos2Z.is_pos m) Ha) as Hsx. pose proof (denotes_sign _ _ _ (Pos2Z.is_pos n) Hb) as Hsy.
  set (X := if s then - x else x) in *. set (Y := if t then - y else y) in *.
  assert (X ≤ bound ∧ Y ≤ bound) as [HX HY] by (unfold X, Y; destruct s, t; lia).
  assert (Z.quot x y = if xorb s t then - (X / Y) else X / Y) as ->.
  { rewrite Z.quot_div by done. replace (Z.abs x) with X by (unfold X; destruct s; lia).
    replace (Z.abs y) with Y by (unfold Y; destruct t; lia).
    unfold X, Y in Hsx, Hsy. destruct s, t; simpl; rewrite ?(Z.sgn_neg x), ?(Z.sgn_pos x), ?(Z.sgn_neg y), ?(Z.sgn_pos y) by lia; lia. }
  unfold ddiv, SFdiv. rewrite div_core by (done || lia).
  destruct (round_near (xorb s t) (Z.pos m * 2 ^ 53 / Z.pos n) (Z.pos m * 2 ^ 53 mod Z.pos n) (Z.pos n) (e - f - 53))
    as (p & k & j & -> & Hj & Hk & Hj1 & Hq & Hnear); [by apply div_mantissa|apply Z.mod_pos_bound; lia|lia|].
  replace (Z.pos m * 2 ^ 53 / Z.pos n * Z.pos n + Z.pos m * 2 ^ 53 mod Z.pos n) with (Z.pos m * 2 ^ 53) in Hnear
    by (rewrite (Z.div_mod (Z.pos m * 2 ^ 53) (Z.pos n)) at 1 by lia; lia).
  assert (2 ^ (52 + j) * Z.pos n ≤ Z.pos m * 2 ^ 53) as Hq'.
  { pose proof (Z.mul_div_le (Z.pos m * 2 ^ 53) (Z.pos n) ltac:(lia)). nia. }
  rewrite (trunc_scaled _ _ _ 300) by lia. cbv zeta.
  assert (Z.pos p * 2 ^ (300 + (e - f - 53 + k)) / 2 ^ 300 = X / Y) as ->; [|done].
  replace (300 + (e - f - 53 + k)) with ((k - j) + (247 + (e - f) + j)) by lia.
  rewrite Z.pow_add_r, Z.mul_assoc by lia.
  assert (Z.pos m * 2 ^ 53 * 2 ^ (247 + (e - f)) * Y = X * 2 ^ 300 * Z.pos n) as HR.
  { rewrite (denotes_scaled 150) in Ha, Hb by lia.
    assert (2 ^ 53 * 2 ^ (247 + (e - f)) = 2 ^ (150 + e) * 2 ^ (150 - f)) as E by (rewrite <- !Z.pow_add_r by lia; f_equal; lia).
    assert (2 ^ 150 * 2 ^ 150 = 2 ^ (150 + f) * 2 ^ (150 - f)) as E' by (rewrite <- !Z.pow_add_r by lia; f_equal; lia).
    pose proof (pow2_pos (150 - f) ltac:(lia)). transitivity (Z.pos m * 2 ^ (150 + e) * (2 ^ (150 - f) * Y)); [rewrite <- (Z.mul_assoc _ (2 ^ 53)), E; ring|].
    rewrite Ha. change (2 ^ 300) with (2 ^ 150 * 2 ^ 150). assert (2 ^ 150 * Y = Z.pos n * 2 ^ (150 + f)) by lia.
    transitivity (X * 2 ^ (150 - f) * (2 ^ 150 * Y)); [ring|]. rewrite H0, E'. ring. }
  pose proof (pow2_pos (247 + (e - f)) ltac:(lia)) as HS. unfold near in Hnear.
  set (S := 2 ^ (247 + (e - f))) in *.
  apply grid_floor; [done|done|lia|lia| |].
  - rewrite (Z.pow_add_r 2 (247 + (e - f)) j) by lia. fold S.
    assert (Z.pos p * 2 ^ (k - j) * (S * 2 ^ j) = Z.pos p * 2 ^ k * S) as ->.
    { replace k with ((k - j) + j) at 2 by lia. rewrite (Z.pow_add_r 2 (k - j) j) by lia. ring. }
    apply (Z.mul_le_mono_pos_r _ _ (Z.pos n)); [lia|].
    transitivity (2 * Z.abs ((Z.pos p * 2 ^ k * Z.pos n - Z.pos m * 2 ^ 53) * (S * Y))).
    + rewrite <- Z.mul_assoc. apply Z.eq_le_incl. f_equal. rewrite <- (Z.abs_eq (Z.pos n)) at 1 by lia. rewrite <- Z.abs_mul.
      f_equal. rewrite Z.mul_sub_distr_r, <- HR. ring.
    + rewrite Z.abs_mul, (Z.abs_eq (S * Y)) by nia. nia.
  - rewrite (Z.pow_add_r 2 (247 + (e - f)) j) by lia. fold S. rewrite Z.pow_add_r in Hq' by lia.
    apply (Z.mul_le_mono_pos_r _ _ (Z.pos n)); [lia|]. rewrite <- HR. nia.
Qed.

(** ** Comparison *)

Lemma magnitude_compare m e v n f w :
  2 ^ 52 ≤ Z.pos m < 2 ^ 53 → 2 ^ 52 ≤ Z.pos n < 2 ^ 53 → -60 ≤ e ≤ 60 → -60 ≤ f ≤ 60 →
  denotes_int (Z.pos m) e v → denotes_int (Z.pos n) f w →
  (v ?= w) = match e ?= f with Eq => (m ?= n)%positive | c => c end.
Proof.
  intros Hm Hn He Hf Hv Hw. rewrite (denotes_scaled 100) in Hv, Hw by lia.
  assert (∀ m e v n f w, 2 ^ 52 ≤ Z.pos m < 2 ^ 53 → 2 ^ 52 ≤ Z.pos n < 2 ^ 53 → 0 ≤ 100 + e → e < f →
    Z.pos m * 2 ^ (100 + e) = v * 2 ^ 100 → Z.pos n * 2 ^ (100 + f) = w * 2 ^ 100 → v < w) as Hlt.
  { clear. intros m e v n f w Hm Hn He Hef Hv Hw. rewrite (pow2_split (100 + e) (100 + f)) in Hw by lia.
    rewrite (pow2_split 1 (100 + f - (100 + e))) in Hw by lia. pose proof (pow2_pos (100 + e) He).
    pose proof (pow2_pos (100 + f - (100 + e) - 1) ltac:(lia)). set (u := 2 ^ (100 + e)) in *.
    set (t := 2 ^ (100 + f - (100 + e) - 1)) in *. change (2 ^ 1) with 2 in Hw.
    assert (Z.pos m < 2 * Z.pos n) as Hmn by lia. assert (Z.pos m < 2 * Z.pos n * t) as Hmt by nia.
    apply (Z.mul_lt_mono_pos_r u) in Hmt; lia. }
  destruct (Z.compare_spec e f) as [->|H|H].
  - pose proof (pow2_pos (100 + f) ltac:(lia)) as Hp. change (m ?= n)%positive with (Z.pos m ?= Z.pos n).
    destruct (Z.compare_spec (Z.pos m) (Z.pos n)) as [E|E|E];
      [apply Z.compare_eq_iff; rewrite E in Hv; lia|apply Z.compare_lt_iff|apply Z.compare_gt_iff]; nia.
  - apply Z.compare_lt_iff. by apply (Hlt m e v n f w); try lia.
  - apply Z.compare_gt_iff. by apply (Hlt n f w m e v); try lia.
Qed.

Lemma compare_exact a b x y : exactly a x → exactly b y → SFcompare a b = Some (x ?= y).
Proof.
  destruct a as [s|?| |s m e], b as [t|?| |t n f]; try done; cbn [exactly]; intros Ha Hb.
  - by subst.
  - destruct Hb as (Hn & Hf & Hb). pose proof (denotes_sign _ _ _ (Pos2Z.is_pos n) Hb). subst x.
    destruct t; cbn [SFcompare]; f_equal; symmetry; [apply Z.compare_gt_iff|apply Z.compare_lt_iff]; lia.
  - destruct Ha as (Hm & He & Ha). pose proof (denotes_sign _ _ _ (Pos2Z.is_pos m) Ha). subst y.
    destruct s; cbn [SFcompare]; f_equal; symmetry; [apply Z.compare_lt_iff|apply Z.compare_gt_iff]; lia.
  - destruct Ha as (Hm & He & Ha), Hb as (Hn & Hf & Hb).
    pose proof (denotes_sign _ _ _ (Pos2Z.is_pos m) Ha). pose proof (denotes_sign _ _ _ (Pos2Z.is_pos n) Hb).
    destruct s, t; cbv iota in *; cbn [SFcompare]; f_equal; symmetry; [|apply Z.compare_lt_iff; lia|apply Z.compare_gt_iff; lia|].
    + pose proof (magnitude_compare m e (- x) n f (- y) Hm Hn ltac:(lia) ltac:(lia) Ha Hb) as E.
      rewrite Z.compare_opp, (Z.compare_antisym x y) in E.
      apply (f_equal CompOpp) in E. rewrite CompOpp_involutive in E. rewrite E.
      change (Pos.compare_cont Eq m n) with (m ?= n)%positive. by destruct (e ?= f).
    + by apply magnitude_compare; try lia.
Qed.

(** ** The operators of the machine *)

(** What an operator means on integers; [None]: an error. *)
Definition int_meaning (o : OpCode) (x y : Z) : option Z :=
  let truth (b : bool) := Some (if b then 1 else 0) in
  match o with
  | OpAdd => Some (x + y)
  | OpSub => Some (x - y)
  | OpMul => Some (x * y)
  | OpDiv => if y =? 0 then None else Some (Z.quot x y)
  | OpMod => if y =? 0 then None else Some (Z.rem x y)
  | OpBitAnd => Some (Z.land x y)
  | OpBitOr => Some (Z.lor x y)
  | OpBitXor => Some (Z.lxor x y)
  | OpEq => truth (x =? y)
  | OpNeq => truth (negb (x =? y))
  | OpLt => truth (x <? y)
  | OpLte => truth (x <=? y)
  | OpGt => truth (y <? x)
  | OpGte => truth (y <=? x)
  | _ => None
  end.

Definition int_operator (o : OpCode) : bool :=
  match o with
  | OpAdd | OpSub | OpMul | OpDiv | OpMod | OpBitAnd | OpBitOr | OpBitXor
  | OpEq | OpNeq | OpLt | OpLte | OpGt | OpGte => true
  | _ => false
  end.

Lemma number_exact x y d v h : exactly d v → Z.abs v ≤ bound →
  number (mk (VInt x)) (mk (VInt y)) d h = (Ok (mk (VInt v)), h).
Proof. intros Hd Hv. unfold number. simpl. unfold lift, bind. by rewrite (to_int_exact d v). Qed.

Lemma deq_exact d y : exactly d y → deq d double_zero = (y =? 0).
Proof.
  intros Hd. unfold deq, SFeqb. rewrite (compare_exact d double_zero y 0 Hd) by done.
  rewrite Z.eqb_compare. done.
Qed.

Lemma ltb_exact a b x y : exactly a x → exactly b y → SFltb a b = (x <? y).
Proof. intros Ha Hb. unfold SFltb. rewrite (compare_exact a b x y), Z.ltb_compare by done. by destruct (x ?= y). Qed.
Lemma leb_exact a b x y : exactly a x → exactly b y → SFleb a b = (x <=? y).
Proof. intros Ha Hb. unfold SFleb. rewrite (compare_exact a b x y), Z.leb_compare by done. by destruct (x ?= y). Qed.

Lemma arithmetic_exact o x y z h : (o = OpDiv ∨ o = OpMod → y ≠ 0) →
  exactly (arith_op o (of_int x) (of_int y)) z ∨ trunc (arith_op o (of_int x) (of_int y)) = Some z →
  Z.abs y ≤ bound → Z.abs z ≤ bound →
  arithmetic_numbers o (mk (VInt x)) (mk (VInt y)) h = (Ok (mk (VInt z)), h).
Proof.
  intros Hy Hz Hyb Hzb. unfold arithmetic_numbers, operands. cbn [asArithmeticOperand vdata mk].
  rewrite (deq_exact _ y) by by apply of_int_exact.
  assert ((bool_decide (o = OpDiv) || bool_decide (o = OpMod)) && (y =? 0) = false) as ->.
  { destruct (Z.eqb_spec y 0) as [?|?]; [|by rewrite andb_false_r].
    rewrite !bool_decide_eq_false_2; [done|intros ->; by apply Hy; auto..]. }
  destruct Hz as [Hz|Hz]; [by apply number_exact|].
  unfold number. simpl. unfold lift, bind, to_int. rewrite Hz. unfold in_i64, bound in *.
  rewrite (proj2 (Z.leb_le _ _)), (proj2 (Z.ltb_lt _ _)) by lia. done.
Qed.

(** C35: The binary operators of the machine on integers of at most 2^53 in
    magnitude are those of the integers, although the machine computes with
    doubles: the sum, the difference, the product, the truncated quotient and
    the remainder are exact as long as they are in that range too, the bitwise
    operators and the comparisons are right, and a division by zero is an
    error.  Beyond 2^53 they are not ([add_big], [add_overflow]); shifts are
    not among these operators. *)
Theorem int_operators_exact fo o x y h : int_operator o = true → Z.abs x ≤ bound → Z.abs y ≤ bound →
  match int_meaning o x y with
  | Some z => Z.abs z ≤ bound → binary_operator fo o (mk (VInt x)) (mk (VInt y)) h = (Ok (mk (VInt z)), h)
  | None => ∃ msg, binary_operator fo o (mk (VInt x)) (mk (VInt y)) h = (Throw (LpcRuntimeError msg), h)
  end.
Proof.
  intros Ho Hx Hy. pose proof (of_int_exact x Hx) as Dx. pose proof (of_int_exact y Hy) as Dy.
  destruct o; try discriminate; cbn [int_meaning binary_operator]; try done.
  all: try (intros _; unfold equality, valuesEqual; simpl; by destruct (x =? y)).
  all: try (intros _; unfold comparison, operands; cbn [vdata mk asArithmeticOperand compare_op];
    first [by rewrite (ltb_exact _ _ x y)|by rewrite (ltb_exact _ _ y x)
          |by rewrite (leb_exact _ _ x y)|by rewrite (leb_exact _ _ y x)]).
  - intros Hz. unfold add. cbn [vdata mk formatNumberForConcat asArithmeticOperand].
    apply number_exact; [|done]. by apply add_exact.
  - intros Hz. apply arithmetic_exact; [by intros []|left; by apply sub_exact|done..].
  - intros Hz. apply arithmetic_exact; [by intros []|left; by apply mul_exact|done..].
  - destruct (Z.eqb_spec y 0) as [->|H0]; [by eexists|]. intros Hz.
    apply arithmetic_exact; [done|right; by apply div_exact|done..].
  - destruct (Z.eqb_spec y 0) as [->|H0]; [by eexists|]. intros Hz.
    apply arithmetic_exact; [done|left; by apply fmod_exact|done..].
Qed.

Lemma int_operators_exact_witness :
  (∀ h, binary_operator (λ _, Undefined) OpDiv (mk (VInt (-9007199254740992))) (mk (VInt 3)) h =
     (Ok (mk (VInt (-3002399751580330))), h)) ∧
  int_meaning OpMod 7 0 = None.
Proof.
  split; [|vm_compute; reflexivity]. intros h.
  apply (int_operators_exact (λ _, Undefined) OpDiv (-9007199254740992) 3 h); unfold bound; [reflexivity|lia|lia|].
  change (Z.quot (-9007199254740992) 3) with (-3002399751580330). lia.
Defined.
