(* ===== verification/Sscanf.v ===== *)
(** * Sscanf: the format matcher of the machine

    Models [runSscanf] of [src/vm/VM.cpp] with the two functions of the C
    library that it calls.  A position is an index, as in the code.  The
    regular expressions of ["%(...)"] are PCRE2's, which is a parameter. *)

From S2P Require Import Prelude Doubles Values.
Open Scope Z_scope.

(** ** [strtoll] and [strtod]

    Both answer with the value and the number of bytes read; [None] when there
    is no number.  The string ends at its first NUL. *)

Definition digit_of (c : ascii) : Z :=
  let k := code c in
  if is_digit c then k - 48
  else if (65 <=? k) && (k <=? 90) then k - 55
  else if (97 <=? k) && (k <=? 122) then k - 87
  else 36.

Definition in_base (base : Z) (c : ascii) : bool := digit_of c <? base.

Definition value_in (base : Z) (ds : bytes) : Z := fold_left (λ n c, n * base + digit_of c) ds 0.

Definition read_sign (s : bytes) : bool * bytes :=
  match s with
  | c :: r => if Ascii.eqb c "-" then (true, r) else if Ascii.eqb c "+" then (false, r) else (false, s)
  | [] => (false, s)
  end.

(** ["0x"] before a digit. *)
Definition hex_prefix (ok : bytes → bool) (s : bytes) : option bytes :=
  match s with
  | z :: x :: r => if Ascii.eqb z "0" && Ascii.eqb (lower x) "x" && ok r then Some r else None
  | _ => None
  end.

Definition starts_digit (base : Z) (s : bytes) : bool :=
  match s with c :: _ => in_base base c | [] => false end.

Definition consumed (s r : bytes) : Z := size s - size r.

Definition strtoll (base : Z) (s : bytes) : option (Z * Z) :=
  let '(neg, t) := read_sign (snd (span is_space s)) in
  let t := if base =? 16 then default t (hex_prefix (starts_digit 16) t) else t in
  match span (in_base base) t with
  | ([], _) => None
  | (ds, r) =>
      let m := value_in base ds in
      Some (if neg then Z.max (- m) (- 2 ^ 63) else Z.min m (2 ^ 63 - 1), consumed s r)
  end.

(** Digits, a point and digits: the digits, how many follow the point, the rest. *)
Definition read_mantissa (ok : ascii → bool) (s : bytes) : bytes * Z * bytes :=
  let '(ip, r) := span ok s in
  match r with
  | c :: r' => if Ascii.eqb c "." then let '(fp, r') := span ok r' in (ip ++ fp, size fp, r') else (ip, 0, r)
  | [] => (ip, 0, r)
  end.

(** An exponent with at least one digit, or none. *)
Definition read_power (mark : ascii) (s : bytes) : Z * bytes :=
  match s with
  | c :: r =>
      if Ascii.eqb (lower c) mark then
        let '(neg, r) := read_sign r in
        match span is_digit r with
        | ([], _) => (0, s)
        | (ds, r) => (if neg then - digits_val ds else digits_val ds, r)
        end
      else (0, s)
  | [] => (0, s)
  end.

(** [mant * 10^x], rounded; out of range it is infinite or zero. *)
Definition decimal_double (neg : bool) (mant x : Z) : double :=
  if mant =? 0 then S754_zero neg
  else
    let mag := x + size (dec mant) in
    if 400 <? mag then S754_infinity neg
    else if mag <? -400 then S754_zero neg
    else let '(num, den) := scale10 mant 1 x in fst (nearest neg (Z.to_pos num) (Z.to_pos den)).

(** [mant * 2^x], rounded. *)
Definition binary_double (neg : bool) (mant x : Z) : double :=
  if mant =? 0 then S754_zero neg
  else if 1100 <? x + Zdigits2 mant then S754_infinity neg
  else if x + Zdigits2 mant <? -1200 then S754_zero neg
  else binary_normalize 53 1024 (if neg then - mant else mant) x neg.

Definition has_mantissa (ok : ascii → bool) (s : bytes) : bool :=
  let '(ds, _, _) := read_mantissa ok s in negb (bool_decide (ds = [])).

(** What follows [nan] in brackets. *)
Definition nan_tail (s : bytes) : bytes :=
  match s with
  | c :: r =>
      if Ascii.eqb c "(" then
        match span (λ c, (digit_of c <? 36) || Ascii.eqb c "_") r with
        | (_, d :: r') => if Ascii.eqb d ")" then r' else s
        | _ => s
        end
      else s
  | [] => s
  end.

Definition starts (word : bytes) (s : bytes) : option bytes :=
  match strip_prefix word (map lower s) with Some _ => Some (drop (length word) s) | None => None end.

Definition strtod (s : bytes) : option (double * Z) :=
  let '(neg, t) := read_sign (snd (span is_space s)) in
  match starts $"infinity" t, starts $"inf" t, starts $"nan" t, hex_prefix (has_mantissa (in_base 16)) t with
  | Some r, _, _, _ | None, Some r, _, _ => Some (S754_infinity neg, consumed s r)
  | _, _, Some r, _ => Some (S754_nan, consumed s (nan_tail r))
  | _, _, _, Some r =>
      let '(ds, k, r) := read_mantissa (in_base 16) r in
      let '(x, r) := read_power "p" r in
      Some (binary_double neg (value_in 16 ds) (x - 4 * k), consumed s r)
  | None, None, None, None =>
      match read_mantissa is_digit t with
      | ([], _, _) => None
      | (ds, k, r) =>
          let '(x, r) := read_power "e" r in
          Some (decimal_double neg (digits_val ds) (x - k), consumed s r)
      end
  end.

(** ** The matcher *)

(** [pcre2_match] of a pattern, from an offset, anchored there or not: the
    bounds of the match; an error is an LPC error. *)
Class Pcre := { sscanfRegexMatch : bytes → bytes → Z → bool → result (option (Z * Z)) }.

Section Matcher.
Context {P : Pcre}.

(** [parseSscanfRegex]: the pattern up to its closing bracket, and the rest. *)
Fixpoint parseSscanfRegex (depth : nat) (s : bytes) : option (bytes * bytes) :=
  match s with
  | [] => None
  | c :: r =>
      let more d := '(p, rest) ← parseSscanfRegex d r; Some (c :: p, rest) in
      if Ascii.eqb c BACKSLASH then
        match r with
        | d :: r' => '(p, rest) ← parseSscanfRegex depth r'; Some (c :: d :: p, rest)
        | [] => None
        end
      else if Ascii.eqb c "(" then more (S depth)
      else if Ascii.eqb c ")" then match depth with S (S d) => more (S d) | _ => Some ([], r) end
      else more depth
  end.

Definition regex_of (s : bytes) : result (bytes * bytes) :=
  match parseSscanfRegex 1 s with
  | Some r => Ok r
  | None => Throw (LpcRuntimeError $"sscanf: bad regexp format")
  end.

(** How far the text of a number in hexadecimal is. *)
Fixpoint hex_boundary (s : bytes) : nat :=
  match s with
  | [] => O
  | c :: r =>
      if Ascii.eqb c "0" then
        match r with
        | x :: h :: _ => if Ascii.eqb (lower x) "x" && in_base 16 h then O
                         else match r with _ :: r' => S (S (hex_boundary r')) | [] => 1%nat end
        | _ => length s
        end
      else S (hex_boundary r)
  end.

Fixpoint float_boundary (s : bytes) : nat :=
  match s with
  | [] => O
  | c :: r => if is_digit c || (Ascii.eqb c "." && starts_digit 10 r) then O else S (float_boundary r)
  end.

Definition skip_to (p : ascii → bool) (s : bytes) : nat := length (fst (span (λ c, negb (p c)) s)).

(** [adjacentSscanfBoundary]; [fmt] begins with the [%] of the next specifier. *)
Definition adjacentSscanfBoundary (fmt in0 : bytes) (ip : Z) : result Z :=
  let fmt := drop 1 fmt in
  let fmt := match fmt with c :: r => if Ascii.eqb c "*" then r else fmt | [] => fmt end in
  let s := dropz ip in0 in
  let spec := default NUL (head fmt) in
  if Ascii.eqb spec "x" || Ascii.eqb spec "X" then Ok (ip + Z.of_nat (hex_boundary s))
  else if Ascii.eqb spec "d" || Ascii.eqb spec "i" then Ok (ip + Z.of_nat (skip_to is_digit s))
  else if Ascii.eqb spec "o" then Ok (ip + Z.of_nat (skip_to (in_base 8) s))
  else if Ascii.eqb spec "f" then Ok (ip + Z.of_nat (float_boundary s))
  else if Ascii.eqb spec "%" then Ok (ip + Z.of_nat (skip_to (Ascii.eqb "%") s))
  else if Ascii.eqb spec "s" then Throw (LpcRuntimeError $"sscanf: illegal to have two adjacent %s specifiers")
  else if Ascii.eqb spec "(" then
    let* (pattern, _) := regex_of (drop 1 fmt) in
    let* m := sscanfRegexMatch pattern in0 ip false in
    Ok (match m with Some (first, _) => first | None => size in0 end)
  else Throw (NotImplementedError ($"sscanf: " ++ [QUOTE] ++ $"%s" ++ [QUOTE] ++
                $" adjacent to unsupported format specifier '%" ++ [spec] ++ $"'")).

(** The literal text at the front of a format, and its rest; how much input
    it matches. *)
Fixpoint literal (fmt s : bytes) : option (bytes * Z) :=
  match fmt with
  | [] => Some ([], 0)
  | c :: fmt' =>
      if Ascii.eqb c "%" then Some (fmt, 0)
      else match s with
           | d :: s' => if Ascii.eqb d c then '(rest, n) ← literal fmt' s'; Some (rest, n + 1) else None
           | [] => None
           end
  end.

(** [in0.find(delim, ip)]. *)
Fixpoint find_text (delim s : bytes) : option Z :=
  match strip_prefix delim s, s with
  | Some _, _ => Some 0
  | None, _ :: s => Z.succ <$> find_text delim s
  | None, [] => None
  end.

(** What was matched, and the values for the variables. *)
Definition SscanfOutcome : Type := Z * list value.

Section Loop.
Context (in0 : bytes) (maxAssigns : Z).

Definition too_few : exn := LpcRuntimeError $"sscanf: too few output arguments for format string".

(** A value for the next variable, unless it is skipped. *)
Definition assign (skip : bool) (assigned : list value) (v : value) : result (list value) :=
  if skip then Ok assigned
  else if maxAssigns <=? size assigned then Throw too_few
  else Ok (assigned ++ [v]).

(** The same for a part of the input. *)
Definition assign_part (skip : bool) (assigned : list value) (pos n : Z) : result (list value) :=
  if skip then Ok assigned
  else if maxAssigns <=? size assigned then Throw too_few
  else let* t := substr in0 pos (u64 n) in Ok (assigned ++ [mk (VStr t)]).

Definition base_of (spec : ascii) : Z :=
  if Ascii.eqb (lower spec) "x" then 16 else if Ascii.eqb spec "o" then 8 else 10.

Definition is_number (spec : ascii) : bool :=
  existsb (Ascii.eqb spec) ["d"; "i"; "x"; "X"; "o"]%char.

(** One conversion with its character [spec]: the value and the bytes it
    reads, from [ip]; [None] when it does not match. *)
Definition conversion (spec : ascii) (ip : Z) : option (value * Z) :=
  if Ascii.eqb spec "f" then '(d, n) ← strtod (dropz ip in0); Some (mk (VFloat d), n)
  else '(z, n) ← strtoll (base_of spec) (dropz ip in0); Some (mk (VInt z), n).

Definition done_with (count : Z) (assigned : list value) : result SscanfOutcome := Ok (count, assigned).

Definition no_percent (c : ascii) : bool := negb (Ascii.eqb c "%").

Definition unsupported (spec : ascii) : exn :=
  NotImplementedError ($"sscanf: format specifier '%" ++ [spec] ++
    $"' (only %s, %d, %i, %x, %X, %o, %f, %%, %(regexp) are supported)").

Definition ends_in_percent : exn := LpcRuntimeError $"sscanf: format string cannot end in '%'".

Fixpoint sscanf_loop (n : nat) (ip : Z) (fmt : bytes) (count : Z) (assigned : list value) : result SscanfOutcome :=
  match n with
  | O => OutOfFuel
  | S n =>
      match literal fmt (dropz ip in0) with
      | None => done_with count assigned
      | Some (fmt, k) =>
          let ip := ip + k in
          match fmt with
          | [] =>
              if (ip <? size in0) && (size assigned <? maxAssigns) then
                let* assigned := assign_part false assigned ip npos in done_with (count + 1) assigned
              else done_with count assigned
          | _ :: fmt =>
              let '(skip, body) := match fmt with
                                   | c :: r => if Ascii.eqb c "*" then (true, r) else (false, fmt)
                                   | [] => (false, fmt)
                                   end in
              match fmt, body with
              | [], _ => Throw ends_in_percent
              | c :: fmt', spec :: rest =>
                  if Ascii.eqb c "%" then
                    if bool_decide (at_pos in0 ip = Some "%"%char)
                    then sscanf_loop n (ip + 1) fmt' (count + 1) assigned
                    else done_with count assigned
                  else if is_number spec || Ascii.eqb spec "f" then
                    match conversion spec ip with
                    | None => done_with count assigned
                    | Some (v, k) =>
                        let* assigned := assign skip assigned v in
                        sscanf_loop n (ip + k) rest (count + 1) assigned
                    end
                  else if Ascii.eqb spec "(" then
                    let* (pattern, rest) := regex_of rest in
                    let* m := sscanfRegexMatch pattern in0 ip true in
                    match m with
                    | None => done_with count assigned
                    | Some (first, last) =>
                        let* assigned := assign_part skip assigned first (last - first) in
                        sscanf_loop n last rest (count + 1) assigned
                    end
                  else if negb (Ascii.eqb spec "s") then Throw (unsupported spec)
                  else
                    match rest with
                    | [] =>
                        let* assigned := assign_part skip assigned ip npos in
                        done_with (count + 1) assigned
                    | c :: _ =>
                        if Ascii.eqb c "%" then
                          let* boundary := adjacentSscanfBoundary rest in0 ip in
                          let* assigned := assign_part skip assigned ip (boundary - ip) in
                          sscanf_loop n boundary rest (count + 1) assigned
                        else
                          let '(delim, rest) := span no_percent rest in
                          match find_text delim (dropz ip in0) with
                          | None => done_with count assigned
                          | Some k =>
                              let* assigned := assign_part skip assigned ip k in
                              sscanf_loop n (ip + k + size delim) rest (count + 1) assigned
                          end
                    end
              | _, [] => Throw ends_in_percent
              end
          end
      end
  end.
End Loop.

(** [runSscanf].  Each turn of the loop but the last reads a [%] of the format. *)
Definition runSscanf (in0 fmt : bytes) (maxAssigns : Z) : result SscanfOutcome :=
  sscanf_loop in0 maxAssigns (S (length fmt)) 0 fmt 0 [].
End Matcher.

(** ** Checks *)

Definition no_regex : Pcre := {| sscanfRegexMatch _ _ _ _ := Ok None |}.

Example sscanf_words : @runSscanf no_regex $"name: Bob, 0x1f -7.5e1 rest" $"name: %s, %x%f %s" 9 =
  Ok (4, [mk (VStr $"Bob"); mk (VInt 31); mk (VFloat (dlit "-75")); mk (VStr $"rest")]).
Proof. vm_compute. reflexivity. Qed.
Example sscanf_adjacent : @runSscanf no_regex $"abc12%" $"%s%d%%" 9 = Ok (3, [mk (VStr $"abc"); mk (VInt 12)]).
Proof. vm_compute. reflexivity. Qed.
Example strtod_hex : strtod $" +0x1.8p3z" = Some (dlit "12", 9).
Proof. vm_compute. reflexivity. Qed.
Example strtod_words : (strtod $"-Infinity", strtod $"infin", strtod $"nan(a_1)b", strtod $"1e", strtod $".") =
  (Some (S754_infinity true, 9), Some (S754_infinity false, 3), Some (S754_nan, 8), Some (dlit "1", 1), None).
Proof. vm_compute. reflexivity. Qed.
Example strtoll_saturates : (strtoll 10 $"-99999999999999999999", strtoll 16 $"0xg", strtoll 8 $"789") =
  (Some (- 2 ^ 63, 21), Some (0, 1), Some (7, 1)).
Proof. vm_compute. reflexivity. Qed.
