(* ===== verification/SscanfSpec.v ===== *)
(** * SscanfSpec: what the matcher promises

    The matcher stays inside of its input and of the variables it is given, it
    ends, and it reads back the text that a format describes. *)

From S2P Require Import Prelude Doubles Values Sscanf.
Open Scope Z_scope.

(** ** Conversions read a part of the input *)

Lemma span_suffix p s : snd (span p s) `suffix_of` s.
Proof.
  induction s as [|c s IH]; simpl; [done|]. case_match; [|done].
  destruct (span p s). simpl in *. by apply suffix_cons_r.
Qed.

Lemma span_suffix_eq p s a b : span p s = (a, b) → b `suffix_of` s.
Proof. intros H. pose proof (span_suffix p s) as Hs. by rewrite H in Hs. Qed.

Lemma tail_suffix {A} (c : A) s : s `suffix_of` c :: s.
Proof. by apply suffix_cons_r. Qed.

Lemma drop_suffix {A} k (s : list A) : drop k s `suffix_of` s.
Proof. exists (take k s). by rewrite take_drop. Qed.

#[local] Hint Resolve span_suffix span_suffix_eq tail_suffix drop_suffix suffix_cons_r : suf.
#[local] Hint Extern 5 (_ `suffix_of` _) => reflexivity : suf.

(** Splits on every test and leaves suffixes to the hints. *)
Ltac suffixes := intros; repeat (case_match; simplify_eq/=); eauto with suf.

Lemma read_sign_suffix s neg r : read_sign s = (neg, r) → r `suffix_of` s.
Proof. unfold read_sign. suffixes. Qed.

Lemma hex_prefix_suffix ok s r : hex_prefix ok s = Some r → r `suffix_of` s.
Proof. unfold hex_prefix. suffixes. Qed.

Lemma read_mantissa_suffix ok s ds k r : read_mantissa ok s = (ds, k, r) → r `suffix_of` s.
Proof.
  unfold read_mantissa. destruct (span ok s) as [a b] eqn:E. apply span_suffix_eq in E.
  destruct b as [|c b]; [by intros; simplify_eq|]. case_match; [|by intros; simplify_eq].
  destruct (span ok b) as [a' b'] eqn:E'. apply span_suffix_eq in E'. intros; simplify_eq.
  etrans; [done|]. etrans; [apply tail_suffix|done].
Qed.

Lemma read_power_suffix c s x r : read_power c s = (x, r) → r `suffix_of` s.
Proof.
  unfold read_power. destruct s as [|d s]; [by intros; simplify_eq|]. case_match; [|by intros; simplify_eq].
  destruct (read_sign s) as [neg t] eqn:E. apply read_sign_suffix in E.
  destruct (span is_digit t) as [[|? ds] b] eqn:E'; [by intros; simplify_eq|].
  apply span_suffix_eq in E'. intros; simplify_eq. do 2 (etrans; [done|]). apply tail_suffix.
Qed.

Lemma nan_tail_suffix s : nan_tail s `suffix_of` s.
Proof.
  unfold nan_tail. destruct s as [|c s]; [done|]. case_match; [|done].
  destruct (span _ s) as [a [|d b]] eqn:E; [done|]. apply span_suffix_eq in E. case_match; [|done].
  etrans; [apply tail_suffix|]. etrans; [done|]. apply tail_suffix.
Qed.

Lemma starts_suffix w s r : starts w s = Some r → r `suffix_of` s.
Proof. unfold starts. suffixes. Qed.

Lemma consumed_bounds s r : r `suffix_of` s → 0 ≤ consumed s r ≤ size s.
Proof. intros [k ->]. unfold consumed, size. rewrite length_app. lia. Qed.

Lemma digit_of_nonneg c : 0 ≤ digit_of c.
Proof. unfold digit_of, is_digit. repeat case_match; rewrite ?andb_true_iff, ?Z.leb_le in *; lia. Qed.

Lemma value_in_nonneg base ds : 0 ≤ base → 0 ≤ value_in base ds.
Proof.
  intros Hb. assert (∀ k, 0 ≤ k → 0 ≤ fold_left (λ n c, n * base + digit_of c) ds k) as H; [|by apply H].
  induction ds as [|c ds IH]; intros k Hk; [done|]. apply IH. pose proof (digit_of_nonneg c). nia.
Qed.

Lemma strtoll_bounds base s z n : 0 ≤ base → strtoll base s = Some (z, n) → 0 ≤ n ≤ size s ∧ in_i64 z = true.
Proof.
  intros Hb. unfold strtoll. destruct (read_sign _) as [neg t] eqn:E. apply read_sign_suffix in E.
  set (t' := if base =? 16 then _ else _).
  assert (t' `suffix_of` s) as Ht.
  { etrans; [|apply (span_suffix is_space)]. etrans; [|exact E]. unfold t'. case_match; [|done].
    destruct (hex_prefix _ t) eqn:Eh; [|done]. by apply hex_prefix_suffix in Eh. }
  destruct (span (in_base base) t') as [[|d ds] r] eqn:Es; [done|]. apply span_suffix_eq in Es.
  intros. simplify_eq. split; [apply consumed_bounds; by etrans|].
  pose proof (value_in_nonneg base (d :: ds) Hb). unfold in_i64. destruct neg; rewrite (proj2 (Z.leb_le _ _)), (proj2 (Z.ltb_lt _ _)); lia.
Qed.

Lemma strtod_bounds s d n : strtod s = Some (d, n) → 0 ≤ n ≤ size s.
Proof.
  unfold strtod. destruct (read_sign _) as [neg t] eqn:E. apply read_sign_suffix in E.
  assert (t `suffix_of` s) as Ht by (etrans; [exact E|apply span_suffix]). clear E.
  destruct (starts $"infinity" t) as [r|] eqn:E1;
    [intros; simplify_eq; apply consumed_bounds; apply starts_suffix in E1; by etrans|].
  destruct (starts $"inf" t) as [r|] eqn:E2;
    [intros; simplify_eq; apply consumed_bounds; apply starts_suffix in E2; by etrans|].
  destruct (starts $"nan" t) as [r|] eqn:E3.
  { intros. simplify_eq. apply consumed_bounds. apply starts_suffix in E3. etrans; [apply nan_tail_suffix|by etrans]. }
  destruct (hex_prefix _ t) as [r|] eqn:E4.
  - apply hex_prefix_suffix in E4. destruct (read_mantissa _ r) as [[ds k] r'] eqn:Em. apply read_mantissa_suffix in Em.
    destruct (read_power _ r') as [x r''] eqn:Ep. apply read_power_suffix in Ep.
    intros. simplify_eq. apply consumed_bounds. do 3 (etrans; [done|]). done.
  - destruct (read_mantissa _ t) as [[ds k] r'] eqn:Em. apply read_mantissa_suffix in Em.
    destruct ds as [|? ds]; [done|]. destruct (read_power _ r') as [x r''] eqn:Ep. apply read_power_suffix in Ep.
    intros. simplify_eq. apply consumed_bounds. do 2 (etrans; [done|]). done.
Qed.

(** ** Positions *)

Lemma literal_bounds fmt s rest n : literal fmt s = Some (rest, n) →
  0 ≤ n ≤ size s ∧ rest `suffix_of` fmt ∧ (rest = [] ∨ ∃ r, rest = "%"%char :: r).
Proof.
  revert s rest n. induction fmt as [|c fmt IH]; intros s rest n; simpl.
  { intros. simplify_eq. split_and!; [done|apply size_nonneg|done|by left]. }
  destruct (Ascii.eqb_spec c "%") as [->|Hc].
  { intros. simplify_eq. split_and!; [done|apply size_nonneg|done|right; by eexists]. }
  destruct s as [|d s]; [done|]. case_match; [|done].
  destruct (literal fmt s) as [[rest' n']|] eqn:E; [|done]. intros. simplify_eq/=.
  destruct (IH _ _ _ E) as (Hn & Hs & Hr). rewrite size_cons. split_and!; [lia|lia|by apply suffix_cons_r|done].
Qed.

Lemma find_text_bounds delim s k : find_text delim s = Some k → 0 ≤ k ∧ k + size delim ≤ size s.
Proof.
  revert k. induction s as [|c s IH]; intros k; cbn [find_text].
  - destruct (strip_prefix delim []) as [r|] eqn:E; [|done]. apply strip_prefix_Some in E. intros. simplify_eq.
    destruct delim; [done|discriminate].
  - destruct (strip_prefix delim (c :: s)) as [r|] eqn:E.
    + apply strip_prefix_Some in E. intros. simplify_eq. rewrite E, size_app. pose proof (size_nonneg r). lia.
    + destruct (find_text delim s) as [k'|]; [|done]. intros [= <-]. destruct (IH k' eq_refl). rewrite size_cons. lia.
Qed.

Lemma skip_to_bounds p s : (skip_to p s ≤ length s)%nat.
Proof.
  unfold skip_to. rewrite <- (span_parts (λ c, negb (p c)) s) at 2. rewrite length_app. lia.
Qed.

(** Induction on the length of a text. *)
Lemma length_ind {A} (P : list A → Prop) :
  (∀ s, (∀ t, (length t < length s)%nat → P t) → P s) → ∀ s, P s.
Proof. intros H s. apply H. induction (length s) as [|n IH]; intros t Ht; [lia|]. apply H. intros. apply IH. lia. Qed.

Lemma hex_boundary_bounds s : (hex_boundary s ≤ length s)%nat.
Proof.
  induction s as [[|c [|x [|h s]]] IH] using length_ind; cbn [hex_boundary length] in *; [done|repeat case_match; lia..|].
  pose proof (IH (h :: s) ltac:(simpl; lia)). pose proof (IH (x :: h :: s) ltac:(simpl; lia)).
  cbn [length hex_boundary] in *. repeat case_match; lia.
Qed.

Lemma float_boundary_bounds s : (float_boundary s ≤ length s)%nat.
Proof. induction s as [|c s IH]; cbn [float_boundary length]; [done|]. case_match; lia. Qed.

Lemma parseSscanfRegex_suffix d s p r : parseSscanfRegex d s = Some (p, r) → r `suffix_of` s.
Proof.
  revert d p r. induction s as [[|c s] IH] using length_ind; intros d p r; cbn [parseSscanfRegex]; [done|].
  assert (∀ d p r, parseSscanfRegex d s = Some (p, r) → r `suffix_of` c :: s) as Hs.
  { intros. apply suffix_cons_r. eapply IH; [|done]. simpl. lia. }
  case_match.
  - destruct s as [|e s]; [done|]. destruct (parseSscanfRegex d s) as [[p' r']|] eqn:E; [|done]. intros. simplify_eq/=.
    do 2 apply suffix_cons_r. eapply IH; [|done]. simpl. lia.
  - assert (∀ d p r, ('(p, rest) ← parseSscanfRegex d s; Some (c :: p, rest)) = Some (p, r) → r `suffix_of` c :: s) as Hm.
    { intros d' p' r' Hd. destruct (parseSscanfRegex d' s) as [[q t]|] eqn:E; [|done]. simplify_eq/=. by eapply Hs. }
    repeat case_match; eauto; intros; simplify_eq; apply tail_suffix.
Qed.

(** ** Bounds *)

(** PCRE2 answers with positions of the subject, or fails with an LPC error. *)
Class PcreLaws {P : Pcre} := pcre_bounds : ∀ pattern s ip anchored, 0 ≤ ip ≤ size s →
  match sscanfRegexMatch pattern s ip anchored with
  | Ok None | Throw (LpcRuntimeError _) => True
  | Ok (Some (first, last)) => 0 ≤ first ≤ size s ∧ 0 ≤ last ≤ size s
  | _ => False
  end.

(** What is assigned: an integer of 64 bits, a part of the input, a float. *)
Definition assignable (in0 : bytes) (v : value) : Prop :=
  match vdata v with
  | VInt z => in_i64 z = true
  | VStr t => size t ≤ size in0
  | VFloat _ => True
  | _ => False
  end.

Definition lpc_exn (e : exn) : bool :=
  match e with LpcRuntimeError _ | NotImplementedError _ => true | _ => false end.

(** What holds of a result after the values [assigned], with [room] matches left. *)
Definition outcome_ok (in0 : bytes) (maxAssigns room : Z) (r : result SscanfOutcome) : Prop :=
  match r with
  | Ok (count, vs) => size vs ≤ maxAssigns ∧ size vs ≤ count ≤ room ∧ Forall (assignable in0) vs
  | Throw e => lpc_exn e = true
  | _ => False
  end.

Section Bounds.
Context {P : Pcre} {PL : PcreLaws} (in0 : bytes) (maxAssigns : Z).

Record fine (count : Z) (vs : list value) : Prop := {
  fine_max : size vs ≤ maxAssigns;
  fine_count : size vs ≤ count;
  fine_values : Forall (assignable in0) vs }.

Lemma fine_snoc count vs v : fine count vs → size vs < maxAssigns → assignable in0 v → fine (count + 1) (vs ++ [v]).
Proof.
  intros [Hm Hc Hv] Hlt Ha. split; rewrite ?size_app, ?size_cons, ?size_nil; [lia|lia|].
  by apply Forall_app; split; [|constructor].
Qed.

Lemma fine_more count vs : fine count vs → fine (count + 1) vs.
Proof. intros [Hm Hc Hv]. split; [done|lia|done]. Qed.

Lemma assign_then {B} skip count vs v (k : list value → result B) (R : result B → Prop) :
  fine count vs → assignable in0 v → (∀ vs', fine (count + 1) vs' → R (k vs')) →
  (∀ e, lpc_exn e = true → R (Throw e)) → R (let* vs' := assign maxAssigns skip vs v in k vs').
Proof.
  intros Hf Ha Hk He. unfold assign. destruct skip; [apply Hk; by apply fine_more|].
  destruct (Z.leb_spec maxAssigns (size vs)); [by apply He|]. apply Hk. by apply fine_snoc.
Qed.

Lemma assign_part_then {B} skip count vs pos n (k : list value → result B) (R : result B → Prop) :
  fine count vs → 0 ≤ pos ≤ size in0 → (∀ vs', fine (count + 1) vs' → R (k vs')) →
  (∀ e, lpc_exn e = true → R (Throw e)) → R (let* vs' := assign_part in0 maxAssigns skip vs pos n in k vs').
Proof.
  intros Hf Hpos Hk He. unfold assign_part. destruct skip; [apply Hk; by apply fine_more|].
  destruct (Z.leb_spec maxAssigns (size vs)); [by apply He|]. unfold substr.
  rewrite (proj2 (Z.ltb_ge _ _)) by lia. cbn [rbind]. apply Hk. apply fine_snoc; [done|done|].
  unfold assignable. simpl. unfold takez, dropz, size. repeat case_match; rewrite ?length_take, ?length_drop; simpl; lia.
Qed.

Lemma size_dropz {A} i (s : list A) : 0 ≤ i ≤ size s → size (dropz i s) = size s - i.
Proof. intros Hi. unfold dropz, size in *. case_match; rewrite ?length_drop; simpl; prop_tests; lia. Qed.

Lemma regex_then {B} s (k : bytes * bytes → result B) (R : result B → Prop) :
  (∀ p r, r `suffix_of` s → R (k (p, r))) → (∀ e, lpc_exn e = true → R (Throw e)) → R (let* pr := regex_of s in k pr).
Proof.
  intros Hk He. unfold regex_of. destruct (parseSscanfRegex 1 s) as [[p r]|] eqn:E; [|by apply He].
  apply Hk. by eapply parseSscanfRegex_suffix.
Qed.

Lemma within ip k : 0 ≤ ip ≤ size in0 → (k ≤ length (dropz ip in0))%nat → 0 ≤ ip + Z.of_nat k ≤ size in0.
Proof. intros Hip Hk. pose proof (size_dropz ip in0 Hip) as E. unfold size in *. lia. Qed.

Lemma pcre_then {B} p ip b (k : option (Z * Z) → result B) (R : result B → Prop) : 0 ≤ ip ≤ size in0 →
  R (k None) → (∀ first last, 0 ≤ first ≤ size in0 → 0 ≤ last ≤ size in0 → R (k (Some (first, last)))) →
  (∀ e, lpc_exn e = true → R (Throw e)) → R (let* m := sscanfRegexMatch p in0 ip b in k m).
Proof.
  intros Hip Hn Hs He. pose proof (pcre_bounds p in0 ip b Hip) as H.
  destruct (sscanfRegexMatch p in0 ip b) as [[[first last]|]|e| |]; [|done| |done|done].
  - apply Hs; apply H.
  - by destruct e; try done; apply He.
Qed.

Definition position_ok (r : result Z) : Prop :=
  match r with Ok b => 0 ≤ b ≤ size in0 | Throw e => lpc_exn e = true | _ => False end.

Lemma adjacent_bounds fmt ip : 0 ≤ ip ≤ size in0 → position_ok (adjacentSscanfBoundary fmt in0 ip).
Proof.
  intros Hip. unfold adjacentSscanfBoundary. set (f := match drop 1 fmt with [] => _ | _ => _ end).
  repeat match goal with |- position_ok (if ?b then _ else _) => destruct b end;
    try (by apply within; auto using skip_to_bounds, hex_boundary_bounds, float_boundary_bounds); try done.
  apply (regex_then _ _ position_ok); [|done].
  intros p r _. apply (pcre_then _ _ _ _ position_ok);
    try done; simpl; lia.
Qed.

Lemma conversion_bounds spec ip v k : 0 ≤ ip ≤ size in0 → conversion in0 spec ip = Some (v, k) →
  0 ≤ ip + k ≤ size in0 ∧ assignable in0 v.
Proof.
  intros Hip. pose proof (size_dropz ip in0 Hip) as E. unfold conversion. case_match.
  - destruct (strtod _) as [[d n]|] eqn:Hd; [|done]. intros. simplify_eq/=. apply strtod_bounds in Hd. split; [lia|done].
  - destruct (strtoll _ _) as [[z n]|] eqn:Hz; [|done]. intros. simplify_eq/=.
    apply strtoll_bounds in Hz as [??]; [split; [lia|done]|]. unfold base_of. repeat case_match; lia.
Qed.

Lemma find_text_within delim ip k : 0 ≤ ip ≤ size in0 → find_text delim (dropz ip in0) = Some k →
  0 ≤ ip + k + size delim ≤ size in0.
Proof.
  intros Hip Hk. apply find_text_bounds in Hk as [??]. rewrite size_dropz in * by done. pose proof (size_nonneg delim). lia.
Qed.

Lemma suffix_size {A} (r s : list A) : r `suffix_of` s → size r ≤ size s.
Proof. intros [k ->]. rewrite size_app. pose proof (size_nonneg k). lia. Qed.

Lemma sscanf_loop_ok n ip fmt count vs : size fmt < Z.of_nat n → 0 ≤ ip ≤ size in0 → fine count vs →
  outcome_ok in0 maxAssigns (count + size fmt + 1) (sscanf_loop in0 maxAssigns n ip fmt count vs).
Proof.
  revert ip fmt count vs. induction n as [|n IH]; intros ip fmt count vs Hn Hip Hf; [pose proof (size_nonneg fmt); lia|].
  cbn [sscanf_loop].
  assert (∀ room, count ≤ room → outcome_ok in0 maxAssigns room (done_with count vs)) as Hdone.
  { intros room Hr. destruct Hf. simpl. split_and!; try done; lia. }
  destruct (literal fmt (dropz ip in0)) as [[fmt1 k]|] eqn:El; [|apply Hdone; pose proof (size_nonneg fmt); lia].
  apply literal_bounds in El as (Hk & Hs1 & Hc). rewrite size_dropz in Hk by done. apply suffix_size in Hs1.
  assert (0 ≤ ip + k ≤ size in0) as Hip1 by lia. clear Hk.
  destruct fmt1 as [|c1 fmt1].
  { case_match; [|apply Hdone; pose proof (size_nonneg fmt); lia].
    apply (assign_part_then _ count); try done. intros vs' []. simpl. pose proof (size_nonneg fmt). split_and!; try done; lia. }
  destruct Hc as [?|[? [= -> _]]]; [done|]. rewrite size_cons in Hs1.
  assert (∀ ip2 fmt2 vs2, size fmt2 < size fmt → 0 ≤ ip2 ≤ size in0 → fine (count + 1) vs2 →
    outcome_ok in0 maxAssigns (count + size fmt + 1) (sscanf_loop in0 maxAssigns n ip2 fmt2 (count + 1) vs2)) as Hrec.
  { intros ip2 fmt2 vs2 Hs2 Hip2 Hf2. pose proof (IH ip2 fmt2 (count + 1) vs2 ltac:(lia) Hip2 Hf2) as H.
    unfold outcome_ok in *. destruct (sscanf_loop _ _ _ _ _ _ _) as [[c vs3]| | |]; try done.
    destruct H as (? & ? & ?). split_and!; try done; lia. }
  clear IH Hn. set (R := outcome_ok in0 maxAssigns (count + size fmt + 1)) in *.
  destruct fmt1 as [|c fmt2]; [done|]. rewrite size_cons in Hs1.
  destruct (if Ascii.eqb c "*" then (true, fmt2) else (false, c :: fmt2)) as [skip body] eqn:Eb.
  assert (size body ≤ 1 + size fmt2) as Hb.
  { destruct (Ascii.eqb c "*"); injection Eb as <- <-; rewrite ?size_cons; lia. }
  clear Eb. destruct body as [|spec rest]; [done|]. rewrite size_cons in Hb.
  assert (∀ e, lpc_exn e = true → R (Throw e)) as Hthrow by done.
  assert (R (done_with count vs)) as Hstop by (apply Hdone; pose proof (size_nonneg fmt); lia).
  destruct (Ascii.eqb c "%").
  { case_bool_decide as Hp; [|done]. apply Hrec; [lia| |by apply fine_more].
    unfold at_pos in Hp. assert (dropz (ip + k) in0 ≠ []) as Hne by (intros E; by rewrite E in Hp).
    pose proof (size_dropz (ip + k) in0 Hip1). destruct (dropz (ip + k) in0); [done|]. rewrite size_cons in *.
    pose proof (size_nonneg l). lia. }
  destruct (is_number spec || Ascii.eqb spec "f").
  { destruct (conversion in0 spec (ip + k)) as [[v j]|] eqn:Ec; [|done]. apply conversion_bounds in Ec as [Hj Hv]; [|done].
    apply (assign_then skip count vs v _ R Hf Hv); [|done]. intros vs' Hf'. apply Hrec; [lia|lia|done]. }
  destruct (Ascii.eqb spec "(").
  { apply (regex_then _ _ R); [|done]. intros p r Hr. apply suffix_size in Hr. apply (pcre_then _ _ _ _ R); try done.
    intros first last Hfirst Hlast. apply (assign_part_then skip count vs _ _ _ R Hf Hfirst); [|done].
    intros vs' Hf'. apply Hrec; [lia|lia|done]. }
  destruct (negb (Ascii.eqb spec "s")); [done|].
  destruct rest as [|d rest].
  { apply (assign_part_then skip count vs _ _ _ R Hf Hip1); [|done]. intros vs' []. simpl.
    pose proof (size_nonneg fmt). split_and!; try done; lia. }
  destruct (Ascii.eqb d "%").
  - pose proof (adjacent_bounds (d :: rest) (ip + k) Hip1) as Ha.
    destruct (adjacentSscanfBoundary _ _ _) as [b|e| |]; try done. cbn [rbind position_ok] in Ha |- *.
    apply (assign_part_then skip count vs _ _ _ R Hf Hip1); [|done]. intros vs' Hf'. apply Hrec; [lia|lia|done].
  - destruct (span no_percent (d :: rest)) as [delim r] eqn:Es. apply span_suffix_eq, suffix_size in Es.
    destruct (find_text _ _) as [j|] eqn:Ef; [|done]. pose proof (find_text_within _ _ _ Hip1 Ef).
    apply (assign_part_then skip count vs _ _ _ R Hf Hip1); [|done]. intros vs' Hf'. apply Hrec; [lia|lia|done].
Qed.
End Bounds.

(** C36: Whatever the input, the format and the regular expressions, [sscanf]
    ends; it assigns to no more variables than it is given and to no more than
    it counts as matched; an integer has 64 bits and a string is no longer
    than the input (every part taken lies inside of it); an error is an LPC
    error or names an unknown specifier. *)
Theorem sscanf_bounds `{PL : PcreLaws} in0 fmt maxAssigns : 0 ≤ maxAssigns →
  outcome_ok in0 maxAssigns (size fmt + 1) (runSscanf in0 fmt maxAssigns).
Proof.
  intros Hm. unfold runSscanf. replace (size fmt + 1) with (0 + size fmt + 1) by lia. apply (sscanf_loop_ok in0 maxAssigns (S (length fmt)) 0 fmt 0 []).
  - unfold size. lia.
  - pose proof (size_nonneg in0). lia.
  - by split.
Qed.

Lemma no_regex_laws : @PcreLaws no_regex.
Proof. by intros ?????. Qed.

Lemma sscanf_bounds_witness :
  outcome_ok $"7 days" 1 (size $"%d day" + 1) (@runSscanf no_regex $"7 days" $"%d day" 1) ∧
  @runSscanf no_regex $"7 days" $"%d day" 1 = Ok (1, [mk (VInt 7)]).
Proof.
  split; [|vm_compute; reflexivity].
  exact (@sscanf_bounds no_regex no_regex_laws $"7 days" $"%d day" 1 ltac:(lia)).
Defined.

(** ** Reading back a text that a format describes *)

Inductive piece :=
  | Text (t : bytes)           (** literal text *)
  | Number (z : Z)             (** [%d] *)
  | Word (w : bytes).          (** [%s] *)

Definition format_of (p : piece) : bytes :=
  match p with Text t => t | Number _ => $"%d" | Word _ => $"%s" end.
Definition text_of (p : piece) : bytes :=
  match p with Text t => t | Number z => to_string z | Word w => w end.
Definition value_of (p : piece) : list value :=
  match p with Text _ => [] | Number z => [mk (VInt z)] | Word w => [mk (VStr w)] end.

Definition format (ps : list piece) : bytes := concat (map format_of ps).
Definition render (ps : list piece) : bytes := concat (map text_of ps).
Definition values (ps : list piece) : list value := concat (map value_of ps).

(** A word ends where the text after it begins for the first time, or at the
    end; no digit follows a number; texts have no [%] and are not adjacent. *)
Definition piece_ok (p : piece) (ps : list piece) : Prop :=
  match p with
  | Text t => t ≠ [] ∧ forallb no_percent t = true ∧ match ps with Text _ :: _ => False | _ => True end
  | Number z => in_i64 z = true ∧ match render ps with c :: _ => is_digit c = false | [] => True end
  | Word w =>
      match ps with
      | [] => True
      | Text t :: _ => find_text t (w ++ render ps) = Some (size w)
      | _ => False
      end
  end.

Fixpoint pieces_ok (ps : list piece) : Prop :=
  match ps with [] => True | p :: ps => piece_ok p ps ∧ pieces_ok ps end.

Lemma in_base_digit c : in_base 10 c = is_digit c.
Proof.
  unfold in_base, digit_of. destruct (is_digit c) eqn:E; unfold is_digit in E.
  - rewrite andb_true_iff, !Z.leb_le in E. apply Z.ltb_lt. lia.
  - apply Z.ltb_ge. repeat case_match; rewrite ?andb_true_iff, ?Z.leb_le in *; lia.
Qed.

Lemma span_ext p q s : (∀ c, p c = q c) → span p s = span q s.
Proof. intros H. induction s as [|c s IH]; simpl; [done|]. by rewrite H, IH. Qed.

Lemma value_in_digits ds : forallb is_digit ds = true → value_in 10 ds = digits_val ds.
Proof.
  unfold value_in, digits_val. generalize 0 as k. induction ds as [|c ds IH]; intros k H; [done|].
  cbn [forallb] in H. prop_tests. cbn [fold_left foldl]. rewrite IH by done. f_equal. unfold digit_of.
  rewrite H. lia.
Qed.

Lemma strtoll_to_string z post : in_i64 z = true →
  match post with c :: _ => is_digit c = false | [] => True end →
  strtoll 10 (to_string z ++ post) = Some (z, size (to_string z)).
Proof.
  intros Hz Hp. unfold strtoll, to_string, consumed. unfold in_i64 in Hz. prop_tests.
  assert (∀ d, 0 ≤ d → ∃ c r, dec d = c :: r ∧ is_digit c = true ∧ span (in_base 10) (dec d ++ post) = (dec d, post) ∧
    value_in 10 (dec d) = d) as Hdec.
  { intros d Hd. destruct (dec_spec d Hd) as (H1 & H2 & _), (dec_cons d Hd) as (c & r & Hc & Hcd).
    exists c, r. split_and!; [done|done| |by rewrite value_in_digits].
    rewrite (span_ext _ is_digit) by apply in_base_digit. apply span_app; [done|]. intros c' r' ->. done. }
  destruct (z <? 0) eqn:E; prop_tests.
  - destruct (Hdec (- z) ltac:(lia)) as (c & r & Hc & Hcd & Hs & Hv). simpl. rewrite Hs, Hc, <- Hc, Hv.
    rewrite !size_cons, size_app. f_equal. f_equal; lia.
  - destruct (Hdec z ltac:(lia)) as (c & r & Hc & Hcd & Hs & Hv).
    assert (snd (span is_space (dec z ++ post)) = dec z ++ post) as ->.
    { rewrite Hc. simpl. by rewrite is_digit_not_space. }
    assert (read_sign (dec z ++ post) = (false, dec z ++ post)) as ->.
    { rewrite Hc. simpl. by rewrite !is_digit_neq. }
    change (10 =? 16) with false. cbv iota beta. rewrite Hs, Hc, <- Hc, Hv, size_app. f_equal. f_equal; lia.
Qed.

Lemma literal_reads t f s : forallb no_percent t = true → match f with c :: _ => c = "%"%char | [] => True end →
  literal (t ++ f) (t ++ s) = Some (f, size t).
Proof.
  intros Ht Hf. induction t as [|c t IH]; cbn [app literal].
  - destruct f as [|c f]; simpl; [done|]. by subst.
  - cbn [forallb] in Ht. prop_tests. unfold no_percent in *. assert (Ascii.eqb c "%" = false) as -> by by destruct (Ascii.eqb c "%").
    rewrite Ascii.eqb_refl, IH by done. simpl. rewrite size_cons. f_equal. f_equal. lia.
Qed.

Section ReadsBack.
Context {P : Pcre} (in0 : bytes) (maxAssigns : Z) (Hfits : fits in0).

(** A text is behind us. *)
Definition no_text (ps : list piece) : Prop := match ps with Text _ :: _ => False | _ => True end.

Lemma format_percent ps : no_text ps → match format ps with c :: _ => c = "%"%char | [] => True end.
Proof. by destruct ps as [|[]]. Qed.

Lemma at_suffix pre s : in0 = pre ++ s → dropz (size pre) in0 = s.
Proof. intros ->. apply dropz_app. Qed.

Lemma assign_number vs z : size vs < maxAssigns → assign maxAssigns false vs (mk (VInt z)) = Ok (vs ++ [mk (VInt z)]).
Proof. intros H. unfold assign. by rewrite (proj2 (Z.leb_gt _ _)). Qed.

Lemma assign_word vs pre w post n : in0 = pre ++ w ++ post → size vs < maxAssigns →
  n = size w ∨ (n = npos ∧ post = []) →
  assign_part in0 maxAssigns false vs (size pre) n = Ok (vs ++ [mk (VStr w)]).
Proof.
  intros Hin H Hn. unfold assign_part. rewrite (proj2 (Z.leb_gt _ _)) by done.
  unfold substr. pose proof Hfits as Hf. unfold fits in Hf. rewrite Hin, !size_app in Hf.
  pose proof (size_nonneg pre). pose proof (size_nonneg w). pose proof (size_nonneg post).
  rewrite (at_suffix pre _ Hin), (proj2 (Z.ltb_ge _ _)) by (rewrite Hin, size_app; rewrite size_app; lia).
  destruct Hn as [->|[-> ->]]; cbn [rbind].
  - rewrite u64_small by (split; [lia|]; lia). by rewrite takez_app.
  - rewrite app_nil_r. unfold takez. rewrite (proj2 (Z.leb_le _ _)); [done|]. rewrite size_nil in *.
    change (u64 npos) with (2 ^ 64 - 1). lia.
Qed.

(** One turn of the loop reads a text and a specifier. *)
Lemma loop_end n t pre count vs : forallb no_percent t = true → in0 = pre ++ t →
  sscanf_loop in0 maxAssigns (S n) (size pre) t count vs = Ok (count, vs).
Proof.
  intros Ht Hin. cbn [sscanf_loop]. rewrite (at_suffix pre t Hin).
  pose proof (literal_reads t [] [] Ht I) as E. rewrite !app_nil_r in E. rewrite E.
  rewrite (proj2 (Z.ltb_ge _ _)); [done|]. rewrite Hin, size_app. lia.
Qed.

Lemma loop_number n t z ps pre count vs : forallb no_percent t = true → piece_ok (Number z) ps →
  in0 = pre ++ t ++ to_string z ++ render ps → size vs < maxAssigns →
  sscanf_loop in0 maxAssigns (S n) (size pre) (t ++ $"%d" ++ format ps) count vs =
  sscanf_loop in0 maxAssigns n (size (pre ++ t ++ to_string z)) (format ps) (count + 1) (vs ++ [mk (VInt z)]).
Proof.
  intros Ht [Hz Hp] Hin Hm. cbn [sscanf_loop]. rewrite (at_suffix pre _ Hin).
  rewrite (literal_reads t ($"%d" ++ format ps)) by done.
  cbn -[sscanf_loop conversion assign]. unfold conversion. cbn -[sscanf_loop assign strtoll].
  rewrite <- (size_app pre t), (at_suffix (pre ++ t) (to_string z ++ render ps)) by by rewrite <- app_assoc.
  rewrite strtoll_to_string by done. cbn -[sscanf_loop assign]. rewrite assign_number by done.
  cbn [rbind]. by rewrite <- size_app, <- app_assoc.
Qed.

Lemma loop_word n t w ps pre count vs : forallb no_percent t = true → piece_ok (Word w) ps →
  in0 = pre ++ t ++ w ++ render ps → size vs < maxAssigns → pieces_ok ps →
  sscanf_loop in0 maxAssigns (S n) (size pre) (t ++ $"%s" ++ format ps) count vs =
  match ps with
  | Text u :: ps => sscanf_loop in0 maxAssigns n (size (pre ++ t ++ w ++ u)) (format ps) (count + 1) (vs ++ [mk (VStr w)])
  | _ => Ok (count + 1, vs ++ [mk (VStr w)])
  end.
Proof.
  intros Ht Hw Hin Hm Hps. cbn [sscanf_loop]. rewrite (at_suffix pre _ Hin).
  rewrite (literal_reads t ($"%s" ++ format ps)) by done.
  cbn -[sscanf_loop assign_part adjacentSscanfBoundary span find_text]. rewrite <- (size_app pre t).
  assert (in0 = (pre ++ t) ++ w ++ render ps) as Hin' by by rewrite <- app_assoc.
  destruct ps as [|[u| |] ps]; try done.
  - simpl format. cbv iota. rewrite (assign_word vs (pre ++ t) w (render []) npos Hin' Hm) by by right. done.
  - destruct Hps as [(Hu & Hup & Hnt) _]. simpl in Hw. destruct u as [|c u]; [done|]. cbn [forallb] in Hup. prop_tests.
    change (format (Text (c :: u) :: ps)) with ((c :: u) ++ format ps). cbn [app].
    assert (Ascii.eqb c "%" = false) as -> by (unfold no_percent in *; by destruct (Ascii.eqb c "%")).
    rewrite app_comm_cons, span_app; [|by simpl; rewrite H, H0|].
    2:{ intros d r Hd. pose proof (format_percent ps Hnt) as Hf. rewrite Hd in Hf. by rewrite Hf. }
    rewrite (at_suffix _ _ Hin'). change (render (Text (c :: u) :: ps)) with ((c :: u) ++ render ps) in *. rewrite Hw.
    rewrite (assign_word vs (pre ++ t) w ((c :: u) ++ render ps) (size w) Hin' Hm) by by left. cbn [rbind].
    f_equal. rewrite !size_app. lia.
Qed.

Lemma loop_reads_back ps : ∀ n t pre count vs, no_text ps → forallb no_percent t = true → pieces_ok ps →
  in0 = pre ++ t ++ render ps → (length ps < n)%nat → size vs + size (values ps) ≤ maxAssigns →
  sscanf_loop in0 maxAssigns n (size pre) (t ++ format ps) count vs = Ok (count + size (values ps), vs ++ values ps).
Proof.
  induction ps as [[|p ps] IH] using length_ind; intros n t pre count vs Hnt Ht Hps Hin Hn Hm; destruct n as [|n]; [lia| |lia|].
  { unfold format, render, values in *. cbn [map concat] in *. rewrite !app_nil_r in *. rewrite loop_end by done.
    by rewrite size_nil, Z.add_0_r. }
  destruct Hps as [Hp Hps]. cbn [length] in *.
  assert (∀ n pre count vs, in0 = pre ++ render ps → (length ps < n)%nat → size vs + size (values ps) ≤ maxAssigns →
    sscanf_loop in0 maxAssigns n (size pre) (format ps) count vs = Ok (count + size (values ps), vs ++ values ps)) as Hrest.
  { intros n' pre' count' vs' Hin' Hn' Hm'. pose proof (IH ps ltac:(simpl; lia) n' [] pre' count' vs') as IHps.
    destruct ps as [|[u| |] ps]; try by apply IHps.
    destruct Hps as [(Hu & Hup & Hnt') Hps]. apply (IH ps ltac:(simpl; lia) n' u); try done; cbn [length] in *; lia. }
  assert (∀ q, p = q → size (values (p :: ps)) = size (value_of q) + size (values ps)) as Hsize
    by (intros q ->; unfold values; cbn [map concat]; by rewrite size_app).
  destruct p as [u|z|w]; [done| |].
  - change (format (Number z :: ps)) with ($"%d" ++ format ps). change (render (Number z :: ps)) with (to_string z ++ render ps) in Hin.
    rewrite (Hsize _ eq_refl) in Hm |- *. cbn [value_of] in *. rewrite size_cons, size_nil in *. pose proof (size_nonneg (values ps)).
    rewrite (loop_number n t z ps) by (done || lia). rewrite Hrest; [|by rewrite <- !app_assoc|lia|rewrite size_app, size_cons, size_nil; lia].
    f_equal. f_equal; [lia|]. by rewrite <- app_assoc.
  - change (format (Word w :: ps)) with ($"%s" ++ format ps). change (render (Word w :: ps)) with (w ++ render ps) in Hin.
    rewrite (Hsize _ eq_refl) in Hm |- *. cbn [value_of] in *. rewrite size_cons, size_nil in *. pose proof (size_nonneg (values ps)).
    rewrite (loop_word n t w ps) by (done || lia). destruct ps as [|[u| |] ps]; try done.
    destruct Hps as [(Hu & Hup & Hnt') Hps]. cbn [length] in *.
    change (render (Text u :: ps)) with (u ++ render ps) in Hin. change (values (Text u :: ps)) with (values ps) in *.
    rewrite (IH ps ltac:(simpl; lia) n [] (pre ++ t ++ w ++ u)) by (done || (by rewrite <- !app_assoc) || lia ||
      (rewrite size_app, size_cons, size_nil; lia)).
    f_equal. f_equal; [lia|]. by rewrite <- app_assoc.
Qed.
End ReadsBack.

(** C37: [sscanf] reads back what was printed: from the text that literal
    texts, numbers and words make it gets, with the format of the same texts
    with [%d] and [%s], those numbers and words, in order, and counts each of
    them, provided the text tells where each word and each number ends
    ([pieces_ok]): a word ends where the text that follows it begins for the
    first time, no digit follows a number, no two texts are adjacent. *)
Theorem sscanf_reads_back `{Pcre} ps maxAssigns : pieces_ok ps → fits (render ps) → size (values ps) ≤ maxAssigns →
  runSscanf (render ps) (format ps) maxAssigns = Ok (size (values ps), values ps).
Proof.
  intros Hps Hf Hm. unfold runSscanf.
  assert (length ps < S (length (format ps)))%nat as Hlen.
  { clear Hf Hm. induction ps as [|p ps IH]; [simpl; lia|]. destruct Hps as [Hp Hps]. specialize (IH Hps).
    unfold format in *. cbn [map concat length]. rewrite length_app. destruct p as [[|c t]| |]; cbn [format_of length piece_ok] in *;
      [by destruct Hp| |simpl; lia|simpl; lia]. lia. }
  destruct ps as [|[t| |] ps]; try (by apply (loop_reads_back (render _) maxAssigns Hf _ _ [] [] 0 [])).
  destruct Hps as [(Ht & Htp & Hnt) Hps].
  by apply (loop_reads_back (render (Text t :: ps)) maxAssigns Hf ps _ t [] 0 []); try done; cbn [length] in *; lia.
Qed.

Lemma sscanf_reads_back_witness :
  @runSscanf no_regex $"Bob is -42 years, he says" $"%s is %d years, %s" 3 =
  Ok (3, [mk (VStr $"Bob"); mk (VInt (-42)); mk (VStr $"he says")]).
Proof.
  exact (@sscanf_reads_back no_regex [Word $"Bob"; Text $" is "; Number (-42); Text $" years, "; Word $"he says"] 3
    ltac:(repeat split; try discriminate; reflexivity) ltac:(reflexivity) ltac:(done)).
Defined.
