(* ===== verification/Machine.v ===== *)
(** * Machine: the interpreter of bytecode

    Models [VM::run] of [src/vm/VM.cpp] and the calls into it: the call stacks
    and their guards, function lookup with its cache, one definition for each
    group of instructions, [catch], the evaluation limit, closures and deferred
    calls.

    An exception that the interpreter raises when its own code is wrong
    (operands missing on the stack, indices, counts, targets) goes through
    [fault], which is the identity in the program: [MachineChecks] shows that
    none is raised.  The built-in functions, PCRE2, the clock and the size of
    memory are an interface.
    The messages about caught errors on [stderr] are left out. *)

From S2P Require Import Prelude Doubles Values Config Uids Objects ObjectManager Bytecode Operators Sscanf.
Open Scope Z_scope.

(** ** The state of the machine *)

Inductive Origin :=
  | ODriver | OLocal | OCallOther | OSimulEfun | OInternal | OEfun | OFunctionPointer | OFunctional.

Definition originName (o : Origin) : bytes :=
  match o with
  | ODriver => $"driver" | OLocal => $"local" | OCallOther => $"call_other" | OSimulEfun => $"simul"
  | OInternal => $"internal" | OEfun => $"efun" | OFunctionPointer => $"function pointer"
  | OFunctional => $"functional"
  end.

Record DeferEntry := mkDefer { deferred : option addr; giver : option addr }.

(** A [replace_program] that waits for the end of the tick. *)
Record PendingReplaceProgram := mkPending {
  pending_ob : option addr;
  pending_newProgram : option addr;
  pending_offset : Z;
  pending_name : bytes;
}.

Definition kNumDriverHooks : Z := 32.

(** The last element of a vector that is used as a stack is the head. *)
Record vm := mkVM {
  world_ : world;                                   (** [objects_], [config_], the heap *)
  codes : gmap addr CompiledProgram;                (** the code of the programs of [world_] *)
  functionChainCache_ : gmap (addr * bytes) (option (addr * FunctionEntry));
  evalCost_ : Z;
  maxEvalCost_ : Z;
  callStack_ : list addr;
  functionNameStack_ : list bytes;
  objectChangeStack_ : list (option addr);
  commandGiverStack_ : list (option addr);
  timeExpressionStack_ : list Z;
  deferStack_ : list (list DeferEntry);
  originStack_ : list Origin;
  verbStack_ : list bytes;
  driverHooks_ : list value;
  pendingReplacePrograms_ : list PendingReplaceProgram;
  readings : nat;                                   (** of the clock, so far *)
}.

#[export] Instance eta_vm : Eta vm := λ s,
  mkVM (world_ s) (codes s) (functionChainCache_ s) (evalCost_ s) (maxEvalCost_ s) (callStack_ s)
    (functionNameStack_ s) (objectChangeStack_ s) (commandGiverStack_ s) (timeExpressionStack_ s)
    (deferStack_ s) (originStack_ s) (verbStack_ s) (driverHooks_ s) (pendingReplacePrograms_ s) (readings s).

(** The opcodes in the order of their declaration, for error messages. *)
Definition opcodes : list OpCode :=
  [PushConst; PushInt; PushFloat; PushNil; PushSymbol; PushLocal; StoreLocal; PushObjectVar; StoreObjectVar;
   OpAdd; OpSub; OpMul; OpDiv; OpMod; OpBitAnd; OpBitOr; OpBitXor; OpShl; OpShr; OpBitNot;
   OpEq; OpNeq; OpLt; OpLte; OpGt; OpGte; OpNot; Jump; JumpIfFalse; Call; CallEfun; CallParent;
   CallParentQualifierSlot; PushClosure; PushEfunClosure; CallApply; ExpandVarargs; MakeArray; MakeMapping;
   Index; IndexAssign; RangeIndex; Sscanf; SscanfVarSlot; ForeachKeys; PushCatchFrame; PopCatchFrame;
   TimeExpressionStart; TimeExpressionEnd; Return; Pop; Dup; Halt; Suspend].
Definition opcode_index (o : OpCode) : Z :=
  match list_find (eq o) opcodes with Some (k, _) => Z.of_nat k | None => -1 end.

(** ** Errors *)

(** Exceptions; a thrown LPC value is an [LpcRuntimeError] of its own class. *)
Inductive raised :=
  | LpcError (msg : bytes)
  | LpcThrownValue (v : value)
  | EvalCostError (msg : bytes)
  | NotImplemented (msg : bytes)
  | OtherException (e : exn).

Inductive outcome (A : Type) :=
  | Val (a : A)
  | Raise (e : raised)
  | Undef
  | NoFuel.
Arguments Val {A} a.
Arguments Raise {A} e.
Arguments Undef {A}.
Arguments NoFuel {A}.

Definition T (S A : Type) : Type := S → outcome A * S.

Definition vret {S A} (a : A) : T S A := λ s, (Val a, s).
Definition vbind {S A B} (m : T S A) (k : A → T S B) : T S B := λ s,
  match m s with
  | (Val a, s) => k a s
  | (Raise e, s) => (Raise e, s)
  | (Undef, s) => (Undef, s)
  | (NoFuel, s) => (NoFuel, s)
  end.
Definition raise {S A} (e : raised) : T S A := λ s, (Raise e, s).
Definition give {S A} (r : outcome A) : T S A := λ s, (r, s).
Definition reads {S A} (f : S → A) : T S A := λ s, (Val (f s), s).
Definition changes {S} (f : S → S) : T S unit := λ s, (Val tt, f s).

Notation "'let!' p := m 'in' k" := (vbind m (fun p => k))
  (at level 10, p pattern, m at level 100, k at level 200) : kj_scope.

Definition from_result {A} (r : result A) : outcome A :=
  match r with
  | Ok a => Val a
  | Throw (LpcRuntimeError msg) => Raise (LpcError msg)
  | Throw (NotImplementedError msg) => Raise (NotImplemented msg)
  | Throw e => Raise (OtherException e)
  | Undefined => Undef
  | OutOfFuel => NoFuel
  end.

(** An access that the code does not check. *)
Definition found {S A} (o : option A) : T S A := give (match o with Some a => Val a | None => Undef end).

Definition lpc_error {S A} (msg : bytes) : T S A := raise (LpcError msg).

(** A guard object: its destructor runs whatever [m] does. *)
Definition finally {S A} (m : T S A) (destructor : S → S) : T S A := λ s, let '(r, s) := m s in (r, destructor s).

Abbreviation V := (T vm).

Definition on_heap {A} (m : M heap A) : V A := λ s,
  let '(r, h) := m (lpcHeap (world_ s)) in (from_result r, s <| world_ ::= λ w, w <| lpcHeap := h |> |>).

Definition object (a : addr) : V LpcObject := λ s, found (objects (world_ s) !! a) s.
Definition filename_of (s : vm) (a : addr) : result bytes := let* o := deref (objects (world_ s) !! a) in Ok (filename_ o).

Definition code_of (p : addr) : V CompiledProgram := λ s, found (codes s !! p) s.
Definition parents_of (p : addr) : V (list addr) := λ s,
  found (inheritedPrograms <$> programs (world_ s) !! p) s.
Definition inherits_of (p : addr) : V (list bytes) := λ s,
  found (Objects.inherits <$> programs (world_ s) !! p) s.

(** ** Looking functions up *)

Abbreviation lookup_result := (option (addr * FunctionEntry)).

Definition own_function (p : addr) (c : CompiledProgram) (name : bytes) : lookup_result :=
  (λ fn, (p, fn)) <$> find (λ fn, bool_decide (entry_name fn = name)) (prog_functions c).

Fixpoint first_parent (rec : addr → V lookup_result) (parents : list addr) : V lookup_result :=
  match parents with
  | [] => vret None
  | parent :: parents =>
      let! r := rec parent in
      match r with Some _ => vret r | None => first_parent rec parents end
  end.

Definition emplace {K A} `{Countable K} (k : K) (x : A) (m : gmap K A) : gmap K A :=
  match m !! k with Some _ => m | None => <[k := x]> m end.

Fixpoint findFunctionInChain (n : nat) (name : bytes) (p : addr) : V lookup_result :=
  match n with
  | O => give NoFuel
  | S n =>
      let! cache := reads functionChainCache_ in
      match cache !! (p, name) with
      | Some r => vret r
      | None =>
          let! c := code_of p in
          let! r := match own_function p c name with
                    | Some r => vret (Some r)
                    | None => let! parents := parents_of p in
                              first_parent (findFunctionInChain n name) parents
                    end in
          let! _ := changes (λ s, s <| functionChainCache_ ::= emplace (p, name) r |>) in
          vret r
      end
  end.

Definition pathBasename (path : bytes) : bytes :=
  reverse (fst (span (λ c, negb (Ascii.eqb c "/")) (reverse path))).

(** The parent that a qualifier names. *)
Fixpoint qualified_parent (q : bytes) (paths : list bytes) (parents : list addr) : option addr :=
  match paths, parents with
  | path :: paths, parent :: parents =>
      if bool_decide (pathBasename path = q) then Some parent else qualified_parent q paths parents
  | _, _ => None
  end.

Definition findParentFunction (n : nat) (p : addr) (name : bytes) (qualifier : option bytes) : V lookup_result :=
  let! parents := parents_of p in
  match qualifier with
  | None => first_parent (findFunctionInChain n name) parents
  | Some q =>
      let! paths := inherits_of p in
      match qualified_parent q paths parents with
      | Some parent => findFunctionInChain n name parent
      | None => vret None
      end
  end.

(** ** Frames *)

Record frame := mkFrame {
  ip : nat;
  localStack : list value;                 (** the top is the head *)
  locals : list value;
  pendingVarargsDelta : Z;
  catchFrames : list (nat * nat);          (** [resumeIp] and [stackDepth] *)
}.

#[export] Instance eta_frame : Eta frame := λ f,
  mkFrame (ip f) (localStack f) (locals f) (pendingVarargsDelta f) (catchFrames f).

(** What a run of a function works on. *)
Record activation := mkActivation {
  act_program : addr;
  act_code : CompiledProgram;
  act_fn : FunctionEntry;
  act_obj : addr;
  act_base : Z;                            (** [objectVarBase] *)
}.

(** Handlers of instructions change the frame and the machine. *)
Abbreviation St := (T (frame * vm)).

Definition on_vm {A} (m : V A) : St A := λ '(f, s), let '(r, s) := m s in (r, (f, s)).
Definition of_frame {A} (g : frame → A) : St A := reads (λ '(f, _), g f).
Definition set_frame (g : frame → frame) : St unit := changes (λ '(f, s), (g f, s)).

Definition push (v : value) : St unit := set_frame (λ f, f <| localStack ::= cons v |>).
Definition advance (n : nat) : St unit := set_frame (λ f, f <| ip ::= Nat.add n |>).

(** [localStack.back(); localStack.pop_back()] of a stack that is not empty. *)
Definition pop_back : St value := λ '(f, s),
  match localStack f with
  | [] => (Undef, (f, s))
  | v :: st => (Val v, (f <| localStack := st |>, s))
  end.

(** The last [n] values, first pushed first. *)
Definition pop_args (n : Z) : St (list value) := λ '(f, s),
  (Val (reverse (takez n (localStack f))), (f <| localStack ::= dropz n |>, s)).

Definition finish_with (v : value) : St unit := let! _ := push v in advance 1.

Definition void_value : value := mk VVoid.
Definition int_value (i : Z) : value := mk (VInt i).

(** How a built-in function calls back. *)
Abbreviation runner := (addr → FunctionEntry → list value → addr → V value).
Abbreviation applier := (option addr → list value → V value).

(** The built-in functions, PCRE2, the clock, and the number of values that
    there is memory for on a stack. *)
Class Efuns := {
  efun_exists : bytes → bool;
  efun_call : runner → applier → nat → bytes → list value → V value;
  efun_pcre :: Pcre;
  clock_at : nat → Z;
  stack_memory : Z;
}.

Section Machine.
Context {E : Efuns} (fault : raised → raised).

(** A check of the interpreter on its own code. *)
Definition check {S} (b : bool) (msg : bytes) : T S unit := if b then vret tt else raise (fault (LpcError msg)).

Definition need (n : Z) (msg : bytes) : St unit :=
  let! st := of_frame localStack in
  check (n <=? size st) msg.

(** An entry of a pool of constants. *)
Definition constant {A} (pool : list A) (i : Z) (msg : bytes) : St A :=
  let! _ := check ((0 <=? i) && (i <? size pool)) msg in
  found (at_pos pool i).

(** [coerceIfDestructed]. *)
Definition coerceIfDestructed (v : value) : V value :=
  match vdata v with
  | VObj (Some a) => let! o := object a in vret (if destructed_ o then int_value 0 else v)
  | _ => vret v
  end.

(** ** Constants and variables *)

Definition slot_ok (slot : Z) (vars : list value) : bool := (0 <=? slot) && (slot <? size vars).

Definition push_local (i : Instruction) : St unit :=
  let! ls := of_frame locals in
  let! _ := check (slot_ok (operand i) ls) $"PushLocal: bad local slot index" in
  let! v := found (at_pos ls (operand i)) in
  let! v := on_vm (coerceIfDestructed v) in
  let! _ := set_frame (λ f, f <| locals ::= <[Z.to_nat (operand i) := v]> |>) in
  finish_with v.

Definition store_local (i : Instruction) : St unit :=
  let! ls := of_frame locals in
  let! _ := check (slot_ok (operand i) ls) $"StoreLocal: bad local slot index" in
  let! _ := need 1 $"StoreLocal: stack underflow" in
  let! v := pop_back in
  let! _ := set_frame (λ f, f <| locals ::= <[Z.to_nat (operand i) := v]> |>) in
  advance 1.

Definition set_variable (a : addr) (slot : Z) (v : value) : V unit :=
  changes (λ s, s <| world_ ::= upd_obj (λ o, o <| variables_ ::= <[Z.to_nat slot := v]> |>) a |>).

Definition push_object_var (act : activation) (i : Instruction) : St unit :=
  let! o := on_vm (object (act_obj act)) in
  let slot := act_base act + operand i in
  let! _ := check (slot_ok slot (variables_ o)) $"PushObjectVar: bad object variable slot index" in
  let! v := found (at_pos (variables_ o) slot) in
  let! v := on_vm (coerceIfDestructed v) in
  let! _ := on_vm (set_variable (act_obj act) slot v) in
  finish_with v.

Definition store_object_var (act : activation) (i : Instruction) : St unit :=
  let! o := on_vm (object (act_obj act)) in
  let slot := act_base act + operand i in
  let! _ := check (slot_ok slot (variables_ o)) $"StoreObjectVar: bad object variable slot index" in
  let! _ := need 1 $"StoreObjectVar: stack underflow" in
  let! v := pop_back in
  let! _ := on_vm (set_variable (act_obj act) slot v) in
  advance 1.

(** ** Operators *)

Definition underflow (o : OpCode) : bytes :=
  match o with
  | OpEq | OpNeq => $"Eq/Neq: stack underflow"
  | OpLt | OpLte | OpGt | OpGte => $"comparison: stack underflow"
  | OpSub | OpMul | OpDiv | OpMod => $"arithmetic: stack underflow"
  | OpBitAnd => $"BitAnd: stack underflow"
  | OpBitOr => $"BitOr: stack underflow"
  | OpBitXor => $"BitXor: stack underflow"
  | OpShl | OpShr => $"Shl/Shr: stack underflow"
  | _ => $"Add: stack underflow"
  end.

Definition binary (o : OpCode) : St unit :=
  let! _ := need 2 (underflow o) in
  let! rhs := pop_back in
  let! lhs := pop_back in
  let! v := on_vm (λ s, on_heap (binary_operator (filename_of s) o lhs rhs) s) in
  finish_with v.

Definition unary (msg : bytes) (f : value → M heap value) : St unit :=
  let! _ := need 1 msg in
  let! v := pop_back in
  let! v := on_vm (on_heap (f v)) in
  finish_with v.

Definition logical_not (v : value) : M heap value := ret (int_value (if isTruthy v then 0 else 1)).

(** ** Jumps and frames *)

Definition target_ok (act : activation) (t : Z) : bool := (0 <=? t) && (t <=? size (prog_code (act_code act))).

Definition jump_to (t : Z) : St unit := set_frame (λ f, f <| ip := Z.to_nat t |>).

Definition jump (act : activation) (i : Instruction) : St unit :=
  let! _ := check (target_ok act (operand i)) $"Jump: bad target" in
  jump_to (operand i).

Definition jump_if_false (act : activation) (i : Instruction) : St unit :=
  let! _ := need 1 $"JumpIfFalse: stack underflow" in
  let! cond := pop_back in
  if isTruthy cond then advance 1
  else
    let! _ := check (target_ok act (operand i)) $"JumpIfFalse: bad target" in
    jump_to (operand i).

Definition push_catch_frame (act : activation) (i : Instruction) : St unit :=
  let! _ := check (target_ok act (operand i)) $"PushCatchFrame: bad resume target" in
  let! _ := set_frame (λ f, f <| catchFrames ::= cons (Z.to_nat (operand i), length (localStack f)) |>) in
  advance 1.

Definition pop_catch_frame : St unit :=
  let! cfs := of_frame catchFrames in
  let! _ := check (negb (bool_decide (cfs = []))) $"PopCatchFrame: no active catch frame" in
  let! _ := set_frame (λ f, f <| catchFrames ::= tail |>) in
  finish_with (int_value 0).

Definition read_clock : V Z := λ s, (Val (clock_at (readings s)), s <| readings ::= S |>).

Definition time_expression_start : St unit :=
  let! now := on_vm read_clock in
  let! _ := on_vm (changes (λ s, s <| timeExpressionStack_ ::= cons now |>)) in
  advance 1.

Definition time_expression_end : St unit :=
  let! ts := on_vm (reads timeExpressionStack_) in
  let! _ := check (negb (bool_decide (ts = []))) $"TimeExpressionEnd: no active time_expression" in
  let! start := found (head ts) in
  let! _ := on_vm (changes (λ s, s <| timeExpressionStack_ ::= tail |>)) in
  let! now := on_vm read_clock in
  finish_with (int_value (Z.quot (now - start) 1000)).

(** ** Lists *)

(** [argCount + static_cast<int32_t>(pendingVarargsDelta)], and the delta is
    reset. *)
Definition take_count (i : Instruction) : St Z :=
  let! delta := of_frame pendingVarargsDelta in
  let n := argCount i + to_i32 delta in
  if in_i32 n then let! _ := set_frame (λ f, f <| pendingVarargsDelta := 0 |>) in vret n else give Undef.

(** [argc] values off the stack. *)
Definition take_args (argc : Z) (msg : bytes) : St (list value) :=
  let! st := of_frame localStack in
  let! _ := check ((0 <=? argc) && (argc <=? size st)) msg in
  pop_args argc.

Definition expand_varargs (i : Instruction) : St unit :=
  let n := operand i in
  let! st := of_frame localStack in
  let! _ := check ((0 <=? n) && (n <? size st)) $"ExpandVarargs: bad stack offset" in
  let! v := found (at_pos st n) in
  match vdata v with
  | VArr p =>
      let! xs := on_vm (on_heap (items p)) in
      let st' := takez n st ++ reverse xs ++ dropz (n + 1) st in
      if stack_memory <? size st' then raise (OtherException AllocFailure)
      else
        let! _ := set_frame (λ f, f <| localStack := st' |> <| pendingVarargsDelta ::= Z.add (size xs - 1) |>) in
        advance 1
  | _ => lpc_error ($"Item being expanded with " ++ [QUOTE] ++ $"..." ++ [QUOTE] ++ $" is not an array")
  end.

Definition make_array (i : Instruction) : St unit :=
  let! argc := take_count i in
  let! xs := take_args argc $"MakeArray: bad arg count" in
  let! v := on_vm (on_heap (new_array xs)) in
  finish_with (Value (vdata v) false (negb (operand i =? 0))).

(** The entries of a mapping literal, [width] values after each key. *)
Fixpoint mapping_rows (n : nat) (width : nat) (xs : list value) (m : Mapping) : Mapping :=
  match n, xs with
  | S n, key :: xs => mapping_rows n width (drop width xs) (Columns.appendEntry m key (take width xs))
  | _, _ => m
  end.

Definition make_mapping (i : Instruction) : St unit :=
  let! entryCount := take_count i in
  let width := if operand i <? 1 then 1 else operand i in
  let! st := of_frame localStack in
  let! _ := check ((0 <=? entryCount) && ((width + 1) * entryCount <=? size st)) $"MakeMapping: bad arg count" in
  let! xs := pop_args ((width + 1) * entryCount) in
  let! v := on_vm (on_heap (new_mapping
    (mapping_rows (Z.to_nat entryCount) (Z.to_nat width) xs (mkMapping [] width [])))) in
  finish_with v.

(** ** Indexing *)

Definition flag (i : Instruction) (bit : Z) : bool := Z.testbit (argCount i) bit.
Definition has_map_column (i : Instruction) : bool := flag i 2.

Definition sub_int (a b : Z) : outcome Z := if in_i64 (a - b) then Val (a - b) else Undef.

(** [size - i] for an index from the end. *)
Definition from_end {S} (fromEnd : bool) (len i : Z) : T S Z :=
  give (if fromEnd then sub_int len i else Val i).

Definition int_index {S} (v : value) (msg : bytes) : T S Z :=
  match vdata v with VInt i => vret i | _ => lpc_error msg end.

Definition set_item (a : addr) (i : Z) (v : value) : M heap unit :=
  modify (set_arrays (alter (λ xs, <[Z.to_nat i := v]> xs) a)).

Definition index_array (what : bytes) (p : option addr) (index : value) (fromEnd : bool) : V (addr * Z * value) :=
  match p with
  | None => lpc_error (what ++ $": target array is null")
  | Some a =>
      let! i := int_index index (what ++ $": array index must be an integer") in
      let! xs := on_heap (items p) in
      let! i := from_end fromEnd (size xs) i in
      match at_pos xs i, (0 <=? i) && (i <? size xs) with
      | Some v, true => vret (a, i, v)
      | _, _ => lpc_error (what ++ $": array index out of bounds")
      end
  end.

(** The column that an index names; the first one without. *)
Definition map_column {S} (m : Mapping) (column : option value) : T S Z :=
  match column with
  | None => vret 0
  | Some v =>
      let! c := int_index v $"Illegal sub-index type, expected number." in
      let col := to_i32 c in
      if (col <? 0) || (width m <=? col)
      then lpc_error ($"Illegal sub-index " ++ to_string col ++ $", mapping width is " ++
                      to_string (width m) ++ $".")
      else vret col
  end.

Definition index_mapping (p : option addr) (key : value) (column : option value) : V value :=
  match p with
  | None => lpc_error $"Index: target mapping is null"
  | Some a =>
      let! m := on_heap (λ h, (deref (mappings h !! a), h)) in
      let! col := map_column m column in
      match key_index key (entries m), column with
      | Some i, _ => let! v := give (from_result (Columns.getColumn m i col)) in coerceIfDestructed v
      | None, Some _ => vret (int_value 0)
      | None, None => vret void_value
      end
  end.

(** The terminating zero of a string can be read. *)
Definition index_string (str : bytes) (index : value) (fromEnd : bool) : V value :=
  let! i := int_index index $"Index: string index must be an integer" in
  let! i := from_end fromEnd (size str) i in
  if (i <? 0) || (size str <? i) then lpc_error $"Index: string index out of bounds"
  else vret (int_value (code (default NUL (at_pos str i)))).

Definition index_value (target index : value) (column : option value) (fromEnd : bool) : V value :=
  match vdata target with
  | VArr p =>
      let! (a, i, v) := index_array $"Index" p index fromEnd in
      let! v := coerceIfDestructed v in
      let! _ := on_heap (set_item a i v) in
      vret v
  | VMap p => index_mapping p index column
  | VStr str => index_string str index fromEnd
  | _ => lpc_error $"Index: target is not an array, mapping, or string"
  end.

Definition pop_column (i : Instruction) : St (option value) :=
  if has_map_column i then let! v := pop_back in vret (Some v) else vret None.

Definition index (i : Instruction) : St unit :=
  let! _ := need (if has_map_column i then 3 else 2) $"Index: stack underflow" in
  let! column := pop_column i in
  let! indexVal := pop_back in
  let! target := pop_back in
  let! v := on_vm (index_value target indexVal column (flag i 0)) in
  finish_with v.

Definition assign_mapping (p : option addr) (key : value) (column : option value) (v : value) : V unit :=
  match p with
  | None => lpc_error $"IndexAssign: target mapping is null"
  | Some a =>
      let! m := on_heap (λ h, (deref (mappings h !! a), h)) in
      let! col := map_column m column in
      let! m' := match key_index key (entries m) with
                 | Some i => give (from_result (Columns.setColumn m i col v))
                 | None =>
                     if col <? width m
                     then vret (Columns.appendEntry m key
                                  (<[Z.to_nat col := v]> (replicate (Z.to_nat (width m)) (int_value 0))))
                     else give Undef
                 end in
      on_heap (modify (set_mappings (insert a m')))
  end.

Definition assign_index (target index : value) (column : option value) (v : value) : V unit :=
  match vdata target with
  | VArr p =>
      let! (a, i, _) := index_array $"IndexAssign" p index false in
      on_heap (set_item a i v)
  | VMap p => assign_mapping p index column v
  | _ => lpc_error $"IndexAssign: target is not an array or mapping"
  end.

Definition index_assign (i : Instruction) : St unit :=
  let! _ := need (if has_map_column i then 4 else 3) $"IndexAssign: stack underflow" in
  let! v := pop_back in
  let! column := pop_column i in
  let! indexVal := pop_back in
  let! target := pop_back in
  let! _ := on_vm (assign_index target indexVal column v) in
  advance 1.

(** [resolveBounds], and the last position clamped to the length. *)
Definition range_bounds {S} (i : Instruction) (rawStart rawEnd len : Z) : T S (Z * Z) :=
  let! start := from_end (flag i 0) len rawStart in
  let! stop := from_end (flag i 1) len rawEnd in
  vret (Z.max 0 start, Z.min stop (len - 1)).

Definition slice {A} (l : list A) (start stop : Z) : list A := takez (stop - start + 1) (dropz start l).

Definition range_value (i : Instruction) (target startVal endVal : value) : V value :=
  let! rawStart := int_index startVal $"RangeIndex: start index must be an integer" in
  let! rawEnd := int_index endVal $"RangeIndex: end index must be an integer" in
  if negb (flag i 0) && (rawStart <? 0) then lpc_error $"RangeIndex: start index must be non-negative"
  else
    match vdata target with
    | VStr str =>
        let! (start, stop) := range_bounds i rawStart rawEnd (size str) in
        vret (mk (VStr (slice str start stop)))
    | VArr None => lpc_error $"RangeIndex: target array is null"
    | VArr (Some a) =>
        let! xs := on_heap (items (Some a)) in
        let! (start, stop) := range_bounds i rawStart rawEnd (size xs) in
        on_heap (new_array (slice xs start stop))
    | _ => lpc_error $"RangeIndex: target is not an array or string"
    end.

Definition range_index (i : Instruction) : St unit :=
  let! _ := need 3 $"RangeIndex: stack underflow" in
  let! endVal := pop_back in
  let! startVal := pop_back in
  let! target := pop_back in
  let! v := on_vm (range_value i target startVal endVal) in
  finish_with v.

(** ** Closures *)

Definition push_closure (act : activation) (i : Instruction) (isEfun : bool) : St unit :=
  let what := if isEfun then $"PushEfunClosure" else $"PushClosure" in
  let! name := constant (stringPool (act_code act)) (operand i) (what ++ $": bad function name index") in
  let! args := take_args (argCount i) (what ++ $": bad bound-arg count for " ++ name) in
  let! v := on_vm (on_heap (λ h,
    let '(a, h) := alloc_closure (mkClosure (Some (act_obj act)) name args isEfun false [] void_value) h in
    (Ok (mk (VClo (Some a))), h))) in
  finish_with v.

(** ** Guards *)

Definition with_origin {A} (o : Origin) (m : V A) : V A := λ s,
  finally m (λ s, s <| originStack_ ::= tail |>) (s <| originStack_ ::= cons o |>).

Definition with_command_giver {A} (ob : option addr) (m : V A) : V A := λ s,
  finally m (λ s, s <| commandGiverStack_ ::= tail |>) (s <| commandGiverStack_ ::= cons ob |>).

(** [ObjectFrameGuard]: the object before is remembered when it changes. *)
Definition with_object_frame {A} (obj : addr) (name : bytes) (m : V A) : V A := λ s,
  let changed := negb (bool_decide (head (callStack_ s) = Some obj)) in
  finally m
    (λ s, (if changed then s <| objectChangeStack_ ::= tail |> else s)
            <| callStack_ ::= tail |> <| functionNameStack_ ::= tail |>)
    ((if changed then s <| objectChangeStack_ ::= cons (head (callStack_ s)) |> else s)
       <| callStack_ ::= cons obj |> <| functionNameStack_ ::= cons name |>).

(** Whatever it throws is dropped. *)
Definition swallow (m : V value) : V unit := λ s,
  match m s with
  | (Val _, s) | (Raise _, s) => (Val tt, s)
  | (Undef, s) => (Undef, s)
  | (NoFuel, s) => (NoFuel, s)
  end.

Fixpoint each {S A} (body : A → T S unit) (l : list A) : T S unit :=
  match l with
  | [] => vret tt
  | x :: l => let! _ := body x in each body l
  end.

(** [DeferFrameGuard]: its destructor calls the closures that were registered
    in the frame, the last one first. *)
Definition leave_frame (call : option addr → V value) : V unit := λ s,
  match deferStack_ s with
  | [] => (Undef, s)
  | pending :: rest =>
      each (λ e, swallow (with_command_giver (giver e) (call (deferred e)))) pending (s <| deferStack_ := rest |>)
  end.

Definition with_defer_frame {A} (call : option addr → V value) (m : V A) : V A := λ s,
  match m (s <| deferStack_ ::= cons [] |>) with
  | (Val a, s) => (let! _ := leave_frame call in vret a) s
  | (Raise e, s) => (let! _ := leave_frame call in raise e) s
  | (Undef, s) => (Undef, s)
  | (NoFuel, s) => (NoFuel, s)
  end.

(** ** Calls *)

Section Calls.
(** [run], [callClosure] and [findFunctionInChain], with the fuel that is left. *)
Context (run : runner) (callClosure : applier) (n : nat).

Definition run_found (r : addr * FunctionEntry) (args : list value) (obj : addr) : V value :=
  run (fst r) (snd r) args obj.

Definition program_of (obj : addr) : V addr := let! o := object obj in vret (program_ o).

(** The simul efun object's function, then the built-in one, then [none]. *)
Definition call_simul_efun (name : bytes) (args : list value) (builtin : V value) : V value :=
  let! simul := reads (λ s, simulEfunObject_ (world_ s)) in
  match simul with
  | None => builtin
  | Some ob =>
      let! p := program_of ob in
      let! r := findFunctionInChain n name p in
      match r with
      | Some r => with_origin OSimulEfun (run_found r args ob)
      | None => builtin
      end
  end.

Definition call_builtin (name : bytes) (args : list value) : V value :=
  if efun_exists name then efun_call run callClosure n name args else lpc_error ($"undefined function or efun: " ++ name).

Definition call_named (obj : addr) (name : bytes) (args : list value) : V value :=
  let! p := program_of obj in
  let! r := findFunctionInChain n name p in
  match r with
  | Some r => with_origin OLocal (run_found r args obj)
  | None => call_simul_efun name args (call_builtin name args)
  end.

Definition call (act : activation) (i : Instruction) : St unit :=
  let! name := constant (stringPool (act_code act)) (operand i) $"Call: bad function name index" in
  let! argc := take_count i in
  let! args := take_args argc ($"Call: bad arg count for " ++ name) in
  let! v := on_vm (call_named (act_obj act) name args) in
  finish_with v.

Definition call_efun (act : activation) (i : Instruction) : St unit :=
  let! name := constant (stringPool (act_code act)) (operand i) $"CallEfun: bad efun name index" in
  let! argc := take_count i in
  let! args := take_args argc ($"CallEfun: bad arg count for " ++ name) in
  let! v := on_vm (efun_call run callClosure n name args) in
  finish_with v.

Definition parent_qualifier (act : activation) (z : Z) : St (option bytes) :=
  if z <? 0 then vret None
  else let! q := constant (stringPool (act_code act)) z $"CallParent: bad qualifier string index" in vret (Some q).

Definition call_parent (act : activation) (i : Instruction) : St unit :=
  let! name := constant (stringPool (act_code act)) (operand i) $"CallParent: bad function name index" in
  let! k := of_frame ip in
  match prog_code (act_code act) !! S k with
  | Some (mkInstr CallParentQualifierSlot z _) =>
      let! qualifier := parent_qualifier act z in
      let! argc := take_count i in
      let! args := take_args argc ($"CallParent: bad arg count for " ++ name) in
      let! r := on_vm (findParentFunction n (act_program act) name qualifier) in
      match r with
      | None =>
          lpc_error (match qualifier with Some q => q ++ $"::" | None => $"::" end ++ name ++
                     $"(): undefined function in inherited program")
      | Some r =>
          let! v := on_vm (with_origin OLocal (run_found r args (act_obj act))) in
          let! _ := push v in
          advance 2
      end
  | _ => raise (fault (LpcError $"CallParent: missing qualifier data instruction"))
  end.

(** The assignments of a [sscanf]; the slots follow the instruction. *)
Definition sscanf_assign (act : activation) (j : nat) (v : value) : St unit :=
  let! k := of_frame ip in
  let! spec := found (prog_code (act_code act) !! (k + 1 + j)%nat) in
  if argCount spec =? 0 then
    let! ls := of_frame locals in
    let! _ := check (slot_ok (operand spec) ls) $"Sscanf: bad local slot index" in
    set_frame (λ f, f <| locals ::= <[Z.to_nat (operand spec) := v]> |>)
  else
    let! o := on_vm (object (act_obj act)) in
    let! _ := check (slot_ok (operand spec) (variables_ o)) $"Sscanf: bad object variable slot index" in
    on_vm (set_variable (act_obj act) (operand spec) v).

Fixpoint sscanf_assigns (act : activation) (j : nat) (vs : list value) : St unit :=
  match vs with
  | [] => vret tt
  | v :: vs => let! _ := sscanf_assign act j v in sscanf_assigns act (S j) vs
  end.

Definition sscanf (act : activation) (i : Instruction) : St unit :=
  let k := operand i in
  let! _ := check (0 <=? k) $"Sscanf: bad var count" in
  let! _ := need 2 $"Sscanf: stack underflow" in
  let! format := pop_back in
  let! target := pop_back in
  match vdata target, vdata format with
  | VStr target, VStr format =>
      let! at_ := of_frame ip in
      let! _ := check (Z.of_nat at_ + 1 + k <=? size (prog_code (act_code act))) $"Sscanf: truncated var-slot table" in
      let! (matches, assigned) := give (from_result (runSscanf target format k)) in
      let! _ := sscanf_assigns act 0 assigned in
      let! _ := push (int_value matches) in
      advance (1 + Z.to_nat k)
  | _, _ => lpc_error $"sscanf: first two arguments must be strings"
  end.

(** ** One instruction *)

Definition continue (m : St unit) : St (option value) := let! _ := m in vret None.

Definition pop : St unit := let! _ := set_frame (λ f, f <| localStack ::= tail |>) in advance 1.
Definition dup : St unit :=
  let! _ := need 1 $"Dup: stack underflow" in
  let! v := pop_back in
  let! _ := push v in
  finish_with v.

Definition execute (act : activation) (i : Instruction) : St (option value) :=
  let c := act_code act in
  match op i with
  | PushConst =>
      continue (let! t := constant (stringPool c) (operand i) $"PushConst: bad string pool index" in
                finish_with (mk (VStr t)))
  | PushInt => continue (finish_with (int_value (operand i)))
  | PushFloat =>
      continue (let! d := constant (floatPool c) (operand i) $"PushFloat: bad float pool index" in
                finish_with (mk (VFloat d)))
  | PushNil => continue (finish_with (mk VNil))
  | PushSymbol =>
      continue (let! t := constant (stringPool c) (operand i) $"PushSymbol: bad symbol name index" in
                finish_with (mk (VSym t)))
  | PushLocal => continue (push_local i)
  | StoreLocal => continue (store_local i)
  | PushObjectVar => continue (push_object_var act i)
  | StoreObjectVar => continue (store_object_var act i)
  | OpEq | OpNeq | OpLt | OpLte | OpGt | OpGte | OpSub | OpMul | OpDiv | OpMod
  | OpBitAnd | OpBitOr | OpBitXor | OpShl | OpShr | OpAdd => continue (binary (op i))
  | OpNot => continue (unary $"Not: stack underflow" logical_not)
  | OpBitNot => continue (unary $"BitNot: stack underflow" bit_not)
  | ForeachKeys => continue (unary $"ForeachKeys: stack underflow" foreach_keys)
  | Jump => continue (jump act i)
  | JumpIfFalse => continue (jump_if_false act i)
  | PushCatchFrame => continue (push_catch_frame act i)
  | PopCatchFrame => continue pop_catch_frame
  | TimeExpressionStart => continue time_expression_start
  | TimeExpressionEnd => continue time_expression_end
  | ExpandVarargs => continue (expand_varargs i)
  | MakeArray => continue (make_array i)
  | MakeMapping => continue (make_mapping i)
  | Index => continue (index i)
  | IndexAssign => continue (index_assign i)
  | RangeIndex => continue (range_index i)
  | Call => continue (call act i)
  | CallParent => continue (call_parent act i)
  | PushClosure => continue (push_closure act i false)
  | PushEfunClosure => continue (push_closure act i true)
  | Sscanf => continue (sscanf act i)
  | CallEfun => continue (call_efun act i)
  | Pop => continue pop
  | Dup => continue dup
  | Return => let! st := of_frame localStack in vret (Some (default void_value (head st)))
  | Halt => vret (Some void_value)
  | CallParentQualifierSlot | SscanfVarSlot | CallApply | Suspend =>
      raise (fault (NotImplemented ($"VM::run opcode " ++ to_string (opcode_index (op i)))))
  end.

(** The body of the [try] block. *)
Definition step (act : activation) : St (option value) :=
  let! _ := on_vm (changes (λ s, s <| evalCost_ ::= Z.add 1 |>)) in
  let! (cost, limit) := on_vm (reads (λ s, (evalCost_ s, maxEvalCost_ s))) in
  if limit <? cost then raise (EvalCostError $"eval cost exceeded")
  else
    let! k := of_frame ip in
    let! i := found (prog_code (act_code act) !! k) in
    execute act i.
End Calls.

(** ** Runs *)

Definition fluffos : V bool := reads (λ s, is_fluffos (world_ s)).

(** The arguments in the first slots; a varargs parameter takes the rest. *)
Definition bind_args (args : list value) (ls : list value) : list value :=
  take (length ls) args ++ drop (length args) ls.

Definition start_locals (fn : FunctionEntry) (args : list value) : V (list value) :=
  let! isFluff := fluffos in
  let ls := replicate (Z.to_nat (numLocals fn)) (if isFluff then makeUndefinedNumber else int_value 0) in
  if isVarargs fn && (0 <? numArgs fn) then
    let restSlot := Z.to_nat (numArgs fn - 1) in
    let! rest := on_heap (new_array (drop restSlot args)) in
    vret (<[restSlot := rest]> (bind_args (take restSlot args) ls))
  else vret (bind_args args ls).

(** [objectVarBase]: where the variables of an inherited program begin. *)
Definition object_var_base (p : addr) (obj : addr) : V Z :=
  let! own := program_of obj in
  if bool_decide (p = own) then vret 0
  else
    let! prog := λ s, found (programs (world_ s) !! own) s in
    match ancestorBaseOffsets prog !! p with
    | Some base => vret base
    | None =>
        raise (fault (LpcError $"internal error: no object-variable base offset recorded for an inherited program"))
    end.

(** [localStack.resize(depth)]. *)
Definition resize_stack (depth : nat) (st : list value) : list value :=
  replicate (depth - length st) void_value ++ drop (length st - depth) st.

Definition unwind (cf : nat * nat) (cfs : list (nat * nat)) (v : value) (f : frame) : frame :=
  f <| catchFrames := cfs |> <| localStack := v :: resize_stack (snd cf) (localStack f) |> <| ip := fst cf |>.

(** What is thrown when there is no [catch]. *)
Definition uncaught (act : activation) (msg : bytes) (s : vm) : outcome value :=
  match objects (world_ s) !! act_obj act with
  | Some o => Raise (LpcError (filename_ o ++ $"::" ++ entry_name (act_fn act) ++ $"(): " ++ msg))
  | None => Undef
  end.

Definition synthesized_lambda (name : bytes) : bool :=
  match strip_prefix $"$lambda#" name with Some _ => true | None => false end.

Definition lock_object (p : option addr) : V (option addr) := reads (λ s, wlock (world_ s) p).

(** The value of a symbol in the quoted body of a lambda. *)
Fixpoint parameter (x : bytes) (params : list bytes) (args : list value) : option value :=
  match params, args with
  | y :: params, v :: args => if bool_decide (y = x) then Some v else parameter x params args
  | _, _ => None
  end.

(** The four functions that call each other, each with those it calls. *)
Section Bodies.
Context (run : runner) (loop : activation → frame → V value) (callClosure : applier)
  (evalQuotedLambdaNode : value → list bytes → list value → V value) (n : nat).

Definition run_function (p : addr) (fn : FunctionEntry) (args : list value) (obj : addr) : V value :=
  with_object_frame obj (entry_name fn) (with_defer_frame (λ c, callClosure c []) (
    let! base := object_var_base p obj in
    let! ls := start_locals fn args in
    let! c := code_of p in
    loop (mkActivation p c fn obj base) (mkFrame (Z.to_nat (entryPoint fn)) [] ls 0 []))).

(** One turn of the [while] loop, with its handlers. *)
Definition turn (act : activation) (f : frame) : V value := λ s,
  if (length (prog_code (act_code act)) <=? ip f)%nat then (Val void_value, s)
  else
    match step run callClosure n act (f, s) with
    | (Val None, (f, s)) => loop act f s
    | (Val (Some v), (_, s)) => (Val v, s)
    | (Raise (LpcThrownValue v), (f, s)) =>
        match catchFrames f with
        | [] => (Raise (LpcThrownValue v), s)
        | cf :: cfs => loop act (unwind cf cfs v f) s
        end
    | (Raise (LpcError msg), (f, s)) =>
        match catchFrames f with
        | [] => (uncaught act msg s, s)
        | cf :: cfs => loop act (unwind cf cfs (mk (VStr msg)) f) s
        end
    | (Raise e, (_, s)) => (Raise e, s)
    | (Undef, (_, s)) => (Undef, s)
    | (NoFuel, (_, s)) => (NoFuel, s)
    end.

(** The owner of a closure that can still be called. *)
Definition living_owner (c : Closure) : V (option addr) :=
  let! owner := lock_object (owner c) in
  match owner with
  | None => vret None
  | Some ob => let! o := object ob in vret (if destructed_ o then None else Some ob)
  end.

Definition efun_for (ob : addr) (name : bytes) (args : list value) (msg : bytes) : V value :=
  if efun_exists name then with_object_frame ob name (efun_call run callClosure n name args) else lpc_error (msg ++ name).

(** The function that a closure names: of its owner, of the simul efun object,
    or built in. *)
Definition call_closure_function (ob : addr) (name : bytes) (args : list value) : V value :=
  let! p := program_of ob in
  let! r := findFunctionInChain n name p in
  match r with
  | Some r =>
      with_origin (if synthesized_lambda (entry_name (snd r)) then OFunctional else OLocal)
        (run_found run r args ob)
  | None =>
      call_simul_efun run n name args
        (efun_for ob name args $"evaluate(): undefined function or efun: ")
  end.

Definition call_closure (closure : option addr) (extraArgs : list value) : V value :=
  match closure with
  | None => lpc_error $"evaluate(): not a function value"
  | Some a =>
      let! c := λ s, found (closures (lpcHeap (world_ s)) !! a) s in
      if unboundUntilBound c then lpc_error $"Uncallable closure"
      else
        let! alive := living_owner c in
        match alive with
        | None => lpc_error $"evaluate(): owner of function pointer is destructed"
        | Some ob =>
            let args := boundArgs c ++ extraArgs in
            if negb (isVoid (lambdaBody c)) then
              evalQuotedLambdaNode (lambdaBody c) (lambdaParams c)
                (take (length (lambdaParams c)) args ++
                 replicate (length (lambdaParams c) - length args) void_value)
            else if forceEfun c then efun_for ob (functionName c) args $"evaluate(): undefined efun: "
            else call_closure_function ob (functionName c) args
        end
  end.

(** The values of nodes, the first one first. *)
Fixpoint eval_nodes (params : list bytes) (argValues : list value) (xs : list value) : V (list value) :=
  match xs with
  | [] => vret []
  | x :: xs =>
      let! v := evalQuotedLambdaNode x params argValues in
      let! vs := eval_nodes params argValues xs in
      vret (v :: vs)
  end.

Definition eval_node (node : value) (params : list bytes) (argValues : list value) : V value :=
  match vdata node with
  | VSym name =>
      match parameter name params argValues with
      | Some v => vret v
      | None =>
          lpc_error ($"unbound_lambda: symbol '" ++ name ++ $" is not one of this lambda's own " ++
            $"declared parameters (global-variable symbol references are not supported)")
      end
  | VArr p =>
      let! xs := on_heap (items p) in
      match xs with
      | [] => lpc_error $"unbound_lambda: empty quoted-code call expression"
      | head :: rest =>
          match vdata head with
          | VClo (Some c) =>
              let! callArgs := eval_nodes params argValues rest in
              callClosure (Some c) callArgs
          | _ =>
              lpc_error ($"unbound_lambda: quoted-code call expression must start with a closure " ++
                $"(operator/control-flow closures as the call head are not supported)")
          end
      end
  | _ => vret node
  end.
End Bodies.

Fixpoint run (n : nat) (p : addr) (fn : FunctionEntry) (args : list value) (obj : addr) {struct n} : V value :=
  match n with
  | O => give NoFuel
  | S n => run_function (loop n) (callClosure n) p fn args obj
  end

with loop (n : nat) (act : activation) (f : frame) {struct n} : V value :=
  match n with
  | O => give NoFuel
  | S n => turn (run n) (loop n) (callClosure n) n act f
  end

with callClosure (n : nat) (closure : option addr) (extraArgs : list value) {struct n} : V value :=
  match n with
  | O => give NoFuel
  | S n => call_closure (run n) (callClosure n) (evalQuotedLambdaNode n) n closure extraArgs
  end

with evalQuotedLambdaNode (n : nat) (node : value) (params : list bytes) (argValues : list value) {struct n} : V value :=
  match n with
  | O => give NoFuel
  | S n => eval_node (callClosure n) (evalQuotedLambdaNode n) node params argValues
  end.

Lemma run_S n p fn args obj : run (S n) p fn args obj = run_function (loop n) (callClosure n) p fn args obj.
Proof. reflexivity. Qed.
Lemma loop_S n act f : loop (S n) act f = turn (run n) (loop n) (callClosure n) n act f.
Proof. reflexivity. Qed.
Lemma callClosure_S n cl args : callClosure (S n) cl args = call_closure (run n) (callClosure n) (evalQuotedLambdaNode n) n cl args.
Proof. reflexivity. Qed.
Lemma evalQuotedLambdaNode_S n node params args :
  evalQuotedLambdaNode (S n) node params args = eval_node (callClosure n) (evalQuotedLambdaNode n) node params args.
Proof. reflexivity. Qed.
End Machine.
