(* ===== verification/MachineLogic.v ===== *)
(** * MachineLogic: reasoning about runs of the machine

    What a state of the machine must have for its checks to succeed, what its
    operations keep of it, and rules that compare a run with checks that fail
    in one way with a run where they fail in another. *)

From S2P Require Import Prelude Doubles Values Config Uids Objects ObjectManager Verified Bytecode Operators Sscanf SscanfSpec Machine.
Open Scope Z_scope.

(** ** Good states *)

(** No call spreads two lists.  (After an error in the second one the machine
    would still count the first: the count is not reset by a [catch].) *)
Definition one_spread (c : CompiledProgram) : Prop := ∀ k i j,
  prog_code c !! k = Some i → prog_code c !! S k = Some j → op i = ExpandVarargs → op j ≠ ExpandVarargs.

Record program_ok (c : CompiledProgram) : Prop := {
  ok_small : small_program c;
  ok_functions : Forall (verified id id c) (prog_functions c);
  ok_spread : one_spread c;
}.

(** The program of an object, and how many variables it has. *)
Definition layout (s : vm) (ob : addr) : option (addr * nat) :=
  (λ o, (program_ o, length (variables_ o))) <$> objects (world_ s) !! ob.

(** [q] is [p] or inherited by it. *)
Definition inherits_from (s : vm) : addr → addr → Prop := rtc (λ p q,
  ∃ prog, programs (world_ s) !! p = Some prog ∧ q ∈ inheritedPrograms prog).

Definition base_of (s : vm) (own p : addr) : option Z :=
  if bool_decide (p = own) then Some 0
  else prog ← programs (world_ s) !! own; ancestorBaseOffsets prog !! p.

(** The code of [p] is sound in an object of the program [own] with [n] variables. *)
Definition linked (s : vm) (own : addr) (n : nat) (p : addr) : Prop := ∃ c base,
  codes s !! p = Some c ∧ program_ok c ∧ base_of s own p = Some base ∧ 0 ≤ base ∧
  base + size (Bytecode.objectVarNames c) ≤ Z.of_nat n.

(** A function of a program that [p] inherits. *)
Definition function_of (s : vm) (p q : addr) (fn : FunctionEntry) : Prop :=
  inherits_from s p q ∧ ∃ c, codes s !! q = Some c ∧ fn ∈ prog_functions c.

(** An object is in the inventory of its environment, once, and in no other. *)
Definition places (w : world) (ob : addr) : option (option addr * list addr) :=
  (λ o, (environment_ o, inventory_ o)) <$> objects w !! ob.

Definition placed (w : world) : Prop := ∀ d e l, places w d = Some (e, l) →
  NoDup l ∧ ∀ i, i ∈ l ↔ ∃ l', places w i = Some (Some d, l').

Record ready (s : vm) : Prop := {
  ready_linked : ∀ ob own n p, layout s ob = Some (own, n) → inherits_from s own p → linked s own n p;
  ready_cache : ∀ p name q fn, functionChainCache_ s !! (p, name) = Some (Some (q, fn)) → function_of s p q fn;
  ready_placed : placed (world_ s);
}.

(** The stacks that are popped by the destructors of guards. *)
Definition guards (s : vm) :=
  (functionNameStack_ s, objectChangeStack_ s, commandGiverStack_ s, originStack_ s, verbStack_ s).

(** What a call may do to the state of its caller. *)
Record extends (s s' : vm) : Prop := {
  ext_codes : codes s ⊆ codes s';
  ext_programs : programs (world_ s) ⊆ programs (world_ s');
  ext_stack : callStack_ s' = callStack_ s;
  ext_guards : guards s' = guards s;
  ext_objects : ∀ ob own n, ob ∈ callStack_ s → layout s ob = Some (own, n) →
    ∃ n', layout s' ob = Some (own, n') ∧ (n ≤ n')%nat;
  ext_timers : (length (timeExpressionStack_ s) ≤ length (timeExpressionStack_ s'))%nat;
}.

#[export] Instance extends_preorder : PreOrder extends.
Proof.
  split.
  - intros s. split; try done. intros ob own n _ Ho. by exists n.
  - intros s1 s2 s3 [c1 p1 k1 g1 o1 t1] [c2 p2 k2 g2 o2 t2]. split; [by etrans|by etrans|by rewrite k2|by rewrite g2| |lia].
    intros ob own n Hob Ho. destruct (o1 ob own n Hob Ho) as (n2 & Ho2 & ?). rewrite <- k1 in Hob.
    destruct (o2 ob own n2 Hob Ho2) as (n3 & ? & ?). exists n3. split; [done|lia].
Qed.

Definition keeps (s s' : vm) : Prop := ready s' ∧ extends s s'.

(** An instruction that calls nothing changes none of these. *)
Record still (s s' : vm) : Prop := {
  still_ready : ready s → ready s';
  still_layout : ∀ ob, layout s' ob = layout s ob;
  still_places : ∀ ob, places (world_ s') ob = places (world_ s) ob;
  still_codes : codes s' = codes s;
  still_programs : programs (world_ s') = programs (world_ s);
  still_stack : callStack_ s' = callStack_ s;
  still_timers : length (timeExpressionStack_ s') = length (timeExpressionStack_ s);
}.

#[export] Instance still_preorder : PreOrder still.
Proof.
  split; [by intros s; split|].
  intros s1 s2 s3 [a b c d e f g] [a' b' c' d' e' f' g']. split; [auto|..]; intros; congruence.
Qed.

(** Nor one that leaves no guard behind. *)
Definition calm (s s' : vm) : Prop := still s s' ∧ guards s' = guards s.

#[export] Instance calm_preorder : PreOrder calm.
Proof. split; [by split|]. intros s1 s2 s3 [H1 G1] [H2 G2]. split; [by etrans|by rewrite G2]. Qed.

Lemma calm_keeps s s' : calm s s' → ready s → keeps s s'.
Proof.
  intros [[Hr Hl _ Hc Hp Hs Ht] Hg] H. split; [auto|]. split; rewrite ?Hc, ?Hp, ?Ht; try done.
  intros ob own n _ Ho. exists n. by rewrite Hl.
Qed.

Lemma keeps_refl s : ready s → keeps s s.
Proof. by split. Qed.
Lemma keeps_trans s1 s2 s3 : keeps s1 s2 → keeps s2 s3 → keeps s1 s3.
Proof. intros [_ H1] [H2 H3]. split; [done|by etrans]. Qed.
Lemma keeps_calm s1 s2 s3 : keeps s1 s2 → calm s2 s3 → keeps s1 s3.
Proof. intros H1 H2. eapply keeps_trans; [done|]. apply calm_keeps; [done|apply H1]. Qed.
Lemma calm_then_keeps s1 s2 s3 : ready s1 → calm s1 s2 → keeps s2 s3 → keeps s1 s3.
Proof. intros Hr H1 H2. eapply keeps_trans; [by apply calm_keeps|done]. Qed.
Lemma calm_ready s s' : calm s s' → ready s → ready s'.
Proof. intros [H _]. by apply still_ready. Qed.

#[export] Hint Resolve keeps_refl calm_keeps calm_ready : kj.

(** Readiness speaks of these parts only. *)
Lemma inherits_from_same s s' p q : programs (world_ s') = programs (world_ s) → inherits_from s p q → inherits_from s' p q.
Proof. intros E. unfold inherits_from. by rewrite E. Qed.

Lemma function_of_mono s s' p q fn : programs (world_ s) ⊆ programs (world_ s') → codes s ⊆ codes s' →
  function_of s p q fn → function_of s' p q fn.
Proof.
  intros Hp Hc [Hi (c & Hcq & Hfn)]. split.
  - revert Hi. apply rtc_subrel. intros x y (prog & ? & ?). exists prog. split; [by eapply lookup_weaken|done].
  - exists c. split; [by eapply lookup_weaken|done].
Qed.

Lemma linked_same s s' own n p : programs (world_ s') = programs (world_ s) → codes s' = codes s →
  linked s own n p → linked s' own n p.
Proof. intros Hp Hc. unfold linked, base_of. by rewrite Hp, Hc. Qed.

Lemma placed_same w w' : (∀ ob, places w' ob = places w ob) → placed w → placed w'.
Proof.
  intros H Hw d e l Hd. rewrite H in Hd. destruct (Hw d e l Hd) as [Hn Hi]. split; [done|]. intros i. rewrite Hi, H. done.
Qed.

Lemma still_intro s s' : (∀ ob, layout s' ob = layout s ob) → (∀ ob, places (world_ s') ob = places (world_ s) ob) →
  codes s' = codes s →
  programs (world_ s') = programs (world_ s) → callStack_ s' = callStack_ s →
  length (timeExpressionStack_ s') = length (timeExpressionStack_ s) →
  functionChainCache_ s' = functionChainCache_ s → still s s'.
Proof.
  intros Hl Hpl Hc Hp Hs Ht Hf. split; try done. intros [Hlink Hcache Hplaced]. split; [| |by apply (placed_same (world_ s))].
  - intros ob own n p Ho Hi. rewrite Hl in Ho. apply (linked_same s); try done. eapply Hlink; [done|].
    by apply (inherits_from_same s').
  - intros p name q fn. rewrite Hf. intros H. apply (function_of_mono s); [by rewrite Hp|by rewrite Hc|]. by eapply Hcache.
Qed.

(** ** Runs that agree *)

(** From [s] the two runs do the same; the values are [Q], the exceptions [X]. *)
Definition safe {S A} (m1 m2 : T S A) (s : S) (Q : A → S → Prop) (X : raised → S → Prop) : Prop :=
  m1 s = m2 s ∧ match m2 s with (Val a, s) => Q a s | (Raise e, s) => X e s | _ => True end.

Section Rules.
Context {S : Type}.
Implicit Types (s : S) (X : raised → S → Prop).

Lemma safe_ret {A} (a : A) s Q X : Q a s → safe (vret a) (vret a) s Q X.
Proof. by split. Qed.
Lemma safe_raise {A} e s (Q : A → S → Prop) X : X e s → safe (raise e) (raise e) s Q X.
Proof. by split. Qed.
Lemma safe_undef {A} s (Q : A → S → Prop) X : safe (give Undef) (give Undef) s Q X.
Proof. by split. Qed.
Lemma safe_no_fuel {A} s (Q : A → S → Prop) X : safe (give NoFuel) (give NoFuel) s Q X.
Proof. by split. Qed.
Lemma safe_found {A} (o : option A) s Q X : (∀ a, o = Some a → Q a s) → safe (found o) (found o) s Q X.
Proof. intros H. split; [done|]. unfold found, give. destruct o; simpl; auto. Qed.
Lemma safe_reads {A} (f : S → A) s Q X : Q (f s) s → safe (reads f) (reads f) s Q X.
Proof. by split. Qed.
Lemma safe_changes f s (Q : unit → S → Prop) X : Q tt (f s) → safe (changes f) (changes f) s Q X.
Proof. by split. Qed.

Lemma safe_bind {A B} (m1 m2 : T S A) (k1 k2 : A → T S B) s Q R X :
  safe m1 m2 s R X → (∀ a s', R a s' → safe (k1 a) (k2 a) s' Q X) → safe (vbind m1 k1) (vbind m2 k2) s Q X.
Proof.
  intros [He Hm] Hk. unfold safe, vbind. rewrite He. destruct (m2 s) as [[a|e| |] s'] eqn:E; try done. by apply Hk.
Qed.

Lemma safe_weaken {A} (m1 m2 : T S A) s (Q Q' : A → S → Prop) (X X' : raised → S → Prop) : safe m1 m2 s Q X →
  (∀ a s', Q a s' → Q' a s') → (∀ e s', X e s' → X' e s') → safe m1 m2 s Q' X'.
Proof. intros [He Hm] HQ HX. split; [done|]. destruct (m2 s) as [[a|e| |] s']; auto. Qed.

Lemma safe_check f1 f2 b msg s (Q : unit → S → Prop) X : b = true → Q tt s →
  safe (check f1 b msg) (check f2 b msg) s Q X.
Proof. intros -> H. by split. Qed.

Lemma safe_finally {A} (m1 m2 : T S A) d s (Q : A → S → Prop) X :
  safe m1 m2 s (λ a s', Q a (d s')) (λ e s', X e (d s')) → safe (finally m1 d) (finally m2 d) s Q X.
Proof. intros [He Hm]. unfold safe, finally. rewrite He. split; [done|]. by destruct (m2 s) as [[a|e| |] s']. Qed.
End Rules.

(** [m] leaves everything of interest as it is. *)
Definition quiet {A} (m : V A) : Prop := ∀ s, calm s (snd (m s)).

Lemma quiet_safe {A} (m : V A) s : quiet m → safe m m s (λ _ s', calm s s') (λ _ s', calm s s').
Proof. intros H. split; [done|]. pose proof (H s). by destruct (m s) as [[]]. Qed.

Lemma quiet_ret {A} (a : A) : quiet (vret a).
Proof. intros s. simpl. reflexivity. Qed.
Lemma quiet_raise {A} e : quiet (@raise vm A e).
Proof. intros s. simpl. reflexivity. Qed.
Lemma quiet_give {A} (r : outcome A) : quiet (give r).
Proof. intros s. simpl. reflexivity. Qed.
Lemma quiet_found {A} (o : option A) : quiet (found o).
Proof. intros s. simpl. reflexivity. Qed.
Lemma quiet_reads {A} (f : vm → A) : quiet (reads f).
Proof. intros s. simpl. reflexivity. Qed.
Lemma quiet_bind {A B} (m : V A) (k : A → V B) : quiet m → (∀ a, quiet (k a)) → quiet (vbind m k).
Proof.
  intros Hm Hk s. unfold vbind. pose proof (Hm s) as H. destruct (m s) as [[a|e| |] s'] eqn:E; simpl in *; try done.
  etrans; [done|apply Hk].
Qed.
Lemma quiet_on_heap {A} (m : M heap A) : quiet (on_heap m).
Proof. intros s. unfold on_heap. destruct (m (lpcHeap (world_ s))). split; [by apply still_intro|done]. Qed.
Lemma quiet_object a : quiet (object a).
Proof. intros s. simpl. reflexivity. Qed.

Create HintDb quiet.
#[export] Hint Resolve quiet_ret quiet_raise quiet_give quiet_found quiet_reads quiet_bind quiet_on_heap quiet_object : quiet.

(** Follows the structure of an operation. *)
Ltac quietly := intros; repeat first
  [ apply quiet_bind; [|intros] | progress eauto with quiet | case_match ]; eauto with quiet.

Lemma quiet_coerce v : quiet (coerceIfDestructed v).
Proof. unfold coerceIfDestructed. quietly. Qed.
#[export] Hint Resolve quiet_coerce : quiet.

Lemma layout_upd f a s : (∀ o, program_ (f o) = program_ o ∧ length (variables_ (f o)) = length (variables_ o)) →
  ∀ ob, layout (s <| world_ ::= upd_obj f a |>) ob = layout s ob.
Proof.
  intros Hf ob. unfold layout, upd_obj, upd. simpl. destruct (decide (ob = a)) as [->|Hne].
  - rewrite lookup_alter_eq. destruct (objects (world_ s) !! a) as [o|]; [|done]. simpl. by destruct (Hf o) as [-> ->].
  - by rewrite lookup_alter_ne.
Qed.

Lemma places_upd f a w : (∀ o, environment_ (f o) = environment_ o ∧ inventory_ (f o) = inventory_ o) →
  ∀ ob, places (upd_obj f a w) ob = places w ob.
Proof.
  intros Hf ob. unfold places, upd_obj, upd. simpl. destruct (decide (ob = a)) as [->|Hne].
  - rewrite lookup_alter_eq. destruct (objects w !! a) as [o|]; [|done]. simpl. by destruct (Hf o) as [-> ->].
  - by rewrite lookup_alter_ne.
Qed.

Lemma quiet_set_variable a slot v : quiet (set_variable a slot v).
Proof.
  intros s. unfold set_variable, changes. simpl. split; [|done]. apply still_intro; try done; [|by apply places_upd].
  apply layout_upd. intros o. simpl. by rewrite length_insert.
Qed.
Lemma quiet_read_clock `{Efuns} : quiet read_clock.
Proof. intros s. split; [by apply still_intro|done]. Qed.
#[export] Hint Resolve quiet_set_variable quiet_read_clock : quiet.

Lemma quiet_int_index v msg : quiet (int_index v msg).
Proof. unfold int_index, lpc_error. quietly. Qed.
Lemma quiet_from_end b len i : quiet (from_end b len i).
Proof. unfold from_end. quietly. Qed.
#[export] Hint Resolve quiet_int_index quiet_from_end : quiet.

Lemma quiet_index_array what p v b : quiet (index_array what p v b).
Proof. unfold index_array, lpc_error. quietly. Qed.
Lemma quiet_map_column m c : quiet (map_column m c).
Proof. unfold map_column, lpc_error. quietly. Qed.
#[export] Hint Resolve quiet_index_array quiet_map_column : quiet.

Lemma quiet_index_mapping p k c : quiet (index_mapping p k c).
Proof. unfold index_mapping, lpc_error. quietly. Qed.
Lemma quiet_index_string t v b : quiet (index_string t v b).
Proof. unfold index_string, lpc_error. quietly. Qed.
#[export] Hint Resolve quiet_index_mapping quiet_index_string : quiet.

Lemma quiet_index_value t v c b : quiet (index_value t v c b).
Proof. unfold index_value, lpc_error. quietly. Qed.
Lemma quiet_assign_mapping p k c v : quiet (assign_mapping p k c v).
Proof. unfold assign_mapping, lpc_error. quietly. Qed.
#[export] Hint Resolve quiet_assign_mapping : quiet.
Lemma quiet_assign_index t v c w : quiet (assign_index t v c w).
Proof. unfold assign_index, lpc_error. quietly. Qed.
Lemma quiet_range_bounds i a b n : quiet (range_bounds i a b n).
Proof. unfold range_bounds. quietly. Qed.
#[export] Hint Resolve quiet_range_bounds : quiet.
Lemma quiet_range_value i t a b : quiet (range_value i t a b).
Proof. unfold range_value, lpc_error. quietly. Qed.
#[export] Hint Resolve quiet_index_value quiet_assign_index quiet_range_value : quiet.

(** ** Guards *)

(** The two runs agree, and keep what their caller relies on. *)
Definition agree {A} (m1 m2 : V A) (s : vm) : Prop := safe m1 m2 s (λ _ s', keeps s s') (λ _ s', keeps s s').

Lemma quiet_agree {A} (m : V A) s : quiet m → ready s → agree m m s.
Proof. intros H Hr. eapply safe_weaken; [by apply quiet_safe|eauto with kj..]. Qed.

Lemma agree_bind {A B} (m1 m2 : V A) (k1 k2 : A → V B) s R :
  safe m1 m2 s (λ a s', keeps s s' ∧ R a s') (λ _ s', keeps s s') →
  (∀ a s', keeps s s' → R a s' → agree (k1 a) (k2 a) s') → agree (vbind m1 k1) (vbind m2 k2) s.
Proof.
  intros Hm Hk. eapply safe_bind; [apply Hm|]. intros a s' [Hs HR]. eapply safe_weaken; [by apply Hk| |];
    intros; by eapply keeps_trans.
Qed.

Lemma still_guard s s' : (∀ ob, layout s' ob = layout s ob) ∧ (∀ ob, places (world_ s') ob = places (world_ s) ob) ∧ codes s' = codes s ∧ programs (world_ s') = programs (world_ s) ∧
  callStack_ s' = callStack_ s ∧ timeExpressionStack_ s' = timeExpressionStack_ s ∧
  functionChainCache_ s' = functionChainCache_ s → still s s'.
Proof. intros (? & ? & ? & ? & ? & Ht & ?). apply still_intro; try done. by rewrite Ht. Qed.

Lemma agree_then {A B} (m1 m2 : V A) (k1 k2 : A → V B) s : agree m1 m2 s →
  (∀ a s', ready s' → agree (k1 a) (k2 a) s') → agree (vbind m1 k1) (vbind m2 k2) s.
Proof.
  intros Hm Hk. apply (agree_bind _ _ _ _ _ (λ _ _, True)); [|by intros a s' [? _] _; apply Hk].
  eapply safe_weaken; [exact Hm|done|done].
Qed.

Lemma quiet_then {A B} (m : V A) (k1 k2 : A → V B) s : quiet m → ready s →
  (∀ a s', ready s' → agree (k1 a) (k2 a) s') → agree (vbind m k1) (vbind m k2) s.
Proof.
  intros Hm Hr. apply agree_then. by apply quiet_agree.
Qed.

Lemma agree_raise {A} e s : ready s → agree (@raise vm A e) (raise e) s.
Proof. intros. by apply quiet_agree; [apply quiet_raise|]. Qed.

(** A guard is entered, what it guards is run, and it is left. *)
Lemma leave_guard s s0 s' s'' : ready s → still s s0 → keeps s0 s' → still s' s'' → guards s'' = guards s → keeps s s''.
Proof.
  intros Hr [_ El _ Ec Ep Ek Et] [Hr' [xc xp xk _ xo xt]] [r' l' _ c' p' k' t'] Hg. split; [auto|].
  rewrite Ec in xc. rewrite Ep in xp. rewrite Ek in xk, xo. 
  split; [by rewrite c'|by rewrite p'|by rewrite k'|done| |lia].
  intros ob own n Hob Ho. destruct (xo ob own n) as (n' & Ho' & Hn'); [done|by rewrite El|]. exists n'. by rewrite l'.
Qed.

Lemma agree_guarded {A} (m1 m2 : V A) (enter leave : vm → vm) s : ready s →
  still s (enter s) → (∀ s, still s (leave s)) → (∀ s', guards s' = guards (enter s) → guards (leave s') = guards s) →
  agree m1 m2 (enter s) →
  agree (λ s, finally m1 leave (enter s)) (λ s, finally m2 leave (enter s)) s.
Proof.
  intros Hr Hin Hout Hg H. unfold agree. change (safe (finally m1 leave) (finally m2 leave) (enter s) (λ _ s', keeps s s') (λ _ s', keeps s s')).
  apply safe_finally. eapply safe_weaken; [exact H| |]; intros ? s' H0;
    (apply (leave_guard s (enter s) s'); [done|done|done|apply Hout|apply Hg, (ext_guards _ _ (proj2 H0))]).
Qed.

Ltac same_guards H := unfold guards in *; simpl in *; injection H;
  repeat match goal with |- _ = _ → _ => let E := fresh in intros E; try rewrite E end; reflexivity.

Ltac guarded enter leave := apply (agree_guarded _ _ enter leave);
  [done|by apply still_guard|by intros; apply still_guard|by intros s' Hsame; same_guards Hsame|].

Lemma agree_with_origin {A} o (m1 m2 : V A) s : ready s → (∀ s', still s s' → agree m1 m2 s') →
  agree (with_origin o m1) (with_origin o m2) s.
Proof.
  intros Hr H. guarded (λ s : vm, s <| originStack_ ::= cons o |>) (λ s : vm, s <| originStack_ ::= tail |>).
  apply H. by apply still_guard.
Qed.

Lemma agree_with_command_giver {A} g (m1 m2 : V A) s : ready s → (∀ s', still s s' → agree m1 m2 s') →
  agree (with_command_giver g m1) (with_command_giver g m2) s.
Proof.
  intros Hr H. guarded (λ s : vm, s <| commandGiverStack_ ::= cons g |>) (λ s : vm, s <| commandGiverStack_ ::= tail |>).
  apply H. by apply still_guard.
Qed.

(** Readiness does not depend on who is running. *)
Lemma ready_call_stack s s' : (∀ ob, layout s' ob = layout s ob) → (∀ ob, places (world_ s') ob = places (world_ s) ob) →
  codes s' = codes s → programs (world_ s') = programs (world_ s) → functionChainCache_ s' = functionChainCache_ s →
  ready s → ready s'.
Proof.
  intros Hl Hpl Hc Hp Hf Hr. set (s'' := s' <| callStack_ := callStack_ s |> <| timeExpressionStack_ := timeExpressionStack_ s |>).
  assert (ready s'') as [H1 H2 H3] by by apply (still_ready s); [apply still_intro|].
  split; [exact H1|exact H2|exact H3].
Qed.

Definition entered (obj : addr) (s s' : vm) : Prop :=
  ready s' ∧ (∀ ob, layout s' ob = layout s ob) ∧ codes s' = codes s ∧ programs (world_ s') = programs (world_ s) ∧
  callStack_ s' = obj :: callStack_ s ∧ timeExpressionStack_ s' = timeExpressionStack_ s.

(** What [ObjectFrameGuard] does on the way in and out. *)
Lemma leave_object obj s s0 s' s'' : entered obj s s0 → keeps s0 s' → guards s'' = guards s →
  (∀ ob, layout s'' ob = layout s' ob) → (∀ ob, places (world_ s'') ob = places (world_ s') ob) →
  codes s'' = codes s' → programs (world_ s'') = programs (world_ s') → functionChainCache_ s'' = functionChainCache_ s' →
  callStack_ s'' = tail (callStack_ s') → timeExpressionStack_ s'' = timeExpressionStack_ s' → keeps s s''.
Proof.
  intros (_ & El & Ec & Ep & Ek & Et) [Hr' [xc xp xk _ xo xt]] Hg Hl Hpl Hc Hp Hf Hk Ht.
  split; [by apply (ready_call_stack s')|].
  split; rewrite ?Hc, ?Hp, ?Ht, <- ?Ec, <- ?Ep, <- ?Et; try done; [by rewrite Hk, xk, Ek|].
  intros ob own n Hob Ho. destruct (xo ob own n) as (n' & Ho' & Hn'); [rewrite Ek; by right|by rewrite El|].
  exists n'. by rewrite Hl.
Qed.

Lemma agree_with_object_frame {A} obj name (m1 m2 : V A) s : ready s → (∀ s', entered obj s s' → agree m1 m2 s') →
  agree (with_object_frame obj name m1) (with_object_frame obj name m2) s.
Proof.
  intros Hr H.
  assert (∀ s0 d, entered obj s s0 → (∀ s', keeps s0 s' → keeps s (d s')) →
    safe (λ _, finally m1 d s0) (λ _, finally m2 d s0) s (λ _ s', keeps s s') (λ _ s', keeps s s')) as Hgo.
  { intros s0 d He Hd. destruct (H s0 He) as [E Hk]. unfold safe, finally. rewrite E. split; [done|].
    destruct (m2 s0) as [[a|e| |] s']; auto. }
  unfold agree, with_object_frame, safe in *. cbv beta zeta. destruct (negb _) eqn:Ec.
  all: apply Hgo; [split; [by apply (ready_call_stack s)|done]|]; intros s' Hk; pose proof (ext_guards _ _ (proj2 Hk)) as Hsame;
    (eapply (leave_object obj s); [|exact Hk|same_guards Hsame|done..]); (split; [by apply (ready_call_stack s)|done]).
Qed.

Lemma agree_swallow m1 m2 s : agree m1 m2 s → agree (swallow m1) (swallow m2) s.
Proof. intros [He Hm]. unfold agree, safe, swallow. rewrite He. split; [done|]. by destruct (m2 s) as [[]]. Qed.

Lemma agree_each {A} (b1 b2 : A → V unit) l s : ready s → (∀ x s', keeps s s' → agree (b1 x) (b2 x) s') →
  agree (each b1 l) (each b2 l) s.
Proof.
  intros Hr Hb. revert s Hr Hb. induction l as [|x l IH]; intros s Hr Hb; [by apply quiet_agree; [apply quiet_ret|]|].
  eapply (agree_bind _ _ _ _ _ (λ _ _, True)).
  - eapply safe_weaken; [apply Hb; eauto with kj|done|done].
  - intros _ s' Hk _. apply IH; [apply Hk|]. intros y s'' Hk'. apply Hb. by eapply keeps_trans.
Qed.

Lemma agree_leave_frame c1 c2 s : ready s → (∀ c s', ready s' → agree (c1 c) (c2 c) s') →
  agree (leave_frame c1) (leave_frame c2) s.
Proof.
  intros Hr Hc. unfold agree, safe, leave_frame. destruct (deferStack_ s) as [|pending rest]; [done|].
  set (s1 := s <| deferStack_ := rest |>). assert (calm s s1) as H1 by by split; [apply still_guard|].
  assert (ready s1) as Hr1 by by apply (calm_ready s). apply (safe_weaken _ _ s1 (λ _ s', keeps s1 s') _ (λ _ s', keeps s1 s')).
  - apply agree_each; [done|]. intros e s2 Hk. apply agree_swallow, agree_with_command_giver; [apply Hk|].
    intros s3 H3. apply Hc. apply (still_ready s2); [done|apply Hk].
  - intros ? s2 H2. by apply (calm_then_keeps s s1).
  - intros ? s2 H2. by apply (calm_then_keeps s s1).
Qed.

Lemma agree_with_defer_frame {A} (c1 c2 : option addr → V value) (m1 m2 : V A) s : ready s →
  (∀ c s', ready s' → agree (c1 c) (c2 c) s') → (∀ s', still s s' → agree m1 m2 s') →
  agree (with_defer_frame c1 m1) (with_defer_frame c2 m2) s.
Proof.
  intros Hr Hc Hm. unfold agree, safe, with_defer_frame. set (s0 := s <| deferStack_ ::= cons [] |>).
  assert (calm s s0) as H0 by by split; [apply still_guard|]. destruct (Hm s0 (proj1 H0)) as [E Hk]. rewrite E.
  assert (∀ s1 (k : V A), keeps s0 s1 → (∀ s2, keeps s1 s2 → agree k k s2) →
    agree (let! _ := leave_frame c1 in k) (let! _ := leave_frame c2 in k) s1) as Hleave.
  { intros s1 k Hk1 Hkk. apply (agree_bind _ _ _ _ _ (λ _ _, True)); [|by intros; apply Hkk].
    eapply safe_weaken; [apply (agree_leave_frame c1 c2); [apply Hk1|done]|done|done]. }
  destruct (m2 s0) as [[a|e| |] s1]; try done.
  - destruct (Hleave s1 (vret a) Hk) as [-> H].
    { intros s2 Hk2. apply quiet_agree; [apply quiet_ret|apply Hk2]. }
    split; [done|]. destruct (vbind _ _ s1) as [[] s2]; try done; (eapply calm_then_keeps; [done|done|by eapply keeps_trans]).
  - destruct (Hleave s1 (raise e) Hk) as [-> H].
    { intros s2 Hk2. apply quiet_agree; [apply quiet_raise|apply Hk2]. }
    split; [done|]. destruct (vbind _ _ s1) as [[] s2]; try done; (eapply calm_then_keeps; [done|done|by eapply keeps_trans]).
Qed.

(** ** Lookups *)

Definition found_in (s : vm) (p : addr) (r : lookup_result) : Prop := ∀ q fn, r = Some (q, fn) → function_of s p q fn.

Definition finds (m : V lookup_result) (p : addr) (s : vm) : Prop :=
  safe m m s (λ r s', calm s s' ∧ found_in s' p r) (λ _ s', calm s s').

Lemma still_function s s' p q fn : still s s' → function_of s p q fn → function_of s' p q fn.
Proof. intros [_ _ _ Hc Hp _ _]. apply function_of_mono; [by rewrite Hp|by rewrite Hc]. Qed.

Lemma function_of_parent s p prog q r fn : programs (world_ s) !! p = Some prog → q ∈ inheritedPrograms prog →
  function_of s q r fn → function_of s p r fn.
Proof. intros Hp Hq [Hi Hc]. split; [|done]. eapply rtc_l; [by exists prog|done]. Qed.

Lemma own_function_of s p c name r : codes s !! p = Some c → own_function p c name = Some r → found_in s p (Some r).
Proof.
  intros Hc. unfold own_function. destruct (find _ _) as [fn|] eqn:Ef; [|done]. intros [= <-] q fn' [= <- <-].
  split; [done|]. exists c. split; [done|]. apply find_some in Ef as [Hin _]. by apply list_elem_of_In.
Qed.

Lemma first_parent_finds rec p parents s : ready s →
  (∀ prog, programs (world_ s) !! p = Some prog → Forall (λ q, q ∈ inheritedPrograms prog) parents) →
  (∃ prog, programs (world_ s) !! p = Some prog) →
  (∀ q s', calm s s' → finds (rec q) q s') → finds (first_parent rec parents) p s.
Proof.
  intros Hr Hall [prog Hp] Hrec. specialize (Hall prog Hp). revert s Hr Hp Hrec.
  induction Hall as [|q parents Hq Hall IH]; intros s Hr Hp Hrec; cbn [first_parent].
  - apply safe_ret. split; [reflexivity|]. by intros ??.
  - eapply safe_bind; [by apply Hrec|]. intros r s1 [H1 Hf]. cbv beta in *. destruct r as [[q' fn]|].
    + apply safe_ret. split; [done|]. intros ?? [= <- <-]. destruct H1 as [[_ _ _ _ Hp1 _ _] _].
      eapply function_of_parent; [by rewrite Hp1|done|by apply Hf].
    + eapply safe_weaken; [apply IH| |].
      * by apply (calm_ready s).
      * by rewrite (still_programs s s1) by apply H1.
      * intros q' s2 H2. apply Hrec. by etrans.
      * intros r s2 [H2 Hf2]. split; [by etrans|done].
      * intros e s2 H2. by etrans.
Qed.

Lemma cached s p name r : ready s → found_in s p r → calm s (s <| functionChainCache_ ::= emplace (p, name) r |>).
Proof.
  intros Hr Hf. split; [|done]. split; try done. intros [Hlink Hcache Hp]. split; [done| |done]. intros p' name' q fn. simpl. unfold emplace.
  destruct (functionChainCache_ s !! (p, name)) eqn:E; [by apply Hcache|].
  rewrite lookup_insert_Some. intros [[[= <- <-] ->]|[_ H]]; [by apply Hf|by eapply Hcache].
Qed.

Lemma findFunctionInChain_finds n name p s : ready s → finds (findFunctionInChain n name p) p s.
Proof.
  revert p s. induction n as [|n IH]; intros p s Hr; cbn [findFunctionInChain]; [apply safe_no_fuel|].
  eapply (safe_bind _ _ _ _ _ _ (λ cache s', cache = functionChainCache_ s ∧ s' = s)); [by apply safe_reads|].
  intros cache s0 [-> ->].
  destruct (functionChainCache_ s !! (p, name)) as [r|] eqn:Ec.
  { apply safe_ret. split; [reflexivity|]. intros q fn ->. by eapply ready_cache. }
  eapply (safe_bind _ _ _ _ _ _ (λ c s', s' = s ∧ codes s !! p = Some c)).
  { apply (safe_found (codes s !! p) s). auto. }
  intros c s0 [-> Hc].
  eapply (safe_bind _ _ _ _ _ _ (λ r s', calm s s' ∧ found_in s' p r)).
  - destruct (own_function p c name) as [r|] eqn:Eo.
    { apply safe_ret. split; [reflexivity|]. by eapply own_function_of. }
    eapply (safe_bind _ _ _ _ _ _ (λ ps s', s' = s ∧ ∃ prog, programs (world_ s) !! p = Some prog ∧ ps = inheritedPrograms prog)).
    { apply (safe_found (inheritedPrograms <$> programs (world_ s) !! p) s). intros ps Hps.
      split; [done|]. destruct (programs (world_ s) !! p) as [prog|]; [|done]. simplify_eq/=. by exists prog. }
    intros ps s0 [-> (prog & Hp & ->)]. apply first_parent_finds; [done| |by exists prog|].
    + intros ? [= <-]%(eq_trans (eq_sym Hp)). by apply Forall_forall.
    + intros q s' H. apply IH. by apply (calm_ready s).
  - intros r s1 [H1 Hf]. eapply (safe_bind _ _ _ _ _ _ (λ _ s', calm s s' ∧ found_in s' p r)).
    + apply safe_changes. assert (ready s1) as Hr1 by by apply (calm_ready s).
      pose proof (cached s1 p name r Hr1 Hf) as H2. split; [by etrans|].
      intros q fn E. apply (still_function s1); [apply H2|by apply Hf].
    + intros _ s2 H2. by apply safe_ret.
Qed.

Lemma qualified_parent_in q paths parents parent : qualified_parent q paths parents = Some parent → parent ∈ parents.
Proof.
  revert parents. induction paths as [|path paths IH]; intros [|x parents]; simpl; try done.
  case_match; [intros [= ->]; by left|]. intros Hq. right. by apply IH.
Qed.

Lemma findParentFunction_finds n p name q s : ready s → finds (findParentFunction n p name q) p s.
Proof.
  intros Hr. unfold findParentFunction.
  eapply (safe_bind _ _ _ _ _ _ (λ ps s', s' = s ∧ ∃ prog, programs (world_ s) !! p = Some prog ∧ ps = inheritedPrograms prog)).
  { apply (safe_found (inheritedPrograms <$> programs (world_ s) !! p) s). intros ps Hps.
    split; [done|]. destruct (programs (world_ s) !! p) as [prog|]; [|done]. simplify_eq/=. by exists prog. }
  intros ps s0 [-> (prog & Hp & ->)]. destruct q as [q|].
  - eapply (safe_bind _ _ _ _ _ _ (λ _ s', s' = s)). { apply (safe_found (Objects.inherits <$> _) s). auto. }
    intros paths s0 ->. destruct (qualified_parent q paths _) as [parent|] eqn:Eq.
    + eapply safe_weaken; [by apply findFunctionInChain_finds| |auto]. intros r s' [H Hf]. split; [done|].
      intros x fn Hx. eapply function_of_parent; [by rewrite (still_programs s s') by apply H|by eapply qualified_parent_in|by apply Hf].
    + apply safe_ret. split; [reflexivity|]. by intros ??.
  - apply first_parent_finds; [done| |by exists prog|].
    + intros ? [= <-]%(eq_trans (eq_sym Hp)). by apply Forall_forall.
    + intros q s' H. apply findFunctionInChain_finds. by apply (calm_ready s).
Qed.

(** ** Calls *)

(** The function [fn] of the program [p] can be run for [obj]. *)
Definition callable (s : vm) (obj p : addr) (fn : FunctionEntry) : Prop :=
  ∃ own n, layout s obj = Some (own, n) ∧ function_of s own p fn.

Lemma still_callable s s' obj p fn : still s s' → callable s obj p fn → callable s' obj p fn.
Proof.
  intros H (own & n & Hl & Hf). exists own, n. rewrite (still_layout s s') by done. split; [done|]. by apply (still_function s).
Qed.

Definition runs_agree (run1 run2 : runner) : Prop := ∀ p fn args obj s, ready s → callable s obj p fn →
  agree (run1 p fn args obj) (run2 p fn args obj) s.

Definition closures_agree (closure1 closure2 : applier) : Prop := ∀ cl args s, ready s →
  agree (closure1 cl args) (closure2 cl args) s.

(** What the built-in functions promise: to keep what is relied on, also when
    they call back; and there is no memory for 2^31 values. *)
Class EfunLaws {E : Efuns} := {
  efun_keeps : ∀ run1 run2 closure1 closure2 n name args s,
    runs_agree run1 run2 → closures_agree closure1 closure2 → ready s →
    agree (efun_call run1 closure1 n name args) (efun_call run2 closure2 n name args) s;
  efun_pcre_laws :: @PcreLaws efun_pcre;
  stack_memory_small : stack_memory < 2 ^ 31;
}.

Section Calls.
Context {E : Efuns} {EL : EfunLaws} (run1 run2 : runner) (Hrun : runs_agree run1 run2)
  (closure1 closure2 : applier) (Hclosure : closures_agree closure1 closure2) (n : nat).

Lemma agree_found name obj own k s (q1 q2 : addr * FunctionEntry → V value) (none1 none2 : V value) :
  ready s → layout s obj = Some (own, k) →
  (∀ r s', still s s' → callable s' obj (fst r) (snd r) → agree (q1 r) (q2 r) s') →
  (∀ s', still s s' → agree none1 none2 s') →
  agree (let! r := findFunctionInChain n name own in match r with Some r => q1 r | None => none1 end)
        (let! r := findFunctionInChain n name own in match r with Some r => q2 r | None => none2 end) s.
Proof.
  intros Hr Hl Hq Hnone. eapply safe_bind; [eapply safe_weaken; [by apply findFunctionInChain_finds| |]; intros; [done|by eauto with kj]|].
  intros r s1 [H1 Hf]. eapply (safe_weaken _ _ s1 (λ _ s', keeps s1 s') _ (λ _ s', keeps s1 s')).
  2,3: intros ? s2 H2; by apply (calm_then_keeps s s1).
  destruct r as [[p fn]|]; [|apply Hnone, H1]. apply Hq; [apply H1|]. exists own, k.
  split; [rewrite (still_layout s s1); [done|apply H1]|by apply Hf].
Qed.

Lemma program_of_then {A} obj (k1 k2 : addr → V A) s : ready s →
  (∀ own m, layout s obj = Some (own, m) → agree (k1 own) (k2 own) s) →
  agree (vbind (program_of obj) k1) (vbind (program_of obj) k2) s.
Proof.
  intros Hr Hk. unfold program_of. eapply (safe_bind _ _ _ _ _ _ (λ own s', s' = s ∧ ∃ m, layout s obj = Some (own, m))).
  - eapply (safe_bind _ _ _ _ _ _ (λ o s', s' = s ∧ objects (world_ s) !! obj = Some o)).
    { apply (safe_found (objects (world_ s) !! obj) s). auto. }
    intros o s0 [-> Ho]. apply safe_ret. split; [done|]. unfold layout. rewrite Ho. simpl. by eexists.
  - intros own s0 [-> (m & Hl)]. by apply (Hk own m).
Qed.

Lemma agree_simul_efun name args builtin1 builtin2 s : ready s → (∀ s', still s s' → agree builtin1 builtin2 s') →
  agree (call_simul_efun run1 n name args builtin1) (call_simul_efun run2 n name args builtin2) s.
Proof.
  intros Hr Hb. unfold call_simul_efun.
  eapply (safe_bind _ _ _ _ _ _ (λ _ s', s' = s)); [by apply safe_reads|]. intros simul s0 ->.
  destruct simul as [ob|]; [|apply Hb; reflexivity]. apply program_of_then; [done|]. intros own m Hl.
  apply (agree_found name ob own m s (λ r, with_origin OSimulEfun (run_found run1 r args ob))
    (λ r, with_origin OSimulEfun (run_found run2 r args ob))); [done|done| |done].
  intros r s1 H1 Hc. apply agree_with_origin; [by apply (still_ready s)|]. intros s2 H2. apply Hrun.
  - apply (still_ready s1); [done|by apply (still_ready s)].
  - by apply (still_callable s1).
Qed.

Lemma agree_call_named obj name args s : ready s →
  agree (call_named run1 closure1 n obj name args) (call_named run2 closure2 n obj name args) s.
Proof.
  intros Hr. unfold call_named. apply program_of_then; [done|]. intros own m Hl.
  apply (agree_found name obj own m s (λ r, with_origin OLocal (run_found run1 r args obj))
    (λ r, with_origin OLocal (run_found run2 r args obj))); [done|done| |].
  - intros r s1 H1 Hc. apply agree_with_origin; [by apply (still_ready s)|]. intros s2 H2. apply Hrun.
    + apply (still_ready s1); [done|by apply (still_ready s)].
    + by apply (still_callable s1).
  - intros s1 H1. assert (ready s1) as Hr1 by by apply (still_ready s). apply agree_simul_efun; [done|]. intros s2 H2.
    assert (ready s2) by by apply (still_ready s1).
    unfold call_builtin. destruct (efun_exists name); [by apply efun_keeps|]. by apply quiet_agree; [apply quiet_raise|].
Qed.
End Calls.
