(* ===== verification/MachineChecks.v ===== *)
(** * MachineChecks: verified code passes the checks of the machine

    The machine checks at run time what the code generator promises
    ([Verified]): that there are operands on the stack, that counts, indices
    and targets are in range, that what is closed was opened.  On verified
    code none of these checks fails, whatever it calls and whatever errors
    it catches. *)

From S2P Require Import Prelude Doubles Values Config Uids Objects ObjectManager Verified Bytecode Operators Sscanf SscanfSpec Machine MachineLogic.
Open Scope Z_scope.

(** ** Rules for handlers *)

Section Handlers.
Context {E : Efuns} {EL : EfunLaws} (f1 f2 : raised → raised).
Implicit Types (f : frame) (s : vm).

Abbreviation post A := (A → frame * vm → Prop).
Abbreviation error_post := (raised → frame * vm → Prop).

Lemma bind_need {A} n msg (k1 k2 : unit → St A) f s (Q : post A) (X : error_post) : n ≤ size (localStack f) →
  safe (k1 tt) (k2 tt) (f, s) Q X → safe (vbind (need f1 n msg) k1) (vbind (need f2 n msg) k2) (f, s) Q X.
Proof.
  intros Hn Hk. unfold need, safe, vbind, of_frame, reads, check. cbv beta iota zeta. by rewrite (proj2 (Z.leb_le _ _)).
Qed.

Lemma bind_check {A} b msg (k1 k2 : unit → St A) f s (Q : post A) (X : error_post) : b = true →
  safe (k1 tt) (k2 tt) (f, s) Q X → safe (vbind (check f1 b msg) k1) (vbind (check f2 b msg) k2) (f, s) Q X.
Proof. intros ->. done. Qed.

Lemma bind_of_frame {A B} (g : frame → B) (k1 k2 : B → St A) f s (Q : post A) (X : error_post) :
  safe (k1 (g f)) (k2 (g f)) (f, s) Q X → safe (vbind (of_frame g) k1) (vbind (of_frame g) k2) (f, s) Q X.
Proof. done. Qed.

Lemma bind_set_frame {A} g (k1 k2 : unit → St A) f s (Q : post A) (X : error_post) :
  safe (k1 tt) (k2 tt) (g f, s) Q X → safe (vbind (set_frame g) k1) (vbind (set_frame g) k2) (f, s) Q X.
Proof. done. Qed.

Lemma bind_found {A B} (o : option B) (k1 k2 : B → St A) f s (Q : post A) (X : error_post) :
  (∀ b, o = Some b → safe (k1 b) (k2 b) (f, s) Q X) → safe (vbind (found o) k1) (vbind (found o) k2) (f, s) Q X.
Proof. intros H. destruct o; [by apply H|done]. Qed.

Lemma bind_pop_back {A} (k1 k2 : value → St A) f s (Q : post A) (X : error_post) :
  (∀ v st, localStack f = v :: st → safe (k1 v) (k2 v) (f <| localStack := st |>, s) Q X) →
  safe (vbind pop_back k1) (vbind pop_back k2) (f, s) Q X.
Proof.
  intros H. unfold safe, vbind, pop_back. destruct (localStack f) as [|v st] eqn:Ef; [done|]. by apply (H v st).
Qed.

Lemma bind_on_vm {A B} (m1 m2 : V B) (k1 k2 : B → St A) f sb s (Q : post A) (X : error_post) :
  keeps sb s → agree m1 m2 s → (∀ e s', keeps sb s' → X e (f, s')) →
  (∀ b s', keeps sb s' → safe (k1 b) (k2 b) (f, s') Q X) → safe (vbind (on_vm m1) k1) (vbind (on_vm m2) k2) (f, s) Q X.
Proof.
  intros Hs [Em Hm] HX Hk. unfold safe, vbind, on_vm. rewrite Em. destruct (m2 s) as [[b|e| |] s']; try done.
  - apply Hk. by eapply keeps_trans.
  - split; [done|]. apply HX. by eapply keeps_trans.
Qed.

Lemma bind_object {A} a (k1 k2 : LpcObject → St A) f s (Q : post A) (X : error_post) :
  (∀ o, objects (world_ s) !! a = Some o → safe (k1 o) (k2 o) (f, s) Q X) →
  safe (vbind (on_vm (object a)) k1) (vbind (on_vm (object a)) k2) (f, s) Q X.
Proof.
  intros H. unfold safe, vbind, on_vm, object, found, give. destruct (objects (world_ s) !! a) as [o|]; [by apply H|done].
Qed.

Lemma bind_assoc {A B C} (m1 m2 : St C) (g1 g2 : C → St B) (k1 k2 : B → St A) st (Q : post A) (X : error_post) :
  safe (vbind m1 (λ x, vbind (g1 x) k1)) (vbind m2 (λ x, vbind (g2 x) k2)) st Q X →
  safe (vbind (vbind m1 g1) k1) (vbind (vbind m2 g2) k2) st Q X.
Proof. unfold safe, vbind. destruct (m1 st) as [[]], (m2 st) as [[]]; done. Qed.

Lemma bind_ret {A B} (b : B) (k1 k2 : B → St A) st (Q : post A) (X : error_post) :
  safe (k1 b) (k2 b) st Q X → safe (vbind (vret b) k1) (vbind (vret b) k2) st Q X.
Proof. done. Qed.

Lemma bind_constant {A B} (pool : list B) i msg (k1 k2 : B → St A) f s (Q : post A) (X : error_post) :
  0 ≤ i < size pool → (∀ b, safe (k1 b) (k2 b) (f, s) Q X) →
  safe (vbind (constant f1 pool i msg) k1) (vbind (constant f2 pool i msg) k2) (f, s) Q X.
Proof.
  intros Hi Hk. unfold constant, check. rewrite (proj2 (Z.leb_le _ _)), (proj2 (Z.ltb_lt _ _)) by lia. cbn [andb].
  unfold safe, vbind, vret, found, give. destruct (at_pos pool i) as [b|]; [by apply Hk|done].
Qed.

Lemma to_i32_in z : - 2 ^ 31 ≤ z < 2 ^ 31 → to_i32 z = z.
Proof. intros H. unfold to_i32. rewrite Z.mod_small; lia. Qed.

Lemma take_count_eq i f s : take_count i (f, s) =
  let n := argCount i + to_i32 (pendingVarargsDelta f) in
  if in_i32 n then (Val n, (f <| pendingVarargsDelta := 0 |>, s)) else (Undef, (f, s)).
Proof. unfold take_count, vbind, of_frame, reads. cbv beta iota zeta. by destruct (in_i32 _). Qed.

Lemma bind_take_count {A} i (k1 k2 : Z → St A) f s (Q : post A) (X : error_post) :
  - 2 ^ 31 ≤ pendingVarargsDelta f < 2 ^ 31 →
  (let n := argCount i + pendingVarargsDelta f in
   safe (k1 n) (k2 n) (f <| pendingVarargsDelta := 0 |>, s) Q X) →
  safe (vbind (take_count i) k1) (vbind (take_count i) k2) (f, s) Q X.
Proof.
  intros Hd Hk. unfold safe, vbind. rewrite take_count_eq, to_i32_in by done. cbv zeta in *.
  destruct (in_i32 _); [exact Hk|done].
Qed.

Lemma take_args_eq fault n msg f s : 0 ≤ n ≤ size (localStack f) →
  take_args fault n msg (f, s) = (Val (reverse (takez n (localStack f))), (f <| localStack ::= dropz n |>, s)).
Proof.
  intros Hn. unfold take_args, vbind, of_frame, reads, check. cbv beta iota zeta.
  by rewrite !(proj2 (Z.leb_le _ _)) by lia.
Qed.

Lemma bind_take_args {A} n msg (k1 k2 : list value → St A) f s (Q : post A) (X : error_post) :
  0 ≤ n ≤ size (localStack f) →
  (∀ xs, safe (k1 xs) (k2 xs) (f <| localStack ::= dropz n |>, s) Q X) →
  safe (vbind (take_args f1 n msg) k1) (vbind (take_args f2 n msg) k2) (f, s) Q X.
Proof. intros Hn Hk. unfold safe, vbind. rewrite !take_args_eq by done. apply Hk. Qed.

Lemma bind_pop_args {A} n (k1 k2 : list value → St A) f s (Q : post A) (X : error_post) :
  (∀ xs, safe (k1 xs) (k2 xs) (f <| localStack ::= dropz n |>, s) Q X) →
  safe (vbind (pop_args n) k1) (vbind (pop_args n) k2) (f, s) Q X.
Proof. intros Hk. apply Hk. Qed.

Lemma safe_finish v f s (Q : post unit) (X : error_post) :
  Q tt (f <| localStack ::= cons v |> <| ip ::= Nat.add 1 |>, s) → safe (finish_with v) (finish_with v) (f, s) Q X.
Proof. by split. Qed.

Lemma safe_advance n f s (Q : post unit) (X : error_post) :
  Q tt (f <| ip ::= Nat.add n |>, s) → safe (advance n) (advance n) (f, s) Q X.
Proof. by split. Qed.
End Handlers.

(** ** Frames *)

Section Function.
Context {E : Efuns} {EL : EfunLaws} (fault : raised → raised) (run1 run2 : runner) (Hrun : runs_agree run1 run2)
  (closure1 closure2 : applier) (Hclosure : closures_agree closure1 closure2) (fuel : nat).
Context (act : activation) (lo hi : nat) (slots : Z) (D : nat → shape).
Abbreviation c := (act_code act).
Context (Hc : program_ok c) (Hhi : (lo < hi ≤ length (prog_code c))%nat) (Hsound : sound id c slots lo hi D).
(** The state when the function started. *)
Context (s0 : vm).

(** What has been kept since then, but for the timers. *)
Definition carries (s : vm) : Prop := keeps s0 (s <| timeExpressionStack_ := timeExpressionStack_ s0 |>).

Record act_ok (s : vm) : Prop := {
  act_slots : ∃ own k, layout s (act_obj act) = Some (own, k) ∧ 0 ≤ act_base act ∧
    act_base act + size (Bytecode.objectVarNames c) ≤ Z.of_nat k ∧ inherits_from s own (act_program act);
  act_stack : act_obj act ∈ callStack_ s;
}.

(** The open [catch] frames, and how many local variables there are. *)
Definition parts (f : frame) : list (nat * nat) * Z := (catchFrames f, size (locals f)).

(** An open [catch] lands at a place of the right shape. *)
Inductive frames_ok : list (nat * nat) → list nat → Prop :=
  | frames_nil : frames_ok [] []
  | frames_cons r d t fs cs : (lo ≤ r < hi)%nat → D r = Shape (S d) cs t Ready → frames_ok fs cs →
      frames_ok ((r, d) :: fs) (t :: cs).

Definition timers_ok (t : nat) (cs : list nat) (s : vm) : Prop :=
  (length (timeExpressionStack_ s0) + t + sum_list cs ≤ length (timeExpressionStack_ s))%nat.

(** The frame has the shape [sh]; what has been spread is on the stack besides. *)
Record fits (sh : shape) (f : frame) (s : vm) : Prop := {
  fits_stack : size (localStack f) = Z.of_nat (stack sh) + pendingVarargsDelta f;
  fits_mode : match awaits sh with
              | Ready => pendingVarargsDelta f = 0
              | Spread a b => a = b ∧ 0 ≤ a ∧ -1 ≤ pendingVarargsDelta f < 2 ^ 31 ∧
                  ∀ j, prog_code c !! ip f = Some j → op j ≠ ExpandVarargs
              | _ => False
              end;
  fits_frames : frames_ok (catchFrames f) (catches sh);
  fits_timers : timers_ok (timers sh) (catches sh) s;
}.

Record good (f : frame) (s : vm) : Prop := {
  good_ip : (lo ≤ ip f < hi)%nat;
  good_fits : fits (D (ip f)) f s;
  good_locals : size (locals f) = slots;
  good_act : act_ok s;
  good_ready : ready s;
  good_carries : carries s;
}.

Definition catchable (e : raised) : bool :=
  match e with LpcError _ | LpcThrownValue _ => true | _ => false end.

(** What is left when an instruction raises [e]. *)
Definition raised_ok (e : raised) (st : frame * vm) : Prop :=
  act_ok (snd st) ∧ ready (snd st) ∧ carries (snd st) ∧ timers_ok 0 [] (snd st) ∧
  (catchable e = true → pendingVarargsDelta (fst st) = 0 ∧ size (locals (fst st)) = slots ∧
     ∃ t cs, frames_ok (catchFrames (fst st)) cs ∧ timers_ok t cs (snd st)).

(** Running [i] leads on, or returns. *)
Definition continues (r : option value) (st : frame * vm) : Prop :=
  match r with
  | None => good (fst st) (snd st)
  | Some _ => act_ok (snd st) ∧ ready (snd st) ∧ carries (snd st) ∧ timers_ok 0 [] (snd st)
  end.

Definition fine (m1 m2 : St (option value)) (f : frame) (s : vm) : Prop := safe m1 m2 (f, s) continues raised_ok.

(** *** Moving on *)

Lemma act_ok_keeps s s' : keeps s s' → act_ok s → act_ok s'.
Proof.
  intros [_ [_ xp xk _ xo _]] [(own & k & Hl & Hb & Hk & Hi) Hst]. split; [|by rewrite xk].
  destruct (xo _ _ _ Hst Hl) as (k' & Hl' & ?). exists own, k'. split_and!; [done|done|lia|].
  revert Hi. apply rtc_subrel. intros x y (prog & ? & ?). exists prog. split; [by eapply lookup_weaken|done].
Qed.

Lemma carries_keeps s s' : carries s → keeps s s' → carries s'.
Proof.
  intros Hcar [Hr [xc xp xk xg xo xt]]. eapply keeps_trans; [exact Hcar|]. split.
  - by apply (ready_call_stack s').
  - split; try done.
Qed.

Lemma timers_keeps t cs s s' : keeps s s' → timers_ok t cs s → timers_ok t cs s'.
Proof. intros [_ [_ _ _ _ _ xt]]. unfold timers_ok. lia. Qed.

(** The frame after an instruction that leaves [catch] and the timers alone. *)
Record landed (k : nat) (f : frame) (s : vm) (f' : frame) (s' : vm) : Prop := {
  landed_ip : ip f' = k;
  landed_stack : length (localStack f') = stack (D k);
  landed_delta : pendingVarargsDelta f' = 0;
  landed_parts : parts f' = parts f;
  landed_keeps : keeps s s';
}.

Definition failed (f : frame) (s : vm) (e : raised) (st : frame * vm) : Prop :=
  pendingVarargsDelta (fst st) = 0 ∧ parts (fst st) = parts f ∧ keeps s (snd st).

Lemma failed_raised f s e st : good f s → failed f s e st → raised_ok e st.
Proof.
  intros [Hip [_ _ Hfr Ht] Hloc Ha Hr Hcar] (Hd & [= Hcf Hls] & Hk). destruct st as [f' s']. cbn [fst snd] in *.
  split_and!; [by eapply act_ok_keeps|apply Hk|by eapply carries_keeps| |].
  - eapply timers_keeps; [done|]. unfold timers_ok in *. simpl. lia.
  - intros _. cbn [fst snd]. split; [done|]. split; [by rewrite Hls|]. rewrite Hcf. eexists _, _. split; [done|]. by eapply timers_keeps.
Qed.

Lemma landed_good k f s f' s' : good f s → (lo ≤ k < hi)%nat → awaits (D k) = Ready →
  catches (D k) = catches (D (ip f)) → timers (D k) = timers (D (ip f)) → landed k f s f' s' → good f' s'.
Proof.
  intros [Hip [_ _ Hfr Ht] Hloc Ha Hr Hcar] Hk Hw Hcs Hts [<- Hst Hd [= Hcf Hls] Hkeep]. split.
  - done.
  - split; [unfold size; lia|by rewrite Hw| |].
    + by rewrite Hcf, Hcs.
    + rewrite Hcs, Hts. by eapply timers_keeps.
  - by rewrite Hls.
  - by eapply act_ok_keeps.
  - apply Hkeep.
  - by eapply carries_keeps.
Qed.

Lemma continue_fine m1 m2 k f s : good f s → (lo ≤ k < hi)%nat → awaits (D k) = Ready →
  catches (D k) = catches (D (ip f)) → timers (D k) = timers (D (ip f)) →
  safe m1 m2 (f, s) (λ _ st, landed k f s (fst st) (snd st)) (failed f s) →
  fine (continue m1) (continue m2) f s.
Proof.
  intros Hg Hk Hw Hcs Hts Hm. unfold fine, continue. eapply safe_bind.
  - eapply safe_weaken; [exact Hm|intros ? st H; exact H|]. intros e st. by apply failed_raised.
  - intros _ [f' s'] H. apply safe_ret. by eapply landed_good.
Qed.

(** *** Instructions in place *)

Lemma pops_some k d d' : pops k d = Some d' → d = (k + d')%nat.
Proof. revert d. induction k as [|k IH]; intros d; simpl; [by intros [= ->]|]. destruct d; [done|]. intros H%IH. lia. Qed.

Lemma code_at k : (k < hi)%nat → is_Some (prog_code c !! k).
Proof. intros. apply lookup_lt_is_Some. lia. Qed.

(** Leaves the mode, [catch] and the timers alone, and ends where it began. *)
Definition plain (o : OpCode) : bool :=
  match o with
  | MakeArray | Call | CallEfun | CallParent | CallParentQualifierSlot | SscanfVarSlot | ExpandVarargs | Sscanf
  | PushCatchFrame | PopCatchFrame | TimeExpressionStart | TimeExpressionEnd
  | Jump | Return | CallApply | Halt | Suspend => false
  | _ => true
  end.

Record moved (n m : nat) (f : frame) (s : vm) (f' : frame) (s' : vm) : Prop := {
  moved_ip : ip f' = S (ip f);
  moved_stack : (length (localStack f') + n = length (localStack f) + m)%nat;
  moved_delta : pendingVarargsDelta f' = 0;
  moved_parts : parts f' = parts f;
  moved_keeps : keeps s s';
}.

Lemma sound_at f s i : good f s → prog_code c !! ip f = Some i →
  operand_ok id (limits_of c slots) i ∧ flows D (ip f) i ∧ (falls_through (op i) = true → (S (ip f) < hi)%nat) ∧
  ∀ sh, jump_shape i (D (ip f)) = Some sh → ∃ t, (lo ≤ t < hi)%nat ∧ operand i = id (Z.of_nat t) ∧ D t = sh.
Proof. intros Hg Hi. by apply Hsound; [apply Hg|]. Qed.

Lemma next_plain i sh sh' : plain (op i) = true → next i sh = Some sh' →
  ∃ n m, effect i = Some (n, m) ∧ awaits sh = Ready ∧ awaits sh' = Ready ∧ catches sh' = catches sh ∧
    timers sh' = timers sh ∧ (stack sh' + n = stack sh + m)%nat ∧ (n ≤ stack sh)%nat ∧ counts_ok i = true.
Proof.
  intros Hp. unfold next. destruct (effect i) as [[n m]|] eqn:He; [|done]. cbn.
  destruct (pops n (stack sh)) as [d|] eqn:Ed; [|done]. apply pops_some in Ed. cbn.
  assert (frames_after (op i) sh = Some (catches sh, timers sh)) as -> by by destruct (op i), sh as [? [] [] ?].
  cbn. destruct (mode_after i (awaits sh)) as [w|] eqn:Ew; [|done]. cbn. destruct (counts_ok i); [|done]. intros [= <-].
  assert (awaits sh = Ready ∧ w = Ready) as [-> ->].
  { unfold mode_after, after, takes_spread in Ew. destruct (awaits sh), (op i); simplify_eq; try done. }
  exists n, m. split_and!; try done; cbn; lia.
Qed.

Lemma plain_fine i m1 m2 f s : good f s → prog_code c !! ip f = Some i → plain (op i) = true →
  (∀ n m, effect i = Some (n, m) → (n ≤ length (localStack f))%nat → pendingVarargsDelta f = 0 → counts_ok i = true →
     safe m1 m2 (f, s) (λ _ st, moved n m f s (fst st) (snd st)) (failed f s)) →
  fine (continue m1) (continue m2) f s.
Proof.
  intros Hg Hi Hp Hm. destruct (sound_at f s i Hg Hi) as (_ & Hfl & Hft & _).
  assert (next i (D (ip f)) = Some (D (S (ip f)))) as Hn by (unfold flows in Hfl; by destruct (op i)).
  destruct (next_plain _ _ _ Hp Hn) as (a & b & He & Hw & Hw' & Hcs & Hts & Hst & Hle & Hco).
  pose proof (good_fits _ _ Hg) as [Hstk Hmode _ _]. rewrite Hw in Hmode. unfold size in Hstk.
  apply (continue_fine m1 m2 (S (ip f))); try done.
  - assert (falls_through (op i) = true) as H%Hft by by destruct (op i). pose proof (good_ip _ _ Hg). lia.
  - eapply safe_weaken; [apply (Hm a b); try done; lia| |done].
    intros _ [f' s'] [H1 H2 H3 H4 H5]. split; try done. cbn [fst snd] in *. lia.
Qed.

Lemma jump_fine t f s : good f s → D t = Shape (stack (D (ip f))) (catches (D (ip f))) (timers (D (ip f))) Ready →
  awaits (D (ip f)) = Ready → (lo ≤ t < hi)%nat → good (f <| ip := t |>) s.
Proof.
  intros [Hip [Hst Hm Hfr Ht] Hloc Ha Hr Hcar] Hsh Hw Ht'. rewrite Hw in Hm. split; try done. change (ip (f <| ip := t |>)) with t. rewrite Hsh. by split.
Qed.

(** *** Instructions that change only the stack *)

(** One step of a handler. *)
Ltac kept := solve [eassumption | by apply keeps_refl | eauto with kj].
Ltac ready_now := first [assumption | match goal with H : keeps _ ?s |- ready ?s => apply H end].
Ltac settled := solve [split_and!; simpl; try done; kept | split; simpl in *; try done; try lia; kept].
Ltac handler_step s :=
  match goal with
  | |- safe (vbind (need _ _ _) _) _ _ _ _ => apply bind_need; [unfold size; simpl in *; lia|]
  | |- safe (vbind pop_back _) _ _ _ _ => apply bind_pop_back; let H := fresh in intros ? ? H; simpl in H; subst
  | |- safe (vbind (of_frame _) _) _ _ _ _ => apply bind_of_frame
  | |- safe (vbind (set_frame _) _) _ _ _ _ => apply bind_set_frame
  | |- safe (vbind (push _) _) _ _ _ _ => apply bind_set_frame
  | |- safe (vbind (found _) _) _ _ _ _ => apply bind_found; intros ? ?
  | |- safe (vbind (on_vm _) _) _ _ _ _ =>
      eapply (bind_on_vm _ _ _ _ _ s); [kept|apply quiet_agree; [eauto with quiet|ready_now]|intros; settled|intros]
  | |- safe (vbind (vbind _ _) _) _ _ _ _ => apply bind_assoc
  | |- safe (vbind (vret _) _) _ _ _ _ => apply bind_ret
  | |- safe (raise _) _ _ _ _ => apply safe_raise; settled
  | |- safe (lpc_error _) _ _ _ _ => apply safe_raise; settled
  | |- safe (finish_with _) _ _ _ _ => apply safe_finish; settled
  | |- safe (advance _) _ _ _ _ => apply safe_advance; settled
  end.
Ltac handler s := repeat handler_step s.

Section Plain.
Context (f : frame) (s : vm) (i : Instruction) (Hr : ready s) (Hd : pendingVarargsDelta f = 0).
Abbreviation behaves h1 h2 a b := (safe h1 h2 (f, s) (λ _ st, moved a b f s (fst st) (snd st)) (failed f s)).

Lemma push_behaves v : behaves (finish_with v) (finish_with v) 0%nat 1%nat.
Proof. handler s. Qed.

Lemma slot_in_frame o : 0 ≤ o < slots → size (locals f) = slots → slot_ok o (locals f) = true.
Proof. intros Ho Hl. unfold slot_ok. apply andb_true_iff. rewrite Z.leb_le, Z.ltb_lt. lia. Qed.

Lemma parts_local o v : parts (f <| locals ::= <[o := v]> |>) = parts f.
Proof. unfold parts, size. simpl. by rewrite length_insert. Qed.

Lemma push_local_behaves : 0 ≤ operand i < slots → size (locals f) = slots →
  behaves (push_local fault i) (push_local id i) 0%nat 1%nat.
Proof.
  intros Ho Hl. unfold push_local. apply bind_of_frame, bind_check; [by apply slot_in_frame|].
  apply bind_found. intros v Hv. handler_step s. apply bind_set_frame, safe_finish. split; simpl; try done; try lia; try kept.
  apply parts_local.
Qed.

Lemma store_local_behaves : 0 ≤ operand i < slots → size (locals f) = slots → (1 ≤ length (localStack f))%nat →
  behaves (store_local fault i) (store_local id i) 1%nat 0%nat.
Proof.
  intros Ho Hl Hst. unfold store_local. apply bind_of_frame, bind_check; [by apply slot_in_frame|].
  apply bind_need; [unfold size; lia|]. apply bind_pop_back. intros v st Hv. apply bind_set_frame, safe_advance.
  split; simpl; try done; try kept; [rewrite Hv; simpl; lia|].
  apply (parts_local (Z.to_nat (operand i)) v).
Qed.

Lemma binary_behaves o : (2 ≤ length (localStack f))%nat → behaves (binary fault o) (binary id o) 2%nat 1%nat.
Proof.
  intros Hl. destruct f as [k st ls d cfs]. unfold binary. handler s.
  intros s1. exact (quiet_on_heap _ s1).
Qed.

Lemma unary_behaves msg g : (1 ≤ length (localStack f))%nat → behaves (unary fault msg g) (unary id msg g) 1%nat 1%nat.
Proof. intros Hl. destruct f as [k st ls d cfs]. unfold unary. handler s. Qed.

Lemma index_behaves : (if has_map_column i then 3 else 2) ≤ size (localStack f) →
  behaves (index fault i) (index id i) (if has_map_column i then 3 else 2)%nat 1%nat.
Proof.
  intros Hl. destruct f as [k st ls d cfs]. unfold index, pop_column. apply bind_need; [done|].
  unfold size in Hl. destruct (has_map_column i); handler s.
Qed.

Lemma index_assign_behaves : (if has_map_column i then 4 else 3) ≤ size (localStack f) →
  behaves (index_assign fault i) (index_assign id i) (if has_map_column i then 4 else 3)%nat 0%nat.
Proof.
  intros Hl. destruct f as [k st ls d cfs]. unfold index_assign, pop_column. apply bind_need; [done|].
  unfold size in Hl. destruct (has_map_column i); handler s.
Qed.

Lemma range_index_behaves : (3 ≤ length (localStack f))%nat → behaves (range_index fault i) (range_index id i) 3%nat 1%nat.
Proof. intros Hl. destruct f as [k st ls d cfs]. unfold range_index. handler s. Qed.

Lemma pop_behaves : (1 ≤ length (localStack f))%nat → behaves pop pop 1%nat 0%nat.
Proof. intros Hl. destruct f as [k [|v st] ls d cfs]; [simpl in Hl; lia|]. unfold pop. handler s. Qed.

Lemma dup_behaves : (1 ≤ length (localStack f))%nat → behaves (dup fault) (dup id) 1%nat 2%nat.
Proof. intros Hl. destruct f as [k st ls d cfs]. unfold dup. handler s. Qed.

Lemma constant_behaves {A} (pool : list A) msg (g : A → value) : 0 ≤ operand i < size pool →
  behaves (let! x := constant fault pool (operand i) msg in finish_with (g x))
          (let! x := constant id pool (operand i) msg in finish_with (g x)) 0%nat 1%nat.
Proof. intros Hp. apply bind_constant; [done|]. intros x. handler s. Qed.

(** A variable of the object. *)
Lemma slot_in_object o slot : act_ok s → objects (world_ s) !! act_obj act = Some o →
  0 ≤ slot < size (Bytecode.objectVarNames c) →
  slot_ok slot (variables_ o) = true ∧ slot_ok (act_base act + slot) (variables_ o) = true.
Proof.
  intros [(own & k & Hl & Hb & Hk & _) _] Ho Hs. unfold layout in Hl. rewrite Ho in Hl. simplify_eq/=.
  unfold slot_ok. split; apply andb_true_iff; rewrite Z.leb_le, Z.ltb_lt; unfold size in *; lia.
Qed.

Lemma push_object_var_behaves : act_ok s → 0 ≤ operand i < size (Bytecode.objectVarNames c) →
  behaves (push_object_var fault act i) (push_object_var id act i) 0%nat 1%nat.
Proof.
  intros Ha Hop. unfold push_object_var. apply bind_object. intros o Ho. cbv zeta.
  apply bind_check; [by eapply slot_in_object|]. handler s.
Qed.

Lemma store_object_var_behaves : act_ok s → 0 ≤ operand i < size (Bytecode.objectVarNames c) →
  (1 ≤ length (localStack f))%nat →
  behaves (store_object_var fault act i) (store_object_var id act i) 1%nat 0%nat.
Proof.
  intros Ha Hop Hl. unfold store_object_var. apply bind_object. intros o Ho. cbv zeta.
  apply bind_check; [by eapply slot_in_object|]. destruct f as [k st ls d cfs]. handler s.
Qed.

Lemma length_dropz {A} k (l : list A) : 0 ≤ k ≤ size l → length (dropz k l) = (length l - Z.to_nat k)%nat.
Proof. unfold dropz, size. intros Hk. case_match; prop_tests; rewrite ?length_drop; simpl; lia. Qed.

Lemma push_closure_behaves b : 0 ≤ operand i < size (stringPool c) → 0 ≤ argCount i ≤ size (localStack f) →
  behaves (push_closure fault act i b) (push_closure id act i b) (Z.to_nat (argCount i)) 1%nat.
Proof.
  intros Hp Ha. unfold push_closure. apply bind_constant; [done|]. intros name. apply bind_take_args; [done|]. intros xs.
  eapply (bind_on_vm _ _ _ _ _ s); [kept|apply quiet_agree; [apply quiet_on_heap|done]|intros; settled|intros v s' Hk].
  apply safe_finish. split; simpl; try done. rewrite length_dropz by done. unfold size in Ha. lia.
Qed.

Lemma make_mapping_behaves : 0 ≤ argCount i → 1 ≤ operand i →
  (Z.to_nat (argCount i) * S (Z.to_nat (operand i)) ≤ length (localStack f))%nat →
  behaves (make_mapping fault i) (make_mapping id i) (Z.to_nat (argCount i) * S (Z.to_nat (operand i)))%nat 1%nat.
Proof.
  intros Ha Ho Hl. unfold make_mapping. apply bind_take_count; [rewrite Hd; lia|]. rewrite Hd, Z.add_0_r. cbv zeta.
  rewrite (proj2 (Z.ltb_ge _ _)) by lia. apply bind_of_frame.
  assert (0 ≤ (operand i + 1) * argCount i ≤ size (localStack f)) as Hsz.
  { unfold size. assert (Z.of_nat (Z.to_nat (argCount i) * S (Z.to_nat (operand i))) ≤ Z.of_nat (length (localStack f))) as H by lia.
    rewrite Nat2Z.inj_mul, Nat2Z.inj_succ, !Z2Nat.id in H by lia. lia. }
  apply bind_check. { simpl. rewrite !(proj2 (Z.leb_le _ _)) by lia. done. }
  apply bind_pop_args. intros xs.
  eapply (bind_on_vm _ _ _ _ _ s); [kept|apply quiet_agree; [apply quiet_on_heap|done]|intros; settled|intros v s' Hk].
  apply safe_finish. split; simpl; try done. rewrite length_dropz by done.
  assert (Z.to_nat ((operand i + 1) * argCount i) = Z.to_nat (argCount i) * S (Z.to_nat (operand i)))%nat as ->; [|lia].
  rewrite Z2Nat.inj_mul, Z2Nat.inj_add by lia. lia.
Qed.
End Plain.

Lemma plain_execute f s i : good f s → prog_code c !! ip f = Some i → plain (op i) = true → op i ≠ JumpIfFalse →
  fine (execute fault run1 closure1 fuel act i) (execute id run2 closure2 fuel act i) f s.
Proof.
  intros Hg Hi Hp Hj. pose proof (good_ready _ _ Hg) as Hr. pose proof (good_act _ _ Hg) as Ha. pose proof (good_locals _ _ Hg) as Hloc.
  destruct (sound_at f s i Hg Hi) as (Hop & _ & _ & _). unfold operand_ok in Hop.
  unfold execute. destruct (op i) eqn:Eo; try done; try apply denotes_range in Hop.
  all: rewrite <- Eo in Hp; apply (plain_fine i _ _ f s Hg Hi Hp); intros a b He Hl Hd Hco;
    unfold effect in He; rewrite Eo in He; injection He as <- <-; unfold counts_ok in Hco; rewrite Eo in Hco; prop_tests.
  all: first [ by apply push_behaves | by apply (constant_behaves f s i Hr Hd) | by apply push_local_behaves
    | by apply store_local_behaves | by apply push_object_var_behaves | by apply store_object_var_behaves
    | by apply binary_behaves | by apply unary_behaves | by apply range_index_behaves
    | by apply pop_behaves | by apply dup_behaves | by apply make_mapping_behaves
    | apply push_closure_behaves; [done..|unfold size; lia] | idtac ].
  all: first [refine (index_behaves f s i Hr Hd _)|refine (index_assign_behaves f s i Hr Hd _)].
  all: unfold size, has_map_column, flag; cbn [Z.testbit]; revert Hl; case_match; lia.
Qed.

(** *** Jumps, frames and timers *)

Lemma continue_good m1 m2 f s : safe m1 m2 (f, s) (λ _ st, good (fst st) (snd st)) raised_ok →
  fine (continue m1) (continue m2) f s.
Proof. intros H. unfold fine, continue. eapply safe_bind; [exact H|]. intros _ [f' s'] Hg. by apply safe_ret. Qed.

(** The shape where [i] leads on. *)
Lemma falls f s i : good f s → prog_code c !! ip f = Some i → falls_through (op i) = true →
  next i (D (ip f)) = Some (D (S (ip f))) ∧ (lo ≤ S (ip f) < hi)%nat.
Proof.
  intros Hg Hi Hft. destruct (sound_at f s i Hg Hi) as (_ & Hfl & H & _). pose proof (good_ip _ _ Hg).
  split; [|specialize (H Hft); lia]. unfold flows in Hfl. by destruct (op i).
Qed.

Lemma next_inv i sh sh' : next i sh = Some sh' → ∃ n m d t cs w,
  effect i = Some (n, m) ∧ stack sh = (n + d)%nat ∧ frames_after (op i) sh = Some (cs, t) ∧
  mode_after i (awaits sh) = Some w ∧ counts_ok i = true ∧ sh' = Shape (m + d) cs t w.
Proof.
  unfold next. destruct (effect i) as [[n m]|]; [|done]. cbn. destruct (pops n (stack sh)) as [d|] eqn:Ed; [|done].
  apply pops_some in Ed. cbn. destruct (frames_after (op i) sh) as [[cs t]|]; [|done]. cbn.
  destruct (mode_after i (awaits sh)) as [w|]; [|done]. cbn. destruct (counts_ok i); [|done]. intros [= <-].
  by exists n, m, d, t, cs, w.
Qed.

Lemma target_in_code t : (t < hi)%nat → Machine.target_ok act (Z.of_nat t) = true.
Proof. intros Ht. unfold Machine.target_ok. apply andb_true_iff. rewrite !Z.leb_le. unfold size. lia. Qed.

Lemma jump_good t f s : good f s → awaits (D (ip f)) = Ready → (lo ≤ t < hi)%nat →
  D t = Shape (stack (D (ip f))) (catches (D (ip f))) (timers (D (ip f))) Ready → good (f <| ip := t |>) s.
Proof. intros. by apply jump_fine. Qed.

Lemma jump_execute f s i : good f s → prog_code c !! ip f = Some i → op i = Jump →
  fine (continue (jump fault act i)) (continue (jump id act i)) f s.
Proof.
  intros Hg Hi Ho. destruct (sound_at f s i Hg Hi) as (_ & Hfl & _ & Hj).
  unfold flows, jump_shape in *. rewrite Ho in Hfl, Hj. destruct (Hj _ eq_refl) as (t & Ht & Hop & HD).
  apply continue_good. unfold jump. rewrite Hop. apply bind_check; [apply target_in_code; lia|].
  apply safe_changes. unfold id. rewrite Nat2Z.id. by apply jump_good.
Qed.

Lemma jump_if_false_execute f s i : good f s → prog_code c !! ip f = Some i → op i = JumpIfFalse →
  fine (continue (jump_if_false fault act i)) (continue (jump_if_false id act i)) f s.
Proof.
  intros Hg Hi Ho. destruct (sound_at f s i Hg Hi) as (_ & _ & _ & Hj).
  destruct (falls f s i Hg Hi) as [Hn Hk]; [by rewrite Ho|].
  destruct (next_plain i _ _ ltac:(by rewrite Ho) Hn) as (a & b & He & Hw & Hw' & Hcs & Hts & Hst & Hle & _).
  unfold effect in He. rewrite Ho in He. injection He as <- <-.
  pose proof (good_fits _ _ Hg) as [Hstk Hmode Hfr Htm]. rewrite Hw in Hmode. unfold size in Hstk.
  unfold jump_shape in Hj. rewrite Ho in Hj. destruct (stack (D (ip f))) as [|d] eqn:Ed; [lia|]. cbn in Hj.
  destruct (Hj _ eq_refl) as (t & Ht & Hop & HD).
  apply continue_good. unfold jump_if_false. apply bind_need; [unfold size; lia|]. apply bind_pop_back. intros v st Hv.
  rewrite Hv in Hstk. cbn [length] in Hstk.
  destruct (isTruthy v).
  - apply safe_advance. apply (landed_good (S (ip f)) f s); try done. split; simpl; try done; [lia|].
    apply keeps_refl, Hg.
  - apply bind_check; [rewrite Hop; apply target_in_code; lia|]. apply safe_changes. rewrite Hop. unfold id. rewrite Nat2Z.id.
    apply (landed_good t f s); try done; try (by rewrite HD).
    split; simpl; try done; [rewrite HD; simpl; lia|]. apply keeps_refl, Hg.
Qed.

(** In a frame that awaits nothing, nothing has been spread. *)
Lemma ready_frame f s i : good f s → mode_after i (awaits (D (ip f))) = Some Ready → takes_spread (op i) = false →
  awaits (D (ip f)) = Ready ∧ pendingVarargsDelta f = 0 ∧ length (localStack f) = stack (D (ip f)).
Proof.
  intros Hg Hm Ht. pose proof (good_fits _ _ Hg) as [Hstk Hmode _ _]. unfold size in Hstk.
  destruct (awaits (D (ip f))) eqn:Ew; try done; [split_and!; [done|done|lia]|].
  exfalso. unfold mode_after in Hm. destruct (op i); simpl in *; try done; by repeat case_match.
Qed.

Lemma push_catch_execute f s i : good f s → prog_code c !! ip f = Some i → op i = PushCatchFrame →
  fine (continue (push_catch_frame fault act i)) (continue (push_catch_frame id act i)) f s.
Proof.
  intros Hg Hi Ho. destruct (sound_at f s i Hg Hi) as (_ & _ & _ & Hj).
  destruct (falls f s i Hg Hi) as [Hn Hk]; [by rewrite Ho|].
  destruct (next_inv _ _ _ Hn) as (a & b & d & t & cs & w & He & Hst & Hf & Hm & _ & HD).
  unfold effect, frames_after, jump_shape in *. rewrite Ho in He, Hf, Hj. injection He as <- <-. injection Hf as <- <-.
  assert (w = Ready) as -> by (unfold mode_after, after in Hm; rewrite Ho in Hm; by destruct (awaits _); simplify_eq).
  destruct (ready_frame f s i Hg Hm) as (Hw & Hd & Hl); [by rewrite Ho|].
  destruct (Hj _ eq_refl) as (r & Hr & Hop & HDr).
  pose proof (good_fits _ _ Hg) as [_ _ Hfr Htm].
  apply continue_good. unfold push_catch_frame. rewrite Hop. apply bind_check; [apply target_in_code; lia|].
  apply bind_set_frame, safe_advance. unfold id. rewrite Nat2Z.id. destruct Hg. split; try done. simpl. rewrite HD. split; simpl.
  - unfold size. lia.
  - done.
  - apply frames_cons; [done| |done]. rewrite HDr. unfold Verified.push. by rewrite Hl.
  - unfold timers_ok in *. simpl. lia.
Qed.

Lemma pop_catch_execute f s i : good f s → prog_code c !! ip f = Some i → op i = PopCatchFrame →
  fine (continue (pop_catch_frame fault)) (continue (pop_catch_frame id)) f s.
Proof.
  intros Hg Hi Ho. destruct (falls f s i Hg Hi) as [Hn Hk]; [by rewrite Ho|].
  destruct (next_inv _ _ _ Hn) as (a & b & d & t & cs & w & He & Hst & Hf & Hm & _ & HD).
  unfold effect, frames_after in *. rewrite Ho in He, Hf. injection He as <- <-.
  assert (w = Ready) as -> by (unfold mode_after, after in Hm; rewrite Ho in Hm; by destruct (awaits _); simplify_eq).
  destruct (ready_frame f s i Hg Hm) as (Hw & Hd & Hl); [by rewrite Ho|].
  pose proof (good_fits _ _ Hg) as [_ _ Hfr Htm].
  destruct (catches (D (ip f))) as [|t' cs'] eqn:Ec; [done|]. destruct (timers (D (ip f))) eqn:Et; [|done].
  injection Hf as -> ->. inversion Hfr as [|r e ? fs ? Hr HDr Hfs Hcf]. subst.
  apply continue_good. unfold pop_catch_frame. apply bind_of_frame. rewrite <- Hcf.
  apply bind_check; [done|]. apply bind_set_frame, safe_finish. destruct Hg. split; try done. simpl. rewrite HD. split; simpl.
  - unfold size. simpl. lia.
  - done.
  - by rewrite <- Hcf.
  - unfold timers_ok in *. simpl in *. lia.
Qed.

(** A timer is opened or closed. *)
Lemma carries_timers s s' ts : carries s → ready s → (∀ ob, layout s' ob = layout s ob) →
  (∀ ob, places (world_ s') ob = places (world_ s) ob) → guards s' = guards s → codes s' = codes s →
  programs (world_ s') = programs (world_ s) → functionChainCache_ s' = functionChainCache_ s →
  callStack_ s' = callStack_ s → timeExpressionStack_ s' = ts → carries s' ∧ ready s' ∧ (act_ok s → act_ok s').
Proof.
  intros Hcar Hr Hl Hpl Hg Hc' Hp Hf Hk Ht. assert (ready s') as Hr' by by apply (ready_call_stack s).
  split_and!; [|done|].
  - eapply keeps_calm; [exact Hcar|]. split; [|done]. apply still_intro; try done.
  - intros [(own & k & Ho & Hb & Hs & Hi) Hst]. split; [|by rewrite Hk]. exists own, k. rewrite Hl. split_and!; try done.
    by apply (inherits_from_same s).
Qed.

Lemma time_start_execute f s i : good f s → prog_code c !! ip f = Some i → op i = TimeExpressionStart →
  fine (continue time_expression_start) (continue time_expression_start) f s.
Proof.
  intros Hg Hi Ho. destruct (falls f s i Hg Hi) as [Hn Hk]; [by rewrite Ho|].
  destruct (next_inv _ _ _ Hn) as (a & b & d & t & cs & w & He & Hst & Hf & Hm & _ & HD).
  unfold effect, frames_after in *. rewrite Ho in He, Hf. injection He as <- <-. injection Hf as <- <-.
  assert (w = Ready) as -> by (unfold mode_after, after in Hm; rewrite Ho in Hm; by destruct (awaits _); simplify_eq).
  destruct (ready_frame f s i Hg Hm) as (Hw & Hd & Hl); [by rewrite Ho|].
  pose proof (good_fits _ _ Hg) as [_ _ Hfr Htm]. destruct Hg.
  apply continue_good. split; [done|]. cbn. set (s' := _ : vm).
  destruct (carries_timers s s' (timeExpressionStack_ s')) as (? & ? & Ha); try done.
  split; try done; [|by apply Ha]. simpl. rewrite HD. split; simpl; [unfold size; lia|done|done|].
  unfold timers_ok in *. simpl. lia.
Qed.

Lemma time_end_execute f s i : good f s → prog_code c !! ip f = Some i → op i = TimeExpressionEnd →
  fine (continue (time_expression_end fault)) (continue (time_expression_end id)) f s.
Proof.
  intros Hg Hi Ho. destruct (falls f s i Hg Hi) as [Hn Hk]; [by rewrite Ho|].
  destruct (next_inv _ _ _ Hn) as (a & b & d & t & cs & w & He & Hst & Hf & Hm & _ & HD).
  unfold effect, frames_after in *. rewrite Ho in He, Hf. injection He as <- <-.
  assert (w = Ready) as -> by (unfold mode_after, after in Hm; rewrite Ho in Hm; by destruct (awaits _); simplify_eq).
  destruct (ready_frame f s i Hg Hm) as (Hw & Hd & Hl); [by rewrite Ho|].
  pose proof (good_fits _ _ Hg) as [_ _ Hfr Htm]. destruct Hg.
  destruct (timers (D (ip f))) as [|t'] eqn:Et; [by destruct (catches _)|].
  assert (cs = catches (D (ip f)) ∧ t = t') as [-> ->] by (destruct (catches (D (ip f))); by simplify_eq).
  apply continue_good. unfold timers_ok in *.
  destruct (timeExpressionStack_ s) as [|x ts] eqn:Es; [simpl in Htm; lia|].
  set (s' := s <| timeExpressionStack_ ::= tail |> <| readings ::= S |>).
  assert (∀ fl, time_expression_end fl (f, s) = (Val tt,
    (f <| localStack ::= cons (int_value (Z.quot (clock_at (readings s) - x) 1000)) |> <| ip ::= Nat.add 1 |>, s'))) as Heq.
  { intros fl. unfold time_expression_end, vbind, on_vm, reads. cbn. rewrite Es. rewrite bool_decide_eq_false_2 by done. reflexivity. }
  unfold safe. rewrite !Heq. split; [done|]. cbn [fst snd].
  destruct (carries_timers s s' (tail (timeExpressionStack_ s))) as (? & ? & Ha); try done.
  split; try done; [|by apply Ha]. simpl. rewrite HD. split; simpl; [unfold size; simpl; lia|done|done|].
  unfold timers_ok in *. simpl. rewrite Es. simpl in *. lia.
Qed.

(** *** Lists of arguments *)

Lemma size_takez {A} k (l : list A) : 0 ≤ k ≤ size l → size (takez k l) = k.
Proof. unfold takez, size. intros Hk. case_match; prop_tests; rewrite ?length_take; lia. Qed.

Lemma expand_execute f s i : good f s → prog_code c !! ip f = Some i → op i = ExpandVarargs →
  fine (continue (expand_varargs fault i)) (continue (expand_varargs id i)) f s.
Proof.
  intros Hg Hi Ho. destruct (falls f s i Hg Hi) as [Hn Hk]; [by rewrite Ho|].
  destruct (next_inv _ _ _ Hn) as (a & b & d & t & cs & w & He & Hst & Hf & Hm & Hco & HD).
  unfold effect, frames_after, counts_ok in *. rewrite Ho in He, Hf, Hco. injection He as <- <-. injection Hf as <- <-. prop_tests.
  pose proof (good_fits _ _ Hg) as [Hstk Hmode Hfr Htm].
  assert (awaits (D (ip f)) = Ready ∧ w = Spread (operand i) (operand i)) as [Hw ->].
  { unfold mode_after, after in Hm. rewrite Ho in Hm. destruct (awaits (D (ip f))); simplify_eq; try done.
    destruct Hmode as (_ & _ & _ & H). by destruct (H i Hi). }
  rewrite Hw in Hmode. rewrite Hst, Hmode in Hstk. clear Hm Hst.
  apply continue_good. unfold expand_varargs. apply bind_of_frame.
  apply bind_check. { apply andb_true_iff. rewrite Z.leb_le, Z.ltb_lt. lia. }
  apply bind_found. intros v Hv. destruct (vdata v); try (apply safe_raise; apply (failed_raised f s); [done|];
    by split_and!; [| |apply keeps_refl, Hg]).
  eapply (bind_on_vm _ _ _ _ _ s); [apply keeps_refl, Hg|apply quiet_agree; [apply quiet_on_heap|apply Hg]| |].
  { intros e s' Hk'. apply (failed_raised f s); [done|]. by split_and!. }
  intros xs s' Hk'. cbv zeta. set (st' := takez _ _ ++ _ ++ _).
  assert (size st' = size (localStack f) + (size xs - 1)) as Hsz.
  { unfold st'. rewrite !size_app, size_takez by lia. unfold size. rewrite length_reverse, length_dropz by lia. unfold size in *. lia. }
  destruct (Z.ltb_spec stack_memory (size st')) as [Hm|Hm].
  { apply safe_raise. apply (failed_raised f s); [done|]. by split_and!. }
  pose proof stack_memory_small as Hmem.
  assert (size xs ≤ size st') as Hxs.
  { unfold st'. rewrite !size_app. unfold size. rewrite length_reverse. lia. }
  apply bind_set_frame, safe_advance. destruct Hg. split; cbn [ip]; [done| |done|by eapply act_ok_keeps|apply Hk'|by eapply carries_keeps].
  change (ip _) with (S (ip f)) at 1. rewrite HD. pose proof (size_nonneg xs). split; simpl.
  - fold st'. rewrite Hsz, Hmode, Hstk. lia.
  - split_and!; [done|done|lia|lia|]. intros j Hj. exact (ok_spread _ Hc (ip f) i j Hi Hj Ho).
  - done.
  - by eapply timers_keeps.
Qed.

Definition taker (o : OpCode) : bool := match o with MakeArray | Call | CallEfun | CallParent => true | _ => false end.

(** The arguments that are on the stack. *)
Lemma taker_args f s i : good f s → prog_code c !! ip f = Some i → taker (op i) = true →
  let k := argCount i + pendingVarargsDelta f in
  - 2 ^ 31 ≤ pendingVarargsDelta f < 2 ^ 31 ∧ 0 ≤ k ≤ size (localStack f) ∧
  D (S (ip f)) = Shape (S (length (localStack f) - Z.to_nat k)) (catches (D (ip f))) (timers (D (ip f))) (after i) ∧
  (lo ≤ S (ip f) < hi)%nat.
Proof.
  intros Hg Hi Ht. assert (falls_through (op i) = true) as Hft by by destruct (op i).
  destruct (falls f s i Hg Hi Hft) as [Hn Hk].
  destruct (next_inv _ _ _ Hn) as (a & b & d & t & cs & w & He & Hst & Hf & Hm & Hco & HD).
  assert (a = Z.to_nat (argCount i) ∧ b = 1%nat) as [-> ->].
  { unfold effect in He. destruct (op i); by simplify_eq. }
  assert (cs = catches (D (ip f)) ∧ t = timers (D (ip f))) as [-> ->].
  { unfold frames_after in Hf. destruct (op i), (catches (D (ip f))), (timers (D (ip f))); by simplify_eq. }
  assert (0 ≤ argCount i) as Hac by (unfold counts_ok in Hco; destruct (op i); try done; by prop_tests).
  pose proof (good_fits _ _ Hg) as [Hstk Hmode _ _].
  assert (w = after i ∧ -1 ≤ pendingVarargsDelta f < 2 ^ 31 ∧ 0 ≤ argCount i + pendingVarargsDelta f) as (-> & Hd & Hpos).
  { unfold mode_after in Hm. destruct (awaits (D (ip f))) as [| |m|fi la]; [|by destruct (op i)..|].
    - rewrite Hmode. split; [by destruct (op i); simplify_eq|lia].
    - destruct Hmode as (-> & ? & ? & _).
      assert ((if takes_spread (op i) && (la <? argCount i) then Some (after i) else None) = Some w) as Hm' by by destruct (op i).
      destruct (takes_spread (op i) && (la <? argCount i)) eqn:Eb; [|done]. prop_tests. simplify_eq. split_and!; done || lia. }
  cbv zeta. split_and!; try done; try lia. rewrite HD. f_equal. unfold size in *. lia.
Qed.

(** A call, or a list, that takes its arguments off the stack. *)
Lemma taker_fine i k (rest1 rest2 : Z → St unit) f s : good f s → prog_code c !! ip f = Some i → taker (op i) = true →
  (∀ f', parts f' = parts f → pendingVarargsDelta f' = 0 → ip f' = ip f → localStack f' = localStack f →
     let argc := argCount i + pendingVarargsDelta f in 0 ≤ argc ≤ size (localStack f) →
     safe (rest1 argc) (rest2 argc) (f', s) (λ _ st, ip (fst st) = k ∧
       S (length (localStack f) - Z.to_nat argc) = length (localStack (fst st)) ∧
       pendingVarargsDelta (fst st) = 0 ∧ parts (fst st) = parts f ∧ keeps s (snd st)) (failed f s)) →
  (lo ≤ k < hi)%nat → D k = Shape (stack (D (S (ip f)))) (catches (D (S (ip f)))) (timers (D (S (ip f)))) Ready →
  safe (let! argc := take_count i in rest1 argc) (let! argc := take_count i in rest2 argc) (f, s)
    (λ _ st, good (fst st) (snd st)) raised_ok.
Proof.
  intros Hg Hi Ht Hrest Hk HDk. destruct (taker_args f s i Hg Hi Ht) as (Hd & Hargc & HD & _). rewrite HD in HDk. cbn in HDk.
  apply bind_take_count; [done|]. cbv zeta in *. eapply safe_weaken; [by apply Hrest| |].
  - intros _ [f' s'] (H1 & H2 & H3 & H4 & H5). cbn [fst snd] in *.
    apply (landed_good k f s); try done; try (by rewrite HDk). split; try done. rewrite HDk. cbn [stack]. lia.
  - intros e st. by apply failed_raised.
Qed.

Lemma taker_next f s i : good f s → prog_code c !! ip f = Some i → taker (op i) = true → op i ≠ CallParent →
  (lo ≤ S (ip f) < hi)%nat ∧
  D (S (ip f)) = Shape (stack (D (S (ip f)))) (catches (D (S (ip f)))) (timers (D (S (ip f)))) Ready.
Proof.
  intros Hg Hi Ht Hp. destruct (taker_args f s i Hg Hi Ht) as (_ & _ & -> & Hk). split; [done|]. cbn.
  f_equal. unfold after. by destruct (op i).
Qed.

(** The rest of a call, once its arguments are counted. *)
Lemma call_rest argc msg (m1 m2 : list value → V value) (g : value → value) f0 f s : ready s →
  parts f = parts f0 → pendingVarargsDelta f = 0 → ip f = ip f0 → localStack f = localStack f0 →
  0 ≤ argc ≤ size (localStack f0) → (∀ args, agree (m1 args) (m2 args) s) → ∀ k (next : St unit),
  (∀ f' s', safe next next (f', s') (λ _ st, st = (f' <| ip ::= Nat.add k |>, s')) (failed f0 s)) →
  safe (let! args := take_args fault argc msg in let! v := on_vm (m1 args) in let! _ := push (g v) in next)
       (let! args := take_args id argc msg in let! v := on_vm (m2 args) in let! _ := push (g v) in next) (f, s)
    (λ _ st, ip (fst st) = (k + ip f0)%nat ∧ S (length (localStack f0) - Z.to_nat argc) = length (localStack (fst st)) ∧
       pendingVarargsDelta (fst st) = 0 ∧ parts (fst st) = parts f0 ∧ keeps s (snd st)) (failed f0 s).
Proof.
  intros Hr Hcf Hd Hip Hst Hargc Hm k next Hnext. apply bind_take_args; [by rewrite Hst|]. intros xs.
  eapply (bind_on_vm _ _ _ _ _ s); [by apply keeps_refl|apply Hm|intros e s' Hk; by split_and!|intros v s' Hk].
  apply bind_set_frame. eapply safe_weaken; [apply Hnext| |done]. intros _ [f' s''] [= -> ->].
  split_and!; simpl; try done; [by rewrite Hip|]. by rewrite Hst, length_dropz.
Qed.

Lemma make_array_execute f s i : good f s → prog_code c !! ip f = Some i → op i = MakeArray →
  fine (continue (make_array fault i)) (continue (make_array id i)) f s.
Proof.
  intros Hg Hi Ho. destruct (taker_next f s i Hg Hi) as [Hk HD]; [by rewrite Ho..|].
  apply continue_good, (taker_fine i (S (ip f))); try done; [by rewrite Ho|].
  intros f' Hcf Hd Hip Hst argc Hargc. apply (call_rest argc _ (λ xs, on_heap (new_array xs)) (λ xs, on_heap (new_array xs))
    (λ v, Value (vdata v) false (negb (operand i =? 0)))) with (k := 1%nat); try done; [apply Hg|].
  intros args. apply quiet_agree; [apply quiet_on_heap|apply Hg].
Qed.

Lemma string_operand i : op i = Call ∨ op i = CallEfun ∨ op i = CallParent →
  operand_ok id (limits_of c slots) i → 0 ≤ operand i < size (stringPool c).
Proof. intros Ho Hop. unfold operand_ok in Hop. apply denotes_range. by destruct Ho as [Ho|[Ho|Ho]]; rewrite Ho in Hop. Qed.

Lemma call_execute f s i : good f s → prog_code c !! ip f = Some i → op i = Call →
  fine (continue (call fault run1 closure1 fuel act i)) (continue (call id run2 closure2 fuel act i)) f s.
Proof.
  intros Hg Hi Ho. destruct (taker_next f s i Hg Hi) as [Hk HD]; [by rewrite Ho..|].
  destruct (sound_at f s i Hg Hi) as (Hop & _). apply string_operand in Hop; [|by left].
  apply continue_good. unfold call. apply bind_constant; [done|]. intros name.
  apply (taker_fine i (S (ip f))); try done; [by rewrite Ho|].
  intros f' Hcf Hd Hip Hst argc Hargc.
  apply (call_rest argc _ (call_named run1 closure1 fuel (act_obj act) name) (call_named run2 closure2 fuel (act_obj act) name) (λ v, v))
    with (k := 1%nat); try done; [apply Hg|].
  intros args. apply agree_call_named; [done|done|apply Hg].
Qed.

Lemma call_efun_execute f s i : good f s → prog_code c !! ip f = Some i → op i = CallEfun →
  fine (continue (call_efun fault run1 closure1 fuel act i)) (continue (call_efun id run2 closure2 fuel act i)) f s.
Proof.
  intros Hg Hi Ho. destruct (taker_next f s i Hg Hi) as [Hk HD]; [by rewrite Ho..|].
  destruct (sound_at f s i Hg Hi) as (Hop & _). apply string_operand in Hop; [|by right; left].
  apply continue_good. unfold call_efun. apply bind_constant; [done|]. intros name.
  apply (taker_fine i (S (ip f))); try done; [by rewrite Ho|].
  intros f' Hcf Hd Hip Hst argc Hargc.
  apply (call_rest argc _ (efun_call run1 closure1 fuel name) (efun_call run2 closure2 fuel name) (λ v, v)) with (k := 1%nat); try done; [apply Hg|].
  intros args. apply efun_keeps; [done|done|apply Hg].
Qed.

(** *** Data behind an instruction *)

(** A place that awaits data holds it. *)
Lemma awaiting k : (lo ≤ k < hi)%nat → awaits (D k) ≠ Ready →
  ∃ j, prog_code c !! k = Some j ∧ next j (D k) = Some (D (S k)) ∧ operand_ok id (limits_of c slots) j ∧
    (falls_through (op j) = true → (S k < hi)%nat).
Proof.
  intros Hk Hw. destruct (code_at k) as [j Hj]; [lia|]. exists j. destruct (Hsound k j Hk Hj) as (Hop & Hfl & Hft & _).
  split_and!; try done. unfold flows in Hfl. destruct (op j) eqn:Eo; try done. by destruct Hfl as (_ & _ & _ & ?).
Qed.

Lemma qualifier_slot k : (lo ≤ k < hi)%nat → awaits (D k) = Qualifier → ∃ z a,
  prog_code c !! k = Some (mkInstr CallParentQualifierSlot z a) ∧ (z = -1 ∨ 0 ≤ z < size (stringPool c)) ∧
  (lo ≤ S k < hi)%nat ∧ D (S k) = Shape (stack (D k)) (catches (D k)) (timers (D k)) Ready.
Proof.
  intros Hk Hw. destruct (awaiting k Hk) as (j & Hj & Hn & Hop & Hft); [by rewrite Hw|].
  destruct (next_inv _ _ _ Hn) as (a & b & d & t & cs & w & He & Hst & Hf & Hm & _ & HD).
  rewrite Hw in Hm. destruct j as [o z x]. unfold mode_after in Hm. cbn [op] in *. destruct o; simplify_eq.
  exists z, x. unfold operand_ok in Hop. cbn [op operand] in Hop. unfold effect in He. cbn [op] in He. simplify_eq.
  cbn [frames_after] in Hf. simplify_eq. split_and!; try done; [|specialize (Hft eq_refl); lia..|].
  - destruct Hop as [?|Hop]; [by left|right]. by apply denotes_range.
  - rewrite HD. f_equal. lia.
Qed.

Lemma safe_on_vm {A} (m1 m2 : V A) f s (Q : A → vm → Prop) (X : raised → frame * vm → Prop) (Y : raised → vm → Prop) :
  safe m1 m2 s Q Y → (∀ e s', Y e s' → X e (f, s')) →
  safe (on_vm m1) (on_vm m2) (f, s) (λ a st, fst st = f ∧ Q a (snd st)) X.
Proof.
  intros [He Hm] HX. unfold safe, on_vm. rewrite He. split; [done|]. destruct (m2 s) as [[]]; auto.
Qed.

Lemma call_parent_execute f s i : good f s → prog_code c !! ip f = Some i → op i = CallParent →
  fine (continue (call_parent fault run1 fuel act i)) (continue (call_parent id run2 fuel act i)) f s.
Proof.
  intros Hg Hi Ho. destruct (taker_args f s i Hg Hi) as (_ & _ & HD & Hk); [by rewrite Ho|].
  destruct (qualifier_slot _ Hk) as (z & x & Hslot & Hz & Hk2 & HD2); [rewrite HD; unfold after; by rewrite Ho|].
  destruct (sound_at f s i Hg Hi) as (Hop & _). apply string_operand in Hop; [|by right; right].
  apply continue_good. unfold call_parent. apply bind_constant; [done|]. intros name. apply bind_of_frame. rewrite Hslot.
  unfold parent_qualifier.
  assert (∀ q, safe
    (let! argc := take_count i in let! args := take_args fault argc ($"CallParent: bad arg count for " ++ name) in
     let! r := on_vm (findParentFunction fuel (act_program act) name q) in
     match r with
     | None => lpc_error (match q with Some q => q ++ $"::" | None => $"::" end ++ name ++ $"(): undefined function in inherited program")
     | Some r => let! v := on_vm (with_origin OLocal (run_found run1 r args (act_obj act))) in let! _ := push v in advance 2
     end)
    (let! argc := take_count i in let! args := take_args id argc ($"CallParent: bad arg count for " ++ name) in
     let! r := on_vm (findParentFunction fuel (act_program act) name q) in
     match r with
     | None => lpc_error (match q with Some q => q ++ $"::" | None => $"::" end ++ name ++ $"(): undefined function in inherited program")
     | Some r => let! v := on_vm (with_origin OLocal (run_found run2 r args (act_obj act))) in let! _ := push v in advance 2
     end) (f, s) (λ _ st, good (fst st) (snd st)) raised_ok) as Hq.
  2:{ destruct (z <? 0) eqn:Ez; prop_tests; [apply bind_ret, (Hq None)|].
      apply bind_assoc, bind_constant; [lia|]. intros q. apply bind_ret, (Hq (Some q)). }
  intros q. apply (taker_fine i (S (S (ip f)))); try done; [by rewrite Ho|].
  intros f' Hcf Hd Hip Hst argc Hargc. apply bind_take_args; [by rewrite Hst|]. intros args.
  eapply safe_bind.
  { eapply safe_on_vm; [apply findParentFunction_finds, Hg|]. intros e s' H. split_and!; [done|done|]. apply calm_keeps; [done|apply Hg]. }
  intros r [f'' s'] [Hf'' [Hs' Hr]]. cbn [fst snd] in Hf''. subst f''.
  assert (keeps s s') as Hks by (apply calm_keeps; [done|apply Hg]).
  destruct r as [[p fn]|]; [|by apply safe_raise].
  eapply (bind_on_vm _ _ _ _ _ s); [done| |intros e s2 Hk'; by split_and!|intros v s2 Hk'].
  - apply agree_with_origin; [apply Hks|]. intros s2 H2. apply Hrun; [by apply (still_ready s'), Hks|].
    apply (still_callable s'); [done|].
    destruct (act_ok_keeps s s' Hks (good_act _ _ Hg)) as [(own & m & Hl & _ & _ & Hinh) _].
    exists own, m. split; [done|]. destruct (Hr p fn eq_refl) as [Hinh2 Hin]. split; [|done]. by eapply rtc_trans.
  - apply bind_set_frame, safe_advance. split_and!; simpl; try done; [by rewrite Hip|]. by rewrite Hst, length_dropz.
Qed.

(** *** [sscanf] *)

Lemma var_slots m : ∀ k, (lo ≤ k < hi)%nat → awaits (D k) = slots_left m →
  (k + m < hi)%nat ∧ D (k + m)%nat = Shape (stack (D k)) (catches (D k)) (timers (D k)) Ready ∧
  ∀ x, (x < m)%nat → ∃ j, prog_code c !! (k + x)%nat = Some j ∧ op j = SscanfVarSlot ∧ operand_ok id (limits_of c slots) j.
Proof.
  induction m as [|m IH]; intros k Hk Hw.
  { rewrite Nat.add_0_r. split_and!; [lia| |lia]. cbn in Hw. destruct (D k) as [? ? ? w]. cbn in *. by rewrite Hw. }
  destruct (awaiting k Hk) as (j & Hj & Hn & Hop & Hft); [by rewrite Hw|].
  destruct (next_inv _ _ _ Hn) as (a & b & d & t & cs & w & He & Hst & Hf & Hm & _ & HD).
  rewrite Hw in Hm. unfold mode_after in Hm. cbn [slots_left] in Hm. destruct (op j) eqn:Ho; simplify_eq.
  unfold effect in He. rewrite Ho in He. simplify_eq. cbn [frames_after] in Hf. simplify_eq.
  specialize (Hft eq_refl). destruct (IH (S k)) as (Hlt & HDm & Hall); [lia|by rewrite HD|].
  replace (k + S m)%nat with (S k + m)%nat by lia. split_and!; [done| |].
  - rewrite HDm, HD. cbn. f_equal. lia.
  - intros [|x] Hx; [exists j; rewrite Nat.add_0_r; by split_and!|].
    replace (k + S x)%nat with (S k + x)%nat by lia. apply Hall. lia.
Qed.

(** The frame but for its local variables. *)
Definition same_frame (f f' : frame) : Prop :=
  ip f' = ip f ∧ localStack f' = localStack f ∧ pendingVarargsDelta f' = pendingVarargsDelta f ∧ parts f' = parts f.

Lemma sscanf_assigns_behaves f s m : pendingVarargsDelta f = 0 → size (locals f) = slots → act_ok s →
  (∀ x, (x < m)%nat → ∃ j, prog_code c !! (S (ip f) + x)%nat = Some j ∧ op j = SscanfVarSlot ∧ operand_ok id (limits_of c slots) j) →
  ∀ vs j f' s', (j + length vs ≤ m)%nat → same_frame f f' → keeps s s' →
  safe (sscanf_assigns fault act j vs) (sscanf_assigns id act j vs) (f', s')
    (λ _ st, same_frame f (fst st) ∧ keeps s (snd st)) (failed f s).
Proof.
  intros Hd Hloc Ha Hslots. induction vs as [|v vs IH]; intros j f' s' Hj Hf Hk; cbn [sscanf_assigns].
  { by apply safe_ret. }
  cbn [length] in Hj. destruct (Hslots j) as (i & Hi & Ho & Hop); [lia|].
  eapply (safe_bind _ _ _ _ _ _ (λ _ st, same_frame f (fst st) ∧ keeps s (snd st))).
  2:{ intros _ [f2 s2] [H1 H2]. apply IH; [lia|done|done]. }
  unfold sscanf_assign. apply bind_of_frame. replace (ip f' + 1 + j)%nat with (S (ip f) + j)%nat by (destruct Hf as (-> & _); lia).
  rewrite Hi. apply bind_ret. unfold operand_ok in Hop. rewrite Ho in Hop.
  destruct (Z.eqb_spec (argCount i) 0) as [Hz|Hz].
  - rewrite bool_decide_eq_true_2 in Hop by done. cbn [limits_of Verified.slots] in Hop.
    pose proof Hf as (Hi1 & Hi2 & Hi3 & Hi4). apply bind_of_frame, bind_check.
    { apply (slot_in_frame f'); [done|]. injection Hi4 as _ ->. exact Hloc. }
    apply safe_changes. split; [|done]. split_and!; try done. by rewrite <- Hi4, <- (parts_local f' (Z.to_nat (operand i)) v).
  - rewrite bool_decide_eq_false_2 in Hop by done. apply denotes_range in Hop.
    apply bind_object. intros o Hobj. apply bind_check; [eapply slot_in_object; [by eapply act_ok_keeps|done|done]|].
    unfold safe, on_vm, set_variable, changes. split; [done|]. cbn [fst snd]. split; [done|].
    eapply keeps_calm; [done|]. exact (quiet_set_variable _ _ _ s').
Qed.

Lemma sscanf_execute f s i : good f s → prog_code c !! ip f = Some i → op i = Sscanf →
  fine (continue (sscanf fault act i)) (continue (sscanf id act i)) f s.
Proof.
  intros Hg Hi Ho. destruct (falls f s i Hg Hi) as [Hn Hk]; [by rewrite Ho|].
  destruct (next_inv _ _ _ Hn) as (a & b & d & t & cs & w & He & Hst & Hf & Hm & Hco & HD).
  unfold effect, frames_after, counts_ok in *. rewrite Ho in He, Hf, Hco. injection He as <- <-. injection Hf as <- <-. prop_tests.
  assert (awaits (D (ip f)) = Ready ∧ w = slots_left (Z.to_nat (operand i))) as [Hw ->].
  { unfold mode_after, after in Hm. rewrite Ho in Hm. by destruct (awaits (D (ip f))); simplify_eq. }
  pose proof (good_fits _ _ Hg) as [Hstk Hmode _ _]. rewrite Hw in Hmode. unfold size in Hstk.
  destruct (var_slots (Z.to_nat (operand i)) _ Hk) as (Hlt & HDm & Hslots); [by rewrite HD|].
  apply continue_good. unfold sscanf. apply bind_check; [by apply Z.leb_le|]. apply bind_need; [unfold size; lia|].
  apply bind_pop_back. intros v1 st1 Hst1. apply bind_pop_back. intros v2 st2 Hst2. cbn in Hst2. subst st1.
  set (f1 := f <| localStack := v2 :: st2 |> <| localStack := st2 |>).
  assert (∀ e, failed f s e (f1, s)) as Hfail by (intros; split_and!; [done|done|apply keeps_refl, Hg]).
  destruct (vdata v2) as [| | | |target| | | | | |]; try (apply safe_raise, (failed_raised f s); [done|apply Hfail]).
  destruct (vdata v1) as [| | | |fmt| | | | | |]; try (apply safe_raise, (failed_raised f s); [done|apply Hfail]).
  apply bind_of_frame. change (ip f1) with (ip f). apply bind_check.
  { apply Z.leb_le. unfold size. lia. }
  pose proof (sscanf_bounds target fmt (operand i) Hco) as Hb. unfold outcome_ok in Hb.
  destruct (runSscanf target fmt (operand i)) as [[count vs]|e| |]; try done.
  2:{ unfold safe, vbind, give. cbn [from_result]. destruct e; (split; [done|]); apply (failed_raised f s); done || apply Hfail. }
  apply bind_ret. destruct Hb as (Hvs & _ & _).
  eapply safe_bind.
  { eapply safe_weaken; [apply (sscanf_assigns_behaves (f1) s (Z.to_nat (operand i)))| |].
    - done.
    - apply Hg.
    - apply Hg.
    - exact Hslots.
    - unfold size in Hvs. lia.
    - done.
    - apply keeps_refl, Hg.
    - intros u st H. exact H.
    - intros e st H. by apply (failed_raised f s). }
  intros _ [f2 s2] [(Hip & Hst2 & Hd2 & Hparts2) Hk2]. cbn [fst snd] in *.
  apply bind_set_frame, safe_advance. cbn [fst snd].
  replace (S (ip f) + Z.to_nat (operand i))%nat with (1 + Z.to_nat (operand i) + ip f)%nat in * by lia.
  apply (landed_good (1 + Z.to_nat (operand i) + ip f) f s); [done|lia|by rewrite HDm|by rewrite HDm, HD|by rewrite HDm, HD|].
  split; [simpl; by rewrite Hip| |simpl; by rewrite Hd2|exact Hparts2|done].
  rewrite HDm, HD. simpl. rewrite Hst2. simpl. rewrite Hst1 in Hstk. simpl in Hstk. lia.
Qed.

(** *** Every instruction *)

Lemma good_timers f s : good f s → timers_ok 0 [] s.
Proof. intros Hg. pose proof (fits_timers _ _ _ (good_fits _ _ Hg)). unfold timers_ok in *. simpl. lia. Qed.

Lemma return_execute f s : good f s →
  fine (let! st := of_frame localStack in vret (Some (default void_value (head st))))
       (let! st := of_frame localStack in vret (Some (default void_value (head st)))) f s.
Proof. intros Hg. apply bind_of_frame, safe_ret. split_and!; [apply Hg..|]. by eapply good_timers. Qed.

Lemma execute_fine f s i : good f s → prog_code c !! ip f = Some i →
  fine (execute fault run1 closure1 fuel act i) (execute id run2 closure2 fuel act i) f s.
Proof.
  intros Hg Hi.
  destruct (decide (plain (op i) = true ∧ op i ≠ JumpIfFalse)) as [[? ?]|Hnp]; [by apply plain_execute|].
  assert (falls_through (op i) = true → effect i = None → False) as Hnone.
  { intros Hft He. destruct (falls f s i Hg Hi Hft) as [Hn _]. unfold next in Hn. by rewrite He in Hn. }
  assert (mode_after i (awaits (D (ip f))) = None → falls_through (op i) = true → False) as Hmode.
  { intros Hm Hft. destruct (falls f s i Hg Hi Hft) as [Hn _].
    destruct (next_inv _ _ _ Hn) as (? & ? & ? & ? & ? & ? & _ & _ & _ & Hm' & _). by rewrite Hm in Hm'. }
  assert (awaits (D (ip f)) = Ready ∨ ∃ a b, awaits (D (ip f)) = Spread a b) as Haw.
  { pose proof (fits_mode _ _ _ (good_fits _ _ Hg)) as H. destruct (awaits (D (ip f))); eauto; done. }
  unfold execute. destruct (op i) eqn:Ho; try (destruct Hnp; split; done).
  all: first [ by apply jump_execute | by apply jump_if_false_execute | by apply push_catch_execute
    | by apply (pop_catch_execute f s i) | by apply (time_start_execute f s i) | by apply (time_end_execute f s i)
    | by apply expand_execute | by apply make_array_execute | by apply call_execute | by apply call_efun_execute
    | by apply call_parent_execute | by apply sscanf_execute | by apply return_execute | idtac ].
  all: exfalso; first [ apply Hnone; [done|unfold effect; by rewrite Ho]
    | apply Hmode; [|done]; unfold mode_after; rewrite Ho; by destruct Haw as [->|(? & ? & ->)] ].
Qed.

Lemma calm_good f s s' : calm s s' → good f s → good f s'.
Proof.
  intros H [Hip [Hst Hm Hfr Ht] Hloc Ha Hr Hcar]. assert (keeps s s') as Hk by by apply calm_keeps.
  split; [done| |done|by eapply act_ok_keeps|apply Hk|by eapply carries_keeps]. split; try done. by eapply timers_keeps.
Qed.

Lemma step_fine f s : good f s → fine (step fault run1 closure1 fuel act) (step id run2 closure2 fuel act) f s.
Proof.
  intros Hg. unfold step.
  assert (calm s (s <| evalCost_ ::= Z.add 1 |>)) as Hs by by split; [apply still_guard|].
  set (s1 := s <| evalCost_ ::= Z.add 1 |>) in *. pose proof (calm_good f s s1 Hs Hg) as Hg1.
  unfold fine. eapply (safe_bind _ _ _ _ _ _ (λ _ st, st = (f, s1))); [by split|]. intros _ st ->.
  eapply (safe_bind _ _ _ _ _ _ (λ _ st, st = (f, s1))); [by split|]. intros [cost limit] st ->.
  destruct (limit <? cost).
  { apply safe_raise. split_and!; try apply Hg1; [by eapply good_timers|done]. }
  apply bind_of_frame, bind_found. intros i Hi. by apply execute_fine.
Qed.

(** An error lands where the innermost [catch] resumes. *)
Lemma unwind_good e f s cf cfs v : raised_ok e (f, s) → catchable e = true → catchFrames f = cf :: cfs →
  good (unwind cf cfs v f) s.
Proof.
  intros (Ha & Hr & Hcar & _ & Hc') Hcat Hf. cbn [fst snd] in *. destruct (Hc' Hcat) as (Hd & Hloc & t & cs & Hfr & Ht).
  rewrite Hf in Hfr. inversion Hfr as [|r d t' fs cs' Hr' HD Hfs]. subst.
  split; try done. change (ip (unwind (r, d) cfs v f)) with r. rewrite HD. split; try done.
  - change (localStack (unwind (r, d) cfs v f)) with (v :: resize_stack d (localStack f)).
    change (pendingVarargsDelta (unwind (r, d) cfs v f)) with (pendingVarargsDelta f). rewrite Hd.
    unfold size, resize_stack. simpl. rewrite length_app, length_replicate, length_drop. lia.
  - unfold timers_ok in *. simpl in *. lia.
Qed.
End Function.

(** ** Runs *)

Section Runs.
Context {E : Efuns} {EL : EfunLaws} (fault : raised → raised).

Definition runs_ok (n : nat) : Prop := runs_agree (run fault n) (run id n).

Definition loops_ok (n : nat) : Prop := ∀ act lo hi slots D s0 f s,
  program_ok (act_code act) → (lo < hi ≤ length (prog_code (act_code act)))%nat → sound id (act_code act) slots lo hi D →
  good act lo hi slots D s0 f s →
  safe (loop fault n act f) (loop id n act f) s (λ _ s', keeps s0 s') (λ _ s', keeps s0 s').

Definition closures_ok (n : nat) : Prop := closures_agree (callClosure fault n) (callClosure id n).

Definition quoted_ok (n : nat) : Prop := ∀ node params args s, ready s →
  agree (evalQuotedLambdaNode fault n node params args) (evalQuotedLambdaNode id n node params args) s.

(** The timers of the caller are still running. *)
Lemma carries_back s0 s : ready s → carries s0 s → timers_ok s0 0 [] s → keeps s0 s.
Proof.
  intros Hr [_ [xc xp xk xg xo _]] Ht. split; [done|]. split; try done. unfold timers_ok in Ht. simpl in Ht. lia.
Qed.

Lemma loop_step n : runs_ok n → closures_ok n → loops_ok n → loops_ok (S n).
Proof.
  intros Hruns Hclosures Hloops act lo hi slots D s0 f s Hc Hhi Hsound Hg.
  pose proof (step_fine fault (run fault n) (run id n) Hruns (callClosure fault n) (callClosure id n) Hclosures n act lo hi slots D Hc Hhi Hsound s0 f s Hg) as [He Hst].
  assert (∀ f' s', good act lo hi slots D s0 f' s' →
    safe (loop fault n act f') (loop id n act f') s' (λ _ s', keeps s0 s') (λ _ s', keeps s0 s')) as Hgo.
  { intros f' s' Hg'. by eapply Hloops. }
  unfold safe. rewrite !loop_S. unfold turn. pose proof (good_ip _ _ _ _ _ _ _ _ Hg).
  rewrite (proj2 (Nat.leb_gt _ _)) by lia. rewrite He.
  destruct (step id (run id n) (callClosure id n) n act (f, s)) as [[[v|]|e| |] [f' s']]; try done.
  - split; [done|]. destruct Hst as (_ & Hr & Hcar & Ht). by apply carries_back.
  - by apply Hgo.
  - destruct Hst as (Ha & Hr & Hcar & Ht & Hcat). assert (keeps s0 s') as Hk by by apply carries_back.
    assert (raised_ok act lo hi slots D s0 e (f', s')) as Hraised by done.
    destruct e as [msg|v| | |]; try done.
    + destruct (catchFrames f') as [|cf cfs] eqn:Ef.
      * unfold uncaught. split; [done|]. by destruct (objects (world_ s') !! act_obj act).
      * apply Hgo. by eapply unwind_good.
    + destruct (catchFrames f') as [|cf cfs] eqn:Ef; [done|]. apply Hgo. by eapply unwind_good.
Qed.

(** *** The start of a function *)

Lemma object_var_base_ok p obj own k c0 base s : layout s obj = Some (own, k) → base_of s own p = Some base →
  safe (object_var_base fault p obj) (object_var_base id p obj) s (λ b s', s' = s ∧ b = base) (λ _ s', c0 = s').
Proof.
  intros Hl Hb. unfold object_var_base, program_of, layout in *.
  destruct (objects (world_ s) !! obj) as [o|] eqn:Ho; [|done]. injection Hl as <- <-.
  unfold safe, vbind, object, found, give, vret. rewrite Ho. unfold base_of in Hb.
  case_bool_decide as Hp; [by simplify_eq|].
  destruct (programs (world_ s) !! program_ o) as [prog|]; [|done]. cbn in Hb. by rewrite Hb.
Qed.

Lemma quiet_start_locals fn args : quiet (start_locals fn args).
Proof. unfold start_locals, fluffos. quietly. Qed.

(** As many locals as the function asks for, whatever its arguments. *)
Lemma length_bind_args args ls : length (bind_args args ls) = length ls.
Proof. unfold bind_args. rewrite length_app, length_take, length_drop. lia. Qed.

Lemma start_locals_size fn args s : 0 ≤ numLocals fn →
  safe (start_locals fn args) (start_locals fn args) s (λ ls s', calm s s' ∧ size ls = numLocals fn) (λ _ s', calm s s').
Proof.
  intros Hn. pose proof (quiet_safe _ s (quiet_start_locals fn args)) as [_ Hq]. split; [done|].
  destruct (start_locals fn args s) as [[ls|e| |] s'] eqn:Er; try done. split; [done|]. clear Hq.
  unfold start_locals, vbind in Er. destruct (fluffos s) as [[b|e| |] s1]; try done.
  destruct (isVarargs fn && _); [|by injection Er as <- _; unfold size; rewrite length_bind_args, length_replicate; lia].
  destruct (on_heap _ s1) as [[rest|e| |] s2]; try done. injection Er as <- _. unfold size.
  rewrite length_insert, length_bind_args, length_replicate. lia.
Qed.

Lemma body_agree n p fn args obj s : loops_ok n → ready s → callable s obj p fn → obj ∈ callStack_ s →
  agree (let! base := object_var_base fault p obj in let! ls := start_locals fn args in let! c := code_of p in
         loop fault n (mkActivation p c fn obj base) (mkFrame (Z.to_nat (entryPoint fn)) [] ls 0 []))
        (let! base := object_var_base id p obj in let! ls := start_locals fn args in let! c := code_of p in
         loop id n (mkActivation p c fn obj base) (mkFrame (Z.to_nat (entryPoint fn)) [] ls 0 [])) s.
Proof.
  intros Hloops Hr (own & k & Hl & Hinh & c & Hc & Hfn) Hst.
  destruct (ready_linked _ Hr _ _ _ _ Hl Hinh) as (c' & base & Hc' & Hok & Hbase & H0 & Hvars).
  rewrite Hc in Hc'. injection Hc' as <-.
  destruct (proj1 (Forall_forall _ _) (ok_functions c Hok) fn Hfn) as (lo & hi & slots & D & He & Hhi & Hpos & Hnum & HD & Hsound).
  unfold id in Hnum.
  eapply safe_bind.
  { eapply safe_weaken; [by eapply (object_var_base_ok p obj own k s)|intros b s' H; exact H|]. intros e s' ->. by apply keeps_refl. }
  intros b s1 [-> ->].
  eapply safe_bind.
  { eapply safe_weaken; [apply start_locals_size; lia|intros ls s' H; exact H|]. intros e s' H. by apply calm_keeps. }
  intros ls s1 [H1 Hls].
  eapply (safe_bind _ _ _ _ _ _ (λ c1 s', s' = s1 ∧ c1 = c)).
  { apply (safe_found (codes s1 !! p) s1). intros c1. rewrite (still_codes s s1), Hc by apply H1. by intros [= ->]. }
  intros c1 s2 [-> ->].
  pose proof (ok_small c Hok) as Hsmall. unfold small_program in Hsmall. rewrite Forall_cons in Hsmall. destruct Hsmall as [Hsmall _].
  assert (entryPoint fn = Z.of_nat lo) as -> by (rewrite He; unfold to_u32; apply Z.mod_small; lia). rewrite Nat2Z.id.
  assert (ready s1) as Hr1 by by apply (calm_ready s).
  eapply safe_weaken; [apply (Hloops (mkActivation p c fn obj base) lo hi slots D s1 _ s1 Hok Hhi Hsound)| |].
  2,3: intros ? s' Hk; exact (calm_then_keeps s s1 s' Hr H1 Hk).
  split; cbn [ip].
  - lia.
  - rewrite HD. split; try done; [constructor|]. unfold timers_ok. simpl. lia.
  - simpl. by rewrite Hls.
  - split; [|rewrite (still_stack s s1); [done|apply H1]]. exists own, k. rewrite (still_layout s s1) by apply H1.
    split_and!; try done. apply (inherits_from_same s); [apply still_programs, H1|done].
  - done.
  - eapply keeps_calm; [by apply keeps_refl|]. split; [by apply still_intro|done].
Qed.

Lemma run_step n : loops_ok n → closures_ok n → runs_ok (S n).
Proof.
  intros Hloops Hcl p fn args obj s Hr Hcall. rewrite !run_S. unfold run_function.
  apply agree_with_object_frame; [done|]. intros s1 (Hr1 & Hl1 & Hc1 & Hp1 & Hk1 & _).
  apply agree_with_defer_frame; [done|by intros; apply Hcl|]. intros s2 H2.
  apply body_agree; [done|by apply (still_ready s1)| |by rewrite (still_stack s1 s2), Hk1 by done; left].
  destruct Hcall as (own & k & Hl & Hf). exists own, k. rewrite (still_layout s1 s2), Hl1 by done. split; [done|].
  apply (still_function s1); [done|]. revert Hf. apply function_of_mono; [by rewrite Hp1|by rewrite Hc1].
Qed.

(** *** Closures *)

Lemma agree_efun_for n ob name args msg s : runs_ok n → closures_ok n → ready s →
  agree (efun_for (run fault n) (callClosure fault n) n ob name args msg) (efun_for (run id n) (callClosure id n) n ob name args msg) s.
Proof.
  intros Hruns Hclosures Hr. unfold efun_for. destruct (efun_exists name); [|by apply quiet_agree; [apply quiet_raise|]].
  apply agree_with_object_frame; [done|]. intros s1 (Hr1 & _). by apply efun_keeps.
Qed.

Lemma quiet_living_owner cl : quiet (living_owner cl).
Proof. unfold living_owner, lock_object. quietly. Qed.

Lemma closure_step n : runs_ok n → closures_ok n → quoted_ok n → closures_ok (S n).
Proof.
  intros Hruns Hclosures Hquoted cl args s Hr. rewrite !callClosure_S. unfold call_closure.
  destruct cl as [a|]; [|by apply agree_raise].
  apply (quiet_then (λ s, found (closures (lpcHeap (world_ s)) !! a) s)); [by intros s1; apply quiet_found|done|].
  intros c s1 Hr1. destruct (unboundUntilBound c); [by apply agree_raise|].
  apply quiet_then; [apply quiet_living_owner|done|]. intros [ob|] s2 Hr2; [|by apply agree_raise]. cbv zeta.
  destruct (negb _); [by apply Hquoted|]. destruct (forceEfun c); [by apply agree_efun_for|].
  unfold call_closure_function. apply program_of_then; [done|]. intros own k Hl.
  apply (agree_found n (functionName c) ob own k s2
    (λ r, with_origin (if synthesized_lambda (entry_name (snd r)) then OFunctional else OLocal) (run_found (run fault n) r (boundArgs c ++ args) ob))
    (λ r, with_origin (if synthesized_lambda (entry_name (snd r)) then OFunctional else OLocal) (run_found (run id n) r (boundArgs c ++ args) ob)));
    [done|done| |].
  - intros r s3 H3 Hcall. apply agree_with_origin; [by apply (still_ready s2)|]. intros s4 H4. apply Hruns.
    + apply (still_ready s3); [done|by apply (still_ready s2)].
    + by apply (still_callable s3).
  - intros s3 H3. apply agree_simul_efun; [done|by apply (still_ready s2)|]. intros s4 H4. apply agree_efun_for; [done|done|].
    apply (still_ready s3); [done|by apply (still_ready s2)].
Qed.

Lemma nodes_agree n params args xs s : quoted_ok n → ready s →
  agree (eval_nodes (evalQuotedLambdaNode fault n) params args xs) (eval_nodes (evalQuotedLambdaNode id n) params args xs) s.
Proof.
  intros Hq. revert s. induction xs as [|x xs IH]; intros s Hr; cbn [eval_nodes]; [by apply quiet_agree; [apply quiet_ret|]|].
  apply agree_then; [by apply Hq|]. intros v s1 Hr1. apply agree_then; [by apply IH|]. intros vs s2 Hr2. by apply quiet_agree; [apply quiet_ret|].
Qed.

Lemma quoted_step n : closures_ok n → quoted_ok n → quoted_ok (S n).
Proof.
  intros Hcl Hq node params args s Hr. rewrite !evalQuotedLambdaNode_S. unfold eval_node.
  destruct (vdata node) as [| | | | |name| |p| | |]; try (by apply quiet_agree; [apply quiet_ret|]).
  - destruct (parameter name params args); [by apply quiet_agree; [apply quiet_ret|]|by apply agree_raise].
  - apply quiet_then; [apply quiet_on_heap|done|]. intros [|x rest] s1 Hr1; [by apply agree_raise|].
    destruct (vdata x) as [| | | | | | | | |[a|]|]; try by apply agree_raise.
    apply (agree_bind _ _ _ _ _ (λ _ _, True)); [|by intros vs s2 [? _] _; apply Hcl].
    eapply safe_weaken; [by apply nodes_agree|done|done].
Qed.

Lemma all_ok n : runs_ok n ∧ loops_ok n ∧ closures_ok n ∧ quoted_ok n.
Proof.
  induction n as [|n (Hr & Hl & Hc & Hq)].
  - split_and!; [intros ? ? ? ? ? ? ?|intros ? ? ? ? ? ? ? ? ? ? ? ?|intros ? ? ? ?|intros ? ? ? ? ?]; by split.
  - split_and!; [by apply run_step|by apply loop_step|by apply closure_step|by apply quoted_step].
Qed.
End Runs.
