(* ===== verification/Commands.v ===== *)
(** * Commands: calls from outside, moves and typed commands

    Models what [src/vm/VM.cpp] does around [VM::run]: [callFunction], the way
    into an object from everywhere else, which goes through the chain of its
    shadows; the applies of the master object; driver hooks; [moveObject] with
    the [init] calls that hand out verbs; [dispatchCommand], which looks for
    the handler of a typed line; and [replace_program]. *)

From S2P Require Import Prelude Doubles Values Config Uids Objects ObjectManager Bytecode Operators Machine.
Open Scope Z_scope.

Definition on_world {A} (f : world → result A) : V A := λ s, (from_result (f (world_ s)), s).
Definition change_world (f : world → world) : V unit := changes (λ s, s <| world_ ::= f |>).

Definition object_value (ob : addr) : value := mk (VObj (Some ob)).

(** ** What efuns ask *)

Definition currentObject (s : vm) : option addr := head (callStack_ s).

Definition previousObject (s : vm) (idx : Z) : option addr :=
  if (idx <? 0) || (size (objectChangeStack_ s) <=? idx) then None
  else mjoin (objectChangeStack_ s !! Z.to_nat idx).

Definition allPreviousObjects (s : vm) : list addr := omap id (objectChangeStack_ s).

Definition commandGiver (s : vm) : option addr := mjoin (head (commandGiverStack_ s)).

Definition currentVerb (s : vm) : bytes := default [] (head (verbStack_ s)).

Definition rooted (path : bytes) : bytes :=
  match path with
  | "/"%char :: _ => path
  | _ => "/"%char :: path
  end.

Definition resolveMudlibPath (w : world) (lpcPath : bytes) : bytes := mudlibRoot_ (config_ w) ++ rooted lpcPath.

(** A deferred call belongs to the innermost function that runs. *)
Definition registerDefer (closure : option addr) (s : vm) : vm :=
  match deferStack_ s with
  | [] => s
  | pending :: rest => s <| deferStack_ := (mkDefer closure (commandGiver s) :: pending) :: rest |>
  end.

(** ** Driver hooks *)

Definition hook_number (what : Z) : bool := (0 <=? what) && (what <? kNumDriverHooks).

Definition getDriverHook (s : vm) (what : Z) : value :=
  if hook_number what then default void_value (driverHooks_ s !! Z.to_nat what) else void_value.

Definition setDriverHook (what : Z) (arg : value) : V unit :=
  if hook_number what then changes (λ s, s <| driverHooks_ ::= <[Z.to_nat what := arg]> |>)
  else lpc_error ($"Bad hook number: " ++ to_string what ++ $", expected 0.." ++ to_string (kNumDriverHooks - 1)).

(** ** [replace_program] *)

Definition enqueueReplaceProgram (e : PendingReplaceProgram) : list PendingReplaceProgram → list PendingReplaceProgram :=
  fix go l :=
    match l with
    | [] => [e]
    | x :: l => if bool_decide (pending_ob x = pending_ob e) then e :: l else x :: go l
    end.

(** The variables of the program that starts at [offset]; the value that fills
    up is void. *)
Definition kept_variables (offset : Z) (newCount : nat) (vars : list value) : list value :=
  let off := Z.to_nat offset in
  if (off + newCount <=? length vars)%nat then take newCount (drop off vars)
  else take newCount vars ++ replicate (newCount - length vars) void_value.

(** The object stops shadowing. *)
Definition stop_shadowing (ob : addr) (o : LpcObject) (w : world) : world :=
  match wlock w (shadowing_ o) with
  | None => w
  | Some target =>
      let above := wlock w (shadowedBy_ o) in
      let w := upd_obj (set_shadowedBy above) target w in
      let w := match above with
               | Some a => upd_obj (set_shadowedBy None) ob (upd_obj (set_shadowing (Some target)) a w)
               | None => w
               end in
      upd_obj (set_shadowing None) ob w
  end.

Definition replace_program (e : PendingReplaceProgram) (w : world) : result world :=
  match pending_ob e, pending_newProgram e with
  | Some ob, Some np =>
      let* o := deref (objects w !! ob) in
      if destructed_ o then Ok w
      else
        let* p := deref (programs w !! np) in
        let kept := kept_variables (pending_offset e) (length (Objects.objectVarNames p)) (variables_ o) in
        let w := stop_shadowing ob o (upd_obj (λ o, o <| variables_ := kept |>) ob w) in
        Ok (upd_obj (λ o, o <| program_ := np |> <| replacedProgramName_ := Some (rooted (pending_name e)) |>) ob w)
  | _, _ => Ok w
  end.

Fixpoint replace_programs (l : list PendingReplaceProgram) (w : world) : result world :=
  match l with
  | [] => Ok w
  | e :: l => let* w := replace_program e w in replace_programs l w
  end.

Definition processPendingReplacePrograms : V unit := λ s,
  match replace_programs (pendingReplacePrograms_ s) (world_ s) with
  | Ok w => (Val tt, s <| pendingReplacePrograms_ := [] |> <| world_ := w |>)
  | r => (from_result (let* _ := r in Ok tt), s)
  end.

(** ** Calls into objects *)

(** The outermost shadow of [target] that is alive and not the caller. *)
Fixpoint outermost (k : nat) (w : world) (caller : option addr) (target : addr) : result addr :=
  match k with
  | O => OutOfFuel
  | S k =>
      let* o := deref (objects w !! target) in
      match wlock w (shadowedBy_ o) with
      | None => Ok target
      | Some shadow =>
          let* os := deref (objects w !! shadow) in
          if bool_decide (Some shadow = caller) || destructed_ os then Ok target
          else outermost k w caller shadow
      end
  end.

Section Commands.
(** [run] and [callClosure], with the fuel that is left. *)
Context (run : runner) (callClosure : applier) (n : nat).

(** The function, in [target] or in what it shadows. *)
Fixpoint resolve (k : nat) (name : bytes) (target : addr) : V (option (addr * FunctionEntry * addr)) :=
  match k with
  | O => give NoFuel
  | S k =>
      let! p := program_of target in
      let! r := findFunctionInChain n name p in
      match r with
      | Some r => vret (Some (r, target))
      | None =>
          let! next := on_world (λ w, let* o := deref (objects w !! target) in Ok (wlock w (shadowing_ o))) in
          match next with
          | None => vret None
          | Some next => resolve k name next
          end
      end
  end.

(** A call from outside marks the object as used. *)
Definition touch (ob : addr) (w : world) : world :=
  upd_obj (λ o, touchTimeOfRef (clock w) (o <| resetState_ := false |>)) ob w.

Definition callFunction (obj : option addr) (name : bytes) (args : list value) (origin : Origin) : V value :=
  match obj with
  | None => vret void_value
  | Some ob =>
      let! o := object ob in
      if destructed_ o then vret void_value
      else
        let! _ := change_world (touch ob) in
        let! caller := reads currentObject in
        let! target := on_world (λ w, outermost n w caller ob) in
        let! found := resolve n name target in
        match found with
        | None => vret void_value
        | Some (r, target) => with_origin origin (run_found run r args target)
        end
  end.

Definition callFunctionInProgram (obj : option addr) (program : addr) (name : bytes) (args : list value) : V value :=
  match obj with
  | None => vret void_value
  | Some ob =>
      let! c := code_of program in
      match own_function program c name with
      | None => vret void_value
      | Some r => with_origin ODriver (run_found run r args ob)
      end
  end.

Definition functionExists (obj : option addr) (name : bytes) : V bool :=
  match obj with
  | None => vret false
  | Some ob =>
      let! o := object ob in
      if destructed_ o then vret false
      else let! r := findFunctionInChain n name (program_ o) in vret (bool_decide (is_Some r))
  end.

Definition master_of : V (option addr) := reads (λ s, master_ (world_ s)).

Definition applyMaster (name : bytes) (args : list value) : V value :=
  let! master := master_of in
  match master with
  | None => lpc_error ($"applyMaster(" ++ name ++ $"): master object not loaded")
  | Some m => callFunction (Some m) name args ODriver
  end.

(** Whether the master object lets the current object do [what]. *)
Definition privilegeViolation (what : bytes) (args : list value) : V bool :=
  let denied := lpc_error ($"privilege violation: " ++ what) in
  let! caller := reads currentObject in
  let! master := master_of in
  let! simul := reads (λ s, simulEfunObject_ (world_ s)) in
  if bool_decide (is_Some caller) && (bool_decide (caller = master) || bool_decide (caller = simul)) then vret true
  else
    let! exists_ := functionExists master $"privilege_violation" in
    if negb exists_ then denied
    else
      let! result := applyMaster $"privilege_violation" (mk (VStr what) :: mk (VObj caller) :: args) in
      match vdata result with
      | VInt i => if i <? 0 then denied else vret (0 <? i)
      | _ => denied
      end.

Definition callDriverHookClosure (closure bindTo : option addr) (args : list value) : V value :=
  match closure with
  | None => lpc_error $"driver hook: not a function value"
  | Some a =>
      let! _ := on_heap (λ h,
        match closures h !! a with
        | Some c =>
            (Ok tt, set_closures (insert a (mkClosure bindTo (functionName c) (boundArgs c) (forceEfun c) false
                      (lambdaParams c) (lambdaBody c))) h)
        | None => (Undefined, h)
        end) in
      callClosure (Some a) args
  end.

(** ** Moves *)

(** [item] leaves the inventory it is in and enters that of [dest]. *)
Definition relink (item dest : addr) (w : world) : world :=
  let old := match objects w !! item with Some o => wlock w (environment_ o) | None => None end in
  let w := upd_obj (λ o, o <| resetState_ := false |>) dest w in
  let w := on_obj (λ o, o <| inventory_ ::= filter (λ a, a ≠ item) |> <| resetState_ := false |>) old w in
  let w := upd_obj (λ o, o <| resetState_ := false |> <| environment_ := Some dest |>) item w in
  upd_obj (λ o, o <| inventory_ ::= λ l, l ++ [item] |>) dest w.

(** [ob], if it can give commands, learns those of [other]. *)
Definition init_for (ob other : addr) : V unit :=
  let! o := object ob in
  if commandsEnabled_ o then
    let! _ := with_command_giver (Some ob) (callFunction (Some other) $"init" [] ODriver) in vret tt
  else vret tt.

Definition hook_closure (what : Z) (s : vm) : option addr :=
  match vdata (getDriverHook s what) with VClo p => p | _ => None end.

(** The move as the driver does it when there is no hook. *)
Definition move_without_hook (item dest : addr) : V unit :=
  let! _ := change_world (relink item dest) in
  let! _ := init_for item dest in
  let! o := object dest in
  each (λ ob, if bool_decide (ob = item) then vret tt
              else let! _ := init_for ob item in init_for item ob) (inventory_ o).

Definition moveObject (item dest : option addr) : V unit :=
  match item, dest with
  | Some i, Some d =>
      if bool_decide (i = d) then vret tt
      else
        let! oi := object i in
        let! od := object d in
        if destructed_ oi || destructed_ od then vret tt
        else
          let args := [object_value i; object_value d] in
          let! hook1 := reads (hook_closure 1) in
          let! hook0 := reads (hook_closure 0) in
          match hook1, hook0 with
          | Some c, _ => let! _ := callDriverHookClosure (Some c) (Some i) args in vret tt
          | None, Some c =>
              let! caller := reads currentObject in
              let! _ := callDriverHookClosure (Some c) caller args in vret tt
          | None, None => move_without_hook i d
          end
  | _, _ => vret tt
  end.

(** ** Typed commands *)

Definition blank (c : ascii) : bool := Ascii.eqb c " " || Ascii.eqb c TAB.
Definition skip_blanks (s : bytes) : bytes := snd (span blank s).

(** The first word of a line, and what comes after it. *)
Definition splitVerbAndArg (line : bytes) : bytes * option bytes :=
  let '(verb, rest) := span (λ c, negb (blank c)) (skip_blanks line) in
  match skip_blanks rest with
  | [] => (verb, None)
  | arg => (verb, Some arg)
  end.

(** The line without the spaces at its end. *)
Definition trim_end (line : bytes) : bytes :=
  reverse (snd (span (Ascii.eqb " ") (reverse line))).

Fixpoint abbreviation (line : bytes) (es : list (value * value)) : option value :=
  match es with
  | [] => None
  | (k, v) :: es =>
      match vdata k with
      | VStr key => if bool_decide (key = line) then Some v else abbreviation line es
      | _ => abbreviation line es
      end
  end.

(** What hook 9, a mapping of abbreviations, makes of a line. *)
Definition modify_command (line : bytes) (s : vm) : outcome bytes :=
  match vdata (getDriverHook s 9) with
  | VMap (Some a) =>
      match mappings (lpcHeap (world_ s)) !! a with
      | None => Undef
      | Some m =>
          match trim_end line with
          | [] => Val line
          | trimmed =>
              match abbreviation trimmed (entries m) with
              | Some v => match vdata v with VStr r => Val r | _ => Val line end
              | None => Val line
              end
          end
      end
  | _ => Val line
  end.

(** Flag 0 wants the verb itself, the others a prefix of it. *)
Definition verb_matches (e : ActionEntry) (verb : bytes) : bool :=
  if ae_flag e =? 0 then bool_decide (ae_verb e = verb) else bool_decide (is_Some (strip_prefix (ae_verb e) verb)).

(** The argument for the handler; flag 2 cuts off the prefix only. *)
Definition handler_arg (e : ActionEntry) (verb : bytes) (arg : option bytes) : value :=
  if (ae_flag e =? 2) && negb (bool_decide (ae_verb e = [])) then
    let rest := drop (length (ae_verb e)) verb in
    mk (VStr (match arg with
              | None => rest
              | Some a => match rest with [] => a | _ => rest ++ $" " ++ a end
              end))
  else match arg with Some a => mk (VStr a) | None => void_value end.

Definition with_verb {A} (verb : bytes) (m : V A) : V A := λ s,
  finally m (λ s, s <| verbStack_ ::= tail |>) (s <| verbStack_ ::= cons verb |>).

(** The owner of an action that can still be called. *)
Definition action_owner (e : ActionEntry) : V (option addr) :=
  let! owner := lock_object (ae_owner e) in
  match owner with
  | None => vret None
  | Some ob => let! o := object ob in vret (if destructed_ o then None else Some ob)
  end.

Definition call_handler (giver : addr) (verb : bytes) (arg : option bytes) (e : ActionEntry) (owner : addr) : V bool :=
  let! result := with_verb verb (with_command_giver (Some giver) (
    let! caller := reads currentObject in
    callFunction (Some owner) (ae_functionName e) [handler_arg e verb arg]
      (match caller with Some _ => OEfun | None => ODriver end))) in
  vret (isTruthy result).

(** The first handler that accepts the line ends the search. *)
Fixpoint try_actions (giver : addr) (verb : bytes) (arg : option bytes) (l : list ActionEntry) : V bool :=
  match l with
  | [] => vret false
  | e :: l =>
      if verb_matches e verb then
        let! owner := action_owner e in
        match owner with
        | None => try_actions giver verb arg l
        | Some ob =>
            let! accepted := call_handler giver verb arg e ob in
            if accepted : bool then vret true else try_actions giver verb arg l
        end
      else try_actions giver verb arg l
  end.

Definition dispatchCommand (giver : option addr) (line : bytes) : V bool :=
  match giver with
  | None => vret false
  | Some g =>
      let! o := object g in
      if destructed_ o then vret false
      else
        let! effectiveLine := λ s, give (modify_command line s) s in
        let '(verb, arg) := splitVerbAndArg effectiveLine in
        match verb with
        | [] => vret false
        | _ =>
            let! o := object g in
            try_actions g verb arg (actions_ o)
        end
  end.
End Commands.
