(* ===== verification/CommandsLogic.v ===== *)
(** * CommandsLogic: moves and calls from outside keep what is relied on

    A move keeps every object in exactly the inventory of its environment, and
    the operations of [Commands] agree, in the sense of [MachineLogic], when the
    callbacks they are given agree. *)

From S2P Require Import Prelude Doubles Values Config Uids Objects ObjectManager Bytecode Verified Operators Sscanf SscanfSpec Machine MachineLogic Commands.
Open Scope Z_scope.

(** ** Moves *)

(** What is left of an inventory when [i] moves to [d]. *)
Definition moved (i d x : addr) (p : option addr * list addr) : option addr * list addr :=
  (if bool_decide (x = i) then Some d else fst p,
   filter (λ a, a ≠ i) (snd p) ++ if bool_decide (x = d) then [i] else []).

Lemma places_lookup w x o : objects w !! x = Some o → places w x = Some (environment_ o, inventory_ o).
Proof. intros Ho. unfold places. by rewrite Ho. Qed.

Lemma places_after f g x y w : (∀ o, (environment_ (f o), inventory_ (f o)) = g (environment_ o, inventory_ o)) →
  places (upd_obj f y w) x = (if bool_decide (x = y) then g else id) <$> places w x.
Proof.
  intros Hf. unfold places, upd_obj, upd. simpl. case_bool_decide as Hxy.
  - rewrite Hxy, lookup_alter_eq. destruct (objects w !! y) as [o|]; [|done]. simpl. by rewrite Hf.
  - rewrite lookup_alter_ne by done. by destruct (objects w !! x).
Qed.

Lemma filter_ne_absent (i : addr) (l : list addr) : i ∉ l → filter (λ a, a ≠ i) l = l.
Proof.
  induction l as [|a l IH]; [done|]. rewrite not_elem_of_cons. intros [Ha Hl].
  rewrite filter_cons_True by done. by rewrite IH.
Qed.

(** [item] leaves the inventory of its environment. *)
Definition leave (i : addr) (old : option addr) : world → world :=
  on_obj (λ o, o <| inventory_ ::= filter (λ a, a ≠ i) |> <| resetState_ := false |>) old.

Definition old_environment (i : addr) (w : world) : option addr :=
  match objects w !! i with Some o => wlock w (environment_ o) | None => None end.

(** Only the inventory of the old environment has had [item] in it. *)
Lemma places_leave i w w' : placed w → is_Some (objects w !! i) → (∀ y, places w' y = places w y) →
  ∀ x, places (leave i (old_environment i w) w') x = (λ p, (fst p, filter (λ a, a ≠ i) (snd p))) <$> places w x.
Proof.
  intros Hw [oi Hi] Hsame x. unfold old_environment. rewrite Hi.
  assert (∀ e l, places w x = Some (e, l) → filter (λ a, a ≠ i) l =
    if bool_decide (wlock w (environment_ oi) = Some x) then filter (λ a, a ≠ i) l else l) as Hf.
  { intros e l Hx. case_bool_decide as Hl; [done|]. apply filter_ne_absent. intros Hin.
    destruct (Hw x e l Hx) as [_ Hiff]. apply Hiff in Hin as [l' Hin]. rewrite (places_lookup w i oi Hi) in Hin.
    injection Hin as He _. apply Hl. rewrite He. apply lock_alive. unfold places in Hx.
    destruct (objects w !! x); [by eexists|done]. }
  unfold leave. destruct (wlock w (environment_ oi)) as [old|] eqn:Eo; cbn [on_obj].
  - rewrite (places_after _ (λ p, (fst p, filter (λ a, a ≠ i) (snd p)))) by done. rewrite Hsame.
    destruct (places w x) as [[e l]|] eqn:Ep; [|done]. simpl. rewrite (Hf e l eq_refl).
    case_bool_decide as H1; case_bool_decide as H2; congruence || done.
  - rewrite Hsame. destruct (places w x) as [[e l]|] eqn:Ep; [|done]. simpl. by rewrite (Hf e l eq_refl).
Qed.

Lemma places_relink i d w : placed w → is_Some (objects w !! i) → ∀ x, places (relink i d w) x = moved i d x <$> places w x.
Proof.
  intros Hw Hi x. unfold relink. fold (old_environment i w).
  set (w0 := upd_obj (λ o, o <| resetState_ := false |>) d w). fold (leave i (old_environment i w) w0).
  rewrite (places_after _ (λ p, (fst p, snd p ++ [i]))) by done. rewrite (places_after _ (λ p, (Some d, snd p))) by done.
  rewrite places_leave by (done || intros y; by apply places_upd). destruct (places w x) as [[e l]|]; [|done].
  simpl. unfold moved. simpl. repeat case_bool_decide; simpl; rewrite ?app_nil_r; congruence || done.
Qed.

(** Where an object is after a change of place to [dest]. *)
Lemma placed_after i dest w w' : placed w → is_Some (objects w !! i) → (∀ d, dest = Some d → is_Some (objects w !! d)) →
  (∀ x, places w' x = (λ p, (if bool_decide (x = i) then dest else fst p,
     filter (λ a, a ≠ i) (snd p) ++ if bool_decide (Some x = dest) then [i] else [])) <$> places w x) → placed w'.
Proof.
  intros Hw [oi Hi] Hd Hp c e l. rewrite Hp. destruct (places w c) as [[e0 l0]|] eqn:Ec; [|done].
  intros [= <- <-]. destruct (Hw c e0 l0 Ec) as [Hn Hiff].
  assert (∀ x, (∃ l', places w' x = Some (Some c, l')) ↔
    if bool_decide (x = i) then Some c = dest else ∃ l', places w x = Some (Some c, l')) as Hnew.
  { intros x. rewrite Hp. case_bool_decide as Hx.
    - subst x. rewrite (places_lookup w i oi Hi). simpl. split; [by intros (l' & [= ->])|intros ->; by eexists].
    - destruct (places w x) as [[e1 l1]|]; [|by split; intros [? ?]]. simpl.
      split; intros (l' & [= -> _]); by eexists. }
  simpl. split.
  - apply NoDup_app. split_and!; [by apply NoDup_filter| |case_bool_decide; [apply NoDup_singleton|constructor]].
    intros x [Hx _]%list_elem_of_filter. case_bool_decide; [by intros ->%list_elem_of_singleton|by intros ?%not_elem_of_nil].
  - intros x. rewrite Hnew, elem_of_app, list_elem_of_filter.
    assert (x ∈ (if bool_decide (Some c = dest) then [i] else []) ↔ Some c = dest ∧ x = i) as ->.
    { case_bool_decide; [rewrite list_elem_of_singleton; tauto|]. split; [by intros ?%not_elem_of_nil|tauto]. }
    destruct (decide (x = i)) as [->|Hx].
    + rewrite bool_decide_true by done. tauto.
    + rewrite bool_decide_false, <- Hiff by done. tauto.
Qed.

Lemma relink_placed i d w : placed w → is_Some (objects w !! i) → is_Some (objects w !! d) → placed (relink i d w).
Proof.
  intros Hw Hi Hd. apply (placed_after i (Some d) w); [done|done|by intros ? [= <-]|]. intros x. rewrite places_relink by done.
  destruct (places w x); [|done]. simpl. unfold moved. by rewrite (bool_decide_ext (Some x = Some d) (x = d)) by naive_solver.
Qed.

(** ** The ways into the machine *)

(** An update of an object that concerns neither its program, its variables
    nor its place. *)
Definition minor (f : LpcObject → LpcObject) : Prop := ∀ o,
  (program_ (f o), length (variables_ (f o))) = (program_ o, length (variables_ o)).

Lemma layout_upd_obj f a s : minor f → ∀ ob, layout (s <| world_ ::= upd_obj f a |>) ob = layout s ob.
Proof. intros Hf. apply layout_upd. intros o. by injection (Hf o). Qed.

Lemma quiet_touch ob : quiet (change_world (touch ob)).
Proof.
  intros s. split; [|done]. apply still_intro; try done; [by apply layout_upd_obj|]. intros x. by apply places_upd.
Qed.

Lemma quiet_on_world {A} (f : world → result A) : quiet (on_world f).
Proof. intros s. simpl. reflexivity. Qed.

Lemma resolve_finds n name k : ∀ t s, ready s → safe (resolve n k name t) (resolve n k name t) s
  (λ r s', calm s s' ∧ ∀ q u, r = Some (q, u) → callable s' u (fst q) (snd q)) (λ _ s', calm s s').
Proof.
  induction k as [|k IH]; intros t s Hr; cbn [resolve]; [apply safe_no_fuel|].
  eapply (safe_bind _ _ _ _ _ _ (λ own s', s' = s ∧ ∃ m, layout s t = Some (own, m))).
  { unfold program_of. eapply (safe_bind _ _ _ _ _ _ (λ o s', s' = s ∧ objects (world_ s) !! t = Some o)).
    { apply (safe_found (objects (world_ s) !! t) s). auto. }
    intros o s0 [-> Ho]. apply safe_ret. split; [done|]. unfold layout. rewrite Ho. simpl. by eexists. }
  intros own s0 [-> (m & Hl)].
  eapply safe_bind; [by apply findFunctionInChain_finds|]. intros r s1 [H1 Hf]. cbv beta in *. destruct r as [[p fn]|].
  - apply safe_ret. split; [done|]. intros q u [= <- <-]. exists own, m. rewrite (still_layout s s1) by apply H1.
    split; [done|]. by apply Hf.
  - eapply (safe_bind _ _ _ _ _ _ (λ _ s', s' = s1)).
    { split; [done|]. unfold on_world. by destruct (from_result _). }
    intros [next|] s2 ->; [|by apply safe_ret].
    eapply safe_weaken; [apply IH; by apply (calm_ready s)| |].
    + intros r s2 [H2 Hc]. split; [by etrans|done].
    + intros e s2 H2. by etrans.
Qed.

Section Entry.
Context (run1 run2 : runner) (Hrun : runs_agree run1 run2)
  (closure1 closure2 : applier) (Hclosure : closures_agree closure1 closure2) (n : nat).

Lemma agree_ret {A} (a : A) s : ready s → agree (vret a) (vret a) s.
Proof. by apply quiet_agree, quiet_ret. Qed.

Lemma agree_callFunction obj name args origin s : ready s →
  agree (callFunction run1 n obj name args origin) (callFunction run2 n obj name args origin) s.
Proof.
  intros Hr. destruct obj as [ob|]; [|by apply agree_ret]. cbn [callFunction].
  apply quiet_then; [apply quiet_object|done|]. intros o s1 Hr1. destruct (destructed_ o); [by apply agree_ret|].
  apply quiet_then; [apply quiet_touch|done|]. intros _ s2 Hr2.
  apply quiet_then; [apply quiet_reads|done|]. intros caller s3 Hr3.
  apply quiet_then; [apply quiet_on_world|done|]. intros target s4 Hr4.
  eapply safe_bind; [eapply safe_weaken; [by apply resolve_finds| |]; intros; [eassumption|by apply calm_keeps]|].
  intros r s5 [H5 Hc]. eapply (safe_weaken _ _ s5 (λ _ s', keeps s5 s') _ (λ _ s', keeps s5 s')).
  2,3: intros ? s6 H6; by apply (calm_then_keeps s4 s5).
  assert (ready s5) as Hr5 by by apply (calm_ready s4).
  destruct r as [[q u]|]; [|by apply agree_ret].
  apply agree_with_origin; [done|]. intros s6 H6. apply Hrun; [by apply (still_ready s5)|].
  apply (still_callable s5); [done|]. by apply Hc.
Qed.

Lemma agree_functionExists obj name s : ready s →
  agree (functionExists n obj name) (functionExists n obj name) s.
Proof.
  intros Hr. destruct obj as [ob|]; [|by apply agree_ret]. cbn [functionExists].
  apply quiet_then; [apply quiet_object|done|]. intros o s1 Hr1. destruct (destructed_ o); [by apply agree_ret|].
  apply agree_then; [|by intros; apply agree_ret].
  eapply safe_weaken; [by apply findFunctionInChain_finds| |].
  - intros r s2 [H2 _]. by apply calm_keeps.
  - intros e s2 H2. by apply calm_keeps.
Qed.

Lemma agree_applyMaster name args s : ready s → agree (applyMaster run1 n name args) (applyMaster run2 n name args) s.
Proof.
  intros Hr. apply quiet_then; [apply quiet_reads|done|]. intros [m|] s1 Hr1; [by apply agree_callFunction|by apply agree_raise].
Qed.

Lemma agree_privilegeViolation what args s : ready s →
  agree (privilegeViolation run1 n what args) (privilegeViolation run2 n what args) s.
Proof.
  intros Hr. unfold privilegeViolation. apply quiet_then; [apply quiet_reads|done|]. intros caller s1 Hr1.
  apply quiet_then; [apply quiet_reads|done|]. intros master s2 Hr2.
  apply quiet_then; [apply quiet_reads|done|]. intros simul s3 Hr3. destruct (_ && _); [by apply agree_ret|].
  apply agree_then; [by apply agree_functionExists|]. intros b s4 Hr4. destruct (negb b); [by apply agree_raise|].
  apply agree_then; [by apply agree_applyMaster|]. intros r s5 Hr5.
  destruct (vdata r); try by apply agree_raise. destruct (_ <? 0); [by apply agree_raise|by apply agree_ret].
Qed.

Lemma agree_driver_hook closure bindTo args s : ready s →
  agree (callDriverHookClosure closure1 closure bindTo args) (callDriverHookClosure closure2 closure bindTo args) s.
Proof.
  intros Hr. destruct closure as [a|]; [|by apply agree_raise]. cbn [callDriverHookClosure].
  apply quiet_then; [apply quiet_on_heap|done|]. intros _ s1 Hr1. by apply Hclosure.
Qed.

(** *** Moves *)

#[local] Arguments relink : simpl never.

(** A change of places, and of nothing else that counts. *)
Lemma keeps_world s w : ready s → placed w → (∀ ob, layout (s <| world_ := w |>) ob = layout s ob) →
  programs w = programs (world_ s) → keeps s (s <| world_ := w |>).
Proof.
  intros [Hlink Hcache _] Hplaced Hl Hp. split; split; try done; cbn; rewrite ?Hp; try done.
  - intros ob own k p Ho Hi'. rewrite Hl in Ho. apply (linked_same s); [done|done|]. eapply Hlink; [done|].
    by apply (inherits_from_same (s <| world_ := w |>)).
  - intros p name q fn H. apply (function_of_mono s); [cbn; by rewrite Hp|done|by eapply Hcache].
  - intros ob own k _ Ho. exists k. by rewrite Hl.
Qed.

Lemma layout_upd_world f a s w : minor f → (∀ ob, layout (s <| world_ := w |>) ob = layout s ob) →
  ∀ ob, layout (s <| world_ := upd_obj f a w |>) ob = layout s ob.
Proof. intros Hf Hw ob. rewrite <- Hw. exact (layout_upd_obj f a (s <| world_ := w |>) Hf ob). Qed.

Lemma layout_leave i old s w : (∀ ob, layout (s <| world_ := w |>) ob = layout s ob) →
  ∀ ob, layout (s <| world_ := leave i old w |>) ob = layout s ob.
Proof. intros Hw ob. destruct old; [by apply layout_upd_world|apply Hw]. Qed.

Lemma keeps_relink i d s : ready s → is_Some (objects (world_ s) !! i) → is_Some (objects (world_ s) !! d) →
  keeps s (s <| world_ ::= relink i d |>).
Proof.
  intros Hr Hi Hd. apply keeps_world; [done|by apply relink_placed, Hd; [apply Hr|]| |].
  - do 2 (apply layout_upd_world; [done|]). by apply (layout_leave i (old_environment i (world_ s))), layout_upd_world.
  - unfold relink. by destruct (match objects (world_ s) !! i with Some o => _ | None => None end).
Qed.

Lemma agree_init_for ob other s : ready s → agree (init_for run1 n ob other) (init_for run2 n ob other) s.
Proof.
  intros Hr. unfold init_for. apply quiet_then; [apply quiet_object|done|]. intros o s1 Hr1.
  destruct (commandsEnabled_ o); [|by apply agree_ret].
  apply agree_then; [|by intros; apply agree_ret]. apply agree_with_command_giver; [done|]. intros s2 H2.
  apply agree_callFunction. by apply (still_ready s1).
Qed.

(** [m] reads an object. *)
Lemma object_then {A} a (k1 k2 : LpcObject → V A) s : ready s →
  (∀ o, objects (world_ s) !! a = Some o → agree (k1 o) (k2 o) s) → agree (vbind (object a) k1) (vbind (object a) k2) s.
Proof.
  intros Hr Hk. eapply (safe_bind _ _ _ _ _ _ (λ o s', s' = s ∧ objects (world_ s) !! a = Some o)).
  - apply (safe_found (objects (world_ s) !! a) s). auto.
  - intros o s' [-> Ho]. by apply Hk.
Qed.

Lemma reads_then {A B} (f : vm → A) (k1 k2 : A → V B) s : ready s → agree (k1 (f s)) (k2 (f s)) s →
  agree (vbind (reads f) k1) (vbind (reads f) k2) s.
Proof. intros Hr Hk. exact Hk. Qed.

Lemma agree_move_without_hook i d s : ready s → is_Some (objects (world_ s) !! i) → is_Some (objects (world_ s) !! d) →
  agree (move_without_hook run1 n i d) (move_without_hook run2 n i d) s.
Proof.
  intros Hr Hi Hd. unfold move_without_hook. apply agree_then.
  { unfold agree, change_world. apply safe_changes. by apply keeps_relink. }
  intros _ s1 Hr1. apply agree_then; [by apply agree_init_for|]. intros _ s2 Hr2.
  apply quiet_then; [apply quiet_object|done|]. intros o s3 Hr3. apply agree_each; [done|]. intros ob s4 [Hr4 _].
  case_bool_decide; [by apply agree_ret|]. apply agree_then; [by apply agree_init_for|]. intros _ s5 Hr5. by apply agree_init_for.
Qed.

Lemma agree_moveObject item dest s : ready s →
  agree (moveObject run1 closure1 n item dest) (moveObject run2 closure2 n item dest) s.
Proof.
  intros Hr. unfold moveObject. destruct item as [i|], dest as [d|]; try by apply agree_ret.
  case_bool_decide as Hid; [by apply agree_ret|].
  apply object_then; [done|]. intros oi Hi. apply object_then; [done|]. intros od Hd.
  destruct (_ || _); [by apply agree_ret|]. apply reads_then; [done|]. apply reads_then; [done|].
  destruct (hook_closure 1 s) as [c|]; [|destruct (hook_closure 0 s) as [c|]].
  - apply agree_then; [by apply agree_driver_hook|]. by intros; apply agree_ret.
  - apply reads_then; [done|]. apply agree_then; [by apply agree_driver_hook|]. by intros; apply agree_ret.
  - apply agree_move_without_hook; [done|done|by eexists..].
Qed.

(** *** Typed commands *)

Lemma agree_with_verb {A} verb (m1 m2 : V A) s : ready s → (∀ s', still s s' → agree m1 m2 s') →
  agree (with_verb verb m1) (with_verb verb m2) s.
Proof.
  intros Hr H. guarded (λ s : vm, s <| verbStack_ ::= cons verb |>) (λ s : vm, s <| verbStack_ ::= tail |>).
  apply H. by apply still_guard.
Qed.

Lemma quiet_action_owner e : quiet (action_owner e).
Proof. unfold action_owner, lock_object. quietly. Qed.

Lemma agree_try_actions giver verb arg l : ∀ s, ready s →
  agree (try_actions run1 n giver verb arg l) (try_actions run2 n giver verb arg l) s.
Proof.
  induction l as [|e l IH]; intros s Hr; cbn [try_actions]; [by apply agree_ret|].
  destruct (verb_matches e verb); [|by apply IH].
  apply quiet_then; [apply quiet_action_owner|done|]. intros [ob|] s1 Hr1; [|by apply IH].
  apply agree_then; [|intros [] s2 Hr2; [by apply agree_ret|by apply IH]].
  unfold call_handler. apply agree_then; [|by intros; apply agree_ret].
  apply agree_with_verb; [done|]. intros s2 H2. apply agree_with_command_giver; [by apply (still_ready s1)|]. intros s3 H3.
  assert (ready s3) as Hr3 by by apply (still_ready s2), (still_ready s1).
  apply reads_then; [done|]. by apply agree_callFunction.
Qed.

Lemma agree_dispatchCommand giver line s : ready s →
  agree (dispatchCommand run1 n giver line) (dispatchCommand run2 n giver line) s.
Proof.
  intros Hr. destruct giver as [g|]; [|by apply agree_ret]. cbn [dispatchCommand].
  apply quiet_then; [apply quiet_object|done|]. intros o s1 Hr1. destruct (destructed_ o); [by apply agree_ret|].
  apply (quiet_then (λ s, give (modify_command line s) s)); [by intros s2; apply quiet_give|done|]. intros eff s2 Hr2.
  destruct (splitVerbAndArg eff) as [[|c verb] arg]; [by apply agree_ret|].
  apply quiet_then; [apply quiet_object|done|]. intros o2 s3 Hr3. by apply agree_try_actions.
Qed.
End Entry.
