(* ===== verification/Efuns.v ===== *)
(** * Efuns: built-in functions

    Built-in functions of [src/efun/EfunTable.cpp]: those that ask for the type
    of a value, for objects and their places and for the calls that are running,
    those on mappings, and those that call back into LPC: [call_other], [map],
    [filter], [evaluate], [present], [command] and [move_object].  Each is a
    lambda of [registerCoreEfuns] there.

    [driver_efuns] is the table of these functions, with which the machine is
    run in [Execution] and [CommandsSpec].  To it, a name that is not in it is
    an undefined efun.  [VM::findObject] of a file that is not loaded loads it,
    which is [ObjectManager.loadObject]; there a run stops here, without a
    result, as when it lacks fuel. *)

From S2P Require Import Prelude Doubles Values Config Uids Objects ObjectManager Bytecode Operators Sscanf Machine Commands.
Open Scope Z_scope.

(** ** Arguments and results *)

Definition flag_value (b : bool) : value := int_value (if b then 1 else 0).
Definition object_or_void (o : option addr) : value := match o with Some a => object_value a | None => void_value end.
Definition current : V (option addr) := reads currentObject.

(** [std::get<std::shared_ptr<LpcObject>>], which may be null. *)
Definition object_arg (v : option value) : option (option addr) :=
  match v with
  | Some v => match vdata v with VObj p => Some p | _ => None end
  | None => None
  end.

(** An argument that is an object, or else the current object. *)
Definition object_or_current (v : option value) : V (option addr) :=
  match object_arg v with Some p => vret p | None => current end.

Definition int_arg (v : option value) : option Z :=
  match v with
  | Some v => match vdata v with VInt i => Some i | _ => None end
  | None => None
  end.

Definition string_arg (v : option value) : option bytes :=
  match v with
  | Some v => match vdata v with VStr s => Some s | _ => None end
  | None => None
  end.

Definition map_items (p : option addr) : M heap Mapping := λ h,
  match p with
  | None => (Ok (mkMapping [] 1 []), h)
  | Some a => (deref (mappings h !! a), h)
  end.

Definition array_value (l : list value) : V value := on_heap (new_array l).

(** The [i]-th element of an array, as it is now. *)
Definition element (a : addr) (i : nat) : V value := λ s, found (l ← arrays (lpcHeap (world_ s)) !! a; l !! i) s.

(** How many elements a loop goes through; an array that shrinks or grows
    while it runs leaves its iterators dangling. *)
Definition array_length (a : addr) : V nat := λ s, found (length <$> arrays (lpcHeap (world_ s)) !! a) s.

Definition same_length (a : addr) (k : nat) : V unit :=
  let! now := array_length a in
  if (now =? k)%nat then vret tt else give Undef.

(** ** Types *)

Definition efun_type (p : value → bool) (args : list value) : V value :=
  vret (flag_value (match args with [] => false | v :: _ => p v end)).

Definition is_function (v : value) : bool := match vdata v with VClo (Some _) => true | _ => false end.
Definition is_object (v : value) : bool := match vdata v with VObj (Some _) => true | _ => false end.
Definition is_string (v : value) : bool := match vdata v with VStr _ => true | _ => false end.
Definition is_mapping (v : value) : bool := match vdata v with VMap _ => true | _ => false end.
Definition is_int (v : value) : bool := match vdata v with VInt _ => true | _ => false end.
Definition is_double (v : value) : bool := match vdata v with VFloat _ => true | _ => false end.
Definition is_undefined (v : value) : bool := isVoid v || isUndefined v.
Definition is_array (v : value) : bool := match vdata v with VArr _ => true | _ => false end.
Definition is_class (v : value) : bool := is_array v && isClassInstance v.

Definition efun_sizeof (args : list value) : V value :=
  match args with
  | [] => vret (int_value 0)
  | v :: _ =>
      match vdata v with
      | VArr p => let! l := on_heap (items p) in vret (int_value (size l))
      | VMap p => let! m := on_heap (map_items p) in vret (int_value (size (entries m)))
      | VStr s => vret (int_value (size s))
      | VBuf None => vret (int_value 0)
      | VBuf (Some a) => let! b := λ s, found (buffers (lpcHeap (world_ s)) !! a) s in vret (int_value (size b))
      | _ => vret (int_value 0)
      end
  end.

(** ** Mappings *)

Definition mapping_arg (args : list value) (msg : bytes) : V (option addr) :=
  match args with
  | v :: _ => match vdata v with VMap p => vret p | _ => lpc_error msg end
  | [] => lpc_error msg
  end.

Definition efun_keys (args : list value) : V value :=
  let! p := mapping_arg args $"keys: expected a mapping argument" in
  let! m := on_heap (map_items p) in
  array_value (map fst (entries m)).

Definition efun_values (args : list value) : V value :=
  let! p := mapping_arg args $"values: expected a mapping argument" in
  let! m := on_heap (map_items p) in
  array_value (map snd (entries m)).

(** The loop of [mapDeleteImpl]: an entry that is erased is followed by the one
    that takes its place. *)
Fixpoint erase_key (k i : nat) (key : value) (m : Mapping) : result Mapping :=
  match k with
  | O => Ok m
  | S k =>
      match entries m !! i with
      | None => Ok m
      | Some (x, _) =>
          if valuesEqual x key then let* m := Columns.eraseAt m i in erase_key k i key m
          else erase_key k (S i) key m
      end
  end.

Definition efun_map_delete (args : list value) : V value :=
  let! p := mapping_arg args $"map_delete: expected a mapping argument" in
  match args !! 1%nat with
  | None => lpc_error $"map_delete: expected a key argument"
  | Some key =>
      match p with
      | None => vret void_value
      | Some a =>
          let! _ := on_heap (λ h,
            match (let* m := deref (mappings h !! a) in erase_key (length (entries m)) 0 key m) with
            | Ok m => (Ok tt, set_mappings (insert a m) h)
            | Throw e => (Throw e, h)
            | Undefined => (Undefined, h)
            | OutOfFuel => (OutOfFuel, h)
            end) in
          vret void_value
      end
  end.

(** ** Errors and the evaluation limit *)

Definition efun_error (args : list value) : V value :=
  lpc_error (default $"error" (string_arg (head args))).

Definition efun_throw (args : list value) : V value :=
  match args with
  | [v] => raise (LpcThrownValue v)
  | _ => lpc_error $"throw: expected exactly one argument"
  end.

Definition evalLimitDispatch (x : Z) : V value :=
  let! (cost, limit) := reads (λ s, (evalCost_ s, maxEvalCost_ s)) in
  if x =? 0 then let! _ := changes (λ s, s <| evalCost_ := 0 |>) in vret (int_value limit)
  else if x =? -1 then (if in_i64 (limit - cost) then vret (int_value (limit - cost)) else give Undef)
  else if x =? 1 then vret (int_value limit)
  else let! _ := changes (λ s, s <| maxEvalCost_ := x |>) in vret (int_value x).

Definition efun_set_eval_limit (args : list value) : V value :=
  match int_arg (head args) with
  | Some x => evalLimitDispatch x
  | None => lpc_error $"set_eval_limit: expected an int argument"
  end.

(** Its other names, each with its own default. *)
Definition efun_eval_cost (d : Z) (args : list value) : V value := evalLimitDispatch (default d (int_arg (head args))).

(** ** Objects *)

Definition efun_this_object (args : list value) : V value := let! o := current in vret (object_or_void o).
Definition efun_master (args : list value) : V value := let! o := master_of in vret (object_or_void o).

Definition efun_all_previous_objects (args : list value) : V value :=
  let! l := reads allPreviousObjects in
  array_value (map object_value l).

Definition efun_previous_object (args : list value) : V value :=
  let idx := default 0 (int_arg (head args)) in
  if idx =? -1 then efun_all_previous_objects []
  else if idx <? 0 then vret void_value
  else let! o := reads (λ s, previousObject s (to_i32 idx)) in vret (object_or_void o).

Definition efun_origin (args : list value) : V value :=
  let! l := reads originStack_ in
  vret (mk (VStr (originName (default ODriver (head l))))).

Definition efun_query_verb (args : list value) : V value :=
  let! verb := reads currentVerb in
  vret (match verb with [] => void_value | _ => mk (VStr verb) end).

Definition efun_file_name (args : list value) : V value :=
  let! ob := object_or_current (head args) in
  match ob with
  | None => vret void_value
  | Some a => let! o := object a in vret (mk (VStr (filename_ o)))
  end.

(** The object that [args] asks about, the current one without arguments. *)
Definition asked_object (args : list value) : V (option addr) :=
  match args with
  | [] => current
  | v :: _ => vret (match vdata v with VObj p => p | _ => None end)
  end.

Definition efun_clonep (args : list value) : V value :=
  let! ob := asked_object args in
  match ob with
  | None => vret (int_value 0)
  | Some a =>
      let! o := object a in
      let! blueprint := reads (λ s, lookupLoadedObject (world_ s) (filename_ o)) in
      vret (flag_value (negb (bool_decide (blueprint = Some a))))
  end.

Definition efun_living (args : list value) : V value :=
  let! ob := asked_object args in
  match ob with
  | None => vret (int_value 0)
  | Some a => let! o := object a in vret (flag_value (commandsEnabled_ o))
  end.

Definition efun_query_privs (args : list value) : V value :=
  let! ob := object_or_current (head args) in
  match ob with
  | None => vret void_value
  | Some a => let! o := object a in vret (match privs_ o with Some p => mk (VStr p) | None => void_value end)
  end.

Definition efun_set_privs (args : list value) : V value :=
  match object_arg (head args) with
  | None => lpc_error $"set_privs: expected an object first argument"
  | Some None => vret void_value
  | Some (Some a) =>
      let! _ := change_world (upd_obj (λ o, o <| privs_ := string_arg (args !! 1%nat) |>) a) in
      vret void_value
  end.

(** [enable_commands] and [disable_commands]. *)
Definition efun_set_commands (on : bool) (args : list value) : V value :=
  let! ob := current in
  let! _ := change_world (on_obj (λ o, o <| commandsEnabled_ := on |>) ob) in
  vret void_value.

(** *** Places *)

(** The environment of an object that is still there. *)
Definition environment_now (a : addr) : V (option addr) :=
  let! o := object a in
  lock_object (environment_ o).

Definition efun_environment (args : list value) : V value :=
  let! ob := object_or_current (head args) in
  match ob with
  | None => vret void_value
  | Some a => let! env := environment_now a in vret (object_or_void env)
  end.

Definition efun_all_inventory (args : list value) : V value :=
  let! ob := object_or_current (head args) in
  let! l := match ob with
            | None => vret []
            | Some a => let! o := object a in vret (inventory_ o)
            end in
  array_value (map object_value l).

(** What is in an object, depth first; an object that is in itself has no end. *)
Fixpoint collect (k : nat) (a : addr) : V (list addr) :=
  match k with
  | O => give NoFuel
  | S k =>
      let! o := object a in
      (fix go (l : list addr) : V (list addr) :=
         match l with
         | [] => vret []
         | x :: l => let! inner := collect k x in let! rest := go l in vret (x :: inner ++ rest)
         end) (inventory_ o)
  end.

Definition efun_deep_inventory (n : nat) (args : list value) : V value :=
  let! ob := object_or_current (head args) in
  let! l := match ob with
            | None => vret []
            | Some a => collect n a
            end in
  array_value (map object_value l).

(** The new place of [item], without hooks and without [init]. *)
Definition reparent (item : addr) (dest : option addr) (w : world) : world :=
  match dest with
  | Some d => relink item d w
  | None =>
      let old := match objects w !! item with Some o => wlock w (environment_ o) | None => None end in
      let w := on_obj (λ o, o <| inventory_ ::= filter (λ a, a ≠ item) |> <| resetState_ := false |>) old w in
      upd_obj (λ o, o <| resetState_ := false |> <| environment_ := None |>) item w
  end.

Definition set_environment_to (item : addr) (dest : option addr) : V value :=
  let! _ := object item in
  let! _ := match dest with Some d => let! _ := object d in vret tt | None => vret tt end in
  let! _ := change_world (reparent item dest) in
  vret void_value.

Definition efun_set_environment (args : list value) : V value :=
  match args with
  | [] => lpc_error $"set_environment() requires at least 1 argument"
  | v :: rest =>
      match object_arg (Some v), rest with
      | Some (Some item), [] => set_environment_to item None
      | Some (Some item), e :: _ =>
          if isVoid e then set_environment_to item None
          else match object_arg (Some e) with
               | Some (Some d) => set_environment_to item (Some d)
               | _ => lpc_error $"Bad argument 2 to set_environment()"
               end
      | _, _ => lpc_error $"Bad argument 1 to set_environment()"
      end
  end.

(** *** Objects by name *)

Definition find_loaded (path : bytes) : V (option addr) := λ s,
  match lookupLoadedObject (world_ s) path with
  | Some a => (Val (Some a), s)
  | None => (NoFuel, s)
  end.

(** [find_object] and, with [compileDefault], [load_object]. *)
Definition efun_find_object (compileDefault : bool) (args : list value) : V value :=
  match string_arg (head args) with
  | None => lpc_error $"find_object: expected a string path argument"
  | Some path =>
      let compile := match int_arg (args !! 1%nat) with Some i => negb (i =? 0) | None => compileDefault end in
      let! ob := if compile then find_loaded path else reads (λ s, lookupLoadedObject (world_ s) path) in
      vret (object_or_void ob)
  end.

(** ** Closures *)

Definition efun_defer (args : list value) : V value :=
  match args with
  | v :: _ =>
      match vdata v with
      | VClo (Some c) => let! _ := changes (registerDefer (Some c)) in vret void_value
      | _ => vret void_value
      end
  | [] => vret void_value
  end.

(** The names of the parameters; anything but a symbol is an error. *)
Fixpoint symbol_names (l : list value) : V (list bytes) :=
  match l with
  | [] => vret []
  | v :: l =>
      match vdata v with
      | VSym name => let! names := symbol_names l in vret (name :: names)
      | _ => lpc_error $"Bad argument 1 to unbound_lambda(): parameter array must contain only 'name symbols"
      end
  end.

Definition efun_unbound_lambda (args : list value) : V value :=
  match args with
  | params :: body :: _ =>
      let! names := match vdata params with
                    | VArr p => let! l := on_heap (items p) in symbol_names l
                    | VVoid | VInt 0 => vret []
                    | _ => lpc_error $"Bad argument 1 to unbound_lambda()"
                    end in
      on_heap (λ h, let '(a, h) := alloc_closure (mkClosure None [] [] false true names body) h in (Ok (mk (VClo (Some a))), h))
  | _ => lpc_error $"unbound_lambda() requires 2 arguments"
  end.

Section Calls.
(** How the machine is called back, and the fuel that is left. *)
Context (run : runner) (callClosure : applier) (n : nat).

Definition efun_evaluate (args : list value) : V value :=
  match args with
  | v :: extra =>
      match vdata v with
      | VClo (Some c) => callClosure (Some c) extra
      | _ => vret void_value
      end
  | [] => vret void_value
  end.

(** What [map_array] and [filter_array] do with an element: a closure, or a
    function of an object. *)
Definition element_call (name : bytes) (f : value) (extra : list value) : V (option (value → V value)) :=
  match vdata f, extra with
  | VClo None, _ => vret None
  | VClo (Some c), _ => vret (Some (λ item, callClosure (Some c) (item :: extra)))
  | VStr func, t :: extra =>
      match vdata t with
      | VObj target => vret (Some (λ item, callFunction run n target func (item :: extra) OEfun))
      | _ => lpc_error (name ++ $": string function name requires an object third argument")
      end
  | VStr _, [] => lpc_error (name ++ $": string function name requires an object third argument")
  | _, _ => lpc_error (name ++ $": expected a string or function second argument")
  end.

(** [for (const auto& item : arr->items)] over [k] elements, from the [i]-th. *)
Fixpoint map_elements (f : value → V value) (a : addr) (len k i : nat) : V (list value) :=
  match k with
  | O => vret []
  | S k =>
      let! item := element a i in
      let! v := f item in
      let! _ := same_length a len in
      let! rest := map_elements f a len k (S i) in
      vret (v :: rest)
  end.

(** An element that is kept is read again after the call. *)
Fixpoint filter_elements (f : value → V value) (a : addr) (len k i : nat) : V (list value) :=
  match k with
  | O => vret []
  | S k =>
      let! item := element a i in
      let! v := f item in
      let! _ := same_length a len in
      let! item := element a i in
      let! rest := filter_elements f a len k (S i) in
      vret (if isTruthy v then item :: rest else rest)
  end.

Definition over_array (name : bytes) (loop : (value → V value) → addr → nat → nat → nat → V (list value))
    (args : list value) : V value :=
  match args with
  | arr :: f :: extra =>
      match vdata arr with
      | VArr None => array_value []
      | VArr (Some a) =>
          let! call := element_call name f extra in
          match call with
          | None => array_value []
          | Some call => let! len := array_length a in let! l := loop call a len len O in array_value l
          end
      | _ => lpc_error (name ++ $": expected an array first argument")
      end
  | _ => lpc_error (name ++ $": expected an array first argument")
  end.

Definition efun_map_array : list value → V value := over_array $"map_array" map_elements.
Definition efun_filter_array : list value → V value := over_array $"filter_array" filter_elements.

(** The target of one element of [call_other]'s array. *)
Definition element_target (v : value) : V (option addr) :=
  match vdata v with
  | VObj p => vret p
  | VStr path => find_loaded path
  | _ => vret None
  end.

Definition call_element (name : bytes) (args : list value) (v : value) : V value :=
  let! target := element_target v in
  let! r := callFunction run n target name args OCallOther in
  vret (if isVoid r then int_value 0 else r).

Definition efun_call_other (args : list value) : V value :=
  match args with
  | target :: f :: forwarded =>
      match vdata f with
      | VStr name =>
          match vdata target with
          | VArr None => lpc_error $"call_other: target array is null"
          | VArr (Some a) =>
              let! len := array_length a in
              let! l := map_elements (call_element name forwarded) a len len O in
              array_value l
          | VObj None => lpc_error $"call_other: target object is null (destructed?)"
          | VObj (Some ob) => callFunction run n (Some ob) name forwarded OCallOther
          | VStr path => let! ob := find_loaded path in callFunction run n ob name forwarded OCallOther
          | _ => lpc_error $"call_other: first argument must be an object or a string path"
          end
      | _ => lpc_error $"call_other: second argument must be a string function name"
      end
  | _ => lpc_error $"call_other: requires (target, function_name, ...) arguments"
  end.

Definition efun_command (args : list value) : V value :=
  match string_arg (head args) with
  | None => lpc_error $"command: expected a string argument"
  | Some line =>
      let! giver := current in
      let! handled := dispatchCommand run n giver line in
      vret (flag_value handled)
  end.

Definition efun_move_object (args : list value) : V value :=
  match args with
  | [] => lpc_error $"move_object: expected a destination argument"
  | v :: _ =>
      let! item := current in
      match item with
      | None => vret void_value
      | Some i =>
          let! dest := match vdata v with
                       | VObj p => vret p
                       | VStr path => find_loaded path
                       | _ => vret None
                       end in
          match dest with
          | None => lpc_error $"move_object: destination not found"
          | Some d => let! _ := moveObject run callClosure n (Some i) (Some d) in vret void_value
          end
      end
  end.

Definition efun_function_exists (args : list value) : V value :=
  match string_arg (head args) with
  | None => lpc_error $"function_exists: expected a string function-name argument"
  | Some name =>
      let! ob := object_or_current (args !! 1%nat) in
      let! exists_ := functionExists n ob name in
      match ob with
      | Some a => if exists_ : bool then let! o := object a in vret (mk (VStr (filename_ o))) else vret (int_value 0)
      | None => vret (int_value 0)
      end
  end.

Definition inventory_of (c : addr) : V (list addr) := let! o := object c in vret (inventory_ o).

(** The search of [present]: an [id] that changes the inventory leaves its
    iterators dangling. *)
Fixpoint search_in (id_ : bytes) (c : addr) (all l : list addr) : V (option addr) :=
  match l with
  | [] => vret None
  | item :: l =>
      let! r := callFunction run n (Some item) $"id" [mk (VStr id_)] ODriver in
      let! now := inventory_of c in
      if negb (bool_decide (now = all)) then give Undef
      else if isTruthy r then vret (Some item)
      else search_in id_ c all l
  end.

Definition search_object (id_ : bytes) (c : option addr) : V (option addr) :=
  match c with
  | None => vret None
  | Some c => let! l := inventory_of c in search_in id_ c l l
  end.

(** [present] of an object: in the container, or else beside it. *)
Definition present_object (explicit : bool) (container target : addr) : V value :=
  let! env := environment_now target in
  if bool_decide (env = Some container) then vret (object_value target)
  else if explicit then vret void_value
  else
    let! outer := environment_now container in
    vret (if bool_decide (is_Some outer) && bool_decide (env = outer) then object_value target else void_value).

Definition present_id (explicit : bool) (container : addr) (id_ : bytes) : V value :=
  let! r := search_object id_ (Some container) in
  match r with
  | Some x => vret (object_value x)
  | None =>
      if explicit then vret void_value
      else
        let! outer := environment_now container in
        let! r := search_object id_ outer in
        vret (object_or_void r)
  end.

Definition efun_present (args : list value) : V value :=
  match args with
  | [] => lpc_error $"present: expected (object|string, void|object) arguments"
  | what :: rest =>
      let explicit := match object_arg (head rest) with Some _ => true | None => false end in
      let! container := object_or_current (head rest) in
      match container with
      | None => vret void_value
      | Some c =>
          match vdata what with
          | VObj None => vret void_value
          | VObj (Some target) => present_object explicit c target
          | VStr id_ => present_id explicit c id_
          | _ => lpc_error $"present: expected (object|string, void|object) arguments"
          end
      end
  end.

(** The closure gets the owner [target]. *)
Definition bind_to (a : addr) (target : option addr) : V value :=
  on_heap (λ h,
    match closures h !! a with
    | Some c =>
        (Ok (mk (VClo (Some a))), set_closures (insert a (mkClosure target (functionName c) (boundArgs c) (forceEfun c) false
                                                  (lambdaParams c) (lambdaBody c))) h)
    | None => (Undefined, h)
    end).

Definition efun_bind_lambda (args : list value) : V value :=
  match args with
  | [] => lpc_error $"bind_lambda() requires at least 1 argument"
  | v :: rest =>
      match vdata v with
      | VClo (Some a) =>
          let! caller := current in
          match rest with
          | o :: _ =>
              if isVoid o then bind_to a caller
              else match object_arg (Some o) with
                   | Some (Some ob) =>
                       if bool_decide (Some ob = caller) then bind_to a (Some ob)
                       else
                         let! allowed := privilegeViolation run n $"bind_lambda" [object_value ob] in
                         if allowed : bool then bind_to a (Some ob) else vret v
                   | _ => lpc_error $"Bad argument 2 to bind_lambda()"
                   end
          | [] => bind_to a caller
          end
      | _ => lpc_error $"Bad argument 1 to bind_lambda()"
      end
  end.

Definition efun_set_driver_hook (args : list value) : V value :=
  match args with
  | w :: arg :: _ =>
      match vdata w with
      | VInt what =>
          if negb (hook_number what) then
            lpc_error ($"Bad hook number: " ++ to_string what ++ $", expected 0.." ++ to_string (kNumDriverHooks - 1))
          else
            let! allowed := privilegeViolation run n $"set_driver_hook" [int_value what] in
            if allowed : bool then let! _ := setDriverHook what arg in vret void_value else vret void_value
      | _ => lpc_error $"Bad argument 1 to set_driver_hook()"
      end
  | _ => lpc_error $"set_driver_hook() requires 2 arguments"
  end.

(** ** The table *)

Definition efun_table : list (bytes * (list value → V value)) := [
  ($"sizeof", efun_sizeof); ($"strlen", efun_sizeof); ($"strwidth", efun_sizeof);
  ($"functionp", efun_type is_function); ($"objectp", efun_type is_object); ($"stringp", efun_type is_string);
  ($"mapp", efun_type is_mapping); ($"intp", efun_type is_int); ($"floatp", efun_type is_double);
  ($"undefinedp", efun_type is_undefined); ($"nullp", efun_type is_undefined);
  ($"pointerp", efun_type is_array); ($"arrayp", efun_type is_array); ($"classp", efun_type is_class);
  ($"keys", efun_keys); ($"values", efun_values); ($"map_delete", efun_map_delete); ($"m_delete", efun_map_delete);
  ($"error", efun_error); ($"throw", efun_throw);
  ($"set_eval_limit", efun_set_eval_limit); ($"reset_eval_cost", efun_eval_cost 0);
  ($"eval_cost", efun_eval_cost (-1)); ($"max_eval_cost", efun_eval_cost 1);
  ($"this_object", efun_this_object); ($"master", efun_master);
  ($"previous_object", efun_previous_object); ($"all_previous_objects", efun_all_previous_objects);
  ($"origin", efun_origin); ($"query_verb", efun_query_verb);
  ($"file_name", efun_file_name); ($"base_name", efun_file_name); ($"clonep", efun_clonep); ($"living", efun_living);
  ($"query_privs", efun_query_privs); ($"set_privs", efun_set_privs);
  ($"enable_commands", efun_set_commands true); ($"disable_commands", efun_set_commands false);
  ($"environment", efun_environment); ($"all_inventory", efun_all_inventory);
  ($"deep_inventory", efun_deep_inventory n); ($"set_environment", efun_set_environment);
  ($"find_object", efun_find_object false); ($"load_object", efun_find_object true);
  ($"defer", efun_defer); ($"unbound_lambda", efun_unbound_lambda);
  ($"evaluate", efun_evaluate); ($"funcall", efun_evaluate);
  ($"map_array", efun_map_array); ($"map", efun_map_array);
  ($"filter_array", efun_filter_array); ($"filter", efun_filter_array);
  ($"call_other", efun_call_other); ($"command", efun_command); ($"move_object", efun_move_object);
  ($"function_exists", efun_function_exists); ($"present", efun_present);
  ($"bind_lambda", efun_bind_lambda); ($"set_driver_hook", efun_set_driver_hook)].
End Calls.

Definition efun_named {A} (name : bytes) (table : list (bytes * A)) : option A :=
  snd <$> find (λ '(x, _), bool_decide (x = name)) table.

(** Whether a name is in the table does not depend on how it calls back. *)
Definition efun_names : list bytes :=
  map fst (efun_table (λ _ _ _ _, vret void_value) (λ _ _, vret void_value) 0).

(** The driver's table, with the library for patterns, the clock and the memory
    of the machine it runs on. *)
Definition driver_efuns (pcre : Pcre) (clock : nat → Z) (memory : Z) : Efuns := {|
  efun_exists name := bool_decide (name ∈ efun_names);
  efun_call run callClosure n name args :=
    match efun_named name (efun_table run callClosure n) with
    | Some f => f args
    | None => lpc_error ($"undefined efun: " ++ name)
    end;
  efun_pcre := pcre;
  clock_at := clock;
  stack_memory := memory;
|}.
