(* ===== verification/EfunsLogic.v ===== *)
(** * EfunsLogic: what the built-in functions keep

    The table of [Efuns] keeps what the machine relies on: its laws
    ([EfunLaws]) hold, whatever the functions call back. *)

From S2P Require Import Prelude Doubles Values Config Uids Objects ObjectManager Bytecode Verified Operators Sscanf SscanfSpec Machine MachineLogic Commands CommandsLogic Efuns.
Open Scope Z_scope.

(** ** Functions that call nothing *)

Lemma quiet_changes f : (∀ s, calm s (f s)) → quiet (changes f).
Proof. intros H s. apply H. Qed.

Lemma calm_same s s' : world_ s' = world_ s → codes s' = codes s → functionChainCache_ s' = functionChainCache_ s →
  callStack_ s' = callStack_ s → timeExpressionStack_ s' = timeExpressionStack_ s → guards s' = guards s → calm s s'.
Proof.
  intros Hw Hc Hf Hk Ht Hg. split; [|done]. apply still_intro; try done; try by rewrite Hw.
  - intros ob. unfold layout. by rewrite Hw.
  - by rewrite Ht.
Qed.

#[local] Hint Extern 4 (quiet (changes _)) => (apply quiet_changes; intros ?; by apply calm_same) : quiet.

(** An update that concerns neither the program, nor the variables, nor the
    place of an object. *)
Lemma quiet_upd f a : minor f → (∀ o, environment_ (f o) = environment_ o ∧ inventory_ (f o) = inventory_ o) →
  quiet (change_world (upd_obj f a)).
Proof.
  intros Hf Hp s. split; [|done]. apply still_intro; try done; [by apply layout_upd_obj|]. intros x. by apply places_upd.
Qed.

Lemma quiet_current : quiet current.
Proof. apply quiet_reads. Qed.
Lemma quiet_object_or_current v : quiet (object_or_current v).
Proof. unfold object_or_current. case_match; [apply quiet_ret|apply quiet_current]. Qed.
Lemma quiet_asked_object args : quiet (asked_object args).
Proof. destruct args; [apply quiet_current|apply quiet_ret]. Qed.
Lemma quiet_array_value l : quiet (array_value l).
Proof. apply quiet_on_heap. Qed.
Lemma quiet_error {A} msg : quiet (@lpc_error vm A msg).
Proof. apply quiet_raise. Qed.
Lemma quiet_element a i : quiet (element a i).
Proof. intros s. apply quiet_found. Qed.
Lemma quiet_array_length a : quiet (array_length a).
Proof. intros s. apply quiet_found. Qed.
#[local] Hint Resolve quiet_current quiet_object_or_current quiet_asked_object quiet_array_value quiet_error quiet_element
  quiet_array_length : quiet.

Lemma quiet_same_length a k : quiet (same_length a k).
Proof. unfold same_length. quietly. Qed.
Lemma quiet_lock_object p : quiet (lock_object p).
Proof. unfold lock_object. quietly. Qed.
Lemma quiet_find_loaded path : quiet (find_loaded path).
Proof. intros s. unfold find_loaded. by destruct (lookupLoadedObject _ _). Qed.
Lemma quiet_mapping_arg args msg : quiet (mapping_arg args msg).
Proof. unfold mapping_arg. quietly. Qed.
#[local] Hint Resolve quiet_same_length quiet_lock_object quiet_find_loaded quiet_mapping_arg : quiet.

Lemma quiet_environment_now a : quiet (environment_now a).
Proof. unfold environment_now. quietly. Qed.
Lemma quiet_symbol_names l : quiet (symbol_names l).
Proof. induction l; cbn [symbol_names]; quietly. Qed.
Lemma quiet_limit x : quiet (evalLimitDispatch x).
Proof. unfold evalLimitDispatch. quietly. Qed.
#[local] Hint Resolve quiet_environment_now quiet_symbol_names quiet_limit : quiet.

Lemma quiet_type p args : quiet (efun_type p args). Proof. unfold efun_type. quietly. Qed.
Lemma quiet_sizeof args : quiet (efun_sizeof args).
Proof. unfold efun_sizeof. quietly. Qed.
Lemma quiet_keys args : quiet (efun_keys args). Proof. unfold efun_keys. quietly. Qed.
Lemma quiet_values args : quiet (efun_values args). Proof. unfold efun_values. quietly. Qed.
Lemma quiet_map_delete args : quiet (efun_map_delete args). Proof. unfold efun_map_delete. quietly. Qed.
Lemma quiet_efun_error args : quiet (efun_error args). Proof. unfold efun_error. quietly. Qed.
Lemma quiet_throw args : quiet (efun_throw args). Proof. unfold efun_throw. quietly. Qed.
Lemma quiet_set_eval_limit args : quiet (efun_set_eval_limit args). Proof. unfold efun_set_eval_limit. quietly. Qed.
Lemma quiet_eval_cost d args : quiet (efun_eval_cost d args). Proof. unfold efun_eval_cost. quietly. Qed.
Lemma quiet_this_object args : quiet (efun_this_object args). Proof. unfold efun_this_object. quietly. Qed.
Lemma quiet_master args : quiet (efun_master args). Proof. unfold efun_master, master_of. quietly. Qed.
Lemma quiet_all_previous args : quiet (efun_all_previous_objects args). Proof. unfold efun_all_previous_objects. quietly. Qed.
#[local] Hint Resolve quiet_all_previous : quiet.
Lemma quiet_previous args : quiet (efun_previous_object args). Proof. unfold efun_previous_object. quietly. Qed.
Lemma quiet_origin args : quiet (efun_origin args). Proof. unfold efun_origin. quietly. Qed.
Lemma quiet_query_verb args : quiet (efun_query_verb args). Proof. unfold efun_query_verb. quietly. Qed.
Lemma quiet_file_name args : quiet (efun_file_name args). Proof. unfold efun_file_name. quietly. Qed.
Lemma quiet_clonep args : quiet (efun_clonep args). Proof. unfold efun_clonep. quietly. Qed.
Lemma quiet_living args : quiet (efun_living args). Proof. unfold efun_living. quietly. Qed.
Lemma quiet_query_privs args : quiet (efun_query_privs args). Proof. unfold efun_query_privs. quietly. Qed.
Lemma quiet_set_privs args : quiet (efun_set_privs args).
Proof. unfold efun_set_privs. quietly. all: by apply quiet_upd. Qed.
Lemma quiet_set_commands on args : quiet (efun_set_commands on args).
Proof.
  unfold efun_set_commands. quietly. all: match goal with |- quiet (change_world (on_obj _ ?o)) => destruct o end; [by apply quiet_upd|by intros s; apply calm_same; destruct s].
Qed.
Lemma quiet_environment args : quiet (efun_environment args). Proof. unfold efun_environment. quietly. Qed.
Lemma quiet_all_inventory args : quiet (efun_all_inventory args). Proof. unfold efun_all_inventory. quietly. Qed.
Lemma quiet_collect k : ∀ a, quiet (collect k a).
Proof.
  induction k as [|k IH]; intros a; cbn [collect]; [apply quiet_give|]. apply quiet_bind; [apply quiet_object|]. intros o.
  induction (inventory_ o) as [|x l IHl]; [apply quiet_ret|]. quietly.
Qed.
#[local] Hint Resolve quiet_collect : quiet.
Lemma quiet_deep_inventory n args : quiet (efun_deep_inventory n args). Proof. unfold efun_deep_inventory. quietly. Qed.
Lemma quiet_find_object c args : quiet (efun_find_object c args). Proof. unfold efun_find_object. quietly. Qed.
Lemma quiet_defer args : quiet (efun_defer args).
Proof.
  unfold efun_defer. quietly. all: apply quiet_changes; intros s; unfold registerDefer; destruct (deferStack_ s); [done|by apply calm_same].
Qed.
Lemma quiet_unbound_lambda args : quiet (efun_unbound_lambda args). Proof. unfold efun_unbound_lambda. quietly. Qed.
Lemma quiet_inventory_of c : quiet (inventory_of c). Proof. unfold inventory_of. quietly. Qed.
Lemma quiet_bind_to a t : quiet (bind_to a t). Proof. unfold bind_to. quietly. Qed.
Lemma quiet_set_hook what arg : quiet (setDriverHook what arg).
Proof. unfold setDriverHook. quietly. Qed.
#[local] Hint Resolve quiet_inventory_of quiet_bind_to quiet_set_hook : quiet.

(** ** Changes of place *)

Lemma reparent_out i w : placed w → is_Some (objects w !! i) → placed (reparent i None w).
Proof.
  intros Hw Hi. apply (placed_after i None w); [done|done|done|]. intros x. cbn [reparent].
  fold (old_environment i w). fold (leave i (old_environment i w) w).
  rewrite (places_after _ (λ p, (None, snd p))) by done. rewrite places_leave by done.
  destruct (places w x) as [[e l]|]; [|done]. simpl. rewrite app_nil_r. by case_bool_decide.
Qed.

Lemma keeps_reparent i dest s : ready s → is_Some (objects (world_ s) !! i) →
  (∀ d, dest = Some d → is_Some (objects (world_ s) !! d)) → keeps s (s <| world_ ::= reparent i dest |>).
Proof.
  intros Hr Hi Hd. destruct dest as [d|]; [by apply keeps_relink; auto|].
  apply keeps_world; [done|by apply reparent_out; [apply Hr|]| |].
  - apply layout_upd_world; [done|]. by apply (layout_leave i (old_environment i (world_ s))).
  - cbn [reparent]. by destruct (match objects (world_ s) !! i with Some o => _ | None => None end).
Qed.

Lemma agree_set_environment_to i dest s : ready s → agree (set_environment_to i dest) (set_environment_to i dest) s.
Proof.
  intros Hr. unfold set_environment_to. apply object_then; [done|]. intros oi Hi.
  assert (∀ (m : V unit), m = match dest with Some d => let! _ := object d in vret tt | None => vret tt end →
    safe m m s (λ _ s', s' = s ∧ ∀ d, dest = Some d → is_Some (objects (world_ s) !! d)) (λ _ s', s' = s)) as Hdest.
  { intros m ->. destruct dest as [d|]; [|by apply safe_ret].
    eapply (safe_bind _ _ _ _ _ _ (λ o s', s' = s ∧ objects (world_ s) !! d = Some o)).
    - apply (safe_found (objects (world_ s) !! d) s). auto.
    - intros o s' [-> Ho]. apply safe_ret. split; [done|]. intros ? [= <-]. by eexists. }
  eapply safe_bind; [eapply safe_weaken; [by apply Hdest|intros u s' H; exact H|]|].
  { intros e s' ->. by apply keeps_refl. }
  intros _ s' [-> Hd]. apply agree_then; [|by intros; apply agree_ret].
  apply safe_changes. apply keeps_reparent; [done|by eexists|done].
Qed.

(** ** Functions that call back *)

Section Calls.
Context (run1 run2 : runner) (Hrun : runs_agree run1 run2)
  (closure1 closure2 : applier) (Hclosure : closures_agree closure1 closure2) (n : nat).

Lemma agree_quiet {A} (m : V A) s : quiet m → ready s → agree m m s.
Proof. by apply quiet_agree. Qed.

Lemma agree_error {A} msg s : ready s → agree (@lpc_error vm A msg) (lpc_error msg) s.
Proof. by apply agree_raise. Qed.

(** Two functions of values that agree. *)
Definition calls_agree (f1 f2 : value → V value) : Prop := ∀ v s, ready s → agree (f1 v) (f2 v) s.

Lemma agree_evaluate args s : ready s → agree (efun_evaluate closure1 args) (efun_evaluate closure2 args) s.
Proof.
  intros Hr. unfold efun_evaluate. destruct args as [|v extra]; [by apply agree_ret|].
  destruct (vdata v) as [| | | | | | | | |[c|]|]; try by apply agree_ret. by apply Hclosure.
Qed.

(** What [element_call] gives agrees. *)
Definition call_pair (r1 r2 : option (value → V value)) : Prop :=
  match r1, r2 with Some f1, Some f2 => calls_agree f1 f2 | None, None => True | _, _ => False end.

Lemma element_call_pair name f extra s : ∃ r1 r2,
  element_call run1 closure1 n name f extra s = (r1, s) ∧ element_call run2 closure2 n name f extra s = (r2, s) ∧
  match r1, r2 with
  | Val a, Val b => call_pair a b
  | Raise e1, Raise e2 => e1 = e2
  | _, _ => False
  end.
Proof.
  unfold element_call. destruct (vdata f) as [| | | |func| | | | |[c|]|]; try by (eexists _, _; split_and!; reflexivity).
  - destruct extra as [|t extra]; [by eexists _, _; split_and!; reflexivity|].
    destruct (vdata t); try by (eexists _, _; split_and!; reflexivity).
    eexists _, _. split; [reflexivity|]. split; [reflexivity|]. intros v s' Hr. by apply agree_callFunction.
  - eexists _, _. split; [reflexivity|]. split; [reflexivity|]. intros v s' Hr. by apply Hclosure.
Qed.

Lemma agree_map_elements f1 f2 a len k : calls_agree f1 f2 → ∀ i s, ready s →
  agree (map_elements f1 a len k i) (map_elements f2 a len k i) s.
Proof.
  intros Hf. induction k as [|k IH]; intros i s Hr; cbn [map_elements]; [by apply agree_ret|].
  apply quiet_then; [apply quiet_element|done|]. intros item s1 Hr1. apply agree_then; [by apply Hf|]. intros v s2 Hr2.
  apply quiet_then; [apply quiet_same_length|done|]. intros _ s3 Hr3. apply agree_then; [by apply IH|].
  intros; by apply agree_ret.
Qed.

Lemma agree_filter_elements f1 f2 a len k : calls_agree f1 f2 → ∀ i s, ready s →
  agree (filter_elements f1 a len k i) (filter_elements f2 a len k i) s.
Proof.
  intros Hf. induction k as [|k IH]; intros i s Hr; cbn [filter_elements]; [by apply agree_ret|].
  apply quiet_then; [apply quiet_element|done|]. intros item s1 Hr1. apply agree_then; [by apply Hf|]. intros v s2 Hr2.
  apply quiet_then; [apply quiet_same_length|done|]. intros _ s3 Hr3. apply quiet_then; [apply quiet_element|done|].
  intros item2 s4 Hr4. apply agree_then; [by apply IH|]. intros; by apply agree_ret.
Qed.

Lemma vbind_val {A B} (m : V A) (k : A → V B) s a s' : m s = (Val a, s') → vbind m k s = k a s'.
Proof. unfold vbind. by intros ->. Qed.

Lemma agree_over_array name loop : (∀ f1 f2 a len k, calls_agree f1 f2 → ∀ i s, ready s → agree (loop f1 a len k i) (loop f2 a len k i) s) →
  ∀ args s, ready s → agree (over_array run1 closure1 n name loop args) (over_array run2 closure2 n name loop args) s.
Proof.
  intros Hloop args s Hr. unfold over_array. destruct args as [|arr [|f extra]]; try by apply agree_error.
  destruct (vdata arr) as [| | | | | | |[a|]| | |]; try by apply agree_error.
  2: by apply agree_quiet; [apply quiet_array_value|].
  destruct (element_call_pair name f extra s) as (r1 & r2 & E1 & E2 & H).
  destruct r1 as [c1|e1| |], r2 as [c2|e2| |]; try done; unfold agree, safe.
  - rewrite (vbind_val _ _ _ _ _ E1), (vbind_val _ _ _ _ _ E2). destruct c1 as [c1|], c2 as [c2|]; try done.
    + apply quiet_then; [apply quiet_array_length|done|]. intros len s1 Hr1. apply agree_then; [by apply Hloop|].
      intros l s2 Hr2. by apply agree_quiet; [apply quiet_array_value|].
    + by apply agree_quiet; [apply quiet_array_value|].
  - unfold vbind. rewrite E1, E2. subst. split; [done|]. by apply keeps_refl.
Qed.

Lemma calls_agree_element name args : calls_agree (call_element run1 n name args) (call_element run2 n name args).
Proof.
  intros v s Hr. unfold call_element. apply quiet_then; [unfold element_target; quietly|done|]. intros t s1 Hr1.
  apply agree_then; [by apply agree_callFunction|]. intros; by apply agree_ret.
Qed.

Lemma agree_call_other args s : ready s → agree (efun_call_other run1 n args) (efun_call_other run2 n args) s.
Proof.
  intros Hr. unfold efun_call_other. destruct args as [|t [|f forwarded]]; try by apply agree_error.
  destruct (vdata f) as [| | | |name| | | | | |]; try by apply agree_error.
  destruct (vdata t) as [| | | |path| |[ob|]|[a|]| | |]; try by apply agree_error.
  - apply quiet_then; [apply quiet_find_loaded|done|]. intros ob s1 Hr1. by apply agree_callFunction.
  - by apply agree_callFunction.
  - apply quiet_then; [apply quiet_array_length|done|]. intros len s1 Hr1.
    apply agree_then; [apply agree_map_elements; [apply calls_agree_element|done]|].
    intros l s2 Hr2. by apply agree_quiet; [apply quiet_array_value|].
Qed.

Lemma agree_command args s : ready s → agree (efun_command run1 n args) (efun_command run2 n args) s.
Proof.
  intros Hr. unfold efun_command. destruct (string_arg _) as [line|]; [|by apply agree_error].
  apply quiet_then; [apply quiet_current|done|]. intros giver s1 Hr1.
  apply agree_then; [by apply agree_dispatchCommand|]. intros; by apply agree_ret.
Qed.

Lemma agree_move_object args s : ready s → agree (efun_move_object run1 closure1 n args) (efun_move_object run2 closure2 n args) s.
Proof.
  intros Hr. unfold efun_move_object. destruct args as [|v args]; [by apply agree_error|].
  apply quiet_then; [apply quiet_current|done|]. intros [i|] s1 Hr1; [|by apply agree_ret].
  apply quiet_then; [quietly|done|]. intros [d|] s2 Hr2; [|by apply agree_error].
  apply agree_then; [by apply agree_moveObject|]. intros; by apply agree_ret.
Qed.

Lemma agree_function_exists args s : ready s → agree (efun_function_exists n args) (efun_function_exists n args) s.
Proof.
  intros Hr. unfold efun_function_exists. destruct (string_arg _) as [name|]; [|by apply agree_error].
  apply quiet_then; [apply quiet_object_or_current|done|]. intros ob s1 Hr1.
  apply agree_then; [by apply agree_functionExists|]. intros b s2 Hr2. apply agree_quiet; [quietly|done].
Qed.

Lemma agree_search_in id_ c all l : ∀ s, ready s → agree (search_in run1 n id_ c all l) (search_in run2 n id_ c all l) s.
Proof.
  induction l as [|x l IH]; intros s Hr; cbn [search_in]; [by apply agree_ret|].
  apply agree_then; [by apply agree_callFunction|]. intros r s1 Hr1.
  apply quiet_then; [apply quiet_inventory_of|done|]. intros now s2 Hr2.
  case_bool_decide; cbn [negb]; [|by apply agree_quiet; [apply quiet_give|]].
  destruct (isTruthy r); [by apply agree_ret|by apply IH].
Qed.

Lemma agree_search_object id_ c s : ready s → agree (search_object run1 n id_ c) (search_object run2 n id_ c) s.
Proof.
  intros Hr. destruct c as [c|]; [|by apply agree_ret]. cbn [search_object].
  apply quiet_then; [apply quiet_inventory_of|done|]. intros l s1 Hr1. by apply agree_search_in.
Qed.

Lemma agree_present args s : ready s → agree (efun_present run1 n args) (efun_present run2 n args) s.
Proof.
  intros Hr. unfold efun_present. destruct args as [|what rest]; [by apply agree_error|].
  apply quiet_then; [apply quiet_object_or_current|done|]. intros [c|] s1 Hr1; [|by apply agree_ret].
  destruct (vdata what) as [| | | |id_| |[t|]| | | |]; try by apply agree_error.
  - unfold present_id. apply agree_then; [by apply agree_search_object|]. intros [x|] s2 Hr2; [by apply agree_ret|].
    destruct (object_arg (head rest)); [by apply agree_ret|].
    apply quiet_then; [apply quiet_environment_now|done|]. intros outer s3 Hr3.
    apply agree_then; [by apply agree_search_object|]. intros; by apply agree_ret.
  - apply agree_quiet; [unfold present_object; quietly|done].
  - by apply agree_ret.
Qed.

Lemma agree_bind_lambda args s : ready s → agree (efun_bind_lambda run1 n args) (efun_bind_lambda run2 n args) s.
Proof.
  intros Hr. unfold efun_bind_lambda. destruct args as [|v rest]; [by apply agree_error|].
  destruct (vdata v) as [| | | | | | | | |[a|]|]; try by apply agree_error.
  apply quiet_then; [apply quiet_current|done|]. intros caller s1 Hr1.
  destruct rest as [|o rest]; [by apply agree_quiet; [apply quiet_bind_to|]|].
  destruct (isVoid o); [by apply agree_quiet; [apply quiet_bind_to|]|].
  destruct (object_arg (Some o)) as [[ob|]|]; try by apply agree_error.
  case_bool_decide; [by apply agree_quiet; [apply quiet_bind_to|]|].
  apply agree_then; [by apply agree_privilegeViolation|]. intros [] s2 Hr2; apply agree_quiet; try done; quietly.
Qed.

Lemma agree_set_driver_hook args s : ready s → agree (efun_set_driver_hook run1 n args) (efun_set_driver_hook run2 n args) s.
Proof.
  intros Hr. unfold efun_set_driver_hook. destruct args as [|w [|arg rest]]; try by apply agree_error.
  destruct (vdata w); try by apply agree_error. destruct (negb _); [by apply agree_error|].
  apply agree_then; [by apply agree_privilegeViolation|]. intros [] s2 Hr2; apply agree_quiet; try done; quietly.
Qed.

Lemma agree_set_environment args s : ready s → agree (efun_set_environment args) (efun_set_environment args) s.
Proof.
  intros Hr. unfold efun_set_environment. destruct args as [|v rest]; [by apply agree_error|].
  destruct (object_arg (Some v)) as [[i|]|]; try by apply agree_error.
  destruct rest as [|e rest]; [by apply agree_set_environment_to|].
  destruct (isVoid e); [by apply agree_set_environment_to|].
  destruct (object_arg (Some e)) as [[d|]|]; try by apply agree_error. by apply agree_set_environment_to.
Qed.

(** *** The table *)

Definition entry_agrees (x y : bytes * (list value → V value)) : Prop :=
  fst x = fst y ∧ ∀ args s, ready s → agree (snd x args) (snd y args) s.

Lemma entry_quiet name (f : list value → V value) : (∀ args, quiet (f args)) → entry_agrees (name, f) (name, f).
Proof. intros H. split; [done|]. intros args s. by apply quiet_agree. Qed.

Lemma entry_calls name (f1 f2 : list value → V value) :
  (∀ args s, ready s → agree (f1 args) (f2 args) s) → entry_agrees (name, f1) (name, f2).
Proof. by split. Qed.

Lemma map_array_agrees args s : ready s → agree (efun_map_array run1 closure1 n args) (efun_map_array run2 closure2 n args) s.
Proof. apply agree_over_array. exact agree_map_elements. Qed.
Lemma filter_array_agrees args s :
  ready s → agree (efun_filter_array run1 closure1 n args) (efun_filter_array run2 closure2 n args) s.
Proof. apply agree_over_array. exact agree_filter_elements. Qed.

(** The law of an entry, by its function. *)
Ltac entry :=
  lazymatch goal with
  | |- entry_agrees (_, efun_type _) _ => exact (entry_quiet _ _ (quiet_type _))
  | |- entry_agrees (_, efun_sizeof) _ => exact (entry_quiet _ _ quiet_sizeof)
  | |- entry_agrees (_, efun_keys) _ => exact (entry_quiet _ _ quiet_keys)
  | |- entry_agrees (_, efun_values) _ => exact (entry_quiet _ _ quiet_values)
  | |- entry_agrees (_, efun_map_delete) _ => exact (entry_quiet _ _ quiet_map_delete)
  | |- entry_agrees (_, efun_error) _ => exact (entry_quiet _ _ quiet_efun_error)
  | |- entry_agrees (_, efun_throw) _ => exact (entry_quiet _ _ quiet_throw)
  | |- entry_agrees (_, efun_set_eval_limit) _ => exact (entry_quiet _ _ quiet_set_eval_limit)
  | |- entry_agrees (_, efun_eval_cost _) _ => exact (entry_quiet _ _ (quiet_eval_cost _))
  | |- entry_agrees (_, efun_this_object) _ => exact (entry_quiet _ _ quiet_this_object)
  | |- entry_agrees (_, efun_master) _ => exact (entry_quiet _ _ quiet_master)
  | |- entry_agrees (_, efun_previous_object) _ => exact (entry_quiet _ _ quiet_previous)
  | |- entry_agrees (_, efun_all_previous_objects) _ => exact (entry_quiet _ _ quiet_all_previous)
  | |- entry_agrees (_, efun_origin) _ => exact (entry_quiet _ _ quiet_origin)
  | |- entry_agrees (_, efun_query_verb) _ => exact (entry_quiet _ _ quiet_query_verb)
  | |- entry_agrees (_, efun_file_name) _ => exact (entry_quiet _ _ quiet_file_name)
  | |- entry_agrees (_, efun_clonep) _ => exact (entry_quiet _ _ quiet_clonep)
  | |- entry_agrees (_, efun_living) _ => exact (entry_quiet _ _ quiet_living)
  | |- entry_agrees (_, efun_query_privs) _ => exact (entry_quiet _ _ quiet_query_privs)
  | |- entry_agrees (_, efun_set_privs) _ => exact (entry_quiet _ _ quiet_set_privs)
  | |- entry_agrees (_, efun_set_commands _) _ => exact (entry_quiet _ _ (quiet_set_commands _))
  | |- entry_agrees (_, efun_environment) _ => exact (entry_quiet _ _ quiet_environment)
  | |- entry_agrees (_, efun_all_inventory) _ => exact (entry_quiet _ _ quiet_all_inventory)
  | |- entry_agrees (_, efun_deep_inventory _) _ => exact (entry_quiet _ _ (quiet_deep_inventory _))
  | |- entry_agrees (_, efun_find_object _) _ => exact (entry_quiet _ _ (quiet_find_object _))
  | |- entry_agrees (_, efun_defer) _ => exact (entry_quiet _ _ quiet_defer)
  | |- entry_agrees (_, efun_unbound_lambda) _ => exact (entry_quiet _ _ quiet_unbound_lambda)
  | |- entry_agrees (_, efun_set_environment) _ => exact (entry_calls _ _ _ agree_set_environment)
  | |- entry_agrees (_, efun_evaluate _) _ => exact (entry_calls _ _ _ agree_evaluate)
  | |- entry_agrees (_, efun_map_array _ _ _) _ => exact (entry_calls _ _ _ map_array_agrees)
  | |- entry_agrees (_, efun_filter_array _ _ _) _ => exact (entry_calls _ _ _ filter_array_agrees)
  | |- entry_agrees (_, efun_call_other _ _) _ => exact (entry_calls _ _ _ agree_call_other)
  | |- entry_agrees (_, efun_command _ _) _ => exact (entry_calls _ _ _ agree_command)
  | |- entry_agrees (_, efun_move_object _ _ _) _ => exact (entry_calls _ _ _ agree_move_object)
  | |- entry_agrees (_, efun_function_exists _) _ => exact (entry_calls _ _ _ agree_function_exists)
  | |- entry_agrees (_, efun_present _ _) _ => exact (entry_calls _ _ _ agree_present)
  | |- entry_agrees (_, efun_bind_lambda _ _) _ => exact (entry_calls _ _ _ agree_bind_lambda)
  | |- entry_agrees (_, efun_set_driver_hook _ _) _ => exact (entry_calls _ _ _ agree_set_driver_hook)
  end.

Lemma table_agrees : Forall2 entry_agrees (efun_table run1 closure1 n) (efun_table run2 closure2 n).
Proof. unfold efun_table. repeat (apply Forall2_cons_2; [entry|]). apply Forall2_nil_2. Qed.
End Calls.

Lemma named_agrees {A} (R : A → A → Prop) name (l1 l2 : list (bytes * A)) :
  Forall2 (λ x y, fst x = fst y ∧ R (snd x) (snd y)) l1 l2 →
  match efun_named name l1, efun_named name l2 with
  | Some f, Some g => R f g
  | None, None => True
  | _, _ => False
  end.
Proof.
  unfold efun_named. induction 1 as [|[x f] [y g] l1 l2 [Hxy HR] _ IH]; [done|]. simpl in *. subst y.
  by case_bool_decide.
Qed.

Lemma call_by_name (t1 t2 : list (bytes * (list value → V value))) name args s :
  Forall2 entry_agrees t1 t2 → ready s →
  agree (match efun_named name t1 with Some f => f args | None => lpc_error ($"undefined efun: " ++ name) end)
    (match efun_named name t2 with Some f => f args | None => lpc_error ($"undefined efun: " ++ name) end) s.
Proof.
  intros Ht Hs. pose proof (named_agrees (λ f g, ∀ args s, ready s → agree (f args) (g args) s) name t1 t2 Ht) as H.
  destruct (efun_named name t1), (efun_named name t2); try done; by apply H || apply agree_raise.
Qed.

(** The driver's table keeps what the machine relies on. *)
#[export] Instance driver_laws pcre clock memory : @PcreLaws pcre → memory < 2 ^ 31 →
  @EfunLaws (driver_efuns pcre clock memory).
Proof.
  intros Hp Hm. split; [|exact Hp|exact Hm]. intros run1 run2 closure1 closure2 n name args s Hrun Hcl Hs.
  apply call_by_name; [|done]. by apply table_agrees.
Qed.
