(* ===== verification/Execution.v ===== *)
(** * Execution: what verified code can rely on

    The two halves put together: on code that keeps the rules of [Verified]
    the checks of the machine are redundant ([MachineChecks]), and the code
    generator writes only such code ([CodeGenSpec]).  The built-in functions
    are those of [Efuns]. *)

From S2P Require Import Prelude Doubles Values Config Uids Objects ObjectManager Lexer Ast Parser CodeGen Verified CodeGenLogic CodeGenSpec Bytecode Operators Sscanf SscanfSpec Machine MachineLogic MachineChecks Commands CommandsLogic Efuns EfunsLogic.
Open Scope Z_scope.

(** ** A machine with one object *)

(** The object [ob] of a program without inherits. *)
Definition alone (filename : bytes) (ob program : addr) (c : Bytecode.CompiledProgram) (max : Z) : vm :=
  let linked := mkCompiledProgram (Bytecode.objectVarNames c) [] [] ∅ in
  mkVM (empty_world <| objects := {[ ob := makeLpcObject filename program linked true 0 ]} |>
      <| programs := {[ program := linked ]} |>)
    {[ program := c ]} ∅ 0 max [] [] [] [] [] [] [] [] (replicate (Z.to_nat kNumDriverHooks) void_value) [] 0.

Lemma alone_inherits filename ob program c max p q : inherits_from (alone filename ob program c max) p q → q = p.
Proof.
  intros H. induction H as [|p r q (prog & Hp & Hr) _ _]; [done|]. simpl in Hp.
  apply lookup_singleton_Some in Hp as [_ <-]. by apply not_elem_of_nil in Hr.
Qed.

Lemma alone_ready filename ob program c max : program_ok c → ready (alone filename ob program c max).
Proof.
  intros Hc. split.
  2: intros ? ? ? ? Hn; simpl in Hn; by rewrite lookup_empty in Hn.
  2: { intros d e l Hd. unfold places in Hd. simpl in Hd. apply fmap_Some in Hd as (o & Ho & [= -> ->]).
       apply lookup_singleton_Some in Ho as [-> <-]. simpl. split; [constructor|]. intros i.
       split; [by intros ?%not_elem_of_nil|]. intros (l' & Hi). unfold places in Hi. simpl in Hi.
       apply fmap_Some in Hi as (o & Ho & Hd). apply lookup_singleton_Some in Ho as [_ <-]. done. }
  intros ob' own n p Hl Hp. apply alone_inherits in Hp as ->. unfold layout in Hl. simpl in Hl.
  apply fmap_Some in Hl as (o & Ho & Heq). apply lookup_singleton_Some in Ho as [_ <-]. injection Heq as -> ->.
  exists c, 0. simpl. rewrite lookup_singleton_eq. split_and!; [done|done| |lia|].
  - unfold base_of. by rewrite bool_decide_eq_true_2.
  - rewrite length_replicate. unfold size. lia.
Qed.

Lemma alone_callable filename ob program c max fn : fn ∈ prog_functions c →
  callable (alone filename ob program c max) ob program fn.
Proof.
  intros Hfn. exists program, (length (Bytecode.objectVarNames c)). split.
  - unfold layout. simpl. rewrite lookup_singleton_eq. simpl. by rewrite length_replicate.
  - split; [done|]. exists c. split; [|done]. apply lookup_singleton_eq.
Qed.

(** No function has more slots than a byte counts: the generator writes the
    same program when it does not cut the numbers of slots to eight bits. *)
Definition counts_fit (k : nat) (p : Program) (c : Bytecode.CompiledProgram) (s : cg) : Prop :=
  generate (N := id) k p [] new_cg = (Ok c, s).

(** What the code generator writes is a good program. *)
Lemma generated_ok k p c s : wf_program p = true → counts_fit k p c s →
  small_program c → one_spread c → program_ok c.
Proof.
  intros Hw Hc Hsmall Hspread. split; [done| |done]. pose proof (generate_kept (N := id) k p [] Hw) as H.
  unfold counts_fit in Hc. rewrite Hc in H. destruct H as [-> [_ _ _ _ Hf]]. eapply Forall_impl; [exact Hf|]. intros f. by apply verified_exact.
Qed.

Lemma no_spread c : forallb (λ i, negb (bool_decide (op i = ExpandVarargs))) (prog_code c) = true → one_spread c.
Proof.
  intros H k i j Hi _ Heq. apply forallb_Forall in H. apply (Forall_lookup_1 _ _ _ _ H) in Hi.
  rewrite bool_decide_eq_true_2 in Hi by done. done.
Qed.

(** ** The theorems *)

(** The machine with the built-in functions of [Efuns]; the library for
    patterns, the clock and the memory are those of the host. *)
Definition driver_run (pcre : Pcre) (clock : nat → Z) (memory : Z) := @run (driver_efuns pcre clock memory).
Definition driver_closure (pcre : Pcre) (clock : nat → Z) (memory : Z) := @callClosure (driver_efuns pcre clock memory).

Section Driver.
Context (pcre : Pcre) (pcre_laws : @PcreLaws pcre) (clock : nat → Z) (memory : Z) (memory_small : memory < 2 ^ 31).

(** C32: On programs whose code is verified no check that the interpreter makes
    on its own code fails: of operands, of the values on its stack, of slots,
    constants and targets, so that what such a failure would raise never
    matters.  Running a function, and applying a closure to arguments, gives
    the same result and the same state whatever [fault] is, also through the
    built-in functions of [Efuns] and what they call back.  When it returns or
    raises an exception, all programs are still verified, the call stack is
    the caller's, as are the stacks that guards push to, the objects on it have
    not lost variables, and every object is in the inventory of its
    environment and in no other.  Verified means: in a state that is [ready],
    whose programs are of a size that fits the operands, have no two spread
    arguments in a row, and count their slots without a cut to eight bits. *)
Theorem checks_redundant fault n s :
  ready s →
  (∀ p fn args obj, callable s obj p fn →
    driver_run pcre clock memory fault n p fn args obj s = driver_run pcre clock memory id n p fn args obj s ∧
    match driver_run pcre clock memory id n p fn args obj s with
    | (Val _, s') | (Raise _, s') => ready s' ∧ extends s s'
    | _ => True
    end) ∧
  (∀ cl args,
    driver_closure pcre clock memory fault n cl args s = driver_closure pcre clock memory id n cl args s ∧
    match driver_closure pcre clock memory id n cl args s with
    | (Val _, s') | (Raise _, s') => ready s' ∧ extends s s'
    | _ => True
    end).
Proof using pcre_laws memory_small.
  intros Hs. pose proof (driver_laws pcre clock memory pcre_laws memory_small) as Laws.
  unfold driver_run, driver_closure. destruct (@all_ok _ Laws fault n) as (Hrun & _ & Hclosure & _). split.
  - intros p fn args obj Hcall. destruct (Hrun p fn args obj s Hs Hcall) as [Heq H]. split; [exact Heq|].
    destruct (run id n p fn args obj s) as [[] ?]; exact H || exact I.
  - intros cl args. destruct (Hclosure cl args s Hs) as [Heq H]. split; [exact Heq|].
    destruct (callClosure id n cl args s) as [[] ?]; exact H || exact I.
Qed.

End Driver.

(** ** An example *)

(** A host without patterns, with a second between two looks at the clock. *)
Definition example_clock (n : nat) : Z := Z.of_nat n * 1000000.
Definition example_run := driver_run no_regex example_clock (2 ^ 30).
Definition example_closure := driver_closure no_regex example_clock (2 ^ 30).

(** A recursive function, and one that catches an error deep in it and calls it
    back through built-in functions. *)
Definition factorial_source : bytes :=
  let fac := [QUOTE] ++ $"fac" ++ [QUOTE] in
  $"int calls; int fac(int n) { calls++; return n < 2 ? 1 : n * fac(n - 1); } mixed f(int n) { mixed e, a; e = catch(fac(n) / 0); a = map(({ 2, 3, 10 }), " ++ fac ++ $", this_object()); return ({ e, calls, sizeof(filter(a, (: $1 > 5 :))), call_other(this_object(), " ++ fac ++ $", 4), catch(throw(7)), a[2] }); }".

Definition factorial : Program :=
  match tokenize FluffOS factorial_source with
  | Ok ts => match parseProgram FluffOS ts with Ok p => p | _ => mkProgram [] [] [] [] end
  | _ => mkProgram [] [] [] []
  end.

Definition factorial_code : Bytecode.CompiledProgram := Eval vm_compute in out (snd (generate 10 factorial [] new_cg)).

Definition function_named (c : Bytecode.CompiledProgram) (name : bytes) : FunctionEntry :=
  default (mkEntry [] 0 0 0 false false) (find (λ f, bool_decide (entry_name f = name)) (prog_functions c)).

Definition factorial_vm : vm := alone $"/factorial" 1%positive 2%positive factorial_code 100000.

Definition factorial_run (fault : raised → raised) : outcome value * vm :=
  example_run fault 1000 2%positive (function_named factorial_code $"f") [mk (VInt 5)] 1%positive factorial_vm.

Definition outcome_of (r : outcome value * vm) : outcome (list data) * Z :=
  (match r with
   | (Val v, s) => match vdata v with
       | VArr (Some a) => match arrays (lpcHeap (world_ s)) !! a with Some l => Val (map vdata l) | _ => Undef end
       | d => Val [d]
       end
   | (Raise e, _) => Raise e | (Undef, _) => Undef | (NoFuel, _) => NoFuel
   end, evalCost_ (snd r)).

Lemma factorial_fits : counts_fit 10 factorial factorial_code (snd (generate 10 factorial [] new_cg)).
Proof. by vm_compute. Qed.

Lemma factorial_ok : program_ok factorial_code.
Proof.
  apply (generated_ok 10 factorial factorial_code (snd (generate 10 factorial [] new_cg))); [by vm_compute|exact factorial_fits|..].
  - repeat constructor.
  - by apply no_spread.
Qed.

Lemma factorial_in : function_named factorial_code $"f" ∈ prog_functions factorial_code.
Proof. apply (list_elem_of_lookup_2 _ 1). reflexivity. Qed.

Lemma example_memory : 2 ^ 30 < 2 ^ 31.
Proof. done. Qed.

(** [f(5)] catches the error, calls [fac] back from [map], [filter] and
    [call_other], and the run goes on with the caller's stack. *)
Lemma checks_redundant_witness :
  outcome_of (factorial_run (λ _, NotImplemented [])) =
    (Val [VStr $"Div: division by zero"; VInt 20; VInt 2; VInt 24; VInt 7; VInt 3628800], 432) ∧
  factorial_run (λ _, NotImplemented []) = factorial_run id.
Proof.
  split; [vm_compute; reflexivity|]. unfold factorial_run.
  destruct (checks_redundant no_regex no_regex_laws example_clock (2 ^ 30) example_memory
    (λ _, NotImplemented []) 1000 factorial_vm (alone_ready _ _ _ _ _ factorial_ok)) as [H _].
  destruct (H 2%positive (function_named factorial_code $"f") [mk (VInt 5)] 1%positive) as [Heq _];
    [exact (alone_callable _ _ _ _ _ _ factorial_in)|exact Heq].
Defined.

