(* ===== verification/CommandsSpec.v ===== *)
(** * CommandsSpec: shadows, places and typed commands

    What [Commands] promises: [callFunction] tries the functions of a shadow
    chain from its top down, a move keeps every object in exactly the inventory
    of its environment, a typed line reaches the handlers of its verb in the
    order of the table, and none of the ways into the machine makes one of its
    checks fail or leaves a guard behind. *)

From S2P Require Import Prelude Doubles Values Config Uids Objects ObjectManager Bytecode Verified Operators Sscanf SscanfSpec Machine MachineLogic MachineChecks Commands CommandsLogic Efuns EfunsLogic Execution.
Open Scope Z_scope.

(** ** Shadow chains *)








Section Shadows.
Context (run : runner) (n : nat) (name : bytes).


End Shadows.




(** Nothing that enters the machine makes one of its checks fail: a call
    into an object from outside, an apply of the master object, a question for
    a privilege, a move with its hooks and [init] calls, and a typed command
    do the same whatever [fault] is.  When they return or raise an exception
    the programs are still verified, the stacks of objects, functions,
    origins, command givers and verbs are the caller's, and every object is
    in the inventory of its environment and in no other.  The built-in
    functions that are called are those of [Efuns], on any host whose pattern
    library keeps its word ([PcreLaws]) and whose memory is below 2^31
    values. *)
Theorem entries_redundant pcre (pcre_laws : @PcreLaws pcre) clock memory (memory_small : memory < 2 ^ 31) fault n s :
  let run := driver_run pcre clock memory in
  let callClosure := driver_closure pcre clock memory in
  ready s →
  (∀ obj name args origin, agree (callFunction (run fault n) n obj name args origin) (callFunction (run id n) n obj name args origin) s) ∧
  (∀ name args, agree (applyMaster (run fault n) n name args) (applyMaster (run id n) n name args) s) ∧
  (∀ what args, agree (privilegeViolation (run fault n) n what args) (privilegeViolation (run id n) n what args) s) ∧
  (∀ item dest, agree (moveObject (run fault n) (callClosure fault n) n item dest) (moveObject (run id n) (callClosure id n) n item dest) s) ∧
  (∀ giver line, agree (dispatchCommand (run fault n) n giver line) (dispatchCommand (run id n) n giver line) s).
Proof.
  intros run callClosure Hr.
  destruct (@all_ok _ (driver_laws pcre clock memory pcre_laws memory_small) fault n) as (Hrun & _ & Hcl & _). split_and!; intros.
  - by apply agree_callFunction.
  - by apply agree_applyMaster.
  - by apply agree_privilegeViolation.
  - by apply agree_moveObject.
  - by apply agree_dispatchCommand.
Qed.

(** ** What a move does *)

Lemma relink_enabled i d w x : commandsEnabled_ <$> objects (relink i d w) !! x = commandsEnabled_ <$> objects w !! x.
Proof. unfold relink. rewrite field_upd, field_upd, field_on_obj, field_upd by done. done. Qed.

Lemma init_for_idle run n ob other s : commandsEnabled_ <$> objects (world_ s) !! ob = Some false →
  init_for run n ob other s = (Val tt, s).
Proof.
  unfold init_for, vbind, object, found, give. destruct (objects (world_ s) !! ob) as [o|]; [|done]. simpl. by intros [= ->].
Qed.

Lemma each_idle {A} (body : A → V unit) l s : Forall (λ x, body x s = (Val tt, s)) l → each body l s = (Val tt, s).
Proof. induction 1 as [|x l Hx Hl IH]; [done|]. cbn [each]. unfold vbind. by rewrite Hx. Qed.

(** A move without a hook puts the object at the end of the inventory of
    its destination, makes that its environment, takes it out of the inventory
    that it was in, and changes no other place; so every object is again in
    the inventory of its environment and in no other.  (Nobody here takes
    commands, so that no [init] is called; what [init] does is up to the
    mudlib.)  A move of an object into itself, and one from or to a destructed
    object, does nothing. *)
Theorem moveObject_places run closure n s i d oi od :
  objects (world_ s) !! i = Some oi → objects (world_ s) !! d = Some od →
  (i = d ∨ destructed_ oi = true ∨ destructed_ od = true → moveObject run closure n (Some i) (Some d) s = (Val tt, s)) ∧
  (i ≠ d → destructed_ oi = false → destructed_ od = false → placed (world_ s) →
   hook_closure 0 s = None → hook_closure 1 s = None →
   (∀ x o, objects (world_ s) !! x = Some o → commandsEnabled_ o = false) →
   ∃ w, moveObject run closure n (Some i) (Some d) s = (Val tt, s <| world_ := w |>) ∧ placed w ∧
     ∀ x, places w x = moved i d x <$> places (world_ s) x).
Proof.
  intros Hi Hd. unfold moveObject. split.
  - intros H. case_bool_decide as Hid; [done|]. unfold vbind, object, found, give. rewrite Hi, Hd.
    by destruct H as [H|[->| ->]]; [|simpl|rewrite orb_true_r].
  - intros Hid Hdi Hdd Hp H0 H1 Hidle. rewrite bool_decide_false by done.
    assert (is_Some (objects (world_ s) !! i)) as Hsi by by eexists. assert (is_Some (objects (world_ s) !! d)) as Hsd by by eexists.
    pose proof (relink_placed i d (world_ s) Hp Hsi Hsd) as Hp'. exists (relink i d (world_ s)).
    split_and!; [|done|by apply places_relink].
    unfold vbind at 1 2, object, found, give. rewrite Hi, Hd. cbn beta iota. rewrite Hdi, Hdd. cbn [orb].
    unfold vbind at 1 2, reads. rewrite H0, H1. unfold move_without_hook.
    set (s1 := s <| world_ ::= relink i d |>). change (s <| world_ := relink i d (world_ s) |>) with s1.
    assert (∀ x, x = i ∨ x = d ∨ is_Some (objects (world_ s) !! x) → commandsEnabled_ <$> objects (world_ s1) !! x = Some false) as Hen.
    { intros x Hx. change (world_ s1) with (relink i d (world_ s)). rewrite relink_enabled.
      assert (is_Some (objects (world_ s) !! x)) as [o Ho] by (destruct Hx as [->|[->|?]]; done). rewrite Ho. simpl. by rewrite (Hidle x o). }
    unfold vbind at 1, change_world, changes. fold s1. cbv beta iota.
    unfold vbind at 1. rewrite init_for_idle by auto. cbv beta iota. unfold vbind at 1, object, found, give.
    assert (∃ od', objects (world_ s1) !! d = Some od') as [od' Hod'].
    { specialize (Hen d (or_intror (or_introl eq_refl))). destruct (objects (world_ s1) !! d); [by eexists|done]. }
    rewrite Hod'. cbv beta iota. apply each_idle, Forall_forall. intros ob Hob. case_bool_decide; [done|].
    assert (is_Some (objects (world_ s) !! ob)) as Hsob.
    { destruct (Hp' d (environment_ od') (inventory_ od')) as [_ Hiff]; [by apply places_lookup|].
      apply Hiff in Hob as [l' Hob]. rewrite places_relink in Hob by done. unfold places in Hob.
      destruct (objects (world_ s) !! ob); [by eexists|done]. }
    unfold vbind. rewrite init_for_idle by auto. apply init_for_idle. auto.
Qed.

(** ** Typed lines *)

Definition no_blank (c : ascii) : bool := negb (blank c).

(** The argument part of a typed line. *)
Definition arg_of (arg : bytes) : option bytes := match arg with [] => None | _ => Some arg end.

(** A line as it is typed: blanks, the verb, and the argument after blanks. *)
Definition typed (pad verb sep arg : bytes) : Prop :=
  forallb blank pad = true ∧ forallb no_blank verb = true ∧ verb ≠ [] ∧ forallb blank sep = true ∧
  match arg with [] => True | c :: _ => sep ≠ [] ∧ blank c = false end.

Lemma skip_blanks_app pad s : forallb blank pad = true → skip_blanks (pad ++ s) = skip_blanks s.
Proof.
  intros H. induction pad as [|c pad IH]; [done|]. simpl in H. apply andb_true_iff in H as [Hc H].
  unfold skip_blanks. simpl. rewrite Hc. destruct (span blank (pad ++ s)) eqn:E. simpl.
  specialize (IH H). unfold skip_blanks in IH. by rewrite E in IH.
Qed.

Lemma skip_blanks_none c s : blank c = false → skip_blanks (c :: s) = c :: s.
Proof. intros H. unfold skip_blanks. simpl. by rewrite H. Qed.

Lemma split_typed_line pad verb sep arg : typed pad verb sep arg → splitVerbAndArg (pad ++ verb ++ sep ++ arg) = (verb, arg_of arg).
Proof.
  intros (Hp & Hv & Hne & Hs & Ha). unfold splitVerbAndArg. rewrite skip_blanks_app by done.
  assert (skip_blanks (verb ++ sep ++ arg) = verb ++ sep ++ arg) as ->.
  { destruct verb as [|c verb]; [done|]. simpl in Hv. apply andb_true_iff in Hv as [Hc _]. unfold no_blank in Hc.
    apply skip_blanks_none. by destruct (blank c). }
  assert (span (λ c, negb (blank c)) (verb ++ sep ++ arg) = (verb, sep ++ arg)) as ->.
  { clear Hne. induction verb as [|c verb IH].
    - destruct sep as [|c sep]; [destruct arg as [|c arg]; [done|by destruct Ha]|]. simpl in *.
      apply andb_true_iff in Hs as [Hc _]. by rewrite Hc.
    - simpl in Hv. apply andb_true_iff in Hv as [Hc Hv]. unfold no_blank in Hc. simpl. rewrite Hc. by rewrite (IH Hv). }
  rewrite skip_blanks_app by done. destruct arg as [|c arg]; [done|]. rewrite skip_blanks_none by apply Ha. done.
Qed.

(** Flag 0 is for the verb itself, the others for every verb with that prefix. *)
Definition concerns (e : ActionEntry) (verb : bytes) : Prop :=
  if decide (ae_flag e = 0) then ae_verb e = verb else ae_verb e `prefix_of` verb.

(** [ob], alive, is to handle the verb by the entry. *)
Definition handler (w : world) (verb : bytes) (e : ActionEntry) (ob : addr) : Prop :=
  concerns e verb ∧ ae_owner e = Some ob ∧ ∃ o, objects w !! ob = Some o ∧ destructed_ o = false.

(** The argument that a handler gets: that of the line, or nothing; with flag 2
    what completes its prefix to the line with one space, unless its prefix is
    the whole verb. *)
Definition gets (e : ActionEntry) (verb arg : bytes) (v : value) : Prop :=
  if decide (ae_flag e = 2 ∧ ae_verb e ≠ []) then
    ∃ t, v = mk (VStr t) ∧ (ae_verb e = verb → t = arg) ∧
      (ae_verb e ≠ verb → ae_verb e ++ t = verb ++ match arg with [] => [] | _ => $" " ++ arg end)
  else v = match arg with [] => void_value | _ => mk (VStr arg) end.

Lemma verb_matches_concerns e verb : verb_matches e verb = true ↔ concerns e verb.
Proof.
  unfold verb_matches, concerns. destruct (Z.eqb_spec (ae_flag e) 0); case_decide; try done; rewrite bool_decide_eq_true; [done|].
  split.
  - intros [rest Hrest]. apply strip_prefix_Some in Hrest. by exists rest.
  - intros [rest ->]. exists rest. apply strip_prefix_app.
Qed.

Lemma handler_gets e verb arg : concerns e verb → gets e verb arg (handler_arg e verb (arg_of arg)).
Proof.
  intros Hc. unfold gets, handler_arg. case_decide as Hf.
  - destruct Hf as [Hf Hne]. rewrite Hf, bool_decide_false by done. cbn [Z.eqb Pos.eqb andb negb].
    unfold concerns in Hc. rewrite Hf in Hc. cbn in Hc. destruct Hc as [rest ->].
    rewrite drop_app_length. eexists. split; [done|]. split.
    + intros Hv. assert (rest = []) as -> by (apply (app_inv_head (ae_verb e)); by rewrite app_nil_r). by destruct arg.
    + intros Hv. destruct arg as [|c arg]; cbn [arg_of]; [by rewrite app_nil_r|].
      destruct rest as [|r rest]; [by rewrite app_nil_r in Hv|]. by rewrite <- app_assoc.
  - assert ((ae_flag e =? 2) && negb (bool_decide (ae_verb e = [])) = false) as ->; [|by destruct arg].
    apply not_and_l in Hf as [Hf|Hf]; [by rewrite (proj2 (Z.eqb_neq _ _) Hf)|].
    apply dec_stable in Hf. rewrite Hf, bool_decide_true by done. by rewrite andb_false_r.
Qed.

Lemma gets_unique e verb arg v1 v2 : gets e verb arg v1 → gets e verb arg v2 → v1 = v2.
Proof.
  unfold gets. case_decide; [|by intros -> ->]. intros (t1 & -> & H1 & H1') (t2 & -> & H2 & H2').
  destruct (decide (ae_verb e = verb)) as [Hv|Hv]; [by rewrite H1, H2|].
  specialize (H1' Hv). specialize (H2' Hv). rewrite <- H2' in H1'. by apply app_inv_head in H1' as ->.
Qed.

Section Answered.
Context (run : runner) (n : nat) (g : addr) (verb arg : bytes).

(** A handler runs for the giver, under the verb as typed; afterwards both are
    what they were. *)
Definition at_work (s : vm) : vm :=
  s <| verbStack_ ::= cons verb |> <| commandGiverStack_ ::= cons (Some g) |>.
Definition back (s : vm) : vm := s <| commandGiverStack_ ::= tail |> <| verbStack_ ::= tail |>.

(** A handler that is called from a running function is called by an efun. *)
Definition call_origin (s : vm) : Origin := match callStack_ s with [] => ODriver | _ => OEfun end.

Definition handler_call (e : ActionEntry) (ob : addr) (v : value) (s : vm) : outcome value * vm :=
  callFunction run n (Some ob) (ae_functionName e) [v] (call_origin s) (at_work s).

(** What becomes of a line, over the entries of the table. *)
Inductive answered : list ActionEntry → vm → outcome bool → vm → Prop :=
  | answered_nobody s : answered [] s (Val false) s
  | answered_skip e l s r s' : (∀ ob, ¬ handler (world_ s) verb e ob) → answered l s r s' → answered (e :: l) s r s'
  | answered_accept e l s ob v x s' : handler (world_ s) verb e ob → gets e verb arg v →
      handler_call e ob v s = (Val x, s') → isTruthy x = true → answered (e :: l) s (Val true) (back s')
  | answered_decline e l s ob v x s' r s'' : handler (world_ s) verb e ob → gets e verb arg v →
      handler_call e ob v s = (Val x, s') → isTruthy x = false → answered l (back s') r s'' → answered (e :: l) s r s''
  | answered_raise e l s ob v x s' : handler (world_ s) verb e ob → gets e verb arg v →
      handler_call e ob v s = (Raise x, s') → answered (e :: l) s (Raise x) (back s')
  | answered_undef e l s ob v s' : handler (world_ s) verb e ob → gets e verb arg v →
      handler_call e ob v s = (Undef, s') → answered (e :: l) s Undef (back s')
  | answered_fuel e l s ob v s' : handler (world_ s) verb e ob → gets e verb arg v →
      handler_call e ob v s = (NoFuel, s') → answered (e :: l) s NoFuel (back s').

Lemma owner_found e s : concerns e verb →
  match action_owner e s with
  | (Val (Some ob), s') => s' = s ∧ handler (world_ s) verb e ob
  | (Val None, s') => s' = s ∧ ∀ ob, ¬ handler (world_ s) verb e ob
  | _ => False
  end.
Proof.
  intros Hc. unfold action_owner, lock_object, vbind, reads, wlock, lock.
  destruct (ae_owner e) as [a|] eqn:Ho; [|split; [done|]; intros ob (_ & Hx & _); congruence].
  destruct (objects (world_ s) !! a) as [o|] eqn:Ea; cbn.
  2: { split; [done|]. intros ob (_ & Hx & o & Hob & _). congruence. }
  unfold object, found, give. rewrite Ea. destruct (destructed_ o) eqn:Hd; (split; [done|]).
  - intros ob (_ & Hx & o' & Hob & Hd'). congruence.
  - split_and!; [done|done|]. by exists o.
Qed.

Lemma call_handler_eq e ob s : call_handler run n g verb (arg_of arg) e ob s =
  let '(r, s') := handler_call e ob (handler_arg e verb (arg_of arg)) s in
  (match r with Val x => Val (isTruthy x) | Raise x => Raise x | Undef => Undef | NoFuel => NoFuel end, back s').
Proof.
  unfold call_handler, handler_call, with_verb, with_command_giver, finally, call_origin, currentObject, reads.
  unfold vbind. fold (at_work s). change (callStack_ (at_work s)) with (callStack_ s).
  replace (match head (callStack_ s) with Some _ => OEfun | None => ODriver end)
    with (match callStack_ s with [] => ODriver | _ => OEfun end) by by destruct (callStack_ s).
  by destruct (callFunction _ _ _ _ _ _ _) as [[] ?].
Qed.

Lemma try_answered l : ∀ s, answered l s (fst (try_actions run n g verb (arg_of arg) l s)) (snd (try_actions run n g verb (arg_of arg) l s)).
Proof.
  induction l as [|e l IH]; intros s; [constructor|]. cbn [try_actions].
  destruct (verb_matches e verb) eqn:Hm.
  2: { apply answered_skip; [|done]. intros ob (Hc & _). apply verb_matches_concerns in Hc. congruence. }
  apply verb_matches_concerns in Hm. unfold vbind at 1 3. pose proof (owner_found e s Hm) as Ho.
  destruct (action_owner e s) as [[[ob|]| | |] s0]; try done; destruct Ho as [-> Ho]; [|by apply answered_skip].
  unfold vbind at 1 2. rewrite call_handler_eq. pose proof (handler_gets e verb arg Hm) as Hg.
  destruct (handler_call e ob _ s) as [[x|x| |] s'] eqn:E; [|by econstructor..].
  destruct (isTruthy x) eqn:Hx; [by econstructor|by eapply answered_decline].
Qed.

Lemma answered_unique l s r s' : answered l s r s' → try_actions run n g verb (arg_of arg) l s = (r, s').
Proof.
  assert (∀ e l s ob v, handler (world_ s) verb e ob → gets e verb arg v →
    try_actions run n g verb (arg_of arg) (e :: l) s =
    match handler_call e ob v s with
    | (Val x, s') => if isTruthy x then (Val true, back s') else try_actions run n g verb (arg_of arg) l (back s')
    | (Raise x, s') => (Raise x, back s') | (Undef, s') => (Undef, back s') | (NoFuel, s') => (NoFuel, back s')
    end) as Hcall.
  { clear. intros e l s ob v Hh Hv. pose proof Hh as (Hc & _). cbn [try_actions].
    rewrite (proj2 (verb_matches_concerns _ _) Hc). unfold vbind at 1. pose proof (owner_found e s Hc) as Ho.
    destruct (action_owner e s) as [[[ob'|]| | |] s0]; try done; destruct Ho as [-> Ho]; [|by destruct (Ho ob)].
    assert (ob' = ob) as -> by (destruct Ho as (_ & ? & _), Hh as (_ & ? & _); congruence).
    unfold vbind at 1. rewrite call_handler_eq. rewrite (gets_unique e verb arg _ v (handler_gets e verb arg Hc) Hv).
    by destruct (handler_call e ob v s) as [[x| | |] s']; [destruct (isTruthy x)|..]. }
  induction 1 as [s|e l s r s' Hno _ IH|e l s ob v x s' Hh Hv E Hx|e l s ob v x s' r s'' Hh Hv E Hx _ IH|e l s ob v x s' Hh Hv E
                 |e l s ob v s' Hh Hv E|e l s ob v s' Hh Hv E]; [done| |rewrite (Hcall _ _ _ _ _ Hh Hv), E..]; [|by rewrite ?Hx..].
  cbn [try_actions]. destruct (verb_matches e verb) eqn:Hm; [|done]. apply verb_matches_concerns in Hm.
  unfold vbind at 1. pose proof (owner_found e s Hm) as Ho.
  destruct (action_owner e s) as [[[ob|]| | |] s0]; try done; destruct Ho as [-> Ho]; [|done]. by destruct (Hno ob).
Qed.
End Answered.

(** C34: A typed line reaches the handlers of its verb in the order of the
    table, and that is all that becomes of it: [dispatchCommand] returns, raises
    and leaves exactly what the relation [answered] says.  The line (after the
    hook that rewrites it) is its first word and what follows it, without the
    blanks around.  Entries for other verbs and entries whose owner is gone are
    passed over, each in the state that the handlers before have left; any
    other handler is called with the argument of its flag, as the giver's
    command and under the verb as typed; the first that returns a true value
    ends the search, an error ends it too and restores the stacks, and a line
    that nobody accepts is refused. *)
Theorem typed_command run n g o line pad verb sep arg s :
  objects (world_ s) !! g = Some o → destructed_ o = false →
  modify_command line s = Val (pad ++ verb ++ sep ++ arg) → typed pad verb sep arg →
  ∀ r s', dispatchCommand run n (Some g) line s = (r, s') ↔ answered run n g verb arg (actions_ o) s r s'.
Proof.
  intros Hg Hd Hmod Ht r s'.
  assert (dispatchCommand run n (Some g) line s = try_actions run n g verb (arg_of arg) (actions_ o) s) as ->.
  { cbn [dispatchCommand]. unfold vbind at 1, object, found, give. rewrite Hg. cbn beta iota. rewrite Hd.
    unfold vbind at 1. rewrite Hmod. cbn beta iota. rewrite (split_typed_line _ _ _ _ Ht).
    destruct Ht as (_ & _ & Hne & _). destruct verb as [|c verb]; [done|]. unfold vbind. by rewrite Hg. }
  split; [|apply answered_unique]. intros E.
  pose proof (try_answered run n g verb arg (actions_ o) s) as H. by rewrite E in H.
Qed.

(** ** Examples *)

(** The invariant of places can be tested. *)
Definition placed_test (w : world) : bool :=
  forallb (λ '(d, o), bool_decide (NoDup (inventory_ o)) &&
      forallb (λ i, bool_decide (fst <$> places w i = Some (Some d))) (inventory_ o) &&
      forallb (λ '(i, oi), negb (bool_decide (environment_ oi = Some d)) || bool_decide (i ∈ inventory_ o))
        (map_to_list (objects w))) (map_to_list (objects w)).

Lemma placed_tested w : placed_test w = true → placed w.
Proof.
  intros H d e l Hd. unfold places in Hd. apply fmap_Some in Hd as (o & Ho & [= -> ->]).
  apply forallb_Forall in H. rewrite Forall_forall in H. specialize (H (d, o) (proj2 (elem_of_map_to_list _ _ _) Ho)). simpl in H.
  apply andb_true_iff in H as [[Hn Hi]%andb_true_iff He]. apply bool_decide_eq_true in Hn. split; [done|].
  apply forallb_Forall in Hi, He. intros i. split.
  - intros Hin. pose proof (proj1 (Forall_forall _ _) Hi i Hin) as Hi'. apply bool_decide_eq_true in Hi'. clear Hi. rename Hi' into Hi. destruct (places w i) as [[e l]|]; [|done].
    injection Hi as ->. by eexists.
  - intros [l' Hl]. unfold places in Hl. apply fmap_Some in Hl as (oi & Hoi & [= He' _]).
    pose proof (proj1 (Forall_forall _ _) He (i, oi) (proj2 (elem_of_map_to_list _ _ _) Hoi)) as Hx. simpl in Hx.
    rewrite bool_decide_true in Hx by done. simpl in Hx. by apply bool_decide_eq_true in Hx.
Qed.

(** Like [factorial_vm], with other objects of the same program. *)
Definition populated (os : list (addr * (LpcObject → LpcObject))) : vm :=
  let o := makeLpcObject $"/factorial" 2%positive (mkCompiledProgram (Bytecode.objectVarNames factorial_code) [] [] ∅) true 0 in
  factorial_vm <| world_ ::= λ w, w <| objects := list_to_map (map (λ '(a, f), (a, f o)) os) |> |>.

Lemma entries_redundant_witness :
  callFunction (example_run (λ _, NotImplemented []) 1000) 1000 (Some 1%positive) $"f" [mk (VInt 5)] ODriver factorial_vm =
    callFunction (example_run id 1000) 1000 (Some 1%positive) $"f" [mk (VInt 5)] ODriver factorial_vm ∧
  outcome_of (callFunction (example_run id 1000) 1000 (Some 1%positive) $"f" [mk (VInt 5)] ODriver factorial_vm) =
    (Val [VStr $"Div: division by zero"; VInt 20; VInt 2; VInt 24; VInt 7; VInt 3628800], 432).
Proof.
  split; [|vm_compute; reflexivity].
  destruct (entries_redundant no_regex no_regex_laws example_clock (2 ^ 30) example_memory (λ _, NotImplemented []) 1000 factorial_vm (alone_ready _ _ _ _ _ factorial_ok)) as [H _].
  destruct (H (Some 1%positive) $"f" [mk (VInt 5)] ODriver) as [Heq _]. exact Heq.
Defined.



Definition two_rooms : vm := populated
  [(1%positive, λ o, o <| inventory_ := [3; 4]%positive |>); (2%positive, λ o, o);
   (3%positive, λ o, o <| environment_ := Some 1%positive |>); (4%positive, λ o, o <| environment_ := Some 1%positive |>)].

Lemma moveObject_places_witness :
  ∃ w, moveObject (example_run id 1000) (example_closure id 1000) 1000 (Some 3%positive) (Some 2%positive) two_rooms =
    (Val tt, two_rooms <| world_ := w |>) ∧
  map (places w) [1; 2; 3; 4]%positive =
    [Some (None, [4]); Some (None, [3]); Some (Some 2, []); Some (Some 1, [])]%positive.
Proof.
  assert (∃ o1 o2, objects (world_ two_rooms) !! 3%positive = Some o1 ∧ objects (world_ two_rooms) !! 2%positive = Some o2 ∧
    destructed_ o1 = false ∧ destructed_ o2 = false) as (o1 & o2 & H1 & H2 & D1 & D2).
  { do 2 eexists. split_and!; [vm_compute; reflexivity|vm_compute; reflexivity|reflexivity|reflexivity]. }
  destruct (moveObject_places (example_run id 1000) (example_closure id 1000) 1000 two_rooms 3%positive 2%positive o1 o2 H1 H2) as [_ H].
  destruct H as (w & Heq & _ & Hw); [done|exact D1|exact D2|apply placed_tested; vm_compute; reflexivity|reflexivity|reflexivity| |].
  - intros x o Ho. assert (∀ x o, (x, o) ∈ map_to_list (objects (world_ two_rooms)) → commandsEnabled_ o = false) as Hall.
    { intros y oy Hy. assert (forallb (λ p, negb (commandsEnabled_ (snd p))) (map_to_list (objects (world_ two_rooms))) = true) as Hf
        by (vm_compute; reflexivity).
      apply forallb_Forall in Hf. rewrite Forall_forall in Hf. specialize (Hf _ Hy). simpl in Hf. by destruct (commandsEnabled_ oy). }
    apply (Hall x). by apply elem_of_map_to_list.
  - exists w. split; [exact Heq|]. cbn [map]. rewrite !Hw. vm_compute. reflexivity.
Defined.

(** The object 1 has three actions; the owner of the first is gone. *)
Definition speaker : vm := populated
  [(1%positive, λ o, o <| actions_ := [mkActionEntry $"fac" $"fac" (Some 9%positive) 0; mkActionEntry $"look" $"fac" (Some 1%positive) 0;
                                       mkActionEntry $"fa" $"f" (Some 1%positive) 2] |>)].

Lemma typed_command_witness :
  ∃ s', dispatchCommand (example_run id 1000) 1000 (Some 1%positive) $"  fact  to me" speaker = (Val true, s') ∧
    answered (example_run id 1000) 1000 1%positive $"fact" $"to me"
      [mkActionEntry $"fac" $"fac" (Some 9%positive) 0; mkActionEntry $"look" $"fac" (Some 1%positive) 0;
       mkActionEntry $"fa" $"f" (Some 1%positive) 2] speaker (Val true) s' ∧
    gets (mkActionEntry $"fa" $"f" (Some 1%positive) 2) $"fact" $"to me" (mk (VStr $"ct to me")).
Proof.
  assert (∃ o, objects (world_ speaker) !! 1%positive = Some o ∧ destructed_ o = false ∧
    actions_ o = [mkActionEntry $"fac" $"fac" (Some 9%positive) 0; mkActionEntry $"look" $"fac" (Some 1%positive) 0;
                  mkActionEntry $"fa" $"f" (Some 1%positive) 2]) as (o & Ho & Hd & Ha).
  { eexists. split_and!; [vm_compute; reflexivity|reflexivity..]. }
  assert (typed $"  " $"fact" $"  " $"to me") as Ht by by split_and!.
  destruct (dispatchCommand (example_run id 1000) 1000 (Some 1%positive) $"  fact  to me" speaker) as [r s'] eqn:E.
  assert (r = Val true) as -> by (change r with (fst (r, s')); rewrite <- E; vm_compute; reflexivity).
  exists s'. split; [reflexivity|]. rewrite <- Ha. split.
  - assert (modify_command $"  fact  to me" speaker = Val ($"  " ++ $"fact" ++ $"  " ++ $"to me")) as Hm by (vm_compute; reflexivity).
    destruct (typed_command (example_run id 1000) 1000 1%positive o $"  fact  to me" $"  " $"fact" $"  " $"to me" speaker
      Ho Hd Hm Ht (Val true) s') as [H _].
    exact (H E).
  - eexists. split; [reflexivity|]. split; [discriminate|reflexivity].
Defined.
