(* ===== verification/Sockets.v ===== *)
(** * LPC sockets: [src/net/SocketRegistry.cpp],
    [include/kjdmud/net/LpcSocket.hpp] and [Server::pollSockets] of
    [src/net/Server.cpp]

    A handle is never reused, so it names the socket object: [sockets] holds
    the objects, [g_sockets] the handles of the registry, and a removed socket
    that a running poll still holds stays in [sockets].  The results of system
    calls are arguments of the operations; [inet_addr] is a parameter.  The
    partly filled header word and body of a MUD frame are the bytes received
    so far.  Fewer than 2^31 sockets are made in a run. *)

From S2P Require Import Prelude Doubles Values Trees SaveVariable Objects.

(** ** State *)

(** [namespace SocketErr] *)
Definition Success : Z := 1.
Definition ESocket : Z := -1.
Definition ESetSockOpt : Z := -2.
Definition ENonBlock : Z := -3.
Definition EFdRange : Z := -5.
Definition EBadF : Z := -6.
Definition ESecurity : Z := -7.
Definition EIsBound : Z := -8.
Definition EAddrInUse : Z := -9.
Definition EBind : Z := -10.
Definition EModeNotSupp : Z := -12.
Definition ENoAddr : Z := -13.
Definition EIsConn : Z := -14.
Definition EListen : Z := -15.
Definition ENotListn : Z := -16.
Definition EWouldBlock : Z := -17.
Definition EIntr : Z := -18.
Definition EAccept : Z := -19.
Definition EIsListen : Z := -20.
Definition EBadAddr : Z := -21.
Definition EAlready : Z := -22.
Definition EConnRefused : Z := -23.
Definition EConnect : Z := -24.
Definition ENotConn : Z := -25.
Definition ETypeNotSupp : Z := -26.
Definition ESendTo : Z := -27.
Definition ESend : Z := -28.
Definition ECallback : Z := -29.
Definition ESockRlsd : Z := -30.
Definition ESockNotRlsd : Z := -31.

Inductive SocketMode := Stream | Datagram | Mud.
Inductive SocketState := Unbound | Bound | Listen | DataXfer | Closed.

#[export] Instance SocketMode_eq_dec : EqDecision SocketMode.
Proof. solve_decision. Defined.
#[export] Instance SocketState_eq_dec : EqDecision SocketState.
Proof. solve_decision. Defined.

Record LpcSocket := mkSocket {
  handle : Z;
  fd : Z;
  mode : SocketMode;
  state : SocketState;
  owner : option addr;             (** weak *)
  readCallback : value;
  writeCallback : value;
  closeCallback : value;
  released : bool;
  releaseTarget : option addr;     (** weak *)
  blocked : bool;
  pendingWrite : bytes;
  mudWaitingForHeader : bool;
  mudHeader : bytes;               (** [mudHeaderWord], [mudHeaderGot] *)
  mudReadLen : Z;
  mudReadBuf : bytes;              (** its first [mudReadGot] bytes *)
  acceptPending : bool;
  remoteAddr : bytes;
  remotePort : Z;
  localAddr : bytes;
  localPort : Z;
}.

#[export] Instance eta_LpcSocket : Eta LpcSocket := λ s,
  mkSocket (handle s) (fd s) (mode s) (state s) (owner s) (readCallback s) (writeCallback s)
    (closeCallback s) (released s) (releaseTarget s) (blocked s) (pendingWrite s)
    (mudWaitingForHeader s) (mudHeader s) (mudReadLen s) (mudReadBuf s) (acceptPending s)
    (remoteAddr s) (remotePort s) (localAddr s) (localPort s).

Definition no_value : value := mk VVoid.

Definition newSocket (h f : Z) (m : SocketMode) (o : option addr) : LpcSocket :=
  mkSocket h f m Unbound o no_value no_value no_value false None false [] true [] 0 [] false [] 0 [] 0.

Record sreg := mkReg {
  sockets : gmap Z LpcSocket;
  g_sockets : gset Z;
  g_nextHandle : Z;
  sobjects : table;
  sheap : heap;
}.

#[export] Instance eta_sreg : Eta sreg := λ r,
  mkReg (sockets r) (g_sockets r) (g_nextHandle r) (sobjects r) (sheap r).

(** [g_sockets.find(handle)]. *)
Definition find (h : Z) (r : sreg) : option LpcSocket :=
  if bool_decide (h ∈ g_sockets r) then sockets r !! h else None.

(** A change of a socket object. *)
Definition upd_sock (h : Z) (f : LpcSocket → LpcSocket) (r : sreg) : sreg :=
  r <| sockets ::= alter f h |>.

(** [g_sockets.erase(handle)]: the destructor of the object closes the file
    descriptor when nothing else holds it. *)
Definition forceRemove (h : Z) (r : sreg) : sreg := r <| g_sockets ::= λ g, g ∖ {[h]} |>.

(** [std::make_shared<LpcSocket>(g_nextHandle++, ...)] and its registration. *)
Definition register (mk_sock : Z → LpcSocket) (r : sreg) : Z * sreg :=
  let h := g_nextHandle r in
  (h, r <| g_nextHandle := h + 1 |> <| sockets ::= <[h := mk_sock h]> |> <| g_sockets ::= union {[h]} |>).

(** ** System calls *)

Inductive errno :=
  | E_AGAIN                    (** and [EWOULDBLOCK] *)
  | E_INTR | E_ADDRINUSE | E_ALREADY | E_CONNREFUSED | E_INPROGRESS
  | E_PERM | E_NETUNREACH | E_HOSTUNREACH | E_OTHER.

Inductive sys (A : Type) := Done (a : A) | Failed (e : errno).
Arguments Done {A} a.
Arguments Failed {A} e.

Inductive create_io := SocketFailed | SetSockOptFailed | NonBlockFailed | SocketReady (newFd : Z).

(** ** Operations *)

Definition create (m : Z) (readCb closeCb : value) (ow : option addr) (io : create_io)
    (r : sreg) : Z * sreg :=
  let go (sm : SocketMode) :=
    match io with
    | SocketFailed => (ESocket, r)
    | SetSockOptFailed => (ESetSockOpt, r)
    | NonBlockFailed => (ENonBlock, r)
    | SocketReady newFd =>
        register (λ h, (newSocket h newFd sm ow) <| readCallback := readCb |>
          <| closeCallback := if bool_decide (sm = Datagram) then no_value else closeCb |>) r
    end in
  if m =? 0 then go Mud else if m =? 1 then go Stream else if m =? 2 then go Datagram
  else (EModeNotSupp, r).

(** The guards that every operation on a handle starts with. *)
Definition guarded (h : Z) (caller : option addr) (r : sreg)
    (k : LpcSocket → Z * sreg) : Z * sreg :=
  match find h r with
  | None => (EFdRange, r)
  | Some sock =>
      if bool_decide (state sock = Closed) then (EBadF, r)
      else if bool_decide (lock (sobjects r) (owner sock) ≠ caller) then (ESecurity, r)
      else k sock
  end.

Definition INADDR_NONE : Z := 2 ^ 32 - 1.

(** [std::atoi]: [strtol] saturates, the cast to [int] wraps. *)
Definition atoi (s : bytes) : Z :=
  match strto s with
  | None => 0
  | Some (neg, n) => to_i32 (if (neg : bool) then Z.max (- n) (- 2 ^ 63) else Z.min n (2 ^ 63 - 1))
  end.

Fixpoint cut_at (c : ascii) (s : bytes) : option (bytes * bytes) :=
  match s with
  | [] => None
  | d :: s => if Ascii.eqb d c then Some ([], s) else '(a, b) ← cut_at c s; Some (d :: a, b)
  end.

Definition parseHostPort (name : bytes) : option (bytes * Z) :=
  match cut_at " " name with
  | None => None
  | Some (host, portStr) => match portStr with [] => None | _ => Some (host, atoi portStr) end
  end.

Section Operations.
Context (inet_addr : bytes → Z).

(** [buildSockaddr]: whether the host is an address. *)
Definition buildSockaddr (host : bytes) : bool :=
  negb ((inet_addr host =? INADDR_NONE) && negb (bool_decide (host = $"255.255.255.255"))).

(** [io] is the result of [bind], [name] that of [getsockname]. *)
Definition bind (h : Z) (address : option bytes) (caller : option addr) (io : sys unit)
    (name : option (bytes * Z)) (r : sreg) : Z * sreg :=
  guarded h caller r (λ sock,
    if bool_decide (state sock ≠ Unbound) then (EIsBound, r)
    else if match address with Some a => inet_addr a =? INADDR_NONE | None => false end then (EBadAddr, r)
    else match io with
         | Failed E_ADDRINUSE => (EAddrInUse, r)
         | Failed _ => (EBind, r)
         | Done _ =>
             (Success, upd_sock h (λ s,
                match name with
                | Some (a, p) => s <| localAddr := a |> <| localPort := p |>
                | None => s
                end <| state := Bound |>) r)
         end).

Definition listen (h : Z) (callback : value) (caller : option addr) (io : bool) (r : sreg) : Z * sreg :=
  guarded h caller r (λ sock,
    if bool_decide (mode sock = Datagram) then (EModeNotSupp, r)
    else if bool_decide (state sock = Unbound) then (ENoAddr, r)
    else if bool_decide (state sock ≠ Bound) then (EIsConn, r)
    else if negb io then (EListen, r)
    else (Success, upd_sock h (λ s, s <| state := Listen |> <| readCallback := callback |>) r)).

(** [io]: the file descriptor, address and port of the peer. *)
Definition accept (h : Z) (readCb writeCb : value) (caller : option addr)
    (io : sys (Z * bytes * Z)) (r : sreg) : Z * sreg :=
  guarded h caller r (λ listenSock,
    if bool_decide (mode listenSock = Datagram) then (EModeNotSupp, r)
    else if bool_decide (state listenSock ≠ Listen) then (ENotListn, r)
    else
      let r := upd_sock h (λ s, s <| acceptPending := false |>) r in
      match io with
      | Failed E_AGAIN => (EWouldBlock, r)
      | Failed E_INTR => (EIntr, r)
      | Failed _ => (EAccept, r)
      | Done (newFd, peer, port) =>
          register (λ h', (newSocket h' newFd (mode listenSock) caller) <| state := DataXfer |>
            <| readCallback := readCb |> <| writeCallback := writeCb |>
            <| closeCallback := closeCallback listenSock |>
            <| remoteAddr := peer |> <| remotePort := port |>
            <| localAddr := localAddr listenSock |> <| localPort := localPort listenSock |>) r
      end).

(** An error of [connect] that is not reported. *)
Definition connecting (e : errno) : bool :=
  match e with E_INPROGRESS | E_PERM | E_NETUNREACH | E_HOSTUNREACH => true | _ => false end.

Definition connect_error (e : errno) : Z :=
  match e with
  | E_INTR => EIntr
  | E_ADDRINUSE => EAddrInUse
  | E_ALREADY => EAlready
  | E_CONNREFUSED => EConnRefused
  | _ => EConnect
  end.

Definition connect (h : Z) (address : bytes) (readCb writeCb : value) (caller : option addr)
    (io : sys unit) (r : sreg) : Z * sreg :=
  guarded h caller r (λ sock,
    if bool_decide (mode sock = Datagram) then (EModeNotSupp, r)
    else if bool_decide (state sock = Listen) then (EIsListen, r)
    else if bool_decide (state sock = DataXfer) then (EIsConn, r)
    else match parseHostPort address with
         | None => (EBadAddr, r)
         | Some (host, port) =>
             if negb (buildSockaddr host) then (EBadAddr, r)
             else
               let r := upd_sock h (λ s, s <| readCallback := readCb |> <| writeCallback := writeCb |>) r in
               let connected := (Success, upd_sock h (λ s, s <| state := DataXfer |>
                 <| remoteAddr := host |> <| remotePort := port |> <| blocked := true |>) r) in
               match io with
               | Done _ => connected
               | Failed e => if connecting e then connected else (connect_error e, r)
               end
         end).

(** [io]: what [sendto] or [write] answers. *)
Definition write (h : Z) (message : value) (address : option bytes) (caller : option addr)
    (io : sys Z) (r : sreg) : Z * sreg :=
  guarded h caller r (λ sock,
    match vdata message with
    | VStr text =>
        if bool_decide (mode sock = Datagram) then
          match address with
          | None => (ENoAddr, r)
          | Some a =>
              match parseHostPort a with
              | None => (EBadAddr, r)
              | Some (host, _) =>
                  if negb (buildSockaddr host) then (EBadAddr, r)
                  else match io with Done _ => (Success, r) | Failed _ => (ESendTo, r) end
              end
          end
        else if bool_decide (state sock ≠ DataXfer) then (ENotConn, r)
        else if bool_decide (is_Some address) then (EBadAddr, r)
        else if blocked sock then (EAlready, r)
        else if bool_decide (text = []) then (Success, r)
        else match io with
             | Failed E_AGAIN => (EWouldBlock, r)
             | Failed E_INTR => (EIntr, r)
             | Failed _ => (ESend, forceRemove h r)
             | Done off =>
                 if off <=? 0 then (ESend, forceRemove h r)
                 else if off <? size text then
                   (ECallback, upd_sock h (λ s, s <| blocked := true |> <| pendingWrite := dropz off text |>) r)
                 else (Success, r)
             end
    | _ => (ETypeNotSupp, r)
    end).
End Operations.

(** The bytes a datagram write sends: the terminator too. *)
Definition datagram_bytes (text : bytes) : bytes := text ++ [NUL].

Definition close (h : Z) (caller : option addr) (r : sreg) : Z * sreg :=
  guarded h caller r (λ _, (Success, forceRemove h r)).

Definition owned_by (r : sreg) (ow : addr) (h : Z) : bool :=
  match sockets r !! h with
  | Some s => bool_decide (lock (sobjects r) (owner s) = Some ow) && negb (bool_decide (state s = Closed))
  | None => false
  end.

Definition closeAllOwnedBy (ow : option addr) (r : sreg) : sreg :=
  match ow with
  | None => r
  | Some a => r <| g_sockets ::= filter (λ h, owned_by r a h = false) |>
  end.

Definition beginRelease (h : Z) (ob caller : option addr) (r : sreg) : Z * sreg :=
  guarded h caller r (λ sock,
    if released sock then (ESockRlsd, r)
    else (Success, upd_sock h (λ s, s <| released := true |> <| releaseTarget := ob |>) r)).

Definition isReleased (h : Z) (r : sreg) : bool :=
  match find h r with Some s => released s | None => false end.

Definition cancelRelease (h : Z) (r : sreg) : sreg :=
  match find h r with
  | None => r
  | Some _ => upd_sock h (λ s, s <| released := false |> <| releaseTarget := None |>) r
  end.

Definition acquire (h : Z) (readCb writeCb closeCb : value) (caller : option addr) (r : sreg) : Z * sreg :=
  match find h r with
  | None => (EFdRange, r)
  | Some sock =>
      if bool_decide (state sock = Closed) then (EBadF, r)
      else if negb (released sock) then (ESockNotRlsd, r)
      else if bool_decide (lock (sobjects r) (releaseTarget sock) ≠ caller) then (ESecurity, r)
      else (Success, upd_sock h (λ s, s <| released := false |> <| owner := caller |>
              <| releaseTarget := None |> <| readCallback := readCb |>
              <| writeCallback := writeCb |> <| closeCallback := closeCb |>) r)
  end.

(** ** Reports *)

Definition kErrorStrings : list bytes := [
  $"Problem creating socket"; $"Problem with setsockopt"; $"Problem setting non-blocking mode";
  $"No more available efun sockets"; $"Descriptor out of range"; $"Socket is closed";
  $"Security violation attempted"; $"Socket is already bound"; $"Address already in use";
  $"Problem with bind"; $"Problem with getsockname"; $"Socket mode not supported";
  $"Socket not bound to an address"; $"Socket is already connected"; $"Problem with listen";
  $"Socket not listening"; $"Operation would block"; $"Interrupted system call";
  $"Problem with accept"; $"Socket is listening"; $"Problem with address format";
  $"Operation already in progress"; $"Connection refused"; $"Problem with connect";
  $"Socket not connected"; $"Object type not supported"; $"Problem with sendto";
  $"Problem with send"; $"Wait for callback"; $"Socket already released";
  $"Socket not released"; $"Data nested too deeply"].

(** [-(error + 1)] is computed in [int]: [INT_MAX + 1] is undefined. *)
Definition errorString (error : Z) : result bytes :=
  if error =? 2 ^ 31 - 1 then Undefined
  else
    let index := - (error + 1) in
    if (index <? 0) || (size kErrorStrings <=? index) then Ok $"socket_error: invalid error number"
    else deref (kErrorStrings !! Z.to_nat index).

Definition modeName (m : SocketMode) : bytes :=
  match m with Stream => $"STREAM" | Datagram => $"DATAGRAM" | Mud => $"MUD" end.

Definition stateName (s : SocketState) : bytes :=
  match s with
  | Unbound => $"UNBOUND" | Bound => $"BOUND" | Listen => $"LISTEN"
  | DataXfer => $"DATA_XFER" | Closed => $"CLOSED"
  end.

Definition address_text (a : bytes) (p : Z) : bytes :=
  match a with [] => [] | _ => a ++ $" " ++ to_string p end.

(** The items of the status array. *)
Definition statusOne (os : table) (sock : LpcSocket) : list value :=
  [mk (VInt (handle sock)); mk (VStr (stateName (state sock))); mk (VStr (modeName (mode sock)));
   mk (VStr (address_text (localAddr sock) (localPort sock)));
   mk (VStr (address_text (remoteAddr sock) (remotePort sock)));
   match lock os (owner sock) with Some a => mk (VObj (Some a)) | None => no_value end].

(** ** Polling: [Server::pollSockets] *)

(** The calls into LPC: their effect on the state, errors included, which the
    server catches. *)
Class SocketVM := {
  callClosure : addr → list value → sreg → sreg;
  callFunction : addr → bytes → list value → sreg → sreg;
}.

Section Poll.
Context `{SocketVM} (fuel : nat).

Definition fireSocketCallback (callback : value) (ow : option addr) (args : list value) (r : sreg) : sreg :=
  match vdata callback with
  | VClo (Some c) => callClosure c args r
  | VStr name =>
      match lock (sobjects r) ow with
      | Some ob => callFunction ob name args r
      | None => r
      end
  | _ => r
  end.

Definition closeSocketAndFireCallback (h : Z) (r : sreg) : sreg :=
  match sockets r !! h with
  | None => r
  | Some sock => fireSocketCallback (closeCallback sock) (owner sock) [mk (VInt h)] (forceRemove h r)
  end.

(** A callback with the current callback value and owner of the socket. *)
Definition fire_read (h : Z) (args : list value) (r : sreg) : sreg :=
  match sockets r !! h with
  | None => r
  | Some sock => fireSocketCallback (readCallback sock) (owner sock) (mk (VInt h) :: args) r
  end.

Definition kMudMaxByteTransfer : Z := 1000000.

(** [ntohl] of the header word. *)
Definition be32 (w : bytes) : Z := foldl (λ a c, 256 * a + code c) 0 w.

Definition strip_nuls (s : bytes) : bytes := reverse (snd (span (λ c, Ascii.eqb c NUL) (reverse s))).

(** The value of a frame; what cannot be read is void. *)
Definition mud_value (body : bytes) (r : sreg) : result (value * sreg) :=
  match parseRestoreVariableTopLevel fuel (strip_nuls body) (sheap r) with
  | Ok (v, hp) => Ok (v, r <| sheap := hp |>)
  | Throw _ => Ok (no_value, r)
  | Undefined => Undefined
  | OutOfFuel => OutOfFuel
  end.

Definition clear_frame (s : LpcSocket) : LpcSocket :=
  s <| mudWaitingForHeader := true |> <| mudReadBuf := [] |> <| mudReadLen := 0 |>.

(** The body of a frame: the bytes that belong to it, and the frame if it is
    complete. *)
Definition mud_body (rec : bytes → sreg → result (bool * sreg)) (h : Z) (buf : bytes)
    (sock : LpcSocket) (r : sreg) : result (bool * sreg) :=
  let want := mudReadLen sock - size (mudReadBuf sock) in
  let body := mudReadBuf sock ++ takez want buf in
  let buf := dropz want buf in
  if size body <? mudReadLen sock then Ok (false, upd_sock h (λ s, s <| mudReadBuf := body |>) r)
  else
    let* (v, r) := mud_value body r in
    let r := upd_sock h clear_frame r in
    rec buf (fire_read h [v] r).

(** [while (off < total && !closed)]: whether the socket was closed. *)
Fixpoint mud_loop (n : nat) (h : Z) (buf : bytes) (r : sreg) : result (bool * sreg) :=
  match n with
  | O => OutOfFuel
  | S n =>
      match buf, sockets r !! h with
      | [], _ => Ok (false, r)
      | _, None => Undefined
      | _, Some sock =>
          if mudWaitingForHeader sock then
            let want := 4 - size (mudHeader sock) in
            let word := mudHeader sock ++ takez want buf in
            let buf := dropz want buf in
            if size word <? 4 then Ok (false, upd_sock h (λ s, s <| mudHeader := word |>) r)
            else
              let len := be32 word in
              let sock' := sock <| mudHeader := [] |> <| mudReadLen := len |>
                             <| mudWaitingForHeader := false |> in
              let r' := upd_sock h (λ s, s <| mudHeader := [] |> <| mudReadLen := len |>
                                           <| mudWaitingForHeader := false |>) r in
              if (len =? 0) || (kMudMaxByteTransfer <? len) then Ok (true, closeSocketAndFireCallback h r')
              else mud_body (mud_loop n h) h buf (sock' <| mudReadBuf := [] |>)
                     (upd_sock h (λ s, s <| mudReadBuf := [] |>) r')
          else mud_body (mud_loop n h) h buf sock r
      end
  end.

(** What [poll] and the calls after it answer for one socket. *)
Record poll_io := mkPoll {
  readable : bool;
  writable : bool;                        (** asked for a blocked socket only *)
  datagram : option (bytes * bytes * Z);  (** [recvfrom]: data, address, port *)
  received : sys bytes;                   (** [read]: no bytes at the end of file *)
  flushed : sys Z;                        (** [write] of the pending bytes *)
}.

(** A C string of the buffer. *)
Definition c_str (s : bytes) : bytes := fst (span (λ c, negb (Ascii.eqb c NUL)) s).

Definition transient (e : errno) : bool := match e with E_AGAIN | E_INTR => true | _ => false end.

(** The read part of a connected socket: whether to go on with the write part. *)
Definition poll_read (h : Z) (io : poll_io) (r : sreg) : result (bool * sreg) :=
  match sockets r !! h with
  | None => Undefined
  | Some sock =>
      match received io with
      | Done [] => Ok (false, closeSocketAndFireCallback h r)
      | Done buf =>
          if bool_decide (mode sock = Mud) then
            let* (closed, r) := mud_loop (S (length buf)) h buf r in Ok (negb closed, r)
          else Ok (true, fire_read h [mk (VStr buf)] r)
      | Failed e => if transient e then Ok (true, r) else Ok (false, closeSocketAndFireCallback h r)
      end
  end.

Definition poll_write (h : Z) (io : poll_io) (r : sreg) : sreg :=
  match sockets r !! h with
  | None => r
  | Some sock =>
      if negb (blocked sock) then r
      else
        let finish (r : sreg) :=
          match sockets r !! h with
          | Some sock =>
              if bool_decide (pendingWrite sock = []) then
                fireSocketCallback (writeCallback sock) (owner sock) [mk (VInt h)]
                  (upd_sock h (λ s, s <| blocked := false |>) r)
              else r
          | None => r
          end in
        if bool_decide (pendingWrite sock = []) then finish r
        else match flushed io with
             | Done off =>
                 finish (if 0 <? off then upd_sock h (λ s, s <| pendingWrite ::= dropz off |>) r else r)
             | Failed e => if transient e then finish r else closeSocketAndFireCallback h r
             end
  end.

(** One socket of the loop. *)
Definition pollSocket (h : Z) (io : poll_io) (r : sreg) : result sreg :=
  match sockets r !! h with
  | None => Undefined
  | Some sock =>
      if fd sock <? 0 then Ok r
      else if bool_decide (mode sock = Datagram) then
        if negb (readable io) then Ok r
        else match datagram io with
             | None | Some ([], _, _) => Ok r
             | Some (buf, ip, port) =>
                 Ok (fire_read h [mk (VStr (c_str buf)); mk (VStr (ip ++ $" " ++ to_string port))] r)
             end
      else if bool_decide (state sock = Listen) then
        if acceptPending sock || negb (readable io) then Ok r
        else Ok (fire_read h [] (upd_sock h (λ s, s <| acceptPending := true |>) r))
      else if bool_decide (state sock ≠ DataXfer) then Ok r
      else
        let* (go_on, r) := if readable io then poll_read h io r else Ok (true, r) in
        Ok (if go_on && blocked sock && writable io then poll_write h io r else r)
  end.

(** [pollSockets] over the copy [all()] of the registry, in its order. *)
Fixpoint pollSockets (hs : list (Z * poll_io)) (r : sreg) : result sreg :=
  match hs with
  | [] => Ok r
  | (h, io) :: hs => let* r := pollSocket h io r in pollSockets hs r
  end.
End Poll.
