(* ===== verification/SocketsSpec.v ===== *)
(** * Properties of LPC sockets

    The invariant of the registry over every sequence of operations of LPC
    code, of the rest of the driver and of polls of the server with their
    callbacks, and the ownership of sockets over every sequence of
    operations. *)

From S2P Require Import Prelude Doubles Values Trees SaveVariable Objects Sockets.

(** ** Operations as steps *)

Inductive sock_op :=
  | OpCreate (m : Z) (readCb closeCb : value) (ow : option addr) (io : create_io)
  | OpBind (h : Z) (address : option bytes) (caller : option addr) (io : sys unit) (name : option (bytes * Z))
  | OpListen (h : Z) (cb : value) (caller : option addr) (io : bool)
  | OpAccept (h : Z) (readCb writeCb : value) (caller : option addr) (io : sys (Z * bytes * Z))
  | OpConnect (h : Z) (address : bytes) (readCb writeCb : value) (caller : option addr) (io : sys unit)
  | OpWrite (h : Z) (message : value) (address : option bytes) (caller : option addr) (io : sys Z)
  | OpClose (h : Z) (caller : option addr)
  | OpCloseAll (ow : option addr)
  | OpForce (h : Z)
  | OpRelease (h : Z) (ob caller : option addr)
  | OpCancel (h : Z)
  | OpAcquire (h : Z) (readCb writeCb closeCb : value) (caller : option addr).

(** The handle and the caller of an operation that only the owner may do. *)
Definition owner_op (op : sock_op) : option (Z * option addr) :=
  match op with
  | OpBind h _ c _ _ | OpListen h _ c _ | OpAccept h _ _ c _ | OpConnect h _ _ _ c _
  | OpWrite h _ _ c _ | OpClose h c | OpRelease h _ c => Some (h, c)
  | _ => None
  end.

(** The file descriptor the system gives to an operation. *)
Definition op_fd (op : sock_op) : option Z :=
  match op with
  | OpCreate _ _ _ _ (SocketReady f) => Some f
  | OpAccept _ _ _ _ (Done (f, _, _)) => Some f
  | _ => None
  end.

Section Steps.
Context (inet_addr : bytes → Z).

Definition run_op (op : sock_op) (r : sreg) : Z * sreg :=
  match op with
  | OpCreate m rc cc ow io => create m rc cc ow io r
  | OpBind h a c io name => bind inet_addr h a c io name r
  | OpListen h cb c io => listen h cb c io r
  | OpAccept h rc wc c io => accept h rc wc c io r
  | OpConnect h a rc wc c io => connect inet_addr h a rc wc c io r
  | OpWrite h m a c io => write inet_addr h m a c io r
  | OpClose h c => close h c r
  | OpCloseAll ow => (Success, closeAllOwnedBy ow r)
  | OpForce h => (Success, forceRemove h r)
  | OpRelease h ob c => beginRelease h ob c r
  | OpCancel h => (Success, cancelRelease h r)
  | OpAcquire h rc wc cc c => acquire h rc wc cc c r
  end.

End Steps.

(** ** The invariant *)

(** The frame a MUD socket is reading: at most three bytes of the next length
    word, or a length within the limit and fewer bytes than it. *)
Definition frame_ok (s : LpcSocket) : Prop :=
  size (mudHeader s) < 4 ∧
  if mudWaitingForHeader s then mudReadBuf s = []
  else mudHeader s = [] ∧ 0 < mudReadLen s ≤ 1000000 ∧ size (mudReadBuf s) < mudReadLen s.

Record sock_ok (h : Z) (s : LpcSocket) : Prop := {
  ok_handle : handle s = h;
  ok_open : state s ≠ Closed;
  ok_datagram : mode s = Datagram → state s = Unbound ∨ state s = Bound;
  ok_blocked : blocked s = true → state s = DataXfer;
  ok_pending : pendingWrite s ≠ [] → blocked s = true;
  ok_accept : acceptPending s = true → state s = Listen;
  ok_frame : frame_ok s;
}.

(** Every handle of the registry was given out, names an open socket with
    that handle, and no two of them share a file descriptor. *)
Record reg_ok (r : sreg) : Prop := {
  ok_next : 0 ≤ g_nextHandle r;
  ok_sockets : ∀ h, h ∈ g_sockets r → 0 ≤ h < g_nextHandle r ∧
                 ∃ s, sockets r !! h = Some s ∧ sock_ok h s;
  ok_fds : ∀ h1 h2 s1 s2, find h1 r = Some s1 → find h2 r = Some s2 → fd s1 = fd s2 → h1 = h2;
}.

(** The system gives out no descriptor that is open. *)
Definition fresh_fd (op : sock_op) (r : sreg) : Prop :=
  ∀ f h s, op_fd op = Some f → find h r = Some s → fd s ≠ f.

Lemma sock_find_Some h r s : find h r = Some s ↔ h ∈ g_sockets r ∧ sockets r !! h = Some s.
Proof. unfold find. case_bool_decide; naive_solver. Qed.

Lemma find_upd h h' f r :
  find h (upd_sock h' f r) = if decide (h = h') then f <$> find h r else find h r.
Proof.
  unfold find, upd_sock. simpl. case_bool_decide; [|by case_decide].
  case_decide; [subst; apply lookup_alter_eq|by apply lookup_alter_ne].
Qed.

Lemma find_ok r h s : reg_ok r → find h r = Some s → sock_ok h s.
Proof.
  intros Hr [Hin Hs]%sock_find_Some. destruct (ok_sockets r Hr h Hin) as (_ & s' & Hs' & Hok). by simplify_eq.
Qed.

(** A change of a socket, in the registry or still held by a poll. *)
Lemma reg_ok_change r h f :
  reg_ok r → (∀ s, find h r = Some s → sock_ok h (f s) ∧ fd (f s) = fd s) → reg_ok (upd_sock h f r).
Proof.
  intros [Hn Hs Hd] Hf. split; [done| |].
  - intros h' Hin. destruct (Hs h' Hin) as (Hlt & s' & Hs' & Hok'). split; [done|]. unfold upd_sock. simpl.
    destruct (decide (h' = h)) as [->|]; [rewrite lookup_alter_eq|rewrite lookup_alter_ne by done]; [|eauto].
    rewrite Hs'. exists (f s'). split; [done|]. by apply Hf, sock_find_Some.
  - intros h1 h2 s1 s2 H1 H2 Heq. rewrite find_upd in H1, H2.
    assert (∀ h' s', (if decide (h' = h) then f <$> find h' r else find h' r) = Some s' →
      ∃ s0, find h' r = Some s0 ∧ fd s' = fd s0) as Hback.
    { intros h' s' H'. case_decide; [|eauto]. subst. destruct (find h r) as [s0|] eqn:E; [|done]. simplify_eq/=.
      destruct (Hf s0 eq_refl). eauto. }
    apply Hback in H1 as (t1 & ? & ?), H2 as (t2 & ? & ?). eapply Hd; [done..|congruence].
Qed.

Lemma reg_ok_upd r h f s :
  reg_ok r → find h r = Some s → sock_ok h (f s) → fd (f s) = fd s → reg_ok (upd_sock h f r).
Proof. intros Hr Hs Hok Hfd. apply reg_ok_change; [done|]. intros s' Hs'. by simplify_eq. Qed.

Lemma reg_ok_remove r (P : Z → Prop) `{∀ h, Decision (P h)} :
  reg_ok r → reg_ok (r <| g_sockets ::= filter P |>).
Proof.
  intros [Hn Hs Hd]. split; simpl; [done| |].
  - intros h [_ Hin]%elem_of_filter. eauto.
  - intros h1 h2 s1 s2 [H1 H1']%sock_find_Some [H2 H2']%sock_find_Some. simpl in *.
    apply elem_of_filter in H1 as [_ H1], H2 as [_ H2]. apply Hd; by apply sock_find_Some.
Qed.

Lemma forceRemove_filter h r : forceRemove h r = r <| g_sockets ::= filter (λ x, x ≠ h) |>.
Proof.
  unfold forceRemove. destruct r as [s g n o hp]. unfold update. simpl. f_equal.
  apply set_eq. intros x. set_solver.
Qed.

Lemma reg_ok_force h r : reg_ok r → reg_ok (forceRemove h r).
Proof. rewrite forceRemove_filter. apply reg_ok_remove. Qed.

Lemma find_register f r h :
  find h (snd (register f r)) = if decide (h = g_nextHandle r) then Some (f h) else find h r.
Proof.
  unfold find, register. simpl. case_decide.
  - subst. rewrite bool_decide_eq_true_2 by set_solver. by rewrite lookup_insert_eq.
  - rewrite lookup_insert_ne by done. case_bool_decide as H1; case_bool_decide as H2; set_solver.
Qed.

Lemma reg_ok_register f r :
  reg_ok r → sock_ok (g_nextHandle r) (f (g_nextHandle r)) →
  (∀ h s, find h r = Some s → fd s ≠ fd (f (g_nextHandle r))) →
  reg_ok (snd (register f r)).
Proof.
  intros [Hn Hs Hd] Hok Hfd. split.
  - simpl. lia.
  - intros h Hin. simpl in Hin |- *. destruct (decide (h = g_nextHandle r)) as [->|Hne].
    + split; [lia|]. rewrite lookup_insert_eq. eauto.
    + assert (h ∈ g_sockets r) as Hin' by set_solver. destruct (Hs h Hin') as (Hlt & s & Hs' & Hok').
      split; [lia|]. rewrite lookup_insert_ne by done. eauto.
  - intros h1 h2 s1 s2 H1 H2 Heq. rewrite find_register in H1, H2.
    repeat case_decide; simplify_eq; try done; try (by eapply Hd);
      match goal with H : find _ r = Some _ |- _ => by destruct (Hfd _ _ H) end.
Qed.

#[local] Hint Resolve reg_ok_force : core.

(** Cases of an operation on a handle. *)
Lemma guarded_cases h c r k :
  (∃ e, guarded h c r k = (e, r) ∧ e ≠ Success ∧
        ((find h r = None ∧ e = EFdRange) ∨ ∃ s, find h r = Some s ∧ (e = EBadF ∨ e = ESecurity))) ∨
  ∃ s, find h r = Some s ∧ state s ≠ Closed ∧ lock (sobjects r) (owner s) = c ∧ guarded h c r k = k s.
Proof.
  unfold guarded. destruct (find h r) as [s|]; [|left; eexists; naive_solver].
  case_bool_decide; [left; eexists; naive_solver|].
  case_bool_decide as H2; [left; eexists; naive_solver|].
  right. by exists s.
Qed.

(** Split on the guards of the operation in the goal. *)
Ltac guards s Hs Hc Ho :=
  match goal with
  | |- context [guarded ?h ?c ?r ?k] =>
      destruct (guarded_cases h c r k) as [(? & -> & ? & ?)|(s & Hs & Hc & Ho & ->)]
  end.

Lemma create_ok m rc cc ow io r :
  reg_ok r → fresh_fd (OpCreate m rc cc ow io) r → reg_ok (snd (create m rc cc ow io r)).
Proof.
  intros Hr Hf. unfold create.
  assert (∀ sm, reg_ok (snd match io with
    | SocketFailed => (ESocket, r) | SetSockOptFailed => (ESetSockOpt, r) | NonBlockFailed => (ENonBlock, r)
    | SocketReady newFd =>
        register (λ h, (newSocket h newFd sm ow) <| readCallback := rc |>
          <| closeCallback := if bool_decide (sm = Datagram) then no_value else cc |>) r end)) as Hgo.
  { intros sm. destruct io as [| | |newFd]; [done..|]. apply reg_ok_register; [done| |].
    - split; simpl; try done. by left.
    - intros h s Hs. by apply (Hf newFd h s). }
  cbv zeta. destruct (m =? 0); [apply (Hgo Mud)|]. destruct (m =? 1); [apply (Hgo Stream)|].
  destruct (m =? 2); [apply (Hgo Datagram)|done].
Qed.

Lemma bind_ok ia h a c io name r : reg_ok r → reg_ok (snd (bind ia h a c io name r)).
Proof.
  intros Hr. unfold bind.
  guards s Hs Hc Ho; [done|].
  pose proof (find_ok _ _ _ Hr Hs) as [Hh _ Hd Hb Hp Ha Hfr].
  case_bool_decide as Hu; [done|]. case_if; [done|].
  destruct io as [|e]; [|by destruct e].
  assert (blocked s = false) as Hbl by (destruct (blocked s); [by rewrite Hb in Hu|done]).
  simpl. eapply reg_ok_upd; [done|done| |]; [|by destruct name as [[]|]].
  assert (pendingWrite s = []) as Hpw by (apply dec_stable; intros Hne; apply Hp in Hne; congruence).
  assert (acceptPending s = false) as Hac by (destruct (acceptPending s); [rewrite Ha in Hu|]; done).
  destruct name as [[]|]; (split; simpl; [done|done|by right|by rewrite Hbl|by rewrite Hpw|by rewrite Hac|done]).
Qed.

Lemma listen_ok h cb c io r : reg_ok r → reg_ok (snd (listen h cb c io r)).
Proof.
  intros Hr. unfold listen. guards s Hs Hc Ho; [done|].
  pose proof (find_ok _ _ _ Hr Hs) as [Hh _ Hd Hb Hp Ha Hfr].
  case_bool_decide as Hm; [done|]. case_bool_decide as Hu; [done|]. case_bool_decide as Hbd; [done|].
  case_if; [done|]. simpl. eapply reg_ok_upd; [done|done| |done].
  assert (blocked s = false) as Hbl by (destruct (blocked s); [by rewrite Hb in Hbd|done]).
  split; simpl; [done|done|done|by rewrite Hbl|by intros ?%Hp; congruence|done|done].
Qed.

Lemma reg_ok_unaccept h r : reg_ok r → reg_ok (upd_sock h (λ s, s <| acceptPending := false |>) r).
Proof.
  intros Hr. apply reg_ok_change; [done|]. intros s Hs. destruct (find_ok _ _ _ Hr Hs). split; [by split|done].
Qed.

Lemma accept_ok h rc wc c io r :
  reg_ok r → fresh_fd (OpAccept h rc wc c io) r → reg_ok (snd (accept h rc wc c io r)).
Proof.
  intros Hr Hf. unfold accept. guards s Hs Hc Ho; [done|].
  pose proof (find_ok _ _ _ Hr Hs) as [Hh Hcl Hd Hb Hp Ha Hfr].
  case_bool_decide as Hm; [done|]. case_bool_decide as Hu; [done|].
  pose proof (reg_ok_unaccept h r Hr) as Hr'.
  destruct io as [[[newFd peer] port]|e]; [|by destruct e].
  apply reg_ok_register; [done|by split|].
  intros h' s' Hs'. rewrite find_upd in Hs'. destruct (decide (h' = h)) as [->|].
  - rewrite Hs in Hs'. simplify_eq/=. by eapply (Hf newFd _ s).
  - by apply (Hf newFd h' s').
Qed.

Lemma connect_ok ia h a rc wc c io r : reg_ok r → reg_ok (snd (connect ia h a rc wc c io r)).
Proof.
  intros Hr. unfold connect. guards s Hs Hc Ho; [done|].
  pose proof (find_ok _ _ _ Hr Hs) as [Hh Hcl Hd Hb Hp Ha Hfr].
  case_bool_decide as Hm; [done|]. case_bool_decide; [done|]. case_bool_decide; [done|].
  destruct (parseHostPort a) as [[host port]|]; [|done]. case_if; [done|].
  set (r' := upd_sock h (λ s, s <| readCallback := rc |> <| writeCallback := wc |>) r).
  assert (reg_ok r') as Hr'.
  { eapply reg_ok_upd; [done|done| |done]. by split. }
  assert (find h r' = Some (s <| readCallback := rc |> <| writeCallback := wc |>)) as Hs'.
  { unfold r'. by rewrite find_upd, decide_True, Hs. }
  assert (reg_ok (upd_sock h (λ s, s <| state := DataXfer |> <| remoteAddr := host |>
            <| remotePort := port |> <| blocked := true |>) r')) as Hok.
  { eapply reg_ok_upd; [done|done| |done]. split; simpl; try done. by intros ?%Ha. }
  cbv zeta. destruct io as [|e]; [done|]. by case_if.
Qed.

Lemma write_ok ia h m a c io r : reg_ok r → reg_ok (snd (write ia h m a c io r)).
Proof.
  intros Hr. unfold write. guards s Hs Hc Ho; [done|].
  pose proof (find_ok _ _ _ Hr Hs) as [Hh Hcl Hd Hb Hp Ha Hfr].
  destruct (vdata m); try done. case_bool_decide as Hm.
  { repeat (case_match; try done). }
  case_bool_decide as Hst; [done|]. case_bool_decide; [done|]. case_if; [done|].
  case_bool_decide; [done|]. destruct io as [off|e]; [|by destruct e; simpl; auto].
  repeat case_if; simpl; auto. eapply reg_ok_upd; [done|done| |done]. by split.
Qed.

Lemma close_ok h c r : reg_ok r → reg_ok (snd (close h c r)).
Proof. intros Hr. unfold close. guards s Hs Hc Ho; simpl; auto. Qed.

(** A change that the invariant does not look at. *)
Definition quiet_change (f : LpcSocket → LpcSocket) : Prop := ∀ s,
  handle (f s) = handle s ∧ fd (f s) = fd s ∧ mode (f s) = mode s ∧ state (f s) = state s ∧
  blocked (f s) = blocked s ∧ pendingWrite (f s) = pendingWrite s ∧ acceptPending (f s) = acceptPending s ∧
  mudWaitingForHeader (f s) = mudWaitingForHeader s ∧ mudHeader (f s) = mudHeader s ∧
  mudReadLen (f s) = mudReadLen s ∧ mudReadBuf (f s) = mudReadBuf s.

Lemma reg_ok_quiet r h f s : reg_ok r → find h r = Some s → quiet_change f → reg_ok (upd_sock h f r).
Proof.
  intros Hr Hs Hf. destruct (Hf s) as (H1 & H2 & H3 & H4 & H5 & H6 & H7 & H8 & H9 & H10 & H11).
  destruct (find_ok _ _ _ Hr Hs). eapply reg_ok_upd; [done|done| |done].
  split; unfold frame_ok; by rewrite ?H1, ?H3, ?H4, ?H5, ?H6, ?H7, ?H8, ?H9, ?H10, ?H11.
Qed.

Lemma release_ok h ob c r : reg_ok r → reg_ok (snd (beginRelease h ob c r)).
Proof.
  intros Hr. unfold beginRelease. guards s Hs Hc Ho; [done|]. case_if; [done|].
  by eapply reg_ok_quiet.
Qed.

Lemma cancel_ok h r : reg_ok r → reg_ok (cancelRelease h r).
Proof.
  intros Hr. unfold cancelRelease. destruct (find h r) eqn:Hs; [|done]. by eapply reg_ok_quiet.
Qed.

Lemma acquire_ok h rc wc cc c r : reg_ok r → reg_ok (snd (acquire h rc wc cc c r)).
Proof.
  intros Hr. unfold acquire. destruct (find h r) as [s|] eqn:Hs; [|done].
  repeat (case_match; [done|]). by eapply reg_ok_quiet.
Qed.

Lemma step_ok ia op r : reg_ok r → fresh_fd op r → reg_ok (snd (run_op ia op r)).
Proof.
  intros Hr Hf. destruct op; cbn [run_op snd];
    eauto using create_ok, bind_ok, listen_ok, accept_ok, connect_ok, write_ok, close_ok,
      release_ok, cancel_ok, acquire_ok.
  unfold closeAllOwnedBy. destruct ow; [|done]. by apply reg_ok_remove.
Qed.

(** What LPC code and the rest of the driver do between two polls: operations
    with fresh descriptors, and changes of the objects and the heap. *)
Inductive lpc_run (ia : bytes → Z) : sreg → sreg → Prop :=
  | lpc_nil r : lpc_run ia r r
  | lpc_op r op r' : fresh_fd op r → lpc_run ia (snd (run_op ia op r)) r' → lpc_run ia r r'
  | lpc_world r os hp r' : lpc_run ia (r <| sobjects := os |> <| sheap := hp |>) r' → lpc_run ia r r'.

(** A callback into LPC does what LPC code can do. *)
Definition lpc_calls (ia : bytes → Z) (V : SocketVM) : Prop :=
  (∀ c args r, lpc_run ia r (callClosure c args r)) ∧
  (∀ ob f args r, lpc_run ia r (callFunction ob f args r)).

(** Runs of the driver: LPC code, and polls of the sockets that were in the
    registry when the poll began, which may have left it since. *)
Inductive sock_run (ia : bytes → Z) : sreg → sreg → Prop :=
  | run_nil r : sock_run ia r r
  | run_lpc r r1 r' : lpc_run ia r r1 → sock_run ia r1 r' → sock_run ia r r'
  | run_poll V fuel r ios r1 r' :
      lpc_calls ia V → (∀ h io, (h, io) ∈ ios → h ∈ g_sockets r) →
      pollSockets (H := V) fuel ios r = Ok r1 → sock_run ia r1 r' → sock_run ia r r'.

Lemma lpc_run_ok ia r r' : lpc_run ia r r' → reg_ok r → reg_ok r'.
Proof. induction 1 as [|r op r' Hf _ IH|r os hp r' _ IH]; [done|intros Hr; by apply IH, step_ok|].
  intros [Hn Hs Hd]. by apply IH. Qed.

(** ** Polls keep the invariant *)

Lemma find_force h h' r : find h (forceRemove h' r) = if decide (h = h') then None else find h r.
Proof.
  unfold find, forceRemove. simpl. repeat case_bool_decide; repeat case_decide; try done; set_solver.
Qed.

Section Polls.
Context (ia : bytes → Z) (V : SocketVM) (fuel : nat) (Hcalls : lpc_calls ia V).

Lemma fire_ok cb ow args r : reg_ok r → reg_ok (fireSocketCallback cb ow args r).
Proof.
  destruct Hcalls as [Hc Hf]. intros Hr. unfold fireSocketCallback.
  repeat (case_match; try done); by eapply lpc_run_ok.
Qed.

Lemma fire_read_ok h args r : reg_ok r → reg_ok (fire_read h args r).
Proof. intros Hr. unfold fire_read. case_match; [by apply fire_ok|done]. Qed.

Lemma fire_close_ok h r : reg_ok r → reg_ok (closeSocketAndFireCallback h r).
Proof. intros Hr. unfold closeSocketAndFireCallback. case_match; [by apply fire_ok, reg_ok_force|done]. Qed.

#[local] Hint Resolve fire_ok fire_read_ok fire_close_ok : core.

Lemma reg_ok_force_upd h f r : reg_ok r → reg_ok (forceRemove h (upd_sock h f r)).
Proof.
  intros Hr. destruct (reg_ok_force h r Hr) as [Hn Hs Hd]. split; [done| |].
  - intros h' Hin. destruct (Hs h' Hin) as (Hlt & s & Hs' & Hok). split; [done|]. exists s. split; [|done].
    simpl in Hin |- *. rewrite lookup_alter_ne; [done|set_solver].
  - intros h1 h2 s1 s2 H1 H2. apply Hd.
    + rewrite find_force in H1 |- *. case_decide; [done|]. by rewrite find_upd, decide_False in H1.
    + rewrite find_force in H2 |- *. case_decide; [done|]. by rewrite find_upd, decide_False in H2.
Qed.

Lemma mud_value_ok body r v r' : mud_value fuel body r = Ok (v, r') → reg_ok r → reg_ok r'.
Proof. unfold mud_value. intros H [Hn Hs Hd]. by repeat case_match; simplify_eq. Qed.

Lemma upd_sock_twice h f g r : upd_sock h g (upd_sock h f r) = upd_sock h (g ∘ f) r.
Proof.
  destruct r as [ss gs n os hp]. unfold upd_sock. cbn. f_equal. apply map_eq. intros i.
  destruct (decide (i = h)) as [->|]; [|by rewrite !lookup_alter_ne]. rewrite !lookup_alter_eq. by destruct (ss !! h).
Qed.

Lemma be32_nonneg w : 0 ≤ be32 w.
Proof.
  unfold be32. induction w as [|c w IH] using rev_ind; [done|]. rewrite foldl_app. simpl. pose proof (code_range c). lia.
Qed.

Definition keeps_ok (rec : bytes → sreg → result (bool * sreg)) : Prop :=
  ∀ buf r b r', rec buf r = Ok (b, r') → reg_ok r → reg_ok r'.

Lemma mud_body_ok rec h buf sock r b r' :
  keeps_ok rec → sockets r !! h = Some sock → mudWaitingForHeader sock = false →
  mud_body fuel rec h buf sock r = Ok (b, r') → reg_ok r → reg_ok r'.
Proof.
  intros Hrec Hs Hw. unfold mud_body. case_if; prop_tests.
  - intros H Hr. simplify_eq. apply reg_ok_change; [done|]. intros s Hf. pose proof (find_ok _ _ _ Hr Hf) as Hok.
    apply sock_find_Some in Hf as [_ ?]. simplify_eq. destruct Hok as [Hh Hop Hdg Hbl Hpe Hac [Hf1 Hf2]]. rewrite Hw in Hf2.
    split; [|done]. split; simpl; try done. split; simpl; [done|]. rewrite Hw. naive_solver lia.
  - intros H Hr. destruct (mud_value fuel _ r) as [[v r1]| | |] eqn:Ev; try done. cbn in H.
    apply (mud_value_ok _ _ _ _ Ev) in Hr. eapply Hrec; [exact H|]. apply fire_read_ok, reg_ok_change; [done|].
    intros s Hf. destruct (find_ok _ _ _ Hr Hf) as [Hh Hop Hdg Hbl Hpe Hac [Hf1 Hf2]]. split; [|done]. by split.
Qed.

Lemma mud_loop_ok n h : keeps_ok (mud_loop fuel n h).
Proof.
  induction n as [|n IH]; intros buf r b r'; [done|]. cbn [mud_loop].
  destruct buf as [|c buf]; [by intros; simplify_eq|]. destruct (sockets r !! h) as [sock|] eqn:Hs; [|done].
  destruct (mudWaitingForHeader sock) eqn:Hw; [|by apply mud_body_ok].
  case_if; prop_tests.
  - intros H Hr. simplify_eq. apply reg_ok_change; [done|]. intros s Hf. pose proof (find_ok _ _ _ Hr Hf) as Hok.
    apply sock_find_Some in Hf as [_ ?]. simplify_eq. destruct Hok as [Hh Hop Hdg Hbl Hpe Hac [Hf1 Hf2]]. rewrite Hw in Hf2.
    split; [|done]. split; simpl; try done. split; simpl; [done|]. by rewrite Hw.
  - destruct ((_ =? 0) || _) eqn:Hz.
    + intros H Hr. simplify_eq. unfold closeSocketAndFireCallback. simpl. rewrite lookup_alter_eq, Hs. simpl.
      by apply fire_ok, (reg_ok_force_upd h).
    + intros H Hr. eapply mud_body_ok; [exact IH| | |exact H|].
      * simpl. by rewrite !lookup_alter_eq, Hs.
      * done.
      * rewrite upd_sock_twice. apply reg_ok_change; [done|]. intros s Hf. destruct (find_ok _ _ _ Hr Hf).
        split; [|done]. split; simpl; try done. unfold kMudMaxByteTransfer in Hz.
        pose proof (be32_nonneg (mudHeader sock ++ takez (4 - size (mudHeader sock)) (c :: buf))). prop_tests.
        split; simpl; [done|]. change (size (@nil ascii)) with 0. split; [done|]. lia.
Qed.

Lemma poll_read_ok h io r b r' : poll_read fuel h io r = Ok (b, r') → reg_ok r → reg_ok r'.
Proof.
  unfold poll_read. intros H Hr. destruct (sockets r !! h) as [sock|]; [|done].
  destruct (received io) as [[|c buf]|e]; [by simplify_eq; auto| |by case_match; simplify_eq; auto].
  case_bool_decide; [|by simplify_eq; auto].
  destruct (mud_loop fuel (S (length (c :: buf))) h (c :: buf) r) as [[cl r1]| | |] eqn:E; try done.
  injection H as _ <-. by eapply mud_loop_ok.
Qed.

(** A blocked socket is only unblocked when nothing is left to write. *)
Lemma poll_write_ok h io r : reg_ok r → reg_ok (poll_write h io r).
Proof.
  intros Hr. unfold poll_write. destruct (sockets r !! h) as [sock|] eqn:Hs; [|done]. destruct (blocked sock) eqn:Hbl0; [|done]. cbn [negb].
  assert (∀ r, reg_ok r → reg_ok match sockets r !! h with
    | Some sock => if bool_decide (pendingWrite sock = []) then
        fireSocketCallback (writeCallback sock) (owner sock) [mk (VInt h)] (upd_sock h (λ s, s <| blocked := false |>) r)
        else r
    | None => r end) as Hfin.
  { intros r1 Hr1. destruct (sockets r1 !! h) as [s1|] eqn:Hs1; [|done]. case_bool_decide as Hp1; [|done].
    apply fire_ok, reg_ok_change; [done|]. intros s Hf. pose proof (find_ok _ _ _ Hr1 Hf) as [].
    apply sock_find_Some in Hf as [_ Hf]. simplify_eq. split; [|done]. by split. }
  case_bool_decide as Hp.
  { pose proof (Hfin r Hr) as Hf. rewrite Hs, bool_decide_eq_true_2 in Hf by done. exact Hf. }
  destruct (flushed io) as [off|e].
  - apply Hfin. case_if; [|done]. apply reg_ok_change; [done|]. intros s Hf. pose proof (find_ok _ _ _ Hr Hf) as [].
    apply sock_find_Some in Hf as [_ Hf]. simplify_eq. split; [|done]. split; simpl; try done; by rewrite Hbl0.
  - case_if; auto.
Qed.

Lemma pollSocket_ok h io r r' : pollSocket fuel h io r = Ok r' → reg_ok r → reg_ok r'.
Proof.
  unfold pollSocket. intros H Hr. destruct (sockets r !! h) as [sock|] eqn:Hs; [|done].
  destruct (fd sock <? 0); [by simplify_eq|]. case_bool_decide.
  { repeat (case_match; try done); simplify_eq; auto. }
  case_bool_decide as Hl.
  { destruct (acceptPending sock || _); simplify_eq; [done|]. apply fire_read_ok, reg_ok_change; [done|].
    intros s Hf. pose proof (find_ok _ _ _ Hr Hf) as []. apply sock_find_Some in Hf as [_ Hf]. simplify_eq.
    split; [|done]. by split. }
  case_bool_decide; [by simplify_eq|].
  destruct (if readable io then poll_read fuel h io r else Ok (true, r)) as [[go r1]| | |] eqn:E; try done.
  assert (reg_ok r1) as Hr1 by (destruct (readable io); [by eapply poll_read_ok|by simplify_eq]).
  injection H as <-. destruct (go && _ && _); [by apply poll_write_ok|done].
Qed.

Lemma pollSockets_ok ios : ∀ r r', pollSockets fuel ios r = Ok r' → reg_ok r → reg_ok r'.
Proof.
  induction ios as [|[h io] ios IH]; intros r r' H Hr; [by simplify_eq/=|]. cbn [pollSockets] in H.
  destruct (pollSocket fuel h io r) as [r1| | |] eqn:E; try done. eapply IH; [exact H|]. by eapply pollSocket_ok.
Qed.
End Polls.

(** ** Ownership *)

(** What the ownership of a socket consists of. *)
Definition key (s : LpcSocket) : option addr * bool * option addr := (owner s, released s, releaseTarget s).

Definition keeps_key (f : LpcSocket → LpcSocket) : Prop := ∀ s, key (f s) = key s.

(** Every socket that stays keeps its key. *)
Definition same_keys (r r' : sreg) : Prop :=
  ∀ h s s', find h r = Some s → find h r' = Some s' → key s' = key s.

Lemma same_keys_refl r : same_keys r r.
Proof. intros h s s' ??. by simplify_eq. Qed.

Lemma same_keys_upd r h f : keeps_key f → same_keys r (upd_sock h f r).
Proof.
  intros Hf h' s s' Hs Hs'. rewrite find_upd, Hs in Hs'. by case_decide; simplify_eq/=.
Qed.

Lemma same_keys_trans r1 r2 r3 :
  same_keys r1 r2 → same_keys r2 r3 → (∀ h, is_Some (find h r1) → is_Some (find h r3) → is_Some (find h r2)) →
  same_keys r1 r3.
Proof.
  intros H12 H23 Hm h s1 s3 H1 H3. destruct (Hm h) as [s2 H2]; [by eexists..|].
  rewrite (H23 _ _ _ H2 H3). by apply (H12 h).
Qed.

Lemma same_keys_remove r (P : Z → Prop) `{∀ h, Decision (P h)} : same_keys r (r <| g_sockets ::= filter P |>).
Proof.
  intros h s s' [_ Hs]%sock_find_Some [_ Hs']%sock_find_Some. simpl in Hs'. by simplify_eq.
Qed.

Lemma same_keys_register f r : reg_ok r → same_keys r (snd (register f r)).
Proof.
  intros Hr h s s' Hs Hs'. rewrite find_register in Hs'. case_decide as Hh; [|by simplify_eq].
  apply sock_find_Some in Hs as [Hin _]. destruct (ok_sockets r Hr h Hin) as [? _]. lia.
Qed.

Lemma same_keys_force h r : same_keys r (forceRemove h r).
Proof. rewrite forceRemove_filter. apply same_keys_remove. Qed.

Lemma find_upd_some h h' f r : is_Some (find h r) → is_Some (find h (upd_sock h' f r)).
Proof. intros H. rewrite find_upd. case_decide; [by apply fmap_is_Some|done]. Qed.

#[local] Hint Resolve same_keys_refl same_keys_upd same_keys_register same_keys_force : core.

(** The operations that are not part of a hand-over leave all keys alone. *)
Lemma plain_same_keys ia op r :
  reg_ok r → match op with OpRelease _ _ _ | OpCancel _ | OpAcquire _ _ _ _ _ => False | _ => True end →
  same_keys r (snd (run_op ia op r)).
Proof.
  intros Hr Hop. destruct op; try done; cbn [run_op].
  - unfold create. cbv zeta. repeat case_if; try done; destruct io; try done; by apply same_keys_register.
  - unfold bind. guards s Hs Hc Ho; [done|]. repeat (case_match; try done);
      apply same_keys_upd; by intros ?.
  - unfold listen. guards s Hs Hc Ho; [done|]. repeat (case_match; try done). by apply same_keys_upd.
  - unfold accept. guards s Hs Hc Ho; [done|]. case_bool_decide; [done|]. case_bool_decide; [done|].
    assert (same_keys r (upd_sock h (λ s, s <| acceptPending := false |>) r)) as Hk by by apply same_keys_upd.
    destruct io as [[[newFd peer] port]|e]; [|by destruct e].
    eapply same_keys_trans; [exact Hk|apply same_keys_register|].
    + by apply reg_ok_unaccept.
    + intros h' Hh _. by apply find_upd_some.
  - unfold connect. guards s Hs Hc Ho; [done|]. repeat (case_match; try done);
      try (by apply same_keys_upd);
      (eapply same_keys_trans; [apply same_keys_upd|apply same_keys_upd|]; [done|done|]);
      intros h' Hh _; by apply find_upd_some.
  - unfold write. guards s Hs Hc Ho; [done|]. repeat (case_match; try done); try apply same_keys_force;
      by apply same_keys_upd.
  - unfold close. guards s Hs Hc Ho; [done|]. apply same_keys_force.
  - unfold closeAllOwnedBy. destruct ow; [apply same_keys_remove|done].
  - apply same_keys_force.
Qed.

(** The change of the key of socket [h]. *)
Inductive key_step (r : sreg) (h : Z) (s : LpcSocket) : sock_op → option addr * bool * option addr → Prop :=
  | key_same op : key_step r h s op (key s)
  | key_release ob c :
      lock (sobjects r) (owner s) = c → released s = false →
      key_step r h s (OpRelease h ob c) (owner s, true, ob)
  | key_cancel : key_step r h s (OpCancel h) (owner s, false, None)
  | key_acquire rc wc cc c :
      released s = true → lock (sobjects r) (releaseTarget s) = c →
      key_step r h s (OpAcquire h rc wc cc c) (c, false, None).

Lemma key_step_same r h s op k : k = key s → key_step r h s op k.
Proof. intros ->. apply key_same. Qed.

Lemma step_keys ia op r h s s' :
  reg_ok r → find h r = Some s → find h (snd (run_op ia op r)) = Some s' → key_step r h s op (key s').
Proof.
  intros Hr Hs Hs'.
  destruct op as [m rc cc ow io|h' a c io name|h' cb c io|h' rc wc c io|h' a rc wc c io|h' m a c io|h' c|ow|h'
    |h' ob c|h'|h' rc wc cc c];
    try (apply key_step_same; by eapply (plain_same_keys ia); [exact Hr| |exact Hs|exact Hs']).
  - cbn [run_op] in Hs'. unfold beginRelease in Hs'. revert Hs'. guards t Ht Hc Ho; cbn [snd].
    { intros Hs'. apply key_step_same. by simplify_eq. }
    destruct (released t) eqn:Hrel; cbn [snd]; [intros Hs'; apply key_step_same; by simplify_eq|].
    rewrite find_upd. destruct (decide (h = h')) as [->|]; intros Hs'; [|apply key_step_same; by simplify_eq].
    rewrite Hs in Hs'. simplify_eq/=. by apply key_release.
  - cbn [run_op snd] in Hs'. unfold cancelRelease in Hs'. destruct (find h' r) as [t|] eqn:Ht.
    + rewrite find_upd in Hs'. destruct (decide (h = h')) as [->|]; [|apply key_step_same; by simplify_eq].
      rewrite Hs in Hs'. simplify_eq/=. apply key_cancel.
    + apply key_step_same. by simplify_eq.
  - cbn [run_op] in Hs'. unfold acquire in Hs'. destruct (find h' r) as [t|] eqn:Ht.
    2:{ apply key_step_same. by simplify_eq/=. }
    case_bool_decide; [apply key_step_same; by simplify_eq/=|].
    destruct (released t) eqn:Hrel; [|apply key_step_same; by simplify_eq/=]. cbn [negb] in Hs'.
    case_bool_decide as Hl; [apply key_step_same; by simplify_eq/=|].
    cbn [snd] in Hs'. rewrite find_upd in Hs'.
    destruct (decide (h = h')) as [->|]; [|apply key_step_same; by simplify_eq/=].
    rewrite Hs in Hs'. simplify_eq/=. by apply key_acquire.
Qed.

(** What takes a socket out of the registry. *)
Inductive removed_by (r : sreg) (h : Z) (s : LpcSocket) : sock_op → Prop :=
  | removed_force : removed_by r h s (OpForce h)
  | removed_all a : lock (sobjects r) (owner s) = Some a → removed_by r h s (OpCloseAll (Some a))
  | removed_close c : lock (sobjects r) (owner s) = c → removed_by r h s (OpClose h c)
  | removed_write m a c io : lock (sobjects r) (owner s) = c → removed_by r h s (OpWrite h m a c io).

Lemma find_grows ia op r h s :
  reg_ok r → find h r = Some s →
  match op with OpClose _ _ | OpCloseAll _ | OpForce _ | OpWrite _ _ _ _ _ => False | _ => True end →
  is_Some (find h (snd (run_op ia op r))).
Proof.
  intros Hr Hs Hop. assert (is_Some (find h r)) as Hi by by eexists.
  assert (∀ f r', is_Some (find h r') → is_Some (find h (snd (register f r')))) as Hreg.
  { intros f r' H. rewrite find_register. by case_decide. }
  destruct op; try done; cbn [run_op snd];
    unfold create, bind, listen, accept, connect, beginRelease, cancelRelease, acquire; cbv zeta;
    try (guards t Ht Hc Ho; [done|]);
    repeat (case_match; try done); try apply Hreg; repeat apply find_upd_some; done.
Qed.

(** C27: ownership of sockets.  Only the owner can operate on a socket: any
    other caller gets the security error and nothing changes.  The owner of a
    socket changes only when the object named in a release by the owner
    acquires it, and a socket leaves the registry only by an operation of its
    owner or by the driver. *)
Theorem sockets_ownership ia op r h s :
  reg_ok r → find h r = Some s →
  (∀ c, owner_op op = Some (h, c) → lock (sobjects r) (owner s) ≠ c → run_op ia op r = (ESecurity, r)) ∧
  (∀ s', find h (snd (run_op ia op r)) = Some s' → key_step r h s op (key s')) ∧
  (find h (snd (run_op ia op r)) = None → removed_by r h s op).
Proof.
  intros Hr Hs. split_and!.
  - intros c Hop Hc. assert (∀ k, guarded h c r k = (ESecurity, r)) as Hg.
    { intros k. unfold guarded. rewrite Hs, bool_decide_eq_false_2; [by rewrite bool_decide_eq_true_2|].
      by destruct (find_ok _ _ _ Hr Hs). }
    destruct op; simplify_eq/=; apply Hg.
  - intros s' Hs'. by eapply step_keys.
  - intros Hn. destruct op as [m rc cc ow io|h' a c io name|h' cb c io|h' rc wc c io|h' a rc wc c io
      |h' m a c io|h' c|ow|h'|h' ob c|h'|h' rc wc cc c];
      try (match goal with |- removed_by _ _ _ ?op =>
             pose proof (find_grows ia op r h s Hr Hs I) as Hi; rewrite Hn in Hi; by destruct Hi end);
      cbn [run_op snd] in Hn.
    + unfold write in Hn. revert Hn. guards t Ht Hc Ho; [intros ?; by simplify_eq/=|]. intros Hn.
      assert (h' = h) as ->; [|simplify_eq; by apply removed_write].
      repeat (case_match; cbn [snd] in Hn; try (by rewrite Hs in Hn));
        first [rewrite find_force in Hn; by case_decide; simplify_eq
              |rewrite find_upd in Hn; case_decide; [done|by rewrite Hs in Hn]].
    + unfold close in Hn. revert Hn. guards t Ht Hc Ho; [intros ?; by simplify_eq/=|]. cbn [snd].
      rewrite find_force. case_decide; [|by rewrite Hs]. intros _. simplify_eq. by apply removed_close.
    + unfold closeAllOwnedBy in Hn. destruct ow as [a|]; [|by rewrite Hs in Hn].
      apply sock_find_Some in Hs as [Hin Hs]. unfold find in Hn. simpl in Hn.
      case_bool_decide as Hf; [by rewrite Hs in Hn|].
      assert (owned_by r a h = true) as Ho.
      { destruct (owned_by r a h) eqn:E; [done|]. destruct Hf. by apply elem_of_filter. }
      unfold owned_by in Ho. rewrite Hs in Ho. prop_tests. by apply removed_all.
    + rewrite find_force in Hn. case_decide; [subst; apply removed_force|by rewrite Hs in Hn].
Qed.

(** C26: the registry keeps its invariant over every run of LPC code, of the
    rest of the driver and of polls with their callbacks, as long as the system
    gives out unused descriptors: each handle names one open socket with that
    handle, no two sockets share a descriptor, a datagram socket never listens
    or connects, an accept is only pending on a listening socket, bytes wait to
    be written only in a connected socket that is marked blocked, so that a
    socket is never unblocked while some are left, and the MUD frame being read
    is shorter than its length, which is within the limit. *)
Theorem sockets_invariant ia r r' : sock_run ia r r' → reg_ok r → reg_ok r'.
Proof.
  induction 1 as [|r r1 r' Hl _ IH|V fuel r ios r1 r' Hc _ Hp _ IH]; [done| |]; intros Hr; apply IH.
  - by eapply lpc_run_ok.
  - by eapply (pollSockets_ok ia V fuel Hc).
Qed.

(** A run: a stream socket is made, released to another object, acquired by
    it and bound. *)
Definition reg0 (os : table) : sreg := mkReg ∅ ∅ 0 os empty_heap.

Lemma reg0_ok os : reg_ok (reg0 os).
Proof. split; [done|intros h Hh; set_solver|]. intros h1 h2 s1 s2 H. by unfold find in H. Qed.

Definition plain_object (name : bytes) : LpcObject :=
  makeLpcObject name 1 (mkCompiledProgram [] [] [] ∅) true 0.

Definition two_objects : table :=
  <[1%positive := plain_object $"/a"]> (<[2%positive := plain_object $"/b"]> ∅).

Definition sample_ops : list sock_op := [
  OpCreate 1 (mk (VStr $"read")) no_value (Some 1%positive) (SocketReady 7);
  OpRelease 0 (Some 2%positive) (Some 1%positive);
  OpAcquire 0 (mk (VStr $"got")) no_value no_value (Some 2%positive);
  OpBind 0 None (Some 2%positive) (Done tt) (Some ($"0.0.0.0", 4000));
  OpCreate 1 no_value no_value (Some 1%positive) (SocketReady 8)].

Definition run_ops (ops : list sock_op) (r : sreg) : sreg :=
  fold_left (λ r op, snd (run_op (λ _, 0) op r)) ops r.

Lemma fresh_none op r : op_fd op = None → fresh_fd op r.
Proof. intros H f h s Hf. congruence. Qed.

Lemma run_ops_run ops r :
  (∀ n op, ops !! n = Some op → fresh_fd op (run_ops (take n ops) r)) → lpc_run (λ _, 0) r (run_ops ops r).
Proof.
  induction ops as [|op ops IH] in r |- *; intros Hf; [apply lpc_nil|].
  apply lpc_op with (op := op); [by apply (Hf 0%nat op)|].
  apply IH. intros n op' Hn. by apply (Hf (S n) op').
Qed.

Lemma fresh_checked op r f :
  op_fd op = Some f →
  forallb (λ h, match find h r with Some s => negb (fd s =? f) | None => true end) (elements (g_sockets r)) = true →
  fresh_fd op r.
Proof.
  intros Hop Hall f' h s Hf' Hs. simplify_eq. pose proof Hs as [Hin _]%sock_find_Some.
  rewrite forallb_Forall, Forall_forall in Hall. specialize (Hall h ltac:(by apply elem_of_elements)).
  rewrite Hs in Hall. by prop_tests.
Qed.

Lemma sample_fresh n op : sample_ops !! n = Some op → fresh_fd op (run_ops (take n sample_ops) (reg0 two_objects)).
Proof.
  intros Hn. do 5 (destruct n as [|n]; [injection Hn as <-; first
    [by apply fresh_none | eapply fresh_checked; [reflexivity|vm_compute; reflexivity]]|]).
  by destruct n.
Qed.

Definition silent : SocketVM := {| callClosure := λ _ _ r, r; callFunction := λ _ _ _ r, r |}.

(** A socket is connected, found writable, written to in part, and the next
    poll writes one byte more. *)
Definition connected : sreg :=
  run_ops [OpCreate 1 no_value no_value (Some 1%positive) (SocketReady 7);
    OpConnect 0 $"127.0.0.1 4000" no_value no_value (Some 1%positive) (Failed E_INPROGRESS)] (reg0 two_objects).

Definition polled (io : poll_io) (r : sreg) : sreg :=
  match pollSockets (H := silent) 10 [(0, io)] r with Ok r' => r' | _ => r end.

Definition written : sreg :=
  run_ops [OpWrite 0 (mk (VStr $"hello")) None (Some 1%positive) (Done 2)]
    (polled (mkPoll false true None (Failed E_AGAIN) (Failed E_AGAIN)) connected).

Definition flushed_once : sreg := polled (mkPoll false true None (Failed E_AGAIN) (Done 1)) written.

Lemma polled_run io r r' :
  match pollSockets (H := silent) 10 [(0, io)] r with Ok _ => bool_decide (0 ∈ g_sockets r) | _ => false end = true →
  sock_run (λ _, 0) (polled io r) r' → sock_run (λ _, 0) r r'.
Proof.
  unfold polled. destruct (pollSockets _ _ r) as [r1| | |] eqn:E; try done. intros Hin%bool_decide_eq_true.
  apply (run_poll (λ _, 0) silent 10 r [(0, io)]); [by split; intros; apply lpc_nil| |done].
  by intros h io' [= -> _]%list_elem_of_singleton.
Qed.

Lemma connected_run : lpc_run (λ _, 0) (reg0 two_objects) connected.
Proof.
  apply run_ops_run. intros n op Hn.
  do 2 (destruct n as [|n]; [injection Hn as <-; first
    [by apply fresh_none | eapply fresh_checked; [reflexivity|vm_compute; reflexivity]]|]). by destruct n.
Qed.

Lemma sockets_invariant_witness :
  reg_ok flushed_once ∧
  (λ s, (blocked s, pendingWrite s)) <$> find 0 flushed_once = Some (true, $"lo").
Proof.
  split; [|vm_compute; reflexivity].
  apply (sockets_invariant (λ _, 0) (reg0 two_objects)); [|apply reg0_ok].
  apply run_lpc with (r1 := connected); [apply connected_run|].
  apply (polled_run (mkPoll false true None (Failed E_AGAIN) (Failed E_AGAIN))); [vm_compute; reflexivity|].
  apply run_lpc with (r1 := written).
  { apply run_ops_run. intros n op Hn. destruct n as [|n]; [injection Hn as <-; by apply fresh_none|by destruct n]. }
  apply (polled_run (mkPoll false true None (Failed E_AGAIN) (Done 1))); [vm_compute; reflexivity|]. apply run_nil.
Defined.

(** The second object may not bind the socket of the first. *)
Lemma sockets_ownership_witness :
  run_op (λ _, 0) (OpBind 0 None (Some 2%positive) (Done tt) None) (run_ops (take 1 sample_ops) (reg0 two_objects)) =
  (ESecurity, run_ops (take 1 sample_ops) (reg0 two_objects)).
Proof.
  refine (proj1 (sockets_ownership (λ _, 0) (OpBind 0 None (Some 2%positive) (Done tt) None) _ 0
    ((newSocket 0 7 Stream (Some 1%positive)) <| readCallback := mk (VStr $"read") |>) _ _)
    (Some 2%positive) eq_refl _).
  - apply (step_ok (λ _, 0) (OpCreate 1 (mk (VStr $"read")) no_value (Some 1%positive) (SocketReady 7))
      (reg0 two_objects)); [apply reg0_ok|].
    eapply fresh_checked; [reflexivity|vm_compute; reflexivity].
  - vm_compute. reflexivity.
  - vm_compute. discriminate.
Defined.
