(* ===== verification/MudFrames.v ===== *)
(** * MUD frames

    A stream socket in MUD mode carries values, each as a length in network
    order and a saved value.  The driver gets them whatever way the network
    cuts the stream. *)

From S2P Require Import Prelude Doubles Values Trees SaveVariable Objects Sockets SocketsSpec.

Definition be32_bytes (n : Z) : bytes := [chr (n / 2 ^ 24); chr (n / 2 ^ 16); chr (n / 2 ^ 8); chr n].

Definition frame (p : bytes) : bytes := be32_bytes (size p) ++ p.
Definition frames (ps : list bytes) : bytes := concat (map frame ps).

(** The driver accepts the length. *)
Definition frame_ok (p : bytes) : Prop := 0 < size p ≤ kMudMaxByteTransfer.

Lemma be32_be32_bytes n : 0 ≤ n < 2 ^ 32 → be32 (be32_bytes n) = n.
Proof.
  intros Hn. unfold be32, be32_bytes. cbn [foldl]. rewrite !code_chr.
  pose proof (Z.div_mod n 256 ltac:(lia)). pose proof (Z.mod_pos_bound n 256 ltac:(lia)).
  change (2 ^ 8) with 256. change (2 ^ 16) with (256 * 256). change (2 ^ 24) with (256 * 256 * 256).
  rewrite <- !Z.div_div by lia.
  pose proof (Z.div_mod (n / 256) 256 ltac:(lia)). pose proof (Z.div_mod (n / 256 / 256) 256 ltac:(lia)).
  assert (n / 256 / 256 / 256 < 256) by (repeat (apply Z.div_lt_upper_bound; [lia|]); lia).
  assert (0 ≤ n / 256 / 256 / 256) by (repeat (apply Z.div_pos; [|lia]); lia).
  rewrite (Z.mod_small (n / 256 / 256 / 256)) by lia. lia.
Qed.

Lemma takez_take {A} n (s : list A) : 0 ≤ n → takez n s = take (Z.to_nat n) s.
Proof. intros Hn. unfold takez, size. case_if; prop_tests; [|done]. rewrite take_ge; [done|lia]. Qed.

Lemma dropz_drop {A} n (s : list A) : 0 ≤ n → dropz n s = drop (Z.to_nat n) s.
Proof. intros Hn. unfold dropz, size. case_if; prop_tests; [|done]. rewrite drop_ge; [done|lia]. Qed.

Lemma takez_dropz {A} n (s : list A) : 0 ≤ n → takez n s ++ dropz n s = s.
Proof. intros Hn. rewrite takez_take, dropz_drop by done. apply take_drop. Qed.

(** ** Changes of one socket *)

Lemma lookup_upd h f r s : sockets r !! h = Some s → sockets (upd_sock h f r) !! h = Some (f s).
Proof. intros H. unfold upd_sock. simpl. by rewrite lookup_alter_eq, H. Qed.

Lemma upd_ext h f g r s :
  sockets r !! h = Some s → f s = g s → upd_sock h f r = upd_sock h g r.
Proof.
  intros Hs Hfg. unfold upd_sock, update. simpl. f_equal. apply map_eq. intros i.
  destruct (decide (i = h)) as [->|]; [rewrite !lookup_alter_eq, Hs; simpl; by f_equal|].
  by rewrite !lookup_alter_ne.
Qed.

Lemma upd_upd h f g r : upd_sock h g (upd_sock h f r) = upd_sock h (λ s, g (f s)) r.
Proof.
  unfold upd_sock, update. simpl. f_equal. apply map_eq. intros i.
  destruct (decide (i = h)) as [->|]; [|by rewrite !lookup_alter_ne].
  rewrite !lookup_alter_eq. by destruct (sockets r !! h).
Qed.

Lemma upd_id h f r s : sockets r !! h = Some s → f s = s → upd_sock h f r = r.
Proof.
  intros Hs Hf. destruct r as [ss g n o hp]. unfold upd_sock, update. simpl in *. f_equal.
  apply map_eq. intros i. destruct (decide (i = h)) as [->|]; [by rewrite lookup_alter_eq, Hs; simpl; rewrite Hf|].
  by rewrite lookup_alter_ne.
Qed.

Section Frames.
Context `{SocketVM} (fuel : nat) (h : Z).

(** The callbacks leave the socket alone. *)
Definition quiet_vm : Prop :=
  (∀ c args r, sockets (callClosure c args r) !! h = sockets r !! h) ∧
  (∀ a f args r, sockets (callFunction a f args r) !! h = sockets r !! h).

(** The callbacks for a list of bodies, one after the other. *)
Fixpoint deliver (ps : list bytes) (r : sreg) : result sreg :=
  match ps with
  | [] => Ok r
  | p :: ps => let* (v, r) := mud_value fuel p r in deliver ps (fire_read h [v] r)
  end.

(** No frame is under way. *)
Definition idle (s : LpcSocket) : Prop :=
  mudWaitingForHeader s = true ∧ mudHeader s = [] ∧ mudReadLen s = 0 ∧ mudReadBuf s = [].

Definition in_frame (len : Z) (b : bytes) (s : LpcSocket) : LpcSocket :=
  s <| mudHeader := [] |> <| mudReadLen := len |> <| mudWaitingForHeader := false |> <| mudReadBuf := b |>.

(** The socket after the bytes [p] of a frame. *)
Definition partial (p : bytes) (s : LpcSocket) : LpcSocket :=
  if size p <? 4 then s <| mudHeader := p |> else in_frame (be32 (takez 4 p)) (dropz 4 p) s.

Context (Hvm : quiet_vm) (s0 : LpcSocket) (Hidle : idle s0).

Lemma idle_partial : partial [] s0 = s0.
Proof. destruct s0, Hidle as (?&?&?&?). simpl in *. by subst. Qed.

Lemma idle_clear len b : clear_frame (in_frame len b s0) = s0.
Proof. destruct s0, Hidle as (?&?&?&?). simpl in *. by subst. Qed.

Lemma fire_read_socket args r : sockets (fire_read h args r) !! h = sockets r !! h.
Proof.
  destruct Hvm as [H1 H2]. unfold fire_read, fireSocketCallback. destruct (sockets r !! h) eqn:E; [|done].
  rewrite <- E. repeat case_match; try done; auto.
Qed.

Lemma mud_value_upd f p r :
  mud_value fuel p (upd_sock h f r) = let* (v, r1) := mud_value fuel p r in Ok (v, upd_sock h f r1).
Proof. unfold mud_value. simpl. by destruct (parseRestoreVariableTopLevel _ _ _) as [[v hp]|e| |]. Qed.

Lemma mud_value_sockets p r v r1 : mud_value fuel p r = Ok (v, r1) → sockets r1 = sockets r.
Proof.
  unfold mud_value. destruct (parseRestoreVariableTopLevel _ _ _) as [[v' hp]|e| |]; try done;
    by intros [= <- <-].
Qed.

(** The body of a frame of which [b] has come. *)
Lemma mud_body_step rec len b buf r :
  sockets r !! h = Some s0 → size b ≤ len →
  mud_body fuel rec h buf (in_frame len b s0) (upd_sock h (in_frame len b) r) =
  (if size (b ++ buf) <? len then Ok (false, upd_sock h (in_frame len (b ++ buf)) r)
   else let* (v, r) := mud_value fuel (takez len (b ++ buf)) r in
        rec (dropz len (b ++ buf)) (fire_read h [v] r)).
Proof.
  intros Hs Hb. unfold mud_body. simpl mudReadLen. simpl mudReadBuf.
  assert (0 ≤ size b) by (unfold size; lia). assert (0 ≤ size buf) by (unfold size; lia).
  rewrite size_app. rewrite (takez_take (len - size b)), (dropz_drop (len - size b)) by lia.
  destruct (size b + size buf <? len) eqn:E; prop_tests.
  - rewrite take_ge by (unfold size in *; lia). rewrite size_app.
    rewrite (proj2 (Z.ltb_lt _ _)) by lia. by rewrite upd_upd.
  - assert (Z.to_nat len = length b + Z.to_nat (len - size b))%nat as Hn by (unfold size in *; lia).
    rewrite takez_take, dropz_drop, Hn, take_app_add, drop_app_add by lia.
    rewrite !size_app. rewrite (proj2 (Z.ltb_ge (size b + size buf) len)) by lia.
    assert (size (take (Z.to_nat (len - size b)) buf) = len - size b) as ->
      by (unfold size in *; rewrite length_take; lia).
    rewrite (proj2 (Z.ltb_ge _ _)) by lia. rewrite mud_value_upd.
    destruct (mud_value fuel _ r) as [[v r1]|e| |] eqn:Ev; try done. simpl.
    apply mud_value_sockets in Ev.
    rewrite upd_upd. rewrite (upd_id h _ _ s0); [done|by rewrite Ev|apply idle_clear].
Qed.

(** One turn of the loop, on the bytes of the frame received so far. *)
Lemma mud_loop_step n p buf r t :
  sockets r !! h = Some s0 → buf ≠ [] → t = p ++ buf →
  (4 ≤ size t → 0 < be32 (takez 4 t) ≤ kMudMaxByteTransfer ∧ size p < 4 + be32 (takez 4 t)) →
  mud_loop fuel (S n) h buf (upd_sock h (partial p) r) =
  (if (size t <? 4) || (size (dropz 4 t) <? be32 (takez 4 t)) then Ok (false, upd_sock h (partial t) r)
   else let* (v, r) := mud_value fuel (takez (be32 (takez 4 t)) (dropz 4 t)) r in
        mud_loop fuel n h (dropz (be32 (takez 4 t)) (dropz 4 t)) (fire_read h [v] r)).
Proof.
  intros Hs Hbuf Ht Hok. cbn [mud_loop]. destruct buf as [|c0 buf0] eqn:Eb; [done|]. rewrite <- Eb in *.
  rewrite (lookup_upd _ _ _ _ Hs).
  assert (0 ≤ size p) by (unfold size; lia). assert (0 ≤ size buf) by (unfold size; lia).
  assert (size t = size p + size buf) as Hst by (by rewrite Ht, size_app).
  destruct (size p <? 4) eqn:Ep; prop_tests.
  - assert (partial p = λ s, s <| mudHeader := p |>) as Hp.
    { unfold partial. by rewrite (proj2 (Z.ltb_lt _ _)). }
    rewrite Hp. destruct Hidle as (Hw&_). simpl mudWaitingForHeader. rewrite Hw. simpl mudHeader.
    rewrite (takez_take (4 - size p)), (dropz_drop (4 - size p)) by lia.
    destruct (size t <? 4) eqn:Et; prop_tests; simpl orb.
    + rewrite take_ge, size_app by (unfold size in *; lia).
      rewrite (proj2 (Z.ltb_lt _ _)) by lia. rewrite upd_upd. f_equal. f_equal.
      apply (upd_ext _ _ _ _ s0 Hs). unfold partial. rewrite (proj2 (Z.ltb_lt _ _)) by lia. by subst t.
    + assert (Z.to_nat 4 = length p + Z.to_nat (4 - size p))%nat as Hn by (unfold size in *; lia).
      assert (p ++ take (Z.to_nat (4 - size p)) buf = takez 4 t) as Hword
        by (subst t; rewrite takez_take, Hn, take_app_add by lia; done).
      assert (drop (Z.to_nat (4 - size p)) buf = dropz 4 t) as Hrest
        by (subst t; rewrite dropz_drop, Hn, drop_app_add by lia; done).
      rewrite Hword, Hrest. destruct (Hok Et) as [Hlen _].
      assert (size (takez 4 t) = 4) as Hw4 by (rewrite takez_take by lia; unfold size in *; rewrite length_take; lia).
      rewrite Hw4. cbn [Z.ltb Z.compare Pos.compare Pos.compare_cont].
      rewrite (proj2 (Z.eqb_neq _ _)), (proj2 (Z.ltb_ge _ _)) by lia. cbn [orb].
      rewrite !upd_upd.
      pose proof (mud_body_step (mud_loop fuel n h) (be32 (takez 4 t)) [] (dropz 4 t) r Hs
                    ltac:(unfold size; simpl; lia)) as E. simpl app in E.
      rewrite (upd_ext h _ (in_frame (be32 (takez 4 t)) []) r s0 Hs) by done.
      etrans; [exact E|]. destruct (size (dropz 4 t) <? _); [|done]. do 2 f_equal.
      apply (upd_ext _ _ _ _ s0 Hs). unfold partial. by rewrite (proj2 (Z.ltb_ge _ _)) by lia.
  - destruct (Hok ltac:(lia)) as [Hlen Hp]. rewrite (proj2 (Z.ltb_ge (size t) 4)) by lia. cbn [orb].
    assert (takez 4 t = takez 4 p) as Hword.
    { subst t. rewrite !takez_take by lia. apply take_app_le. unfold size in *; lia. }
    assert (dropz 4 t = dropz 4 p ++ buf) as Hrest.
    { subst t. rewrite !dropz_drop by lia. apply drop_app_le. unfold size in *; lia. }
    assert (partial p = in_frame (be32 (takez 4 t)) (dropz 4 p)) as Hpp.
    { unfold partial. by rewrite (proj2 (Z.ltb_ge _ _)), Hword. }
    rewrite Hpp, Hrest. simpl mudWaitingForHeader. cbn iota.
    rewrite mud_body_step; [|done|].
    + destruct (_ <? _); [|done]. do 2 f_equal.
      apply (upd_ext _ _ _ _ s0 Hs). unfold partial. by rewrite (proj2 (Z.ltb_ge (size t) 4)), Hrest by lia.
    + rewrite dropz_drop by lia. unfold size in *. rewrite length_drop. lia.
Qed.

Lemma mud_frame_size p : size (frame p) = 4 + size p.
Proof. unfold frame, size. rewrite length_app. simpl. lia. Qed.

Lemma takez_frame p s : takez 4 (frame p ++ s) = be32_bytes (size p).
Proof. by rewrite takez_take. Qed.

Lemma dropz_frame p s : dropz 4 (frame p ++ s) = p ++ s.
Proof. by rewrite dropz_drop. Qed.

(** [q] begins the stream of the frames [ps] and has no whole frame. *)
Definition begun (q : bytes) (ps : list bytes) : Prop :=
  match ps with [] => q = [] | p :: _ => size q < size (frame p) end.

Lemma mud_loop_frames n : ∀ ps p buf later r r',
  (length buf < n)%nat → Forall frame_ok ps → begun p ps → p ++ buf ++ later = frames ps →
  sockets r !! h = Some s0 → deliver ps r = Ok r' →
  ∃ todo q r1, begun q todo ∧ Forall frame_ok todo ∧ q ++ later = frames todo ∧
    deliver todo r1 = Ok r' ∧ sockets r1 !! h = Some s0 ∧
    mud_loop fuel n h buf (upd_sock h (partial p) r) = Ok (false, upd_sock h (partial q) r1).
Proof.
  induction n as [|n IH]; intros ps p buf later r r' Hn Hps Hp Hall Hs Hr'; [lia|].
  destruct (decide (buf = [])) as [->|Hbuf]; [by exists ps, p, r|].
  destruct ps as [|p1 ps].
  { by destruct p, buf. }
  assert (frames (p1 :: ps) = frame p1 ++ frames ps) as Hf by done.
  pose proof (Forall_inv Hps) as [H0 H1]. unfold begun in Hp. rewrite mud_frame_size in Hp.
  assert (0 ≤ size p1 < 2 ^ 32) as H32 by (unfold kMudMaxByteTransfer in H1; lia).
  assert (4 ≤ size (p ++ buf) → takez 4 (p ++ buf) = be32_bytes (size p1)) as Hword.
  { intros H4. transitivity (takez 4 ((p ++ buf) ++ later)).
    - rewrite !takez_take by lia. symmetry. apply take_app_le. unfold size in *. lia.
    - rewrite <- app_assoc, Hall, Hf. apply takez_frame. }
  rewrite (mud_loop_step n p buf r _ Hs Hbuf eq_refl).
  2:{ intros H4. rewrite Hword, be32_be32_bytes by done. lia. }
  destruct (decide (size (p ++ buf) < 4 + size p1)) as [Hlt|Hge].
  - exists (p1 :: ps), (p ++ buf), r.
    split_and!; [by unfold begun; rewrite mud_frame_size|done|by rewrite <- app_assoc|done|done|].
    destruct (size (p ++ buf) <? 4) eqn:E4; [done|]. prop_tests.
    rewrite Hword, be32_be32_bytes, dropz_drop by done || lia.
    rewrite (proj2 (Z.ltb_lt _ _)); [done|]. unfold size in *. rewrite length_drop. lia.
  - rewrite Hword, be32_be32_bytes by done || lia.
    rewrite (proj2 (Z.ltb_ge _ _)) by lia. cbn [orb].
    assert (∃ s, p ++ buf = frame p1 ++ s ∧ s ++ later = frames ps) as (s & Hs1 & Hs2).
    { rewrite app_assoc, Hf in Hall. apply app_eq_inv in Hall as [(k & H2 & H3)|(k & H2 & H3)]; [by exists k|].
      assert (k = []) as ->.
      { apply (f_equal size) in H2. rewrite size_app, mud_frame_size in H2.
        destruct k; [done|]. unfold size in *. simpl in *. lia. }
      exists []. rewrite app_nil_r in *. simpl in *. by rewrite H2. }
    rewrite Hs1, dropz_frame.
    rewrite takez_take, dropz_drop by lia.
    assert (Z.to_nat (size p1) = length p1) as -> by (unfold size; lia).
    rewrite take_app_length, drop_app_length, size_app.
    pose proof (size_nonneg s). rewrite (proj2 (Z.ltb_ge _ _)) by lia.
    simpl in Hr'. destruct (mud_value fuel p1 r) as [[v r1]|e| |] eqn:Ev; try done. simpl in Hr' |- *.
    assert (sockets (fire_read h [v] r1) !! h = Some s0) as Hs'.
    { rewrite fire_read_socket. by rewrite (mud_value_sockets _ _ _ _ Ev). }
    destruct (IH ps [] s later (fire_read h [v] r1) r') as (todo & q & r2 & HH); try done.
    + apply (f_equal size) in Hs1. rewrite !size_app, mud_frame_size in Hs1. unfold size in *. lia.
    + by apply Forall_inv_tail in Hps.
    + destruct ps; [done|]. unfold begun. rewrite mud_frame_size. unfold size in *. simpl. lia.
    + by rewrite (upd_id _ _ _ s0 Hs' idle_partial) in HH; exists todo, q, r2.
Qed.

(** What polling sees when the bytes [c] come. *)
Definition brings (c : bytes) (io : poll_io) : Prop :=
  readable io = true ∧ received io = Done c ∧ c ≠ [].

(** A socket that reads MUD frames. *)
Definition mud_reader (s : LpcSocket) : Prop :=
  0 ≤ fd s ∧ mode s = Mud ∧ state s = DataXfer ∧ blocked s = false.

Lemma partial_reader p s : mud_reader s → mud_reader (partial p s).
Proof. unfold partial, in_frame. by case_if. Qed.

Lemma pollSocket_reader c io r s :
  sockets r !! h = Some s → mud_reader s → brings c io →
  pollSocket fuel h io r =
  let* (_, r) := mud_loop fuel (S (length c)) h c r in Ok r.
Proof.
  intros Hs (Hfd & Hm & Hst & Hb) (Hr & Hc & Hne). unfold pollSocket, poll_read.
  rewrite Hs, Hm, Hst, Hb, Hr, Hc. rewrite (proj2 (Z.ltb_ge _ _)) by done.
  cbn -[mud_loop]. destruct c as [|a c]; [done|]. destruct (mud_loop fuel (S (length (a :: c))) h (a :: c) r) as [[[] r1]|e| |]; done.
Qed.

Lemma pollSockets_frames chunks ios : Forall2 brings chunks ios → ∀ ps p r r',
  Forall frame_ok ps → begun p ps → p ++ concat chunks = frames ps →
  mud_reader s0 → sockets r !! h = Some s0 → deliver ps r = Ok r' →
  pollSockets fuel ((h,.) <$> ios) (upd_sock h (partial p) r) = Ok r'.
Proof.
  induction 1 as [|c io chunks ios Hio _ IH]; intros ps p r r' Hps Hp Hall Hrd Hs Hr'.
  - simpl. simpl in Hall. rewrite app_nil_r in Hall. destruct ps as [|p1 ps].
    + simpl in *. subst p. simplify_eq. by rewrite (upd_id _ _ _ s0 Hs idle_partial).
    + exfalso. unfold begun in Hp. subst p. change (frames (p1 :: ps)) with (frame p1 ++ frames ps) in Hp.
      rewrite size_app in Hp. pose proof (size_nonneg (frames ps)). lia.
  - cbn [concat] in Hall.
    destruct (mud_loop_frames (S (length c)) ps p c (concat chunks) r r') as (todo & q & r1 & Hq & Htodo & Hc & Hd & Hs1 & Hloop);
      try done; [lia|].
    cbn [fmap list_fmap pollSockets].
    rewrite (pollSocket_reader c io _ _ (lookup_upd _ _ _ _ Hs) (partial_reader _ _ Hrd) Hio), Hloop.
    cbn [rbind].
    by apply (IH todo).
Qed.

(** C28: A MUD socket delivers the values of the frames its peer sends, each
    once and in order, to the read callback, however the network cuts the
    stream into reads. *)
Theorem mud_frames_delivered ps chunks ios r r'
    (Hps : Forall frame_ok ps) (Hios : Forall2 brings chunks ios) (Hall : concat chunks = frames ps)
    (Hrd : mud_reader s0) (Hs : sockets r !! h = Some s0) (Hr' : deliver ps r = Ok r') :
  pollSockets fuel ((h,.) <$> ios) r = Ok r'.
Proof.
  rewrite <- (upd_id _ (partial []) r s0 Hs idle_partial).
  apply (pollSockets_frames _ _ Hios ps); try done. destruct ps; [done|].
  unfold begun. rewrite mud_frame_size. unfold size. simpl. lia.
Qed.
End Frames.

(** ** A frame that stops the driver *)

Lemma strip_nuls_keep a c p : Ascii.eqb c NUL = false → ∃ p', strip_nuls (a ++ c :: p) = a ++ c :: p'.
Proof.
  intros Hc. unfold strip_nuls. rewrite reverse_app, reverse_cons, <- app_assoc. generalize (reverse p) as l.
  intros l. induction l as [|d l IH]; simpl.
  - rewrite Hc. simpl. rewrite reverse_cons, reverse_involutive. by exists [].
  - destruct (Ascii.eqb d NUL).
    + destruct IH as [p' IH]. exists p'. by destruct (span _ _).
    + exists (reverse (d :: l)). simpl.
      rewrite reverse_cons, reverse_app, (reverse_cons (reverse a)), reverse_involutive.
      by rewrite (reverse_cons l), <- !app_assoc.
Qed.

(** A body that begins an array with a byte that no value starts with is never
    read to its end: the driver stays in the poll. *)
Lemma mud_value_hangs fuel c p r :
  stuck c = true → Ascii.eqb c NUL = false → mud_value fuel ($"({" ++ c :: p) r = OutOfFuel.
Proof.
  intros Hc H0. unfold mud_value. destruct (strip_nuls_keep $"({" c p H0) as [p' ->].
  rewrite toplevel_nested by done. destruct fuel as [|n]; [done|]. cbn [app].
  change ($"({" ++ c :: p') with ("("%char :: "{"%char :: c :: p').
  rewrite (parse_S_open _ "{") by done. cbn [tail]. by rewrite array_loop_stuck.
Qed.

(** A peer that sends such a frame stops the driver. *)
Lemma mud_frame_hangs `{SocketVM} fuel h io r s c p :
  sockets r !! h = Some s → mud_reader s → idle s → stuck c = true → Ascii.eqb c NUL = false →
  frame_ok ($"({" ++ c :: p) → brings (frame ($"({" ++ c :: p)) io →
  pollSocket fuel h io r = OutOfFuel.
Proof.
  intros Hs Hrd Hidle Hc H0 Hok Hio. set (b := $"({" ++ c :: p) in *.
  rewrite (pollSocket_reader _ _ _ _ _ _ Hs Hrd Hio).
  rewrite <- (upd_id h (partial []) r s Hs (idle_partial s Hidle)).
  rewrite (mud_loop_step fuel h s Hidle _ [] (frame b) r (frame b ++ [])); [|done|done|by rewrite app_nil_r|].
  - rewrite takez_frame, dropz_frame, be32_be32_bytes, !app_nil_r by (unfold frame_ok, kMudMaxByteTransfer in Hok; lia).
    pose proof (mud_frame_size b) as Hfs. rewrite Hfs. destruct Hok. rewrite (proj2 (Z.ltb_ge _ _)) by lia.
    rewrite Z.ltb_irrefl. cbn [orb]. rewrite takez_take by lia.
    rewrite take_ge by (unfold size; lia). unfold b. by rewrite mud_value_hangs.
  - intros _. rewrite takez_frame, be32_be32_bytes by (unfold frame_ok, kMudMaxByteTransfer in Hok; lia).
    unfold frame_ok in Hok. split; [lia|]. unfold size. simpl. lia.
Qed.

(** ** Example *)

(** A program whose callbacks note the numbers they get. *)
#[local] Instance note_vm : SocketVM := {
  callClosure _ _ r := r;
  callFunction _ _ args r :=
    match args with
    | [_; v] => match vdata v with VInt i => r <| g_nextHandle ::= λ n, 100 * n + i |> | _ => r end
    | _ => r
    end;
}.

Definition mud_socket : LpcSocket :=
  (newSocket 0 7 Mud (Some 1%positive)) <| state := DataXfer |> <| readCallback := mk (VStr $"got") |>.

Definition mud_reg : sreg := snd (register (λ _, mud_socket) (reg0 two_objects)).

Definition read_io (c : bytes) : poll_io := mkPoll true false None (Done c) (Done 0).

Definition delivered : sreg :=
  match deliver 100 0 [$"7"; $"12"] mud_reg with Ok r => r | _ => mud_reg end.

(** The frames of 7 and 12, cut inside the first header and the second body. *)
Lemma mud_frames_delivered_witness :
  pollSockets 100 ((0,.) <$> map read_io [take 2 (frames [$"7"; $"12"]);
      take 8 (drop 2 (frames [$"7"; $"12"])); drop 10 (frames [$"7"; $"12"])]) mud_reg = Ok delivered ∧
  g_nextHandle delivered = 10712.
Proof.
  split; [|vm_compute; reflexivity].
  eapply (mud_frames_delivered 100 0 ltac:(split; intros; cbn; repeat case_match; reflexivity) mud_socket
    ltac:(split_and!; reflexivity) [$"7"; $"12"]).
  - repeat constructor; vm_compute; discriminate.
  - repeat constructor; vm_compute; discriminate.
  - vm_compute. reflexivity.
  - split_and!; [vm_compute; discriminate|reflexivity..].
  - vm_compute. reflexivity.
  - vm_compute. reflexivity.
Defined.
